(* ===== verification/_CoqProject ===== *)
-Q . S2P
Prelude.v
Buffer.v
InputQueue.v
HttpParser.v
Digits.v
HttpReader.v
HttpResponse.v
HttpContext.v
Any.v
Thread.v
LogStream.v
AsyncLogging.v
LogFile.v
LogPipeline.v
Channel.v
TcpConnection.v
FileStream.v
Duration.v
Socket.v
TimerQueue.v
LoopLife.v
EventLoop.v
CrossThread.v
EventLoopThread.v
Main.v
TcpServer.v
Teardown.v
WebChat.v
IdleTimers.v
Served.v
Behaviour.v
ChatSystem.v
Delivery.v
