(* ===== verification/Prelude.v ===== *)
(** * AegisNet: a verification library for the asynchronous network framework

    The repository is a reactor in C++: event loops over epoll, non-blocking TCP
    connections with buffered output, timers, an incremental HTTP parser, asynchronous
    logging, and a chat server on top of them (src/main.cpp).  This library translates its
    components into executable definitions and proves what makes each of them, and some of
    their compositions, correct.

    ** Conventions

    A C++ object is a record of its data members, with the names of the source; a method
    is a function of the same name.  What a method does to the rest of the world (system
    calls, functors queued on a loop, callbacks, output) is a list of effects; what the
    world answers (system calls, the clock, allocation addresses, what other threads do)
    is an argument.  Undefined or fatal behaviour is a value: [outcome] is a result or a
    [fault] (out-of-bounds access, failed assertion, null or dangling pointer, signed
    overflow, bad conversion, ...), so that "no fault" is part of what theorems state.
    Integers are [Z] with the wrap-around of their width written out; bytes are lists of
    [ascii].  [ST] is the monad of state, effects and faults, [wp] and [wlp] its weakest
    preconditions.  Threads interleave by labels: one atomic step of one thread each, and
    a run is a list of labels, so that theorems hold of every interleaving.

    ** The files

    - Prelude: the monad, integers, byte lists, automation ([wp_steps], [wlp_steps],
      [zbool], [zclosed]) and the generic lemmas.
    - Buffer (src/src/tcp/Buffer.{h,cpp}): every operation.  [buffer_refines_queue]: a sequence
      of operations is one on a plain byte queue; also [readFd_lossless],
      [append_reuses_space], [prependInt32_readInt32].
    - InputQueue: the class of operations a parser needs, with its laws; the buffer and
      the byte list are its instances, and the parsers are proved against the class.
    - HttpParser (src/src/tcp/HttpParser.{h,cpp}): [parseRequest] with its loop, whose fuel is
      the number of bytes plus a constant and is proved to be enough ([parseRequest_total]).
      [parse_fragments]: fragmentation is invisible; [parse_render_roundtrip];
      [accepted_request_framed], [ambiguous_framing_refused]: what is accepted is framed
      without ambiguity.
    - HttpReader: a client's reading of a response, against which responses are checked.
    - HttpResponse (src/src/tcp/HttpResponse.{h,cpp}): [built_response_read_back].
    - HttpContext (src/src/tcp/HttpContext.{h,cpp}, HttpRequest.h): the earlier parser with its
      string_views into the buffer: [request_shown_by_views], [parse_returns_or_loops].
    - Any (src/src/base/Any.h): holders on a heap; [any_refines_values],
      [any_cast_type_safe].
    - Thread (src/src/base/Thread.{h,cpp}, CurrentThread.{h,cpp}): names, starts, joins, cached ids.
    - Digits: std::to_string, zero-padded numbers, and reading them back.
    - LogStream (src/src/base/LogStream.h, Logger.{h,cpp}): [FixedBuffer], insertions (a
      double as %f, rounded exactly), records: [stream_refines_text],
      [statement_outputs_record].
    - AsyncLogging, LogFile (src/src/base/): producers and backend as labels
      ([log_text_preserved], [iteration_writes_everything]), rolled files
      ([log_file_bounded]).
    - LogPipeline: the composition of the three with [asyncOutput] of src/main.cpp:
      [statements_reach_files].
    - Channel (src/src/net/Channel.{h,cpp}, Epoll.cpp): masks, epoll_ctl, dispatch:
      [epoll_protocol].
    - TcpConnection (src/src/tcp/TcpConnection.{h,cpp}): every method; a run is a list of events
      ([TcpConnection.event]).  [output_stream_integrity], [half_close_after_drain],
      [state_advances], [watermarks_alternate], [output_drains],
      [file_descriptors_accounted].
    - FileStream: one file of a connection: [file_sent_in_order].
    - Duration, TimerQueue (src/src/net/TimerQueue.{h,cpp}): the conversion of a double in
      binary64 ([secondsToMicroseconds_in_range]); timers on a heap, callbacks that add and
      cancel timers while they run: [expired_timers_dispatched], [canceled_never_fires],
      [active_timer_armed], [addTimer_schedules], [one_shot_fires_once].
    - Socket (src/src/net/Socket.{h,cpp}, src/src/base/Timestamp.h): one system call per method.
    - LoopLife (constructors and destructors of EventLoop.cpp, Epoll.cpp, TimerQueue.cpp):
      [loop_lifecycle], against a kernel that knows which descriptors are open.
    - EventLoop (src/src/net/EventLoop.{h,cpp}): the loop's thread and others as labels:
      [no_lost_wakeup], [functors_run_in_order], [iteration_runs_pending],
      [runEvery_positive].
    - CrossThread: a connection, its channel and its loop, used by the loop's thread and by
      others, the composition of EventLoop, Channel and TcpConnection:
      [cross_thread_sends_in_order].
    - EventLoopThread (src/src/pool/EventLoopThread.{h,cpp}): the owner, the new thread with an
      [EventLoop.t], the mutex and the condition variable with spurious wakeups:
      [startLoop_returns], [startLoop_returns_live_loop], [early_quit_is_forgotten].
    - Main (src/main.cpp): [main()] statement by statement with signals at any moment:
      [signal_shuts_down].
    - TcpServer (src/src/tcp/TcpServer.{h,cpp}, Acceptor.{h,cpp}, src/src/pool/EventLoopThreadPool.{h,cpp},
      src/src/net/InetAddress.{h,cpp}): connections as [TcpConnection.t] with the loop they were
      given to and the functors queued on the loops: [connections_lifecycle],
      [connections_round_robin], [connection_names_distinct].
    - Teardown: constructor and destructor of the acceptor with their system calls, and the
      destructor of the server: [destructor_takes_down]; and the server that
      [WebChatServer]'s constructor makes of it: [chat_connections].
    - WebChat (src/main.cpp): the handlers of [WebChatServer] and a world with its timers:
      [timers_follow_connections], [idle_connection_closed], [refused_request_answered],
      [response_framed], [requests_answered].
    - IdleTimers: the handlers of [WebChatServer] on the timer queues of their loops, the
      composition of WebChat, EventLoop's [runAfter] and [cancel], TimerQueue and Duration:
      [timeouts_on_time], [timers_implemented].
    - Served: one connection of the chat server from its socket to its socket, the
      composition of TcpConnection, HttpParser and WebChat: [requests_served].
    - Behaviour: what an operation of a connection can make others do.
    - ChatSystem: the chat server with all of its connections, loops and timers, the
      composition of TcpServer, TcpConnection, Channel and WebChat:
      [members_are_connections], [chat_settles].
    - Delivery: what one user's message does to the others, in that system:
      [posts_reach_users].

    ** How the parts interact

    [Channel] operations are called by TcpConnection, TcpServer, Teardown and LoopLife
    through [on_channel] or directly; [Buffer] by TcpConnection and, through [InputQueue],
    by the parsers.  TcpServer runs the connections' own events; WebChat takes the state of
    a connection as an argument, its world plays what the calls on it do to that state, and
    Served replaces that by the connection itself.  ChatSystem puts WebChat's world on top of
    TcpServer's objects: its invariant is that of TcpServer together with that of WebChat's
    world read off these objects, so that both components' theorems are used as they are.
    IdleTimers runs WebChat's handlers on TimerQueue, where [handleRead] calls them in place, and
    its runs are runs of WebChat's world: what the world supposes of identifiers and timers
    holds of the queues.
    CrossThread runs the functors that a connection queues as those of an EventLoop, by
    number.  EventLoopThread and Main run the steps
    of EventLoop; EventLoop.runEvery is that of TimerQueue.  LogPipeline runs Logger,
    AsyncLogging and LogFile.

    ** Bounds and fuel

    The parsers' loops have fuel, with a theorem that the fuel given is enough, or, for the
    earlier parser in the states from which its loop never ends, that none is.  The chat
    server's loop over the requests in a buffer has fuel two above the number of bytes, as
    each request takes at least one.  Everything else is structural or a list of labels.
    Buffers stay below [max_size()], connection numbers and threads below [2^31], file
    sizes and clock readings in the range of their types: where a theorem needs it, it is a
    hypothesis on the run ([event_ok], [enabled], [label_ok], ...).

    ** What is not modelled

    - In TcpConnection a user callback that calls back into its connection is the events that
      it makes, after the event that called it; in Served the calls of [onMessage], and in
      ChatSystem those of every callback, are run in place.
    - [setOutputBufferWatermarks] is configuration: set before the events of a run.
    - In TcpConnection the functors that a connection queues on its loop ([FSendInLoop], ...)
      are effects, and come back as events; in CrossThread and ChatSystem they are queued and
      run.  ChatSystem has two queues for a loop, one of the server and one of the
      connections, and serves them in any order: more runs than the code has.  A connection is
      named by its number where the code uses its address, and the order of the set of users
      is that of the numbers.
    - The steps of one connection's handlers are atomic on its loop, in ChatSystem with the
      calls they make on connections of other loops (these test [state_] and queue); what other threads do
      to it is [send], [shutdown] and [forceClose] in one step each, except that the two
      accesses of [shutdown] are told apart where it matters ([shutdown_race]).
    - In ChatSystem the identifiers of timers are arguments that are new, as in WebChat's world,
      which IdleTimers shows of TimerQueue; in IdleTimers what happens to a connection comes
      at any moment, also between two timers that one [handleRead] calls, where the code
      has the loop return first: more runs than the code has.
    - Timers are told apart by address; an address is not used again while a run lasts.
    - The contents of the log lines of the framework itself, and what is printed to the
      terminal besides the texts named in effects.
    - The destruction of the server and its threads at the end of [main()] is
      [DestroyLocals]; the destructors are Teardown, EventLoopThread and LoopLife.
    - Singleton, noncopyable and Callbacks declare types and delete copies; getters of
      single members, the [CheckLoopNotNull] of constructors whose callers all pass a loop,
      and the [std::any] context of a connection, which nothing reads, are left out. *)

From stdpp Require Export base tactics list gmap strings numbers option relations.
From Stdlib Require Export ZArith Lia Ascii.

#[global] Open Scope Z_scope.

(** ** Notations, in a scope of their own *)

Declare Scope aegis_scope.
Delimit Scope aegis_scope with aegis.
#[global] Open Scope aegis_scope.

(** A C++ [char] buffer or [std::string]: a list of 8-bit characters. *)
Abbreviation bytes := (list ascii).

(** The bytes of a string literal. *)
Definition str (s : string) : bytes := String.list_ascii_of_string s.

(** A character as [unsigned char]: its code in [0, 255]. *)
Definition uchar (c : ascii) : Z := Z.of_N (N_of_ascii c).

(** The character whose code is given, modulo 256. *)
Definition chr (z : Z) : ascii := ascii_of_N (Z.to_N (z `mod` 256)).

(** The length of a byte string, as the [size_t] the code computes with. *)
Definition blen (s : bytes) : Z := Z.of_nat (length s).

(** ** Machine integers: the widths the code uses, with their wrap-around *)

Definition u64 (x : Z) : Z := x `mod` 2^64.
Definition u32 (x : Z) : Z := x `mod` 2^32.
(** Conversion to a signed 32-bit integer (two's complement). *)
Definition s32 (x : Z) : Z := (x + 2^31) `mod` 2^32 - 2^31.
Definition SIZE_MAX : Z := 2^64 - 1.
Definition INT64_MAX : Z := 2^63 - 1.

(** ** Undefined behaviour, failed assertions and exceptions as values *)

Inductive fault :=
| AssertFailure      (** an [assert] of the code does not hold *)
| OutOfBounds        (** a read or a write outside of its object *)
| OverlappingCopy    (** [std::copy] onto a range that starts in its source *)
| LengthError        (** [std::length_error]: a vector above [max_size()] *)
| NullDereference    (** a dereferenced null smart pointer *)
| EmptyContainer     (** [back()]/[pop_back()] of an empty vector *)
| BadFunctionCall    (** an empty [std::function] is called *)
| BadCast            (** an object is used through a pointer of another type *)
| DanglingPointer    (** an object is used outside of its lifetime *)
| SignedOverflow     (** a signed integer operation out of its range *)
| BadConversion      (** a floating-point value out of the range of the integer type *)
| OutOfFuel.         (** the fuel given to a loop is used up *)

#[export] Instance fault_eq_dec : EqDecision fault.
Proof. solve_decision. Defined.

Inductive outcome (A : Type) :=
| Ok (a : A)
| Fault (f : fault).
Arguments Ok {A} a.
Arguments Fault {A} f.

Definition obind {A B} (m : outcome A) (k : A -> outcome B) : outcome B :=
  match m with Ok a => k a | Fault f => Fault f end.

Notation "'let!' x := m 'in' k" := (obind m (fun x => k))
  (at level 10, x pattern, m at level 100, k at level 200) : aegis_scope.

(** [require c f k]: [k] when the condition holds, the fault [f] otherwise. *)
Definition require {A} (c : bool) (f : fault) (k : outcome A) : outcome A :=
  if c then k else Fault f.

Lemma obind_Ok {A B} (m : outcome A) (k : A -> outcome B) b :
  obind m k = Ok b <-> exists a, m = Ok a /\ k a = Ok b.
Proof.
  destruct m as [a|f]; simpl; split.
  - eauto.
  - by intros (? & [= ->] & ?).
  - done.
  - by intros (? & ? & _).
Qed.

Lemma require_true {A} c f (k : outcome A) : c = true -> require c f k = k.
Proof. by intros ->. Qed.

(** ** Operations on an object: state, effects and faults

    [ST S E A]: an operation on an object of type [S] that returns an [A], may
    fault, and does the effects [E] (system calls, calls of other objects), which
    it records in order. *)

Definition ST (S E A : Type) : Type := S -> outcome (A * S * list E).

Definition st_ret {S E A} (a : A) : ST S E A := fun s => Ok (a, s, []).
Definition st_bind {S E A B} (m : ST S E A) (k : A -> ST S E B) : ST S E B :=
  fun s =>
    match m s with
    | Ok (a, s1, e1) =>
        match k a s1 with
        | Ok (b, s2, e2) => Ok (b, s2, e1 ++ e2)
        | Fault f => Fault f
        end
    | Fault f => Fault f
    end.
Definition st_get {S E} : ST S E S := fun s => Ok (s, s, []).
Definition st_modify {S E} (f : S -> S) : ST S E unit := fun s => Ok (tt, f s, []).
Definition st_tell {S E} (e : list E) : ST S E unit := fun s => Ok (tt, s, e).
Definition st_lift {S E A} (m : outcome A) : ST S E A :=
  fun s => match m with Ok a => Ok (a, s, []) | Fault f => Fault f end.
Definition st_when {S E} (b : bool) (m : ST S E unit) : ST S E unit :=
  if b then m else st_ret tt.

Notation "'let*' x := m 'in' k" := (st_bind m (fun x => k))
  (at level 10, x pattern, m at level 100, k at level 200) : aegis_scope.
Notation "m1 ;;; m2" := (st_bind m1 (fun _ => m2))
  (at level 100, right associativity) : aegis_scope.

(** Weakest precondition: [m] does not fault on [s], and [Q] holds of its result,
    of the new state and of the effects. *)
Definition wp {S E A} (m : ST S E A) (s : S) (Q : A -> S -> list E -> Prop) : Prop :=
  match m s with Ok (a, s', es) => Q a s' es | Fault _ => False end.

Section wp.
Context {S E : Type}.
Implicit Types s : S.

Lemma wp_elim {A} (m : ST S E A) s Q :
  wp m s Q -> exists a s' es, m s = Ok (a, s', es) /\ Q a s' es.
Proof. unfold wp. destruct (m s) as [[[a s'] es]|]; [eauto | done]. Qed.

Lemma wp_intro {A} (m : ST S E A) s Q a s' es :
  m s = Ok (a, s', es) -> Q a s' es -> wp m s Q.
Proof. unfold wp. by intros ->. Qed.

Lemma wp_mono {A} (m : ST S E A) s (Q Q' : A -> S -> list E -> Prop) :
  wp m s Q -> (forall a s' es, Q a s' es -> Q' a s' es) -> wp m s Q'.
Proof. unfold wp. destruct (m s) as [[[a s'] es]|]; eauto. Qed.

Lemma wp_ret {A} (a : A) s (Q : A -> S -> list E -> Prop) : Q a s [] -> wp (st_ret a) s Q.
Proof. done. Qed.

Lemma wp_bind {A B} (m : ST S E A) (k : A -> ST S E B) s Q :
  wp m s (fun a s1 e1 => wp (k a) s1 (fun b s2 e2 => Q b s2 (e1 ++ e2))) ->
  wp (st_bind m k) s Q.
Proof.
  unfold wp, st_bind. destruct (m s) as [[[a s1] e1]|]; [|done].
  by destruct (k a s1) as [[[b s2] e2]|].
Qed.

Lemma wp_get s (Q : S -> S -> list E -> Prop) : Q s s [] -> wp st_get s Q.
Proof. done. Qed.

Lemma wp_modify f s (Q : unit -> S -> list E -> Prop) :
  Q tt (f s) [] -> wp (st_modify f) s Q.
Proof. done. Qed.

Lemma wp_tell e s (Q : unit -> S -> list E -> Prop) : Q tt s e -> wp (st_tell e) s Q.
Proof. done. Qed.

Lemma wp_lift {A} (m : outcome A) a s (Q : A -> S -> list E -> Prop) :
  m = Ok a -> Q a s [] -> wp (st_lift m) s Q.
Proof. unfold wp, st_lift. by intros ->. Qed.

Lemma wp_when b (m : ST S E unit) s Q :
  (b = true -> wp m s Q) -> (b = false -> Q tt s []) -> wp (st_when b m) s Q.
Proof. destruct b; simpl; intros H1 H2; [by apply H1 | by apply H2]. Qed.
End wp.

(** Weakest liberal precondition: where [m] does not fault on [s], [Q] holds. *)
Definition wlp {S E A} (m : ST S E A) (s : S) (Q : A -> S -> list E -> Prop) : Prop :=
  forall a s' es, m s = Ok (a, s', es) -> Q a s' es.

Section wlp.
Context {S E : Type}.
Implicit Types s : S.

Lemma wlp_mono {A} (m : ST S E A) s (Q Q' : A -> S -> list E -> Prop) :
  wlp m s Q -> (forall a s' es, Q a s' es -> Q' a s' es) -> wlp m s Q'.
Proof. unfold wlp. eauto. Qed.

Lemma wlp_ret {A} (a : A) s (Q : A -> S -> list E -> Prop) : Q a s [] -> wlp (st_ret a) s Q.
Proof. by intros H a' s' es [= <- <- <-]. Qed.

Lemma wlp_bind {A B} (m : ST S E A) (k : A -> ST S E B) s Q :
  wlp m s (fun a s1 e1 => wlp (k a) s1 (fun b s2 e2 => Q b s2 (e1 ++ e2))) ->
  wlp (st_bind m k) s Q.
Proof.
  unfold wlp, st_bind. intros H b s2 es. destruct (m s) as [[[a s1] e1]|]; [|done].
  destruct (k a s1) as [[[b' s2'] e2]|] eqn:Hk; [|done]. intros [= <- <- <-]. by eapply H.
Qed.

Lemma wlp_get s (Q : S -> S -> list E -> Prop) : Q s s [] -> wlp st_get s Q.
Proof. by intros H a' s' es [= <- <- <-]. Qed.

Lemma wlp_modify f s (Q : unit -> S -> list E -> Prop) :
  Q tt (f s) [] -> wlp (st_modify f) s Q.
Proof. by intros H a' s' es [= <- <- <-]. Qed.

Lemma wlp_tell e s (Q : unit -> S -> list E -> Prop) : Q tt s e -> wlp (st_tell e) s Q.
Proof. by intros H a' s' es [= <- <- <-]. Qed.

Lemma wlp_lift {A} (m : outcome A) s (Q : A -> S -> list E -> Prop) :
  (forall a, m = Ok a -> Q a s []) -> wlp (st_lift m) s Q.
Proof.
  unfold wlp, st_lift. intros H a s' es. destruct m as [x|]; [|done]. intros [= <- <- <-]. by apply H.
Qed.

Lemma wlp_when b (m : ST S E unit) s Q :
  (b = true -> wlp m s Q) -> (b = false -> Q tt s []) -> wlp (st_when b m) s Q.
Proof. destruct b; simpl; intros H1 H2; [by apply H1 | by apply wlp_ret, H2]. Qed.
End wlp.

(** ** Results of system calls

    A system call is not code of the repository: what it returned is an
    argument of the operation that makes it. *)

Inductive sysret :=
| SysOk (n : Z)          (** a non-negative return value *)
| SysErr (errno : Z).    (** -1, with [errno] set *)

(** The Linux error numbers the code distinguishes. *)
Definition EINTR : Z := 4.
Definition EAGAIN : Z := 11.
Definition EWOULDBLOCK : Z := 11.
Definition EPIPE : Z := 32.
Definition ECONNRESET : Z := 104.

(** ** Memory: reads and writes of a contiguous object *)

(** The bytes at positions [from, to). *)
Definition slice {A} (from to : Z) (m : list A) : list A :=
  take (Z.to_nat (to - from)) (drop (Z.to_nat from) m).

(** [m] with the bytes [d] written at position [pos]. *)
Definition overwrite {A} (pos : Z) (d m : list A) : list A :=
  take (Z.to_nat pos) m ++ d ++ drop (Z.to_nat pos + length d) m.

(** [std::find(first, last, c)] on the range [s]: the offset of the first [c],
    the length of the range (that is [last]) when there is none. *)
Fixpoint find_char (c : ascii) (s : bytes) : nat :=
  match s with
  | [] => 0%nat
  | x :: s' => if Ascii.eqb x c then 0%nat else S (find_char c s')
  end.

(** [std::search(first, last, pat, pat + 2)] on the range [s]: the offset of the
    first occurrence of the two characters [a], [b], if any. *)
Fixpoint search2 (a b : ascii) (s : bytes) : option nat :=
  match s with
  | x :: ((y :: _) as s') =>
      if Ascii.eqb x a && Ascii.eqb y b then Some 0%nat
      else S <$> search2 a b s'
  | _ => None
  end.

(** [std::string]'s operator<: lexicographic on the characters as unsigned. *)
Fixpoint string_lt (s t : bytes) : bool :=
  match s, t with
  | _, [] => false
  | [], _ :: _ => true
  | x :: s, y :: t =>
      if uchar x <? uchar y then true
      else if uchar y <? uchar x then false
      else string_lt s t
  end.

(** ** Reachability: invariants of step relations *)

Section reachability.
Context {St : Type} (step : St -> St -> Prop).

(** An invariant: true initially, and preserved by every step. *)
Lemma rtc_invariant (I : St -> Prop) s s' :
  (forall x y, I x -> step x y -> I y) -> I s -> rtc step s s' -> I s'.
Proof. intros Hstep HI Hrtc. induction Hrtc; eauto. Qed.
End reachability.

(** ** Automation *)

Create HintDb aegis.

(** Case analysis on every [match] and [if] of the goal or of a hypothesis. *)
Ltac cases :=
  repeat match goal with
  | |- context [match ?x with _ => _ end] => destruct x eqn:?; simplify_eq/=
  | H : context [match ?x with _ => _ end] |- _ => destruct x eqn:?; simplify_eq/=
  end.

(** Boolean comparisons on [Z] as propositions. *)
Ltac zbool :=
  repeat match goal with
  | H : (_ <? _) = true |- _ => apply Z.ltb_lt in H
  | H : (_ <? _) = false |- _ => apply Z.ltb_ge in H
  | H : (_ <=? _) = true |- _ => apply Z.leb_le in H
  | H : (_ <=? _) = false |- _ => apply Z.leb_gt in H
  | H : (_ =? _) = true |- _ => apply Z.eqb_eq in H
  | H : (_ =? _) = false |- _ => apply Z.eqb_neq in H
  | H : _ && _ = true |- _ => apply andb_true_iff in H as [? ?]
  | H : _ || _ = false |- _ => apply orb_false_iff in H as [? ?]
  | H : negb _ = true |- _ => apply negb_true_iff in H
  | H : negb _ = false |- _ => apply negb_false_iff in H
  end.

(** Removes the wrap-arounds that a bound in the context shows idle. *)
Ltac nowrap := rewrite ?Z.mod_small by lia.

(** Closes a comparison or a conjunction of comparisons of closed numbers. *)
Ltac zclosed := vm_compute; repeat split; (discriminate || reflexivity).

(** Applies the rule of the head of a [wp] goal. *)
Ltac wp_step :=
  lazymatch goal with
  | |- wp (st_bind _ _) _ _ => apply wp_bind
  | |- wp (st_ret _) _ _ => apply wp_ret
  | |- wp st_get _ _ => apply wp_get
  | |- wp (st_modify _) _ _ => apply wp_modify
  | |- wp (st_tell _) _ _ => apply wp_tell
  | |- wp (st_when _ _) _ _ => apply wp_when; intros ?
  | |- wp (if ?b then _ else _) _ _ => destruct b eqn:?
  | |- wp (match ?r with _ => _ end) _ _ => destruct r eqn:?
  end; cbv beta.
Ltac wp_steps := repeat wp_step.

(** The same for [wlp]. *)
Ltac wlp_step :=
  lazymatch goal with
  | |- wlp (st_bind _ _) _ _ => apply wlp_bind
  | |- wlp (st_ret _) _ _ => apply wlp_ret
  | |- wlp st_get _ _ => apply wlp_get
  | |- wlp (st_modify _) _ _ => apply wlp_modify
  | |- wlp (st_tell _) _ _ => apply wlp_tell
  | |- wlp (st_lift _) _ _ => apply wlp_lift; intros ? ?
  | |- wlp (st_when _ _) _ _ => apply wlp_when; intros ?
  | |- wlp (if ?b then _ else _) _ _ => destruct b eqn:?
  | |- wlp (match ?r with _ => _ end) _ _ => destruct r eqn:?
  end; cbv beta.
Ltac wlp_steps := repeat wlp_step.

(** ** Generic lemmas *)

Lemma u64_small x : 0 <= x < 2^64 -> u64 x = x.
Proof. apply Z.mod_small. Qed.

Lemma blen_nonneg s : 0 <= blen s.
Proof. unfold blen. lia. Qed.
#[export] Hint Resolve blen_nonneg : aegis.

Lemma blen_app s t : blen (s ++ t) = blen s + blen t.
Proof. unfold blen. rewrite length_app. lia. Qed.

Lemma take_blen_app s t : take (Z.to_nat (blen s)) (s ++ t) = s.
Proof. unfold blen. rewrite Nat2Z.id. apply take_app_length. Qed.

Lemma drop_blen_app s t : drop (Z.to_nat (blen s)) (s ++ t) = t.
Proof. unfold blen. rewrite Nat2Z.id. apply drop_app_length. Qed.

Lemma length_slice {A} from to (m : list A) :
  0 <= from <= to -> to <= Z.of_nat (length m) ->
  Z.of_nat (length (slice from to m)) = to - from.
Proof. intros. unfold slice. rewrite length_take, length_drop. lia. Qed.

Lemma slice_nil {A} from (m : list A) : slice from from m = [].
Proof. unfold slice. by rewrite Z.sub_diag, take_0. Qed.

Lemma slice_drop {A} from to n (m : list A) :
  0 <= from -> 0 <= n -> from + n <= to ->
  slice (from + n) to m = drop (Z.to_nat n) (slice from to m).
Proof.
  intros. unfold slice. rewrite skipn_firstn_comm, drop_drop.
  f_equal; [lia|]. f_equal. lia.
Qed.

Lemma slice_take {A} from to n (m : list A) :
  0 <= n -> from + n <= to ->
  slice from (from + n) m = take (Z.to_nat n) (slice from to m).
Proof. intros. unfold slice. rewrite take_take. f_equal. lia. Qed.

Lemma length_overwrite {A} pos (d m : list A) :
  0 <= pos -> pos + Z.of_nat (length d) <= Z.of_nat (length m) ->
  length (overwrite pos d m) = length m.
Proof.
  intros. unfold overwrite.
  rewrite !length_app, length_take, length_drop. lia.
Qed.

(** What was written is read back, after what was there before it. *)
Lemma slice_overwrite_end {A} from pos (d m : list A) :
  0 <= from <= pos -> pos + Z.of_nat (length d) <= Z.of_nat (length m) ->
  slice from (pos + Z.of_nat (length d)) (overwrite pos d m) = slice from pos m ++ d.
Proof.
  intros. unfold slice, overwrite.
  rewrite drop_app_le by (rewrite length_take; lia).
  rewrite app_assoc, take_app_le
    by (rewrite length_app, length_drop, length_take; lia).
  rewrite take_ge by (rewrite length_app, length_drop, length_take; lia).
  f_equal. rewrite skipn_firstn_comm. do 2 f_equal. lia.
Qed.

(** What was written is read back, before what follows it. *)
Lemma slice_overwrite_start {A} pos to (d m : list A) :
  0 <= pos -> pos + Z.of_nat (length d) <= to -> to <= Z.of_nat (length m) ->
  slice pos to (overwrite pos d m) = d ++ slice (pos + Z.of_nat (length d)) to m.
Proof.
  intros. unfold slice, overwrite.
  rewrite drop_app_ge by (rewrite length_take; lia).
  rewrite length_take.
  replace (Z.to_nat pos - Z.to_nat pos `min` length m)%nat with 0%nat by lia.
  rewrite drop_0, firstn_app. rewrite take_ge by lia.
  do 3 f_equal; lia.
Qed.

Lemma slice_resize {A} from to (m pad : list A) n :
  to <= Z.of_nat (length m) -> to <= Z.of_nat n -> 0 <= from <= to ->
  slice from to (take n m ++ pad) = slice from to m.
Proof.
  intros. unfold slice.
  rewrite drop_app_le by (rewrite length_take; lia).
  rewrite take_app_le by (rewrite length_drop, length_take; lia).
  rewrite skipn_firstn_comm, take_take. f_equal. lia.
Qed.

Lemma uchar_chr z : uchar (chr z) = z `mod` 256.
Proof.
  unfold uchar, chr. pose proof (Z.mod_pos_bound z 256).
  rewrite N_ascii_embedding; lia.
Qed.

Lemma uchar_range c : 0 <= uchar c < 256.
Proof. unfold uchar. pose proof (N_ascii_bounded c). lia. Qed.

Lemma search2_cons a b x s :
  search2 a b (x :: s) =
    match s with
    | y :: _ => if Ascii.eqb x a && Ascii.eqb y b then Some 0%nat else S <$> search2 a b s
    | [] => None
    end.
Proof. by destruct s. Qed.

#[global] Arguments search2 : simpl never.

(** Where the two characters are found. *)
Lemma search2_Some a b s i :
  search2 a b s = Some i ->
  exists l r, s = l ++ a :: b :: r /\ length l = i /\ search2 a b (l ++ [a]) = None.
Proof.
  revert i. induction s as [|x s IH]; intros i; [done|]. rewrite search2_cons.
  destruct s as [|y s]; [done|].
  destruct (Ascii.eqb x a && Ascii.eqb y b) eqn:E.
  - intros [= <-]. apply andb_true_iff in E as [->%Ascii.eqb_eq ->%Ascii.eqb_eq].
    by exists [], s.
  - destruct (search2 a b (y :: s)) as [j|] eqn:Hj; [|done]. intros [= <-].
    destruct (IH j eq_refl) as (l & r & Hs & Hl & Hn). exists (x :: l), r.
    split_and!; [by rewrite Hs | by simpl; rewrite Hl |].
    change ((x :: l) ++ [a]) with (x :: (l ++ [a])). rewrite search2_cons.
    destruct l as [|z l]; simpl in *; simplify_eq; rewrite E; [done|].
    simpl in Hn. by rewrite Hn.
Qed.

(** Nothing found before: characters appended do not move what was found. *)
Lemma search2_app a b l r :
  search2 a b (l ++ [a]) = None -> search2 a b (l ++ a :: b :: r) = Some (length l).
Proof.
  induction l as [|x l IH]; intros H.
  - simpl. rewrite search2_cons. by rewrite !Ascii.eqb_refl.
  - simpl in *. rewrite search2_cons in H |- *. destruct l as [|y l]; simpl in *.
    + destruct (Ascii.eqb x a && Ascii.eqb a b); [done|]. by rewrite IH.
    + destruct (Ascii.eqb x a && Ascii.eqb y b); [done|].
      destruct (search2 a b (y :: l ++ [a])) eqn:E; [done|]. by rewrite IH.
Qed.

Lemma search2_bound a b s i : search2 a b s = Some i -> (i + 2 <= length s)%nat.
Proof.
  intros (l & r & -> & <- & _)%search2_Some. rewrite length_app. simpl. lia.
Qed.

Lemma search2_extend a b s d i :
  search2 a b s = Some i -> search2 a b (s ++ d) = Some i.
Proof.
  intros (l & r & -> & <- & Hn)%search2_Some. rewrite <- app_assoc. by apply search2_app.
Qed.

Lemma find_char_le c s : (find_char c s <= length s)%nat.
Proof. induction s as [|x s IH]; simpl; [done|]. destruct (_ =? _)%char; lia. Qed.

(** A character that is not in the range is not found before its end. *)
Lemma find_char_app c s t :
  forallb (fun x => negb (Ascii.eqb x c)) s = true ->
  find_char c (s ++ t) = (length s + find_char c t)%nat.
Proof.
  induction s as [|x s IH]; simpl; [done|].
  intros [Hx Hs]%andb_true_iff. apply negb_true_iff in Hx. rewrite Hx, IH by done. done.
Qed.

Lemma find_char_here c s : find_char c (c :: s) = 0%nat.
Proof. simpl. by rewrite Ascii.eqb_refl. Qed.

Lemma find_char_none c s :
  forallb (fun x => negb (Ascii.eqb x c)) s = true -> find_char c s = length s.
Proof.
  intros H. rewrite <- (app_nil_r s) at 1. rewrite find_char_app by done. simpl. lia.
Qed.

(** A property of the 256 characters, by evaluation. *)
Lemma ascii_forall (f : ascii -> bool) :
  forallb (fun n => f (ascii_of_N (N.of_nat n))) (seq 0 256) = true -> forall c, f c = true.
Proof.
  intros H c. rewrite <- (ascii_N_embedding c).
  assert (N_of_ascii c < 256)%N by apply N_ascii_bounded.
  rewrite forallb_forall in H. specialize (H (N.to_nat (N_of_ascii c))).
  rewrite N2Nat.id in H. apply H. apply in_seq. lia.
Qed.

(** Without the second character there is nothing to find. *)
Lemma search2_none a b l :
  b <> a -> forallb (fun x => negb (Ascii.eqb x b)) l = true ->
  search2 a b (l ++ [a]) = None.
Proof.
  intros Hab. induction l as [|x l IH]; intros Hl; [done|]. simpl in Hl.
  apply andb_true_iff in Hl as [_ Hl]. simpl. rewrite search2_cons, (IH Hl).
  destruct l as [|y l]; simpl in *.
  - replace (a =? b)%char with false; [by rewrite andb_false_r|].
    symmetry. apply Ascii.eqb_neq. congruence.
  - apply andb_true_iff in Hl as [Hy _]. apply negb_true_iff in Hy.
    by rewrite Hy, andb_false_r.
Qed.

(** A class of characters inside another one. *)
Lemma forallb_impl {A} (f g : A -> bool) l :
  (forall x, f x = true -> g x = true) -> forallb f l = true -> forallb g l = true.
Proof. intros Hfg. rewrite !forallb_forall. eauto. Qed.

Lemma existsb_forallb {A} (f : A -> bool) l :
  existsb f l = false -> forallb (fun x => negb (f x)) l = true.
Proof.
  induction l as [|x l IH]; simpl; [done|].
  intros [-> ?]%orb_false_iff. by rewrite IH.
Qed.

Lemma uchar_inj x y : uchar x = uchar y -> x = y.
Proof.
  unfold uchar. intros H. rewrite <- (ascii_N_embedding x), <- (ascii_N_embedding y).
  f_equal. lia.
Qed.

Lemma string_lt_irrefl s : string_lt s s = false.
Proof. induction s as [|x s IH]; [done|]. simpl. by rewrite Z.ltb_irrefl. Qed.

Lemma string_lt_trans s : forall t u,
  string_lt s t = true -> string_lt t u = true -> string_lt s u = true.
Proof.
  induction s as [|x s IH]; intros [|y t] [|z u]; simpl; try done.
  destruct (uchar x <? uchar y) eqn:E1, (uchar y <? uchar x) eqn:E2,
    (uchar y <? uchar z) eqn:E3, (uchar z <? uchar y) eqn:E4; try done; zbool; intros H1 H2;
    try lia;
    (rewrite (proj2 (Z.ltb_lt (uchar x) (uchar z))) by lia; done) ||
    (rewrite !(proj2 (Z.ltb_ge _ _)) by lia; by apply (IH t)).
Qed.

Lemma string_lt_total s : forall t, string_lt s t = false -> string_lt t s = false -> s = t.
Proof.
  induction s as [|x s IH]; intros [|y t]; simpl; try done.
  destruct (uchar x <? uchar y) eqn:E1, (uchar y <? uchar x) eqn:E2; try done.
  zbool. intros. f_equal; [apply uchar_inj; lia | by apply IH].
Qed.

Lemma string_lt_ne s t : string_lt s t = true -> s <> t.
Proof. intros H ->. by rewrite string_lt_irrefl in H. Qed.

(** ** Interleavings *)

(** The messages of two senders in one stream: each sender's in order. *)
Inductive merged {A} : list A -> list A -> list A -> Prop :=
| merged_nil : merged [] [] []
| merged_left x l r m : merged l r m -> merged (x :: l) r (x :: m)
| merged_right x l r m : merged l r m -> merged l (x :: r) (x :: m).

Lemma merged_app {A} (l1 l2 r1 r2 m1 m2 : list A) :
  merged l1 r1 m1 -> merged l2 r2 m2 -> merged (l1 ++ l2) (r1 ++ r2) (m1 ++ m2).
Proof. induction 1; [done|..]; intros; cbn [app]; constructor; auto. Qed.

Lemma merged_own {A} (l : list A) : merged l [] l.
Proof. induction l; by constructor. Qed.

Lemma merged_other {A} (r : list A) : merged [] r r.
Proof. induction r; by constructor. Qed.

Lemma merged_snoc_left {A} (l r m : list A) x : merged l r m -> merged (l ++ [x]) r (m ++ [x]).
Proof. intros H. rewrite <- (app_nil_r r). by apply merged_app, merged_own. Qed.

Lemma merged_snoc_right {A} (l r m : list A) x : merged l r m -> merged l (r ++ [x]) (m ++ [x]).
Proof. intros H. rewrite <- (app_nil_r l). by apply merged_app, merged_other. Qed.

(** ** Folds of steps that may fault *)

Section ofold.
Context {A St : Type} (f : A -> St -> outcome St) (ok : A -> St -> Prop).

Fixpoint ofold (xs : list A) (s : St) : outcome St :=
  match xs with
  | [] => Ok s
  | x :: xs => let! s := f x s in ofold xs s
  end.

(** The condition [ok] of each step holds when it is its turn. *)
Fixpoint ofold_ok (xs : list A) (s : St) : Prop :=
  match xs with
  | [] => True
  | x :: xs => ok x s /\ match f x s with Ok s => ofold_ok xs s | Fault _ => True end
  end.

Lemma ofold_ok_cons x xs s s' : ok x s -> f x s = Ok s' -> ofold_ok xs s' -> ofold_ok (x :: xs) s.
Proof. intros Hx E H. cbn [ofold_ok]. by rewrite E. Qed.

Lemma ofold_app xs ys s : ofold (xs ++ ys) s = let! s := ofold xs s in ofold ys s.
Proof. revert s. induction xs as [|x xs IH]; intros s; [done|]. simpl. destruct (f x s); [apply IH | done]. Qed.

Lemma ofold_ok_app xs ys s :
  ofold_ok (xs ++ ys) s ->
  ofold_ok xs s /\ forall s', ofold xs s = Ok s' -> ofold_ok ys s'.
Proof.
  revert s. induction xs as [|x xs IH]; intros s; simpl; [by intros H; split; [|intros s' [= <-]]|].
  intros [Hx H]. destruct (f x s) as [s1|]; [|done]. simpl. destruct (IH s1 H). by split.
Qed.

(** An invariant that every step keeps, for the steps of a list. *)
Lemma ofold_inv (P : A -> Prop) (I : St -> Prop) xs s :
  (forall x s, P x -> I s -> ok x s -> exists s', f x s = Ok s' /\ I s') ->
  Forall P xs -> I s -> ofold_ok xs s -> exists s', ofold xs s = Ok s' /\ I s'.
Proof.
  intros Hf HP. revert s. induction HP as [|x xs Hx HP IH]; intros s Hs; cbn [ofold ofold_ok]; [by eauto|].
  intros [Hok Hrest]. destruct (Hf x s Hx Hs Hok) as (s1 & E & H1). rewrite E in *. by apply IH.
Qed.
End ofold.
