(* ===== verification/Buffer.v ===== *)
(** * Buffer: the growable byte buffer of src/src/tcp/Buffer.{h,cpp}

    A [Buffer.t] is the vector [buffer_] with the read and write positions.
    Sizes are [size_t], computed modulo [2^64]; a broken assertion, an access
    outside of the vector, an overlapping [std::copy] and a vector larger than
    [max_size()] are faults.  [Buffer.wf] is the class invariant and
    [Buffer.contents] the abstract value, the bytes between the positions: the
    buffer is a byte queue, which is what the lemmas show of each operation. *)

From S2P Require Import Prelude.

Module Buffer.

Record t := mk { buffer_ : bytes; readIndex_ : Z; writeIndex_ : Z }.

Definition kCheapPrepend : Z := 8.
Definition kInitialSize : Z := 1024.

(** [std::vector<char>::max_size()]. *)
Definition max_size : Z := 2^63 - 1.

Definition size (b : t) : Z := Z.of_nat (length (buffer_ b)).

(** [std::vector<char>(n)]: n zero bytes. *)
Definition vector_new (n : Z) : outcome bytes :=
  require (n <=? max_size) LengthError (Ok (replicate (Z.to_nat n) (chr 0))).

(** [std::vector<char>::resize(n)]: shortened, or padded with zero bytes. *)
Definition vector_resize (n : Z) (v : bytes) : outcome bytes :=
  require (n <=? max_size) LengthError
    (Ok (take (Z.to_nat n) v ++ replicate (Z.to_nat n - length v) (chr 0))).

Definition make (initialSize : Z) : outcome t :=
  let! v := vector_new (u64 (kCheapPrepend + initialSize)) in
  Ok (mk v kCheapPrepend kCheapPrepend).

Definition readableBytes (b : t) : Z := u64 (writeIndex_ b - readIndex_ b).
Definition writableBytes (b : t) : Z := u64 (size b - writeIndex_ b).
Definition prependableBytes (b : t) : Z := readIndex_ b.

(** Pointers into the vector are offsets from its beginning. *)
Definition peek (b : t) : Z := readIndex_ b.
Definition beginWrite (b : t) : Z := writeIndex_ b.

Definition retrieveAll (b : t) : t := mk (buffer_ b) kCheapPrepend kCheapPrepend.

Definition retrieve (len : Z) (b : t) : t :=
  if len <? readableBytes b
  then mk (buffer_ b) (u64 (readIndex_ b + len)) (writeIndex_ b)
  else retrieveAll b.

(** The read of [len] bytes at [peek()] is checked against the vector only. *)
Definition retrieveAsString (len : Z) (b : t) : outcome (bytes * t) :=
  require (peek b + len <=? size b) OutOfBounds
    (Ok (slice (peek b) (peek b + len) (buffer_ b), retrieve len b)).

Definition retrieveAllAsString (b : t) : outcome (bytes * t) :=
  retrieveAsString (readableBytes b) b.

Definition CR : ascii := chr 13.
Definition LF : ascii := chr 10.
Definition kCRLF : bytes := [CR; LF].

Definition findCRLF (b : t) : option Z :=
  match search2 CR LF (slice (peek b) (beginWrite b) (buffer_ b)) with
  | Some i => Some (peek b + Z.of_nat i)
  | None => None
  end.

Definition retrieveUntil (end_ : Z) (b : t) : outcome t :=
  require (peek b <=? end_) AssertFailure
    (require (end_ <=? beginWrite b) AssertFailure
       (Ok (retrieve (u64 (end_ - peek b)) b))).

(** [std::copy] inside of the vector: the destination may not start in the
    source range, and must end in the vector. *)
Definition copy_within (first last dest : Z) (v : bytes) : outcome bytes :=
  require (negb ((first <=? dest) && (dest <? last))) OverlappingCopy
    (require ((last <=? Z.of_nat (length v)) &&
              (dest + (last - first) <=? Z.of_nat (length v))) OutOfBounds
       (Ok (overwrite dest (slice first last v) v))).

(** [std::copy] of [data] into the vector. *)
Definition copy_in (data : bytes) (dest : Z) (v : bytes) : outcome bytes :=
  require ((0 <=? dest) && (dest + blen data <=? Z.of_nat (length v))) OutOfBounds
    (Ok (overwrite dest data v)).

Definition makeSpace (len : Z) (b : t) : outcome t :=
  if u64 (writableBytes b + prependableBytes b) <? u64 (len + kCheapPrepend) then
    let! v := vector_resize (u64 (writeIndex_ b + len)) (buffer_ b) in
    Ok (mk v (readIndex_ b) (writeIndex_ b))
  else
    let readable := readableBytes b in
    let! v := copy_within (readIndex_ b) (writeIndex_ b) kCheapPrepend (buffer_ b) in
    Ok (mk v kCheapPrepend (u64 (kCheapPrepend + readable))).

Definition append (data : bytes) (b : t) : outcome t :=
  let len := blen data in
  let! b := (if writableBytes b <? len then makeSpace len b else Ok b) in
  let! v := copy_in data (beginWrite b) (buffer_ b) in
  Ok (mk v (readIndex_ b) (u64 (writeIndex_ b + len))).

(** What [::readv] did: failed with an [errno], or filled the first iovec with
    [chunk0] and the second with [chunk1]. *)
Inductive readv_result :=
| ReadvErr (errno : Z)
| ReadvOk (chunk0 chunk1 : bytes).

Definition extrabuf_size : Z := 65536.

(** The number of iovecs [readFd] passes. *)
Definition readFd_iovcnt (b : t) : Z :=
  if writableBytes b <? extrabuf_size then 2 else 1.

(** Returns the new buffer, the [ssize_t] result and the saved [errno]. *)
Definition readFd (r : readv_result) (b : t) : outcome (t * Z * option Z) :=
  let writable := writableBytes b in
  match r with
  | ReadvErr e => Ok (b, -1, Some e)
  | ReadvOk chunk0 chunk1 =>
      let n := blen chunk0 + blen chunk1 in
      let! v := copy_in chunk0 (beginWrite b) (buffer_ b) in
      if n <=? writable then
        Ok (mk v (readIndex_ b) (u64 (writeIndex_ b + n)), n, None)
      else
        let extrabuf := chunk1 in
        let! b := append (take (Z.to_nat (n - writable)) extrabuf)
                         (mk v (readIndex_ b) (size b)) in
        Ok (b, n, None)
  end.

(** [ntohl] of four bytes in memory: big-endian. *)
Definition be32 (s : bytes) : Z :=
  foldl (fun acc c => acc * 256 + uchar c) 0 s.

(** [htonl] stored to memory: the four bytes of [x], most significant first. *)
Definition be32_bytes (x : Z) : bytes :=
  [chr (u32 x / 2^24); chr (u32 x / 2^16); chr (u32 x / 2^8); chr (u32 x)].

Definition peekInt32 (b : t) : outcome Z :=
  require (4 <=? readableBytes b) AssertFailure
    (Ok (s32 (be32 (slice (peek b) (peek b + 4) (buffer_ b))))).

Definition readInt32 (b : t) : outcome (Z * t) :=
  let! result := peekInt32 b in
  Ok (result, retrieve 4 b).

Definition prepend (data : bytes) (b : t) : outcome t :=
  require (blen data <=? prependableBytes b) AssertFailure
    (let r := u64 (readIndex_ b - blen data) in
     let! v := copy_in data r (buffer_ b) in
     Ok (mk v r (writeIndex_ b))).

Definition prependInt32 (x : Z) (b : t) : outcome t := prepend (be32_bytes x) b.

(** ** The class invariant and the abstract value *)

Record wf (b : t) : Prop := {
  wf_read : 0 <= readIndex_ b <= writeIndex_ b;
  wf_write : writeIndex_ b <= size b;
  wf_size : kCheapPrepend <= size b <= max_size;
}.

Definition contents (b : t) : bytes :=
  slice (readIndex_ b) (writeIndex_ b) (buffer_ b).

(** What the kernel may answer to the [readv] of [readFd]: chunks that fit the
    iovecs, the second one used only once the first one is full. *)
Record readv_ok (b : t) (chunk0 chunk1 : bytes) : Prop := {
  rv_fits0 : blen chunk0 <= writableBytes b;
  rv_fits1 : blen chunk1 <= extrabuf_size;
  rv_order : chunk1 <> [] -> blen chunk0 = writableBytes b;
  rv_iovcnt : readFd_iovcnt b = 1 -> chunk1 = [];
}.

(** ** The abstract specification: a queue of bytes *)

(** The operations of the public interface, and what they return. *)
Inductive op :=
| OpAppend (data : bytes)
| OpRetrieve (len : Z)
| OpRetrieveAll
| OpRetrieveAsString (len : Z)
| OpRetrieveAllAsString
| OpReadableBytes
| OpFindCRLF            (** the offset of the CRLF from [peek()] *)
| OpRetrieveLine.       (** [retrieveUntil(findCRLF() + 2)] *)

Inductive output :=
| OutNone
| OutBytes (s : bytes)
| OutSize (n : Z)
| OutOffset (n : option Z).

(** On a queue of bytes; [None] where the operation is used out of contract. *)
Definition spec_step (o : op) (s : bytes) : option (bytes * output) :=
  match o with
  | OpAppend data => Some (s ++ data, OutNone)
  | OpRetrieve len =>
      if 0 <=? len then Some (drop (Z.to_nat len) s, OutNone) else None
  | OpRetrieveAll => Some ([], OutNone)
  | OpRetrieveAsString len =>
      if (0 <=? len) && (len <=? blen s)
      then Some (drop (Z.to_nat len) s, OutBytes (take (Z.to_nat len) s)) else None
  | OpRetrieveAllAsString => Some ([], OutBytes s)
  | OpReadableBytes => Some (s, OutSize (blen s))
  | OpFindCRLF => Some (s, OutOffset (Z.of_nat <$> search2 CR LF s))
  | OpRetrieveLine =>
      match search2 CR LF s with
      | Some i => Some (drop (i + 2) s, OutNone)
      | None => None
      end
  end.

(** The same operations on the buffer. *)
Definition impl_step (o : op) (b : t) : outcome (t * output) :=
  match o with
  | OpAppend data => let! b := append data b in Ok (b, OutNone)
  | OpRetrieve len => Ok (retrieve len b, OutNone)
  | OpRetrieveAll => Ok (retrieveAll b, OutNone)
  | OpRetrieveAsString len =>
      let! (s, b) := retrieveAsString len b in Ok (b, OutBytes s)
  | OpRetrieveAllAsString =>
      let! (s, b) := retrieveAllAsString b in Ok (b, OutBytes s)
  | OpReadableBytes => Ok (b, OutSize (readableBytes b))
  | OpFindCRLF => Ok (b, OutOffset ((fun p => p - peek b) <$> findCRLF b))
  | OpRetrieveLine =>
      match findCRLF b with
      | Some crlf => let! b := retrieveUntil (crlf + 2) b in Ok (b, OutNone)
      | None => Ok (b, OutNone)
      end
  end.

Fixpoint spec_run (os : list op) (s : bytes) : option (bytes * list output) :=
  match os with
  | [] => Some (s, [])
  | o :: os =>
      '(s, x) ← spec_step o s; '(s, xs) ← spec_run os s; Some (s, x :: xs)
  end.

Fixpoint impl_run (os : list op) (b : t) : outcome (t * list output) :=
  match os with
  | [] => Ok (b, [])
  | o :: os =>
      let! (b, x) := impl_step o b in
      let! (b, xs) := impl_run os b in
      Ok (b, x :: xs)
  end.

(** The bytes an operation, and a sequence of operations, appends. *)
Definition op_appended (o : op) : Z :=
  match o with OpAppend data => blen data | _ => 0 end.

Fixpoint appended (os : list op) : Z :=
  match os with [] => 0 | o :: os => op_appended o + appended os end.

(** ** Lemmas *)

(** In a well-formed buffer no size wraps around. *)
Ltac open_wf H :=
  let Hs := fresh "Hsize" in
  destruct H as [? ? Hs]; unfold max_size, kCheapPrepend in Hs.

Lemma readableBytes_wf b : wf b -> readableBytes b = writeIndex_ b - readIndex_ b.
Proof. intros H. open_wf H. unfold readableBytes. apply u64_small. lia. Qed.

Lemma writableBytes_wf b : wf b -> writableBytes b = size b - writeIndex_ b.
Proof. intros H. open_wf H. unfold writableBytes. apply u64_small. lia. Qed.

Lemma contents_length b : wf b -> blen (contents b) = readableBytes b.
Proof.
  intros H. rewrite readableBytes_wf by done. destruct H.
  unfold blen, contents. apply length_slice; [lia | done].
Qed.

Lemma buffer_make_wf n :
  0 <= n -> kCheapPrepend + n <= max_size ->
  exists b, make n = Ok b /\ wf b /\ contents b = [].
Proof.
  unfold make, vector_new, kCheapPrepend, max_size. intros Hn Hm.
  rewrite u64_small by lia. rewrite require_true by (apply Z.leb_le; lia). simpl.
  eexists. split; [done|]. split; [|apply slice_nil].
  split; unfold size, kCheapPrepend, max_size; simpl; rewrite ?length_replicate; lia.
Qed.

Lemma retrieveAll_spec b : wf b -> wf (retrieveAll b) /\ contents (retrieveAll b) = [].
Proof.
  intros H. open_wf H. split; [|apply slice_nil].
  unfold retrieveAll, kCheapPrepend. split; unfold size in *; simpl; [lia..|].
  unfold kCheapPrepend, max_size. lia.
Qed.

Lemma retrieve_spec b len :
  wf b -> 0 <= len ->
  wf (retrieve len b) /\ contents (retrieve len b) = drop (Z.to_nat len) (contents b).
Proof.
  intros H Hlen. pose proof (readableBytes_wf b H) as Hr.
  pose proof (contents_length b H) as Hc. unfold retrieve. destruct (_ <? _) eqn:E; zbool.
  - open_wf H. rewrite u64_small by lia. split.
    + split; unfold size in *; simpl; [lia..|]. unfold kCheapPrepend, max_size. lia.
    + unfold contents. simpl. apply slice_drop; lia.
  - destruct (retrieveAll_spec b H) as [? ->]. split; [done|].
    rewrite drop_ge; [done|]. unfold blen in Hc. lia.
Qed.

Lemma size_retrieve b len : size (retrieve len b) = size b.
Proof. unfold retrieve. by destruct (_ <? _). Qed.

Lemma findCRLF_spec b :
  (fun p => p - peek b) <$> findCRLF b = Z.of_nat <$> search2 CR LF (contents b).
Proof.
  unfold findCRLF, contents, peek, beginWrite.
  destruct (search2 _ _ _); simpl; [f_equal; lia | done].
Qed.

Lemma retrieveAsString_spec b len :
  wf b -> 0 <= len <= readableBytes b ->
  retrieveAsString len b = Ok (take (Z.to_nat len) (contents b), retrieve len b).
Proof.
  intros H Hlen. rewrite readableBytes_wf in Hlen by done.
  unfold retrieveAsString, peek. open_wf H.
  rewrite require_true by (apply Z.leb_le; lia).
  unfold contents. by rewrite (slice_take _ (writeIndex_ b)) by lia.
Qed.

(** Growing the vector keeps the readable bytes. *)
Lemma grow_spec b n :
  wf b -> size b <= n <= max_size ->
  exists v, vector_resize n (buffer_ b) = Ok v /\
    let b' := mk v (readIndex_ b) (writeIndex_ b) in
    wf b' /\ contents b' = contents b /\ size b' = n.
Proof.
  intros H Hn. open_wf H. unfold vector_resize.
  rewrite require_true by (apply Z.leb_le; lia). eexists. split; [done|]. simpl.
  assert (Hs : Z.of_nat (length (take (Z.to_nat n) (buffer_ b) ++
     replicate (Z.to_nat n - length (buffer_ b)) (chr 0))) = n).
  { unfold size in *. rewrite length_app, length_take, length_replicate. lia. }
  unfold size in *. split; [|split; [|done]].
  - split; unfold size; simpl; rewrite ?Hs; [lia..|].
    unfold kCheapPrepend. lia.
  - unfold contents. simpl. apply slice_resize; lia.
Qed.

(** Moving the readable bytes to the front keeps them; the copy is to the left. *)
Lemma compact_spec b :
  wf b -> kCheapPrepend < readIndex_ b ->
  exists v, copy_within (readIndex_ b) (writeIndex_ b) kCheapPrepend (buffer_ b) = Ok v /\
    let b' := mk v kCheapPrepend (u64 (kCheapPrepend + readableBytes b)) in
    wf b' /\ contents b' = contents b /\ size b' = size b /\
    writeIndex_ b' = kCheapPrepend + (writeIndex_ b - readIndex_ b).
Proof.
  intros H Hgap. rewrite (readableBytes_wf b H).
  open_wf H. unfold copy_within, kCheapPrepend in *. unfold size in *.
  rewrite require_true by (apply negb_true_iff, andb_false_iff; left; apply Z.leb_gt; lia).
  rewrite require_true by (apply andb_true_iff; split; apply Z.leb_le; lia).
  rewrite u64_small by lia. eexists. split; [done|]. simpl.
  set (d := slice (readIndex_ b) (writeIndex_ b) (buffer_ b)).
  assert (Hd : Z.of_nat (length d) = writeIndex_ b - readIndex_ b)
    by (apply length_slice; lia).
  assert (Hs : length (overwrite 8 d (buffer_ b)) = length (buffer_ b))
    by (apply length_overwrite; lia).
  rewrite Hs. split; [|split; [|done]].
  - split; unfold size; simpl; rewrite ?Hs; [lia..|].
    unfold kCheapPrepend, max_size. lia.
  - unfold contents. simpl. rewrite <- Hd.
    rewrite slice_overwrite_end by lia. by rewrite slice_nil.
Qed.

(** [makeSpace] never faults when the grown vector stays below [max_size()],
    and makes room for what [append] writes. *)
Lemma makeSpace_spec b len :
  wf b -> writableBytes b < len -> size b + len <= max_size ->
  exists b', makeSpace len b = Ok b' /\ wf b' /\ contents b' = contents b /\
    len <= writableBytes b' /\ size b <= size b' <= size b + len.
Proof.
  intros H Hw Hm. rewrite writableBytes_wf in Hw by done. unfold makeSpace.
  rewrite writableBytes_wf by done. unfold prependableBytes.
  pose proof H as H'. open_wf H'.
  rewrite (u64_small (size b - _ + _)), (u64_small (len + _))
    by (unfold max_size, kCheapPrepend in *; lia).
  destruct (_ <? _) eqn:E; zbool.
  - destruct (grow_spec b (writeIndex_ b + len)) as (v & Hv & Hwf & Hc & Hs);
      [done | lia |].
    rewrite u64_small by (unfold max_size in *; lia). rewrite Hv. simpl.
    eexists. split_and!; try done; rewrite ?writableBytes_wf by done; simpl in *; lia.
  - destruct (compact_spec b) as (v & Hv & Hwf & Hc & Hs & Hi);
      [done | unfold kCheapPrepend in *; lia |].
    rewrite Hv. simpl.
    eexists. split_and!; try done; rewrite ?writableBytes_wf by done; simpl in *;
      unfold kCheapPrepend in *; lia.
Qed.

(** Writing at [beginWrite()] into the room there is. *)
Lemma write_spec b data :
  wf b -> blen data <= writableBytes b ->
  exists v, copy_in data (beginWrite b) (buffer_ b) = Ok v /\
    let b' := mk v (readIndex_ b) (u64 (writeIndex_ b + blen data)) in
    wf b' /\ contents b' = contents b ++ data /\ size b' = size b /\
    writeIndex_ b' = writeIndex_ b + blen data.
Proof.
  intros H Hw. rewrite writableBytes_wf in Hw by done.
  open_wf H. unfold copy_in, beginWrite, size, blen in *.
  rewrite require_true by (apply andb_true_iff; split; apply Z.leb_le; lia).
  rewrite u64_small by lia. eexists. split; [done|]. simpl.
  rewrite length_overwrite by lia. split; [|split; [|done]].
  - split; unfold size; simpl; rewrite ?length_overwrite by lia; [lia..|].
    unfold kCheapPrepend, max_size. lia.
  - unfold contents. simpl. by rewrite slice_overwrite_end by lia.
Qed.

Lemma append_spec b data :
  wf b -> size b + blen data <= max_size ->
  exists b', append data b = Ok b' /\ wf b' /\ contents b' = contents b ++ data /\
    size b <= size b' <= size b + blen data.
Proof.
  intros H Hm. unfold append.
  assert (exists b1, (if writableBytes b <? blen data then makeSpace (blen data) b
      else Ok b) = Ok b1 /\ wf b1 /\ contents b1 = contents b /\
      blen data <= writableBytes b1 /\ size b <= size b1 <= size b + blen data)
    as (b1 & -> & Hwf & <- & Hroom & Hs).
  { destruct (_ <? _) eqn:E; zbool; [by apply makeSpace_spec|].
    exists b. pose proof (blen_nonneg data). split_and!; (done || lia). }
  simpl. destruct (write_spec b1 data) as (v & -> & Hwf' & Hc' & Hs' & _); [done..|].
  simpl. eexists. split_and!; try done; lia.
Qed.

(** [readFd] loses nothing of what the kernel delivered: the bytes of the first
    iovec are already in place, those of [extrabuf] are appended. *)
Lemma readFd_spec b chunk0 chunk1 :
  wf b -> readv_ok b chunk0 chunk1 -> size b + extrabuf_size <= max_size ->
  exists b', readFd (ReadvOk chunk0 chunk1) b =
      Ok (b', blen chunk0 + blen chunk1, None) /\
    wf b' /\ contents b' = contents b ++ chunk0 ++ chunk1.
Proof.
  intros H [Hfit0 Hfit1 Hord _] Hm. unfold readFd.
  destruct (write_spec b chunk0) as (v & -> & Hwf & Hc & Hs & Hi); [done..|]. simpl.
  destruct (decide (chunk1 = [])) as [->|Hne].
  - replace (blen chunk0 + blen []) with (blen chunk0) by (unfold blen; simpl; lia).
    replace (_ <=? _) with true by (symmetry; apply Z.leb_le; lia).
    eexists. by rewrite app_nil_r.
  - specialize (Hord Hne). rewrite writableBytes_wf in * by done.
    assert (0 < blen chunk1) by (unfold blen; destruct chunk1; simpl; [done | lia]).
    replace (_ <=? _) with false by (symmetry; apply Z.leb_gt; lia).
    replace (Z.to_nat _) with (length chunk1) by (unfold blen in *; lia).
    rewrite take_ge by lia. simpl in Hi.
    replace (u64 (writeIndex_ b + blen chunk0)) with (size b) in * by lia.
    destruct (append_spec _ chunk1 Hwf) as (b' & -> & Hwf' & Hc' & _); [lia|].
    simpl. eexists. split; [done|]. split; [done|]. by rewrite Hc', Hc, app_assoc.
Qed.

Lemma prepend_spec b data :
  wf b -> blen data <= prependableBytes b ->
  exists b', prepend data b = Ok b' /\ wf b' /\ contents b' = data ++ contents b.
Proof.
  intros H Hd. unfold prependableBytes in Hd. pose proof (blen_nonneg data).
  open_wf H. unfold prepend, prependableBytes.
  rewrite require_true by (by apply Z.leb_le). rewrite u64_small by lia.
  unfold copy_in, size, blen in *.
  rewrite require_true by (apply andb_true_iff; split; apply Z.leb_le; lia).
  simpl. eexists. split; [done|]. split.
  - split; unfold size; simpl; rewrite ?length_overwrite by lia; [lia..|].
    unfold kCheapPrepend, max_size. lia.
  - unfold contents. simpl. rewrite slice_overwrite_start by lia.
    do 2 f_equal. lia.
Qed.

Lemma be32_be32_bytes x : be32 (be32_bytes x) = u32 x.
Proof.
  unfold be32, be32_bytes. simpl. rewrite !uchar_chr.
  pose proof (Z.mod_pos_bound x (2^32)). unfold u32 in *.
  change (2^24) with 16777216. change (2^16) with 65536. change (2^8) with 256.
  change (2^32) with 4294967296 in *. Z.to_euclidean_division_equations. lia.
Qed.

Lemma s32_u32 x : - 2^31 <= x < 2^31 -> s32 (u32 x) = x.
Proof.
  intros H. unfold s32, u32. rewrite Zplus_mod_idemp_l. rewrite Z.mod_small; lia.
Qed.

Lemma peekInt32_spec b d s :
  wf b -> contents b = d ++ s -> blen d = 4 -> peekInt32 b = Ok (s32 (be32 d)).
Proof.
  intros H Hc Hd. pose proof (contents_length b H) as Hl.
  pose proof (readableBytes_wf b H) as Hr.
  rewrite Hc, blen_app in Hl. pose proof (blen_nonneg s).
  unfold peekInt32. rewrite require_true by (apply Z.leb_le; lia).
  unfold peek. open_wf H. rewrite (slice_take _ (writeIndex_ b)) by lia.
  change (slice _ _ _) with (contents b). rewrite Hc.
  rewrite take_app_le by (unfold blen in Hd; lia).
  rewrite take_ge by (unfold blen in Hd; lia). done.
Qed.

Lemma retrieveUntil_spec b n :
  wf b -> 0 <= n <= readableBytes b ->
  retrieveUntil (peek b + n) b = Ok (retrieve n b).
Proof.
  intros H Hn. rewrite readableBytes_wf in Hn by done. open_wf H.
  unfold retrieveUntil, peek, beginWrite.
  rewrite !require_true by (apply Z.leb_le; lia).
  rewrite u64_small by lia. do 2 f_equal. lia.
Qed.

(** One operation on the buffer does what it does on the queue. *)
Lemma step_refines b o s x :
  wf b -> size b + op_appended o <= max_size ->
  spec_step o (contents b) = Some (s, x) ->
  exists b', impl_step o b = Ok (b', x) /\ wf b' /\ contents b' = s /\
    size b' <= size b + op_appended o.
Proof.
  intros H Hm Hs. pose proof (contents_length b H) as Hl.
  destruct o as [data|len| |len| | | |]; simpl in *.
  - injection Hs as <- <-. destruct (append_spec b data) as (b' & -> & ? & ? & ?); eauto.
    simpl. eexists. split_and!; (done || lia).
  - destruct (0 <=? len) eqn:E; simplify_eq. zbool.
    destruct (retrieve_spec b len) as [? ?]; [done..|]. eexists.
    rewrite size_retrieve. split_and!; (done || lia).
  - simplify_eq. destruct (retrieveAll_spec b) as [? ?]; [done|].
    eexists. split_and!; (done || unfold size; simpl; lia).
  - destruct (0 <=? len) eqn:E1, (len <=? _) eqn:E2; simplify_eq/=. zbool.
    rewrite retrieveAsString_spec by (done || lia). simpl.
    destruct (retrieve_spec b len) as [? ?]; [done..|].
    eexists. rewrite size_retrieve. split_and!; (done || lia).
  - simplify_eq. unfold retrieveAllAsString. pose proof (blen_nonneg (contents b)).
    rewrite retrieveAsString_spec by (done || lia). simpl.
    destruct (retrieve_spec b (readableBytes b)) as [? Hc]; [done|lia|].
    rewrite take_ge by (unfold blen in Hl; lia).
    rewrite drop_ge in Hc by (unfold blen in Hl; lia).
    eexists. rewrite size_retrieve. split_and!; (done || lia).
  - simplify_eq. eexists. rewrite Hl. split_and!; (done || lia).
  - simplify_eq. eexists. rewrite findCRLF_spec. split_and!; (done || lia).
  - destruct (search2 CR LF (contents b)) as [i|] eqn:E; simplify_eq.
    pose proof (search2_bound _ _ _ _ E). unfold findCRLF.
    unfold contents in E. unfold peek at 1, beginWrite. rewrite E.
    replace (peek b + Z.of_nat i + 2) with (peek b + (Z.of_nat i + 2)) by lia.
    rewrite retrieveUntil_spec by (done || unfold blen in Hl; lia). simpl.
    destruct (retrieve_spec b (Z.of_nat i + 2)) as [? Hc]; [done|lia|].
    replace (Z.to_nat (Z.of_nat i + 2)) with (i + 2)%nat in Hc by lia.
    eexists. rewrite size_retrieve. split_and!; (done || lia).
Qed.

Lemma appended_nonneg os : 0 <= appended os.
Proof.
  induction os as [|o os IH]; simpl; [lia|].
  destruct o; simpl; try lia. pose proof (blen_nonneg data). lia.
Qed.

(** ** Properties *)

(** C11. Refinement: every sequence of operations the buffer is used for returns
    what the same sequence returns on a queue of bytes, never faults, and leaves
    a well-formed buffer that holds the queue, as long as the bytes appended fit
    [std::vector]'s maximal size and no operation is used out of its contract. *)
Theorem buffer_refines_queue (b : t) (os : list op) (s : bytes) (xs : list output) :
  wf b ->
  size b + appended os <= max_size ->
  spec_run os (contents b) = Some (s, xs) ->
  exists b', impl_run os b = Ok (b', xs) /\ wf b' /\ contents b' = s.
Proof.
  revert b s xs. induction os as [|o os IH]; intros b s xs H Hm Hs; simpl in *.
  - simplify_eq. eauto.
  - apply bind_Some in Hs as ([s1 x] & Hs1 & Hs).
    apply bind_Some in Hs as ([s2 xs'] & Hs2 & [= <- <-]).
    pose proof (appended_nonneg os).
    destruct (step_refines b o s1 x) as (b1 & -> & H1 & <- & Hsz); [done|lia|done|].
    simpl. destruct (IH b1 s2 xs') as (b2 & -> & H2 & Hc); [done|lia|done|].
    simpl. eauto.
Qed.

(** The vector of a [Buffer(8)], as in the repository's buffer test. *)
Definition test_buffer : t := mk (replicate 16 (chr 0)) 8 8.

Lemma test_buffer_wf : wf test_buffer.
Proof. split; zclosed. Qed.

Definition test_ops : list op :=
  [OpAppend (str "hello"); OpRetrieveAsString 2; OpReadableBytes;
   OpAppend (str "a line" ++ kCRLF ++ str "next"); OpFindCRLF; OpRetrieveLine;
   OpRetrieveAllAsString].

Lemma buffer_refines_queue_witness :
  exists b', impl_run test_ops test_buffer =
    Ok (b', [OutNone; OutBytes (str "he"); OutSize 3; OutNone; OutOffset (Some 9);
             OutNone; OutBytes (str "next")]) /\ wf b' /\ contents b' = [].
Proof.
  apply (buffer_refines_queue test_buffer test_ops);
    [apply test_buffer_wf | zclosed | reflexivity].
Defined.

(** Bounded memory: an append grows the vector only when the readable bytes,
    the new bytes and the reserved prefix do not fit together in it; otherwise
    the space of the consumed bytes is reused and the size does not change. *)
Theorem append_reuses_space (b : t) (data : bytes) :
  wf b ->
  blen (contents b) + blen data + kCheapPrepend <= size b ->
  exists b', append data b = Ok b' /\ size b' = size b /\
    contents b' = contents b ++ data.
Proof.
  intros H Hfit. pose proof (contents_length b H) as Hl.
  rewrite readableBytes_wf in Hl by done. pose proof (blen_nonneg data).
  unfold append. destruct (_ <? _) eqn:E; zbool.
  - rewrite writableBytes_wf in E by done. unfold makeSpace.
    rewrite writableBytes_wf by done. unfold prependableBytes.
    pose proof H as H'. open_wf H'. unfold kCheapPrepend in *.
    rewrite (u64_small (size b - _ + _)), (u64_small (_ + 8)) by lia.
    replace (_ <? _) with false by (symmetry; apply Z.ltb_ge; lia).
    destruct (compact_spec b) as (v & Hv & Hwf & Hc & Hs & Hi);
      [done | unfold kCheapPrepend; lia |]. unfold kCheapPrepend in *.
    rewrite Hv. cbn [obind].
    destruct (write_spec _ data Hwf) as (v' & -> & _ & Hc' & Hs' & _).
    { rewrite writableBytes_wf by done. lia. }
    eexists. split; [done|]. split; [lia|]. by rewrite Hc', Hc.
  - cbn [obind]. destruct (write_spec b data) as (v & -> & _ & ? & ? & _); [done..|].
    eauto.
Qed.

Lemma append_reuses_space_witness :
  exists b', append (str "12345") (mk (replicate 16 (ascii_of_N 120)) 13 15) = Ok b' /\
    size b' = 16 /\ contents b' = str "xx12345".
Proof.
  apply (append_reuses_space (mk (replicate 16 (ascii_of_N 120)) 13 15));
    [split; zclosed | zclosed].
Defined.

(** [readFd] is lossless: whatever way the kernel splits the bytes of a
    [readv] over the writable space and the 64 KiB stack buffer, they all end up
    in the buffer, in order, after what it held. *)
Theorem readFd_lossless (b : t) (chunk0 chunk1 : bytes) :
  wf b ->
  readv_ok b chunk0 chunk1 ->
  size b + extrabuf_size <= max_size ->
  exists b', readFd (ReadvOk chunk0 chunk1) b =
      Ok (b', blen chunk0 + blen chunk1, None) /\
    wf b' /\ contents b' = contents b ++ chunk0 ++ chunk1.
Proof. apply readFd_spec. Qed.

Lemma readFd_lossless_witness :
  exists b', readFd (ReadvOk (str "12345678") (str "more")) test_buffer =
    Ok (b', 12, None) /\ wf b' /\ contents b' = str "12345678more".
Proof.
  apply (readFd_lossless test_buffer (str "12345678") (str "more"));
    [apply test_buffer_wf | split; [zclosed | zclosed | reflexivity | discriminate] | zclosed].
Defined.

(** Round trip of the length prefix: a 32-bit integer prepended to a message
    is read back by [readInt32], which leaves exactly the message. *)
Theorem prependInt32_readInt32 (b : t) (x : Z) :
  wf b ->
  4 <= prependableBytes b ->
  - 2^31 <= x < 2^31 ->
  exists b1 b2, prependInt32 x b = Ok b1 /\ readInt32 b1 = Ok (x, b2) /\
    contents b2 = contents b.
Proof.
  intros H Hp Hx. unfold prependInt32.
  destruct (prepend_spec b (be32_bytes x)) as (b1 & -> & H1 & Hc1); [done..|].
  exists b1. unfold readInt32. rewrite (peekInt32_spec b1 _ _ H1 Hc1) by done.
  simpl. rewrite be32_be32_bytes, s32_u32 by done.
  destruct (retrieve_spec b1 4 H1) as [_ Hc2]; [lia|].
  eexists. split_and!; [done..|]. by rewrite Hc2, Hc1.
Qed.

Lemma prependInt32_readInt32_witness :
  exists b1 b2, prependInt32 (-42) test_buffer = Ok b1 /\ readInt32 b1 = Ok (-42, b2) /\
    contents b2 = [].
Proof.
  apply (prependInt32_readInt32 test_buffer (-42));
    [apply test_buffer_wf | zclosed | lia].
Defined.

End Buffer.
