(* ===== verification/InputQueue.v ===== *)
(** * InputQueue: what the parsers need of the buffer they read

    The HTTP parsers use five operations of [Buffer].  The class [InputQueue]
    names them, [InputQueueLaws] says what they do to the bytes the buffer
    holds, and the parsers are defined and proved against the class alone.  It
    has two instances: the C++ buffer, and the plain byte list, on which the
    same definitions are their own specification. *)

From S2P Require Import Prelude Buffer.

(** Pointers into the readable bytes are offsets from [peek()]. *)
Class InputQueue (Q : Type) := {
  q_wf : Q -> Prop;                          (** the class invariant *)
  q_contents : Q -> bytes;                   (** the readable bytes *)
  q_readableBytes : Q -> Z;                  (** [readableBytes()] *)
  q_findCRLF : Q -> option Z;                (** [findCRLF()] *)
  q_range : Z -> Z -> Q -> bytes;            (** the bytes in [first, last) *)
  q_retrieveUntil : Z -> Q -> outcome Q;     (** [retrieveUntil(end)] *)
  q_retrieve : Z -> Q -> Q;                  (** [retrieve(len)] *)
  q_append : bytes -> Q -> outcome Q;        (** [append(data, len)] *)
  q_fits : Z -> Q -> Prop;                   (** room for so many more bytes *)
}.

Class InputQueueLaws (Q : Type) `{InputQueue Q} := {
  q_readable_law q : q_wf q -> q_readableBytes q = blen (q_contents q);
  q_find_law q : q_wf q ->
    q_findCRLF q = Z.of_nat <$> search2 Buffer.CR Buffer.LF (q_contents q);
  q_range_law q first last : q_wf q ->
    0 <= first <= last -> last <= blen (q_contents q) ->
    q_range first last q = slice first last (q_contents q);
  q_retrieveUntil_law q n : q_wf q -> 0 <= n <= blen (q_contents q) ->
    exists q', q_retrieveUntil n q = Ok q' /\ q_wf q' /\
      q_contents q' = drop (Z.to_nat n) (q_contents q) /\
      (forall room, q_fits room q -> q_fits room q');
  q_retrieve_law q n : q_wf q -> 0 <= n ->
    q_wf (q_retrieve n q) /\
    q_contents (q_retrieve n q) = drop (Z.to_nat n) (q_contents q) /\
    (forall room, q_fits room q -> q_fits room (q_retrieve n q));
  q_append_law q d room : q_wf q -> q_fits room q -> blen d <= room ->
    exists q', q_append d q = Ok q' /\ q_wf q' /\
      q_contents q' = q_contents q ++ d /\ q_fits (room - blen d) q';
}.

(** ** The byte list *)

#[export] Instance bytes_queue : InputQueue bytes := {
  q_wf _ := True;
  q_contents s := s;
  q_readableBytes s := blen s;
  q_findCRLF s := Z.of_nat <$> search2 Buffer.CR Buffer.LF s;
  q_range first last s := slice first last s;
  q_retrieveUntil n s :=
    require (n <=? blen s) AssertFailure (Ok (drop (Z.to_nat n) s));
  q_retrieve n s := drop (Z.to_nat n) s;
  q_append d s := Ok (s ++ d);
  q_fits _ _ := True;
}.

#[export] Instance bytes_queue_laws : InputQueueLaws bytes.
Proof.
  split; simpl; try done.
  - intros q n _ Hn. rewrite require_true by (apply Z.leb_le; lia). eauto.
  - eauto.
Qed.

(** ** The C++ buffer *)

#[export] Instance Buffer_queue : InputQueue Buffer.t := {
  q_wf := Buffer.wf;
  q_contents := Buffer.contents;
  q_readableBytes := Buffer.readableBytes;
  q_findCRLF b := (fun p => p - Buffer.peek b) <$> Buffer.findCRLF b;
  q_range first last b :=
    slice (Buffer.peek b + first) (Buffer.peek b + last) (Buffer.buffer_ b);
  q_retrieveUntil n b := Buffer.retrieveUntil (Buffer.peek b + n) b;
  q_retrieve := Buffer.retrieve;
  q_append := Buffer.append;
  q_fits room b := Buffer.size b + room <= Buffer.max_size;
}.

#[export] Instance Buffer_queue_laws : InputQueueLaws Buffer.t.
Proof.
  split; simpl.
  - intros b H. by rewrite Buffer.contents_length.
  - intros b _. apply Buffer.findCRLF_spec.
  - intros b first last H Hle Hlast. rewrite Buffer.contents_length in Hlast by done.
    rewrite Buffer.readableBytes_wf in Hlast by done. destruct H.
    unfold Buffer.contents, Buffer.peek, slice.
    rewrite skipn_firstn_comm, take_take, drop_drop.
    f_equal; [lia|]. f_equal. lia.
  - intros b n H Hn. rewrite Buffer.contents_length in Hn by done.
    rewrite Buffer.retrieveUntil_spec by done. eexists. split; [done|].
    destruct (Buffer.retrieve_spec b n H) as [? ?]; [lia|].
    rewrite Buffer.size_retrieve. by split_and!.
  - intros b n H Hn. destruct (Buffer.retrieve_spec b n H) as [? ?]; [done|].
    rewrite Buffer.size_retrieve. by split_and!.
  - intros b d room H Hfit Hd.
    destruct (Buffer.append_spec b d) as (b' & -> & ? & ? & ?); [done|lia|].
    eexists. split_and!; done || lia.
Qed.

(** ** Buffers that hold the same bytes *)

Section same_bytes.
Context {Q1 Q2 : Type} `{InputQueue Q1} `{InputQueue Q2}.

(** Two queues, maybe of different implementations, with the same bytes. *)
Definition same_bytes (q1 : Q1) (q2 : Q2) : Prop :=
  q_wf q1 /\ q_wf q2 /\ q_contents q1 = q_contents q2.
End same_bytes.

#[export] Instance same_bytes_per {Q} `{InputQueue Q} : RelationClasses.PER (same_bytes (Q1:=Q) (Q2:=Q)).
Proof.
  split.
  - intros x y (? & ? & ?). by split_and!.
  - intros x y z (? & ? & E1) (? & ? & E2). split_and!; [done..|congruence].
Qed.
