(* ===== verification/HttpParser.v ===== *)
(** * HttpParser: the incremental request parser of src/src/tcp/HttpParser.{h,cpp}

    [HttpParser.t] is the parser's state; [parseStep] is one iteration of the
    [while (true)] loop of [parseRequest], which [parseLoop] runs with fuel.  The
    buffer is any [InputQueue]; pointers into it are offsets from [peek()]. *)

From S2P Require Import Prelude Buffer InputQueue.

Module HttpParser.

Inductive HttpRequestParseState :=
| ExpectRequestLine | ExpectHeaders | ExpectBody | GotAll | Error.

#[export] Instance state_eq_dec : EqDecision HttpRequestParseState.
Proof. solve_decision. Defined.

Record t := mk {
  state_ : HttpRequestParseState;
  method_ : bytes;
  path_ : bytes;
  version_ : bytes;
  headers_ : gmap bytes bytes;
  body_ : bytes;
  expectedBodyLength_ : Z;
}.

Definition make : t := mk ExpectRequestLine [] [] [] ∅ [] 0.

(** [reset()] clears every field of the object it is called on. *)
Definition reset (p : t) : t :=
  let '(mk _ _ _ _ _ _ _) := p in
  mk ExpectRequestLine [] [] [] ∅ [] 0.

Definition gotAll (p : t) : bool := bool_decide (state_ p = GotAll).
Definition getMethod (p : t) : bytes := method_ p.
Definition getPath (p : t) : bytes := path_ p.
Definition getBody (p : t) : bytes := body_ p.

Definition set_state (s : HttpRequestParseState) (p : t) : t :=
  mk s (method_ p) (path_ p) (version_ p) (headers_ p) (body_ p) (expectedBodyLength_ p).
Definition set_headers (h : gmap bytes bytes) (p : t) : t :=
  mk (state_ p) (method_ p) (path_ p) (version_ p) h (body_ p) (expectedBodyLength_ p).
Definition set_body (s : bytes) (p : t) : t :=
  mk (state_ p) (method_ p) (path_ p) (version_ p) (headers_ p) s (expectedBodyLength_ p).
Definition set_expectedBodyLength (n : Z) (p : t) : t :=
  mk (state_ p) (method_ p) (path_ p) (version_ p) (headers_ p) (body_ p) n.

(** ** Characters, in the "C" locale *)

Definition in_range (lo hi : Z) (c : ascii) : bool := (lo <=? uchar c) && (uchar c <=? hi).
Definition isdigit : ascii -> bool := in_range 48 57.
Definition isupper : ascii -> bool := in_range 65 90.
Definition islower : ascii -> bool := in_range 97 122.
Definition isalnum (c : ascii) : bool := isdigit c || isupper c || islower c.
Definition tolower (c : ascii) : ascii := if isupper c then chr (uchar c + 32) else c.

(** The [case] labels of [isTokenCharacter]. *)
Definition token_punctuation : bytes := str "!#$%&'*+-.^_`|~".

Definition isTokenCharacter (ch : ascii) : bool :=
  if 127 <? uchar ch then false
  else if isalnum ch then true
  else existsb (Ascii.eqb ch) token_punctuation.

Definition toLowerAscii (value : bytes) : bytes := map tolower value.

(** [std::from_chars] into a [size_t] on a string of digits, base 10: out of
    range when the value does not fit 64 bits. *)
Definition from_chars (s : bytes) : option Z :=
  let n := foldl (fun acc c => acc * 10 + (uchar c - 48)) 0 s in
  if n <=? SIZE_MAX then Some n else None.

Definition parseContentLength (value : bytes) : option Z :=
  if bool_decide (value = []) then None
  else if negb (forallb isdigit value) then None
  else from_chars value.

(** ** The request line *)

Definition SP : ascii := chr 32.
Definition HT : ascii := chr 9.
Definition COLON : ascii := chr 58.

(** [ch <= 0x20 || ch == 0x7f], the characters a path may not have. *)
Definition bad_path_char (ch : ascii) : bool := (uchar ch <=? 32) || (uchar ch =? 127).

Definition versions : list bytes := [str "HTTP/1.0"; str "HTTP/1.1"].

(** On the range [begin, end) of the line; [None] for [return false]. *)
Definition processRequestLine (line : bytes) (p : t) : option t :=
  let end_ := length line in
  let firstSpace := find_char SP line in
  if bool_decide (firstSpace = 0%nat) || bool_decide (firstSpace = end_) then None else
  let secondSpace := (S firstSpace + find_char SP (drop (S firstSpace) line))%nat in
  if bool_decide (secondSpace = S firstSpace) || bool_decide (secondSpace = end_)
  then None else
  let afterSecond := drop (S secondSpace) line in
  if negb (bool_decide (find_char SP afterSecond = length afterSecond)) then None else
  let method := take firstSpace line in
  if negb (forallb isTokenCharacter method) then None else
  let path := take (secondSpace - S firstSpace) (drop (S firstSpace) line) in
  if existsb bad_path_char path then None else
  let version := afterSecond in
  if negb (bool_decide (version ∈ versions)) then None else
  Some (mk (state_ p) method path version (headers_ p) (body_ p) (expectedBodyLength_ p)).

(** ** Header lines *)

Definition is_blank (c : ascii) : bool := Ascii.eqb c SP || Ascii.eqb c HT.

(** The loops that move [valueBegin] and [valueEnd] over spaces and tabs. *)
Fixpoint skip_blanks (s : bytes) : bytes :=
  match s with
  | c :: s' => if is_blank c then skip_blanks s' else s
  | [] => []
  end.
Definition trim_end (s : bytes) : bytes := rev (skip_blanks (rev s)).

(** [(ch < 0x20 && ch != '\t') || ch == 0x7f], refused in a header value. *)
Definition bad_value_char (ch : ascii) : bool :=
  ((uchar ch <? 32) && negb (Ascii.eqb ch HT)) || (uchar ch =? 127).

(** A header line [lineBegin, crlf) added to [headers_]; [None] where the code
    moves to [Error]. *)
Definition processHeaderLine (line : bytes) (h : gmap bytes bytes)
  : option (gmap bytes bytes) :=
  let colon := find_char COLON line in
  if bool_decide (colon = 0%nat) || bool_decide (colon = length line) then None else
  let field := take colon line in
  if negb (forallb isTokenCharacter field) then None else
  let field := toLowerAscii field in
  let value := trim_end (skip_blanks (drop (S colon) line)) in
  if existsb bad_value_char value then None else
  match h !! field with
  | Some _ => None
  | None => Some (<[field := value]> h)
  end.

Definition getHeader (field : bytes) (p : t) : bytes :=
  default [] (headers_ p !! toLowerAscii field).

Definition transfer_encoding : bytes := str "transfer-encoding".
Definition content_length : bytes := str "content-length".

(** ** The parse loop *)

Section parse.
Context {Q : Type} `{InputQueue Q}.

(** What an iteration does: [continue] or [return]. *)
Inductive step :=
| Continue (p : t) (buf : Q)
| Return (ok : bool) (p : t) (buf : Q).

Definition stepRequestLine (p : t) (buf : Q) : outcome step :=
  match q_findCRLF buf with
  | None => Ok (Return true p buf)
  | Some crlf =>
      match processRequestLine (q_range 0 crlf buf) p with
      | None => Ok (Return false (set_state Error p) buf)
      | Some p =>
          let! buf := q_retrieveUntil (crlf + 2) buf in
          Ok (Continue (set_state ExpectHeaders p) buf)
      end
  end.

(** The empty line that ends the headers. *)
Definition endOfHeaders (p : t) (buf : Q) : step :=
  match headers_ p !! transfer_encoding with
  | Some _ => Return false (set_state Error p) buf
  | None =>
      match headers_ p !! content_length with
      | None => Return true (set_state GotAll p) buf
      | Some v =>
          match parseContentLength v with
          | None => Return false (set_state Error p) buf
          | Some n => Continue (set_state ExpectBody (set_expectedBodyLength n p)) buf
          end
      end
  end.

Definition stepHeaders (p : t) (buf : Q) : outcome step :=
  match q_findCRLF buf with
  | None => Ok (Return true p buf)
  | Some crlf =>
      if crlf =? 0 then
        let! buf := q_retrieveUntil (crlf + 2) buf in
        Ok (endOfHeaders p buf)
      else
        match processHeaderLine (q_range 0 crlf buf) (headers_ p) with
        | None => Ok (Return false (set_state Error p) buf)
        | Some h =>
            let! buf := q_retrieveUntil (crlf + 2) buf in
            Ok (Continue (set_headers h p) buf)
        end
  end.

Definition stepBody (p : t) (buf : Q) : outcome step :=
  if q_readableBytes buf <? expectedBodyLength_ p then Ok (Return true p buf) else
  let p := set_body (q_range 0 (expectedBodyLength_ p) buf) p in
  Ok (Return true (set_state GotAll p) (q_retrieve (expectedBodyLength_ p) buf)).

(** The body of [while (true)]: no branch is taken in the other states. *)
Definition parseStep (p : t) (buf : Q) : outcome step :=
  match state_ p with
  | ExpectRequestLine => stepRequestLine p buf
  | ExpectHeaders => stepHeaders p buf
  | ExpectBody => stepBody p buf
  | GotAll | Error => Ok (Continue p buf)
  end.

Fixpoint parseLoop (fuel : nat) (p : t) (buf : Q) : outcome (bool * t * Q) :=
  match fuel with
  | O => Fault OutOfFuel
  | S fuel =>
      let! s := parseStep p buf in
      match s with
      | Continue p buf => parseLoop fuel p buf
      | Return ok p buf => Ok (ok, p, buf)
      end
  end.

(** Every iteration that continues consumes a line, so that one more than the
    number of readable bytes is fuel enough ([parseRequest_total]). *)
Definition parseFuel (buf : Q) : nat := S (Z.to_nat (q_readableBytes buf)).

Definition parseRequest (p : t) (buf : Q) : outcome (bool * t * Q) :=
  match state_ p with
  | Error => Ok (false, p, buf)
  | GotAll => Ok (true, p, buf)
  | _ => parseLoop (parseFuel buf) p buf
  end.

(** The call through a pointer, which may be null. *)
Definition parseRequest_ptr (p : t) (buf : option Q) : outcome (bool * t * option Q) :=
  match buf with
  | None => Ok (false, p, None)
  | Some buf => let! (ok, p, buf) := parseRequest p buf in Ok (ok, p, Some buf)
  end.
End parse.

Arguments step Q : clear implicits.

Example parse_get :
  parseRequest make (str "GET /health HTTP/1.1" ++ Buffer.kCRLF ++ str "Host: localhost"
    ++ Buffer.kCRLF ++ Buffer.kCRLF) =
  Ok (true, mk GotAll (str "GET") (str "/health") (str "HTTP/1.1")
        {[str "host" := str "localhost"]} [] 0, []).
Proof. vm_compute. reflexivity. Qed.

(** ** The parser's invariant *)

Definition valid_field (k : bytes) : Prop :=
  k <> [] /\ forallb isTokenCharacter k = true /\ toLowerAscii k = k.

Definition valid_value (v : bytes) : Prop :=
  existsb bad_value_char v = false /\ trim_end (skip_blanks v) = v.

Definition valid_path (s : bytes) : Prop := s <> [] /\ existsb bad_path_char s = false.

Definition valid_method (s : bytes) : Prop :=
  s <> [] /\ forallb isTokenCharacter s = true.

(** What a complete request looks like: one framing, by [Content-Length]. *)
Definition framed (p : t) : Prop :=
  headers_ p !! transfer_encoding = None /\
  match headers_ p !! content_length with
  | None => body_ p = []
  | Some v => parseContentLength v = Some (blen (body_ p))
  end.

Definition request_line_ok (p : t) : Prop :=
  valid_method (method_ p) /\ valid_path (path_ p) /\ version_ p ∈ versions.

Definition wf (p : t) : Prop :=
  0 <= expectedBodyLength_ p <= SIZE_MAX /\
  map_Forall (fun k v => valid_field k /\ valid_value v) (headers_ p) /\
  match state_ p with
  | ExpectRequestLine | Error => True
  | ExpectHeaders => request_line_ok p /\ body_ p = []
  | ExpectBody =>
      request_line_ok p /\ headers_ p !! transfer_encoding = None /\
      exists v, headers_ p !! content_length = Some v /\
        parseContentLength v = Some (expectedBodyLength_ p)
  | GotAll => request_line_ok p /\ framed p
  end /\
  (state_ p = ExpectRequestLine -> body_ p = []).

(** ** Lemmas: the buffer is its bytes *)

Definition step_parser {Q} (s : step Q) : t :=
  match s with Continue p _ => p | Return _ p _ => p end.
Definition step_buf {Q} (s : step Q) : Q :=
  match s with Continue _ b => b | Return _ _ b => b end.
Definition step_map {Q R} (f : Q -> R) (s : step Q) : step R :=
  match s with Continue p b => Continue p (f b) | Return ok p b => Return ok p (f b) end.

Lemma endOfHeaders_map {Q R} (f : Q -> R) p q :
  endOfHeaders p (f q) = step_map f (endOfHeaders p q).
Proof. unfold endOfHeaders. by repeat case_match. Qed.

Lemma endOfHeaders_buf {Q} p (q : Q) : step_buf (endOfHeaders p q) = q.
Proof. unfold endOfHeaders. by repeat case_match. Qed.

Section simulation.
Context {Q : Type} `{InputQueueLaws Q}.

(** An iteration never faults, and is the same iteration on the bytes. *)
Lemma parseStep_sim p q :
  q_wf q -> 0 <= expectedBodyLength_ p ->
  exists s, parseStep p q = Ok s /\ q_wf (step_buf s) /\
    parseStep p (q_contents q) = Ok (step_map q_contents s) /\
    (forall room, q_fits room q -> q_fits room (step_buf s)).
Proof.
  intros Hq Hn. unfold parseStep, stepRequestLine, stepHeaders, stepBody.
  rewrite q_find_law, q_readable_law by done. simpl.
  destruct (state_ p); [| | |by eauto..].
  3: { destruct (_ <? _) eqn:E; [by eauto|]. zbool. rewrite q_range_law by done.
       destruct (q_retrieve_law q (expectedBodyLength_ p)) as (? & Hc & ?); [done..|].
       eexists. split; [done|]. simpl. by rewrite Hc. }
  all: destruct (search2 _ _ _) as [i|] eqn:E; [|by eauto]; apply search2_bound in E;
    assert (0 <= Z.of_nat i <= blen (q_contents q) - 2) by (unfold blen; lia);
    cbn [fmap option_fmap option_map].
  all: rewrite (require_true (_ <=? _)) by (apply Z.leb_le; lia).
  all: destruct (q_retrieveUntil_law q (Z.of_nat i + 2)) as (q' & -> & ? & <- & ?);
    [done | lia |]; cbn [obind].
  - rewrite q_range_law by (done || lia).
    destruct (processRequestLine _ _); by eauto.
  - rewrite q_range_law by (done || lia). destruct (_ =? _).
    + eexists. split; [done|]. by rewrite !endOfHeaders_buf, endOfHeaders_map.
    + destruct (processHeaderLine _ _); by eauto.
Qed.
End simulation.

(** ** Lemmas: characters, blanks and numbers *)

Lemma tolower_idem c : tolower (tolower c) = tolower c.
Proof.
  apply Ascii.eqb_eq. revert c. apply ascii_forall. vm_compute. reflexivity.
Qed.

Lemma tolower_token c : isTokenCharacter (tolower c) = isTokenCharacter c.
Proof.
  apply eqb_prop. revert c. apply ascii_forall. vm_compute. reflexivity.
Qed.

Lemma toLowerAscii_idem s : toLowerAscii (toLowerAscii s) = toLowerAscii s.
Proof. unfold toLowerAscii. rewrite map_map. apply map_ext, tolower_idem. Qed.

Lemma toLowerAscii_token s :
  forallb isTokenCharacter (toLowerAscii s) = forallb isTokenCharacter s.
Proof.
  induction s as [|c s IH]; simpl; [done|]. by rewrite tolower_token, IH.
Qed.

Definition no_leading_blank (s : bytes) : Prop :=
  match s with [] => True | c :: _ => is_blank c = false end.

Lemma skip_blanks_no_leading s : no_leading_blank (skip_blanks s).
Proof. induction s as [|c s IH]; simpl; [done|]. by destruct (is_blank c) eqn:E. Qed.

Lemma skip_blanks_id s : no_leading_blank s -> skip_blanks s = s.
Proof. destruct s as [|c s]; simpl; [done|]. by intros ->. Qed.

Lemma skip_blanks_suffix s : exists t, s = t ++ skip_blanks s.
Proof.
  induction s as [|c s [t IH]]; simpl; [by exists []|].
  destruct (is_blank c); [exists (c :: t); simpl; by f_equal | by exists []].
Qed.

Lemma trim_end_prefix s : exists t, s = trim_end s ++ t.
Proof.
  destruct (skip_blanks_suffix (rev s)) as [t Ht]. exists (rev t). unfold trim_end.
  by rewrite <- rev_app_distr, <- Ht, rev_involutive.
Qed.

Lemma trim_end_idem s : trim_end (trim_end s) = trim_end s.
Proof.
  unfold trim_end. rewrite rev_involutive.
  by rewrite (skip_blanks_id (skip_blanks _)) by apply skip_blanks_no_leading.
Qed.

(** What the two blank-skipping loops leave has no blank at either end. *)
Lemma trim_idem s :
  trim_end (skip_blanks (trim_end (skip_blanks s))) = trim_end (skip_blanks s).
Proof.
  rewrite (skip_blanks_id (trim_end _)); [apply trim_end_idem|].
  pose proof (skip_blanks_no_leading s) as Hs.
  destruct (trim_end_prefix (skip_blanks s)) as [t Ht]. rewrite Ht in Hs.
  by destruct (trim_end (skip_blanks s)).
Qed.

Lemma digits_nonneg s : forall acc,
  0 <= acc -> forallb isdigit s = true ->
  0 <= foldl (fun acc c => acc * 10 + (uchar c - 48)) acc s.
Proof.
  induction s as [|c s IH]; simpl; intros acc Hacc; [done|].
  intros [Hc Hs]%andb_true_iff. apply IH; [|done].
  unfold isdigit, in_range in Hc. zbool. lia.
Qed.

Lemma parseContentLength_range v n :
  parseContentLength v = Some n -> 0 <= n <= SIZE_MAX.
Proof.
  unfold parseContentLength, from_chars. case_bool_decide; [done|].
  destruct (forallb isdigit v) eqn:E; simpl; [|done].
  destruct (_ <=? _) eqn:Hle; [|done]. intros [= <-]. zbool.
  split; [by apply digits_nonneg | done].
Qed.

(** ** Lemmas: the invariant *)

Lemma processRequestLine_wf line p p' :
  processRequestLine line p = Some p' ->
  request_line_ok p' /\ state_ p' = state_ p /\ headers_ p' = headers_ p /\
  body_ p' = body_ p /\ expectedBodyLength_ p' = expectedBodyLength_ p.
Proof.
  unfold processRequestLine. intros H. pose proof (find_char_le SP line) as Hle.
  set (i := find_char SP line) in *. set (rest := drop (S i) line) in *.
  pose proof (find_char_le SP rest) as Hle2. set (j := find_char SP rest) in *.
  destruct (bool_decide _ || _) eqn:E1; [done|].
  destruct (bool_decide _ || _) eqn:E2 in H; [done|].
  apply orb_false_iff in E1 as [?%bool_decide_eq_false ?%bool_decide_eq_false].
  apply orb_false_iff in E2 as [?%bool_decide_eq_false ?%bool_decide_eq_false].
  destruct (negb _); [done|]. destruct (negb _) eqn:Hm in H; [done|].
  destruct (existsb _ _) eqn:Hp; [done|]. destruct (negb _) eqn:Hv in H; [done|].
  injection H as <-. apply negb_false_iff in Hm, Hv. apply bool_decide_eq_true in Hv.
  split; [|done]. unfold request_line_ok, valid_method, valid_path.
  cbn [method_ path_ version_].
  split_and!; try done.
  - intros Hn%(f_equal length). rewrite length_take in Hn. simpl in Hn. lia.
  - intros Hn%(f_equal length). rewrite length_take in Hn. simpl in Hn. lia.
Qed.

Lemma processHeaderLine_wf line h h' :
  processHeaderLine line h = Some h' ->
  exists k v, h' = <[k := v]> h /\ h !! k = None /\ valid_field k /\ valid_value v.
Proof.
  unfold processHeaderLine. intros H. pose proof (find_char_le COLON line) as Hle.
  set (i := find_char COLON line) in *.
  destruct (bool_decide _ || _) eqn:E1; [done|].
  apply orb_false_iff in E1 as [?%bool_decide_eq_false ?%bool_decide_eq_false].
  destruct (negb _) eqn:Hf; [done|]. destruct (existsb _ _) eqn:Hv; [done|].
  destruct (h !! _) eqn:Hh; [done|]. injection H as <-. apply negb_false_iff in Hf.
  do 2 eexists. unfold valid_field, valid_value. split_and!; [done|done| | | |done|].
  - intros Hn%(f_equal length). unfold toLowerAscii in Hn.
    rewrite length_map, length_take in Hn. simpl in Hn. lia.
  - by rewrite toLowerAscii_token.
  - apply toLowerAscii_idem.
  - apply trim_idem.
Qed.

Lemma endOfHeaders_wf {Q} p (q : Q) :
  wf p -> state_ p = ExpectHeaders -> wf (step_parser (endOfHeaders p q)).
Proof.
  intros (Hl & Hh & Hst & _) E. rewrite E in Hst. destruct Hst as (Hr & Hb).
  unfold endOfHeaders. repeat case_match; unfold wf, framed; simpl.
  - done.
  - pose proof (parseContentLength_range _ _ ltac:(eassumption)). eauto 10.
  - done.
  - rewrite H, H0. done.
Qed.

(** Every iteration preserves the invariant. *)
Lemma parseStep_wf p s st :
  wf p -> parseStep p s = Ok st -> wf (step_parser (Q:=bytes) st).
Proof.
  intros Hwf. pose proof Hwf as (Hl & Hh & Hst & Hb).
  unfold parseStep, stepRequestLine, stepHeaders, stepBody. simpl.
  destruct (state_ p) eqn:E; [| | |by intros [= <-]..].
  3: { destruct (_ <? _) eqn:Hlen; intros [= <-]; [done|]. zbool. simpl.
       destruct Hst as (Hr & Hte & v & Hcl & Hv).
       unfold wf, framed. simpl. rewrite Hcl. split_and!; try done; try lia.
       rewrite Hv. f_equal. unfold blen. rewrite length_slice; unfold blen in *; lia. }
  all: destruct (search2 _ _ _) as [i|] eqn:Hi; [|by intros [= <-]]; cbn [fmap option_fmap option_map].
  - destruct (processRequestLine _ _) eqn:Hp; [|by intros [= <-]].
    apply processRequestLine_wf in Hp as (? & ? & Hh' & Hb' & Hn').
    intros ([] & _ & [= <-])%obind_Ok; unfold wf; simpl; rewrite Hh', Hn', Hb'; by eauto 10.
  - destruct (_ =? _).
    + intros (s' & _ & [= <-])%obind_Ok. by apply endOfHeaders_wf.
    + destruct (processHeaderLine _ _) eqn:Hp; [|by intros [= <-]].
      apply processHeaderLine_wf in Hp as (k & v & -> & Hk & ? & ?).
      intros (s' & _ & [= <-])%obind_Ok. unfold wf. simpl. rewrite E.
      destruct Hst. split_and!; try done; try lia. by apply map_Forall_insert.
Qed.

(** An iteration that continues consumes a line, and stays in the loop. *)
Lemma parseStep_progress p s p' s' :
  parseStep p s = Ok (Continue (Q:=bytes) p' s') ->
  state_ p <> GotAll -> state_ p <> Error ->
  (length s' + 2 <= length s)%nat /\ state_ p' <> GotAll /\ state_ p' <> Error.
Proof.
  unfold parseStep, stepRequestLine, stepHeaders, stepBody. simpl.
  destruct (state_ p) eqn:E; try done; intros Hs _ _.
  3: { by destruct (_ <? _). }
  all: destruct (search2 _ _ _) as [i|] eqn:Hi; [|done]; apply search2_bound in Hi;
    cbn [fmap option_fmap option_map] in Hs.
  - destruct (processRequestLine _ _); [|done].
    apply obind_Ok in Hs as (s1 & Hs1 & [= <- <-]).
    unfold require in Hs1. destruct (_ <=? _); [|done]. injection Hs1 as <-.
    rewrite length_drop. split_and!; try done. lia.
  - unfold require in Hs. destruct (_ <=? _); cbn [obind] in Hs;
      [|destruct (_ =? _); [done|by destruct (processHeaderLine _ _)]].
    destruct (_ =? _).
    + unfold endOfHeaders in Hs. repeat case_match; try done. injection Hs as <- <-.
      rewrite length_drop. split_and!; try done. lia.
    + destruct (processHeaderLine _ _); [|done]. injection Hs as <- <-.
      rewrite length_drop. simpl. rewrite E. split_and!; try done. lia.
Qed.

(** An iteration that returns has refused the request, or has completed it, or
    waits for more bytes and has changed nothing. *)
Lemma parseStep_return p s ok p' s' :
  parseStep p s = Ok (Return (Q:=bytes) ok p' s') ->
  (ok = false /\ state_ p' = Error) \/ (ok = true /\ state_ p' = GotAll) \/
  (ok = true /\ p' = p /\ s' = s).
Proof.
  unfold parseStep, stepRequestLine, stepHeaders, stepBody. simpl. intros Hs.
  destruct (state_ p); try done.
  3: { destruct (_ <? _); injection Hs as <- <- <-; eauto. }
  all: destruct (search2 _ _ s) as [i|]; [|by injection Hs as <- <- <-; eauto];
    cbn [fmap option_fmap option_map] in Hs.
  - destruct (processRequestLine _ _); [|by injection Hs as <- <- <-; eauto].
    by apply obind_Ok in Hs as (? & _ & ?).
  - destruct (_ =? _).
    + apply obind_Ok in Hs as (? & _ & Hs). unfold endOfHeaders in Hs.
      repeat case_match; simplify_eq; eauto.
    + destruct (processHeaderLine _ _); [|by injection Hs as <- <- <-; eauto].
      by apply obind_Ok in Hs as (? & _ & ?).
Qed.

(** More bytes in the buffer do not change an iteration that did not wait. *)
Lemma parseStep_extend p s d st :
  parseStep p s = Ok st -> 0 <= expectedBodyLength_ p ->
  parseStep p (s ++ d) = Ok (step_map (fun r : bytes => r ++ d) st) \/
  st = Return true p s.
Proof.
  unfold parseStep, stepRequestLine, stepHeaders, stepBody. simpl. intros Hs Hn.
  destruct (state_ p); [| | |by injection Hs as <-; left..].
  3: { rewrite blen_app. pose proof (blen_nonneg d).
       destruct (_ <? _) eqn:Hlt; injection Hs as <-; zbool; [by right|left].
       replace (_ <? _) with false by (symmetry; apply Z.ltb_ge; lia).
       simpl. unfold slice, blen in *.
       by rewrite !drop_0, take_app_le, drop_app_le by lia. }
  all: destruct (search2 _ _ s) as [i|] eqn:Hi; [|by injection Hs as <-; right]; left;
    rewrite (search2_extend _ _ _ _ _ Hi); apply search2_bound in Hi;
    cbn [fmap option_fmap option_map] in *.
  all: assert (Hsl : slice 0 (Z.of_nat i) (s ++ d) = slice 0 (Z.of_nat i) s)
    by (unfold slice; rewrite !drop_0, take_app_le by lia; done); rewrite Hsl; clear Hsl.
  all: rewrite blen_app; pose proof (blen_nonneg d).
  all: rewrite (require_true (_ <=? _)) by (apply Z.leb_le; unfold blen in *; lia);
    rewrite (require_true (_ <=? _)) in Hs by (apply Z.leb_le; unfold blen in *; lia).
  all: rewrite drop_app_le by lia; cbn [obind] in *.
  - destruct (processRequestLine _ _); by injection Hs as <-.
  - destruct (_ =? _).
    + injection Hs as <-. by rewrite (endOfHeaders_map (fun r => r ++ d)).
    + destruct (processHeaderLine _ _); by injection Hs as <-.
Qed.

(** ** Lemmas: the loop *)

Lemma parseLoop_fuel p (s : bytes) n m r :
  parseLoop n p s = Ok r -> (n <= m)%nat -> parseLoop m p s = Ok r.
Proof.
  revert p s m. induction n as [|n IH]; intros p s m; [done|].
  destruct m as [|m]; [lia|]. cbn [parseLoop].
  destruct (parseStep p s) as [[p' s'|ok p' s']|]; cbn [obind]; try done.
  intros. apply IH; [done | lia].
Qed.

(** Fuel above the number of bytes is enough, from any state in the loop. *)
Lemma parseLoop_total p (s : bytes) n :
  wf p -> state_ p <> GotAll -> state_ p <> Error -> (length s < n)%nat ->
  exists ok p' s', parseLoop n p s = Ok (ok, p', s') /\ wf p'.
Proof.
  revert p s. induction n as [|n IH]; intros p s Hwf Hg He Hn; [lia|]. cbn [parseLoop].
  destruct (parseStep_sim (Q:=bytes) p s) as (st & Hst & _); [done | apply Hwf |].
  rewrite Hst. pose proof (parseStep_wf _ _ _ Hwf Hst) as Hwf'. cbn [obind].
  destruct st as [p' s'|ok p' s']; [|by eauto].
  apply parseStep_progress in Hst as (? & ? & ?); [|done..]. apply IH; done || lia.
Qed.

(** The loop on a buffer is the loop on its bytes. *)
Lemma parseLoop_sim {Q} `{InputQueueLaws Q} n p (q : Q) ok p' s' :
  q_wf q -> wf p ->
  parseLoop n p (q_contents q) = Ok (ok, p', s') ->
  exists q', parseLoop n p q = Ok (ok, p', q') /\ q_wf q' /\ q_contents q' = s' /\
    (forall room, q_fits room q -> q_fits room q').
Proof.
  revert p q. induction n as [|n IH]; intros p q Hq Hwf; [done|]. cbn [parseLoop].
  destruct (parseStep_sim p q) as (st & -> & Hq' & Hst & Hfit); [done | apply Hwf |].
  rewrite Hst. apply parseStep_wf in Hst as Hwf'; [|done]. cbn [obind].
  destruct st as [p1 q1|ok1 p1 q1]; simpl in *; [|by intros [= <- <- <-]; eauto].
  intros Hl. destruct (IH p1 q1 Hq' Hwf' Hl) as (q' & ? & ? & ? & ?). eauto 10.
Qed.

(** On the bytes, with as much fuel as one likes: the parser as a relation. *)
Definition parses (p : t) (s : bytes) (r : bool * t * bytes) : Prop :=
  parseRequest p s = Ok r.

Lemma parseRequest_loop p (s : bytes) n r :
  parseLoop n p s = Ok r -> state_ p <> GotAll -> state_ p <> Error -> wf p ->
  parseRequest p s = Ok r.
Proof.
  intros Hl Hg He Hwf.
  assert (parseRequest p s = parseLoop (parseFuel s) p s) as ->
    by (unfold parseRequest; by destruct (state_ p)).
  destruct (parseLoop_total p s (parseFuel s)) as (ok & p' & s' & Hr & _); try done.
  { unfold parseFuel. simpl. unfold blen. lia. }
  apply (parseLoop_fuel _ _ _ (n `max` parseFuel s)) in Hl; [|lia].
  apply (parseLoop_fuel _ _ _ (n `max` parseFuel s)) in Hr as Hr'; [|lia]. congruence.
Qed.

Lemma parseRequest_sim {Q} `{InputQueueLaws Q} p (q : Q) :
  q_wf q -> wf p ->
  exists ok p' q', parseRequest p q = Ok (ok, p', q') /\ q_wf q' /\ wf p' /\
    parseRequest p (q_contents q) = Ok (ok, p', q_contents q') /\
    (forall room, q_fits room q -> q_fits room q').
Proof.
  intros Hq Hwf. destruct (decide (state_ p = GotAll)) as [Eg|Ng].
  { unfold parseRequest. rewrite Eg. eauto 10. }
  destruct (decide (state_ p = Error)) as [Ee|Ne].
  { unfold parseRequest. rewrite Ee. eauto 10. }
  destruct (parseLoop_total p (q_contents q) (parseFuel q)) as (ok & p' & s' & Hl & Hwf');
    [done..| |].
  { unfold parseFuel. rewrite q_readable_law by done. unfold blen. lia. }
  apply parseLoop_sim in Hl as Hq'; [|done..]. destruct Hq' as (q' & Hr & Hq' & <- & Hfit).
  exists ok, p', q'. split_and!; try done.
  - unfold parseRequest. by destruct (state_ p).
  - by eapply parseRequest_loop.
Qed.

(** One iteration of the call. *)
Lemma parseRequest_continue p (s : bytes) p1 s1 :
  wf p -> state_ p <> GotAll -> state_ p <> Error ->
  parseStep p s = Ok (Continue p1 s1) -> parseRequest p s = parseRequest p1 s1.
Proof.
  intros Hwf Hg He Hst. pose proof (parseStep_wf _ _ _ Hwf Hst) as Hwf'.
  apply parseStep_progress in Hst as Hp; [|done..]. destruct Hp as (_ & Hg1 & He1).
  destruct (parseLoop_total p1 s1 (parseFuel s1)) as (? & ? & ? & Hl & _);
    try done; [unfold parseFuel; simpl; unfold blen; lia|].
  rewrite (parseRequest_loop p1 _ _ _ Hl) by done.
  eapply (parseRequest_loop p _ (S _)); [|done..]. cbn [parseLoop]. by rewrite Hst.
Qed.

Lemma parseRequest_return p (s : bytes) ok p1 s1 :
  wf p -> state_ p <> GotAll -> state_ p <> Error ->
  parseStep p s = Ok (Return ok p1 s1) -> parseRequest p s = Ok (ok, p1, s1).
Proof.
  intros Hwf Hg He Hst. eapply (parseRequest_loop p _ 1); [|done..].
  cbn [parseLoop]. by rewrite Hst.
Qed.

(** Bytes that arrive later: either the parse had ended, and does not see them,
    or it was waiting, and goes on with them. *)
Definition resumes (p : t) (s d : bytes) (ok : bool) (p' : t) (s' : bytes) : Prop :=
  if ok && negb (gotAll p')
  then parseRequest p (s ++ d) = parseRequest p' (s' ++ d) /\ state_ p' <> Error
  else parseRequest p (s ++ d) = Ok (ok, p', s' ++ d).

Lemma resumes_step p s d st ok p' s' :
  wf p -> state_ p <> GotAll -> state_ p <> Error ->
  parseStep p s = Ok st ->
  match st with
  | Continue p1 s1 => resumes p1 s1 d ok p' s'
  | Return ok1 p1 s1 => (ok1, p1, s1) = (ok, p', s')
  end ->
  resumes p s d ok p' s'.
Proof.
  intros Hwf Hg He Hst Hk. pose proof (parseStep_wf _ _ _ Hwf Hst) as Hwf'.
  destruct (parseStep_extend p s d st Hst) as [Hd|Hw]; [apply Hwf| |].
  - destruct st as [p1 s1|ok1 p1 s1]; simpl in *.
    + apply parseStep_progress in Hst as (_ & Hg1 & He1); [|done..].
      assert (parseRequest p (s ++ d) = parseRequest p1 (s1 ++ d)) as E;
        [|unfold resumes in *; by rewrite E].
      by apply parseRequest_continue.
    + injection Hk as <- <- <-.
      assert (parseRequest p (s ++ d) = Ok (ok1, p1, s1 ++ d)) as Hr.
      { by apply parseRequest_return. }
      unfold resumes, gotAll.
      apply parseStep_return in Hst as [[-> _]|[[-> Hg1]|(-> & -> & ->)]].
      * done.
      * by rewrite Hg1.
      * by rewrite bool_decide_eq_false_2.
  - subst st. injection Hk as <- <- <-. unfold resumes, gotAll.
    by rewrite bool_decide_eq_false_2.
Qed.

Lemma parseLoop_resumes n p (s d : bytes) ok p' s' :
  wf p -> state_ p <> GotAll -> state_ p <> Error ->
  parseLoop n p s = Ok (ok, p', s') -> resumes p s d ok p' s'.
Proof.
  revert p s. induction n as [|n IH]; intros p s Hwf Hg He; [done|]. cbn [parseLoop].
  intros (st & Hst & Hk)%obind_Ok. eapply resumes_step; [done..|].
  destruct st as [p1 s1|ok1 p1 s1]; [|by injection Hk as <- <- <-].
  pose proof (parseStep_wf _ _ _ Hwf Hst) as Hwf'.
  apply parseStep_progress in Hst as (_ & ? & ?); [|done..]. by apply IH.
Qed.

Lemma parseRequest_resumes p (s d : bytes) ok p' s' :
  wf p -> parseRequest p s = Ok (ok, p', s') -> resumes p s d ok p' s'.
Proof.
  intros Hwf. destruct (decide (state_ p = GotAll)) as [Eg|Ng].
  { unfold resumes, parseRequest, gotAll. rewrite Eg. intros [= <- <- <-].
    by rewrite (bool_decide_eq_true_2 (state_ p = GotAll)), Eg. }
  destruct (decide (state_ p = Error)) as [Ee|Ne].
  { unfold resumes, parseRequest. rewrite Ee. intros [= <- <- <-]. by rewrite Ee. }
  intros Hr. apply (parseLoop_resumes (parseFuel s)); try done.
  unfold parseRequest in Hr. by destruct (state_ p).
Qed.

(** ** Lemmas: parsing what a client prints *)

Definition not_LF (c : ascii) : bool := negb (Ascii.eqb c Buffer.LF).

(** A line without line feed, followed by CRLF, is found by [findCRLF]. *)
Lemma find_line line s :
  forallb not_LF line = true ->
  search2 Buffer.CR Buffer.LF (line ++ Buffer.kCRLF ++ s) = Some (length line).
Proof.
  intros Hl. apply (search2_app Buffer.CR Buffer.LF line s).
  apply search2_none; [by vm_compute | done].
Qed.

Lemma line_range line s :
  slice 0 (Z.of_nat (length line)) (line ++ Buffer.kCRLF ++ s) = line.
Proof.
  unfold slice. rewrite drop_0, take_app_le by lia. by rewrite take_ge by lia.
Qed.

Lemma line_rest line s :
  require (Z.of_nat (length line) + 2 <=? blen (line ++ Buffer.kCRLF ++ s)) AssertFailure
    (Ok (drop (Z.to_nat (Z.of_nat (length line) + 2)) (line ++ Buffer.kCRLF ++ s))) = Ok s.
Proof.
  rewrite require_true.
  - f_equal. rewrite app_assoc, drop_app_ge by (rewrite length_app; simpl; lia).
    rewrite length_app. replace (_ - _)%nat with 0%nat by (simpl; lia). by rewrite drop_0.
  - apply Z.leb_le. rewrite !blen_app. pose proof (blen_nonneg s).
    unfold blen at 1 2, Buffer.kCRLF. simpl. lia.
Qed.

Lemma parse_request_line p line p' s :
  wf p -> state_ p = ExpectRequestLine -> forallb not_LF line = true ->
  processRequestLine line p = Some p' ->
  parseRequest p (line ++ Buffer.kCRLF ++ s) = parseRequest (set_state ExpectHeaders p') s.
Proof.
  intros Hwf E Hl Hp. apply parseRequest_continue; [done|by rewrite E..|].
  unfold parseStep. rewrite E. unfold stepRequestLine. cbn [q_findCRLF bytes_queue].
  rewrite find_line by done. cbn [fmap option_fmap option_map].
  cbn [q_range bytes_queue]. rewrite line_range, Hp. cbn [q_retrieveUntil bytes_queue]. by rewrite line_rest.
Qed.

Lemma parse_header_line p line h s :
  wf p -> state_ p = ExpectHeaders -> forallb not_LF line = true -> line <> [] ->
  processHeaderLine line (headers_ p) = Some h ->
  parseRequest p (line ++ Buffer.kCRLF ++ s) = parseRequest (set_headers h p) s.
Proof.
  intros Hwf E Hl Hne Hp. apply parseRequest_continue; [done|by rewrite E..|].
  unfold parseStep. rewrite E. unfold stepHeaders. cbn [q_findCRLF bytes_queue].
  rewrite find_line by done. cbn [fmap option_fmap option_map].
  replace (_ =? 0) with false by (symmetry; apply Z.eqb_neq; destruct line; simpl; done || lia).
  cbn [q_range bytes_queue]. rewrite line_range, Hp. cbn [q_retrieveUntil bytes_queue]. by rewrite line_rest.
Qed.

Lemma stepHeaders_empty p s :
  state_ p = ExpectHeaders ->
  parseStep p (Buffer.kCRLF ++ s) = Ok (endOfHeaders (Q:=bytes) p s).
Proof.
  intros E. unfold parseStep. rewrite E. unfold stepHeaders. cbn [q_findCRLF bytes_queue].
  change (Buffer.kCRLF ++ s) with ([] ++ Buffer.kCRLF ++ s).
  rewrite find_line by done. cbn [fmap option_fmap option_map].
  cbn [q_retrieveUntil bytes_queue]. by rewrite line_rest.
Qed.

(** The end of a request whose headers are read: its body, then the rest. *)
Lemma parse_end p body rest :
  wf p -> state_ p = ExpectHeaders -> framed (set_body body p) ->
  exists n, parseRequest p (Buffer.kCRLF ++ body ++ rest) =
    Ok (true, mk GotAll (method_ p) (path_ p) (version_ p) (headers_ p) body n, rest) /\
    (headers_ p !! content_length = None -> n = expectedBodyLength_ p).
Proof.
  intros Hwf E [Hte Hcl]. simpl in Hte, Hcl.
  pose proof (stepHeaders_empty p (body ++ rest) E) as Hst. unfold endOfHeaders in Hst.
  rewrite Hte in Hst. destruct (headers_ p !! content_length) as [v|] eqn:Hv.
  - rewrite Hcl in Hst. exists (blen body). split; [|done].
    pose proof (parseRequest_continue _ _ _ _ Hwf ltac:(by rewrite E)
      ltac:(by rewrite E) Hst) as ->.
    apply parseRequest_return; [|done..|].
    { apply parseStep_wf in Hst; [|done]. done. }
    unfold parseStep. simpl. unfold stepBody. simpl.
    rewrite blen_app. pose proof (blen_nonneg rest).
    replace (_ <? _) with false by (symmetry; apply Z.ltb_ge; lia).
    unfold slice, blen. rewrite Z.sub_0_r, Nat2Z.id, drop_0, take_app_le, drop_app_le by lia.
    by rewrite take_ge, drop_ge by lia.
  - subst body. exists (expectedBodyLength_ p). split; [|done].
    apply parseRequest_return in Hst; [|done|by rewrite E..]. rewrite Hst.
    unfold set_state. destruct Hwf as (_ & _ & Hs & _). rewrite E in Hs.
    destruct Hs as [_ ->]. done.
Qed.

(** A request as a client builds it, and its bytes on the wire. *)
Record request := Request {
  r_method : bytes;
  r_path : bytes;
  r_version : bytes;
  r_headers : list (bytes * bytes);
  r_body : bytes;
}.

Definition render_request_line (r : request) : bytes :=
  r_method r ++ [SP] ++ r_path r ++ [SP] ++ r_version r.

Definition render_header (h : bytes * bytes) : bytes := h.1 ++ [COLON; SP] ++ h.2.

Definition render_headers (hs : list (bytes * bytes)) : bytes :=
  concat (map (fun h => render_header h ++ Buffer.kCRLF) hs).

Definition render (r : request) : bytes :=
  render_request_line r ++ Buffer.kCRLF ++ render_headers (r_headers r) ++
  Buffer.kCRLF ++ r_body r.

(** The header map a parser builds: names in lower case. *)
Fixpoint header_map (hs : list (bytes * bytes)) (m : gmap bytes bytes) : gmap bytes bytes :=
  match hs with
  | [] => m
  | (k, v) :: hs => header_map hs (<[toLowerAscii k := v]> m)
  end.

(** Well-formed requests: the grammar's character classes, no field twice, and
    the one framing the parser supports. *)
Record valid_request (r : request) : Prop := {
  vr_method : valid_method (r_method r);
  vr_path : valid_path (r_path r);
  vr_version : r_version r ∈ versions;
  vr_headers : Forall (fun h => valid_method h.1 /\ valid_value h.2) (r_headers r);
  vr_nodup : NoDup (map (fun h => toLowerAscii h.1) (r_headers r));
  vr_no_te : header_map (r_headers r) ∅ !! transfer_encoding = None;
  vr_length :
    match header_map (r_headers r) ∅ !! content_length with
    | None => r_body r = []
    | Some v => parseContentLength v = Some (blen (r_body r))
    end;
}.

Lemma token_not c :
  isTokenCharacter c = true ->
  negb (Ascii.eqb c SP) = true /\ negb (Ascii.eqb c COLON) = true /\ not_LF c = true.
Proof.
  intros Hc.
  assert (H : implb (isTokenCharacter c)
    (negb (Ascii.eqb c SP) && negb (Ascii.eqb c COLON) && not_LF c) = true).
  { revert c Hc. intros c _. revert c. apply ascii_forall. vm_compute. reflexivity. }
  rewrite Hc in H. simpl in H. by apply andb_true_iff in H as [[? ?]%andb_true_iff ?].
Qed.

Lemma path_not c :
  negb (bad_path_char c) = true -> negb (Ascii.eqb c SP) = true /\ not_LF c = true.
Proof.
  intros Hc.
  assert (H : implb (negb (bad_path_char c)) (negb (Ascii.eqb c SP) && not_LF c) = true).
  { revert c Hc. intros c _. revert c. apply ascii_forall. vm_compute. reflexivity. }
  rewrite Hc in H. by apply andb_true_iff in H.
Qed.

Lemma value_not c : negb (bad_value_char c) = true -> not_LF c = true.
Proof.
  intros Hc. assert (H : implb (negb (bad_value_char c)) (not_LF c) = true).
  { revert c Hc. intros c _. revert c. apply ascii_forall. vm_compute. reflexivity. }
  by rewrite Hc in H.
Qed.

Lemma version_not v :
  v ∈ versions -> forallb (fun c => negb (Ascii.eqb c SP) && not_LF c) v = true.
Proof. intros [->|[->|[]%not_elem_of_nil]%elem_of_cons]%elem_of_cons; reflexivity. Qed.

Lemma processRequestLine_render r p :
  valid_method (r_method r) -> valid_path (r_path r) -> r_version r ∈ versions ->
  processRequestLine (render_request_line r) p =
    Some (mk (state_ p) (r_method r) (r_path r) (r_version r) (headers_ p) (body_ p)
             (expectedBodyLength_ p)).
Proof.
  intros [Hm Hmt] [Hp Hpt] Hv. unfold processRequestLine, render_request_line.
  set (m := r_method r) in *. set (pa := r_path r) in *. set (v := r_version r) in *.
  assert (E1 : find_char SP (m ++ [SP] ++ pa ++ [SP] ++ v) = length m).
  { rewrite find_char_app; [simpl; lia|].
    apply (forallb_impl _ _ _ (fun c Hc => proj1 (token_not c Hc)) Hmt). }
  rewrite E1.
  assert (E2 : drop (S (length m)) (m ++ [SP] ++ pa ++ [SP] ++ v) = pa ++ [SP] ++ v).
  { rewrite drop_app_ge by lia. by replace (S (length m) - length m)%nat with 1%nat by lia. }
  rewrite E2.
  assert (E3 : find_char SP (pa ++ [SP] ++ v) = length pa).
  { rewrite find_char_app; [simpl; lia|]. apply existsb_forallb in Hpt.
    apply (forallb_impl _ _ _ (fun c Hc => proj1 (path_not c Hc)) Hpt). }
  rewrite E3.
  assert (E4 : drop (S (S (length m) + length pa)) (m ++ [SP] ++ pa ++ [SP] ++ v) = v).
  { replace (S (S (length m) + length pa)) with (S (length m) + S (length pa))%nat by lia.
    rewrite <- drop_drop, E2, drop_app_ge by lia.
    by replace (S (length pa) - length pa)%nat with 1%nat by lia. }
  rewrite E4.
  assert (Hl : length (m ++ [SP] ++ pa ++ [SP] ++ v) = (length m + length pa + length v + 2)%nat)
    by (rewrite !length_app; simpl; lia). rewrite Hl.
  assert (0 < length m)%nat by (destruct m; simpl; done || lia).
  assert (0 < length pa)%nat by (destruct pa; simpl; done || lia).
  rewrite !bool_decide_eq_false_2 by lia. cbn [orb].
  rewrite find_char_none.
  2: { apply (forallb_impl _ _ _ (fun c Hc => proj1 (proj1 (andb_true_iff _ _) Hc)) (version_not _ Hv)). }
  rewrite (bool_decide_eq_true_2 (length v = length v)) by done. cbn [negb].
  rewrite take_app_le, take_ge by lia. rewrite Hmt. cbn [negb].
  replace (S (length m) + length pa - S (length m))%nat with (length pa) by lia.
  rewrite take_app_le, take_ge by lia. rewrite Hpt.
  by rewrite bool_decide_eq_true_2.
Qed.

Lemma processHeaderLine_render k v h :
  valid_method k -> valid_value v ->
  processHeaderLine (render_header (k, v)) h =
    match h !! toLowerAscii k with
    | Some _ => None
    | None => Some (<[toLowerAscii k := v]> h)
    end.
Proof.
  intros [Hk Hkt] [Hv Htrim]. unfold processHeaderLine, render_header. cbn [fst snd].
  rewrite find_char_app.
  2: { apply (forallb_impl _ _ _ (fun c Hc => proj1 (proj2 (token_not c Hc))) Hkt). }
  change (find_char COLON ([COLON; SP] ++ v)) with 0%nat. rewrite Nat.add_0_r.
  rewrite length_app. assert (0 < length k)%nat by (destruct k; simpl; done || lia).
  rewrite !bool_decide_eq_false_2 by (simpl; lia). cbn [orb].
  rewrite take_app_le, take_ge by lia. rewrite Hkt. cbn [negb].
  rewrite drop_app_ge by lia. replace (S (length k) - length k)%nat with 1%nat by lia.
  change (drop 1 ([COLON; SP] ++ v)) with (SP :: v).
  change (skip_blanks (SP :: v)) with (skip_blanks v).
  by rewrite Htrim, Hv.
Qed.

Lemma render_header_no_LF h :
  valid_method h.1 -> valid_value h.2 -> forallb not_LF (render_header h) = true.
Proof.
  intros [_ Hk] [Hv _]. unfold render_header. rewrite !forallb_app.
  rewrite (forallb_impl _ _ _ (fun c Hc => proj2 (proj2 (token_not c Hc))) Hk).
  by rewrite (forallb_impl _ _ _ value_not (existsb_forallb _ _ Hv)).
Qed.

Lemma render_request_line_no_LF r :
  valid_method (r_method r) -> valid_path (r_path r) -> r_version r ∈ versions ->
  forallb not_LF (render_request_line r) = true.
Proof.
  intros [_ Hm] [_ Hp] Hv. unfold render_request_line. rewrite !forallb_app.
  rewrite (forallb_impl _ _ _ (fun c Hc => proj2 (proj2 (token_not c Hc))) Hm).
  rewrite (forallb_impl _ _ _ (fun c Hc => proj2 (path_not c Hc)) (existsb_forallb _ _ Hp)).
  by rewrite (forallb_impl _ _ _ (fun c Hc => proj2 (proj1 (andb_true_iff _ _) Hc))
    (version_not _ Hv)).
Qed.

Lemma wf_insert_header p k v :
  wf p -> state_ p = ExpectHeaders -> valid_method k -> valid_value v ->
  wf (set_headers (<[toLowerAscii k := v]> (headers_ p)) p).
Proof.
  intros (Hl & Hh & Hst & _) E [Hk Hkt] Hv. rewrite E in Hst. destruct Hst.
  unfold wf. simpl. rewrite E. split_and!; try done; try lia.
  apply map_Forall_insert_2; [|done]. split; [|done]. split_and!.
  - intros Hn%(f_equal length). unfold toLowerAscii in Hn. rewrite length_map in Hn.
    by destruct k.
  - by rewrite toLowerAscii_token.
  - apply toLowerAscii_idem.
Qed.

Lemma parse_headers hs : forall p s,
  wf p -> state_ p = ExpectHeaders ->
  Forall (fun h => valid_method h.1 /\ valid_value h.2) hs ->
  NoDup (map (fun h => toLowerAscii h.1) hs) ->
  Forall (fun h => headers_ p !! toLowerAscii h.1 = None) hs ->
  wf (set_headers (header_map hs (headers_ p)) p) /\
  parseRequest p (render_headers hs ++ s) =
    parseRequest (set_headers (header_map hs (headers_ p)) p) s.
Proof.
  induction hs as [|[k v] hs IH]; intros p s Hwf E Hv Hnd Hnone; simpl.
  { replace (set_headers (headers_ p) p) with p by (by destruct p). done. }
  apply Forall_cons in Hv as [[Hk Hval] Hv], Hnone as [Hn Hnone].
  apply NoDup_cons in Hnd as [Hnin Hnd]. cbn [fst snd] in *.
  destruct (IH (set_headers (<[toLowerAscii k := v]> (headers_ p)) p) s) as [Hwf' Hp];
    [by apply wf_insert_header | done..| |].
  { apply Forall_forall. intros h Hin. rewrite Forall_forall in Hnone. simpl.
    rewrite lookup_insert_ne; [by apply Hnone|]. intros Heq. apply Hnin. rewrite Heq.
    by apply (list_elem_of_fmap_2 (fun h : bytes * bytes => toLowerAscii h.1)). }
  split; [done|]. etrans; [|exact Hp]. unfold render_headers. simpl.
  rewrite <- !app_assoc. apply parse_header_line; try done.
  - by apply (render_header_no_LF (k, v)).
  - unfold render_header. cbn [fst snd]. by destruct k.
  - by rewrite processHeaderLine_render, Hn.
Qed.

Lemma make_wf : wf make.
Proof. unfold wf, SIZE_MAX. simpl. split_and!; try done; lia. Qed.

(** A printed request is parsed back, whatever bytes follow it. *)
Lemma parse_render r rest :
  valid_request r ->
  exists n, parseRequest make (render r ++ rest) =
    Ok (true, mk GotAll (r_method r) (r_path r) (r_version r)
                 (header_map (r_headers r) ∅) (r_body r) n, rest).
Proof.
  intros [Hm Hp Hv Hh Hnd Hte Hl]. unfold render. rewrite <- !app_assoc.
  pose proof (processRequestLine_render r make Hm Hp Hv) as Hline.
  rewrite (parse_request_line make _ _ _ make_wf eq_refl
    (render_request_line_no_LF r Hm Hp Hv) Hline).
  set (p1 := set_state _ _).
  assert (Hwf1 : wf p1) by (unfold wf, p1, request_line_ok, SIZE_MAX; simpl; split_and!; done || lia).
  destruct (parse_headers (r_headers r) p1 (Buffer.kCRLF ++ r_body r ++ rest)) as [Hwf2 ->];
    [done|done|done|done| |].
  { apply Forall_forall. intros h _. apply lookup_empty. }
  destruct (parse_end _ (r_body r) rest Hwf2) as (n & -> & _); [done|by split|].
  by exists n.
Qed.

(** ** Fragments *)

(** The parser called each time a fragment has arrived, as the message callback
    does: until it has a request, or refuses the bytes.  Returns also the
    fragments that are still to come. *)
Fixpoint feed {Q} `{InputQueue Q} (p : t) (q : Q) (frags : list bytes)
  : outcome (bool * t * Q * list bytes) :=
  match frags with
  | [] => Ok (true, p, q, [])
  | d :: frags =>
      let! q := q_append d q in
      let! (ok, p, q) := parseRequest p q in
      if ok && negb (gotAll p) then feed p q frags else Ok (ok, p, q, frags)
  end.

Lemma feed_cons {Q} `{InputQueue Q} p (q : Q) d frags :
  feed p q (d :: frags) =
    let! q := q_append d q in
    let! (ok, p, q) := parseRequest p q in
    if ok && negb (gotAll p) then feed p q frags else Ok (ok, p, q, frags).
Proof. done. Qed.

(** Feeding the fragments is parsing them at once. *)
Lemma feed_app {Q} `{InputQueueLaws Q} d (q : Q) frags p room :
  q_wf q -> wf p -> q_fits room q -> blen (concat (d :: frags)) <= room ->
  exists ok p' q' left, feed p q (d :: frags) = Ok (ok, p', q', left) /\ q_wf q' /\
    parseRequest p (q_contents q ++ d ++ concat frags) =
      Ok (ok, p', q_contents q' ++ concat left).
Proof.
  revert d q p room. induction frags as [|d' frags IH]; intros d q p room Hq Hwf Hfit Hroom.
  all: cbn [concat] in Hroom; rewrite blen_app in Hroom; rewrite feed_cons.
  - destruct (q_append_law q d room) as (q1 & -> & Hq1 & Hc1 & _);
      [done..|unfold blen at 2 in Hroom; simpl in Hroom; lia|]. cbn [obind concat].
    destruct (parseRequest_sim p q1) as (ok & p' & q' & -> & Hq' & _ & Hr & _); [done..|].
    rewrite app_nil_r, <- Hc1, Hr. cbn [obind feed].
    exists ok, p', q', []. cbn [concat]. rewrite app_nil_r. split_and!; try done.
    by destruct (ok && _) eqn:E; [apply andb_true_iff in E as [-> _]|].
  - rewrite blen_app in Hroom.
    pose proof (blen_nonneg d'). pose proof (blen_nonneg (concat frags)).
    destruct (q_append_law q d room) as (q1 & -> & Hq1 & Hc1 & Hfit1);
      [done..|lia|]. cbn [obind].
    destruct (parseRequest_sim p q1) as (ok & p' & q' & -> & Hq' & Hwf' & Hr & Hfit');
      [done..|]. cbn [obind].
    pose proof (parseRequest_resumes p _ (d' ++ concat frags) ok p' _ Hwf Hr) as Hres.
    unfold resumes in Hres. rewrite Hc1 in Hres. rewrite app_assoc.
    cbn [concat]. destruct (ok && negb (gotAll p')).
    + destruct Hres as [-> _]. apply (IH d' q' p' (room - blen d)); auto.
      cbn [concat]. rewrite blen_app. lia.
    + exists ok, p', q', (d' :: frags). by rewrite Hres.
Qed.

(** ** Lemmas: what is left, and what is refused *)

Lemma parseStep_suffix p s st :
  parseStep p s = Ok st -> exists n, step_buf (Q:=bytes) st = drop n s.
Proof.
  assert (H0 : exists n, s = drop n s) by (by exists 0%nat).
  unfold parseStep, stepRequestLine, stepHeaders, stepBody. simpl. unfold require. intros Hs.
  destruct (state_ p); repeat case_match; simplify_eq/=;
    rewrite ?endOfHeaders_buf; simplify_eq/=; eauto.
Qed.

Lemma parseLoop_suffix n p (s : bytes) ok p' s' :
  parseLoop n p s = Ok (ok, p', s') -> exists n, s' = drop n s.
Proof.
  revert p s. induction n as [|n IH]; intros p s; [done|]. cbn [parseLoop].
  intros (st & Hst & Hk)%obind_Ok. destruct (parseStep_suffix _ _ _ Hst) as [k Hk'].
  destruct st as [p1 s1|ok1 p1 s1]; simpl in Hk'; subst s1; [|by simplify_eq; eauto].
  destruct (IH _ _ Hk) as [m ->]. exists (k + m)%nat. by rewrite drop_drop.
Qed.

Lemma parseRequest_suffix p (s : bytes) ok p' s' :
  parseRequest p s = Ok (ok, p', s') -> exists n, s' = drop n s.
Proof.
  unfold parseRequest. destruct (state_ p); try apply parseLoop_suffix;
    intros [= <- <- <-]; by exists 0%nat.
Qed.

(** [false] is returned exactly when the parser is left in [Error]. *)
Lemma parseLoop_error n p (s : bytes) ok p' s' :
  wf p -> state_ p <> GotAll -> state_ p <> Error ->
  parseLoop n p s = Ok (ok, p', s') -> (ok = false <-> state_ p' = Error).
Proof.
  revert p s. induction n as [|n IH]; intros p s Hwf Hg He; [done|]. cbn [parseLoop].
  intros (st & Hst & Hk)%obind_Ok. pose proof (parseStep_wf _ _ _ Hwf Hst) as Hwf'.
  destruct st as [p1 s1|ok1 p1 s1].
  - apply parseStep_progress in Hst as (_ & ? & ?); [|done..]. by apply (IH p1 s1).
  - simplify_eq. apply parseStep_return in Hst as [[-> ->]|[[-> ->]|(-> & -> & ->)]]; done.
Qed.

Lemma parseRequest_error p (s : bytes) ok p' s' :
  wf p -> parseRequest p s = Ok (ok, p', s') -> (ok = false <-> state_ p' = Error).
Proof.
  intros Hwf Hr. destruct (state_ p) eqn:E; unfold parseRequest in Hr; rewrite E in Hr.
  1-3: eapply (parseLoop_error _ p); [done|by rewrite E..|done].
  all: injection Hr as <- <- <-; rewrite E; done.
Qed.

Lemma header_map_lookup_ne hs m k :
  k ∉ map (fun h => toLowerAscii h.1) hs -> header_map hs m !! k = m !! k.
Proof.
  revert m. induction hs as [|[k' v] hs IH]; intros m; simpl; [done|].
  intros [Hk Hin]%not_elem_of_cons. rewrite IH by done. by rewrite lookup_insert_ne.
Qed.

(** A printed header is found under any spelling of its name. *)
Lemma header_map_lookup hs m k v :
  NoDup (map (fun h => toLowerAscii h.1) hs) -> (k, v) ∈ hs ->
  header_map hs m !! toLowerAscii k = Some v.
Proof.
  revert m. induction hs as [|[k' v'] hs IH]; intros m; simpl; [by intros ? []%not_elem_of_nil|].
  intros [Hnin Hnd]%NoDup_cons [[= <- <-]|Hin]%elem_of_cons; [|by apply IH].
  rewrite header_map_lookup_ne by done. apply lookup_insert_eq.
Qed.

(** A header line whose field is already there is refused. *)
Lemma parse_headers_dup hs : forall p s,
  wf p -> state_ p = ExpectHeaders ->
  Forall (fun h => valid_method h.1 /\ valid_value h.2) hs ->
  ~ NoDup (map (fun h => toLowerAscii h.1) hs) \/
    Exists (fun h => headers_ p !! toLowerAscii h.1 <> None) hs ->
  exists p' s', parseRequest p (render_headers hs ++ s) = Ok (false, p', s').
Proof.
  induction hs as [|[k v] hs IH]; intros p s Hwf E Hv Hdup.
  { destruct Hdup as [[]|Hex]; [constructor | by inversion Hex]. }
  apply Forall_cons in Hv as [[Hk Hval] Hv]. cbn [fst snd] in *.
  unfold render_headers. cbn [map concat]. rewrite <- !app_assoc.
  destruct (headers_ p !! toLowerAscii k) as [v0|] eqn:Hl.
  - do 2 eexists. apply parseRequest_return; [done|by rewrite E..|].
    unfold parseStep. rewrite E. unfold stepHeaders. cbn [q_findCRLF bytes_queue].
    rewrite find_line by (by apply (render_header_no_LF (k, v))).
    cbn [fmap option_fmap option_map].
    replace (_ =? 0) with false
      by (symmetry; apply Z.eqb_neq; destruct k; [by destruct Hk | simpl; lia]).
    cbn [q_range bytes_queue]. rewrite line_range.
    by rewrite processHeaderLine_render, Hl.
  - rewrite (parse_header_line p (render_header (k, v)) (<[toLowerAscii k := v]> (headers_ p)));
      [|done|done|by apply (render_header_no_LF (k, v))|by destruct k; [destruct Hk|]
       |by rewrite processHeaderLine_render, Hl].
    apply IH; [by apply wf_insert_header|done..|]. simpl.
    destruct Hdup as [Hnd|Hex].
    + destruct (decide (toLowerAscii k ∈ map (fun h => toLowerAscii h.1) hs)) as [Hin|Hnin].
      * right. apply Exists_exists. apply list_elem_of_fmap in Hin as (h & Hkh & Hin).
        exists h. split; [done|]. by rewrite <- Hkh, lookup_insert_eq.
      * left. intros Hnd'. apply Hnd. by constructor.
    + right. apply Exists_cons in Hex as [Hex|Hex]; [by cbn [fst] in Hex|].
      apply Exists_exists in Hex as (h & Hin & Hh). apply Exists_exists. exists h.
      split; [done|]. rewrite lookup_insert. by case_decide.
Qed.

(** A request whose headers repeat a field, or announce a transfer encoding. *)
Definition ambiguous_headers (r : request) : Prop :=
  ~ NoDup (map (fun h => toLowerAscii h.1) (r_headers r)) \/
  header_map (r_headers r) ∅ !! transfer_encoding <> None.

Lemma parse_ambiguous r rest :
  valid_method (r_method r) -> valid_path (r_path r) -> r_version r ∈ versions ->
  Forall (fun h => valid_method h.1 /\ valid_value h.2) (r_headers r) ->
  ambiguous_headers r ->
  exists p' s', parseRequest make (render r ++ rest) = Ok (false, p', s').
Proof.
  intros Hm Hp Hv Hh Hamb. unfold render. rewrite <- !app_assoc.
  rewrite (parse_request_line make _ _ _ make_wf eq_refl
    (render_request_line_no_LF r Hm Hp Hv) (processRequestLine_render r make Hm Hp Hv)).
  set (p1 := set_state _ _).
  assert (Hwf1 : wf p1) by (unfold wf, p1, request_line_ok, SIZE_MAX; simpl; split_and!; done || lia).
  destruct (decide (NoDup (map (fun h => toLowerAscii h.1) (r_headers r)))) as [Hnd|Hnd].
  - destruct Hamb as [|Hte]; [done|].
    destruct (parse_headers (r_headers r) p1 (Buffer.kCRLF ++ r_body r ++ rest)) as [Hwf2 ->];
      [done|done|done|done| |].
    { apply Forall_forall. intros h _. apply lookup_empty. }
    do 2 eexists. apply parseRequest_return; [done..|].
    rewrite stepHeaders_empty by done. unfold endOfHeaders.
    change (headers_ (set_headers ?h p1)) with h. change (headers_ p1) with (∅ : gmap bytes bytes).
    by destruct (_ !! transfer_encoding).
  - apply parse_headers_dup; auto.
Qed.

(** The simulation, at the C++ buffer. *)
Lemma parseRequest_buffer p (b : Buffer.t) :
  Buffer.wf b -> wf p ->
  exists ok p' b', parseRequest p b = Ok (ok, p', b') /\ Buffer.wf b' /\ wf p' /\
    parseRequest p (Buffer.contents b) = Ok (ok, p', Buffer.contents b') /\
    (forall room, Buffer.size b + room <= Buffer.max_size ->
      Buffer.size b' + room <= Buffer.max_size).
Proof. exact (@parseRequest_sim Buffer.t Buffer_queue Buffer_queue_laws p b). Qed.

Lemma feed_app_buffer d (b : Buffer.t) frags p room :
  Buffer.wf b -> wf p -> Buffer.size b + room <= Buffer.max_size ->
  blen (concat (d :: frags)) <= room ->
  exists ok p' b' left, feed p b (d :: frags) = Ok (ok, p', b', left) /\ Buffer.wf b' /\
    parseRequest p (Buffer.contents b ++ d ++ concat frags) =
      Ok (ok, p', Buffer.contents b' ++ concat left).
Proof. exact (@feed_app Buffer.t Buffer_queue Buffer_queue_laws d b frags p room). Qed.

(** ** Properties *)

(** C14. Termination and safety: from every state of the parser and on every
    buffer, [parseRequest] returns, without a failed assertion or an access out
    of bounds, keeps both invariants, leaves a suffix of the bytes, and returns
    [false] exactly when it is left in [Error]. *)
Theorem parseRequest_total (p : t) (b : Buffer.t) :
  wf p ->
  Buffer.wf b ->
  exists ok p' b', parseRequest p b = Ok (ok, p', b') /\ wf p' /\ Buffer.wf b' /\
    (exists n, Buffer.contents b' = drop n (Buffer.contents b)) /\
    (ok = false <-> state_ p' = Error).
Proof.
  intros Hwf Hb. destruct (parseRequest_buffer p b Hb Hwf) as (ok & p' & b' & ? & ? & ? & Hr & _).
  exists ok, p', b'. split_and!; try done.
  - by eapply parseRequest_suffix.
  - exact (parseRequest_error p _ ok p' _ Hwf Hr).
Qed.

(** The buffer [Buffer(len)] with the bytes appended, for the witnesses. *)
Definition test_buffer (s : bytes) : Buffer.t :=
  Buffer.mk (replicate 8 (chr 0) ++ s) 8 (8 + blen s).

Lemma test_buffer_spec s :
  bool_decide (blen s <= 1000) = true ->
  Buffer.wf (test_buffer s) /\ Buffer.contents (test_buffer s) = s.
Proof.
  intros Hs%bool_decide_eq_true. pose proof (blen_nonneg s). split.
  - split; unfold Buffer.size, Buffer.kCheapPrepend, Buffer.max_size, test_buffer, blen in *;
      cbn [Buffer.buffer_ Buffer.readIndex_ Buffer.writeIndex_];
      rewrite ?length_app, ?length_replicate; lia.
  - unfold Buffer.contents, test_buffer, slice, blen.
    cbn [Buffer.buffer_ Buffer.readIndex_ Buffer.writeIndex_].
    change (drop (Z.to_nat 8) (replicate 8 (chr 0) ++ s)) with s.
    apply take_ge. lia.
Qed.

Definition bad_request : bytes := str "GET /bad HTTP/1.1 extra" ++ Buffer.kCRLF ++ Buffer.kCRLF.

Lemma parseRequest_total_witness :
  exists ok p' b', parseRequest make (test_buffer bad_request) = Ok (ok, p', b') /\
    wf p' /\ Buffer.wf b' /\
    (exists n, Buffer.contents b' = drop n (Buffer.contents (test_buffer bad_request))) /\
    (ok = false <-> state_ p' = Error).
Proof.
  apply (parseRequest_total make (test_buffer bad_request));
    [apply make_wf | by apply test_buffer_spec].
Defined.

(** C15. No request smuggling: a request the parser accepts has a request line of
    the grammar, header names and values of the grammar, no [Transfer-Encoding],
    and a body that is empty without [Content-Length] and has exactly the length
    it states otherwise. *)
Theorem accepted_request_framed (p p' : t) (b b' : Buffer.t) (ok : bool) :
  wf p ->
  Buffer.wf b ->
  parseRequest p b = Ok (ok, p', b') ->
  gotAll p' = true ->
  ok = true /\ request_line_ok p' /\ framed p' /\
  map_Forall (fun k v => valid_field k /\ valid_value v) (headers_ p').
Proof.
  intros Hwf Hb Hp Hg%bool_decide_eq_true.
  destruct (parseRequest_buffer p b Hb Hwf) as (? & ? & ? & Hr & _ & (_ & Hh & Hs & _) & Hr' & _).
  rewrite Hp in Hr. injection Hr as <- <- <-. rewrite Hg in Hs. destruct Hs.
  split_and!; try done.
  destruct ok; [done|]. apply parseRequest_error in Hr' as [He _]; [|done].
  rewrite He in Hg by done. done.
Qed.

Definition post_chat : request :=
  Request (str "POST") (str "/chat") (str "HTTP/1.1")
    [(str "Host", str "localhost"); (str "Content-Length", str "5")] (str "hello").

Lemma accepted_request_framed_witness :
  exists p' b', parseRequest make (test_buffer (render post_chat)) = Ok (true, p', b') /\
    framed p' /\ getBody p' = str "hello".
Proof.
  eexists _, _. split; [vm_compute; reflexivity|]. split; [|reflexivity].
  eapply (accepted_request_framed make _ (test_buffer (render post_chat)) _ true);
    [apply make_wf | by apply test_buffer_spec | vm_compute; reflexivity | reflexivity].
Defined.

(** C12. Fragmentation does not matter: calling the parser on each fragment as it
    arrives (as the message callback does) gives the result, the parser state and
    the left-over bytes of one call on all the bytes at once. *)
Theorem parse_fragments (p : t) (b whole : Buffer.t) (d : bytes) (frags : list bytes) :
  wf p ->
  Buffer.wf b ->
  Buffer.size b + blen (concat (d :: frags)) <= Buffer.max_size ->
  Buffer.wf whole ->
  Buffer.contents whole = Buffer.contents b ++ concat (d :: frags) ->
  exists ok p' b' left whole', feed p b (d :: frags) = Ok (ok, p', b', left) /\
    parseRequest p whole = Ok (ok, p', whole') /\
    Buffer.contents whole' = Buffer.contents b' ++ concat left.
Proof.
  intros Hwf Hb Hroom Hw Hc.
  destruct (feed_app_buffer d b frags p (blen (concat (d :: frags)))) as
    (ok & p' & b' & left & Hf & Hb' & Hr); [done|done|done|done|].
  destruct (parseRequest_buffer p whole Hw Hwf) as (ok2 & p2 & w' & Hp & _ & _ & Hr2 & _).
  rewrite Hc in Hr2.
  cbn [concat] in Hr2. rewrite Hr in Hr2. injection Hr2 as -> -> Hcw.
  exists ok2, p2, b', left, w'. split_and!; done.
Qed.

Definition split_frags : list bytes :=
  [[Buffer.LF] ++ str "Host: local"; str "host" ++ Buffer.kCRLF ++ Buffer.kCRLF ++ str "GE"].

Lemma parse_fragments_witness :
  exists ok p' b' left whole',
    feed make (test_buffer []) ((str "GET /split HTTP/1.1" ++ [Buffer.CR]) :: split_frags) =
      Ok (ok, p', b', left) /\
    parseRequest make (test_buffer (concat
      ((str "GET /split HTTP/1.1" ++ [Buffer.CR]) :: split_frags))) = Ok (ok, p', whole') /\
    Buffer.contents whole' = Buffer.contents b' ++ concat left.
Proof.
  apply (parse_fragments make (test_buffer []) _ _ split_frags);
    [apply make_wf | by apply test_buffer_spec | zclosed | by apply test_buffer_spec
    | vm_compute; reflexivity].
Defined.

(** C13. Round trip: the bytes of a well-formed request, followed by anything
    (the next pipelined request), are parsed back to its method, path, version,
    body and headers, the latter under any spelling of their names; exactly the
    request is consumed. *)
Theorem parse_render_roundtrip (r : request) (rest : bytes) (b : Buffer.t) :
  valid_request r ->
  Buffer.wf b ->
  Buffer.contents b = render r ++ rest ->
  exists p' b', parseRequest make b = Ok (true, p', b') /\ gotAll p' = true /\
    Buffer.contents b' = rest /\
    getMethod p' = r_method r /\ getPath p' = r_path r /\ version_ p' = r_version r /\
    getBody p' = r_body r /\
    forall k v f, (k, v) ∈ r_headers r -> toLowerAscii f = toLowerAscii k ->
      getHeader f p' = v.
Proof.
  intros Hr Hb Hc. destruct (parseRequest_buffer make b Hb make_wf) as
    (ok & p' & b' & Hp & _ & _ & Hr' & _).
  rewrite Hc in Hr'.
  destruct (parse_render r rest Hr) as (n & Hr2). rewrite Hr2 in Hr'.
  injection Hr' as <- <- Hrest. exists (mk GotAll (r_method r) (r_path r) (r_version r)
    (header_map (r_headers r) ∅) (r_body r) n), b'.
  split_and!; try done. intros k v f Hin Hf. unfold getHeader. simpl.
  rewrite Hf, (header_map_lookup _ _ k v); [done | apply Hr | done].
Qed.

Lemma post_chat_valid : valid_request post_chat.
Proof.
  split; try (vm_compute; done).
  - by apply elem_of_cons; right; apply elem_of_cons; left.
  - by repeat constructor.
  - by apply (bool_decide_unpack _).
Qed.

Lemma parse_render_roundtrip_witness :
  exists p' b', parseRequest make (test_buffer (render post_chat ++ str "GET /two")) =
      Ok (true, p', b') /\ gotAll p' = true /\ Buffer.contents b' = str "GET /two" /\
    getMethod p' = str "POST" /\ getPath p' = str "/chat" /\ version_ p' = str "HTTP/1.1" /\
    getBody p' = str "hello" /\
    forall k v f, (k, v) ∈ r_headers post_chat -> toLowerAscii f = toLowerAscii k ->
      getHeader f p' = v.
Proof.
  apply (parse_render_roundtrip post_chat (str "GET /two"));
    [apply post_chat_valid | by apply test_buffer_spec | by apply test_buffer_spec].
Defined.

(** C16. Ambiguous framing is refused for good: a request that repeats a header
    field (under any spelling) or announces a transfer encoding makes
    [parseRequest] return [false], and so does every later call, which touches
    neither the parser nor the buffer, until [reset()]. *)
Theorem ambiguous_framing_refused (r : request) (rest : bytes) (b : Buffer.t) :
  valid_method (r_method r) ->
  valid_path (r_path r) ->
  r_version r ∈ versions ->
  Forall (fun h => valid_method h.1 /\ valid_value h.2) (r_headers r) ->
  ambiguous_headers r ->
  Buffer.wf b ->
  Buffer.contents b = render r ++ rest ->
  exists p' b', parseRequest make b = Ok (false, p', b') /\ gotAll p' = false /\
    forall b2 : Buffer.t, parseRequest p' b2 = Ok (false, p', b2).
Proof.
  intros Hm Hp Hv Hh Hamb Hb Hc. destruct (parseRequest_buffer make b Hb make_wf) as
    (ok & p' & b' & Hpr & _ & _ & Hr & _).
  rewrite Hc in Hr.
  destruct (parse_ambiguous r rest) as (p2 & s2 & Hr2); [done..|].
  rewrite Hr2 in Hr. injection Hr as <- <- Hrest.
  apply parseRequest_error in Hr2 as [He _]; [|apply make_wf].
  exists p2, b'. specialize (He eq_refl). unfold gotAll, parseRequest in *. rewrite He.
  split_and!; done.
Qed.

Definition two_lengths : request :=
  Request (str "POST") (str "/bad") (str "HTTP/1.1")
    [(str "Content-Length", str "1"); (str "content-LENGTH", str "1")] (str "x").

Lemma ambiguous_framing_refused_witness :
  exists p' b', parseRequest make (test_buffer (render two_lengths ++ [])) =
      Ok (false, p', b') /\ gotAll p' = false /\
    forall b2 : Buffer.t, parseRequest p' b2 = Ok (false, p', b2).
Proof.
  apply (ambiguous_framing_refused two_lengths []);
    [by vm_compute | by vm_compute | by apply elem_of_cons; right; apply elem_of_cons; left
    | by repeat constructor | | by apply test_buffer_spec | by apply test_buffer_spec].
  left. apply (bool_decide_unpack _). vm_compute. exact I.
Defined.

End HttpParser.
