(* ===== verification/Digits.v ===== *)
(** * Digits: std::to_string on integers, and what reads it back

    The decimal rendering that response headers, connection names, addresses and log
    lines are built from, with the lemmas that relate it to the parser of
    Content-Length. *)

From S2P Require Import Prelude.

Module Digits.

(** The digit of a value below 10. *)
Definition digit (n : Z) : ascii := chr (48 + n).

(** The digits of [n >= 0] before those of [acc]; 20 digits are enough for 64 bits. *)
Fixpoint digits (fuel : nat) (n : Z) (acc : bytes) : bytes :=
  match fuel with
  | O => acc
  | S fuel =>
      let acc := digit (n mod 10) :: acc in
      if n <? 10 then acc else digits fuel (n / 10) acc
  end.

(** [std::to_string] of an integer of at most 64 bits. *)
Definition to_string (n : Z) : bytes :=
  if n <? 0 then str "-" ++ digits 20 (- n) [] else digits 20 n [].

(** The value a string of digits denotes, continuing [acc]. *)
Definition value (acc : Z) (s : bytes) : Z :=
  foldl (fun acc c => acc * 10 + (uchar c - 48)) acc s.

(** [printf]'s [%0<w>d] for a value of at most [w] digits. *)
Fixpoint padded (w : nat) (n : Z) : bytes :=
  match w with
  | O => []
  | S w => padded w (n / 10) ++ [digit (n mod 10)]
  end.

Example to_string_0 : to_string 0 = str "0".
Proof. reflexivity. Qed.
Example to_string_max : to_string SIZE_MAX = str "18446744073709551615".
Proof. reflexivity. Qed.
Example to_string_min : to_string (-2147483648) = str "-2147483648".
Proof. reflexivity. Qed.
Example padded_4 : padded 4 206 = str "0206".
Proof. reflexivity. Qed.

Definition is_digit (c : ascii) : bool := (48 <=? uchar c) && (uchar c <=? 57).

Lemma uchar_digit n : 0 <= n < 10 -> uchar (digit n) = 48 + n.
Proof. intros. unfold digit. rewrite uchar_chr, Z.mod_small; lia. Qed.

Lemma digit_is_digit n : 0 <= n < 10 -> is_digit (digit n) = true.
Proof.
  intros. unfold is_digit. rewrite uchar_digit by done.
  apply andb_true_iff; split; apply Z.leb_le; lia.
Qed.

Lemma digits_are_digits fuel n acc :
  0 <= n -> forallb is_digit acc = true -> forallb is_digit (digits fuel n acc) = true.
Proof.
  revert n acc. induction fuel as [|fuel IH]; intros n acc Hn Ha; [done|]. cbn [digits].
  pose proof (Z.mod_pos_bound n 10).
  assert (forallb is_digit (digit (n mod 10) :: acc) = true) as Ha'.
  { cbn [forallb]. rewrite digit_is_digit by lia. done. }
  destruct (n <? 10); [done|]. apply IH; [apply Z.div_pos; lia | done].
Qed.

Lemma digits_nonempty fuel n acc : fuel <> 0%nat -> digits fuel n acc <> [].
Proof.
  destruct fuel as [|fuel]; [done|]. intros _. revert n acc.
  induction fuel as [|fuel IH]; intros n acc; simpl; destruct (n <? 10); try done.
  apply (IH (n / 10)).
Qed.

Lemma value_app acc s t : value acc (s ++ t) = value (value acc s) t.
Proof. apply foldl_app. Qed.

Lemma value_digits fuel n acc :
  0 <= n < 10 ^ Z.of_nat fuel -> value 0 (digits fuel n acc) = value n acc.
Proof.
  revert n acc. induction fuel as [|fuel IH]; intros n acc Hn.
  { change (10 ^ Z.of_nat 0) with 1 in Hn. by replace n with 0 by lia. }
  cbn [digits]. pose proof (Z.mod_pos_bound n 10). pose proof (Z.div_mod n 10).
  destruct (n <? 10) eqn:E; zbool.
  - unfold value. cbn [foldl]. rewrite uchar_digit by lia. f_equal.
    rewrite Z.mod_small by lia. lia.
  - rewrite IH.
    + unfold value. cbn [foldl]. rewrite uchar_digit by lia. f_equal. lia.
    + rewrite Nat2Z.inj_succ, Z.pow_succ_r in Hn by lia.
      split; [apply Z.div_pos; lia|]. apply Z.div_lt_upper_bound; lia.
Qed.

(** The same for a number of a fixed width. *)
Lemma padded_length w n : length (padded w n) = w.
Proof.
  revert n. induction w as [|w IH]; intros n; [done|]. cbn [padded]. rewrite length_app, IH. simpl. lia.
Qed.

Lemma padded_digits w n : forallb is_digit (padded w n) = true.
Proof.
  revert n. induction w as [|w IH]; intros n; [done|]. cbn [padded].
  rewrite forallb_app, IH. cbn [forallb]. pose proof (Z.mod_pos_bound n 10).
  by rewrite digit_is_digit by lia.
Qed.

Lemma padded_value w n acc : value acc (padded w n) = acc * 10 ^ Z.of_nat w + n mod 10 ^ Z.of_nat w.
Proof.
  revert n acc. induction w as [|w IH]; intros n acc.
  { change (10 ^ Z.of_nat 0) with 1. rewrite Z.mod_1_r. simpl. lia. }
  cbn [padded]. rewrite value_app, IH. unfold value at 1. cbn [foldl].
  pose proof (Z.mod_pos_bound n 10). rewrite uchar_digit by lia.
  rewrite Nat2Z.inj_succ, Z.pow_succ_r by lia.
  rewrite (Z.rem_mul_r n 10) by (try apply Z.pow_nonzero; try apply Z.pow_pos_nonneg; lia). lia.
Qed.

(** What [to_string] renders reads back as the number. *)
Lemma value_to_string n : 0 <= n <= SIZE_MAX -> value 0 (to_string n) = n.
Proof.
  intros Hn. unfold to_string. rewrite (proj2 (Z.ltb_ge n 0)) by lia.
  rewrite value_digits; [done|]. unfold SIZE_MAX in Hn. change (10 ^ Z.of_nat 20) with 100000000000000000000.
  lia.
Qed.

Lemma to_string_digits n : 0 <= n -> forallb is_digit (to_string n) = true.
Proof.
  intros Hn. unfold to_string. rewrite (proj2 (Z.ltb_ge n 0)) by lia. by apply digits_are_digits.
Qed.

Lemma to_string_nonempty n : to_string n <> [].
Proof.
  unfold to_string. destruct (n <? 0); [done|]. by apply digits_nonempty.
Qed.

(** Different numbers are rendered differently. *)
Lemma to_string_inj n m :
  0 <= n <= SIZE_MAX -> 0 <= m <= SIZE_MAX -> to_string n = to_string m -> n = m.
Proof. intros Hn Hm E. rewrite <- (value_to_string n Hn), E. by apply value_to_string. Qed.

(** A number below [10^k] takes at most [k] digits. *)
Lemma digits_length fuel k n acc :
  0 <= n < 10 ^ Z.of_nat (S k) -> (length (digits fuel n acc) <= S k + length acc)%nat.
Proof.
  revert k n acc. induction fuel as [|fuel IH]; intros k n acc Hn; [simpl; lia|]. cbn [digits].
  destruct (n <? 10) eqn:E; [simpl; lia|]. zbool. destruct k as [|k].
  { change (10 ^ Z.of_nat 1) with 10 in Hn. lia. }
  etrans; [apply (IH k)|simpl; lia].
  rewrite Nat2Z.inj_succ, Z.pow_succ_r in Hn by lia.
  split; [apply Z.div_pos; lia|]. apply Z.div_lt_upper_bound; lia.
Qed.

Lemma to_string_length k n : (0 < k)%nat -> 0 <= n < 10 ^ Z.of_nat k -> blen (to_string n) <= Z.of_nat k.
Proof.
  intros Hk Hn. destruct k as [|k]; [lia|]. unfold to_string. rewrite (proj2 (Z.ltb_ge n 0)) by lia.
  pose proof (digits_length 20 k n [] Hn) as H. cbn [length] in H. unfold blen. lia.
Qed.

End Digits.
