(* ===== verification/HttpReader.v ===== *)
(** * HttpReader: a client's reading of an HTTP response

    The reference reader the responses of the server are checked against: a status
    line, then header fields and a body framed by [Content-Length], which the
    repository's own parser [HttpParser] reads.  [read_rendered] is the round trip
    for any well-formed header block; the files that render responses apply it. *)

From S2P Require Import Prelude Buffer InputQueue HttpParser Digits.

Module HttpReader.

(** The status line, the header fields, the body, and the bytes that follow. *)
Definition read_response (s : bytes) : option (bytes * gmap bytes bytes * bytes * bytes) :=
  match search2 Buffer.CR Buffer.LF s with
  | None => None
  | Some i =>
      let p := HttpParser.mk HttpParser.ExpectHeaders (str "GET") (str "/") (str "HTTP/1.1") ∅ [] 0 in
      match HttpParser.parseRequest p (drop (i + 2) s) with
      | Ok (true, p, rest) =>
          if HttpParser.gotAll p
          then Some (take i s, HttpParser.headers_ p, HttpParser.body_ p, rest)
          else None
      | _ => None
      end
  end.

(** What a response's status line, header fields and body have to be. *)
Record readable (line : bytes) (hs : list (bytes * bytes)) (body : bytes) : Prop := {
  rd_line : forallb HttpParser.not_LF line = true;
  rd_headers : Forall (fun h => HttpParser.valid_method h.1 /\ HttpParser.valid_value h.2) hs;
  rd_nodup : NoDup (map (fun h => HttpParser.toLowerAscii h.1) hs);
  rd_no_te : HttpParser.header_map hs ∅ !! HttpParser.transfer_encoding = None;
  rd_length : exists v, HttpParser.header_map hs ∅ !! HttpParser.content_length = Some v /\
    HttpParser.parseContentLength v = Some (blen body);
}.

(** Digits are read back by the parser of [Content-Length]. *)
Lemma parse_to_string n :
  0 <= n <= SIZE_MAX -> HttpParser.parseContentLength (Digits.to_string n) = Some n.
Proof.
  intros Hn. unfold HttpParser.parseContentLength.
  rewrite bool_decide_eq_false_2 by apply Digits.to_string_nonempty.
  pose proof (Digits.to_string_digits n ltac:(lia)) as Hd.
  change (forallb HttpParser.isdigit (Digits.to_string n)) with (forallb Digits.is_digit (Digits.to_string n)).
  rewrite Hd. unfold HttpParser.from_chars.
  change (foldl _ 0 (Digits.to_string n)) with (Digits.value 0 (Digits.to_string n)).
  rewrite Digits.value_to_string by done. by rewrite (proj2 (Z.leb_le _ _)) by lia.
Qed.

(** A string of digits is a header value. *)
Lemma digits_value s : forallb Digits.is_digit s = true -> HttpParser.valid_value s.
Proof.
  intros Hs.
  assert (Hc : forall c, Digits.is_digit c = true ->
    HttpParser.bad_value_char c = false /\ HttpParser.is_blank c = false).
  { intros c Hc. assert (H : implb (Digits.is_digit c)
      (negb (HttpParser.bad_value_char c) && negb (HttpParser.is_blank c)) = true).
    { clear Hc. revert c. apply ascii_forall. vm_compute. reflexivity. }
    rewrite Hc in H. by apply andb_true_iff in H as [?%negb_true_iff ?%negb_true_iff]. }
  assert (Hb : forall l, forallb Digits.is_digit l = true -> HttpParser.skip_blanks l = l).
  { intros [|c l]; [done|]. simpl. intros [H _]%andb_true_iff. by rewrite (proj2 (Hc c H)). }
  split.
  - apply not_true_iff_false. intros (c & Hin & Hbad)%existsb_exists.
    rewrite forallb_forall in Hs. apply Hs, Hc in Hin as [? _]. congruence.
  - rewrite Hb by done. unfold HttpParser.trim_end. rewrite Hb; [apply rev_involutive|].
    apply forallb_forall. intros c Hin. rewrite forallb_forall in Hs. apply Hs. by apply in_rev.
Qed.

Lemma to_string_value n : 0 <= n -> HttpParser.valid_value (Digits.to_string n).
Proof. intros Hn. by apply digits_value, Digits.to_string_digits. Qed.

(** A rendered response is read back, and the bytes behind it are left alone. *)
Lemma read_rendered line hs body rest :
  readable line hs body ->
  read_response (line ++ Buffer.kCRLF ++ HttpParser.render_headers hs ++ Buffer.kCRLF ++ body ++ rest) =
    Some (line, HttpParser.header_map hs ∅, body, rest).
Proof.
  intros [Hline Hv Hnd Hte (v & Hcl & Hlen)]. unfold read_response.
  rewrite HttpParser.find_line by done.
  rewrite take_app_le, take_ge by lia. rewrite drop_app_ge by lia.
  replace (length line + 2 - length line)%nat with 2%nat by lia.
  change (drop 2 (Buffer.kCRLF ++ ?x)) with x. cbv beta zeta.
  set (p0 := HttpParser.mk _ _ _ _ _ _ _).
  assert (Hwf0 : HttpParser.wf p0).
  { unfold HttpParser.wf, p0, HttpParser.request_line_ok, SIZE_MAX. simpl.
    split_and!; try done; try lia. by apply elem_of_cons; right; apply elem_of_cons; left. }
  destruct (HttpParser.parse_headers hs p0 (Buffer.kCRLF ++ body ++ rest) Hwf0) as [Hwf1 ->];
    [done | done | done | |].
  { apply Forall_forall. intros h _. apply lookup_empty. }
  destruct (HttpParser.parse_end _ body rest Hwf1) as (n & -> & _); [done | | done].
  split; [done|]. subst p0.
  cbn [HttpParser.set_body HttpParser.set_headers HttpParser.headers_ HttpParser.body_].
  by rewrite Hcl.
Qed.

End HttpReader.
