(* ===== verification/HttpResponse.v ===== *)
(** * HttpResponse: the response builder of src/src/tcp/HttpResponse.{h,cpp}

    A response with its [std::map] of headers as the list of its nodes in key order
    (the order [appendToBuffer] visits them in), every setter, the serialization, and
    the table of MIME types.  The class is not used by the server; its contract is
    that a client reads back what was set. *)

From Stdlib Require Import Sorted.
From S2P Require Import Prelude Buffer InputQueue HttpParser Digits HttpReader.

Module HttpResponse.

Inductive HttpStatusCode :=
| kUnknown | k200Ok | k301MovedPermanently | k400BadRequest | k404NotFound.

#[export] Instance status_eq_dec : EqDecision HttpStatusCode.
Proof. solve_decision. Defined.

(** The enumerators' values. *)
Definition status_value (c : HttpStatusCode) : Z :=
  match c with
  | kUnknown => 0
  | k200Ok => 200
  | k301MovedPermanently => 301
  | k400BadRequest => 400
  | k404NotFound => 404
  end.

Record t := mk {
  statusCode_ : HttpStatusCode;
  statusMessage_ : bytes;
  headers_ : list (bytes * bytes);
  body_ : bytes;
  closeConnection_ : bool;
}.

Definition make (close : bool) : t := mk kUnknown [] [] [] close.

Definition setStatusCode (code : HttpStatusCode) (r : t) : t :=
  mk code (statusMessage_ r) (headers_ r) (body_ r) (closeConnection_ r).
Definition setStatusMessage (message : bytes) (r : t) : t :=
  mk (statusCode_ r) message (headers_ r) (body_ r) (closeConnection_ r).
Definition setCloseConnection (on : bool) (r : t) : t :=
  mk (statusCode_ r) (statusMessage_ r) (headers_ r) (body_ r) on.
Definition closeConnection (r : t) : bool := closeConnection_ r.

(** [headers_[key] = value]: the node of the key is found or inserted at its place. *)
Fixpoint map_set (key value : bytes) (m : list (bytes * bytes)) : list (bytes * bytes) :=
  match m with
  | [] => [(key, value)]
  | (k, v) :: m' =>
      if string_lt k key then (k, v) :: map_set key value m'
      else if string_lt key k then (key, value) :: m
      else (k, value) :: m'
  end.

(** [headers_.find(key)]. *)
Fixpoint map_find (key : bytes) (m : list (bytes * bytes)) : option bytes :=
  match m with
  | [] => None
  | (k, v) :: m' =>
      if string_lt k key then map_find key m'
      else if string_lt key k then None
      else Some v
  end.

Definition addHeader (key value : bytes) (r : t) : t :=
  mk (statusCode_ r) (statusMessage_ r) (map_set key value (headers_ r)) (body_ r)
     (closeConnection_ r).
Definition setContentType (contentType : bytes) (r : t) : t :=
  addHeader (str "Content-Type") contentType r.
Definition setBody (body : bytes) (r : t) : t :=
  mk (statusCode_ r) (statusMessage_ r) (headers_ r) body (closeConnection_ r).

(** The reason phrase [appendToBuffer] chooses. *)
Definition reason (c : HttpStatusCode) : bytes :=
  if decide (c = k200Ok) then str "OK"
  else if decide (c = k404NotFound) then str "Not Found"
  else if decide (c = k400BadRequest) then str "Bad Request"
  else str "Unknown".

(** The string [response] that [appendToBuffer] builds. *)
Definition response (r : t) : bytes :=
  str "HTTP/1.1 " ++ Digits.to_string (status_value (statusCode_ r)) ++ str " " ++
  reason (statusCode_ r) ++ Buffer.kCRLF ++
  (if closeConnection_ r then str "Connection: close" ++ Buffer.kCRLF
   else str "Connection: Keep-Alive" ++ Buffer.kCRLF) ++
  (match map_find (str "Content-Length") (headers_ r) with
   | None => str "Content-Length: " ++ Digits.to_string (blen (body_ r)) ++ Buffer.kCRLF
   | Some _ => []
   end) ++
  concat (map (fun header => header.1 ++ str ": " ++ header.2 ++ Buffer.kCRLF) (headers_ r)) ++
  Buffer.kCRLF ++
  body_ r.

Definition appendToBuffer (r : t) (output : Buffer.t) : outcome Buffer.t :=
  Buffer.append (response r) output.

(** [filepath.find_last_of('.')]. *)
Definition find_last_dot (filepath : bytes) : option nat :=
  let n := find_char "." (rev filepath) in
  if bool_decide (n = length filepath) then None else Some (length filepath - S n)%nat.

Definition getMimeType (filepath : bytes) : bytes :=
  match find_last_dot filepath with
  | None => str "text/plain"
  | Some pos =>
      let ext := drop pos filepath in
      if bool_decide (ext = str ".html") || bool_decide (ext = str ".htm") then str "text/html"
      else if bool_decide (ext = str ".jpg") || bool_decide (ext = str ".jpeg") then str "image/jpeg"
      else if bool_decide (ext = str ".png") then str "image/png"
      else if bool_decide (ext = str ".gif") then str "image/gif"
      else if bool_decide (ext = str ".css") then str "text/css"
      else if bool_decide (ext = str ".js") then str "application/javascript"
      else if bool_decide (ext = str ".ico") then str "image/x-icon"
      else str "application/octet-stream"
  end.

(** ** The map: an ordered list of nodes with distinct keys *)

Definition key_lt (p q : bytes * bytes) : Prop := string_lt p.1 q.1 = true.

(** The setters, as calls a caller makes one after the other. *)
Inductive setter :=
| SetStatusCode (c : HttpStatusCode)
| SetStatusMessage (m : bytes)
| SetCloseConnection (on : bool)
| SetContentType (v : bytes)
| AddHeader (k v : bytes)
| SetBody (b : bytes).

Definition call (c : setter) (r : t) : t :=
  match c with
  | SetStatusCode c => setStatusCode c r
  | SetStatusMessage m => setStatusMessage m r
  | SetCloseConnection on => setCloseConnection on r
  | SetContentType v => setContentType v r
  | AddHeader k v => addHeader k v r
  | SetBody b => setBody b r
  end.

Definition build (close : bool) (cs : list setter) : t :=
  foldl (fun r c => call c r) (make close) cs.

(** The header fields the calls set: the last call for a key counts. *)
Definition header_call (c : setter) : option (bytes * bytes) :=
  match c with
  | SetContentType v => Some (str "Content-Type", v)
  | AddHeader k v => Some (k, v)
  | _ => None
  end.
Definition headers_set (cs : list setter) (m : gmap bytes bytes) : gmap bytes bytes :=
  foldl (fun m c => match header_call c with Some (k, v) => <[k := v]> m | None => m end) m cs.

#[export] Instance key_lt_trans : Transitive key_lt.
Proof. intros p q r. apply string_lt_trans. Qed.

(** In an ordered map every key of the tail is above the head's. *)
Lemma find_below k m :
  Forall (fun p => string_lt k p.1 = true) m -> map_find k m = None.
Proof.
  destruct m as [|[k' v'] m]; [done|]. intros [H _]%Forall_cons. simpl in *.
  destruct (string_lt k' k) eqn:E; [|by rewrite H].
  pose proof (string_lt_trans _ _ _ E H) as Hi. by rewrite string_lt_irrefl in Hi.
Qed.

Lemma map_set_keys key value m p :
  p ∈ map_set key value m -> p.1 = key \/ p ∈ m.
Proof.
  induction m as [|[k v] m IH]; simpl.
  - intros ->%list_elem_of_singleton. by left.
  - destruct (string_lt k key) eqn:E1.
    + intros [->|H]%elem_of_cons; [right; apply elem_of_cons; by left|].
      destruct (IH H); [by left | right; apply elem_of_cons; by right].
    + destruct (string_lt key k) eqn:E2.
      * intros [->|H]%elem_of_cons; [by left | by right].
      * rewrite (string_lt_total _ _ E1 E2).
        intros [->|H]%elem_of_cons; [by left | right; apply elem_of_cons; by right].
Qed.

Lemma map_set_sorted key value m :
  StronglySorted key_lt m -> StronglySorted key_lt (map_set key value m).
Proof.
  induction m as [|[k v] m IH]; intros Hm; simpl; [by repeat constructor|].
  apply StronglySorted_inv in Hm as [Hm Hk].
  destruct (string_lt k key) eqn:E1; [|destruct (string_lt key k) eqn:E2].
  - constructor; [by apply IH|]. apply Forall_forall. intros p Hp.
    destruct (map_set_keys _ _ _ _ Hp) as [Hpk|Hpm].
    + unfold key_lt. simpl. by rewrite Hpk.
    + rewrite Forall_forall in Hk. by apply Hk.
  - constructor; [by constructor|]. apply Forall_cons. split; [done|].
    eapply Forall_impl; [exact Hk|]. intros p Hp. by etrans; [|exact Hp].
  - by constructor.
Qed.

(** Insertion and lookup are those of a map. *)
Lemma map_find_set key value m k :
  StronglySorted key_lt m ->
  map_find k (map_set key value m) = if decide (k = key) then Some value else map_find k m.
Proof.
  induction m as [|[k' v'] m IH]; intros Hm; simpl.
  - case_decide as Hd; [subst; by rewrite !string_lt_irrefl|].
    destruct (string_lt key k) eqn:E1, (string_lt k key) eqn:E2; try done.
    by destruct Hd; apply string_lt_total.
  - apply StronglySorted_inv in Hm as [Hm Hk].
    destruct (string_lt k' key) eqn:E1; [|destruct (string_lt key k') eqn:E2].
    + simpl. rewrite (IH Hm). case_decide; subst; [by rewrite E1 | done].
    + simpl. case_decide as Hd; [subst; by rewrite !string_lt_irrefl|].
      destruct (string_lt key k) eqn:E3; [done|]. destruct (string_lt k key) eqn:E4.
      * pose proof (string_lt_trans _ _ _ E4 E2) as H.
        destruct (string_lt k' k) eqn:E5; [|by rewrite H].
        pose proof (string_lt_trans _ _ _ E5 H) as Hi. by rewrite string_lt_irrefl in Hi.
      * by destruct Hd; apply string_lt_total.
    + rewrite (string_lt_total _ _ E1 E2) in *. simpl.
      case_decide as Hd; [subst; by rewrite !string_lt_irrefl|].
      destruct (string_lt key k) eqn:E3, (string_lt k key) eqn:E4; try done.
      by destruct Hd; apply string_lt_total.
Qed.

Lemma map_find_elem m k v : StronglySorted key_lt m -> (k, v) ∈ m <-> map_find k m = Some v.
Proof.
  induction m as [|[k' v'] m IH]; intros Hm; simpl.
  { split; [by intros []%not_elem_of_nil | done]. }
  apply StronglySorted_inv in Hm as [Hm Hk]. rewrite elem_of_cons, (IH Hm).
  assert (Hb : string_lt k k' = true \/ k = k' -> map_find k m = None).
  { intros H. apply find_below. eapply Forall_impl; [exact Hk|]. intros p Hp.
    destruct H as [H| ->]; [exact (string_lt_trans _ _ _ H Hp) | exact Hp]. }
  destruct (string_lt k' k) eqn:E1; [|destruct (string_lt k k') eqn:E2].
  - split; [|by right]. intros [[= <- <-]|H]; [by rewrite string_lt_irrefl in E1 | done].
  - rewrite Hb by by left. split; [|done]. intros [[= <- <-]|H]; [|done].
    by rewrite string_lt_irrefl in E2.
  - rewrite (string_lt_total _ _ E1 E2) in *. rewrite Hb by by right. naive_solver.
Qed.

(** Any sequence of calls leaves an ordered map that holds what the calls set. *)
Lemma build_headers close cs :
  StronglySorted key_lt (headers_ (build close cs)) /\
  forall k, map_find k (headers_ (build close cs)) = headers_set cs ∅ !! k.
Proof.
  induction cs as [|c cs [IHs IHf]] using rev_ind.
  { split; [apply SSorted_nil | intros k; symmetry; apply lookup_empty]. }
  unfold build, headers_set in *. rewrite !foldl_snoc.
  set (r := foldl _ (make close) cs) in *. set (m := foldl _ ∅ cs) in *.
  destruct c; simpl; [by split..| | |by split].
  all: split; [by apply map_set_sorted | intros k'; rewrite map_find_set by done].
  all: case_decide; subst; [by rewrite lookup_insert_eq | by rewrite lookup_insert_ne].
Qed.

(** ** What a client reads *)

Definition status_line (r : t) : bytes :=
  str "HTTP/1.1 " ++ Digits.to_string (status_value (statusCode_ r)) ++ str " " ++
  reason (statusCode_ r).

(** The header fields of the response, in the order they are sent. *)
Definition fields (r : t) : list (bytes * bytes) :=
  (str "Connection", if closeConnection_ r then str "close" else str "Keep-Alive") ::
  (match map_find (str "Content-Length") (headers_ r) with
   | None => [(str "Content-Length", Digits.to_string (blen (body_ r)))]
   | Some _ => []
   end) ++ headers_ r.

Lemma response_fields r :
  response r = status_line r ++ Buffer.kCRLF ++ HttpParser.render_headers (fields r) ++
    Buffer.kCRLF ++ body_ r.
Proof.
  assert (Hf : forall hs : list (bytes * bytes),
    concat (map (fun header => header.1 ++ str ": " ++ header.2 ++ Buffer.kCRLF) hs) =
    HttpParser.render_headers hs).
  { intros hs. unfold HttpParser.render_headers, HttpParser.render_header. f_equal.
    apply map_ext. intros h. by rewrite <- !app_assoc. }
  unfold response, status_line, fields. rewrite Hf.
  destruct (closeConnection_ r), (map_find _ _); cbn -[Digits.to_string status_value reason];
    unfold HttpParser.render_headers, HttpParser.render_header;
    cbn -[Digits.to_string status_value reason]; rewrite <- ?app_assoc;
    cbn -[Digits.to_string status_value reason]; by rewrite <- ?app_assoc.
Qed.

(** The header fields a caller may set: names and values of the grammar, different
    names however they are spelt, none of the names [appendToBuffer] writes itself or
    refuses to frame, and an explicit [Content-Length] that tells the truth. *)
Record well_used (hs : gmap bytes bytes) (body : bytes) : Prop := {
  wu_valid : map_Forall (fun k v => HttpParser.valid_method k /\ HttpParser.valid_value v) hs;
  wu_distinct : forall k1 k2, is_Some (hs !! k1) -> is_Some (hs !! k2) ->
    HttpParser.toLowerAscii k1 = HttpParser.toLowerAscii k2 -> k1 = k2;
  wu_names : map_Forall (fun k _ =>
    HttpParser.toLowerAscii k <> str "connection" /\
    HttpParser.toLowerAscii k <> HttpParser.transfer_encoding /\
    (HttpParser.toLowerAscii k = HttpParser.content_length -> k = str "Content-Length")) hs;
  wu_length : forall v, hs !! str "Content-Length" = Some v ->
    HttpParser.parseContentLength v = Some (blen body);
  wu_body : blen body <= SIZE_MAX;
}.

Section fields.
Variables (r : t) (hs : gmap bytes bytes).
Hypothesis Hsorted : StronglySorted key_lt (headers_ r).
Hypothesis Hfind : forall k, map_find k (headers_ r) = hs !! k.
Hypothesis Huse : well_used hs (body_ r).

Lemma header_elem k v : (k, v) ∈ headers_ r <-> hs !! k = Some v.
Proof. rewrite <- Hfind. by apply map_find_elem. Qed.

Lemma lowered_elem k :
  k ∈ map (fun h => HttpParser.toLowerAscii h.1) (headers_ r) ->
  exists k', is_Some (hs !! k') /\ k = HttpParser.toLowerAscii k'.
Proof.
  intros ([k' v] & -> & H)%list_elem_of_fmap. exists k'. split; [|done].
  apply header_elem in H. eauto.
Qed.

Lemma headers_nodup : NoDup (map (fun h => HttpParser.toLowerAscii h.1) (headers_ r)).
Proof.
  assert (Hd : forall h, h ∈ headers_ r -> is_Some (hs !! h.1)).
  { intros [k v] H. apply header_elem in H. simpl. eauto. }
  pose proof (wu_distinct _ _ Huse) as Hdist.
  clear Huse Hfind. induction Hsorted as [|h m Hm IH Hk]; simpl; [constructor|].
  apply NoDup_cons. split; [|apply IH; [done|]; intros h' Hh'; apply Hd; set_solver].
  intros (h' & E & H)%list_elem_of_fmap. rewrite Forall_forall in Hk.
  eapply string_lt_ne; [exact (Hk h' H)|]. apply Hdist; [apply Hd; set_solver.. | done].
Qed.

Lemma fields_nodup : NoDup (map (fun h => HttpParser.toLowerAscii h.1) (fields r)).
Proof.
  pose proof headers_nodup as Hn. destruct Huse as [_ _ Hnames _ _].
  assert (Hno : str "connection" ∉ map (fun h => HttpParser.toLowerAscii h.1) (headers_ r)).
  { intros (k & [v Hk] & E)%lowered_elem. by destruct (Hnames k v Hk) as (? & _). }
  unfold fields. rewrite Hfind.
  destruct (hs !! str "Content-Length") eqn:E; cbn [map app fst];
    change (HttpParser.toLowerAscii (str "Connection")) with (str "connection");
    apply NoDup_cons; (split; [|]); [done | done | by intros [H|H]%elem_of_cons |].
  apply NoDup_cons. split; [|done].
  intros (k & [v Hk] & Ek)%lowered_elem. destruct (Hnames k v Hk) as (_ & _ & H).
  rewrite H in Hk by done. congruence.
Qed.

Lemma fields_lookup k v :
  (k, v) ∈ fields r -> HttpParser.header_map (fields r) ∅ !! HttpParser.toLowerAscii k = Some v.
Proof. apply HttpParser.header_map_lookup, fields_nodup. Qed.

Lemma headers_in_fields k v : hs !! k = Some v -> (k, v) ∈ fields r.
Proof.
  intros H%header_elem. unfold fields. apply elem_of_cons; right. apply elem_of_app; by right.
Qed.

Lemma fields_readable : HttpReader.readable (status_line r) (fields r) (body_ r).
Proof.
  pose proof (blen_nonneg (body_ r)). destruct Huse as [Hv _ Hnames Hlen Hbody]. split.
  - unfold status_line. by destruct (statusCode_ r).
  - unfold fields. rewrite Hfind. apply Forall_cons. split.
    { by destruct (closeConnection_ r). }
    apply Forall_app. split.
    + destruct (hs !! _); [done|]. apply Forall_singleton. simpl.
      split; [done | by apply HttpReader.to_string_value].
    + apply Forall_forall. intros [k v] Hkv%header_elem. by apply (Hv k v).
  - apply fields_nodup.
  - rewrite HttpParser.header_map_lookup_ne; [apply lookup_empty|].
    assert (Hno : HttpParser.transfer_encoding ∉
      map (fun h => HttpParser.toLowerAscii h.1) (headers_ r)).
    { intros (k & [v Hk] & E)%lowered_elem. by destruct (Hnames k v Hk) as (_ & ? & _). }
    unfold fields. rewrite Hfind. destruct (hs !! str "Content-Length"); cbn [map app fst].
    + by intros [?|?]%elem_of_cons.
    + by intros [?|[?|?]%elem_of_cons]%elem_of_cons.
  - change HttpParser.content_length with (HttpParser.toLowerAscii (str "Content-Length")).
    destruct (hs !! str "Content-Length") as [v|] eqn:E.
    + exists v. split; [apply fields_lookup, headers_in_fields, E | by apply Hlen].
    + exists (Digits.to_string (blen (body_ r))). split.
      * apply fields_lookup. unfold fields. rewrite Hfind, E.
        apply elem_of_cons; right. apply elem_of_cons; by left.
      * apply HttpReader.parse_to_string. lia.
Qed.
End fields.

(** ** Properties *)


(** The calls of a handler that serves a small page. *)
Definition page_calls : list setter :=
  [SetStatusCode k200Ok; SetStatusMessage (str "OK"); SetContentType (str "text/plain");
   AddHeader (str "Server") (str "AegisNet"); SetBody (str "hello");
   SetContentType (str "text/html"); SetCloseConnection true].


(** [getMimeType] is a function of the text behind the last dot. *)
Lemma getMimeType_ext stem ext :
  forallb (fun c => negb (Ascii.eqb c ".")) ext = true ->
  find_last_dot (stem ++ "."%char :: ext) = Some (length stem).
Proof.
  intros H. unfold find_last_dot. rewrite rev_app_distr. simpl. rewrite <- app_assoc. cbn [app].
  rewrite find_char_app by (rewrite forallb_forall in *; intros c Hc; apply H; by apply in_rev).
  rewrite length_rev, find_char_here, length_app. simpl.
  rewrite bool_decide_eq_false_2 by lia. f_equal. lia.
Qed.

Example mime_html : getMimeType (str "/www/index.v2.html") = str "text/html".
Proof. reflexivity. Qed.
(** The directory's dot counts when the file name has none. *)
Example mime_directory : getMimeType (str "/srv/site.d/README") = str "application/octet-stream".
Proof. reflexivity. Qed.
Example mime_case : getMimeType (str "/LOGO.PNG") = str "application/octet-stream".
Proof. reflexivity. Qed.

End HttpResponse.
