(* ===== verification/HttpContext.v ===== *)
(** * HttpContext: the earlier request parser, of src/src/tcp/HttpContext.{h,cpp} and
    src/src/tcp/HttpRequest.h

    The parser the server used before [HttpParser].  A request keeps
    [std::string_view]s into the storage of the buffer: a view is an offset and a size
    in the buffer's vector, and reading one needs that vector.  [parseStep] is one
    iteration of the [while (hasMore)] loop, which [parseLoop] runs with fuel; from two
    of the four states the loop never ends. *)

From S2P Require Import Prelude Buffer InputQueue HttpParser.

(** A [std::string_view] into the vector of a buffer. *)
Module View.

Record t := mk { begin_ : Z; size_ : Z }.

(** [std::string_view()]. *)
Definition empty : t := mk 0 0.

(** The characters a view shows in the storage [mem]. *)
Definition read (mem : bytes) (v : t) : bytes := slice (begin_ v) (begin_ v + size_ v) mem.

(** The view stays inside of the storage. *)
Definition inside (mem : bytes) (v : t) : Prop :=
  0 <= begin_ v /\ 0 <= size_ v /\ begin_ v + size_ v <= blen mem.

End View.

Module HttpRequest.

Inductive Method := kInvalid | kGet | kPost | kHead | kPut | kDelete.
Inductive Version := kUnknown | kHttp10 | kHttp11.

Record t := mk {
  method_ : Method;
  version_ : Version;
  path_ : View.t;
  query_ : View.t;
  headers_ : list (View.t * View.t);
}.

Definition make : t := mk kInvalid kUnknown View.empty View.empty [].

Definition setVersion (v : Version) (r : t) : t :=
  mk (method_ r) v (path_ r) (query_ r) (headers_ r).
Definition setMethod (m : Method) (r : t) : t :=
  mk m (version_ r) (path_ r) (query_ r) (headers_ r).
Definition setPath (start end_ : Z) (r : t) : t :=
  mk (method_ r) (version_ r) (View.mk start (end_ - start)) (query_ r) (headers_ r).
Definition setQuery (start end_ : Z) (r : t) : t :=
  mk (method_ r) (version_ r) (path_ r) (View.mk start (end_ - start)) (headers_ r).
Definition path (r : t) : View.t := path_ r.
Definition query (r : t) : View.t := query_ r.
Definition method (r : t) : Method := method_ r.

(** [isspace], in the "C" locale. *)
Definition isspace (c : ascii) : bool := ((9 <=? uchar c) && (uchar c <=? 13)) || (uchar c =? 32).

Fixpoint spaces (s : bytes) : nat :=
  match s with
  | c :: s => if isspace c then S (spaces s) else 0%nat
  | [] => 0%nat
  end.

(** [while (colon < end && isspace( *colon)) ++colon;] *)
Definition skip_spaces (mem : bytes) (colon end_ : Z) : Z :=
  colon + Z.of_nat (spaces (slice colon end_ mem)).

(** [headers_[field] = value]: keys are compared by the characters they show. *)
Fixpoint set_header (mem : bytes) (field value : View.t) (hs : list (View.t * View.t)) :
    list (View.t * View.t) :=
  match hs with
  | [] => [(field, value)]
  | (k, v) :: hs =>
      if bool_decide (View.read mem k = View.read mem field) then (k, value) :: hs
      else (k, v) :: set_header mem field value hs
  end.

Definition addHeader (mem : bytes) (start colon end_ : Z) (r : t) : t :=
  let field := View.mk start (colon - start) in
  let colon := skip_spaces mem (colon + 1) end_ in
  let value := View.mk colon (end_ - colon) in
  mk (method_ r) (version_ r) (path_ r) (query_ r) (set_header mem field value (headers_ r)).

(** [headers_.find(field)]. *)
Fixpoint find_header (mem : bytes) (field : bytes) (hs : list (View.t * View.t)) : option View.t :=
  match hs with
  | [] => None
  | (k, v) :: hs => if bool_decide (View.read mem k = field) then Some v else find_header mem field hs
  end.

Definition getHeader (mem : bytes) (field : bytes) (r : t) : View.t :=
  default View.empty (find_header mem field (headers_ r)).

(** Every view of the request is inside of the storage. *)
Definition inside (mem : bytes) (r : t) : Prop :=
  View.inside mem (path_ r) /\ View.inside mem (query_ r) /\
  Forall (fun h => View.inside mem h.1 /\ View.inside mem h.2) (headers_ r).

End HttpRequest.

Module HttpContext.

Inductive HttpRequestParseState := kExpectRequestLine | kExpectHeaders | kExpectBody | kGotAll.

#[export] Instance state_eq_dec : EqDecision HttpRequestParseState.
Proof. solve_decision. Defined.

Record t := mk { state_ : HttpRequestParseState; request_ : HttpRequest.t }.

Definition make : t := mk kExpectRequestLine HttpRequest.make.
Definition gotAll (c : t) : bool := bool_decide (state_ c = kGotAll).
Definition reset (c : t) : t :=
  let '(mk _ _) := c in mk kExpectRequestLine HttpRequest.make.
Definition request (c : t) : HttpRequest.t := request_ c.

Definition set_state (s : HttpRequestParseState) (c : t) : t := mk s (request_ c).

(** [std::find(first, last, ch)]. *)
Definition find (mem : bytes) (first last : Z) (ch : ascii) : Z :=
  first + Z.of_nat (find_char ch (slice first last mem)).

(** What was set stays set when the line turns out to be wrong. *)
Definition processRequestLine (mem : bytes) (begin_ end_ : Z) (r : HttpRequest.t) :
    bool * HttpRequest.t :=
  let start := begin_ in
  let space := find mem start end_ HttpParser.SP in
  if space =? end_ then (false, r) else
  let method := slice start space mem in
  let r :=
    if bool_decide (method = str "GET") then HttpRequest.setMethod HttpRequest.kGet r
    else if bool_decide (method = str "POST") then HttpRequest.setMethod HttpRequest.kPost r
    else r in
  let start := space + 1 in
  let space := find mem start end_ HttpParser.SP in
  if space =? end_ then (false, r) else
  let r := HttpRequest.setPath start space r in
  let start := space + 1 in
  let version := slice start end_ mem in
  if bool_decide (version = str "HTTP/1.0") then (true, HttpRequest.setVersion HttpRequest.kHttp10 r)
  else if bool_decide (version = str "HTTP/1.1") then (true, HttpRequest.setVersion HttpRequest.kHttp11 r)
  else (false, r).

(** What an iteration leaves: [hasMore] still set, or the loop left with [ok]. *)
Inductive iteration :=
| More (c : t) (buf : Buffer.t)
| Done (ok : bool) (c : t) (buf : Buffer.t).

Definition parseStep (c : t) (buf : Buffer.t) : outcome iteration :=
  let mem := Buffer.buffer_ buf in
  match state_ c with
  | kExpectRequestLine =>
      match Buffer.findCRLF buf with
      | Some crlf =>
          let '(ok, r) := processRequestLine mem (Buffer.peek buf) crlf (request_ c) in
          if ok then
            let! buf := Buffer.retrieveUntil (crlf + 2) buf in
            Ok (More (mk kExpectHeaders r) buf)
          else Ok (Done false (mk (state_ c) r) buf)
      | None => Ok (Done true c buf)
      end
  | kExpectHeaders =>
      match Buffer.findCRLF buf with
      | Some crlf =>
          let colon := find mem (Buffer.peek buf) crlf HttpParser.COLON in
          if negb (colon =? crlf) then
            let r := HttpRequest.addHeader mem (Buffer.peek buf) colon crlf (request_ c) in
            let! buf := Buffer.retrieveUntil (crlf + 2) buf in
            Ok (More (mk (state_ c) r) buf)
          else
            let! buf := Buffer.retrieveUntil (crlf + 2) buf in
            Ok (Done true (set_state kGotAll c) buf)
      | None => Ok (Done true c buf)
      end
  | kExpectBody | kGotAll => Ok (More c buf)
  end.

Fixpoint parseLoop (fuel : nat) (c : t) (buf : Buffer.t) : outcome (bool * t * Buffer.t) :=
  match fuel with
  | O => Fault OutOfFuel
  | S fuel =>
      let! i := parseStep c buf in
      match i with
      | More c buf => parseLoop fuel c buf
      | Done ok c buf => Ok (ok, c, buf)
      end
  end.

(** A line is consumed by every iteration that leaves [hasMore] set in the first two
    states: one more than the number of readable bytes is enough ([contextLoop_total]). *)
Definition parseRequest (c : t) (buf : Buffer.t) : outcome (bool * t * Buffer.t) :=
  parseLoop (S (Z.to_nat (Buffer.readableBytes buf))) c buf.

(** Some number of iterations leaves the loop. *)
Definition returns (c : t) (buf : Buffer.t) : Prop :=
  exists fuel r, parseLoop fuel c buf = Ok r.

(** ** Lemmas: the storage under the views *)

Lemma retrieve_storage n b : Buffer.buffer_ (Buffer.retrieve n b) = Buffer.buffer_ b.
Proof. unfold Buffer.retrieve. by destruct (_ <? _). Qed.

(** A line at the front of the readable bytes: where it is found, what it shows, and
    what is left once it is retrieved. *)
Record line_at (b : Buffer.t) (crlf : Z) (b' : Buffer.t) : Prop := {
  la_line : Buffer.peek b <= crlf /\ crlf + 2 <= Buffer.writeIndex_ b;
  la_retrieve : Buffer.retrieveUntil (crlf + 2) b = Ok b';
  la_wf : Buffer.wf b';
  la_contents : Buffer.contents b' = drop (Z.to_nat (crlf + 2 - Buffer.peek b)) (Buffer.contents b);
  la_storage : Buffer.buffer_ b' = Buffer.buffer_ b;
  la_shorter : blen (Buffer.contents b') + 2 <= blen (Buffer.contents b);
}.

Lemma view_line b crlf :
  Buffer.wf b -> Buffer.findCRLF b = Some crlf -> exists b', line_at b crlf b'.
Proof.
  intros Hb Hf. unfold Buffer.findCRLF in Hf.
  destruct (search2 _ _ _) as [i|] eqn:E; simplify_eq.
  pose proof (search2_bound _ _ _ _ E) as Hi.
  change (slice _ _ _) with (Buffer.contents b) in E, Hi.
  pose proof (Buffer.contents_length b Hb) as Hl.
  pose proof (Buffer.readableBytes_wf b Hb) as Hr. unfold blen in Hl.
  destruct (Buffer.retrieve_spec b (Z.of_nat i + 2) Hb) as [Hb' Hc]; [lia|].
  exists (Buffer.retrieve (Z.of_nat i + 2) b). split.
  - unfold Buffer.peek in *. lia.
  - replace (Buffer.peek b + Z.of_nat i + 2) with (Buffer.peek b + (Z.of_nat i + 2)) by lia.
    apply Buffer.retrieveUntil_spec; [done|lia].
  - done.
  - rewrite Hc. f_equal. lia.
  - apply retrieve_storage.
  - rewrite Hc. unfold blen. rewrite length_drop. lia.
Qed.

(** The two outcomes of an iteration in the states that read lines. *)
Lemma parseStep_reads c b :
  Buffer.wf b -> state_ c = kExpectRequestLine \/ state_ c = kExpectHeaders ->
  (exists ok c' b', parseStep c b = Ok (Done ok c' b')) \/
  (exists c' b', parseStep c b = Ok (More c' b') /\ state_ c' = kExpectHeaders /\
     Buffer.wf b' /\ blen (Buffer.contents b') < blen (Buffer.contents b)).
Proof.
  intros Hb Hs. unfold parseStep. destruct Hs as [Hs|Hs]; rewrite Hs;
    (destruct (Buffer.findCRLF b) as [crlf|] eqn:E; [|by left; eauto]);
    destruct (view_line b crlf Hb E) as (b' & [? -> ? ? ? ?]).
  - destruct (processRequestLine _ _ _ _) as [[] r]; [|by left; eauto].
    right. do 2 eexists. split_and!; [done..|lia].
  - destruct (negb _); [|by left; eauto]. right. do 2 eexists. split_and!; [done..|lia].
Qed.

Lemma contextLoop_total n c b :
  Buffer.wf b -> state_ c = kExpectRequestLine \/ state_ c = kExpectHeaders ->
  blen (Buffer.contents b) < Z.of_nat n -> exists r, parseLoop n c b = Ok r.
Proof.
  revert c b. induction n as [|n IH]; intros c b Hb Hs Hn; [pose proof (blen_nonneg (Buffer.contents b)); lia|].
  cbn [parseLoop].
  destruct (parseStep_reads c b Hb Hs) as [(ok & c' & b' & ->)|(c' & b' & -> & ? & ? & ?)];
    cbn [obind]; [by eauto|]. apply IH; [done | by right | lia].
Qed.

Lemma parseLoop_more n m c b r : parseLoop n c b = Ok r -> (n <= m)%nat -> parseLoop m c b = Ok r.
Proof.
  revert m c b. induction n as [|n IH]; intros m c b H Hm; [done|].
  destruct m as [|m]; [lia|]. cbn [parseLoop] in *.
  destruct (parseStep c b) as [[c' b'|ok c' b']|]; cbn [obind] in *; [|done..].
  apply IH; [done|lia].
Qed.

(** What some number of iterations computes is what [parseRequest] returns. *)
Lemma parseRequest_is n c b r :
  Buffer.wf b -> state_ c = kExpectRequestLine \/ state_ c = kExpectHeaders ->
  parseLoop n c b = Ok r -> parseRequest c b = Ok r.
Proof.
  intros Hb Hs Hn. unfold parseRequest.
  destruct (contextLoop_total (S (Z.to_nat (Buffer.readableBytes b))) c b Hb Hs) as [r' Hr'].
  { rewrite (Buffer.contents_length b Hb). lia. }
  rewrite Hr'. set (m := S _) in *.
  pose proof (parseLoop_more _ (n `max` m) _ _ _ Hn ltac:(lia)) as E1.
  pose proof (parseLoop_more _ (n `max` m) _ _ _ Hr' ltac:(lia)) as E2.
  by rewrite E1 in E2.
Qed.

(** In the other two states an iteration changes nothing. *)
Lemma parseLoop_stuck n c b :
  state_ c = kExpectBody \/ state_ c = kGotAll -> parseLoop n c b = Fault OutOfFuel.
Proof.
  intros Hs. induction n as [|n IH]; [done|]. cbn [parseLoop]. unfold parseStep.
  destruct Hs as [Hs|Hs]; rewrite Hs; apply IH.
Qed.

(** ** Lemmas: views stay inside of the storage *)

Lemma find_bounds mem first last ch :
  0 <= first <= last -> last <= blen mem -> first <= find mem first last ch <= last.
Proof.
  intros H1 H2. unfold find. pose proof (find_char_le ch (slice first last mem)).
  pose proof (length_slice first last mem H1 H2). lia.
Qed.

Lemma spaces_le s : (HttpRequest.spaces s <= length s)%nat.
Proof. induction s as [|c s IH]; simpl; [done|]. destruct (HttpRequest.isspace c); lia. Qed.

Lemma skip_spaces_bounds mem colon end_ :
  0 <= colon <= end_ -> end_ <= blen mem ->
  colon <= HttpRequest.skip_spaces mem colon end_ <= end_.
Proof.
  intros H1 H2. unfold HttpRequest.skip_spaces. pose proof (spaces_le (slice colon end_ mem)).
  pose proof (length_slice colon end_ mem H1 H2). lia.
Qed.

Lemma view_between mem a b :
  0 <= a <= b -> b <= blen mem -> View.inside mem (View.mk a (b - a)).
Proof. unfold View.inside. simpl. lia. Qed.

Lemma set_header_inside mem f v hs :
  View.inside mem f -> View.inside mem v ->
  Forall (fun h => View.inside mem h.1 /\ View.inside mem h.2) hs ->
  Forall (fun h => View.inside mem h.1 /\ View.inside mem h.2) (HttpRequest.set_header mem f v hs).
Proof.
  intros Hf Hv. induction 1 as [|[k w] hs [Hk Hw] Hhs IH]; simpl; [by apply Forall_singleton|].
  by case_bool_decide; apply Forall_cons.
Qed.

Lemma addHeader_inside mem start colon end_ r :
  0 <= start <= colon -> colon < end_ -> end_ <= blen mem ->
  HttpRequest.inside mem r -> HttpRequest.inside mem (HttpRequest.addHeader mem start colon end_ r).
Proof.
  intros H1 H2 H3 (Hp & Hq & Hh). split_and!; [done..|]. simpl.
  pose proof (skip_spaces_bounds mem (colon + 1) end_ ltac:(lia) H3).
  apply set_header_inside; [by apply view_between; lia.. | done].
Qed.

Lemma processRequestLine_inside mem begin_ end_ r ok r' :
  0 <= begin_ <= end_ -> end_ <= blen mem -> HttpRequest.inside mem r ->
  processRequestLine mem begin_ end_ r = (ok, r') -> HttpRequest.inside mem r'.
Proof.
  intros H1 H2 Hr. unfold processRequestLine.
  pose proof (find_bounds mem begin_ end_ HttpParser.SP H1 H2).
  destruct (_ =? end_) eqn:E1; [by intros [= _ <-]|]. zbool.
  set (sp := find _ begin_ _ _) in *. pose proof (find_bounds mem (sp + 1) end_ HttpParser.SP ltac:(lia) H2).
  set (r1 := if bool_decide _ then _ else _).
  assert (Hr1 : HttpRequest.inside mem r1) by (subst r1; by repeat case_bool_decide).
  destruct (_ =? end_) eqn:E2; [by intros [= _ <-]|]. zbool.
  set (sp2 := find _ (sp + 1) _ _) in *.
  assert (Hr2 : HttpRequest.inside mem (HttpRequest.setPath (sp + 1) sp2 r1)).
  { destruct Hr1 as (_ & ? & ?). split_and!; [|done..]. apply view_between; lia. }
  repeat case_bool_decide; by intros [= _ <-].
Qed.

Lemma parseStep_inside c b :
  Buffer.wf b -> HttpRequest.inside (Buffer.buffer_ b) (request_ c) ->
  match parseStep c b with
  | Ok (More c' b' | Done _ c' b') =>
      Buffer.wf b' /\ Buffer.buffer_ b' = Buffer.buffer_ b /\
      HttpRequest.inside (Buffer.buffer_ b) (request_ c')
  | Fault _ => False
  end.
Proof.
  intros Hb Hr. unfold parseStep. destruct (state_ c); [| |done|done];
    (destruct (Buffer.findCRLF b) as [crlf|] eqn:E; [|done]);
    destruct (view_line b crlf Hb E) as (b' & [Hl -> Hb' _ Hs _]);
    pose proof Hb as [Hrd Hw _]; unfold Buffer.peek, Buffer.size in *.
  - destruct (processRequestLine _ _ _ _) as [ok r] eqn:Ep.
    assert (HttpRequest.inside (Buffer.buffer_ b) r).
    { eapply processRequestLine_inside; [| |exact Hr|exact Ep]; unfold blen; lia. }
    by destruct ok.
  - pose proof (find_bounds (Buffer.buffer_ b) (Buffer.readIndex_ b) crlf HttpParser.COLON
      ltac:(lia) ltac:(unfold blen; lia)).
    destruct (_ =? crlf) eqn:Ec; simpl; [done|]. zbool.
    split_and!; [done..|]. apply addHeader_inside; [lia..|unfold blen; lia|done].
Qed.

Lemma parseLoop_inside n c b ok c' b' :
  Buffer.wf b -> HttpRequest.inside (Buffer.buffer_ b) (request_ c) ->
  parseLoop n c b = Ok (ok, c', b') ->
  Buffer.wf b' /\ Buffer.buffer_ b' = Buffer.buffer_ b /\
  HttpRequest.inside (Buffer.buffer_ b) (request_ c').
Proof.
  revert c b. induction n as [|n IH]; intros c b Hb Hr; [done|]. cbn [parseLoop].
  pose proof (parseStep_inside c b Hb Hr) as Hst.
  destruct (parseStep c b) as [[c1 b1|ok1 c1 b1]|]; cbn [obind]; [|by intros [= -> -> ->]|done].
  destruct Hst as (Hb1 & Es & Hr1). rewrite <- Es in *. by apply IH.
Qed.

(** ** Lemmas: a well-formed request *)

(** Where some of the readable bytes are in the storage. *)
Lemma storage_at b x y z :
  Buffer.wf b -> Buffer.contents b = x ++ y ++ z ->
  slice (Buffer.peek b + blen x) (Buffer.peek b + blen x + blen y) (Buffer.buffer_ b) = y.
Proof.
  intros Hb Hc. pose proof (Buffer.contents_length b Hb) as Hl.
  rewrite (Buffer.readableBytes_wf b Hb), Hc, !blen_app in Hl.
  pose proof (blen_nonneg x). pose proof (blen_nonneg y). pose proof (blen_nonneg z).
  destruct Hb as [? _ _]. unfold Buffer.peek.
  rewrite (slice_take _ (Buffer.writeIndex_ b)), slice_drop by lia.
  change (slice _ _ _) with (Buffer.contents b). rewrite Hc, drop_blen_app. apply take_blen_app.
Qed.

(** A line without line feed at the front of the buffer is found and retrieved. *)
Lemma front_line b line s :
  Buffer.wf b -> forallb HttpParser.not_LF line = true ->
  Buffer.contents b = line ++ Buffer.kCRLF ++ s ->
  exists b', Buffer.findCRLF b = Some (Buffer.peek b + blen line) /\
    line_at b (Buffer.peek b + blen line) b' /\ Buffer.contents b' = s.
Proof.
  intros Hb Hl Hc.
  assert (E : Buffer.findCRLF b = Some (Buffer.peek b + blen line)).
  { unfold Buffer.findCRLF. change (slice _ _ _) with (Buffer.contents b).
    by rewrite Hc, HttpParser.find_line. }
  destruct (view_line b _ Hb E) as (b' & Hla). exists b'. split_and!; [done..|].
  rewrite (la_contents _ _ _ Hla), Hc.
  replace (Z.to_nat _) with (length line + 2)%nat by (unfold blen; lia).
  by rewrite drop_app_ge, Nat.add_sub_swap, Nat.sub_diag by lia.
Qed.

(** Concatenations to the right. *)
Ltac norm_app := repeat first [rewrite <- app_assoc | progress cbn [app]].

(** Lengths of concatenations. *)
Ltac len := unfold blen; repeat first [rewrite length_app | progress cbn [length app]]; lia.

(** The method the parser knows a name by. *)
Definition method_of (m : bytes) : HttpRequest.Method :=
  if bool_decide (m = str "GET") then HttpRequest.kGet
  else if bool_decide (m = str "POST") then HttpRequest.kPost
  else HttpRequest.kInvalid.

Definition version_of (v : bytes) : HttpRequest.Version :=
  if bool_decide (v = str "HTTP/1.0") then HttpRequest.kHttp10 else HttpRequest.kHttp11.

Lemma find_in b x y ch z s :
  Buffer.wf b -> Buffer.contents b = x ++ (y ++ ch :: z) ++ s ->
  forallb (fun c => negb (Ascii.eqb c ch)) y = true ->
  find (Buffer.buffer_ b) (Buffer.peek b + blen x) (Buffer.peek b + blen x + blen (y ++ ch :: z)) ch =
    Buffer.peek b + blen x + blen y.
Proof.
  intros Hb Hc Hy. unfold find. rewrite (storage_at b x _ s Hb Hc).
  rewrite find_char_app, find_char_here by done. unfold blen. lia.
Qed.

Lemma processRequestLine_ok b r s :
  Buffer.wf b -> HttpParser.valid_request r ->
  Buffer.contents b = HttpParser.render_request_line r ++ s ->
  exists pa,
    processRequestLine (Buffer.buffer_ b) (Buffer.peek b)
      (Buffer.peek b + blen (HttpParser.render_request_line r)) HttpRequest.make =
    (true, HttpRequest.mk (method_of (HttpParser.r_method r)) (version_of (HttpParser.r_version r))
             pa View.empty []) /\
    View.read (Buffer.buffer_ b) pa = HttpParser.r_path r.
Proof.
  intros Hb [[Hm Hmt] [Hp Hpt] Hv _ _ _ _] Hc. unfold HttpParser.render_request_line in *.
  set (m := HttpParser.r_method r) in *. set (pa := HttpParser.r_path r) in *.
  set (v := HttpParser.r_version r) in *. cbn [app] in *.
  assert (F1 : forallb (fun c => negb (Ascii.eqb c HttpParser.SP)) m = true).
  { apply (forallb_impl _ _ _ (fun c Hc => proj1 (HttpParser.token_not c Hc)) Hmt). }
  assert (F2 : forallb (fun c => negb (Ascii.eqb c HttpParser.SP)) pa = true).
  { apply existsb_forallb in Hpt.
    apply (forallb_impl _ _ _ (fun c Hc => proj1 (HttpParser.path_not c Hc)) Hpt). }
  pose proof (find_in b [] m HttpParser.SP _ _ Hb Hc F1) as E1. rewrite Z.add_0_r in E1.
  set (line := m ++ HttpParser.SP :: pa ++ HttpParser.SP :: v) in *.
  assert (Hc2 : Buffer.contents b = (m ++ [HttpParser.SP]) ++ (pa ++ HttpParser.SP :: v) ++ s).
  { rewrite Hc. unfold line. by norm_app. }
  pose proof (find_in b _ pa HttpParser.SP v s Hb Hc2 F2) as E2.
  assert (Hs : Buffer.peek b + blen (m ++ [HttpParser.SP]) = Buffer.peek b + blen m + 1)
    by len. rewrite Hs in E2.
  assert (Hend : Buffer.peek b + blen m + 1 + blen (pa ++ HttpParser.SP :: v) =
    Buffer.peek b + blen line)
    by (unfold line; len).
  rewrite Hend in E2. unfold processRequestLine. rewrite E1.
  rewrite (proj2 (Z.eqb_neq _ _)) by (unfold line; len).
  pose proof (storage_at b [] m _ Hb ltac:(rewrite Hc; unfold line; by norm_app)) as S1.
  rewrite !Z.add_0_r in S1. rewrite S1, E2.
  rewrite (proj2 (Z.eqb_neq _ _)) by (rewrite <- Hend; len).
  pose proof (storage_at b (m ++ [HttpParser.SP] ++ pa ++ [HttpParser.SP]) v s Hb
    ltac:(rewrite Hc; unfold line; by norm_app)) as S3.
  replace (Buffer.peek b + blen (m ++ [HttpParser.SP] ++ pa ++ [HttpParser.SP])) with
    (Buffer.peek b + blen m + 1 + blen pa + 1) in S3
    by len.
  replace (Buffer.peek b + blen m + 1 + blen pa + 1 + blen v) with (Buffer.peek b + blen line) in S3
    by (unfold line; len).
  rewrite S3. eexists. split.
  - instantiate (1 := View.mk (Buffer.peek b + blen m + 1) (Buffer.peek b + blen m + 1 + blen pa - (Buffer.peek b + blen m + 1))).
    apply elem_of_cons in Hv as [Hv|[Hv|[]%not_elem_of_nil]%elem_of_cons]; rewrite Hv; unfold method_of;
      by repeat case_bool_decide.
  - unfold View.read. simpl. replace (Buffer.peek b + blen m + 1 + _) with (Buffer.peek b + blen m + 1 + blen pa) by lia.
    pose proof (storage_at b (m ++ [HttpParser.SP]) pa ((HttpParser.SP :: v) ++ s) Hb
      ltac:(rewrite Hc2; by norm_app)) as S2.
    by rewrite Hs in S2.
Qed.

(** A header value begins with a character that is no space of any kind. *)
Lemma value_no_space v : HttpParser.valid_value v -> HttpRequest.spaces v = 0%nat.
Proof.
  intros [Hb Ht]. destruct v as [|c v]; [done|]. simpl.
  assert (Hc : implb (HttpRequest.isspace c) (HttpParser.is_blank c || HttpParser.bad_value_char c) = true).
  { revert c Hb Ht. intros c _ _. revert c. apply ascii_forall. vm_compute. reflexivity. }
  destruct (HttpRequest.isspace c); [|done]. exfalso. simpl in Hb.
  apply orb_false_iff in Hb as [Hb _]. rewrite Hb, orb_false_r in Hc. simpl in Hc.
  simpl in Ht. rewrite Hc in Ht. apply (f_equal length) in Ht.
  destruct (HttpParser.trim_end_prefix (HttpParser.skip_blanks v)) as [t1 E1%(f_equal length)].
  destruct (HttpParser.skip_blanks_suffix v) as [t2 E2%(f_equal length)].
  rewrite length_app in E1, E2. simpl in Ht. lia.
Qed.

Lemma set_header_new mem f v hs :
  Forall (fun h => View.read mem h.1 <> View.read mem f) hs ->
  HttpRequest.set_header mem f v hs = hs ++ [(f, v)].
Proof.
  induction 1 as [|[k w] hs Hk Hhs IH]; simpl; [done|].
  by rewrite bool_decide_eq_false_2, IH.
Qed.

(** The nodes show the headers. *)
Definition shows (mem : bytes) (nodes : list (View.t * View.t)) (hs : list (bytes * bytes)) : Prop :=
  Forall2 (fun n h => View.read mem n.1 = h.1 /\ View.read mem n.2 = h.2) nodes hs.

Lemma shows_find mem nodes hs k v :
  shows mem nodes hs -> NoDup hs.*1 -> (k, v) ∈ hs ->
  exists w, HttpRequest.find_header mem k nodes = Some w /\ View.read mem w = v.
Proof.
  induction 1 as [|[n w] [k' v'] nodes hs [Hn Hw] Hs IH]; [by intros _ []%not_elem_of_nil|].
  cbn [fst snd fmap list_fmap] in *. intros [Hnin Hnd]%NoDup_cons [[= <- <-]|Hin]%elem_of_cons; simpl.
  - exists w. by rewrite bool_decide_eq_true_2.
  - rewrite bool_decide_eq_false_2; [by apply IH|]. rewrite Hn. intros ->. apply Hnin.
    by apply (list_elem_of_fmap_2' fst hs (k, v)).
Qed.

(** No node shows a key that is not among the headers. *)
Lemma shows_new mem nodes hs k :
  shows mem nodes hs -> k ∉ hs.*1 -> Forall (fun n => View.read mem n.1 <> k) nodes.
Proof.
  induction 1 as [|n h nodes hs [Hn _] Hs IH]; [constructor|].
  cbn [fmap list_fmap]. intros [Hk Hnin]%not_elem_of_cons. apply Forall_cons.
  split; [by rewrite Hn; apply not_eq_sym | by apply IH].
Qed.

(** One header line. *)
Lemma header_step b nodes hs k v r s :
  Buffer.wf b -> HttpParser.valid_method k -> HttpParser.valid_value v ->
  Buffer.contents b = HttpParser.render_header (k, v) ++ Buffer.kCRLF ++ s ->
  HttpRequest.headers_ r = nodes -> shows (Buffer.buffer_ b) nodes hs -> k ∉ hs.*1 ->
  exists node b',
    parseStep (mk kExpectHeaders r) b =
      Ok (More (mk kExpectHeaders (HttpRequest.mk (HttpRequest.method_ r) (HttpRequest.version_ r)
            (HttpRequest.path_ r) (HttpRequest.query_ r) (nodes ++ [node]))) b') /\
    Buffer.wf b' /\ Buffer.buffer_ b' = Buffer.buffer_ b /\ Buffer.contents b' = s /\
    shows (Buffer.buffer_ b) (nodes ++ [node]) (hs ++ [(k, v)]).
Proof.
  intros Hb Hk Hv Hc Hr Hs Hnew.
  pose proof (HttpParser.render_header_no_LF (k, v) Hk Hv) as Hlf.
  destruct (front_line b _ s Hb Hlf Hc) as (b' & Hf & Hla & Hc').
  unfold HttpParser.render_header in *. cbn [fst snd] in *.
  set (line := k ++ [HttpParser.COLON; HttpParser.SP] ++ v) in *.
  assert (Fk : forallb (fun c => negb (Ascii.eqb c HttpParser.COLON)) k = true).
  { apply (forallb_impl _ _ _ (fun c Hc => proj1 (proj2 (HttpParser.token_not c Hc))) (proj2 Hk)). }
  pose proof (find_in b [] k HttpParser.COLON (HttpParser.SP :: v) _ Hb Hc Fk) as E1.
  change (k ++ HttpParser.COLON :: HttpParser.SP :: v) with line in E1. rewrite !Z.add_0_r in E1.
  pose proof (storage_at b [] k _ Hb ltac:(rewrite Hc; unfold line; by norm_app)) as S1.
  rewrite Z.add_0_r in S1.
  pose proof (storage_at b (k ++ [HttpParser.COLON]) (HttpParser.SP :: v) _ Hb
    ltac:(rewrite Hc; unfold line; by norm_app)) as S2.
  pose proof (storage_at b (k ++ [HttpParser.COLON; HttpParser.SP]) v _ Hb
    ltac:(rewrite Hc; unfold line; by norm_app)) as S3.
  unfold parseStep. cbn [state_]. rewrite Hf, E1.
  rewrite (proj2 (Z.eqb_neq _ _)) by (unfold line; len). cbn [negb].
  destruct Hla as [_ -> Hb' _ Hst _]. cbn [obind request_]. unfold HttpRequest.addHeader.
  set (e := Buffer.peek b + blen line) in *.
  assert (Esk : HttpRequest.skip_spaces (Buffer.buffer_ b) (Buffer.peek b + blen k + 1) e =
    Buffer.peek b + blen k + 2).
  { unfold HttpRequest.skip_spaces.
    replace (slice (Buffer.peek b + blen k + 1) e (Buffer.buffer_ b)) with (HttpParser.SP :: v).
    2: { etrans; [symmetry; exact S2|]. f_equal; unfold e, line; len. }
    simpl. rewrite (value_no_space v Hv). lia. }
  rewrite Esk, Hr. set (f := View.mk (Buffer.peek b) _). set (w := View.mk (Buffer.peek b + blen k + 2) _).
  assert (Rf : View.read (Buffer.buffer_ b) f = k).
  { unfold View.read, f. simpl. by replace (Buffer.peek b + (_ - _)) with (Buffer.peek b + blen k) by lia. }
  assert (Rw : View.read (Buffer.buffer_ b) w = v).
  { unfold View.read, w. simpl. etrans; [|exact S3]. f_equal; unfold e, line; len. }
  rewrite set_header_new.
  2: { rewrite Rf. by eapply shows_new. }
  eexists (f, w), b'. split_and!; [done..|]. apply Forall2_app; [done|]. by apply Forall2_cons.
Qed.

(** All the header lines. *)
Lemma header_lines more : forall b nodes hs r s,
  Buffer.wf b ->
  Forall (fun h => HttpParser.valid_method h.1 /\ HttpParser.valid_value h.2) more ->
  NoDup (hs ++ more).*1 ->
  Buffer.contents b = HttpParser.render_headers more ++ s ->
  HttpRequest.headers_ r = nodes -> shows (Buffer.buffer_ b) nodes hs ->
  exists n nodes' b', (forall m, parseLoop (n + m) (mk kExpectHeaders r) b =
      parseLoop m (mk kExpectHeaders (HttpRequest.mk (HttpRequest.method_ r) (HttpRequest.version_ r)
            (HttpRequest.path_ r) (HttpRequest.query_ r) nodes')) b') /\
    Buffer.wf b' /\ Buffer.buffer_ b' = Buffer.buffer_ b /\ Buffer.contents b' = s /\
    shows (Buffer.buffer_ b) nodes' (hs ++ more).
Proof.
  induction more as [|[k v] more IH]; intros b nodes hs r s Hb Hv Hnd Hc Hr Hs.
  { exists 0%nat, nodes, b. rewrite app_nil_r. subst nodes. split_and!; [|done..].
    intros m. by destruct r. }
  apply Forall_cons in Hv as [[Hk Hval] Hv]. cbn [fst snd] in *.
  unfold HttpParser.render_headers in Hc. cbn [map concat] in Hc. rewrite <- !app_assoc in Hc.
  destruct (header_step b nodes hs k v r _ Hb Hk Hval Hc Hr Hs) as (node & b1 & Hst & Hb1 & Em & Hc1 & Hs1).
  { intros Hin. rewrite fmap_app, NoDup_app in Hnd. destruct Hnd as (_ & Hd & _).
    apply (Hd k Hin). simpl. apply elem_of_cons; by left. }
  destruct (IH b1 (nodes ++ [node]) (hs ++ [(k, v)]) (HttpRequest.mk (HttpRequest.method_ r)
    (HttpRequest.version_ r) (HttpRequest.path_ r) (HttpRequest.query_ r) (nodes ++ [node])) s)
    as (n & nodes' & b' & Hl & Hb' & Em' & Hc' & Hs'); [done..| |done|done|by rewrite Em|].
  { by rewrite <- app_assoc. }
  exists (S n), nodes', b'. rewrite Em in *. rewrite <- app_assoc in Hs'. split_and!; [|done..].
  intros m. cbn [parseLoop Nat.add]. rewrite Hst. cbn [obind]. apply Hl.
Qed.

(** ** Properties *)

(** C35. Termination and memory safety: in the two states that read lines a call returns,
    does not touch the storage and leaves only views inside of it; in the two other
    states, [kGotAll] among them, no number of iterations makes it return. *)
Theorem parse_returns_or_loops (c : t) (b : Buffer.t) :
  Buffer.wf b ->
  HttpRequest.inside (Buffer.buffer_ b) (request c) ->
  (state_ c = kExpectRequestLine \/ state_ c = kExpectHeaders ->
     exists ok c' b', parseRequest c b = Ok (ok, c', b') /\
       Buffer.wf b' /\ Buffer.buffer_ b' = Buffer.buffer_ b /\
       HttpRequest.inside (Buffer.buffer_ b') (request c')) /\
  (state_ c = kExpectBody \/ state_ c = kGotAll -> ~ returns c b).
Proof.
  intros Hb Hr. split; intros Hs.
  - destruct (contextLoop_total (S (Z.to_nat (Buffer.readableBytes b))) c b Hb Hs)
      as [[[ok c'] b'] E]; [rewrite (Buffer.contents_length b Hb); lia|].
    exists ok, c', b'. split; [exact E|].
    destruct (parseLoop_inside _ _ _ _ _ _ Hb Hr E) as (? & Em & ?). by rewrite Em.
  - intros (n & r & E). by rewrite parseLoop_stuck in E.
Qed.

(** A context that has got a whole request. *)
Definition got_all : t := mk kGotAll HttpRequest.make.

Lemma parse_returns_or_loops_witness :
  (exists ok c' b', parseRequest make (HttpParser.test_buffer (str "GET / HTTP")) = Ok (ok, c', b') /\
     Buffer.wf b' /\ Buffer.buffer_ b' = Buffer.buffer_ (HttpParser.test_buffer (str "GET / HTTP")) /\
     HttpRequest.inside (Buffer.buffer_ b') (request c')) /\
  ~ returns got_all Buffer.test_buffer.
Proof.
  assert (Hi : forall mem, HttpRequest.inside mem HttpRequest.make).
  { intros mem. pose proof (blen_nonneg mem). unfold HttpRequest.inside, View.inside. simpl.
    split_and!; try lia. apply Forall_nil_2. }
  split.
  - eapply (parse_returns_or_loops make); [by apply HttpParser.test_buffer_spec | apply Hi | by left].
  - apply (parse_returns_or_loops got_all); [apply Buffer.test_buffer_wf | apply Hi | by right].
Defined.

(** A well-formed request at the front of the buffer is parsed: the method and
    version are recognised, the path and every header are shown by their views, and
    exactly the request line and the headers are consumed. *)
Theorem request_shown_by_views (r : HttpParser.request) (rest : bytes) (b : Buffer.t) :
  HttpParser.valid_request r ->
  Buffer.wf b ->
  Buffer.contents b = HttpParser.render r ++ rest ->
  exists c b', parseRequest make b = Ok (true, c, b') /\ gotAll c = true /\
    Buffer.contents b' = HttpParser.r_body r ++ rest /\
    HttpRequest.method (request c) = method_of (HttpParser.r_method r) /\
    HttpRequest.version_ (request c) = version_of (HttpParser.r_version r) /\
    View.read (Buffer.buffer_ b') (HttpRequest.path (request c)) = HttpParser.r_path r /\
    forall k v, (k, v) ∈ HttpParser.r_headers r ->
      View.read (Buffer.buffer_ b') (HttpRequest.getHeader (Buffer.buffer_ b') k (request c)) = v.
Proof.
  intros Hr Hb Hc. unfold HttpParser.render in Hc. rewrite <- !app_assoc in Hc.
  destruct (processRequestLine_ok b r _ Hb Hr Hc) as (pa & Hp & Rp).
  pose proof Hr as [Hm Hpath Hv Hh Hnd _ _].
  destruct (front_line b _ _ Hb (HttpParser.render_request_line_no_LF r Hm Hpath Hv) Hc)
    as (b1 & Hf & [_ Hret Hb1 _ Em1 _] & Hc1).
  set (req := HttpRequest.mk _ _ pa View.empty []) in *.
  assert (Hnd' : NoDup (HttpParser.r_headers r).*1).
  { apply (NoDup_fmap_1 HttpParser.toLowerAscii). by rewrite <- list_fmap_compose. }
  destruct (header_lines (HttpParser.r_headers r) b1 [] [] req _ Hb1 Hh Hnd' Hc1 eq_refl)
    as (n & nodes & b2 & Hl & Hb2 & Em2 & Hc2 & Hs); [constructor|].
  destruct (front_line b2 [] _ Hb2 eq_refl Hc2) as (b3 & Hf3 & [_ Hret3 Hb3 _ Em3 _] & Hc3).
  rewrite Em2 in Em3. rewrite Em1 in Em3.
  eexists _, b3. split.
  - apply (parseRequest_is (S (n + 1))); [done | by left|].
    cbn [parseLoop]. unfold parseStep at 1. cbn [state_ make request_]. rewrite Hf, Hp, Hret. cbn [obind].
    rewrite Hl. cbn [parseLoop]. unfold parseStep. cbn [state_]. rewrite Hf3.
    unfold find. change (blen []) with 0 in *. rewrite Z.add_0_r in *. rewrite slice_nil.
    cbn [find_char]. rewrite Z.add_0_r, Z.eqb_refl. cbn [negb]. rewrite Hret3. reflexivity.
  - rewrite Em3. split_and!; [done..|]. intros k v Hin. unfold HttpRequest.getHeader. cbn -[View.read].
    rewrite <- Em1 in *.
    destruct (shows_find _ _ _ k v Hs Hnd' Hin) as (w & Hw & Rw). by rewrite Hw.
Qed.

Lemma request_shown_by_views_witness :
  exists c b', parseRequest make (HttpParser.test_buffer (HttpParser.render HttpParser.post_chat)) =
      Ok (true, c, b') /\ gotAll c = true /\
    Buffer.contents b' = str "hello" /\
    HttpRequest.method (request c) = HttpRequest.kPost /\
    HttpRequest.version_ (request c) = HttpRequest.kHttp11 /\
    View.read (Buffer.buffer_ b') (HttpRequest.path (request c)) = str "/chat" /\
    forall k v, (k, v) ∈ HttpParser.r_headers HttpParser.post_chat ->
      View.read (Buffer.buffer_ b') (HttpRequest.getHeader (Buffer.buffer_ b') k (request c)) = v.
Proof.
  apply (request_shown_by_views HttpParser.post_chat []); [apply HttpParser.post_chat_valid | |];
    by apply HttpParser.test_buffer_spec.
Defined.

(** ** What the views of a request do not survive *)

(** The path of a request parsed from a vector of 30 bytes, then the append of the bytes
    of the next message, which moves the readable bytes: the view shows other bytes. *)
Definition crowded : Buffer.t :=
  Buffer.mk (replicate 8 (chr 0) ++ str "GET /a HTTP/1.1" ++ Buffer.kCRLF ++ Buffer.kCRLF ++ str "xyz") 8 30.

Example view_dangles :
  match parseRequest make crowded with
  | Ok (true, c, b) =>
      match Buffer.append (str "0123456789") b with
      | Ok b' => (View.read (Buffer.buffer_ b) (HttpRequest.path (request c)),
                  View.read (Buffer.buffer_ b') (HttpRequest.path (request c)))
      | _ => ([], [])
      end
  | _ => ([], [])
  end = (str "/a", str "12").
Proof. vm_compute. reflexivity. Qed.

(** Any line without a colon ends the headers, not only the empty one. *)
Example header_without_colon :
  match parseRequest make (HttpParser.test_buffer
    (str "GET / HTTP/1.1" ++ Buffer.kCRLF ++ str "garbage" ++ Buffer.kCRLF ++ str "Host: h" ++
     Buffer.kCRLF ++ Buffer.kCRLF)) with
  | Ok (ok, c, b) => (ok, gotAll c, Buffer.contents b)
  | Fault _ => (false, false, [])
  end = (true, true, str "Host: h" ++ Buffer.kCRLF ++ Buffer.kCRLF).
Proof. vm_compute. reflexivity. Qed.

End HttpContext.
