(* ===== verification/Any.v ===== *)
(** * Any: the type-erased value of src/src/base/Any.h

    An [Any] owns, through a [unique_ptr], a [Holder] on the heap, which knows its type.
    [world] is that heap with the content pointers of the [Any] objects that are alive;
    the types a program stores, and their values, are parameters.  An object used outside
    of its lifetime and a cast to a type the object does not have are faults. *)

From S2P Require Import Prelude.

Module Any.

Abbreviation var := Z (only parsing).
Abbreviation addr := Z (only parsing).

Section any.
(** The C++ types a program stores, which [typeid] tells apart, and their values. *)
Context {ty : Type} `{EqDecision ty} (val : ty -> Type).

(** [operator new]: an address that is not in use. *)
Variable new_addr : gset Z -> Z.

(** [Holder<ValueType>]: its type and [held_]. *)
Definition Holder : Type := {T : ty & val T}.

Record world := World {
  heap : gmap addr Holder;                 (** the holders that are allocated *)
  content_ : gmap var (option addr);       (** the [Any] objects that are alive *)
}.

Definition world0 : world := World ∅ ∅.

Definition set_content (x : var) (c : option addr) (w : world) : world :=
  World (heap w) (<[x := c]> (content_ w)).

(** [content_] of an object that has to be alive. *)
Definition content_of (x : var) (w : world) : outcome (option addr) :=
  match content_ w !! x with Some c => Ok c | None => Fault DanglingPointer end.

Definition holder_at (p : addr) (w : world) : outcome Holder :=
  match heap w !! p with Some h => Ok h | None => Fault DanglingPointer end.

(** [new Holder<ValueType>(value)]. *)
Definition new_Holder (h : Holder) (w : world) : addr * world :=
  let p := new_addr (dom (heap w)) in
  (p, World (<[p := h]> (heap w)) (content_ w)).

(** The virtual functions of a [Placeholder]. *)
Definition Holder_type (h : Holder) : ty := projT1 h.
Definition clone (p : addr) (w : world) : outcome (addr * world) :=
  let! h := holder_at p w in Ok (new_Holder h w).

(** [unique_ptr]'s destructor. *)
Definition delete_content (c : option addr) (w : world) : outcome world :=
  match c with
  | None => Ok w
  | Some p => let! _ := holder_at p w in Ok (World (delete p (heap w)) (content_ w))
  end.

(** [Any()]. *)
Definition ctor (x : var) (w : world) : outcome world := Ok (set_content x None w).

(** [Any(const ValueType& value)]. *)
Definition ctor_value (x : var) (h : Holder) (w : world) : outcome world :=
  let (p, w) := new_Holder h w in Ok (set_content x (Some p) w).

(** [other.content_ ? other.content_->clone() : nullptr]. *)
Definition copy_content (other : var) (w : world) : outcome (option addr * world) :=
  let! c := content_of other w in
  match c with
  | Some p => let! (q, w) := clone p w in Ok (Some q, w)
  | None => Ok (None, w)
  end.

(** [Any(const Any& other)]. *)
Definition ctor_copy (x other : var) (w : world) : outcome world :=
  let! (c, w) := copy_content other w in Ok (set_content x c w).

(** [Any(Any&& other)]: the pointer is moved, [other] is left empty. *)
Definition ctor_move (x other : var) (w : world) : outcome world :=
  let! c := content_of other w in
  Ok (set_content x c (set_content other None w)).

Definition swap (x other : var) (w : world) : outcome world :=
  let! c := content_of x w in
  let! c' := content_of other w in
  Ok (set_content other c (set_content x c' w)).

(** [Any(other).swap( *this)], then the destructor of the temporary. *)
Definition assign (x other : var) (w : world) : outcome world :=
  let! (temporary, w) := copy_content other w in
  let! mine := content_of x w in
  let w := set_content x temporary w in
  delete_content mine w.

Definition dtor (x : var) (w : world) : outcome world :=
  let! c := content_of x w in
  let! w := delete_content c w in
  Ok (World (heap w) (delete x (content_ w))).

Definition empty (x : var) (w : world) : outcome bool :=
  let! c := content_of x w in Ok (bool_decide (c = None)).

(** [None] is [typeid(void)]. *)
Definition type (x : var) (w : world) : outcome (option ty) :=
  let! c := content_of x w in
  match c with
  | Some p => let! h := holder_at p w in Ok (Some (Holder_type h))
  | None => Ok None
  end.

(** An object as a value of a type it has to have. *)
Definition as_type (T : ty) (h : Holder) : outcome (val T) :=
  match decide (projT1 h = T) with
  | left E => Ok (eq_rect (projT1 h) val (projT2 h) T E)
  | right _ => Fault BadCast
  end.

(** [any_cast<ValueType>(operand)]: the address of [held_], or null.  The downcast is
    only defined for a holder of that type. *)
Definition any_cast (T : ty) (operand : option var) (w : world) : outcome (option addr) :=
  match operand with
  | None => Ok None
  | Some x =>
      let! t := type x w in
      if bool_decide (t = Some T) then
        let! c := content_of x w in
        match c with
        | Some p => let! h := holder_at p w in let! _ := as_type T h in Ok (Some p)
        | None => Fault NullDereference
        end
      else Ok None
  end.

(** A read and a write through a [ValueType*]. *)
Definition load (T : ty) (p : addr) (w : world) : outcome (val T) :=
  let! h := holder_at p w in as_type T h.
Definition store (T : ty) (p : addr) (v : val T) (w : world) : outcome world :=
  let! h := holder_at p w in
  let! _ := as_type T h in
  Ok (World (<[p := existT T v]> (heap w)) (content_ w)).

(** ** Programs that use objects, and what they mean: values *)

Inductive op :=
| Default (x : var)
| Construct (x : var) (h : Holder)
| Copy (x other : var)
| Move (x other : var)
| Assign (x other : var)
| Swap (x other : var)
| Destroy (x : var)
| Write (x : var) (T : ty) (v : val T)  (** [if (auto p = any_cast<T>(&x)) *p = v;] *)
| Read (x : var) (T : ty)               (** [auto p = any_cast<T>(&x); p ? *p : none] *)
| Empty (x : var)
| Type_ (x : var).

Inductive output :=
| OutNone
| OutValue (h : option Holder)
| OutBool (b : bool)
| OutType (t : option ty).

Definition impl_step (o : op) (w : world) : outcome (world * output) :=
  match o with
  | Default x => let! w := ctor x w in Ok (w, OutNone)
  | Construct x h => let! w := ctor_value x h w in Ok (w, OutNone)
  | Copy x y => let! w := ctor_copy x y w in Ok (w, OutNone)
  | Move x y => let! w := ctor_move x y w in Ok (w, OutNone)
  | Assign x y => let! w := assign x y w in Ok (w, OutNone)
  | Swap x y => let! w := swap x y w in Ok (w, OutNone)
  | Destroy x => let! w := dtor x w in Ok (w, OutNone)
  | Write x T v =>
      let! p := any_cast T (Some x) w in
      match p with
      | Some p => let! w := store T p v w in Ok (w, OutNone)
      | None => Ok (w, OutNone)
      end
  | Read x T =>
      let! p := any_cast T (Some x) w in
      match p with
      | Some p => let! v := load T p w in Ok (w, OutValue (Some (existT T v)))
      | None => Ok (w, OutValue None)
      end
  | Empty x => let! b := empty x w in Ok (w, OutBool b)
  | Type_ x => let! t := type x w in Ok (w, OutType t)
  end.

(** The specification: every object that is alive has a value of its own, or none.
    [None] where an object is used outside of its lifetime. *)
Abbreviation values := (gmap var (option Holder)).

Definition has_type (T : ty) (v : option Holder) : bool :=
  match v with Some h => bool_decide (projT1 h = T) | None => false end.

Definition spec_step (o : op) (m : values) : option (values * output) :=
  match o with
  | Default x => guard (m !! x = None);; Some (<[x := None]> m, OutNone)
  | Construct x h => guard (m !! x = None);; Some (<[x := Some h]> m, OutNone)
  | Copy x y => guard (m !! x = None);; v ← m !! y; Some (<[x := v]> m, OutNone)
  | Move x y => guard (m !! x = None);; v ← m !! y; Some (<[x := v]> (<[y := None]> m), OutNone)
  | Assign x y => _ ← m !! x; v ← m !! y; Some (<[x := v]> m, OutNone)
  | Swap x y => v ← m !! x; v' ← m !! y; Some (<[y := v]> (<[x := v']> m), OutNone)
  | Destroy x => _ ← m !! x; Some (delete x m, OutNone)
  | Write x T v =>
      h ← m !! x;
      Some (if has_type T h then <[x := Some (existT T v)]> m else m, OutNone)
  | Read x T => h ← m !! x; Some (m, OutValue (if has_type T h then h else None))
  | Empty x => h ← m !! x; Some (m, OutBool (bool_decide (h = None)))
  | Type_ x => h ← m !! x; Some (m, OutType (projT1 <$> h))
  end.

Fixpoint impl_run (os : list op) (w : world) : outcome (world * list output) :=
  match os with
  | [] => Ok (w, [])
  | o :: os =>
      let! (w, x) := impl_step o w in
      let! (w, xs) := impl_run os w in
      Ok (w, x :: xs)
  end.

Fixpoint spec_run (os : list op) (m : values) : option (values * list output) :=
  match os with
  | [] => Some (m, [])
  | o :: os => '(m, x) ← spec_step o m; '(m, xs) ← spec_run os m; Some (m, x :: xs)
  end.

(** Ownership: every holder belongs to exactly one object, and no object's pointer
    dangles; nothing is shared, leaked or freed twice. *)
Record owned (w : world) : Prop := {
  ow_live : forall x p, content_ w !! x = Some (Some p) -> is_Some (heap w !! p);
  ow_owner : forall p, is_Some (heap w !! p) -> exists x, content_ w !! x = Some (Some p);
  ow_unique : forall x y p, content_ w !! x = Some (Some p) -> content_ w !! y = Some (Some p) -> x = y;
}.

(** The value of every object. *)
Definition value_of (w : world) (c : option addr) : option Holder :=
  match c with Some p => heap w !! p | None => None end.
Definition values_of (w : world) : values := value_of w <$> content_ w.

(** ** Lemmas: the elementary changes of the world *)

Lemma values_lookup w x : values_of w !! x = value_of w <$> content_ w !! x.
Proof. apply lookup_fmap. Qed.

(** [x] owns no holder: it is not alive, or empty. *)
Definition free (x : var) (w : world) : Prop :=
  forall p, content_ w !! x <> Some (Some p).

Lemma put_None x w :
  owned w -> free x w ->
  owned (set_content x None w) /\ values_of (set_content x None w) = <[x := None]> (values_of w).
Proof.
  intros [Hl Ho Hu] Hx. split; [split; simpl|].
  - intros y p. rewrite lookup_insert_Some. naive_solver.
  - intros p Hp. destruct (Ho p Hp) as [y Hy]. exists y.
    rewrite lookup_insert_ne; [done|]. intros ->. by destruct (Hx p).
  - intros y z p. rewrite !lookup_insert_Some. naive_solver.
  - apply map_eq. intros y. unfold values_of. simpl. by rewrite fmap_insert.
Qed.

Lemma put_holder x p h w :
  owned w -> free x w -> heap w !! p = None ->
  let w' := World (<[p := h]> (heap w)) (<[x := Some p]> (content_ w)) in
  owned w' /\ values_of w' = <[x := Some h]> (values_of w).
Proof.
  intros [Hl Ho Hu] Hx Hp w'.
  assert (Hno : forall y, content_ w !! y <> Some (Some p)).
  { intros y Hy. destruct (Hl y p Hy) as [h' ?]. congruence. }
  split; [split; simpl|].
  - intros y q. rewrite !lookup_insert_Some, lookup_insert_is_Some. naive_solver.
  - intros q. rewrite lookup_insert_is_Some. intros [->|[Hne Hq]].
    { exists x. apply lookup_insert_eq. }
    destruct (Ho q Hq) as [y Hy]. exists y. rewrite lookup_insert_ne; [done|]. intros ->. by destruct (Hx q).
  - intros y z q. rewrite !lookup_insert_Some. naive_solver.
  - apply map_eq. intros y. rewrite values_lookup. simpl.
    destruct (decide (y = x)) as [->|Hne].
    { rewrite !lookup_insert_eq. simpl. by rewrite lookup_insert_eq. }
    rewrite !lookup_insert_ne by done. rewrite values_lookup.
    destruct (content_ w !! y) as [[q|]|] eqn:E; simpl; [|done..].
    rewrite lookup_insert_ne; [done|]. intros ->. by destruct (Hno y).
Qed.

Lemma drop_holder x c w :
  owned w -> content_ w !! x = Some c ->
  exists w1, delete_content c w = Ok w1 /\ content_ w1 = content_ w /\
    (forall q, heap w !! q = None -> heap w1 !! q = None) /\
    owned (set_content x None w1) /\
    values_of (set_content x None w1) = <[x := None]> (values_of w).
Proof.
  intros Hw Hx. destruct c as [p|].
  2: { exists w. split_and!; try done; apply (put_None x w Hw); intros p; by rewrite Hx. }
  destruct Hw as [Hl Ho Hu]. destruct (Hl x p Hx) as [h Hh].
  unfold delete_content, holder_at. rewrite Hh. simpl. eexists. split_and!; [done..| | |]; simpl.
  - intros q Hq. rewrite lookup_delete_None. by right.
  - assert (Hne : forall y q, x <> y -> content_ w !! y = Some (Some q) -> p <> q).
    { intros y q Hxy Hy ->. by apply Hxy, (Hu x y q). }
    split; simpl.
    + intros y q. rewrite lookup_insert_Some. intros [[_ [=]]|[Hxy Hy]].
      rewrite lookup_delete_ne by (by apply (Hne y)). eauto.
    + intros q. rewrite lookup_delete_is_Some. intros [Hpq Hq].
      destruct (Ho q Hq) as [y Hy]. exists y. rewrite lookup_insert_ne; [done|].
      intros ->. rewrite Hx in Hy. by simplify_eq.
    + intros y z q. rewrite !lookup_insert_Some. naive_solver.
  - apply map_eq. intros y. rewrite values_lookup. simpl.
    destruct (decide (y = x)) as [->|Hyx]; [by rewrite !lookup_insert_eq|].
    rewrite !lookup_insert_ne by done. rewrite values_lookup.
    destruct (content_ w !! y) as [[q|]|] eqn:E; simpl; [|done..].
    rewrite lookup_delete_ne; [done|]. intros ->. by apply Hyx, (Hu y x q).
Qed.

Lemma set_holder x p h w :
  owned w -> content_ w !! x = Some (Some p) ->
  let w' := World (<[p := h]> (heap w)) (content_ w) in
  owned w' /\ values_of w' = <[x := Some h]> (values_of w).
Proof.
  intros [Hl Ho Hu] Hx w'. split; [split; simpl|].
  - intros y q Hy. rewrite lookup_insert_is_Some'. right. eauto.
  - intros q. rewrite lookup_insert_is_Some. intros [<-|[_ Hq]]; eauto.
  - exact Hu.
  - apply map_eq. intros y. rewrite values_lookup. simpl.
    destruct (decide (y = x)) as [->|Hyx].
    { rewrite lookup_insert_eq, Hx. simpl. by rewrite lookup_insert_eq. }
    rewrite lookup_insert_ne, values_lookup by done.
    destruct (content_ w !! y) as [[q|]|] eqn:E; simpl; [|done..].
    rewrite lookup_insert_ne; [done|]. intros ->. by apply Hyx, (Hu y x q).
Qed.

(** The pointers of two objects exchanged. *)
Lemma exchange x y c c' w :
  owned w -> content_ w !! x = Some c -> content_ w !! y = Some c' ->
  let w' := set_content y c (set_content x c' w) in
  owned w' /\ values_of w' = <[y := value_of w c]> (<[x := value_of w c']> (values_of w)).
Proof.
  intros [Hl Ho Hu] Hx Hy w'. split.
  2: { apply map_eq. intros z. unfold values_of, w', set_content. simpl. by rewrite !fmap_insert. }
  split; simpl.
  - intros z p. rewrite !lookup_insert_Some. naive_solver.
  - intros p Hp. destruct (Ho p Hp) as [z Hz].
    destruct (decide (z = x)) as [->|]; [exists y; rewrite lookup_insert_eq; congruence|].
    destruct (decide (z = y)) as [->|].
    + exists x. destruct (decide (x = y)) as [->|]; [congruence|].
      rewrite lookup_insert_ne, lookup_insert_eq by done. congruence.
    + exists z. by rewrite !lookup_insert_ne.
  - intros z1 z2 p. rewrite !lookup_insert_Some.
    intros A B. destruct_or?; destruct_and?; destruct_or?; destruct_and?; subst; try done; try (by eapply Hu);
      match goal with
      | H : ?a <> ?b |- _ => by destruct H; apply (Hu a b p)
      | H : ?a <> ?b |- _ => by destruct H; apply (Hu b a p)
      end.
Qed.

(** The content of an object that is alive in the specification. *)
Lemma live_content w x v :
  values_of w !! x = Some v -> exists c, content_ w !! x = Some c /\ v = value_of w c.
Proof. rewrite values_lookup. destruct (content_ w !! x) eqn:E; naive_solver. Qed.

Lemma not_live_free w x : values_of w !! x = None -> free x w.
Proof. rewrite values_lookup. intros H p. destruct (content_ w !! x); naive_solver. Qed.

Lemma value_type w x c :
  owned w -> content_ w !! x = Some c ->
  type x w = Ok (projT1 <$> value_of w c).
Proof.
  intros [Hl _ _] Hx. unfold type, content_of. rewrite Hx. simpl.
  destruct c as [p|]; [|done]. destruct (Hl x p Hx) as [h Hh].
  unfold holder_at. simpl. by rewrite Hh.
Qed.

(** [any_cast] finds the held object exactly when it has the type. *)
Lemma any_cast_spec T w x c :
  owned w -> content_ w !! x = Some c ->
  (exists p v, c = Some p /\ any_cast T (Some x) w = Ok (Some p) /\
     heap w !! p = Some (existT T v) /\ load T p w = Ok v /\ has_type T (value_of w c) = true) \/
  (any_cast T (Some x) w = Ok None /\ has_type T (value_of w c) = false).
Proof.
  intros Hw Hx. unfold any_cast. rewrite (value_type w x c Hw Hx). cbn [obind].
  destruct c as [p|]; [|by right].
  destruct (ow_live _ Hw x p Hx) as [[T' v] Hh]. simpl. rewrite Hh. simpl.
  destruct (decide (T' = T)) as [->|Hne].
  - left. exists p, v. rewrite bool_decide_eq_true_2 by done.
    unfold content_of, holder_at, load, holder_at. rewrite Hx. simpl. rewrite Hh. simpl.
    unfold as_type. simpl. rewrite decide_True_pi with (HP := eq_refl). simpl.
    split_and!; try done. by rewrite bool_decide_eq_true_2.
  - right. rewrite !bool_decide_eq_false_2 by naive_solver. done.
Qed.

Section allocated.
Hypothesis new_addr_free : forall used, new_addr used ∉ used.

Lemma new_addr_heap w : heap w !! new_addr (dom (heap w)) = None.
Proof. apply not_elem_of_dom, new_addr_free. Qed.

(** What [Any(other)] makes of the content of [other]: nothing, or a new holder. *)
Lemma copy_content_spec y c w :
  owned w -> content_ w !! y = Some c ->
  (value_of w c = None /\ copy_content y w = Ok (None, w)) \/
  exists q h, value_of w c = Some h /\ heap w !! q = None /\
    copy_content y w = Ok (Some q, World (<[q := h]> (heap w)) (content_ w)).
Proof.
  intros Hw Hy. unfold copy_content, content_of. rewrite Hy. cbn [obind].
  destruct c as [p|]; [|by left]. right.
  destruct (ow_live _ Hw y p Hy) as [h Hh]. exists (new_addr (dom (heap w))), h.
  split_and!; [done | apply new_addr_heap|].
  unfold clone, holder_at. by rewrite Hh.
Qed.

Lemma ctor_copy_spec x y c w :
  owned w -> free x w -> content_ w !! y = Some c ->
  exists w', ctor_copy x y w = Ok w' /\ owned w' /\
    values_of w' = <[x := value_of w c]> (values_of w).
Proof.
  intros Hw Hx Hy. unfold ctor_copy.
  destruct (copy_content_spec y c w Hw Hy) as [[-> ->]|(q & h & -> & Hq & ->)]; cbn [obind].
  - eexists. split; [done|]. by apply put_None.
  - eexists. split; [done|]. by apply (put_holder x q h w).
Qed.

Lemma delete_set_content c x t w w1 :
  delete_content c w = Ok w1 -> delete_content c (set_content x t w) = Ok (set_content x t w1).
Proof.
  destruct c as [p|]; [|by intros [= <-]]. unfold delete_content, holder_at. simpl.
  destruct (heap w !! p); [|done]. by intros [= <-].
Qed.

Lemma assign_spec x y c c' w :
  owned w -> content_ w !! x = Some c -> content_ w !! y = Some c' ->
  exists w', assign x y w = Ok w' /\ owned w' /\
    values_of w' = <[x := value_of w c']> (values_of w).
Proof.
  intros Hw Hx Hy. unfold assign, content_of.
  destruct (drop_holder x c w Hw Hx) as (w1 & Hd & Ec & Hn & Ho & Hv).
  destruct (copy_content_spec y c' w Hw Hy) as [[-> ->]|(q & h & -> & Hq & ->)]; cbn [obind].
  - rewrite Hx. cbn [obind]. rewrite (delete_set_content _ _ _ _ _ Hd). eauto.
  - cbn [content_]. rewrite Hx. cbn [obind].
    assert (Hd' : delete_content c (World (<[q := h]> (heap w)) (content_ w)) =
      Ok (World (<[q := h]> (heap w1)) (content_ w))).
    { destruct c as [p|]; simpl in *; [|by simplify_eq].
      unfold holder_at in *. simpl in *. destruct (heap w !! p) as [hp|] eqn:Hp; simplify_eq/=.
      rewrite lookup_insert_ne by congruence. rewrite Hp. simpl.
      by rewrite delete_insert_ne by congruence. }
    rewrite (delete_set_content _ _ _ _ _ Hd'). eexists. split; [done|].
    destruct (put_holder x q h (set_content x None w1) Ho) as [Ho' Hv'].
    { intros p. simpl. by rewrite lookup_insert_eq. }
    { by apply Hn. }
    simpl in Ho', Hv'. rewrite insert_insert_eq, Ec in Ho', Hv'.
    unfold set_content. simpl. split; [done|]. by rewrite Hv', Hv, insert_insert_eq.
Qed.

Lemma dtor_spec x c w :
  owned w -> content_ w !! x = Some c ->
  exists w', dtor x w = Ok w' /\ owned w' /\ values_of w' = delete x (values_of w).
Proof.
  intros Hw Hx. unfold dtor, content_of. rewrite Hx. cbn [obind].
  destruct (drop_holder x c w Hw Hx) as (w1 & -> & Ec & _ & [Hl Ho Hu] & Hv). cbn [obind].
  eexists. split; [done|]. simpl in Hl, Ho, Hu. rewrite Ec in Hl, Ho, Hu.
  assert (Hi : forall z p, delete x (content_ w) !! z = Some (Some p) <->
    <[x := None]> (content_ w) !! z = Some (Some p)).
  { intros z p. rewrite lookup_delete_Some, lookup_insert_Some. naive_solver. }
  split; [split; simpl|].
  - intros z p. rewrite Ec, Hi. apply Hl.
  - intros p Hp. destruct (Ho p Hp) as [z Hz]. exists z. by rewrite Ec, Hi.
  - intros y z p. rewrite Ec, !Hi. apply Hu.
  - unfold values_of in *. simpl in *. rewrite Ec in Hv |- *. rewrite fmap_delete.
    rewrite fmap_insert in Hv. apply (f_equal (delete x)) in Hv.
    by rewrite !delete_insert_eq in Hv.
Qed.

Lemma ctor_move_spec y z c w :
  owned w -> free y w -> content_ w !! z = Some c ->
  exists w', ctor_move y z w = Ok w' /\ owned w' /\
    values_of w' = <[y := value_of w c]> (<[z := None]> (values_of w)).
Proof.
  intros Hw Hf Hz. unfold ctor_move, content_of. rewrite Hz. cbn [obind].
  assert (Hyz : y <> z \/ c = None).
  { destruct c as [p|]; [left|by right]. intros ->. by destruct (Hf p). }
  destruct (put_None y w) as [Ho Hv]; [done..|].
  destruct (exchange y z None c (set_content y None w)) as [Ho' Hv']; [done| | |].
  { simpl. apply lookup_insert_eq. }
  { simpl. destruct (decide (y = z)) as [->|]; [|by rewrite lookup_insert_ne].
    rewrite lookup_insert_eq. destruct Hyz; congruence. }
  unfold set_content in *. simpl in *.
  assert (E : forall A (m : gmap Z (option A)) v, (y = z -> v = None) ->
    <[y := v]> (<[z := None]> m) = <[z := None]> (<[y := v]> (<[y := None]> m))).
  { intros A m v Hyz'. rewrite insert_insert_eq.
    destruct (decide (y = z)) as [E|]; [|by rewrite insert_insert_ne]. by rewrite (Hyz' E), E. }
  rewrite E by (intros ->; by destruct Hyz). eexists. split_and!; [done..|]. rewrite Hv', Hv.
  symmetry. apply E. intros ->. by destruct Hyz as [| ->].
Qed.

#[local] Arguments any_cast : simpl never.
#[local] Arguments load : simpl never.
#[local] Arguments type : simpl never.

Lemma step_refines_values o w m x :
  owned w -> spec_step o (values_of w) = Some (m, x) ->
  exists w', impl_step o w = Ok (w', x) /\ owned w' /\ values_of w' = m.
Proof.
  intros Hw Hs.
  destruct o as [y|y h|y z|y z|y z|y z|y|y T v|y T|y|y];
    cbn [impl_step spec_step] in *;
    repeat (apply bind_Some in Hs as (? & ? & Hs)); simplify_option_eq;
    repeat match goal with
    | H : values_of w !! ?z = Some ?v |- _ =>
        apply live_content in H as (? & ? & ->)
    | H : values_of w !! ?z = None |- _ => apply not_live_free in H
    end.
  - destruct (put_None y w) as [? ?]; [done..|]. eexists. split_and!; done.
  - unfold ctor_value. simpl.
    destruct (put_holder y (new_addr (dom (heap w))) h w) as [? ?]; [done | done | apply new_addr_heap|].
    eexists. split_and!; done.
  - edestruct (ctor_copy_spec y z) as (w' & -> & ? & ?); [done..|]. cbn [obind]. eauto.
  - edestruct (ctor_move_spec y z) as (w' & -> & ? & ?); [done..|]. cbn [obind]. eauto.
  - edestruct (assign_spec y z) as (w' & -> & ? & ?); [done..|]. cbn [obind]. eauto.
  - unfold swap, content_of. repeat match goal with H : content_ w !! _ = Some _ |- _ => rewrite H; revert H end.
    intros Hy Hz. cbn [obind]. edestruct (exchange y z) as [? ?]; [done..|]. eexists. split_and!; done.
  - edestruct (dtor_spec y) as (w' & -> & ? & ?); [done..|]. cbn [obind]. eauto.
  - match goal with H : content_ w !! y = Some ?c |- _ => pose proof (any_cast_spec T w y c Hw H) as [Hc|[-> ->]] end.
    + destruct Hc as (p & v' & -> & -> & Hp & Hload & ->). cbn [obind]. unfold store.
      unfold load in Hload. destruct (holder_at p w) as [h|]; [|done]. cbn [obind] in *.
      rewrite Hload. cbn [obind]. edestruct (set_holder y p (existT T v) w) as [? ?]; [done..|].
      eexists. split_and!; done.
    + cbn [obind]. eauto.
  - match goal with H : content_ w !! y = Some ?c |- _ => pose proof (any_cast_spec T w y c Hw H) as [Hc|[-> ->]] end.
    + destruct Hc as (p & v & -> & -> & Hp & Hl & ->). cbn [obind value_of]. rewrite Hl. cbn [obind]. exists w. split; [|done]. do 3 f_equal. by symmetry.
    + cbn [obind]. eauto.
  - unfold empty, content_of. match goal with H : content_ w !! y = Some ?c |- _ => rewrite H; rename H into Hy, c into cy end.
    cbn [obind]. exists w. split_and!; [|done..]. do 3 f_equal. apply bool_decide_ext.
    destruct cy as [p|]; [|done]. destruct (ow_live _ Hw y p Hy) as [h Hh]. simpl. rewrite Hh. done.
  - erewrite value_type by done. cbn [obind]. eauto.
Qed.

Lemma run_refines_values os : forall w m xs,
  owned w -> spec_run os (values_of w) = Some (m, xs) ->
  exists w', impl_run os w = Ok (w', xs) /\ owned w' /\ values_of w' = m.
Proof.
  induction os as [|o os IH]; intros w m xs Hw Hs; simpl in Hs; [simplify_eq; by exists w|].
  apply bind_Some in Hs as ([m1 x] & Hs1 & Hs). apply bind_Some in Hs as ([m2 xs'] & Hs2 & [= <- <-]).
  destruct (step_refines_values o w m1 x Hw Hs1) as (w1 & E1 & Hw1 & <-).
  destruct (IH w1 m2 xs' Hw1 Hs2) as (w2 & E2 & Hw2 & Hv). exists w2. simpl. by rewrite E1; simpl; rewrite E2.
Qed.

Lemma world0_owned : owned world0.
Proof. split; simpl; [intros x p|intros p|intros x y p]; rewrite lookup_empty; by try intros [? [=]]. Qed.

(** ** Properties *)

(** C37. Refinement: every program that uses objects only while they are alive computes
    what the same program computes on independent optional values (a copy is a value of
    its own, a moved-from object is empty), never frees or uses a holder that is not
    there, and has freed every holder once its objects are destroyed. *)
Theorem any_refines_values (os : list op) (m : values) (xs : list output) :
  spec_run os ∅ = Some (m, xs) ->
  exists w, impl_run os world0 = Ok (w, xs) /\ owned w /\ values_of w = m /\
    (m = ∅ -> heap w = ∅).
Proof.
  intros Hs. destruct (run_refines_values os world0 m xs world0_owned) as (w & E & Hw & Hv); [exact Hs|].
  exists w. split_and!; [done..|]. intros ->. apply map_eq. intros p. rewrite lookup_empty.
  destruct (heap w !! p) as [h|] eqn:Hp; [|done].
  destruct (ow_owner _ Hw p) as [x Hx]; [eauto|].
  pose proof (values_lookup w x) as H. by rewrite Hv, Hx, lookup_empty in H.
Qed.

(** C36. Type safety: in every state a program reaches, [any_cast<T>] of a living object
    returns a pointer exactly when the object holds a [T]; the pointer reads the held
    value as a [T], and a write through it changes the value of this object and of no
    other one. *)
Theorem any_cast_type_safe (os : list op) (w : world) (xs ys : list output) (m : values)
    (x : var) (v : option Holder) (T : ty) :
  spec_run os ∅ = Some (m, xs) ->
  impl_run os world0 = Ok (w, ys) ->
  m !! x = Some v ->
  exists r, any_cast T (Some x) w = Ok r /\
    (r <> None <-> projT1 <$> v = Some T) /\
    forall p, r = Some p ->
      (exists u, v = Some (existT T u) /\ load T p w = Ok u) /\
      forall u, exists w', store T p u w = Ok w' /\ owned w' /\
        values_of w' = <[x := Some (existT T u)]> m.
Proof.
  intros Hs Hi Hx. destruct (run_refines_values os world0 m xs world0_owned Hs) as (w1 & E & Hw & <-).
  rewrite Hi in E. simplify_eq. apply live_content in Hx as (c & Hc & ->).
  destruct (any_cast_spec T w1 x c Hw Hc) as [(p & u & -> & E & Hp & Hl & _)|[E Ht]];
    eexists; split; [exact E| |exact E|].
  - assert (value_of w1 (Some p) = Some (existT T u)) as -> by exact Hp.
    split; [done|]. intros ? [= <-]. split; [by exists u|]. intros u'.
    unfold load in Hl. unfold store. destruct (holder_at p w1) as [h|]; [|done]. cbn [obind] in *.
    rewrite Hl. cbn [obind]. destruct (set_holder x p (existT T u') w1 Hw Hc) as [? ?]. eauto.
  - split; [|done]. split; [done|]. intros H. unfold has_type in Ht.
    destruct (value_of w1 c) as [h|]; [|done]. simpl in H. case_bool_decide; [done|congruence].
Qed.
End allocated.

End any.

(** A program with integers and strings. *)
Inductive test_ty := TInt | TString.
#[export] Instance test_ty_eq_dec : EqDecision test_ty.
Proof. solve_decision. Defined.
Definition test_val (T : test_ty) : Type := match T with TInt => Z | TString => bytes end.

(** The lowest free address above 1000. *)
Definition test_new (used : gset Z) : Z := 1 + set_fold Z.max 1000 used.

Lemma test_new_free used : test_new used ∉ used.
Proof.
  assert (H : forall x, x ∈ used -> x <= set_fold Z.max 1000 used).
  2: { intros Hin%H. unfold test_new in Hin. lia. }
  apply (set_fold_ind_L (fun b X => forall x, x ∈ X -> x <= b)); [set_solver|].
  intros x X r _ IH y [->%elem_of_singleton|Hy]%elem_of_union; [lia|]. specialize (IH y Hy). lia.
Qed.

Definition test_program : list (op test_val) :=
  [Construct _ 1 (existT TInt 42); Copy _ 2 1; Write _ 2 TInt 7; Read _ 1 TInt; Read _ 2 TInt;
   Read _ 2 TString; Default _ 3; Assign _ 3 1; Move _ 4 1; Empty _ 1; Swap _ 3 4; Assign _ 2 2;
   Type_ _ 4; Destroy _ 2].

Definition test_values : gmap Z (option (Holder test_val)) :=
  <[1 := None]> (<[3 := Some (existT TInt 42)]> (<[4 := Some (existT TInt 42)]> ∅)).

Lemma any_refines_values_witness :
  exists w, impl_run test_val test_new test_program (world0 test_val) =
      Ok (w, [OutNone _; OutNone _; OutNone _; OutValue _ (Some (existT TInt 42));
              OutValue _ (Some (existT TInt 7)); OutValue _ None; OutNone _; OutNone _; OutNone _;
              OutBool _ true; OutNone _; OutNone _; OutType _ (Some TInt); OutNone _]) /\
    owned test_val w /\ values_of test_val w = test_values /\
    (test_values = ∅ -> heap _ w = ∅).
Proof.
  apply (any_refines_values test_val test_new test_new_free test_program).
  vm_compute. reflexivity.
Defined.

Definition test_heap : world test_val :=
  match impl_run test_val test_new test_program (world0 test_val) with
  | Ok (w, _) => w
  | Fault _ => world0 test_val
  end.

Lemma any_cast_type_safe_witness :
  exists r, any_cast test_val TInt (Some 3) test_heap = Ok r /\
    (r <> None <-> Some TInt = Some TInt) /\
    forall p, r = Some p ->
      (exists u, Some (existT TInt (42 : Z)) = Some (existT TInt u) /\
         load test_val TInt p test_heap = Ok u) /\
      forall u, exists w', store test_val TInt p u test_heap = Ok w' /\ owned test_val w' /\
        values_of test_val w' = <[3 := Some (existT TInt u)]> test_values.
Proof.
  eapply (any_cast_type_safe test_val test_new test_new_free test_program test_heap _ _ test_values 3
    (Some (existT TInt (42 : Z))) TInt); vm_compute; reflexivity.
Defined.

End Any.
