(* ===== verification/Thread.v ===== *)
(** * Thread and CurrentThread: src/src/base/Thread.{h,cpp} and
    src/src/base/CurrentThread.{h,cpp}

    The wrapper of [std::thread] (the thread that runs is an effect) and the cached thread
    identifier.  The kernel's thread identifiers are arguments. *)

From S2P Require Import Prelude Digits.

Module Thread.

Record t := mk {
  name_ : bytes;
  started_ : bool;
  joined_ : bool;
  thread_ : bool;      (** the [shared_ptr] is not null *)
}.

(** What the operations do to the [std::thread]. *)
Inductive effect := Spawn | Join | Detach.

Definition M := ST t effect.

(** [setDefaultName] counts every thread in [numCreated_] and names those without name. *)
Definition setDefaultName (numCreated : Z) (name : bytes) : Z * bytes :=
  let num := s32 (numCreated + 1) in
  (num, if bool_decide (name = []) then str "Thread" ++ Digits.to_string num else name).

(** The constructor: the object and the new value of [numCreated_]. *)
Definition make (name : bytes) (numCreated : Z) : t * Z :=
  let '(num, name) := setDefaultName numCreated name in
  (mk name false false false, num).

Definition started (s : t) : bool := started_ s.
Definition name (s : t) : bytes := name_ s.

Definition start : M unit :=
  st_modify (fun s => mk (name_ s) true (joined_ s) (thread_ s)) ;;;
  st_tell [Spawn] ;;;
  st_modify (fun s => mk (name_ s) (started_ s) (joined_ s) true).

Definition join : M unit :=
  st_modify (fun s => mk (name_ s) (started_ s) true (thread_ s)) ;;;
  let* s := st_get in
  st_lift (require (thread_ s) NullDereference (Ok tt)) ;;;
  st_tell [Join].

(** [~Thread]. *)
Definition destroy : M unit :=
  let* s := st_get in
  st_when (started_ s && negb (joined_ s))
    (st_lift (require (thread_ s) NullDereference (Ok tt)) ;;; st_tell [Detach]).

(** The effects of a thread object that is started, perhaps joined, and destroyed. *)
Definition lifetime (joins : bool) : M unit := start ;;; st_when joins join ;;; destroy.

(** A started thread is joined or detached, never both and never neither: the
    [std::thread] is not joinable any more when its owner goes. *)
Lemma lifetime_effects name n joins :
  exists s, lifetime joins (make name n).1 =
    Ok (tt, s, [Spawn; if joins then Join else Detach]).
Proof. by destruct joins; eexists. Qed.

(** A thread that was never started is left alone, and joining it is an error. *)
Lemma unstarted name n :
  destroy (make name n).1 = Ok (tt, (make name n).1, []) /\
  join (make name n).1 = Fault NullDereference.
Proof. done. Qed.

(** Threads without name get different names, as long as the counter does not wrap. *)
Lemma default_names_distinct n m :
  0 <= n < 2^31 - 1 -> 0 <= m < 2^31 - 1 ->
  name ((make [] n).1) = name ((make [] m).1) -> n = m.
Proof.
  intros Hn Hm. unfold name, make, setDefaultName. simpl. intros [= E].
  assert (Hs : forall k, 0 <= k < 2^31 - 1 -> s32 (k + 1) = k + 1)
    by (intros k Hk; unfold s32; rewrite Z.mod_small; lia).
  rewrite (Hs n Hn), (Hs m Hm) in E.
  apply Digits.to_string_inj in E; unfold SIZE_MAX; lia.
Qed.

End Thread.

Module CurrentThread.

(** The thread-local variables of one thread. *)
Record t := mk {
  t_cachedTid : Z;
  t_tidString : bytes;          (** the characters before the terminating null *)
  t_tidStringLength : Z;
  t_threadName : bytes;
}.

Definition make : t := mk 0 [] 6 (str "unknown").

(** The size of [t_tidString]. *)
Definition tidString_size : Z := 32.

(** [snprintf(buf, size, "%d", n)]: what it writes, and the length it returns. *)
Definition snprintf_int (size n : Z) : bytes * Z :=
  let s := Digits.to_string n in (take (Z.to_nat (size - 1)) s, blen s).

Section kernel.
(** What the system call answers on this thread. *)
Variable gettid : Z.

Definition cacheTid (s : t) : t :=
  if t_cachedTid s =? 0 then
    let '(text, len) := snprintf_int tidString_size gettid in
    mk gettid text len (t_threadName s)
  else s.

Definition tid (s : t) : Z * t :=
  let s := if t_cachedTid s =? 0 then cacheTid s else s in
  (t_cachedTid s, s).

Definition tidString (s : t) : bytes := t_tidString s.
Definition tidStringLength (s : t) : Z := t_tidStringLength s.
Definition name (s : t) : bytes := t_threadName s.

(** The cache holds nothing, or the identifier with its text. *)
Definition cached (s : t) : Prop :=
  t_cachedTid s = 0 \/
  (t_cachedTid s = gettid /\ tidString s = Digits.to_string gettid /\
   tidStringLength s = blen (tidString s)).

(** [tid] answers the identifier however often it was called before, and afterwards the
    text of the identifier is whole and its length is right. *)
Lemma tid_spec s :
  0 < gettid < 2^31 -> cached s ->
  let '(r, s') := tid s in
  r = gettid /\ cached s' /\ tidString s' = Digits.to_string gettid /\
  tidStringLength s' = blen (tidString s').
Proof.
  intros Hg Hs. unfold tid, cacheTid. destruct (t_cachedTid s =? 0) eqn:E; zbool; simpl.
  - assert (Hl : take (Z.to_nat (tidString_size - 1)) (Digits.to_string gettid) =
      Digits.to_string gettid).
    { apply take_ge. pose proof (Digits.to_string_length 10 gettid ltac:(lia)) as H.
      change (10 ^ Z.of_nat 10) with 10000000000 in H.
      specialize (H ltac:(lia)). unfold blen in H. unfold tidString_size. lia. }
    unfold cached, tidString, tidStringLength. simpl. rewrite Hl. auto 6.
  - destruct Hs as [?|(? & ? & ?)]; [done|]. unfold cached. auto 6.
Qed.
End kernel.

End CurrentThread.
