(* ===== verification/LogStream.v ===== *)
(** * LogStream: src/src/base/LogStream.h and src/src/base/Logger.{h,cpp}

    [FixedBuffer] is a memory of fixed size with a cursor; an append that does not
    fit is skipped whole.  A [Logger] renders one record into its stream and hands it
    to the output function in its destructor: its calls of the output and flush
    functions and of [abort] are effects. *)

From Stdlib Require Import SpecFloat.
From S2P Require Import Prelude Buffer Digits.

(** ** std::to_string of a double *)

Module DoubleText.

(** [n / d] rounded to the nearest integer, ties to even. *)
Definition rounded_div (n d : Z) : Z :=
  let q := n / d in
  let r := n mod d in
  if (2 * r <? d) || ((2 * r =? d) && Z.even q) then q else q + 1.

(** [m * 2^e] in millionths. *)
Definition millionths (m : positive) (e : Z) : Z :=
  if 0 <=? e then Z.pos m * 2^e * 10^6 else rounded_div (Z.pos m * 10^6) (2^(- e)).

(** A number of millionths as [printf]'s [%f] writes it: at least one digit, the point and
    six digits. *)
Definition fixed (n : Z) : bytes :=
  Digits.digits (S (Z.to_nat (Z.log2 (n / 10^6)))) (n / 10^6) [] ++ str "." ++
  Digits.padded 6 (n mod 10^6).

Definition sign (negative : bool) : bytes := if negative then str "-" else [].

(** [std::to_string(double)] is [%f]; the sign of a NaN, which a [spec_float] does not
    keep, is given apart. *)
Definition to_string (nan_negative : bool) (v : spec_float) : bytes :=
  match v with
  | S754_zero s => sign s ++ fixed 0
  | S754_infinity s => sign s ++ str "inf"
  | S754_nan => sign nan_negative ++ str "nan"
  | S754_finite s m e => sign s ++ fixed (millionths m e)
  end.

(** The text is within half a millionth of the value. *)
Lemma rounded_div_error n d : 0 < d -> Z.abs (2 * (rounded_div n d * d - n)) <= d.
Proof.
  intros Hd. unfold rounded_div. pose proof (Z.div_mod n d). pose proof (Z.mod_pos_bound n d Hd).
  destruct (_ || _) eqn:E.
  - apply orb_true_iff in E as [E|E]; zbool; lia.
  - apply orb_false_iff in E as [E _]. zbool. lia.
Qed.

Lemma rounded_div_nonneg n d : 0 <= n -> 0 < d -> 0 <= rounded_div n d.
Proof.
  intros Hn Hd. unfold rounded_div. pose proof (Z.div_pos n d Hn Hd). destruct (_ || _); lia.
Qed.

Lemma millionths_nonneg m e : 0 <= millionths m e.
Proof.
  unfold millionths. destruct (0 <=? e) eqn:E; zbool.
  - pose proof (Z.pow_pos_nonneg 2 e). nia.
  - apply rounded_div_nonneg; [lia|]. apply Z.pow_pos_nonneg; lia.
Qed.

(** The digits are those of the number of millionths. *)
Lemma fixed_value n :
  0 <= n -> exists i f, fixed n = i ++ str "." ++ f /\ i <> [] /\ length f = 6%nat /\
    forallb Digits.is_digit (i ++ f) = true /\ Digits.value 0 (i ++ f) = n.
Proof.
  intros Hn. assert (Hq : 0 <= n / 10^6) by (apply Z.div_pos; lia). unfold fixed.
  do 2 eexists. split; [reflexivity|]. split; [by apply Digits.digits_nonempty|].
  split; [apply Digits.padded_length|]. split.
  - rewrite forallb_app, Digits.padded_digits, Digits.digits_are_digits; done.
  - rewrite Digits.value_app, Digits.value_digits, Digits.padded_value.
    + change (10 ^ Z.of_nat 6) with (10^6). rewrite Z.mod_mod by lia.
      change (Digits.value (n / 10^6) []) with (n / 10^6). pose proof (Z.div_mod n (10^6)). lia.
    + split; [done|]. rewrite Nat2Z.inj_succ, Z2Nat.id by apply Z.log2_nonneg.
      destruct (Z.eq_dec (n / 10^6) 0) as [->|]; [done|].
      pose proof (Z.log2_spec (n / 10^6)). pose proof (Z.log2_nonneg (n / 10^6)).
      assert (2 ^ Z.succ (Z.log2 (n / 10^6)) <= 10 ^ Z.succ (Z.log2 (n / 10^6))) by (apply Z.pow_le_mono_l; lia).
      lia.
Qed.

Example to_string_tenth : to_string false (S754_finite false 7205759403792794 (-56)) = str "0.100000".
Proof. vm_compute. reflexivity. Qed.
(** 1/128 is a tie. *)
Example to_string_tie : to_string false (S754_finite true 1 (-7)) = str "-0.007812".
Proof. vm_compute. reflexivity. Qed.
Example to_string_small : to_string false (S754_finite false 1 (-1074)) = str "0.000000".
Proof. vm_compute. reflexivity. Qed.
(** The largest double has 316 characters. *)
Example longest_text :
  blen (to_string false (S754_finite false (2^53 - 1) 971)) = 316.
Proof. vm_compute. reflexivity. Qed.

End DoubleText.

(** ** FixedBuffer *)

Module FixedBuffer.

Definition kSmallBuffer : Z := 4000.
Definition kLargeBuffer : Z := 4000 * 1000.

(** [data_] and the offset of [cur_]; SIZE is the length of [data_]. *)
Record t := mk { data_ : bytes; cur_ : Z }.

Definition SIZE (b : t) : Z := blen (data_ b).

(** The constructor leaves the memory as it is. *)
Definition make (mem : bytes) : t := mk mem 0.

Definition length (b : t) : Z := s32 (cur_ b).
Definition avail (b : t) : Z := s32 (SIZE b - cur_ b).

Definition append (buf : bytes) (b : t) : outcome t :=
  if blen buf <? u64 (avail b) then
    let! d := Buffer.copy_in buf (cur_ b) (data_ b) in
    Ok (mk d (cur_ b + blen buf))
  else Ok b.

Definition reset (b : t) : t := mk (data_ b) 0.
Definition bzero (b : t) : t := mk (replicate (List.length (data_ b)) (chr 0)) (cur_ b).
Definition add (len : Z) (b : t) : t := mk (data_ b) (cur_ b + len).

(** [data()], [length()]: what was appended. *)
Definition contents (b : t) : bytes := take (Z.to_nat (length b)) (data_ b).

Record wf (b : t) : Prop := {
  wf_cur : 0 <= cur_ b <= SIZE b;
  wf_size : SIZE b < 2^31;
}.

(** The abstract behaviour of an append: all of the piece or nothing. *)
Definition append_spec (size : Z) (s buf : bytes) : bytes :=
  if blen s + blen buf <? size then s ++ buf else s.

Lemma s32_small x : 0 <= x < 2^31 -> s32 x = x.
Proof. intros. unfold s32. rewrite Z.mod_small; lia. Qed.

Lemma length_wf b : wf b -> length b = cur_ b.
Proof. intros [? ?]. apply s32_small. lia. Qed.

Lemma avail_wf b : wf b -> avail b = SIZE b - cur_ b.
Proof. intros [? ?]. apply s32_small. lia. Qed.

Lemma fixed_contents_length b : wf b -> blen (contents b) = cur_ b.
Proof.
  intros Hwf. unfold contents. rewrite length_wf by done. destruct Hwf as [Hc _].
  unfold SIZE, blen in *. rewrite length_take. lia.
Qed.

Lemma fixed_make_wf mem : blen mem < 2^31 -> wf (make mem) /\ contents (make mem) = [].
Proof. intros H. split; [|done]. pose proof (blen_nonneg mem). split; unfold SIZE; simpl; lia. Qed.

Lemma reset_wf b : wf b -> wf (reset b) /\ contents (reset b) = [].
Proof. intros [? ?]. split; [|done]. split; unfold SIZE in *; simpl in *; lia. Qed.

Lemma append_ok b buf :
  wf b ->
  exists b', append buf b = Ok b' /\ wf b' /\ SIZE b' = SIZE b /\
    contents b' = append_spec (SIZE b) (contents b) buf.
Proof.
  intros Hwf. pose proof (blen_nonneg buf). unfold append, append_spec.
  rewrite fixed_contents_length, avail_wf by done. pose proof Hwf as [Hc Hs].
  rewrite u64_small by lia.
  replace (blen buf <? SIZE b - cur_ b) with (cur_ b + blen buf <? SIZE b)
    by (destruct (Z.ltb_spec (cur_ b + blen buf) (SIZE b));
        destruct (Z.ltb_spec (blen buf) (SIZE b - cur_ b)); lia || done).
  destruct (_ <? _) eqn:E; zbool; [|by exists b].
  unfold Buffer.copy_in. unfold SIZE, blen in *.
  rewrite require_true by (apply andb_true_iff; split; apply Z.leb_le; lia).
  simpl. eexists. split; [done|].
  assert (Hl : List.length (overwrite (cur_ b) buf (data_ b)) = List.length (data_ b))
    by (apply length_overwrite; lia).
  assert (Hwf' : wf (mk (overwrite (cur_ b) buf (data_ b)) (cur_ b + blen buf))).
  { split; unfold SIZE, blen; simpl; rewrite Hl; lia. }
  split_and!; [exact Hwf' | simpl; by rewrite Hl |].
  unfold contents. rewrite !length_wf by done. cbn [cur_ data_]. unfold blen.
  pose proof (slice_overwrite_end 0 (cur_ b) buf (data_ b)) as Hsl. unfold slice in Hsl.
  rewrite !Z.sub_0_r, !drop_0 in Hsl. apply Hsl; lia.
Qed.

End FixedBuffer.

(** ** LogStream *)

Module LogStream.

Definition t := FixedBuffer.t.

(** The operands of [operator<<]. *)
Inductive item :=
| IBool (v : bool)
| ICStr (s : option bytes)     (** [const char*]: null, or the memory it points to *)
| IString (s : bytes)          (** [std::string], [std::string_view] *)
| IInt (v : Z)                 (** the integer types, through [formatInteger] *)
| IDouble (nan_negative : bool) (v : spec_float)
| IChar (c : ascii).

Definition NUL : ascii := chr 0.

(** [strlen]: the bytes before the first NUL. *)
Definition c_string (s : bytes) : bytes := take (find_char NUL s) s.

Definition render (i : item) : bytes :=
  match i with
  | IBool v => if v then str "1" else str "0"
  | ICStr (Some s) => c_string s
  | ICStr None => str "(null)"
  | IString s => s
  | IInt v => Digits.to_string v
  | IDouble nan_negative v => DoubleText.to_string nan_negative v
  | IChar c => [c]
  end.

Definition put (i : item) (s : t) : outcome t := FixedBuffer.append (render i) s.

Fixpoint puts (l : list item) (s : t) : outcome t :=
  match l with
  | [] => Ok s
  | i :: l => let! s := put i s in puts l s
  end.

(** The abstract stream: pieces that do not fit are skipped. *)
Definition puts_spec (size : Z) (l : list item) (s : bytes) : bytes :=
  foldl (fun s i => FixedBuffer.append_spec size s (render i)) s l.

Definition rendered (l : list item) : bytes := flat_map render l.

Lemma puts_ok l s :
  FixedBuffer.wf s ->
  exists s', puts l s = Ok s' /\ FixedBuffer.wf s' /\
    FixedBuffer.SIZE s' = FixedBuffer.SIZE s /\
    FixedBuffer.contents s' = puts_spec (FixedBuffer.SIZE s) l (FixedBuffer.contents s).
Proof.
  revert s. induction l as [|i l IH]; intros s Hwf; [by exists s|]. cbn [puts].
  destruct (FixedBuffer.append_ok s (render i) Hwf) as (s1 & H1 & Hw1 & Hs1 & Hc1).
  unfold put. rewrite H1. simpl.
  destruct (IH s1 Hw1) as (s2 & H2 & Hw2 & Hs2 & Hc2). exists s2.
  split_and!; [done | done | congruence |]. by rewrite Hc2, Hc1, Hs1.
Qed.

Lemma puts_app l l' s : puts (l ++ l') s = let! s := puts l s in puts l' s.
Proof.
  revert s. induction l as [|i l IH]; intros s; cbn [puts app]; [done|].
  destruct (put i s); cbn [obind]; [apply IH | done].
Qed.

(** Everything fits. *)
Lemma puts_spec_fits size l s :
  blen s + blen (rendered l) < size -> puts_spec size l s = s ++ rendered l.
Proof.
  revert s. unfold puts_spec, rendered. induction l as [|i l IH]; intros s H; simpl.
  - by rewrite app_nil_r.
  - cbn [flat_map] in H. rewrite blen_app in H. pose proof (blen_nonneg (flat_map render l)).
    unfold FixedBuffer.append_spec at 2. rewrite (proj2 (Z.ltb_lt _ _)) by lia.
    rewrite IH by (rewrite blen_app; lia). by rewrite <- app_assoc.
Qed.

(** Nothing is ever written beyond the buffer. *)
Lemma puts_spec_bound size l s : blen s <= size -> blen (puts_spec size l s) <= size.
Proof.
  revert s. unfold puts_spec. induction l as [|i l IH]; intros s H; simpl; [done|].
  apply IH. unfold FixedBuffer.append_spec. destruct (_ <? _) eqn:E; zbool; [|done].
  rewrite blen_app. lia.
Qed.

(** The log stream never overruns its buffer: inserting any sequence of items
    faults never, and leaves the text that the abstract stream has, which takes each
    piece whole or not at all; when all the pieces together are shorter than the
    buffer, that is their concatenation, in order. *)
Theorem stream_refines_text (mem : bytes) (l : list item) :
  blen mem = FixedBuffer.kSmallBuffer ->
  exists s, puts l (FixedBuffer.make mem) = Ok s /\
    FixedBuffer.contents s = puts_spec FixedBuffer.kSmallBuffer l [] /\
    blen (FixedBuffer.contents s) <= FixedBuffer.kSmallBuffer /\
    (blen (rendered l) < FixedBuffer.kSmallBuffer -> FixedBuffer.contents s = rendered l).
Proof.
  intros Hm. destruct (FixedBuffer.fixed_make_wf mem) as [Hwf Hc]; [by rewrite Hm|].
  destruct (puts_ok l _ Hwf) as (s & Hs & Hw & _ & Hcs). rewrite Hc in Hcs.
  unfold FixedBuffer.SIZE in Hcs. cbn in Hcs. rewrite Hm in Hcs.
  exists s. rewrite Hcs. split_and!; [done | done | |].
  - by apply puts_spec_bound.
  - intros Hlt. by rewrite puts_spec_fits.
Qed.

Lemma stream_refines_text_witness :
  exists s, puts [IString (str "fd="); IInt (-7); IChar (chr 32); ICStr None; IBool true]
      (FixedBuffer.make (replicate 4000 (chr 120))) = Ok s /\
    FixedBuffer.contents s = str "fd=-7 (null)1".
Proof.
  destruct (stream_refines_text (replicate 4000 (chr 120))
    [IString (str "fd="); IInt (-7); IChar (chr 32); ICStr None; IBool true])
    as (s & Hs & _ & _ & Hc); [reflexivity|].
  exists s. split; [exact Hs | apply Hc; reflexivity].
Defined.

End LogStream.

(** ** Logger *)

Module Logger.

Inductive LogLevel := INFO | ERROR | FATAL | DEBUG.

(** The values of the enumeration. *)
Definition level_value (l : LogLevel) : Z :=
  match l with INFO => 0 | ERROR => 1 | FATAL => 2 | DEBUG => 3 end.

(** The conditions in the macros; [mudebug]: MUDEBUG is defined. *)
Definition macro_enabled (mudebug : bool) (globalLogLevel l : LogLevel) : bool :=
  match l with
  | INFO => level_value globalLogLevel <=? level_value INFO
  | ERROR => level_value globalLogLevel <=? level_value ERROR
  | FATAL => true
  | DEBUG => mudebug && (level_value globalLogLevel <=? level_value DEBUG)
  end.

Record t := mk {
  stream_ : LogStream.t;
  file_ : bytes;
  line_ : Z;
  level_ : LogLevel;
}.

(** The calls of [g_output], [g_flush] and [abort]. *)
Inductive effect := EOutput (msg : bytes) | EFlush | EAbort.

Definition level_tag (l : LogLevel) : bytes :=
  match l with
  | INFO => str "[INFO] "
  | ERROR => str "[ERROR] "
  | FATAL => str "[FATAL] "
  | DEBUG => str "[DEBUG] "
  end.

(** What the constructor inserts; [buf] is what [strftime] wrote. *)
Definition header_items (buf : bytes) (level : LogLevel) : list LogStream.item :=
  [LogStream.ICStr (Some (str "[")); LogStream.ICStr (Some buf);
   LogStream.ICStr (Some (str "] ")); LogStream.ICStr (Some (level_tag level))].

(** What the destructor inserts. *)
Definition footer_items (file : bytes) (line : Z) : list LogStream.item :=
  [LogStream.ICStr (Some (str " - ")); LogStream.ICStr (Some file);
   LogStream.ICStr (Some (str ":")); LogStream.IInt line; LogStream.IChar (chr 10)].

Definition make (mem buf : bytes) (file : bytes) (line : Z) (level : LogLevel) : outcome t :=
  let! s := LogStream.puts (header_items buf level) (FixedBuffer.make mem) in
  Ok (mk s file line level).

(** [stream() << ...] *)
Definition log (items : list LogStream.item) (l : t) : outcome t :=
  let! s := LogStream.puts items (stream_ l) in
  Ok (mk s (file_ l) (line_ l) (level_ l)).

(** The destructor. *)
Definition destroy (l : t) : outcome (list effect) :=
  let! s := LogStream.puts (footer_items (file_ l) (line_ l)) (stream_ l) in
  Ok ([EOutput (FixedBuffer.contents s)] ++
      match level_ l with FATAL => [EFlush; EAbort] | _ => [] end).

(** A statement [LOG_x << items]. *)
Definition statement (mem buf file : bytes) (line : Z) (level : LogLevel)
    (items : list LogStream.item) : outcome (list effect) :=
  let! l := make mem buf file line level in
  let! l := log items l in
  destroy l.

(** The text of a record. *)
Definition record (buf file : bytes) (line : Z) (level : LogLevel)
    (items : list LogStream.item) : bytes :=
  str "[" ++ LogStream.c_string buf ++ str "] " ++ level_tag level ++
  LogStream.rendered items ++
  str " - " ++ LogStream.c_string file ++ str ":" ++ Digits.to_string line ++ [chr 10].

(** The three insertions are one. *)
Lemma statement_puts mem buf file line level items :
  statement mem buf file line level items =
    let! s := LogStream.puts (header_items buf level ++ items ++ footer_items file line)
                (FixedBuffer.make mem) in
    Ok (EOutput (FixedBuffer.contents s) ::
        match level with FATAL => [EFlush; EAbort] | _ => [] end).
Proof.
  unfold statement, make, log, destroy. rewrite !LogStream.puts_app.
  destruct (LogStream.puts (header_items buf level) _) as [s1|]; cbn [obind stream_ level_ file_ line_]; [|done].
  rewrite LogStream.puts_app.
  destruct (LogStream.puts items s1) as [s2|]; cbn [obind stream_ level_ file_ line_]; [|done].
  by destruct (LogStream.puts (footer_items file line) s2).
Qed.

Lemma record_rendered buf file line level items :
  record buf file line level items =
    LogStream.rendered (header_items buf level ++ items ++ footer_items file line).
Proof.
  unfold LogStream.rendered, record. rewrite !flat_map_app. cbn [flat_map header_items footer_items LogStream.render].
  rewrite !app_nil_r, <- !app_assoc. by destruct level.
Qed.

(** The whole record goes out in one call. *)
Lemma statement_record (mem buf file : bytes) (line : Z) (level : LogLevel)
    (items : list LogStream.item) :
  blen mem = FixedBuffer.kSmallBuffer ->
  blen (record buf file line level items) < FixedBuffer.kSmallBuffer ->
  statement mem buf file line level items =
    Ok (EOutput (record buf file line level items) ::
        match level with FATAL => [EFlush; EAbort] | _ => [] end).
Proof.
  intros Hm Hlen. destruct (FixedBuffer.fixed_make_wf mem) as [Hwf Hc]; [by rewrite Hm|].
  rewrite statement_puts, record_rendered in *.
  destruct (LogStream.puts_ok (header_items buf level ++ items ++ footer_items file line) _ Hwf)
    as (s & -> & _ & _ & Hs).
  cbn [obind]. rewrite Hs, Hc. unfold FixedBuffer.SIZE. cbn [FixedBuffer.make FixedBuffer.data_].
  by rewrite Hm, LogStream.puts_spec_fits.
Qed.

(** A log statement whose record is shorter than 4000 bytes outputs exactly that
    record, in one call: time, level, text, file, line and the newline; a FATAL one
    then flushes and aborts, and no other does. *)
Theorem statement_outputs_record (mem buf file : bytes) (line : Z) (level : LogLevel)
    (items : list LogStream.item) :
  blen mem = FixedBuffer.kSmallBuffer ->
  blen (record buf file line level items) < FixedBuffer.kSmallBuffer ->
  statement mem buf file line level items =
    Ok (EOutput (record buf file line level items) ::
        match level with FATAL => [EFlush; EAbort] | _ => [] end).
Proof. apply statement_record. Qed.

Lemma statement_outputs_record_witness :
  statement (replicate 4000 (chr 0)) (str "2026-03-01 12:00:00") (str "main.cpp") 31 FATAL
      [LogStream.IString (str "Failed in eventfd")] =
    Ok [EOutput (str "[2026-03-01 12:00:00] [FATAL] Failed in eventfd - main.cpp:31" ++ [chr 10]);
        EFlush; EAbort].
Proof.
  refine (statement_outputs_record (replicate 4000 (chr 0)) (str "2026-03-01 12:00:00")
    (str "main.cpp") 31 FATAL [LogStream.IString (str "Failed in eventfd")] _ _);
    vm_compute; reflexivity.
Defined.

(** ** What the code does not guard against *)

(** DEBUG is the highest value of the enumeration: where the macro exists at all, no
    global level switches it off, although FATAL as the global level silences INFO
    and ERROR. *)
Theorem debug_is_never_filtered (globalLogLevel : LogLevel) :
  macro_enabled true globalLogLevel DEBUG = true /\
  macro_enabled true FATAL INFO = false /\ macro_enabled true FATAL ERROR = false.
Proof. by destruct globalLogLevel. Qed.

(** A newline that does not fit is lost: the record runs into the next one. *)
Example newline_dropped :
  match statement (replicate 4000 (chr 0)) (str "t") (str "f") 1 INFO
          [LogStream.IString (replicate 3982 (chr 120))] with
  | Ok [EOutput s] => last s = Some (chr 49) /\ blen s = 3999
  | _ => False
  end.
Proof. vm_compute. split; reflexivity. Qed.

End Logger.
