(* ===== verification/AsyncLogging.v ===== *)
(** * AsyncLogging: src/src/base/AsyncLogging.{h,cpp}

    The double-buffered log of producers and one backend thread.  The buffers are
    [unique_ptr]s, [None] when moved from; a null one that is dereferenced, [back()]
    of an empty vector and a failed assertion are faults.  An execution is a list of
    labels: an [append] and each part of an iteration of [threadFunc] (the tests at
    its head, the critical section, the writing) is one step; a label that is not
    enabled does nothing.  [SIZE] is the size of a buffer ([kLargeBuffer] in the
    code).  What is passed to [LogFile::append] is the effect. *)

From S2P Require Import Prelude Buffer LogStream.

Module AsyncLogging.

Section sized.

(** The size of the buffers, and their memory when new. *)
Context (SIZE : nat).

Abbreviation BufferPtr := (option FixedBuffer.t).

Definition new_Buffer : FixedBuffer.t := FixedBuffer.make (replicate SIZE (chr 0)).

(** Where the backend thread is. *)
Inductive pc :=
| PcTop        (** at [while (running_)] *)
| PcWait       (** before the critical section *)
| PcWrite      (** after it *)
| PcDone.      (** [threadFunc] has returned *)

Record t := mk {
  currentBuffer_ : BufferPtr;
  nextBuffer_ : BufferPtr;
  buffers_ : list BufferPtr;
  running_ : bool;
  pc_ : pc;
  newBuffer1 : BufferPtr;
  newBuffer2 : BufferPtr;
  buffersToWrite : list BufferPtr;
}.

(** The constructor and [start]: the backend thread is about to enter its loop. *)
Definition start : t :=
  mk (Some new_Buffer) (Some new_Buffer) [] true PcTop (Some new_Buffer) (Some new_Buffer) [].

Definition set_producer (cur next : BufferPtr) (bufs : list BufferPtr) (s : t) : t :=
  mk cur next bufs (running_ s) (pc_ s) (newBuffer1 s) (newBuffer2 s) (buffersToWrite s).
Definition set_running (b : bool) (s : t) : t :=
  mk (currentBuffer_ s) (nextBuffer_ s) (buffers_ s) b (pc_ s)
     (newBuffer1 s) (newBuffer2 s) (buffersToWrite s).
Definition set_pc (p : pc) (s : t) : t :=
  mk (currentBuffer_ s) (nextBuffer_ s) (buffers_ s) (running_ s) p
     (newBuffer1 s) (newBuffer2 s) (buffersToWrite s).
Definition set_backend (b1 b2 : BufferPtr) (btw : list BufferPtr) (s : t) : t :=
  mk (currentBuffer_ s) (nextBuffer_ s) (buffers_ s) (running_ s) (pc_ s) b1 b2 btw.

(** [*p] *)
Definition deref (p : BufferPtr) : outcome FixedBuffer.t :=
  match p with Some b => Ok b | None => Fault NullDereference end.

(** [append]: [currentBuffer_->avail() > len] compares ints. *)
Definition append (logline : bytes) (s : t) : outcome t :=
  let! cur := deref (currentBuffer_ s) in
  if blen logline <? FixedBuffer.avail cur then
    let! cur := FixedBuffer.append logline cur in
    Ok (set_producer (Some cur) (nextBuffer_ s) (buffers_ s) s)
  else
    let bufs := buffers_ s ++ [Some cur] in
    match nextBuffer_ s with
    | Some next =>
        let! next := FixedBuffer.append logline next in
        Ok (set_producer (Some next) None bufs s)
    | None =>
        let! new := FixedBuffer.append logline new_Buffer in
        Ok (set_producer (Some new) None bufs s)
    end.

(** [stop] before its join. *)
Definition stop (s : t) : t := set_running false s.

(** The destructor. *)
Definition destroy (s : t) : t := if running_ s then stop s else s.

(** [newBuffer && newBuffer->length() == 0] *)
Definition is_empty_buffer (p : BufferPtr) : bool :=
  match p with Some b => FixedBuffer.length b =? 0 | None => false end.

(** The test of the loop and the assertions. *)
Definition top (s : t) : outcome t :=
  if negb (running_ s) then Ok (set_pc PcDone s)
  else
    require (is_empty_buffer (newBuffer1 s)) AssertFailure
    (require (is_empty_buffer (newBuffer2 s)) AssertFailure
    (require (match buffersToWrite s with [] => true | _ => false end) AssertFailure
    (Ok (set_pc PcWait s)))).

(** The critical section; the wait only delays it. *)
Definition swap (s : t) : outcome t :=
  let bufs := buffers_ s ++ [currentBuffer_ s] in
  let cur := newBuffer1 s in
  let btw := bufs in
  let bufs := buffersToWrite s in
  match nextBuffer_ s with
  | None => Ok (set_pc PcWrite (set_backend None None btw (set_producer cur (newBuffer2 s) bufs s)))
  | Some next =>
      Ok (set_pc PcWrite (set_backend None (newBuffer2 s) btw (set_producer cur (Some next) bufs s)))
  end.

(** [output.append(buffer->data(), buffer->length())] for every buffer. *)
Fixpoint write_buffers (l : list BufferPtr) : outcome bytes :=
  match l with
  | [] => Ok []
  | p :: l =>
      let! b := deref p in
      let! rest := write_buffers l in
      Ok (FixedBuffer.contents b ++ rest)
  end.

(** [std::move(v.back())], [v.pop_back()] *)
Definition pop_back (l : list BufferPtr) : outcome (BufferPtr * list BufferPtr) :=
  match last l with
  | Some p => Ok (p, removelast l)
  | None => Fault EmptyContainer
  end.

(** [if (!p) { p = std::move(v.back()); v.pop_back(); p->reset(); }] *)
Definition refill (p : BufferPtr) (l : list BufferPtr) : outcome (BufferPtr * list BufferPtr) :=
  match p with
  | Some _ => Ok (p, l)
  | None =>
      let! (p, l) := pop_back l in
      let! b := deref p in
      Ok (Some (FixedBuffer.reset b), l)
  end.

(** The rest of the iteration: the bytes written, and the next state. *)
Definition write (s : t) : outcome (bytes * t) :=
  let! out := write_buffers (buffersToWrite s) in
  let btw := if (2 <? length (buffersToWrite s))%nat then take 2 (buffersToWrite s)
             else buffersToWrite s in
  let! (b1, btw) := refill (newBuffer1 s) btw in
  let! (b2, btw) := refill (newBuffer2 s) btw in
  Ok (out, set_pc PcTop (set_backend b1 b2 [] s)).

Inductive label := LAppend (logline : bytes) | LStop | LTop | LSwap | LWrite.

(** One step, and the bytes it gives to the file. *)
Definition step (l : label) (s : t) : outcome (bytes * t) :=
  match l with
  | LAppend logline => let! s := append logline s in Ok ([], s)
  | LStop => Ok ([], stop s)
  | LTop => match pc_ s with PcTop => let! s := top s in Ok ([], s) | _ => Ok ([], s) end
  | LSwap => match pc_ s with PcWait => let! s := swap s in Ok ([], s) | _ => Ok ([], s) end
  | LWrite => match pc_ s with PcWrite => write s | _ => Ok ([], s) end
  end.

Fixpoint exec (ls : list label) (s : t) : outcome (bytes * t) :=
  match ls with
  | [] => Ok ([], s)
  | l :: ls =>
      let! (out, s) := step l s in
      let! (out', s) := exec ls s in
      Ok (out ++ out', s)
  end.

(** ** What is where *)

(** The lines that fit into a buffer, in the order of the appends. *)
Definition accepted (ls : list label) : bytes :=
  flat_map (fun l =>
    match l with
    | LAppend s => if blen s <? Z.of_nat SIZE then s else []
    | _ => []
    end) ls.

Definition text (p : BufferPtr) : bytes :=
  match p with Some b => FixedBuffer.contents b | None => [] end.

(** Not yet given to the file, oldest first. *)
Definition unwritten (s : t) : bytes :=
  (match pc_ s with PcWrite => flat_map text (buffersToWrite s) | _ => [] end) ++
  flat_map text (buffers_ s) ++ text (currentBuffer_ s).

(** ** The invariant *)

Definition buffer_ok (b : FixedBuffer.t) : Prop :=
  FixedBuffer.wf b /\ FixedBuffer.SIZE b = Z.of_nat SIZE.

Definition full (p : BufferPtr) : Prop := exists b, p = Some b /\ buffer_ok b.
Definition fresh (p : BufferPtr) : Prop :=
  exists b, p = Some b /\ buffer_ok b /\ FixedBuffer.contents b = [] /\ FixedBuffer.cur_ b = 0.

Record inv (s : t) : Prop := {
  i_current : full (currentBuffer_ s);
  i_next : nextBuffer_ s = None \/ fresh (nextBuffer_ s);
  i_buffers : Forall full (buffers_ s);
  (** [nextBuffer_] was taken by an append that also filled [buffers_] *)
  i_taken : nextBuffer_ s = None -> buffers_ s <> [];
  i_backend :
    match pc_ s with
    | PcTop | PcWait => fresh (newBuffer1 s) /\ fresh (newBuffer2 s) /\ buffersToWrite s = []
    | PcWrite =>
        newBuffer1 s = None /\ Forall full (buffersToWrite s) /\
        (fresh (newBuffer2 s) /\ (1 <= length (buffersToWrite s))%nat \/
         newBuffer2 s = None /\ (2 <= length (buffersToWrite s))%nat)
    | PcDone => True
    end;
}.

Hypothesis SIZE_small : 0 < Z.of_nat SIZE < 2^31.

Ltac fields :=
  cbn [set_producer set_running set_pc set_backend currentBuffer_ nextBuffer_ buffers_ running_
       pc_ newBuffer1 newBuffer2 buffersToWrite] in *.

Lemma new_Buffer_fresh : fresh (Some new_Buffer).
Proof.
  exists new_Buffer. split; [done|]. unfold new_Buffer.
  assert (blen (replicate SIZE (chr 0)) = Z.of_nat SIZE) as Hl
    by (unfold blen; by rewrite length_replicate).
  split_and!; try done. split; [|done]. apply FixedBuffer.fixed_make_wf. lia.
Qed.

Lemma fresh_full p : fresh p -> full p.
Proof. intros (b & ? & ? & _). by exists b. Qed.

Lemma start_inv : inv start.
Proof.
  pose proof new_Buffer_fresh. split; cbn; auto using fresh_full.
Qed.

Lemma append_fresh p b line :
  p = Some b -> buffer_ok b -> FixedBuffer.contents b = [] ->
  exists b', FixedBuffer.append line b = Ok b' /\ buffer_ok b' /\
    FixedBuffer.contents b' = if blen line <? Z.of_nat SIZE then line else [].
Proof.
  intros _ [Hw Hs] Hc. destruct (FixedBuffer.append_ok b line Hw) as (b' & Hb & Hw' & Hs' & Hc').
  exists b'. split_and!; [done | split; congruence |]. rewrite Hc', Hc, Hs. unfold FixedBuffer.append_spec.
  cbn. by destruct (_ <? _).
Qed.

(** A producer's append: no fault, and one more line at the end. *)
Lemma append_step line s :
  inv s ->
  exists s', append line s = Ok s' /\ inv s' /\
    unwritten s' = unwritten s ++ (if blen line <? Z.of_nat SIZE then line else []).
Proof.
  intros [(cur & Hcur & Hok) Hnext Hbufs Htaken Hback]. unfold append, unwritten. rewrite Hcur.
  cbn [deref obind text]. destruct Hok as [Hw Hs].
  rewrite FixedBuffer.avail_wf by done. pose proof (FixedBuffer.fixed_contents_length cur Hw) as Hl.
  pose proof Hw as [Hc _].
  destruct (blen line <? FixedBuffer.SIZE cur - FixedBuffer.cur_ cur) eqn:E; zbool.
  - destruct (FixedBuffer.append_ok cur line Hw) as (b' & -> & Hw' & Hs' & Hc'). cbn [obind].
    eexists. split; [done|]. split.
    + split; fields; try done. exists b'. split_and!; [done..|]. split; [done | congruence].
    + fields. cbn [text]. rewrite Hc'. unfold FixedBuffer.append_spec.
      rewrite Hl, !(proj2 (Z.ltb_lt _ _)) by lia. by rewrite <- !app_assoc.
  - assert (Hnew : exists b, match nextBuffer_ s with
        | Some next => let! next := FixedBuffer.append line next in
            Ok (set_producer (Some next) None (buffers_ s ++ [Some cur]) s)
        | None => let! new := FixedBuffer.append line new_Buffer in
            Ok (set_producer (Some new) None (buffers_ s ++ [Some cur]) s)
        end = Ok (set_producer (Some b) None (buffers_ s ++ [Some cur]) s) /\ buffer_ok b /\
        FixedBuffer.contents b = if blen line <? Z.of_nat SIZE then line else []).
    { destruct Hnext as [-> | (nb & -> & Hok & Hcn & _)].
      - destruct new_Buffer_fresh as (nb & [= <-] & Hok & Hcn & _).
        destruct (append_fresh _ _ line eq_refl Hok Hcn) as (b & -> & ? & ?). by exists b.
      - destruct (append_fresh _ _ line eq_refl Hok Hcn) as (b & -> & ? & ?). by exists b. }
    destruct Hnew as (b & -> & Hb & Hcb). eexists. split; [done|]. split.
    + split; fields; [by exists b | by left | | | exact Hback].
      * apply Forall_app. split; [done|]. repeat constructor. by exists cur.
      * intros _ H. by apply app_nil in H as [_ ?].
    + fields. cbn [text]. rewrite Hcb, flat_map_app. cbn [flat_map text].
      by rewrite app_nil_r, <- !app_assoc.
Qed.

Lemma write_buffers_ok l :
  Forall full l -> write_buffers l = Ok (flat_map text l).
Proof.
  induction 1 as [|p l (b & -> & _) _ IH]; cbn [write_buffers]; [done|]. by rewrite IH.
Qed.

Lemma refill_ok p l :
  fresh p \/ p = None /\ l <> [] -> Forall full l ->
  exists p' l', refill p l = Ok (p', l') /\ fresh p' /\ Forall full l' /\
    (length l <= S (length l'))%nat /\ (fresh p -> l' = l).
Proof.
  intros Hp Hl. destruct p as [b|]; cbn [refill].
  - destruct Hp as [Hf|[? _]]; [|done]. exists (Some b), l. split_and!; try done. lia.
  - destruct Hp as [(b & ? & _)|[_ Hne]]; [done|].
    destruct (exists_last Hne) as (l' & p & ->). unfold pop_back.
    rewrite last_snoc, removelast_last. cbn [obind].
    apply Forall_app in Hl as [Hl' Hp]. inversion Hp as [|? ? (b & -> & Hw & Hs) _]; subst.
    cbn [deref obind]. eexists _, _. split; [done|]. destruct (FixedBuffer.reset_wf b Hw) as [Hr Hc].
    split_and!; [| done | rewrite length_app; simpl; lia | by intros (? & ? & _)].
    exists (FixedBuffer.reset b). split_and!; try done. 
Qed.

(** The backend's writing: the double buffers are there to be taken back. *)
Lemma write_step s :
  inv s -> pc_ s = PcWrite ->
  exists out s', write s = Ok (out, s') /\ inv s' /\ out ++ unwritten s' = unwritten s.
Proof.
  intros [Hcur Hnext Hbufs Htaken Hback] Hpc. rewrite Hpc in Hback.
  destruct Hback as (Hn1 & Hfull & Hn2). unfold write. rewrite write_buffers_ok by done. cbn [obind].
  set (btw := if (2 <? length (buffersToWrite s))%nat then _ else _).
  assert (Hbtw : Forall full btw /\ length btw = Nat.min 2 (length (buffersToWrite s))).
  { subst btw. destruct (Nat.ltb_spec 2 (length (buffersToWrite s))).
    - rewrite length_take. split; [by apply Forall_take | lia].
    - split; [done | lia]. }
  destruct Hbtw as [Hbf Hbl].
  assert (1 <= length (buffersToWrite s))%nat by (destruct Hn2 as [[_ ?]|[_ ?]]; lia).
  clearbody btw.
  destruct (refill_ok (newBuffer1 s) btw) as (b1 & l1 & -> & Hf1 & Hl1 & Hlen1 & _); [|done|].
  { right. split; [done|]. intros ->. cbn [length] in Hbl. lia. }
  cbn [obind].
  destruct (refill_ok (newBuffer2 s) l1) as (b2 & l2 & -> & Hf2 & _); [|done|].
  { destruct Hn2 as [[? _]|[? ?]]; [by left | right]. split; [done|].
    intros ->. cbn [length] in Hlen1. lia. }
  cbn [obind]. eexists _, _. split; [done|]. split.
  - split; fields; try done.
  - unfold unwritten. fields. by rewrite Hpc.
Qed.

Lemma swap_step s :
  inv s -> pc_ s = PcWait ->
  exists s', swap s = Ok s' /\ inv s' /\ unwritten s' = unwritten s.
Proof.
  intros [Hcur Hnext Hbufs Htaken Hback] Hpc. rewrite Hpc in Hback.
  destruct Hback as (Hf1 & Hf2 & Hbtw). unfold swap.
  assert (Hall : Forall full (buffers_ s ++ [currentBuffer_ s])).
  { apply Forall_app. split; [done|]. by constructor. }
  assert (Hun : flat_map text (buffers_ s ++ [currentBuffer_ s]) ++ text (newBuffer1 s) =
    flat_map text (buffers_ s) ++ text (currentBuffer_ s)).
  { destruct Hf1 as (b & -> & _ & Hc & _). cbn [text]. rewrite Hc, app_nil_r, flat_map_app.
    cbn [flat_map]. by rewrite app_nil_r. }
  destruct (nextBuffer_ s) as [nb|] eqn:Hn.
  - eexists. split; [done|]. split.
    + split; fields; try done; [by apply fresh_full | rewrite Hbtw; constructor |].
      split_and!; [done | done |]. left. split; [done|]. rewrite length_app. simpl. lia.
    + unfold unwritten. fields. rewrite Hpc, Hbtw. cbn [flat_map app]. exact Hun.
  - eexists. split; [done|]. split.
    + split; fields; try done; [by apply fresh_full | by right | rewrite Hbtw; constructor | |].
      { destruct Hf2 as (b & -> & _). done. }
      split_and!; [done | done |]. right. split; [done|]. rewrite length_app. simpl.
      destruct (buffers_ s); [by destruct (Htaken eq_refl) | simpl; lia].
    + unfold unwritten. fields. rewrite Hpc, Hbtw. cbn [flat_map app]. exact Hun.
Qed.

Lemma top_step s :
  inv s -> pc_ s = PcTop ->
  exists s', top s = Ok s' /\ inv s' /\ unwritten s' = unwritten s.
Proof.
  intros [Hcur Hnext Hbufs Htaken Hback] Hpc. rewrite Hpc in Hback.
  destruct Hback as (Hf1 & Hf2 & Hbtw). unfold top.
  assert (He : forall p, fresh p -> is_empty_buffer p = true).
  { intros p (b & -> & [Hw _] & _ & Hc). cbn. rewrite FixedBuffer.length_wf by done. by rewrite Hc. }
  destruct (running_ s); cbn [negb].
  - rewrite !He, Hbtw by done. cbn [require]. eexists. split; [done|].
    split; [by split | unfold unwritten; fields; by rewrite Hpc].
  - eexists. split; [done|]. split; [by split | unfold unwritten; fields; by rewrite Hpc].
Qed.

Lemma log_step l s :
  inv s ->
  exists out s', step l s = Ok (out, s') /\ inv s' /\
    out ++ unwritten s' = unwritten s ++ accepted [l].
Proof.
  intros Hinv.
  assert (Hidle : exists out s', Ok ([], s) = Ok (out, s') /\ inv s' /\
    out ++ unwritten s' = unwritten s ++ []) by (exists [], s; by rewrite app_nil_r).
  destruct l; cbn [step accepted flat_map]; rewrite ?app_nil_r in *.
  - destruct (append_step logline s Hinv) as (s' & -> & Hi & Hu). by exists [], s'.
  - exists [], (stop s). split; [done|]. split; [by destruct Hinv; split | done].
  - destruct (pc_ s) eqn:E; try done.
    destruct (top_step s Hinv E) as (s' & -> & Hi & Hu). by exists [], s'.
  - destruct (pc_ s) eqn:E; try done.
    destruct (swap_step s Hinv E) as (s' & -> & Hi & Hu). by exists [], s'.
  - destruct (pc_ s) eqn:E; try done. by apply write_step.
Qed.

Lemma log_exec ls s :
  inv s ->
  exists out s', exec ls s = Ok (out, s') /\ inv s' /\
    out ++ unwritten s' = unwritten s ++ accepted ls.
Proof.
  revert s. induction ls as [|l ls IH]; intros s Hinv.
  { exists [], s. by rewrite app_nil_r. }
  cbn [exec]. destruct (log_step l s Hinv) as (o1 & s1 & -> & Hi1 & Hu1). cbn [obind].
  destruct (IH s1 Hi1) as (o2 & s2 & -> & Hi2 & Hu2). cbn [obind].
  eexists _, _. split; [done|]. split; [done|].
  rewrite <- app_assoc, Hu2, app_assoc, Hu1, <- app_assoc. f_equal.
  unfold accepted. by rewrite <- flat_map_app.
Qed.

(** ** Properties *)

(** Asynchronous logging neither faults nor loses or reorders text: in every
    interleaving of appends with the backend thread and [stop], no null buffer is
    dereferenced, no assertion fails, nothing is popped from an empty vector; and
    what the file got, followed by what the buffers still hold, is exactly the
    lines appended, in order (lines that do not fit an empty buffer left out). *)
Theorem log_text_preserved (ls : list label) :
  exists out s, exec ls start = Ok (out, s) /\ out ++ unwritten s = accepted ls.
Proof.
  destruct (log_exec ls start start_inv) as (out & s & H & _ & Hu). by exists out, s.
Qed.

(** Every iteration catches up: from the head of the loop of a running backend,
    in any reachable state, one iteration without appends in between writes
    everything that was appended, and is back at the head with empty buffers. *)
Theorem iteration_writes_everything (ls : list label) (out : bytes) (s : t) :
  exec ls start = Ok (out, s) -> pc_ s = PcTop -> running_ s = true ->
  exists s', exec [LTop; LSwap; LWrite] s = Ok (unwritten s, s') /\ unwritten s' = [] /\
    pc_ s' = PcTop /\ running_ s' = true.
Proof.
  intros Hx Hpc Hrun. destruct (log_exec ls start start_inv) as (o & s0 & H & Hinv & _).
  rewrite Hx in H. injection H as <- <-. pose proof (i_backend _ Hinv) as Hb. rewrite Hpc in Hb.
  destruct Hb as (Hf1 & Hf2 & Hbtw).
  assert (He : forall p, fresh p -> is_empty_buffer p = true).
  { intros p (b & -> & [Hw _] & _ & Hc). cbn. rewrite FixedBuffer.length_wf by done. by rewrite Hc. }
  set (s1 := set_pc PcWait s).
  assert (Htop : top s = Ok s1) by (unfold top; by rewrite Hrun, !He, Hbtw).
  assert (Hinv1 : inv s1) by (destruct Hinv; split; subst s1; fields; try done; by rewrite Hpc in *).
  destruct (swap_step s1 Hinv1 eq_refl) as (s2 & Hsw & Hinv2 & Hu2).
  assert (Hpc2 : pc_ s2 = PcWrite /\ running_ s2 = true /\ buffers_ s2 = [] /\
    currentBuffer_ s2 = newBuffer1 s).
  { unfold swap in Hsw. destruct (nextBuffer_ s1); injection Hsw as <-; subst s1; by fields. }
  destruct Hpc2 as (Hpc2 & Hrun2 & Hb2 & Hc2).
  destruct (write_step s2 Hinv2 Hpc2) as (o2 & s3 & Hwr & Hinv3 & Hu3).
  assert (Hs3 : pc_ s3 = PcTop /\ running_ s3 = running_ s2 /\ buffers_ s3 = buffers_ s2 /\
    currentBuffer_ s3 = currentBuffer_ s2).
  { unfold write in Hwr. apply obind_Ok in Hwr as (x & _ & Hwr).
    apply obind_Ok in Hwr as ([? ?] & _ & Hwr). apply obind_Ok in Hwr as ([? ?] & _ & Hwr).
    injection Hwr as _ <-. by fields. }
  destruct Hs3 as (Hpc3 & Hrun3 & Hb3 & Hc3).
  assert (Hu3' : unwritten s3 = []).
  { unfold unwritten. rewrite Hpc3, Hb3, Hb2, Hc3, Hc2. destruct Hf1 as (b & -> & _ & Hc & _).
    cbn. by rewrite Hc. }
  exists s3. cbn [exec step]. rewrite Hpc, Htop. cbn [obind]. subst s1. fields. rewrite Hsw. cbn [obind].
  rewrite Hpc2, Hwr. cbn [obind app]. rewrite app_nil_r. split_and!; try congruence.
  do 2 f_equal. rewrite Hu3', app_nil_r in Hu3. rewrite Hu3, Hu2.
  unfold unwritten. fields. by rewrite Hpc.
Qed.

(** ** What the code does not guard against *)

(** The backend's last look at [running_] comes after its last swap: a line appended
    in between, with [stop] before the next look, is never written. *)
Theorem stop_drops_tail (line : bytes) :
  blen line < Z.of_nat SIZE ->
  exists s, exec [LAppend line; LStop; LTop; LSwap; LWrite] start = Ok ([], s) /\
    pc_ s = PcDone /\ unwritten s = line.
Proof.
  intros Hl. destruct (append_step line start start_inv) as (s & Ha & Hi & Hu).
  assert (Hpc : pc_ s = PcTop).
  { unfold append in Ha. apply obind_Ok in Ha as (c & _ & Ha).
    destruct (_ <? _); [|destruct (nextBuffer_ start)];
      apply obind_Ok in Ha as (b & _ & Ha); by injection Ha as <-. }
  cbn [exec step]. rewrite Ha. cbn [obind stop set_running pc_]. rewrite Hpc. cbn.
  eexists. split; [done|]. split; [done|].
  rewrite (proj2 (Z.ltb_lt _ _) Hl) in Hu. unfold unwritten in *. fields. rewrite Hpc in Hu. exact Hu.
Qed.

End sized.

(** Buffers of eight bytes; the third append takes the second buffer. *)
Definition test_labels : list label :=
  [LAppend (str "abc"); LTop; LAppend (str "defg"); LAppend (str "hij"); LSwap;
   LAppend (str "klmnopq"); LAppend (str "toolongline"); LWrite; LTop; LAppend (str "r")].

Lemma log_text_preserved_witness :
  exists out s, exec 8 test_labels (start 8) = Ok (out, s) /\
    out ++ unwritten s = str "abcdefghijklmnopqr".
Proof. apply (log_text_preserved 8 ltac:(lia) test_labels). Defined.

Lemma iteration_writes_everything_witness :
  exists out s s', exec 8 (take 3 test_labels ++ [LSwap; LWrite; LAppend (str "xyz")]) (start 8) =
      Ok (out, s) /\
    exec 8 [LTop; LSwap; LWrite] s = Ok (str "xyz", s') /\ unwritten s' = [] /\
    pc_ s' = PcTop /\ running_ s' = true.
Proof.
  edestruct (iteration_writes_everything 8 ltac:(lia)
    (take 3 test_labels ++ [LSwap; LWrite; LAppend (str "xyz")])) as (s' & Hs');
    [vm_compute; reflexivity | reflexivity | reflexivity |].
  eexists _, _, s'. split; [vm_compute; reflexivity | exact Hs'].
Defined.

End AsyncLogging.
