(* ===== verification/LogFile.v ===== *)
(** * LogFile: src/src/base/LogFile.{h,cpp}

    A file that is rolled when the day changes or when it is large.  The readings of
    the clock ([localtime_r]), whether [fopen] succeeds and how much [fwrite] takes
    are arguments; the calls on the [FILE] are effects. *)

From S2P Require Import Prelude Digits.

Module LogFile.

(** [struct tm] *)
Record tm := Tm {
  tm_year : Z;   (** since 1900 *)
  tm_mon : Z;    (** from 0 *)
  tm_mday : Z;
  tm_hour : Z;
  tm_min : Z;
  tm_sec : Z;
}.

Record t := mk {
  basename_ : bytes;
  rollSize_ : Z;
  writtenBytes_ : Z;
  fp_ : bool;        (** [fp_ != nullptr] *)
  lastDay_ : Z;
}.

Inductive effect :=
| EOpen (filename : bytes) (ok : bool)   (** [fopen] and whether it succeeds *)
| EClose
| EWrite (data : bytes)                  (** what [fwrite] took *)
| EFlush.

Definition M := ST t effect.

Definition set_fp (b : bool) (f : t) : t :=
  mk (basename_ f) (rollSize_ f) (writtenBytes_ f) b (lastDay_ f).
Definition set_written (n : Z) (f : t) : t :=
  mk (basename_ f) (rollSize_ f) n (fp_ f) (lastDay_ f).
Definition set_lastDay (d : Z) (f : t) : t :=
  mk (basename_ f) (rollSize_ f) (writtenBytes_ f) (fp_ f) d.

(** [strftime] of ".%Y%m%d-%H%M%S." *)
Definition timebuf (now : tm) : bytes :=
  str "." ++ Digits.padded 4 (tm_year now + 1900) ++ Digits.padded 2 (tm_mon now + 1) ++
  Digits.padded 2 (tm_mday now) ++ str "-" ++ Digits.padded 2 (tm_hour now) ++
  Digits.padded 2 (tm_min now) ++ Digits.padded 2 (tm_sec now) ++ str ".".

Definition getLogFileName (basename : bytes) (now : tm) : bytes :=
  basename ++ timebuf now ++ str "log".

(** What a roll asks: the time for the name, whether [fopen] succeeds, the time for
    [lastDay_]. *)
Record roll := Roll { r_name : tm; r_opened : bool; r_day : tm }.

Definition rollFile (r : roll) : M unit :=
  let* f := st_get in
  st_when (fp_ f) (st_tell [EClose]) ;;;
  st_tell [EOpen (getLogFileName (basename_ f) (r_name r)) (r_opened r)] ;;;
  st_modify (set_fp (r_opened r)) ;;;
  st_modify (set_written 0) ;;;
  st_modify (set_lastDay (tm_mday (r_day r))).

(** The constructor. *)
Definition make (basename : bytes) (rollSize : Z) (r : roll) : outcome (unit * t * list effect) :=
  rollFile r (mk basename rollSize 0 false 0).

(** The destructor. *)
Definition destroy : M unit :=
  let* f := st_get in st_when (fp_ f) (st_tell [EClose]).

Definition append (now : tm) (r : roll) (taken : Z) (logline : bytes) : M unit :=
  let* f := st_get in
  if negb (fp_ f) then st_ret tt else
  (if negb (tm_mday now =? lastDay_ f) then rollFile r
   else st_when (rollSize_ f <? writtenBytes_ f) (rollFile r)) ;;;
  let* f := st_get in
  if negb (fp_ f) then st_ret tt else
  st_tell [EWrite (take (Z.to_nat taken) logline)] ;;;
  st_modify (set_written (u64 (writtenBytes_ f + taken))).

Definition flush : M unit :=
  let* f := st_get in st_when (fp_ f) (st_tell [EFlush]).

(** ** Runs *)

Inductive op := OpAppend (now : tm) (r : roll) (taken : Z) (logline : bytes) | OpFlush.

Definition run_op (o : op) : M unit :=
  match o with
  | OpAppend now r taken logline => append now r taken logline
  | OpFlush => flush
  end.

Fixpoint run (os : list op) : M unit :=
  match os with
  | [] => st_ret tt
  | o :: os => run_op o ;;; run os
  end.

(** A file object as <stdio.h> has it: [None] when a call is made on a closed one or
    when an open one is dropped; otherwise whether it is open, with the bytes it
    took since it was opened. *)
Definition stdio (e : effect) (file : option Z) : option (option Z) :=
  match e, file with
  | EOpen _ ok, None => Some (if ok then Some 0 else None)
  | EOpen _ _, Some _ => None
  | EClose, Some _ => Some None
  | EClose, None => None
  | EWrite d, Some n => Some (Some (n + blen d))
  | EWrite _, None => None
  | EFlush, Some n => Some (Some n)
  | EFlush, None => None
  end.

Fixpoint stdio_run (es : list effect) (file : option Z) : option (option Z) :=
  match es with
  | [] => Some file
  | e :: es => file ← stdio e file; stdio_run es file
  end.

(** No file takes more than [limit] bytes while it is open. *)
Fixpoint within (limit : Z) (es : list effect) (n : Z) : Prop :=
  match es with
  | [] => True
  | EOpen _ _ :: es => within limit es 0
  | EWrite d :: es => n + blen d <= limit /\ within limit es (n + blen d)
  | _ :: es => within limit es n
  end.

Definition op_ok (maxline : Z) (o : op) : Prop :=
  match o with
  | OpAppend _ _ taken logline => 0 <= taken <= blen logline /\ blen logline <= maxline
  | OpFlush => True
  end.

Record wf (maxline : Z) (f : t) : Prop := {
  wf_written : 0 <= writtenBytes_ f <= rollSize_ f + maxline;
  wf_roll : 0 <= rollSize_ f /\ 0 <= maxline /\ rollSize_ f + maxline + maxline <= SIZE_MAX;
}.

(** The file that the object refers to. *)
Definition file (f : t) : option Z := if fp_ f then Some (writtenBytes_ f) else None.

Definition op_spec (maxline : Z) (f f' : t) (es : list effect) : Prop :=
  wf maxline f' /\ rollSize_ f' = rollSize_ f /\ stdio_run es (file f) = Some (file f') /\
  (forall n, (fp_ f = true -> n = writtenBytes_ f) -> within (rollSize_ f + maxline) es n) /\
  basename_ f' = basename_ f.

Ltac fields :=
  cbn [set_fp set_written set_lastDay basename_ rollSize_ writtenBytes_ fp_ lastDay_] in *.

Lemma stdio_run_app es es' file :
  stdio_run (es ++ es') file = file ← stdio_run es file; stdio_run es' file.
Proof.
  revert file. induction es as [|e es IH]; intros file; simpl; [done|].
  destruct (stdio e file); simpl; [apply IH | done].
Qed.

Lemma rollFile_spec maxline r f :
  wf maxline f ->
  wp (rollFile r) f (fun _ f' es => wf maxline f' /\ rollSize_ f' = rollSize_ f /\
    basename_ f' = basename_ f /\ writtenBytes_ f' = 0 /\
    stdio_run es (file f) = Some (file f') /\
    exists close, es = close ++ [EOpen (getLogFileName (basename_ f) (r_name r)) (r_opened r)] /\
      (close = [] \/ close = [EClose])).
Proof.
  intros [Hw Hr]. unfold rollFile, file. wp_steps; rewrite ?H; fields; simpl.
  all: split_and!; [split; fields; lia | done | done | done | by destruct (r_opened r) |].
  - exists [EClose]. split; [done | by right].
  - exists []. split; [done | by left].
Qed.

(** A write to an open file that is not yet too large. *)
Lemma write_ok maxline f taken logline :
  wf maxline f -> fp_ f = true -> writtenBytes_ f <= rollSize_ f ->
  0 <= taken <= blen logline -> blen logline <= maxline ->
  let f' := set_written (u64 (writtenBytes_ f + taken)) f in
  let d := take (Z.to_nat taken) logline in
  wf maxline f' /\ writtenBytes_ f' = writtenBytes_ f + blen d /\
  stdio_run [EWrite d] (file f) = Some (file f') /\
  writtenBytes_ f + blen d <= rollSize_ f + maxline.
Proof.
  intros [Hw Hr] Hfp Hle Ht Hl f' d.
  assert (Hd : blen d = taken) by (subst d; unfold blen in *; rewrite length_take; lia).
  subst f'. fields. rewrite u64_small by (unfold SIZE_MAX in *; lia).
  split_and!; [split; fields; lia | lia | | lia].
  unfold file. fields. rewrite Hfp. simpl. by rewrite Hd.
Qed.

Lemma logfile_append_spec maxline now r taken logline f :
  wf maxline f -> 0 <= taken <= blen logline -> blen logline <= maxline ->
  wp (append now r taken logline) f (fun _ f' es => op_spec maxline f f' es).
Proof.
  intros Hwf Ht Hl. unfold append. apply wp_bind, wp_get. cbn [app].
  destruct (fp_ f) eqn:Hfp; cbn [negb]; last first.
  { apply wp_ret. by split_and!. }
  apply wp_bind.
  apply (wp_mono _ _ (fun _ f1 es => wf maxline f1 /\ rollSize_ f1 = rollSize_ f /\
    basename_ f1 = basename_ f /\ stdio_run es (file f) = Some (file f1) /\
    writtenBytes_ f1 <= rollSize_ f1 /\
    (es = [] /\ f1 = f \/ exists close name ok, es = close ++ [EOpen name ok] /\
      (close = [] \/ close = [EClose]) /\ writtenBytes_ f1 = 0))).
  { assert (Hroll : wp (rollFile r) f (fun _ f1 es => wf maxline f1 /\ rollSize_ f1 = rollSize_ f /\
      basename_ f1 = basename_ f /\ stdio_run es (file f) = Some (file f1) /\
      writtenBytes_ f1 <= rollSize_ f1 /\
      (es = [] /\ f1 = f \/ exists close name ok, es = close ++ [EOpen name ok] /\
        (close = [] \/ close = [EClose]) /\ writtenBytes_ f1 = 0))).
    { eapply wp_mono; [by apply rollFile_spec|]. intros _ f1 es (Hw1 & ? & ? & H0 & ? & cl & -> & ?).
      pose proof (wf_roll _ _ Hw1). split_and!; try done; [lia|]. right. exists cl; do 2 eexists; by split_and!. }
    destruct (negb _); [exact Hroll|]. apply wp_when; intros Hb; [exact Hroll|]. zbool.
    split_and!; try done. by left. }
  intros _ f1 es1 (Hw1 & Hr1 & Hb1 & Hst1 & Hle1 & Hes1). apply wp_bind, wp_get. cbn [app].
  assert (Hwithin : forall n limit es', (fp_ f = true -> n = writtenBytes_ f) ->
    within limit es' (writtenBytes_ f1) -> within limit (es1 ++ es') n).
  { intros n limit es' Hn Hx. destruct Hes1 as [[-> ->]|(cl & nm & ok & -> & Hcl & H0)].
    - rewrite <- (Hn Hfp) in Hx. exact Hx.
    - rewrite H0 in Hx. by destruct Hcl as [-> | ->]. }
  destruct (fp_ f1) eqn:Hfp1; cbn [negb]; last first.
  { apply wp_ret. rewrite app_nil_r. split_and!; try done.
    intros n Hn. rewrite <- (app_nil_r es1). by apply Hwithin. }
  apply wp_bind, wp_tell, wp_modify.
  destruct (write_ok maxline f1 taken logline Hw1 Hfp1 Hle1 Ht Hl) as (Hw2 & Hn2 & Hst2 & Hlim).
  rewrite app_nil_r. split_and!; [done | done | | | done].
  - rewrite stdio_run_app, Hst1. exact Hst2.
  - intros n Hn. apply Hwithin; [done|]. simpl. rewrite <- Hr1. split; [lia | done].
Qed.

Lemma run_op_spec maxline o f :
  wf maxline f -> op_ok maxline o ->
  wp (run_op o) f (fun _ f' es => op_spec maxline f f' es).
Proof.
  intros Hwf Hok. destruct o as [now r taken logline|]; cbn [run_op].
  - destruct Hok. by apply logfile_append_spec.
  - unfold flush. wp_steps; unfold op_spec, file; [rewrite H|]; by split_and!.
Qed.

Lemma within_app maxline es es' f f' n :
  stdio_run es (file f) = Some (file f') -> within maxline es n ->
  (fp_ f = true -> n = writtenBytes_ f) ->
  (forall m, (fp_ f' = true -> m = writtenBytes_ f') -> within maxline es' m) ->
  within maxline (es ++ es') n.
Proof.
  unfold file. intros Hrun Hw Hn Hrest.
  assert (Hgen : forall es file n, stdio_run es file = Some (if fp_ f' then Some (writtenBytes_ f') else None) ->
    (forall k, file = Some k -> n = k) -> within maxline es n -> within maxline (es ++ es') n).
  { clear -Hrest. induction es as [|e es IH]; intros file n Hrun Hn Hw; simpl in *.
    - apply Hrest. intros E. rewrite E in Hrun. apply Hn. congruence.
    - destruct (stdio e file) as [file'|] eqn:E; [|done]. simpl in Hrun.
      destruct e as [nm ok| |d|]; simpl in *.
      + destruct file; [done|]. eapply IH; [exact Hrun | | done].
        simplify_eq. destruct ok; congruence.
      + destruct file; [|done]. simplify_eq. by eapply IH.
      + destruct file as [k|]; [|done]. simplify_eq. destruct Hw as [? Hw]. split; [done|].
        eapply IH; [exact Hrun | | done]. intros k' [= <-]. by rewrite (Hn k eq_refl).
      + destruct file as [k|]; [|done]. simplify_eq. by eapply IH. }
  eapply Hgen; [exact Hrun | | done]. intros k E. destruct (fp_ f); [|done].
  rewrite Hn by done. congruence.
Qed.

Lemma run_spec maxline os f :
  wf maxline f -> Forall (op_ok maxline) os ->
  wp (run os) f (fun _ f' es => op_spec maxline f f' es).
Proof.
  revert f. induction os as [|o os IH]; intros f Hwf Hok.
  { apply wp_ret. by split_and!. }
  inversion Hok as [|? ? Ho Hos]; subst. cbn [run]. apply wp_bind.
  eapply wp_mono; [by apply run_op_spec|]. intros _ f1 es1 (Hw1 & Hr1 & Hs1 & Hl1 & Hb1).
  eapply wp_mono; [by apply IH|]. intros _ f2 es2 (Hw2 & Hr2 & Hs2 & Hl2 & Hb2).
  split_and!; [done | congruence | | | congruence].
  - rewrite stdio_run_app, Hs1. exact Hs2.
  - intros n Hn. rewrite Hr1 in Hl2. by eapply within_app; [exact Hs1 | apply Hl1 | |].
Qed.

(** C31. Rolling keeps files bounded and calls valid: in any run of a log file, every
    call on a [FILE] is made on an open one, a new one is opened only after the old
    one was closed, and no file takes more than [rollSize_] and one record while it
    is open. *)
Theorem log_file_bounded (basename : bytes) (rollSize maxline : Z) (r : roll) (os : list op) :
  0 <= rollSize -> 0 <= maxline -> rollSize + maxline + maxline <= SIZE_MAX ->
  Forall (op_ok maxline) os ->
  exists f0 f es0 es, make basename rollSize r = Ok (tt, f0, es0) /\
    run os f0 = Ok (tt, f, es) /\
    stdio_run (es0 ++ es) None = Some (file f) /\
    within (rollSize + maxline) (es0 ++ es) 0.
Proof.
  intros Hrs Hm Hmax Hok. pose (f := mk basename rollSize 0 false 0).
  assert (Hwf : wf maxline f) by (split; subst f; fields; lia).
  destruct (wp_elim _ _ _ (rollFile_spec maxline r f Hwf))
    as ([] & f0 & es0 & H0 & Hw0 & Hr0 & _ & Hn0 & Hs0 & cl & -> & Hcl).
  destruct (wp_elim _ _ _ (run_spec maxline os f0 Hw0 Hok)) as ([] & f1 & es & H1 & Hw1 & _ & Hs1 & Hl1 & _).
  exists f0, f1. do 2 eexists. split; [exact H0|]. split; [exact H1|].
  rewrite Hr0 in Hl1. split.
  - rewrite stdio_run_app. change None with (file f). rewrite Hs0. exact Hs1.
  - destruct Hcl as [-> | ->]; simpl; apply Hl1; by rewrite Hn0.
Qed.

Definition test_day (d : Z) : tm := Tm 126 1 d 23 59 58.
Definition test_roll (d : Z) : roll := Roll (test_day d) true (test_day d).
Definition test_ops : list op :=
  [OpAppend (test_day 22) (test_roll 22) 5 (str "hello"); OpFlush;
   OpAppend (test_day 22) (test_roll 22) 6 (str " world");
   OpAppend (test_day 22) (test_roll 22) 3 (str "big"); OpAppend (test_day 23) (test_roll 23) 2 (str "ok")].

Lemma log_file_bounded_witness :
  exists f0 f es0 es, make (str "srv") 8 (test_roll 22) = Ok (tt, f0, es0) /\
    run test_ops f0 = Ok (tt, f, es) /\
    stdio_run (es0 ++ es) None = Some (file f) /\
    within (8 + 6) (es0 ++ es) 0.
Proof.
  apply (log_file_bounded (str "srv") 8 6 (test_roll 22) test_ops); [lia | lia | done |].
  repeat constructor; vm_compute; discriminate.
Defined.

Example rolled_names :
  match make (str "srv") 8 (test_roll 22) with
  | Ok (_, f0, [EOpen n _]) =>
      n = str "srv.20260222-235958.log" /\
      match run test_ops f0 with
      | Ok (_, _, es) => es =
          [EWrite (str "hello"); EFlush; EWrite (str " world");
           EClose; EOpen (str "srv.20260222-235958.log") true; EWrite (str "big");
           EClose; EOpen (str "srv.20260223-235958.log") true; EWrite (str "ok")]
      | Fault _ => False
      end
  | _ => False
  end.
Proof. vm_compute. split; reflexivity. Qed.

End LogFile.
