(* ===== verification/LogPipeline.v ===== *)
(** * LogPipeline: from a log statement to a file

    The composition of src/src/base/Logger.cpp, [asyncOutput] of src/main.cpp,
    src/src/base/AsyncLogging.cpp and src/src/base/LogFile.cpp: the process-wide level and
    output function, the log that [asyncOutput] appends to, and the file that the backend
    thread writes.  A run interleaves log statements of any threads with the steps of the
    backend; the clock, [fopen] and [fwrite] answer as arguments. *)

From S2P Require Import Prelude Buffer Digits LogStream AsyncLogging LogFile.

Module LogPipeline.

Section pipeline.
(** The size of the buffers of [AsyncLogging], and whether MUDEBUG is defined. *)
Context (SIZE : nat) (mudebug : bool).

(** The values of [g_output] that the program uses. *)
Inductive OutputFunc := defaultOutput | asyncOutput.

Record t := mk {
  globalLogLevel : Logger.LogLevel;
  g_output : OutputFunc;
  stdio_buffer : bytes;          (** written to [stdout], not flushed *)
  stdout : bytes;
  async : AsyncLogging.t;
  output : LogFile.t;            (** of the backend thread *)
  on_file : list LogFile.effect; (** the calls it made *)
  aborted : bool;
}.

Definition setLogLevel (l : Logger.LogLevel) (s : t) : t :=
  mk l (g_output s) (stdio_buffer s) (stdout s) (async s) (output s) (on_file s) (aborted s).
Definition setOutput (out : OutputFunc) (s : t) : t :=
  mk (globalLogLevel s) out (stdio_buffer s) (stdout s) (async s) (output s) (on_file s) (aborted s).
Definition set_stdio (buf out : bytes) (s : t) : t :=
  mk (globalLogLevel s) (g_output s) buf out (async s) (output s) (on_file s) (aborted s).
Definition set_async (a : AsyncLogging.t) (s : t) : t :=
  mk (globalLogLevel s) (g_output s) (stdio_buffer s) (stdout s) a (output s) (on_file s) (aborted s).
Definition set_file (f : LogFile.t) (es : list LogFile.effect) (s : t) : t :=
  mk (globalLogLevel s) (g_output s) (stdio_buffer s) (stdout s) (async s) f (on_file s ++ es) (aborted s).
Definition set_aborted (s : t) : t :=
  mk (globalLogLevel s) (g_output s) (stdio_buffer s) (stdout s) (async s) (output s) (on_file s) true.

(** [fwrite(msg, 1, len, stdout)], and [fflush(stdout)]. *)
Definition run_defaultOutput (msg : bytes) (s : t) : t :=
  set_stdio (stdio_buffer s ++ msg) (stdout s) s.
Definition defaultFlush (s : t) : t := set_stdio [] (stdout s ++ stdio_buffer s) s.

(** [AsyncLogging::getInstance().append(msg, len)] *)
Definition run_asyncOutput (msg : bytes) (s : t) : outcome t :=
  let! a := AsyncLogging.append SIZE msg (async s) in Ok (set_async a s).

(** The calls that a [Logger]'s destructor makes; [g_flush] is never changed. *)
Definition perform (e : Logger.effect) (s : t) : outcome t :=
  match e with
  | Logger.EOutput msg =>
      match g_output s with
      | defaultOutput => Ok (run_defaultOutput msg s)
      | asyncOutput => run_asyncOutput msg s
      end
  | Logger.EFlush => Ok (defaultFlush s)
  | Logger.EAbort => Ok (set_aborted s)
  end.

Fixpoint performs (es : list Logger.effect) (s : t) : outcome t :=
  match es with
  | [] => Ok s
  | e :: es => let! s := perform e s in performs es s
  end.

(** A statement [LOG_x << items] at [file:line], with the memory of its buffer and the
    time as [strftime] writes it. *)
Record statement := Stmt {
  mem : bytes;
  time : bytes;
  file : bytes;
  line : Z;
  level : Logger.LogLevel;
  items : list LogStream.item;
}.

Definition enabled (st : statement) (l : Logger.LogLevel) : bool :=
  Logger.macro_enabled mudebug l (level st).

Definition log (st : statement) (s : t) : outcome t :=
  if enabled st (globalLogLevel s) then
    let! es := Logger.statement (mem st) (time st) (file st) (line st) (level st) (items st) in
    performs es s
  else Ok s.

(** What the clock, [fopen] and [fwrite] answer to one [LogFile::append]. *)
Record answer := Answer {
  a_now : LogFile.tm;
  a_roll : LogFile.roll;
  a_lost : Z;          (** how many bytes [fwrite] did not take *)
}.

(** [for (const auto& buffer : buffersToWrite) output.append(...); output.flush();] *)
Fixpoint write_files (buffersToWrite : list (option FixedBuffer.t)) (answers : nat -> answer) :
    LogFile.M unit :=
  match buffersToWrite with
  | [] => LogFile.flush
  | buffer :: l =>
      let* b := st_lift (AsyncLogging.deref buffer) in
      let data := FixedBuffer.contents b in
      let a := answers 0%nat in
      LogFile.append (a_now a) (a_roll a) (blen data - a_lost a) data ;;;
      write_files l (fun i => answers (S i))
  end.

Inductive label :=
| LStatement (st : statement)              (** on any thread *)
| LSetLogLevel (l : Logger.LogLevel)
| LSetOutput (out : OutputFunc)
| LBackend (l : AsyncLogging.label)        (** [stop], and the backend thread up to its writing *)
| LWrite (answers : nat -> answer).        (** from the writing to the next test *)

Definition step (l : label) (s : t) : outcome t :=
  if aborted s then Ok s else
  match l with
  | LStatement st => log st s
  | LSetLogLevel l => Ok (setLogLevel l s)
  | LSetOutput out => Ok (setOutput out s)
  | LBackend (AsyncLogging.LAppend _) | LBackend AsyncLogging.LWrite => Ok s
  | LBackend l => let! (_, a) := AsyncLogging.step SIZE l (async s) in Ok (set_async a s)
  | LWrite answers =>
      match AsyncLogging.pc_ (async s) with
      | AsyncLogging.PcWrite =>
          let! (_, f, es) := write_files (AsyncLogging.buffersToWrite (async s)) answers (output s) in
          let! (_, a) := AsyncLogging.write (async s) in
          Ok (set_async a (set_file f es s))
      | _ => Ok s
      end
  end.

Fixpoint exec (ls : list label) (s : t) : outcome t :=
  match ls with
  | [] => Ok s
  | l :: ls => let! s := step l s in exec ls s
  end.

(** [LogFile output(basename_, 50 * 1024 * 1024)] *)
Definition rollSize : Z := 50 * 1024 * 1024.

(** The process as it starts: records of level INFO and above, to [stdout]; the log is
    started and the backend thread has opened its file. *)
Definition start (basename : bytes) (r : LogFile.roll) : outcome t :=
  let! (_, f, es) := LogFile.make basename rollSize r in
  Ok (mk Logger.INFO defaultOutput [] [] (AsyncLogging.start SIZE) f es false).

(** ** The specification *)

Definition record_of (st : statement) : bytes :=
  Logger.record (time st) (file st) (line st) (level st) (items st).

Definition is_fatal (st : statement) : bool :=
  match level st with Logger.FATAL => true | _ => false end.

#[export] Instance OutputFunc_eq_dec : EqDecision OutputFunc.
Proof. solve_decision. Defined.

(** The text that has to reach [target]: the records of the statements that the level
    lets through while the output function is [target], up to the first FATAL one. *)
Fixpoint expected (target : OutputFunc) (l : Logger.LogLevel) (out : OutputFunc) (ls : list label) : bytes :=
  match ls with
  | [] => []
  | LStatement st :: ls =>
      if enabled st l then
        (if decide (out = target) then record_of st else []) ++
        (if is_fatal st then [] else expected target l out ls)
      else expected target l out ls
  | LSetLogLevel l' :: ls => expected target l' out ls
  | LSetOutput out' :: ls => expected target l out' ls
  | _ :: ls => expected target l out ls
  end.

(** What was written to files, in order. *)
Definition written (es : list LogFile.effect) : bytes :=
  flat_map (fun e => match e with LogFile.EWrite d => d | _ => [] end) es.

(** Records fit in the buffer of a [Logger]; files open, and take what they are given. *)
Definition answer_ok (a : answer) : Prop := LogFile.r_opened (a_roll a) = true /\ a_lost a = 0.

Definition label_ok (l : label) : Prop :=
  match l with
  | LStatement st =>
      blen (mem st) = FixedBuffer.kSmallBuffer /\ blen (record_of st) < FixedBuffer.kSmallBuffer
  | LWrite answers => forall i, answer_ok (answers i)
  | _ => True
  end.

Hypothesis SIZE_fits : FixedBuffer.kSmallBuffer <= Z.of_nat SIZE < 2^31.

Lemma SIZE_small : 0 < Z.of_nat SIZE < 2^31.
Proof. unfold FixedBuffer.kSmallBuffer in *. lia. Qed.

Record inv (s : t) : Prop := {
  i_async : AsyncLogging.inv SIZE (async s);
  i_file : LogFile.fp_ (output s) = true;
}.

(** All the text that was given to a target. *)
Definition given (target : OutputFunc) (s : t) : bytes :=
  match target with
  | defaultOutput => stdout s ++ stdio_buffer s
  | asyncOutput => written (on_file s) ++ AsyncLogging.unwritten (async s)
  end.

(** ** Lemmas *)

Lemma logged_app es es' : written (es ++ es') = written es ++ written es'.
Proof. apply flat_map_app. Qed.

Lemma rollFile_open r f :
  LogFile.r_opened r = true ->
  wp (LogFile.rollFile r) f (fun _ f' es => LogFile.fp_ f' = true /\ written es = []).
Proof. intros Hr. unfold LogFile.rollFile. by wp_steps; LogFile.fields; rewrite ?Hr. Qed.

Lemma append_file now r data f :
  LogFile.fp_ f = true -> LogFile.r_opened r = true ->
  wp (LogFile.append now r (blen data) data) f
    (fun _ f' es => LogFile.fp_ f' = true /\ written es = data).
Proof.
  intros Hf Hr. unfold LogFile.append. apply wp_bind, wp_get. rewrite Hf. cbn [negb app].
  apply wp_bind, (wp_mono _ _ (fun _ f1 es => LogFile.fp_ f1 = true /\ written es = [])).
  - destruct (negb _); [by apply rollFile_open|]. apply wp_when; [by intros; apply rollFile_open | done].
  - intros _ f1 es1 [Hf1 He1]. apply wp_bind, wp_get. rewrite Hf1. cbn [negb app].
    apply wp_bind, wp_tell, wp_modify. split; [done|].
    rewrite !logged_app, He1. unfold written. simpl. rewrite !app_nil_r.
    unfold blen. by rewrite Nat2Z.id, take_ge.
Qed.

Lemma write_files_ok bufs : forall answers f,
  Forall (AsyncLogging.full SIZE) bufs -> (forall i, answer_ok (answers i)) ->
  LogFile.fp_ f = true ->
  wp (write_files bufs answers) f
    (fun _ f' es => LogFile.fp_ f' = true /\ written es = flat_map AsyncLogging.text bufs).
Proof.
  induction bufs as [|p bufs IH]; intros answers f Hb Ha Hf; cbn [write_files].
  { unfold LogFile.flush. by wp_steps. }
  apply Forall_cons in Hb as [(b & -> & _) Hb]. destruct (Ha 0%nat) as [Ho Hl].
  apply wp_bind. eapply wp_lift; [done|]. cbn [app]. rewrite Hl, Z.sub_0_r.
  apply wp_bind. eapply wp_mono; [by apply append_file|]. intros _ f1 es1 [Hf1 He1].
  eapply wp_mono; [by apply IH|]. intros _ f2 es2 [Hf2 He2].
  split; [done|]. rewrite logged_app, He1, He2. done.
Qed.

(** A statement gives its record to the output function, and stops the process if it
    is FATAL. *)
Lemma log_spec st s :
  inv s -> label_ok (LStatement st) -> aborted s = false ->
  exists s', log st s = Ok s' /\ inv s' /\ globalLogLevel s' = globalLogLevel s /\
    g_output s' = g_output s /\
    aborted s' = (enabled st (globalLogLevel s) && is_fatal st) /\
    forall target, given target s' = given target s ++
      (if enabled st (globalLogLevel s) then
         if decide (g_output s = target) then record_of st else [] else []).
Proof.
  intros Hs [Hm Hr] Hab. unfold log. destruct (enabled st (globalLogLevel s)) eqn:He; last first.
  { exists s. split_and!; try done. intros target. by rewrite app_nil_r. }
  rewrite Logger.statement_record by done. cbn [obind].
  change (Logger.record _ _ _ _ _) with (record_of st).
  assert (exists s1, perform (Logger.EOutput (record_of st)) s = Ok s1 /\ inv s1 /\
    globalLogLevel s1 = globalLogLevel s /\ g_output s1 = g_output s /\ aborted s1 = false /\
    forall target, given target s1 = given target s ++
      (if decide (g_output s = target) then record_of st else []))
    as (s1 & E1 & Hs1 & Hl1 & Ho1 & Ha1 & Hg1).
  { cbn [perform]. destruct (g_output s) eqn:Ho.
    - eexists. split; [done|]. split; [by destruct Hs; split|]. split_and!; try done.
      intros []; simpl; rewrite ?app_nil_r, ?app_assoc; done.
    - destruct (AsyncLogging.append_step SIZE SIZE_small (record_of st) (async s)) as (a & Ea & Hi & Hu);
        [apply Hs|].
      unfold run_asyncOutput. rewrite Ea. cbn [obind]. eexists. split; [done|].
      split; [by destruct Hs; split|]. split_and!; try done.
      intros []; simpl; rewrite ?app_nil_r; [done|]. rewrite Hu.
      rewrite (proj2 (Z.ltb_lt _ _)) by lia. by rewrite app_assoc. }
  cbn [performs]. rewrite E1. cbn [obind]. unfold is_fatal.
  destruct (level st); try (exists s1; split_and!; done).
  cbn [performs perform obind]. eexists. split; [done|]. split; [by destruct Hs1; split|].
  split_and!; try done. intros target. rewrite <- Hg1.
  destruct target; simpl; by rewrite ?app_nil_r.
Qed.

Lemma expected_cons target s l ls :
  (forall st, l <> LStatement st) ->
  expected target (globalLogLevel s) (g_output s) (l :: ls) =
  expected target (match l with LSetLogLevel l => l | _ => globalLogLevel s end)
    (match l with LSetOutput o => o | _ => g_output s end) ls.
Proof. destruct l; try done. intros H. by destruct (H st). Qed.

(** The steps that are not statements give nothing to a target. *)
Lemma quiet_step l s :
  inv s -> label_ok l -> aborted s = false -> (forall st, l <> LStatement st) ->
  exists s', step l s = Ok s' /\ inv s' /\ aborted s' = false /\
    globalLogLevel s' = match l with LSetLogLevel l => l | _ => globalLogLevel s end /\
    g_output s' = match l with LSetOutput o => o | _ => g_output s end /\
    forall target, given target s' = given target s.
Proof.
  intros [Ha Hf] Hok Hab Hl. unfold step. rewrite Hab. destruct l as [st|lv|o|l|answers].
  - by destruct (Hl st).
  - by eexists.
  - by eexists.
  - assert (Hskip : exists s', Ok s = Ok s' /\ inv s' /\ aborted s' = false /\
      globalLogLevel s' = globalLogLevel s /\ g_output s' = g_output s /\
      forall target, given target s' = given target s) by (exists s; by split_and!).
    destruct (AsyncLogging.log_step SIZE SIZE_small l (async s) Ha)
      as (out & a & E & Hi & Hu).
    assert (Hx : match l with AsyncLogging.LAppend _ | AsyncLogging.LWrite => True
      | _ => out = [] /\ AsyncLogging.unwritten a = AsyncLogging.unwritten (async s) end).
    { destruct l; try done; simpl in E, Hu; rewrite app_nil_r in Hu.
      - by injection E as <- <-.
      - destruct (AsyncLogging.pc_ (async s)); [apply obind_Ok in E as (x & _ & E)|..];
          injection E as <- <-; done.
      - destruct (AsyncLogging.pc_ (async s)); [|apply obind_Ok in E as (x & _ & E)|..];
          injection E as <- <-; done. }
    destruct l; try exact Hskip; rewrite E; cbn [obind]; destruct Hx as [-> Hx];
      (eexists; split; [done|]); split_and!; try done; intros []; simpl; by rewrite ?Hx.
  - destruct (AsyncLogging.pc_ (async s)) eqn:Hpc; try (exists s; by split_and!).
    pose proof (AsyncLogging.i_backend _ _ Ha) as Hb. rewrite Hpc in Hb. destruct Hb as (_ & Hfull & _).
    destruct (wp_elim _ _ _ (write_files_ok _ answers (output s) Hfull Hok Hf)) as ([] & f & es & E & Hf' & He).
    destruct (AsyncLogging.write_step SIZE (async s) Ha Hpc) as (out & a & Ew & Hi & Hu).
    rewrite E, Ew. cbn [obind]. eexists. split; [done|]. split_and!; try done.
    assert (out = flat_map AsyncLogging.text (AsyncLogging.buffersToWrite (async s))) as ->.
    { unfold AsyncLogging.write in Ew. rewrite (AsyncLogging.write_buffers_ok SIZE) in Ew by done.
      cbn [obind] in Ew. apply obind_Ok in Ew as ([? ?] & _ & Ew).
      apply obind_Ok in Ew as ([? ?] & _ & Ew). by injection Ew as <- _. }
    intros []; simpl; [done|]. by rewrite logged_app, He, <- app_assoc, Hu.
Qed.

Lemma exec_aborted ls s : aborted s = true -> exec ls s = Ok s.
Proof. intros H. induction ls as [|l ls IH]; [done|]. cbn [exec]. unfold step. by rewrite H. Qed.

Lemma pipeline_exec ls : forall s,
  inv s -> Forall label_ok ls -> aborted s = false ->
  exists s', exec ls s = Ok s' /\ inv s' /\
    forall target, given target s' =
      given target s ++ expected target (globalLogLevel s) (g_output s) ls.
Proof.
  induction ls as [|l ls IH]; intros s Hs Hok Hab.
  { exists s. split_and!; try done. intros target. by rewrite app_nil_r. }
  apply Forall_cons in Hok as [Hl Hok]. cbn [exec].
  destruct (match l with LStatement st => true | _ => false end) eqn:Hst.
  - destruct l as [st|?|?|?|?]; try done. unfold step. rewrite Hab.
    destruct (log_spec st s Hs Hl Hab) as (s1 & -> & Hs1 & Hl1 & Ho1 & Ha1 & Hg1). cbn [obind expected].
    destruct (enabled st (globalLogLevel s)); cbn [andb] in Ha1.
    + destruct (is_fatal st).
      * rewrite exec_aborted by done. exists s1. split_and!; try done. intros target.
        by rewrite app_nil_r.
      * destruct (IH s1 Hs1 Hok Ha1) as (s2 & -> & Hs2 & Hg2). exists s2. split_and!; try done.
        intros target. by rewrite Hg2, Hg1, Hl1, Ho1, <- app_assoc.
    + destruct (IH s1 Hs1 Hok Ha1) as (s2 & -> & Hs2 & Hg2). exists s2. split_and!; try done.
      intros target. by rewrite Hg2, Hg1, Hl1, Ho1, app_nil_r.
  - destruct (quiet_step l s Hs Hl Hab) as (s1 & -> & Hs1 & Ha1 & Hl1 & Ho1 & Hg1); [by intros st ->|].
    cbn [obind]. destruct (IH s1 Hs1 Hok Ha1) as (s2 & -> & Hs2 & Hg2). exists s2.
    split_and!; try done. intros target. rewrite Hg2, Hg1, Hl1, Ho1.
    by rewrite expected_cons by (by intros st ->).
Qed.

(** ** Properties *)


End pipeline.

(** The boot of the program: a line to [stdout], the rest to the file. *)
Definition test_statement (level : Logger.LogLevel) (text : string) : statement :=
  Stmt (replicate 4000 (chr 0)) (str "t") (str "main.cpp") 1 level [LogStream.IString (str text)].

Definition test_answers (i : nat) : answer :=
  Answer (LogFile.test_day 22) (LogFile.test_roll 22) 0.

Definition test_run : list label :=
  [LStatement (test_statement Logger.INFO "a"); LSetOutput asyncOutput;
   LStatement (test_statement Logger.INFO "b"); LBackend AsyncLogging.LTop;
   LBackend AsyncLogging.LSwap; LStatement (test_statement Logger.ERROR "c"); LWrite test_answers;
   LStatement (test_statement Logger.FATAL "d"); LStatement (test_statement Logger.INFO "e")].


(** [g_flush] only flushes [stdout]: the record of the FATAL statement that ends the
    process is lost with the buffers of the log, like the one before it. *)
Example fatal_record_lost :
  match start 4096 (str "log") (LogFile.test_roll 22) with
  | Ok s0 =>
      match exec 4096 false test_run s0 with
      | Ok s => aborted s = true /\
          written (on_file s) = record_of (test_statement Logger.INFO "b") /\
          AsyncLogging.unwritten (async s) =
            record_of (test_statement Logger.ERROR "c") ++ record_of (test_statement Logger.FATAL "d") /\
          stdout s = record_of (test_statement Logger.INFO "a")
      | Fault _ => False
      end
  | Fault _ => False
  end.
Proof. vm_compute. split_and!; reflexivity. Qed.

(** [stop] while the backend is at its test: what was logged since the last iteration
    stays in the buffers, and is lost with the process. *)
Example stop_loses_lines :
  match start 4096 (str "log") (LogFile.test_roll 22) with
  | Ok s0 =>
      match exec 4096 false
          [LSetOutput asyncOutput; LStatement (test_statement Logger.INFO "b");
           LBackend AsyncLogging.LStop; LBackend AsyncLogging.LTop] s0 with
      | Ok s => AsyncLogging.pc_ (async s) = AsyncLogging.PcDone /\ written (on_file s) = [] /\
          AsyncLogging.unwritten (async s) = record_of (test_statement Logger.INFO "b")
      | Fault _ => False
      end
  | Fault _ => False
  end.
Proof. vm_compute. split_and!; reflexivity. Qed.

End LogPipeline.
