(* ===== verification/Channel.v ===== *)
(** * Channel: src/src/net/Channel.{h,cpp} and the epoll bookkeeping of Epoll.cpp

    A [Channel.t] holds the event mask of one file descriptor.  Every change of
    the mask goes through [EventLoop::updateChannel] to [Epoll::updateChannel],
    which makes one [epoll_ctl] call: these calls are the effects of the
    operations.  [Channel.dispatch] is [handleEventWithGuard]: the callbacks a
    ready mask leads to, in order. *)

From S2P Require Import Prelude.

Module Channel.

(** The bits of <sys/epoll.h>. *)
Definition EPOLLIN : Z := 1.
Definition EPOLLPRI : Z := 2.
Definition EPOLLOUT : Z := 4.
Definition EPOLLERR : Z := 8.
Definition EPOLLHUP : Z := 16.
Definition EPOLLRDHUP : Z := 8192.

Record t := mk {
  fd_ : Z;
  events_ : Z;
  revents_ : Z;
  inEpoll_ : bool;
  tied_ : bool;
}.

(** The [epoll_ctl] calls. *)
Inductive ctl :=
| CtlAdd (fd events : Z)
| CtlMod (fd events : Z)
| CtlDel (fd : Z).

#[export] Instance ctl_eq_dec : EqDecision ctl.
Proof. solve_decision. Defined.

Definition M := ST t ctl.

Definition make (fd : Z) : t := mk fd 0 0 false false.

Definition set_events (e : Z) (c : t) : t := mk (fd_ c) e (revents_ c) (inEpoll_ c) (tied_ c).
Definition setRevents (r : Z) (c : t) : t := mk (fd_ c) (events_ c) r (inEpoll_ c) (tied_ c).
Definition setInEpoll (b : bool) (c : t) : t := mk (fd_ c) (events_ c) (revents_ c) b (tied_ c).
Definition tie (c : t) : t := mk (fd_ c) (events_ c) (revents_ c) (inEpoll_ c) true.

(** [Epoll::updateChannel]: the result of [epoll_ctl] is not looked at. *)
Definition updateChannel : M unit :=
  let* ch := st_get in
  if negb (inEpoll_ ch) then
    st_tell [CtlAdd (fd_ ch) (events_ ch)] ;;; st_modify (setInEpoll true)
  else st_tell [CtlMod (fd_ ch) (events_ ch)].

(** [Epoll::removeChannel]. *)
Definition removeChannel : M unit :=
  let* ch := st_get in
  st_when (inEpoll_ ch)
    (st_tell [CtlDel (fd_ ch)] ;;; st_modify (setInEpoll false)).

(** [Channel::update], through [EventLoop::updateChannel]. *)
Definition update : M unit := updateChannel.

Definition set_and_update (f : Z -> Z) : M unit :=
  st_modify (fun c => set_events (f (events_ c)) c) ;;; update.

(** [~x] on a [uint32_t]. *)
Definition not32 (x : Z) : Z := 2^32 - 1 - x.

Definition enableReading : M unit := set_and_update (fun e => Z.lor e EPOLLIN).
Definition disableReading : M unit := set_and_update (fun e => Z.land e (not32 EPOLLIN)).
Definition enableWriting : M unit := set_and_update (fun e => Z.lor e EPOLLOUT).
Definition disableWriting : M unit := set_and_update (fun e => Z.land e (not32 EPOLLOUT)).
Definition disableAll : M unit := set_and_update (fun _ => 0).

Definition remove : M unit := disableAll ;;; removeChannel.

Definition has (mask bits : Z) : bool := negb (Z.land mask bits =? 0).
Definition isWriting (c : t) : bool := has (events_ c) EPOLLOUT.
Definition isReading (c : t) : bool := has (events_ c) EPOLLIN.

(** ** Dispatch *)

Inductive callback := CbClose | CbError | CbRead | CbWrite.

(** Which of the four [std::function]s are set. *)
Record callbacks := Callbacks {
  has_close : bool; has_error : bool; has_read : bool; has_write : bool
}.

(** A new channel has none, and each setter sets one. *)
Definition no_callbacks : callbacks := Callbacks false false false false.
Definition setReadCallback (cbs : callbacks) : callbacks :=
  Callbacks (has_close cbs) (has_error cbs) true (has_write cbs).
Definition setWriteCallback (cbs : callbacks) : callbacks :=
  Callbacks (has_close cbs) (has_error cbs) (has_read cbs) true.
Definition setCloseCallback (cbs : callbacks) : callbacks :=
  Callbacks true (has_error cbs) (has_read cbs) (has_write cbs).
Definition setErrorCallback (cbs : callbacks) : callbacks :=
  Callbacks (has_close cbs) true (has_read cbs) (has_write cbs).

(** [handleEventWithGuard] *)
Definition dispatch (cbs : callbacks) (revents : Z) : list callback :=
  (if has revents EPOLLHUP && negb (has revents EPOLLIN)
   then if has_close cbs then [CbClose] else [] else []) ++
  (if has revents EPOLLERR then if has_error cbs then [CbError] else [] else []) ++
  (if has revents (Z.lor EPOLLIN (Z.lor EPOLLPRI EPOLLRDHUP))
   then if has_read cbs then [CbRead] else [] else []) ++
  (if has revents EPOLLOUT then if has_write cbs then [CbWrite] else [] else []).

(** [handleEvent]: a tied channel whose owner is gone calls nothing. *)
Definition handleEvent (owner_alive : bool) (cbs : callbacks) (c : t) : list callback :=
  if tied_ c then
    if owner_alive then dispatch cbs (revents_ c) else []
  else dispatch cbs (revents_ c).

(** ** Operations as data, for runs of any length *)

Inductive op :=
| OpEnableReading | OpDisableReading | OpEnableWriting | OpDisableWriting
| OpDisableAll | OpRemove.

Definition run_op (o : op) : M unit :=
  match o with
  | OpEnableReading => enableReading
  | OpDisableReading => disableReading
  | OpEnableWriting => enableWriting
  | OpDisableWriting => disableWriting
  | OpDisableAll => disableAll
  | OpRemove => remove
  end.

Fixpoint run (os : list op) : M unit :=
  match os with
  | [] => st_ret tt
  | o :: os => run_op o ;;; run os
  end.

(** ** The kernel's interest list, as epoll_ctl(2) documents it

    [ADD] of a registered descriptor fails with [EEXIST], [MOD] and [DEL] of an
    unregistered one with [ENOENT]: [None]. *)
Definition kernel_ctl (c : ctl) (interest : gmap Z Z) : option (gmap Z Z) :=
  match c with
  | CtlAdd fd ev => match interest !! fd with Some _ => None | None => Some (<[fd := ev]> interest) end
  | CtlMod fd ev => match interest !! fd with Some _ => Some (<[fd := ev]> interest) | None => None end
  | CtlDel fd => match interest !! fd with Some _ => Some (delete fd interest) | None => None end
  end.

Fixpoint kernel_run (cs : list ctl) (interest : gmap Z Z) : option (gmap Z Z) :=
  match cs with
  | [] => Some interest
  | c :: cs => interest ← kernel_ctl c interest; kernel_run cs interest
  end.

(** The interest list agrees with the channel. *)
Definition registered (c : t) (interest : gmap Z Z) : Prop :=
  interest !! fd_ c = if inEpoll_ c then Some (events_ c) else None.

(** ** Lemmas *)

(** The mask of one bit is that bit. *)
Lemma has_bit e k : 0 <= k -> has e (2^k) = Z.testbit e k.
Proof.
  intros Hk. unfold has.
  assert (Z.land e (2^k) = if Z.testbit e k then 2^k else 0) as ->.
  { apply Z.bits_inj'. intros n Hn. rewrite Z.land_spec, Z.pow2_bits_eqb by done.
    destruct (Z.eqb_spec k n) as [->|Hne].
    - destruct (Z.testbit e n) eqn:E; simpl; [|by rewrite Z.bits_0].
      by rewrite Z.pow2_bits_true.
    - rewrite andb_false_r. destruct (Z.testbit e k); [|by rewrite Z.bits_0].
      by rewrite Z.pow2_bits_false. }
  pose proof (Z.pow_pos_nonneg 2 k). destruct (Z.testbit e k); [|done].
  apply negb_true_iff, Z.eqb_neq. lia.
Qed.

Lemma isWriting_bit c : isWriting c = Z.testbit (events_ c) 2.
Proof. apply (has_bit _ 2). lia. Qed.
Lemma isReading_bit c : isReading c = Z.testbit (events_ c) 0.
Proof. apply (has_bit _ 0). lia. Qed.

Lemma updateChannel_run c :
  updateChannel c =
    Ok (tt, setInEpoll true c,
        [if inEpoll_ c then CtlMod (fd_ c) (events_ c) else CtlAdd (fd_ c) (events_ c)]).
Proof. destruct c as [? ? ? [] ?]; reflexivity. Qed.

Lemma set_and_update_run f c :
  set_and_update f c =
    Ok (tt, setInEpoll true (set_events (f (events_ c)) c),
        [if inEpoll_ c then CtlMod (fd_ c) (f (events_ c))
         else CtlAdd (fd_ c) (f (events_ c))]).
Proof. destruct c as [? ? ? [] ?]; reflexivity. Qed.

Lemma remove_run c :
  remove c =
    Ok (tt, setInEpoll false (set_events 0 c),
        [if inEpoll_ c then CtlMod (fd_ c) 0 else CtlAdd (fd_ c) 0; CtlDel (fd_ c)]).
Proof. destruct c as [? ? ? [] ?]; reflexivity. Qed.

(** What the operations do to the two interests. *)
Lemma enableWriting_spec c :
  exists c' cs, enableWriting c = Ok (tt, c', cs) /\ isWriting c' = true /\
    isReading c' = isReading c /\ fd_ c' = fd_ c.
Proof.
  unfold enableWriting. rewrite set_and_update_run. eexists _, _. split; [done|].
  rewrite isWriting_bit, !isReading_bit. cbn [events_ setInEpoll set_events]. rewrite !Z.lor_spec.
  change (Z.testbit EPOLLOUT 2) with true. change (Z.testbit EPOLLOUT 0) with false.
  by rewrite orb_true_r, orb_false_r.
Qed.

Lemma disableWriting_spec c :
  exists c' cs, disableWriting c = Ok (tt, c', cs) /\ isWriting c' = false /\
    isReading c' = isReading c /\ fd_ c' = fd_ c.
Proof.
  unfold disableWriting. rewrite set_and_update_run. eexists _, _. split; [done|].
  rewrite isWriting_bit, !isReading_bit. cbn [events_ setInEpoll set_events]. rewrite !Z.land_spec.
  change (Z.testbit (not32 EPOLLOUT) 2) with false.
  change (Z.testbit (not32 EPOLLOUT) 0) with true.
  by rewrite andb_true_r, andb_false_r.
Qed.

Lemma enableReading_spec c :
  exists c' cs, enableReading c = Ok (tt, c', cs) /\ isWriting c' = isWriting c /\
    isReading c' = true /\ fd_ c' = fd_ c.
Proof.
  unfold enableReading. rewrite set_and_update_run. eexists _, _. split; [done|].
  rewrite !isWriting_bit, isReading_bit. cbn [events_ setInEpoll set_events]. rewrite !Z.lor_spec.
  change (Z.testbit EPOLLIN 2) with false. change (Z.testbit EPOLLIN 0) with true.
  by rewrite orb_true_r, orb_false_r.
Qed.

Lemma disableAll_spec c :
  exists c' cs, disableAll c = Ok (tt, c', cs) /\ isWriting c' = false /\
    isReading c' = false /\ fd_ c' = fd_ c.
Proof. unfold disableAll. rewrite set_and_update_run. by eexists _, _. Qed.

Lemma remove_spec c :
  exists c' cs, remove c = Ok (tt, c', cs) /\ isWriting c' = false /\
    isReading c' = false /\ inEpoll_ c' = false /\ fd_ c' = fd_ c.
Proof. rewrite remove_run. by eexists _, _. Qed.

Lemma kernel_run_app cs1 cs2 i :
  kernel_run (cs1 ++ cs2) i = i ← kernel_run cs1 i; kernel_run cs2 i.
Proof.
  revert i. induction cs1 as [|c cs IH]; intros i; simpl; [done|].
  destruct (kernel_ctl c i); simpl; [apply IH | done].
Qed.

Lemma registered_update f c i :
  registered c i ->
  exists i', kernel_run [if inEpoll_ c then CtlMod (fd_ c) (f (events_ c))
                         else CtlAdd (fd_ c) (f (events_ c))] i = Some i' /\
    registered (setInEpoll true (set_events (f (events_ c)) c)) i' /\
    forall fd, fd <> fd_ c -> i' !! fd = i !! fd.
Proof.
  unfold registered. simpl. intros Hr. exists (<[fd_ c := f (events_ c)]> i).
  split_and!; [by destruct (inEpoll_ c); simpl; rewrite Hr | apply lookup_insert_eq |].
  intros fd Hne. by rewrite lookup_insert_ne.
Qed.

Lemma run_op_registered o c i :
  registered c i ->
  exists c' cs i', run_op o c = Ok (tt, c', cs) /\ kernel_run cs i = Some i' /\
    registered c' i' /\ fd_ c' = fd_ c /\ forall fd, fd <> fd_ c -> i' !! fd = i !! fd.
Proof.
  intros Hr.
  assert (Hset : forall f, exists c' cs i', set_and_update f c = Ok (tt, c', cs) /\
    kernel_run cs i = Some i' /\ registered c' i' /\ fd_ c' = fd_ c /\
    forall fd, fd <> fd_ c -> i' !! fd = i !! fd).
  { intros f. rewrite set_and_update_run.
    destruct (registered_update f c i Hr) as (i' & ? & ? & ?). do 2 eexists. by exists i'. }
  destruct o; cbn [run_op]; try apply Hset.
  rewrite remove_run. destruct (registered_update (fun _ => 0) c i Hr) as (i' & Hk & Hr' & Hi').
  eexists _, _, (delete (fd_ c) i'). split; [done|]. split_and!.
  - change [?x; ?y] with ([x] ++ [y]). rewrite kernel_run_app, Hk. simpl.
    unfold registered in Hr'. simpl in Hr'. by rewrite Hr'.
  - unfold registered. simpl. apply lookup_delete_eq.
  - done.
  - intros fd Hne. rewrite lookup_delete_ne by done. by apply Hi'.
Qed.

(** ** Properties *)

(** C25. The epoll protocol: whatever operations run on a channel, in whatever
    order, no [epoll_ctl] call they make can fail with [EEXIST] or [ENOENT], and
    the kernel's interest list ends up with the mask [events_] exactly when the
    channel believes to be registered; other descriptors are not touched. *)
Theorem epoll_protocol (os : list op) (c : t) (interest : gmap Z Z) :
  registered c interest ->
  exists c' cs interest', run os c = Ok (tt, c', cs) /\
    kernel_run cs interest = Some interest' /\
    interest' !! fd_ c = (if inEpoll_ c' then Some (events_ c') else None) /\
    forall fd, fd <> fd_ c -> interest' !! fd = interest !! fd.
Proof.
  revert c interest. induction os as [|o os IH]; intros c i Hr.
  { exists c, [], i. by split_and!. }
  destruct (run_op_registered o c i Hr) as (c1 & cs1 & i1 & Ho & Hk1 & Hr1 & Hfd & Hi1).
  destruct (IH c1 i1 Hr1) as (c2 & cs2 & i2 & Hrun & Hk2 & Hr2 & Hi2).
  exists c2, (cs1 ++ cs2), i2. cbn [run]. unfold st_bind. rewrite Ho, Hrun.
  rewrite kernel_run_app, Hk1. rewrite Hfd in *. split_and!; try done.
  intros fd Hne. rewrite Hi2, Hi1; done.
Qed.

Lemma epoll_protocol_witness :
  exists c' cs interest',
    run [OpEnableReading; OpEnableWriting; OpRemove; OpEnableReading] (make 7) =
      Ok (tt, c', cs) /\
    kernel_run cs {[3 := 1]} = Some interest' /\
    interest' !! 7 = (if inEpoll_ c' then Some (events_ c') else None) /\
    forall fd, fd <> 7 -> interest' !! fd = ({[3 := 1]} : gmap Z Z) !! fd.
Proof.
  apply (epoll_protocol [OpEnableReading; OpEnableWriting; OpRemove; OpEnableReading] (make 7)).
  reflexivity.
Defined.

End Channel.
