(* ===== verification/TcpConnection.v ===== *)
(** * TcpConnection: src/src/tcp/TcpConnection.{h,cpp}

    A [TcpConnection.t] holds the data members of the connection: its state, its
    channel, the file being sent, the watermarks and the two buffers.  Every
    method is an operation in the monad [M]; its effects are the system calls it
    makes on the socket and on files, the functors it queues on its loop, and the
    calls of the user's callbacks.  The results of [write], [sendfile] and
    [readv] are arguments. *)

From S2P Require Import Prelude Buffer Channel.

Module TcpConnection.

Inductive StateE := kDisconnected | kConnecting | kConnected | kDisconnecting.

#[export] Instance StateE_eq_dec : EqDecision StateE.
Proof. solve_decision. Defined.

(** Which of the user's [std::function]s are set. *)
Record callbacks := Callbacks {
  connectionCallback_ : bool;
  messageCallback_ : bool;
  writeCompleteCallback_ : bool;
  lowWaterMarkCallback_ : bool;
  highWaterMarkCallback_ : bool;
  closeCallback_ : bool;
}.

Record t := mk {
  fileFd_ : Z;
  fileSize_ : Z;
  fileOffset_ : Z;
  lowWaterMark_ : Z;
  highWaterMark_ : Z;
  aboveHighWaterMark_ : bool;
  state_ : StateE;
  channel_ : Channel.t;
  callbacks_ : callbacks;
  inputBuffer_ : Buffer.t;
  outputBuffer_ : Buffer.t;
}.

(** The functors a connection queues on its loop. *)
Inductive functor :=
| FWriteComplete
| FLowWaterMark (queuedBytes : Z)
| FHighWaterMark (queuedBytes : Z)
| FSendInLoop (message : bytes)
| FSendFileInLoop (fd fileSize : Z)
| FShutdownInLoop
| FForceCloseInLoop.

(** The user's callbacks that are called at once. *)
Inductive callback := CConnection | CMessage | CClose.

#[export] Instance callback_eq_dec : EqDecision callback.
Proof. solve_decision. Defined.

Inductive effect :=
| EEpoll (c : Channel.ctl)
| EWrite (data : bytes)               (** [::write] took these bytes *)
| ESendfile (fd offset n : Z)         (** [::sendfile] took n bytes at offset *)
| ECloseFd (fd : Z)                   (** [::close] *)
| EShutdownWrite                      (** [Socket::shutdownWrite] *)
| EQueueInLoop (f : functor)
| ECall (c : callback).

Definition M := ST t effect.

Definition kDefaultLowWaterMark : Z := 32 * 1024 * 1024.
Definition kDefaultHighWaterMark : Z := 64 * 1024 * 1024.

(** ** Setters of the data members *)

Definition setState (s : StateE) (c : t) : t :=
  mk (fileFd_ c) (fileSize_ c) (fileOffset_ c) (lowWaterMark_ c) (highWaterMark_ c)
     (aboveHighWaterMark_ c) s (channel_ c) (callbacks_ c) (inputBuffer_ c) (outputBuffer_ c).
Definition set_channel (ch : Channel.t) (c : t) : t :=
  mk (fileFd_ c) (fileSize_ c) (fileOffset_ c) (lowWaterMark_ c) (highWaterMark_ c)
     (aboveHighWaterMark_ c) (state_ c) ch (callbacks_ c) (inputBuffer_ c) (outputBuffer_ c).
Definition set_file (fd size offset : Z) (c : t) : t :=
  mk fd size offset (lowWaterMark_ c) (highWaterMark_ c)
     (aboveHighWaterMark_ c) (state_ c) (channel_ c) (callbacks_ c) (inputBuffer_ c)
     (outputBuffer_ c).
Definition set_above (b : bool) (c : t) : t :=
  mk (fileFd_ c) (fileSize_ c) (fileOffset_ c) (lowWaterMark_ c) (highWaterMark_ c)
     b (state_ c) (channel_ c) (callbacks_ c) (inputBuffer_ c) (outputBuffer_ c).
Definition set_input (b : Buffer.t) (c : t) : t :=
  mk (fileFd_ c) (fileSize_ c) (fileOffset_ c) (lowWaterMark_ c) (highWaterMark_ c)
     (aboveHighWaterMark_ c) (state_ c) (channel_ c) (callbacks_ c) b (outputBuffer_ c).
Definition set_output (b : Buffer.t) (c : t) : t :=
  mk (fileFd_ c) (fileSize_ c) (fileOffset_ c) (lowWaterMark_ c) (highWaterMark_ c)
     (aboveHighWaterMark_ c) (state_ c) (channel_ c) (callbacks_ c) (inputBuffer_ c) b.
Definition set_marks (low high : Z) (lowcb highcb : bool) (c : t) : t :=
  let cb := callbacks_ c in
  mk (fileFd_ c) (fileSize_ c) (fileOffset_ c) low high
     (aboveHighWaterMark_ c) (state_ c) (channel_ c)
     (Callbacks (connectionCallback_ cb) (messageCallback_ cb) (writeCompleteCallback_ cb)
                lowcb highcb (closeCallback_ cb))
     (inputBuffer_ c) (outputBuffer_ c).

Definition is_state (s : StateE) (c : t) : bool := bool_decide (state_ c = s).
Definition connected : t -> bool := is_state kConnected.
Definition disconnected : t -> bool := is_state kDisconnected.

(** An operation of the channel. *)
Definition on_channel (m : Channel.M unit) : M unit :=
  fun c =>
    match m (channel_ c) with
    | Ok (_, ch, cs) => Ok (tt, set_channel ch c, map EEpoll cs)
    | Fault f => Fault f
    end.

Definition queueInLoop (f : functor) : M unit := st_tell [EQueueInLoop f].

(** [loop_->runInLoop(f)]: at once on the loop's thread, queued elsewhere. *)
Definition runInLoop (inLoop : bool) (now : M unit) (f : functor) : M unit :=
  if inLoop then now else queueInLoop f.

(** The constructor: the two buffers are [Buffer()]. *)
Definition make (sockfd : Z) (cbs : callbacks) : outcome t :=
  let! input := Buffer.make Buffer.kInitialSize in
  let! output := Buffer.make Buffer.kInitialSize in
  Ok (mk (-1) 0 0 kDefaultLowWaterMark kDefaultHighWaterMark false kConnecting
         (Channel.make sockfd) cbs input output).

Definition setOutputBufferWatermarks (low high : Z) (lowcb highcb : bool) : M unit :=
  if low <? high then st_modify (set_marks low high lowcb highcb)
  else st_lift (Fault AssertFailure).

Definition connectEstablished : M unit :=
  let* c := st_get in
  if negb (is_state kConnecting c) then st_lift (Fault AssertFailure) else
  st_modify (setState kConnected) ;;;
  st_modify (fun c => set_channel (Channel.tie (channel_ c)) c) ;;;
  on_channel Channel.enableReading ;;;
  st_when (connectionCallback_ (callbacks_ c)) (st_tell [ECall CConnection]).

Definition handleClose : M unit :=
  let* c := st_get in
  if is_state kDisconnected c then st_ret tt else
  st_when (0 <=? fileFd_ c)
    (st_tell [ECloseFd (fileFd_ c)] ;;;
     st_modify (set_file (-1) (fileSize_ c) (fileOffset_ c))) ;;;
  st_modify (setState kDisconnected) ;;;
  on_channel Channel.disableAll ;;;
  st_when (connectionCallback_ (callbacks_ c)) (st_tell [ECall CConnection]) ;;;
  st_when (closeCallback_ (callbacks_ c)) (st_tell [ECall CClose]).

(** [handleError] reads [SO_ERROR] and logs it. *)
Definition handleError : M unit := st_ret tt.

Definition handleRead (r : Buffer.readv_result) : M unit :=
  let* c := st_get in
  let* (b, n, _) := st_lift (Buffer.readFd r (inputBuffer_ c)) in
  st_modify (set_input b) ;;;
  if 0 <? n then
    st_when (messageCallback_ (callbacks_ c)) (st_tell [ECall CMessage])
  else if n =? 0 then handleClose
  else handleError.

Definition shutdownInLoop : M unit :=
  let* c := st_get in
  st_when (negb (Channel.isWriting (channel_ c))) (st_tell [EShutdownWrite]).

(** [outputBuffer_] written to the socket; [false] for the early return. *)
Definition writeOutput (r : sysret) : M bool :=
  let* c := st_get in
  if Buffer.readableBytes (outputBuffer_ c) <=? 0 then st_ret true else
  match r with
  | SysOk n =>
      st_tell [EWrite (take (Z.to_nat n) (Buffer.contents (outputBuffer_ c)))] ;;;
      st_when (0 <? n) (st_modify (fun c => set_output (Buffer.retrieve n (outputBuffer_ c)) c)) ;;;
      st_ret true
  | SysErr e => st_ret (e =? EAGAIN)
  end.

Definition notifyLowWaterMark : M unit :=
  let* c := st_get in
  let queuedBytes := Buffer.readableBytes (outputBuffer_ c) in
  st_when (aboveHighWaterMark_ c && (queuedBytes <=? lowWaterMark_ c))
    (st_modify (set_above false) ;;;
     st_when (lowWaterMarkCallback_ (callbacks_ c)) (queueInLoop (FLowWaterMark queuedBytes))).

(** The file, once the output buffer is empty; [false] for the early returns.
    [::sendfile] moves [fileOffset_] past the bytes it took. *)
Definition writeFile (r : sysret) : M bool :=
  let* c := st_get in
  if (Buffer.readableBytes (outputBuffer_ c) =? 0) && (0 <=? fileFd_ c) then
    match r with
    | SysOk n =>
        st_tell [ESendfile (fileFd_ c) (fileOffset_ c) n] ;;;
        st_modify (set_file (fileFd_ c) (fileSize_ c) (fileOffset_ c + n)) ;;;
        st_ret true
    | SysErr e =>
        if e =? EAGAIN then st_ret false else
        st_tell [ECloseFd (fileFd_ c)] ;;;
        st_modify (set_file (-1) (fileSize_ c) (fileOffset_ c)) ;;;
        st_ret false
    end
  else st_ret true.

Definition finishWrite : M unit :=
  let* c := st_get in
  st_when ((Buffer.readableBytes (outputBuffer_ c) =? 0) &&
           ((fileFd_ c <? 0) || (u64 (fileOffset_ c) =? fileSize_ c)))
    (on_channel Channel.disableWriting ;;;
     st_when (0 <=? fileFd_ c)
       (st_tell [ECloseFd (fileFd_ c)] ;;;
        st_modify (set_file (-1) (fileSize_ c) (fileOffset_ c))) ;;;
     st_when (writeCompleteCallback_ (callbacks_ c)) (queueInLoop FWriteComplete) ;;;
     st_when (is_state kDisconnecting c) shutdownInLoop).

(** [handleWrite], given what [::write] and [::sendfile] answer if called. *)
Definition handleWrite (write_r sendfile_r : sysret) : M unit :=
  let* c := st_get in
  if negb (Channel.isWriting (channel_ c)) then st_ret tt else
  let* go := writeOutput write_r in
  if negb go then st_ret tt else
  notifyLowWaterMark ;;;
  let* go := writeFile sendfile_r in
  if negb go then st_ret tt else
  finishWrite.

(** The direct [::write] of [sendInLoop]: (nwrote, remaining, faultError). *)
Definition directWrite (r : sysret) (message : bytes) : M (Z * Z * bool) :=
  let* c := st_get in
  let size := blen message in
  if negb (Channel.isWriting (channel_ c)) &&
     (Buffer.readableBytes (outputBuffer_ c) =? 0) then
    match r with
    | SysOk nwrote =>
        let remaining := u64 (size - nwrote) in
        st_tell [EWrite (take (Z.to_nat nwrote) message)] ;;;
        st_when ((remaining =? 0) && writeCompleteCallback_ (callbacks_ c))
          (queueInLoop FWriteComplete) ;;;
        st_ret (nwrote, remaining, false)
    | SysErr e =>
        st_ret (0, size,
                negb (e =? EWOULDBLOCK) && ((e =? EPIPE) || (e =? ECONNRESET)))
    end
  else st_ret (0, size, false).

Definition notifyHighWaterMark : M unit :=
  let* c := st_get in
  let queuedBytes := Buffer.readableBytes (outputBuffer_ c) in
  st_when (negb (aboveHighWaterMark_ c) && (highWaterMark_ c <=? queuedBytes))
    (st_modify (set_above true) ;;;
     st_when (highWaterMarkCallback_ (callbacks_ c)) (queueInLoop (FHighWaterMark queuedBytes))).

Definition armWriting : M unit :=
  let* c := st_get in
  st_when (negb (Channel.isWriting (channel_ c))) (on_channel Channel.enableWriting).

(** [outputBuffer_.append(message.data() + nwrote, remaining)]. *)
Definition queueOutput (data : bytes) : M unit :=
  let* c := st_get in
  let* b := st_lift (Buffer.append data (outputBuffer_ c)) in
  st_modify (set_output b).

Definition sendInLoop (r : sysret) (message : bytes) : M unit :=
  let* c := st_get in
  if is_state kDisconnected c then st_ret tt else
  let* (nwrote, remaining, faultError) := directWrite r message in
  st_when (negb faultError && (0 <? remaining))
    (queueOutput (take (Z.to_nat remaining) (drop (Z.to_nat nwrote) message)) ;;;
     notifyHighWaterMark ;;;
     armWriting).

Definition send (inLoop : bool) (r : sysret) (buf : bytes) : M unit :=
  let* c := st_get in
  st_when (is_state kConnected c)
    (runInLoop inLoop (sendInLoop r buf) (FSendInLoop buf)).

Definition sendFileInLoop (fd fileSize : Z) : M unit :=
  let* c := st_get in
  if is_state kDisconnected c then st_tell [ECloseFd fd] else
  st_modify (set_file fd fileSize 0) ;;;
  armWriting.

Definition sendFile (inLoop : bool) (fd fileSize : Z) : M unit :=
  let* c := st_get in
  st_when (is_state kConnected c)
    (runInLoop inLoop (sendFileInLoop fd fileSize) (FSendFileInLoop fd fileSize)).

(** [shutdown] tests [state_] and then sets it: two accesses of an atomic. *)
Definition shutdown_set (inLoop : bool) : M unit :=
  st_modify (setState kDisconnecting) ;;;
  runInLoop inLoop shutdownInLoop FShutdownInLoop.

Definition shutdown (inLoop : bool) : M unit :=
  let* c := st_get in
  st_when (is_state kConnected c) (shutdown_set inLoop).

Definition connectDestroyed : M unit :=
  let* c := st_get in
  st_when (is_state kConnected c || is_state kDisconnecting c)
    (st_modify (setState kDisconnected) ;;;
     on_channel Channel.disableAll ;;;
     if connectionCallback_ (callbacks_ c) then st_tell [ECall CConnection]
     else st_lift (Fault BadFunctionCall)) ;;;
  on_channel Channel.remove.

Definition forceClose : M unit :=
  let* c := st_get in
  st_when (is_state kConnected c || is_state kDisconnecting c)
    (st_modify (setState kDisconnecting) ;;;
     queueInLoop FForceCloseInLoop).

Definition forceCloseInLoop : M unit :=
  let* c := st_get in
  st_when (is_state kConnected c || is_state kDisconnecting c) handleClose.

(** The destructor: [socket_] closes its descriptor. *)
Definition destroy : M unit :=
  let* c := st_get in st_tell [ECloseFd (Channel.fd_ (channel_ c))].

(** ** Everything that can happen to a connection, as events

    The methods of the class and the callbacks of its channel, with what the
    kernel answers, and the reads the message callback does on the input buffer.
    [EvSend false], [EvSendFile false] and [EvShutdown false] are the calls from
    other threads: they queue [EvSendInLoop], [EvSendFileInLoop] and
    [EvShutdownInLoop], which run later.  [shutdown] from another thread is one
    event here; [shutdown_set] alone is its second half. *)
Inductive event :=
| EvEstablished
| EvRead (r : Buffer.readv_result)
| EvWrite (write_r sendfile_r : sysret)
| EvClose
| EvConsume (n : Z)
| EvSend (inLoop : bool) (r : sysret) (message : bytes)
| EvSendInLoop (r : sysret) (message : bytes)
| EvSendFile (inLoop : bool) (fd fileSize : Z)
| EvSendFileInLoop (fd fileSize : Z)
| EvShutdown (inLoop : bool)
| EvShutdownInLoop
| EvForceClose
| EvForceCloseInLoop
| EvDestroyed.

Definition run_event (e : event) : M unit :=
  match e with
  | EvEstablished => connectEstablished
  | EvRead r => handleRead r
  | EvWrite write_r sendfile_r => handleWrite write_r sendfile_r
  | EvClose => handleClose
  | EvConsume n => st_modify (fun c => set_input (Buffer.retrieve n (inputBuffer_ c)) c)
  | EvSend inLoop r message => send inLoop r message
  | EvSendInLoop r message => sendInLoop r message
  | EvSendFile inLoop fd fileSize => sendFile inLoop fd fileSize
  | EvSendFileInLoop fd fileSize => sendFileInLoop fd fileSize
  | EvShutdown inLoop => shutdown inLoop
  | EvShutdownInLoop => shutdownInLoop
  | EvForceClose => forceClose
  | EvForceCloseInLoop => forceCloseInLoop
  | EvDestroyed => connectDestroyed
  end.

(** What the effects say about each concern. *)
Definition written (es : list effect) : bytes :=
  flat_map (fun e => match e with EWrite d => d | _ => [] end) es.
Definition closed (es : list effect) : list Z :=
  flat_map (fun e => match e with ECloseFd fd => [fd] | _ => [] end) es.
Definition called (es : list effect) : list callback :=
  flat_map (fun e => match e with ECall cb => [cb] | _ => [] end) es.
Definition half_closed (es : list effect) : bool :=
  existsb (fun e => match e with EShutdownWrite => true | _ => false end) es.

(** The watermark notifications: [true] for the high mark. *)
Definition marks (es : list effect) : list (bool * Z) :=
  flat_map (fun e =>
    match e with
    | EQueueInLoop (FHighWaterMark q) => [(true, q)]
    | EQueueInLoop (FLowWaterMark q) => [(false, q)]
    | _ => []
    end) es.

(** The sends an event does on the loop's thread: the messages it accepts are
    those not refused because the connection is down or the socket broken. *)
Definition direct (c : t) : bool :=
  negb (Channel.isWriting (channel_ c)) && (Buffer.readableBytes (outputBuffer_ c) =? 0).

Definition fatal_errno (r : sysret) : bool :=
  match r with
  | SysOk _ => false
  | SysErr e => (e =? EPIPE) || (e =? ECONNRESET)
  end.

Definition sends (c : t) (e : event) : option (sysret * bytes) :=
  match e with
  | EvSend true r m => if connected c then Some (r, m) else None
  | EvSendInLoop r m => if disconnected c then None else Some (r, m)
  | _ => None
  end.

Definition accepted (c : t) (e : event) : bytes :=
  match sends c e with
  | Some (r, m) => if direct c && fatal_errno r then [] else m
  | None => []
  end.

(** The files an event hands to the connection, and the one it is sending. *)
Definition adopted (c : t) (e : event) : list Z :=
  match e with
  | EvSendFile true fd _ => if connected c then [fd] else []
  | EvSendFileInLoop fd _ => [fd]
  | _ => []
  end.

Definition pending (c : t) : list Z := if 0 <=? fileFd_ c then [fileFd_ c] else [].

(** The file whose descriptor an event overwrites: nothing refers to it any more. *)
Definition dropped (c : t) (e : event) : list Z :=
  match e with
  | EvSendFile true _ _ => if connected c then pending c else []
  | EvSendFileInLoop _ _ => if disconnected c then [] else pending c
  | _ => []
  end.

Definition is_destroyed (e : event) : bool :=
  match e with EvDestroyed => true | _ => false end.

(** ** What the environment may do *)

Definition answer_ok (limit : Z) (r : sysret) : Prop :=
  match r with SysOk n => 0 <= n <= limit | SysErr _ => True end.

Definition send_ok (c : t) (r : sysret) (m : bytes) : Prop :=
  answer_ok (blen m) r /\ Buffer.size (outputBuffer_ c) + blen m <= Buffer.max_size.

Definition file_ok (fd fileSize : Z) : Prop := 0 <= fd /\ 0 <= fileSize < 2^63.

(** The kernel's answers are in range, there is memory for what is queued, the
    asserted preconditions hold, and what [send] and [sendFile] queue runs after
    the connection was established, as they only queue it then. *)
Definition event_ok (c : t) (e : event) : Prop :=
  match e with
  | EvEstablished => state_ c = kConnecting
  | EvRead (Buffer.ReadvOk d0 d1) =>
      Buffer.readv_ok (inputBuffer_ c) d0 d1 /\
      Buffer.size (inputBuffer_ c) + Buffer.extrabuf_size <= Buffer.max_size
  | EvRead (Buffer.ReadvErr _) => True
  | EvWrite w s =>
      answer_ok (Buffer.readableBytes (outputBuffer_ c)) w /\
      answer_ok (fileSize_ c - fileOffset_ c) s
  | EvConsume n => 0 <= n
  | EvSend _ r m => send_ok c r m
  | EvSendInLoop r m => send_ok c r m /\ state_ c <> kConnecting
  | EvSendFile _ fd n => file_ok fd n
  | EvSendFileInLoop fd n => file_ok fd n /\ state_ c <> kConnecting
  | EvDestroyed => connectionCallback_ (callbacks_ c) = true
  | _ => True
  end.

(** ** Runs *)

(** What a run took in, and its effects, oldest first. *)
Record log := Log {
  l_accepted : bytes;
  l_adopted : list Z;
  l_dropped : list Z;
  l_effects : list effect;
}.

Fixpoint run_log (evs : list event) (c : t) : outcome (t * log) :=
  match evs with
  | [] => Ok (c, Log [] [] [] [])
  | e :: evs =>
      let! (_, c1, es) := run_event e c in
      let! (c2, l) := run_log evs c1 in
      Ok (c2, Log (accepted c e ++ l_accepted l) (adopted c e ++ l_adopted l)
                  (dropped c e ++ l_dropped l) (es ++ l_effects l))
  end.

(** The environment keeps [event_ok] at every step. *)
Fixpoint run_ok (evs : list event) (c : t) : Prop :=
  match evs with
  | [] => True
  | e :: evs =>
      event_ok c e /\
    match run_event e c with Ok (_, c1, _) => run_ok evs c1 | Fault _ => True end
  end.

(** ** The invariant *)

Definition rank (s : StateE) : Z :=
  match s with kConnecting => 0 | kConnected => 1 | kDisconnecting => 2 | kDisconnected => 3 end.

(** Queued bytes or a file to send. *)
Definition has_output (c : t) : Prop :=
  Buffer.contents (outputBuffer_ c) <> [] \/ 0 <= fileFd_ c.

Record wf0 (c : t) : Prop := {
  wf_input : Buffer.wf (inputBuffer_ c);
  wf_output : Buffer.wf (outputBuffer_ c);
  wf_marks : 0 <= lowWaterMark_ c < highWaterMark_ c;
  wf_file : 0 <= fileFd_ c -> 0 <= fileOffset_ c <= fileSize_ c /\ fileSize_ c < 2^63;
  wf_armed : state_ c <> kDisconnected -> has_output c ->
    Channel.isWriting (channel_ c) = true;
  wf_fresh : state_ c = kConnecting -> ~ has_output c;
  wf_down : state_ c = kDisconnected ->
    Channel.isWriting (channel_ c) = false /\ Channel.isReading (channel_ c) = false;
}.

(** The flag [aboveHighWaterMark_] agrees with the queue, up to the hysteresis. *)
Definition above_ok (c : t) : Prop :=
  let queued := Buffer.readableBytes (outputBuffer_ c) in
  if aboveHighWaterMark_ c then lowWaterMark_ c < queued else queued < highWaterMark_ c.

Definition wf (c : t) : Prop := wf0 c /\ above_ok c.

(** Watermark notifications alternate, each at a queue length beyond its mark. *)
Fixpoint alternates (low high : Z) (above : bool) (ms : list (bool * Z)) (above' : bool) : Prop :=
  match ms with
  | [] => above' = above
  | (m, q) :: ms =>
      above = negb m /\ (if m then high <= q else q <= low) /\ alternates low high m ms above'
  end.

(** What operations do, in a form that composes: [acc] are the bytes accepted,
    [ad] and [dr] the files adopted and dropped; [d]: [connectDestroyed] ran. *)
Record trans (d : bool) (c : t) (acc : bytes) (ad dr : list Z) (es : list effect) (c' : t)
    : Prop := {
  tr_bytes : written es ++ Buffer.contents (outputBuffer_ c') =
    Buffer.contents (outputBuffer_ c) ++ acc;
  tr_state : rank (state_ c) <= rank (state_ c');
  tr_config : lowWaterMark_ c' = lowWaterMark_ c /\ highWaterMark_ c' = highWaterMark_ c /\
    callbacks_ c' = callbacks_ c;
  tr_marks :
    lowWaterMarkCallback_ (callbacks_ c) = true ->
    highWaterMarkCallback_ (callbacks_ c) = true ->
    alternates (lowWaterMark_ c) (highWaterMark_ c) (aboveHighWaterMark_ c) (marks es)
      (aboveHighWaterMark_ c');
  tr_closed : closed es ++ pending c' ++ dr ≡ₚ pending c ++ ad;
  tr_called :
    (count_occ callback_eq_dec (called es) CClose + Nat.b2n (disconnected c) <=
     Nat.b2n (disconnected c'))%nat;
  tr_called_once :
    closeCallback_ (callbacks_ c) = true -> d = false ->
    (count_occ callback_eq_dec (called es) CClose + Nat.b2n (disconnected c) =
     Nat.b2n (disconnected c'))%nat;
}.

(** Half-closed, if at all, with nothing left to send. *)
Definition drained (es : list effect) (c' : t) : Prop :=
  half_closed es = true -> state_ c' <> kDisconnected -> ~ has_output c'.

(** ** Lemmas: the effects *)

Lemma written_app es es' : written (es ++ es') = written es ++ written es'.
Proof. apply flat_map_app. Qed.
Lemma closed_app es es' : closed (es ++ es') = closed es ++ closed es'.
Proof. apply flat_map_app. Qed.
Lemma called_app es es' : called (es ++ es') = called es ++ called es'.
Proof. apply flat_map_app. Qed.
Lemma marks_app es es' : marks (es ++ es') = marks es ++ marks es'.
Proof. apply flat_map_app. Qed.
Lemma half_closed_app es es' : half_closed (es ++ es') = half_closed es || half_closed es'.
Proof. apply existsb_app. Qed.

Lemma epoll_silent cs :
  written (map EEpoll cs) = [] /\ closed (map EEpoll cs) = [] /\
  called (map EEpoll cs) = [] /\ marks (map EEpoll cs) = [] /\
  half_closed (map EEpoll cs) = false.
Proof. induction cs as [|c cs IH]; [done|]. exact IH. Qed.

Lemma epoll_written cs : written (map EEpoll cs) = [].
Proof. apply epoll_silent. Qed.
Lemma epoll_closed cs : closed (map EEpoll cs) = [].
Proof. apply epoll_silent. Qed.
Lemma epoll_called cs : called (map EEpoll cs) = [].
Proof. apply epoll_silent. Qed.
Lemma epoll_marks cs : marks (map EEpoll cs) = [].
Proof. apply epoll_silent. Qed.
Lemma epoll_half_closed cs : half_closed (map EEpoll cs) = false.
Proof. apply epoll_silent. Qed.

Create Rewrite HintDb effects.
#[export] Hint Rewrite written_app closed_app called_app marks_app half_closed_app
  epoll_written epoll_closed epoll_called epoll_marks epoll_half_closed
  app_nil_r : effects.

Lemma wp_on_channel (m : Channel.M unit) c ch cs (Q : unit -> t -> list effect -> Prop) :
  m (channel_ c) = Ok (tt, ch, cs) ->
  Q tt (set_channel ch c) (map EEpoll cs) -> wp (on_channel m) c Q.
Proof. unfold wp, on_channel. by intros ->. Qed.

Lemma wlp_on_channel (m : Channel.M unit) c (Q : unit -> t -> list effect -> Prop) :
  (forall ch cs, Q tt (set_channel ch c) (map EEpoll cs)) -> wlp (on_channel m) c Q.
Proof.
  intros H a c' es. unfold on_channel.
  destruct (m (channel_ c)) as [[[[] ch] cs]|]; [|done]. by intros [= <- <- <-].
Qed.

(** Applies the rules of [wlp], the one of the channel's operations included. *)
Ltac wlp_run := repeat first [wlp_step | apply wlp_on_channel; intros ? ?].

Lemma is_state_true s c : is_state s c = true -> state_ c = s.
Proof. apply bool_decide_eq_true. Qed.
Lemma is_state_false s c : is_state s c = false -> state_ c <> s.
Proof. apply bool_decide_eq_false. Qed.

Lemma readable_contents b :
  Buffer.wf b -> (Buffer.readableBytes b = 0 <-> Buffer.contents b = []).
Proof.
  intros Hwf. rewrite <- (Buffer.contents_length _ Hwf). unfold blen. split.
  - intros H. apply length_zero_iff_nil. lia.
  - by intros ->.
Qed.

Lemma not_writing_no_output c :
  wf0 c -> state_ c <> kDisconnected -> Channel.isWriting (channel_ c) = false ->
  ~ has_output c.
Proof. intros Hwf Hd Hw Ho. by rewrite (wf_armed c Hwf Hd Ho) in Hw. Qed.

Lemma trans_refl d c es :
  written es = [] -> closed es = [] -> called es = [] -> marks es = [] ->
  trans d c [] [] [] es c.
Proof.
  intros Hw Hc Hca Hm. split; rewrite ?Hw, ?Hc, ?Hca, ?Hm, ?app_nil_r; try done; simpl.
Qed.

Lemma alternates_app low high a ms a1 ms' a2 :
  alternates low high a ms a1 -> alternates low high a1 ms' a2 ->
  alternates low high a (ms ++ ms') a2.
Proof.
  revert a. induction ms as [|[m q] ms IH]; simpl; intros a; [by intros -> |].
  intros (? & ? & ?) ?. eauto.
Qed.

Lemma trans_trans d d' c acc ad dr es c1 acc' ad' dr' es' c2 :
  trans d c acc ad dr es c1 -> trans d' c1 acc' ad' dr' es' c2 ->
  trans (d || d') c (acc ++ acc') (ad ++ ad') (dr ++ dr') (es ++ es') c2.
Proof.
  intros [B1 S1 (L1 & H1 & C1) M1 F1 K1 O1] [B2 S2 (L2 & H2 & C2) M2 F2 K2 O2].
  split; autorewrite with effects.
  - by rewrite <- app_assoc, B2, app_assoc, B1, <- app_assoc.
  - lia.
  - split_and!; congruence.
  - intros Hl Hh. rewrite L1, H1, C1 in *. eapply alternates_app; eauto.
  - transitivity ((closed es ++ pending c1 ++ dr) ++ ad').
    + rewrite <- !app_assoc. apply Permutation_app_head.
      transitivity ((closed es' ++ pending c2 ++ dr') ++ dr);
        [rewrite <- !app_assoc; by do 2 apply Permutation_app_head; rewrite Permutation_app_comm |].
      rewrite F2, <- !app_assoc. apply Permutation_app_head, Permutation_app_comm.
    + by rewrite F1, <- app_assoc.
  - rewrite count_occ_app. lia.
  - intros Hc [-> ->]%orb_false_iff. rewrite count_occ_app. rewrite C1 in O2.
    specialize (O1 Hc eq_refl). specialize (O2 Hc eq_refl). lia.
Qed.

(** ** Lemmas: the parts of [handleWrite] *)

(** Unfolds the setters. *)
Ltac fields :=
  cbn [setState set_channel set_file set_above set_input set_output set_marks
       fileFd_ fileSize_ fileOffset_ lowWaterMark_ highWaterMark_ aboveHighWaterMark_
       state_ channel_ callbacks_ inputBuffer_ outputBuffer_] in *.

(** The parts of [trans] that hold by computation. *)
Ltac trans_easy :=
  split; autorewrite with effects; fields; unfold pending, disconnected, is_state in *; fields;
  simpl; rewrite ?app_nil_r; try done; try lia; try congruence.

Lemma retrieve_output c n :
  wf0 c -> 0 <= n <= Buffer.readableBytes (outputBuffer_ c) ->
  let c' := set_output (Buffer.retrieve n (outputBuffer_ c)) c in
  wf0 c' /\ Buffer.readableBytes (outputBuffer_ c') <= Buffer.readableBytes (outputBuffer_ c) /\
  Buffer.contents (outputBuffer_ c') = drop (Z.to_nat n) (Buffer.contents (outputBuffer_ c)).
Proof.
  intros Hwf Hn c'. destruct (Buffer.retrieve_spec (outputBuffer_ c) n) as [Hw Hc];
    [apply Hwf | lia |].
  split_and!; [|subst c'; fields; pose proof Hc as Hc2; rewrite <- !Buffer.contents_length, Hc2
                  by (done || apply Hwf); unfold blen; rewrite length_drop; lia | done].
  assert (Ho : has_output c' -> has_output c).
  { unfold has_output, c'. fields. rewrite Hc. intros [Hd|]; [left|by right].
    intros He. by rewrite He, drop_nil in Hd. }
  destruct Hwf as [? ? ? ? Harm Hfr ?].
  split; subst c'; fields; try done; [by intros ? ?%Ho; apply Harm | by intros ? ?%Ho; apply Hfr].
Qed.

Definition same_file (c c' : t) : Prop :=
  fileFd_ c' = fileFd_ c /\ fileSize_ c' = fileSize_ c /\ fileOffset_ c' = fileOffset_ c.

Lemma writeOutput_spec c r :
  wf c -> answer_ok (Buffer.readableBytes (outputBuffer_ c)) r ->
  wp (writeOutput r) c (fun go c1 es =>
    trans false c [] [] [] es c1 /\ half_closed es = false /\ wf0 c1 /\
    (go = false -> c1 = c) /\ same_file c c1 /\
    (aboveHighWaterMark_ c1 = false -> above_ok c1)).
Proof.
  intros [Hwf Ha] Hr. unfold writeOutput.
  wp_steps; simpl; simplify_eq; zbool;
    try (split_and!; [by apply trans_refl | done..]).
  - destruct (retrieve_output c n Hwf Hr) as (Hw & Hl & Hc).
    split_and!; try done.
    + trans_easy. rewrite Hc. apply take_drop.
    + unfold above_ok in *. fields. intros E. rewrite E in *. lia.
  - replace n with 0 by (simpl in Hr; lia). simpl.
    by split_and!; [apply trans_refl | ..].
Qed.

Lemma notifyLowWaterMark_spec c :
  wf0 c -> (aboveHighWaterMark_ c = false -> above_ok c) ->
  wp notifyLowWaterMark c (fun _ c1 es =>
    trans false c [] [] [] es c1 /\ half_closed es = false /\ same_file c c1 /\ wf c1).
Proof.
  intros Hwf Ha. unfold notifyLowWaterMark, queueInLoop. wp_steps; simpl; zbool.
  - split_and!; try done.
    + trans_easy.
    + split; [by destruct Hwf; split|]. unfold above_ok. fields. pose proof (wf_marks c Hwf). lia.
  - split_and!; try done.
    + trans_easy.
    + split; [by destruct Hwf; split|]. unfold above_ok. fields. pose proof (wf_marks c Hwf). lia.
  - split_and!; [by apply trans_refl | done..|]. split; [done|]. unfold above_ok in *.
    destruct (aboveHighWaterMark_ c); [|by apply Ha]. simpl in *. by zbool.
Qed.

Lemma set_file_gone_wf c size offset :
  wf c -> wf (set_file (-1) size offset c).
Proof.
  intros [Hwf Ha]. split; [|done].
  assert (has_output (set_file (-1) size offset c) -> has_output c) as Ho.
  { unfold has_output. fields. intros [?|?]; [by left | lia]. }
  destruct Hwf as [? ? ? ? Harm Hfr ?].
  split; fields; try done; [by intros ? ?%Ho; apply Harm | by intros ? ?%Ho; apply Hfr].
Qed.

Lemma writeFile_spec c r :
  wf c -> answer_ok (fileSize_ c - fileOffset_ c) r ->
  wp (writeFile r) c (fun go c1 es =>
    trans false c [] [] [] es c1 /\ half_closed es = false /\ wf c1).
Proof.
  intros Hwf Hr. unfold writeFile. wp_steps; simpl; simplify_eq; zbool;
    try (by split_and!; [apply trans_refl | ..]).
  - split_and!; [trans_easy | done |]. destruct Hwf as [Hwf Ha]. split; [|done].
    destruct Hwf as [? ? ? Hf ? ? ?]. split; fields; try done.
    simpl in Hr. intros Hfd. specialize (Hf Hfd). lia.
  - split_and!; [trans_easy | done | by apply set_file_gone_wf].
    destruct (0 <=? fileFd_ c) eqn:E; [done | zbool; lia].
Qed.

(** Everything is sent: the file is closed and the channel no longer writes. *)
Lemma finished_spec c ch fd es :
  wf c -> Buffer.readableBytes (outputBuffer_ c) = 0 -> fd < 0 ->
  Channel.isWriting ch = false -> Channel.isReading ch = Channel.isReading (channel_ c) ->
  written es = [] -> called es = [] -> marks es = [] -> closed es = pending c ->
  let c' := set_file fd (fileSize_ c) (fileOffset_ c) (set_channel ch c) in
  trans false c [] [] [] es c' /\ drained es c' /\ wf c'.
Proof.
  intros [Hwf Ha] Hq Hfd Hw Hr E1 E2 E3 E4 c'.
  assert (Hno : ~ has_output c').
  { unfold has_output, c'. fields. intros [Hc|?]; [|lia].
    apply Hc, readable_contents; [apply Hwf | done]. }
  split_and!; [| by intros _ _ |].
  - subst c'. split; rewrite ?E1, ?E2, ?E3, ?E4, ?app_nil_r; try done.
    unfold pending at 2. fields. rewrite (proj2 (Z.leb_gt _ _) Hfd). by rewrite !app_nil_r.
  - split; [|done]. destruct Hwf as [? ? ? Hf ? ? Hd]. split; subst c'; fields; try done; try lia.
    intros Hs. rewrite Hr. split; [done | by apply Hd].
Qed.

Lemma finishWrite_spec c :
  wf c -> wp finishWrite c (fun _ c1 es =>
    trans false c [] [] [] es c1 /\ drained es c1 /\ wf c1).
Proof.
  intros Hwf. unfold finishWrite, shutdownInLoop, queueInLoop.
  destruct (Channel.disableWriting_spec (channel_ c)) as (ch & cs & Hch & Hw & Hr & _).
  wp_steps; try (eapply wp_on_channel; [exact Hch|]); wp_steps;
    try (by split_and!; [apply trans_refl | ..]); zbool;
    (apply (finished_spec c ch (-1)) || apply (finished_spec c ch (fileFd_ c)));
    try done; autorewrite with effects; try done; unfold pending; simpl; try lia.
  all: try by rewrite (proj2 (Z.leb_le _ _)) by done.
  all: try by rewrite (proj2 (Z.leb_gt _ _)) by done.
Qed.

Lemma drained_app es es' c :
  half_closed es = false -> drained es' c -> drained (es ++ es') c.
Proof. unfold drained. by rewrite half_closed_app; intros ->. Qed.

Lemma not_half_closed es c : half_closed es = false -> drained es c.
Proof. unfold drained. by intros ->. Qed.

#[local] Hint Resolve drained_app not_half_closed : core.

(** One more operation after those summed up in [Hinv]. *)
Lemma trans_step c es c1 es' c2 :
  trans false c [] [] [] es c1 -> trans false c1 [] [] [] es' c2 ->
  trans false c [] [] [] (es ++ es') c2.
Proof. intros H1 H2. by apply (trans_trans _ _ _ _ _ _ _ _ _ _ _ _ _ H1 H2). Qed.

Lemma handleWrite_spec c w s :
  wf c -> answer_ok (Buffer.readableBytes (outputBuffer_ c)) w ->
  answer_ok (fileSize_ c - fileOffset_ c) s ->
  wp (handleWrite w s) c (fun _ c' es =>
    wf c' /\ drained es c' /\ trans false c [] [] [] es c').
Proof.
  intros Hwf Hw Hs. unfold handleWrite. apply wp_bind, wp_get. cbn [app].
  wp_step. { apply wp_ret. by split_and!; [| auto | apply trans_refl]. }
  apply wp_bind. eapply wp_mono; [by apply writeOutput_spec|].
  intros go c1 es1 (T1 & H1 & W1 & G1 & (F1 & F2 & F3) & A1).
  destruct go; cbn [negb].
  2:{ apply wp_ret. rewrite G1 in * by done. rewrite app_nil_r. by split_and!; auto. }
  apply wp_bind. eapply wp_mono; [by apply notifyLowWaterMark_spec|].
  intros _ c2 es2 (T2 & H2 & (F1' & F2' & F3') & W2). apply wp_bind.
  eapply wp_mono; [apply writeFile_spec; [done | by rewrite F2', F3', F2, F3]|].
  intros go c3 es3 (T3 & H3 & W3).
  pose proof (trans_step _ _ _ _ _ T1 (trans_step _ _ _ _ _ T2 T3)) as T.
  destruct go; cbn [negb].
  2:{ apply wp_ret. rewrite app_nil_r. by split_and!; auto 6. }
  eapply wp_mono; [by apply finishWrite_spec|]. intros _ c4 es4 (T4 & D4 & W4).
  split_and!; [done | auto 6 |]. rewrite !app_assoc, <- (app_assoc es1).
  by apply (trans_step _ _ _ _ _ T T4).
Qed.

(** ** Lemmas: the parts of [sendInLoop] *)

(** A channel that may have been armed for writing, and is otherwise the same. *)
Lemma armWriting_spec c :
  wp armWriting c (fun _ c1 es => exists ch cs,
    c1 = set_channel ch c /\ es = map EEpoll cs /\ Channel.isWriting ch = true /\
    Channel.isReading ch = Channel.isReading (channel_ c) /\
    Channel.fd_ ch = Channel.fd_ (channel_ c)).
Proof.
  unfold armWriting. destruct (Channel.enableWriting_spec (channel_ c)) as (ch & cs & Hch & ? & ? & ?).
  wp_steps; zbool.
  - eapply wp_on_channel; [exact Hch|]. by exists ch, cs.
  - exists (channel_ c), []. split_and!; try done. by destruct c.
Qed.

Lemma notifyHighWaterMark_spec c :
  0 <= lowWaterMark_ c < highWaterMark_ c ->
  (aboveHighWaterMark_ c = true -> above_ok c) ->
  wp notifyHighWaterMark c (fun _ c1 es => exists b,
    c1 = set_above b c /\ above_ok c1 /\ half_closed es = false /\
    trans false c [] [] [] es c1).
Proof.
  intros Hm Ha. unfold notifyHighWaterMark, queueInLoop. wp_steps; zbool.
  1,2: exists true; split_and!; [done | unfold above_ok; fields; lia | done | trans_easy].
  exists (aboveHighWaterMark_ c). split_and!; [by destruct c | | done | by apply trans_refl].
  unfold above_ok in *. destruct (aboveHighWaterMark_ c); [by apply Ha|]. simpl in *. by zbool.
Qed.

Lemma queue_spec c data :
  wf c -> data <> [] -> state_ c <> kDisconnected -> state_ c <> kConnecting ->
  Buffer.size (outputBuffer_ c) + blen data <= Buffer.max_size ->
  wp (queueOutput data ;;; notifyHighWaterMark ;;; armWriting) c (fun _ c' es =>
    wf c' /\ half_closed es = false /\ trans false c data [] [] es c').
Proof.
  intros [Hwf Ha] Hd Hs Hs' Hm. unfold queueOutput.
  destruct (Buffer.append_spec (outputBuffer_ c) data) as (b & Hb & Hwb & Hc & _);
    [apply Hwf | done |].
  do 2 apply wp_bind. apply wp_get. apply wp_bind. eapply wp_lift; [exact Hb|].
  apply wp_modify. apply wp_bind.
  assert (Hlen : Buffer.readableBytes b = Buffer.readableBytes (outputBuffer_ c) + blen data).
  { rewrite <- !Buffer.contents_length, Hc by (done || apply Hwf). apply blen_app. }
  pose proof (blen_nonneg data). pose proof (wf_marks c Hwf) as Hmk.
  eapply wp_mono; [apply notifyHighWaterMark_spec; fields; [done|]|].
  { unfold above_ok in *. fields. intros E. rewrite E in *. lia. }
  intros _ c2 es2 (ab & E2 & Ha2 & Hh2 & T2).
  eapply wp_mono; [apply armWriting_spec|].
  intros _ c3 es3 (ch & cs & E3 & Hes3 & Hw & Hr & _). subst c2 c3 es3.
  split_and!.
  - split; [|done]. destruct Hwf. split; fields; try done.
  - autorewrite with effects. by rewrite Hh2.
  - assert (T1 : trans false c data [] [] [] (set_output b c)) by trans_easy.
    assert (T3 : trans false (set_above ab (set_output b c)) [] [] [] (map EEpoll cs)
                   (set_channel ch (set_above ab (set_output b c)))) by trans_easy.
    pose proof (trans_trans _ _ _ _ _ _ _ _ _ _ _ _ _ T1 (trans_step _ _ _ _ _ T2 T3)) as T.
    by rewrite app_nil_r in T.
Qed.

(** What [sendInLoop] accepts. *)
Definition taken (c : t) (r : sysret) (m : bytes) : bytes :=
  if direct c && fatal_errno r then [] else m.

(** What the direct [::write] leaves to queue. *)
Lemma directWrite_spec c r m :
  wf c -> answer_ok (blen m) r -> blen m < 2^64 ->
  wp (directWrite r m) c (fun '(nwrote, remaining, faultError) c1 es => exists sent rest,
    c1 = c /\ half_closed es = false /\ trans false c sent [] [] es c /\
    taken c r m = sent ++ rest /\
    (if negb faultError && (0 <? remaining)
     then rest <> [] /\ rest = take (Z.to_nat remaining) (drop (Z.to_nat nwrote) m)
     else rest = [])).
Proof.
  intros Hwf Hr Hb. unfold directWrite, taken, queueInLoop. pose proof (blen_nonneg m) as Hm.
  assert (Hall : 0 < blen m -> m <> [] /\ m = take (Z.to_nat (blen m)) (drop (Z.to_nat 0) m)).
  { unfold blen. rewrite Nat2Z.id, drop_0, take_ge by done. intros ?. by destruct m. }
  assert (Hnil : blen m <= 0 -> m = []).
  { unfold blen. destruct m; simpl; [done | lia]. }
  apply wp_bind, wp_get. cbn [app]. wp_step.
  - fold (direct c) in Heqb. rewrite Heqb.
    assert (Hq : Buffer.contents (outputBuffer_ c) = []).
    { unfold direct in Heqb. zbool. apply readable_contents; [apply Hwf | done]. }
    wp_step; simpl fatal_errno; cbn [andb].
    + simpl in Hr. rewrite u64_small by lia.
      assert (forall es, written es = [] -> closed es = [] -> called es = [] -> marks es = [] ->
        trans false c (take (Z.to_nat n) m) [] [] ([EWrite (take (Z.to_nat n) m)] ++ es) c) as T.
      { intros es E1 E2 E3 E4. split; rewrite ?written_app, ?closed_app, ?called_app, ?marks_app,
          ?E1, ?E2, ?E3, ?E4, ?Hq; simpl; by rewrite ?app_nil_r. }
      wp_steps; exists (take (Z.to_nat n) m), (drop (Z.to_nat n) m);
        (split_and!; [done | done | by apply T | by rewrite take_drop |]);
        cbn [negb andb]; destruct (0 <? blen m - n) eqn:E; zbool.
      all: try (apply drop_ge; unfold blen in *; lia).
      all: split; [intros Hd%(f_equal length); rewrite length_drop in Hd; unfold blen in *;
                   simpl in Hd; lia
                  | rewrite take_ge; [done | rewrite length_drop; unfold blen; lia]].
    + wp_steps. cbn [fatal_errno]. destruct (_ || _) eqn:Hf; cbn [andb negb].
      * exists [], []. split_and!; try done; [by apply trans_refl|].
        replace (errno =? EWOULDBLOCK) with false; [done|]. symmetry. apply Z.eqb_neq.
        intros ->. done.
      * exists [], m. split_and!; try done; [by apply trans_refl|].
        rewrite andb_false_r. cbn [andb negb]. destruct (0 <? blen m) eqn:E; zbool; auto.
  - fold (direct c) in Heqb. rewrite Heqb. apply wp_ret. exists [], m.
    split_and!; try done; [by apply trans_refl|].
    cbn [andb negb]. destruct (0 <? blen m) eqn:E; zbool; auto.
Qed.

Lemma sendInLoop_spec c r m :
  wf c -> send_ok c r m -> state_ c <> kConnecting ->
  wp (sendInLoop r m) c (fun _ c' es =>
    wf c' /\ half_closed es = false /\
    trans false c (if disconnected c then [] else taken c r m) [] [] es c').
Proof.
  intros Hwf [Hr Hm] Hs. pose proof (blen_nonneg m). unfold sendInLoop. apply wp_bind, wp_get. cbn [app].
  unfold disconnected. wp_step.
  { apply wp_ret. by split_and!; [| | apply trans_refl]. }
  apply is_state_false in Heqb. apply wp_bind.
  assert (Hlen : blen m < 2^63).
  { unfold Buffer.max_size in Hm. unfold Buffer.size, blen in *. lia. }
  eapply wp_mono; [by apply directWrite_spec; [..|lia]|].
  intros [[nw rem] ff] c1 es1 (sent & rest & -> & H1 & T1 & -> & Hrest).
  destruct (negb ff && (0 <? rem)); cbn [st_when].
  - destruct Hrest as [Hne ->].
    eapply wp_mono; [apply queue_spec; try done|].
    { unfold blen in *. rewrite length_take, length_drop. lia. }
    intros _ c2 es2 (W2 & H2 & T2). split_and!; [done | by rewrite half_closed_app, H1, H2 |].
    apply (trans_trans _ _ _ _ _ _ _ _ _ _ _ _ _ T1 T2).
  - subst rest. apply wp_ret. rewrite !app_nil_r. by split_and!.
Qed.

(** ** Lemmas: the other operations *)

(** A connection taken down, its channel disabled. *)
Lemma taken_down_wf c ch fd :
  wf c -> (0 <= fd -> fd = fileFd_ c) ->
  Channel.isWriting ch = false -> Channel.isReading ch = false ->
  wf (set_channel ch (setState kDisconnected (set_file fd (fileSize_ c) (fileOffset_ c) c))).
Proof.
  intros [Hwf Ha] Hfd Hw Hr. split; [|done].
  destruct Hwf. split; fields; try done. intros H. rewrite (Hfd H) in H. auto.
Qed.

Lemma handleClose_spec c :
  wf c -> wp handleClose c (fun _ c' es =>
    wf c' /\ drained es c' /\ trans false c [] [] [] es c' /\ disconnected c' = true).
Proof.
  intros Hwf. unfold handleClose.
  destruct (Channel.disableAll_spec (channel_ c)) as (ch & cs & Hch & Hw & Hr & _).
  wp_steps; try (eapply wp_on_channel; [exact Hch|]); wp_steps;
    try (by split_and!; [..| apply trans_refl |]).
  all: apply is_state_false in Heqb; zbool.
  all: split_and!;
    [first [apply (taken_down_wf c ch (-1)); [done | lia | done | done]
           |apply (taken_down_wf c ch (fileFd_ c)); done]
    | by intros _ [] | trans_easy | done].
  all: rewrite ?bool_decide_eq_false_2 by done; try done; try by destruct (state_ c).
  all: try (by rewrite (proj2 (Z.leb_le _ _)) by done).
  all: simpl; lia.
Qed.

Lemma sendFileInLoop_spec c fd size :
  wf c -> file_ok fd size -> state_ c <> kConnecting ->
  wp (sendFileInLoop fd size) c (fun _ c' es =>
    wf c' /\ half_closed es = false /\
    trans false c [] [fd] (if disconnected c then [] else pending c) es c').
Proof.
  intros Hwf [Hfd Hsz] Hs. unfold sendFileInLoop, disconnected. apply wp_bind, wp_get. cbn [app].
  wp_step.
  { apply wp_tell. split_and!; try done. trans_easy. by rewrite Permutation_app_comm. }
  apply is_state_false in Heqb. apply wp_bind, wp_modify.
  eapply wp_mono; [apply armWriting_spec|].
  intros _ c1 es1 (ch & cs & -> & -> & Hw & Hr & _). cbn [app].
  split_and!; [| by autorewrite with effects |].
  - destruct Hwf as [Hwf Ha]. split; [|done]. destruct Hwf. split; fields; try done.
    intros _. lia.
  - trans_easy. rewrite (proj2 (Z.leb_le 0 fd)) by done. apply (Permutation_app_comm [fd]).
Qed.

Lemma connectEstablished_spec c :
  wf c -> state_ c = kConnecting ->
  wp connectEstablished c (fun _ c' es =>
    wf c' /\ half_closed es = false /\ trans false c [] [] [] es c').
Proof.
  intros Hwf Hs. unfold connectEstablished, is_state.
  destruct (Channel.enableReading_spec (Channel.tie (channel_ c))) as (ch & cs & Hch & Hw & Hr & _).
  apply wp_bind, wp_get. rewrite bool_decide_eq_true_2 by done. cbn [negb app].
  wp_steps; (eapply wp_on_channel; [exact Hch|]); wp_steps.
  all: split_and!; [| by autorewrite with effects | trans_easy; rewrite ?Hs; simpl; lia || done].
  all: destruct Hwf as [Hwf Ha]; split; [|done]; destruct Hwf as [? ? ? ? ? Hf ?].
  all: split; fields; try done; intros _ Ho; by destruct (Hf Hs).
Qed.

Lemma connectDestroyed_spec c :
  wf c -> connectionCallback_ (callbacks_ c) = true ->
  wp connectDestroyed c (fun _ c' es =>
    wf c' /\ drained es c' /\ trans true c [] [] [] es c').
Proof.
  intros Hwf Hcb. unfold connectDestroyed.
  destruct (Channel.disableAll_spec (channel_ c)) as (ch & cs & Hch & Hw & Hr & _).
  apply wp_bind, wp_get. rewrite Hcb. cbn [app]. apply wp_bind, wp_when; intros Hd.
  - wp_steps. eapply wp_on_channel; [exact Hch|]. wp_steps.
    destruct (Channel.remove_spec ch) as (ch' & cs' & Hch' & Hw' & Hr' & _).
    eapply wp_on_channel; [exact Hch'|]. fields. split_and!.
    + apply (taken_down_wf c ch' (fileFd_ c)); done.
    + by intros _ [].
    + assert (state_ c <> kDisconnected) as Hne.
      { unfold is_state in Hd. intros E. by rewrite !bool_decide_eq_false_2 in Hd by congruence. }
      trans_easy; rewrite ?bool_decide_eq_false_2 by done; simpl; try lia.
      by destruct (state_ c).
  - destruct (Channel.remove_spec (channel_ c)) as (ch' & cs' & Hch' & Hw' & Hr' & _).
    eapply wp_on_channel; [exact Hch'|]. fields. split_and!.
    + destruct Hwf as [Hwf Ha]; split; [|done]; destruct Hwf as [? ? ? ? ? Hf ?].
      split; fields; try done. intros Hne Ho. destruct Hf; [|done].
      destruct (state_ c) eqn:E; try done; unfold is_state in Hd; rewrite E in Hd; done.
    + unfold drained. by autorewrite with effects.
    + trans_easy.
Qed.

Lemma set_input_spec c b :
  wf c -> Buffer.wf b ->
  wf (set_input b c) /\ trans false c [] [] [] [] (set_input b c).
Proof.
  intros [Hwf Ha] Hb. split; [|trans_easy]. split; [|done]. destruct Hwf. by split.
Qed.

Lemma handleRead_spec c r :
  wf c -> event_ok c (EvRead r) ->
  wp (handleRead r) c (fun _ c' es =>
    wf c' /\ drained es c' /\ trans false c [] [] [] es c').
Proof.
  intros Hwf Hr. unfold handleRead. apply wp_bind, wp_get. cbn [app].
  assert (exists b n e, Buffer.readFd r (inputBuffer_ c) = Ok (b, n, e) /\ Buffer.wf b)
    as (b & n & e & Hb & Hwb).
  { destruct r as [errno|d0 d1]; [do 3 eexists; split; [done | apply Hwf]|].
    destruct Hr as [Hok Hm].
    destruct (Buffer.readFd_spec (inputBuffer_ c) d0 d1) as (b & ? & ? & ?); [apply Hwf | done..|].
    by do 3 eexists. }
  apply wp_bind. eapply wp_lift; [exact Hb|]. cbn beta iota. apply wp_bind, wp_modify.
  destruct (set_input_spec c b Hwf Hwb) as [W1 T1]. cbn [app]. wp_steps.
  1,2: split_and!; [done | by apply not_half_closed | trans_easy].
  - eapply wp_mono; [by apply handleClose_spec|]. intros _ c2 es2 (W2 & D2 & T2 & _).
    split_and!; [done..|]. apply (trans_step _ _ _ _ _ T1 T2).
  - by split_and!; auto.
Qed.

Lemma shutdownInLoop_spec c :
  wf c -> wp shutdownInLoop c (fun _ c' es =>
    c' = c /\ drained es c /\ trans false c [] [] [] es c).
Proof.
  intros Hwf. unfold shutdownInLoop. wp_steps; zbool; split_and!; auto using trans_refl.
  intros _ Hs. apply not_writing_no_output; [apply Hwf | done..].
Qed.

(** [setState(kDisconnecting)] of a connection that is up. *)
Lemma disconnecting_spec c :
  wf c -> state_ c = kConnected \/ state_ c = kDisconnecting ->
  wf (setState kDisconnecting c) /\ trans false c [] [] [] [] (setState kDisconnecting c).
Proof.
  intros [Hwf Ha] Hs. split.
  - split; [|done]. destruct Hwf as [? ? ? ? Harm ? ?]. split; fields; try done.
    intros _ Ho. apply Harm; [by destruct Hs as [-> | ->] | done].
  - trans_easy; destruct Hs as [-> | ->]; done.
Qed.

Lemma state_up c :
  is_state kConnected c || is_state kDisconnecting c = true ->
  state_ c = kConnected \/ state_ c = kDisconnecting.
Proof. intros [H|H]%orb_true_iff; apply is_state_true in H; auto. Qed.

(** Every event: no fault, the invariant is preserved, and its summary. *)
Definition event_spec (c : t) (e : event) (c' : t) (es : list effect) : Prop :=
  wf c' /\ drained es c' /\
  trans (is_destroyed e) c (accepted c e) (adopted c e) (dropped c e) es c'.

Lemma event_idle c e es :
  wf c -> accepted c e = [] -> adopted c e = [] -> dropped c e = [] ->
  written es = [] -> closed es = [] -> called es = [] -> marks es = [] ->
  half_closed es = false -> event_spec c e c es.
Proof.
  intros Hwf E1 E2 E3 **. unfold event_spec. rewrite E1, E2, E3.
  by split_and!; [| apply not_half_closed | apply trans_refl].
Qed.

(** [event_spec] of an operation that is summed up already. *)
Ltac by_spec H :=
  eapply wp_mono; [by apply H|]; intros ? c' es Hspec; cbv beta in Hspec; unfold event_spec;
  repeat match goal with H : _ /\ _ |- _ => destruct H end; subst; split_and!; (assumption || by apply not_half_closed).

Lemma send_event c inLoop r m :
  wf c -> send_ok c r m ->
  wp (run_event (EvSend inLoop r m)) c (fun _ c' es =>
    event_spec c (EvSend inLoop r m) c' es).
Proof.
  intros Hwf Hs. cbn [run_event]. unfold send, runInLoop, queueInLoop.
  apply wp_bind, wp_get. cbn [app]. apply wp_when; intros Hc; last first.
  { apply event_idle; try done; destruct inLoop; try done.
    unfold accepted, sends, connected. by rewrite Hc. }
  destruct inLoop; [|by apply wp_tell, event_idle].
  assert (Hst := is_state_true _ _ Hc).
  eapply wp_mono; [apply sendInLoop_spec; [done..|congruence]|].
  intros _ c' es (W & H & T). split_and!; [done | by apply not_half_closed |].
  unfold accepted, sends, connected. cbn [adopted dropped is_destroyed]. rewrite Hc.
  unfold disconnected, is_state in T. rewrite bool_decide_eq_false_2 in T by congruence. done.
Qed.

Lemma sendFile_event c inLoop fd size :
  wf c -> file_ok fd size ->
  wp (run_event (EvSendFile inLoop fd size)) c (fun _ c' es =>
    event_spec c (EvSendFile inLoop fd size) c' es).
Proof.
  intros Hwf Hs. cbn [run_event]. unfold sendFile, runInLoop, queueInLoop.
  apply wp_bind, wp_get. cbn [app]. apply wp_when; intros Hc; last first.
  { apply event_idle; try done; destruct inLoop; try done; cbn [adopted dropped];
      unfold connected; by rewrite Hc. }
  destruct inLoop; [|by apply wp_tell, event_idle].
  assert (Hst := is_state_true _ _ Hc).
  eapply wp_mono; [apply sendFileInLoop_spec; [done..|congruence]|].
  intros _ c' es (W & H & T). split_and!; [done | by apply not_half_closed |].
  unfold accepted. cbn [sends adopted dropped is_destroyed]. unfold connected. rewrite Hc.
  unfold disconnected, is_state in T. rewrite bool_decide_eq_false_2 in T by congruence. done.
Qed.

Lemma shutdown_event c inLoop :
  wf c ->
  wp (run_event (EvShutdown inLoop)) c (fun _ c' es => event_spec c (EvShutdown inLoop) c' es).
Proof.
  intros Hwf. cbn [run_event]. unfold shutdown, shutdown_set, runInLoop, queueInLoop.
  apply wp_bind, wp_get. cbn [app]. apply wp_when; intros Hc; [|by apply event_idle].
  destruct (disconnecting_spec c Hwf) as [W1 T1]; [left; by apply is_state_true|].
  apply wp_bind, wp_modify. cbn [app]. destruct inLoop.
  - eapply wp_mono; [by apply shutdownInLoop_spec|]. intros _ c' es (-> & D & T).
    split_and!; [done..|]. apply (trans_step _ _ _ _ _ T1 T).
  - apply wp_tell. split_and!; [done | by apply not_half_closed |].
    apply (trans_step _ [] _ _ _ T1). by apply trans_refl.
Qed.

Lemma forceClose_event c :
  wf c -> wp (run_event EvForceClose) c (fun _ c' es => event_spec c EvForceClose c' es).
Proof.
  intros Hwf. cbn [run_event]. unfold forceClose, queueInLoop.
  apply wp_bind, wp_get. cbn [app]. apply wp_when; intros Hc; [|by apply event_idle].
  destruct (disconnecting_spec c Hwf (state_up c Hc)) as [W1 T1].
  apply wp_bind, wp_modify, wp_tell. split_and!; [done | by apply not_half_closed |].
  apply (trans_step _ [] _ _ _ T1). by apply trans_refl.
Qed.

Lemma run_event_spec c e :
  wf c -> event_ok c e -> wp (run_event e) c (fun _ c' es => event_spec c e c' es).
Proof.
  intros Hwf He. destruct e.
  - by_spec (connectEstablished_spec c).
  - by_spec (handleRead_spec c r).
  - destruct He. by_spec (handleWrite_spec c write_r sendfile_r).
  - by_spec (handleClose_spec c).
  - destruct (Buffer.retrieve_spec (inputBuffer_ c) n) as [Hb _]; [apply Hwf | done |].
    apply wp_modify. destruct (set_input_spec c _ Hwf Hb).
    by split_and!; [| apply not_half_closed |].
  - by apply send_event.
  - destruct He as [Hs Hc]. eapply wp_mono; [by apply sendInLoop_spec|].
    intros _ c' es (? & ? & T). split_and!; [done | by apply not_half_closed |].
    unfold accepted, sends. by destruct (disconnected c).
  - by apply sendFile_event.
  - destruct He as [Hs Hc]. by_spec (sendFileInLoop_spec c fd fileSize).
  - by apply shutdown_event.
  - by_spec (shutdownInLoop_spec c).
  - by apply forceClose_event.
  - cbn [run_event]. unfold forceCloseInLoop. apply wp_bind, wp_get. cbn [app].
    wp_step; [|by apply wp_ret, event_idle]. by_spec (handleClose_spec c).
  - by_spec (connectDestroyed_spec c).
Qed.

(** ** Lemmas: runs *)

Lemma run_log_spec evs c :
  wf c -> run_ok evs c ->
  exists c' l, run_log evs c = Ok (c', l) /\ wf c' /\
    trans (existsb is_destroyed evs) c (l_accepted l) (l_adopted l) (l_dropped l)
      (l_effects l) c'.
Proof.
  revert c. induction evs as [|e evs IH]; intros c Hwf Hok.
  { exists c, (Log [] [] [] []). split_and!; [done..|]. by apply trans_refl. }
  destruct Hok as [He Hok]. cbn [run_log].
  destruct (wp_elim _ _ _ (run_event_spec c e Hwf He)) as ([] & c1 & es & Hrun & Hwf1 & _ & T).
  rewrite Hrun in *. destruct (IH c1 Hwf1 Hok) as (c2 & l & Hl & Hwf2 & T2).
  simpl. rewrite Hl. do 2 eexists. split; [done|]. split; [done|].
  apply (trans_trans _ _ _ _ _ _ _ _ _ _ _ _ _ T T2).
Qed.

Lemma connection_make_wf sockfd cbs :
  exists c, make sockfd cbs = Ok c /\ wf c /\ state_ c = kConnecting /\
    Buffer.contents (outputBuffer_ c) = [] /\ pending c = [].
Proof.
  destruct (Buffer.buffer_make_wf Buffer.kInitialSize) as (b & Hb & Hw & Hc); [done..|].
  unfold make. rewrite Hb. simpl. eexists. split; [done|]. split_and!; try done.
  pose proof (proj2 (readable_contents b Hw) Hc) as Hq.
  assert (Hno : ~ (Buffer.contents b <> [] \/ 0 <= -1)) by (intros [?|?]; [done|lia]).
  split; [split|]; fields; try done.
  unfold above_ok. fields. by rewrite Hq.
Qed.

(** The whole output buffer written, or already empty. *)
Lemma writeOutput_all c :
  wf c ->
  wp (writeOutput (SysOk (Buffer.readableBytes (outputBuffer_ c)))) c (fun go c1 es =>
    go = true /\ exists b, c1 = set_output b c /\ Buffer.wf b /\ Buffer.readableBytes b = 0 /\
    written es = Buffer.contents (outputBuffer_ c) /\ closed es = [] /\ half_closed es = false).
Proof.
  intros [Hwf _]. unfold writeOutput. pose proof (Buffer.contents_length _ (wf_output c Hwf)) as Hl.
  pose proof (blen_nonneg (Buffer.contents (outputBuffer_ c))).
  destruct (retrieve_output c (Buffer.readableBytes (outputBuffer_ c)) Hwf) as ([] & _ & Hc); [lia|].
  wp_steps; simplify_eq; zbool; try lia; (split; [done|]).
  - exists (outputBuffer_ c). assert (Hz : Buffer.readableBytes (outputBuffer_ c) = 0) by lia.
    split_and!; try done; [by destruct c | apply Hwf |]. symmetry.
    by apply readable_contents; [apply Hwf|].
  - eexists. split_and!; try done.
    + apply readable_contents; [done|]. fields. rewrite Hc. apply drop_ge. unfold blen in *. lia.
    + simpl. rewrite app_nil_r. apply take_ge. unfold blen in *. lia.
Qed.

Lemma notifyLowWaterMark_all c :
  wp notifyLowWaterMark c (fun _ c1 es => exists b, c1 = set_above b c /\
    written es = [] /\ closed es = [] /\ half_closed es = false).
Proof.
  unfold notifyLowWaterMark, queueInLoop. wp_steps.
  1,2: by exists false.
  exists (aboveHighWaterMark_ c). by destruct c.
Qed.

Lemma writeFile_all c :
  (0 <= fileFd_ c -> 0 <= fileOffset_ c <= fileSize_ c /\ fileSize_ c < 2^63) ->
  Buffer.readableBytes (outputBuffer_ c) = 0 ->
  wp (writeFile (SysOk (fileSize_ c - fileOffset_ c))) c (fun go c1 es =>
    go = true /\ exists off, c1 = set_file (fileFd_ c) (fileSize_ c) off c /\
    (0 <= fileFd_ c -> u64 off = fileSize_ c /\
       es = [ESendfile (fileFd_ c) (fileOffset_ c) (fileSize_ c - fileOffset_ c)]) /\
    written es = [] /\ closed es = [] /\ half_closed es = false).
Proof.
  intros Hwf Hq. unfold writeFile. apply wp_bind, wp_get. cbn [app]. rewrite Hq, Z.eqb_refl.
  cbn [andb]. wp_steps; (split; [done|]); zbool.
  - eexists. split_and!; try done. intros Hfd. split; [|done].
    specialize (Hwf Hfd). rewrite u64_small by lia. lia.
  - exists (fileOffset_ c). split_and!; try done; [by destruct c | lia].
Qed.

Lemma finishWrite_all c :
  Buffer.wf (outputBuffer_ c) -> Buffer.readableBytes (outputBuffer_ c) = 0 ->
  (0 <= fileFd_ c -> u64 (fileOffset_ c) = fileSize_ c) ->
  wp finishWrite c (fun _ c' es =>
    ~ has_output c' /\ Channel.isWriting (channel_ c') = false /\
    written es = [] /\ closed es = pending c /\
    (writeCompleteCallback_ (callbacks_ c) = true -> In (EQueueInLoop FWriteComplete) es) /\
    half_closed es = is_state kDisconnecting c).
Proof.
  intros Hwf Hq Hf. unfold finishWrite, shutdownInLoop, queueInLoop, pending, has_output.
  destruct (Channel.disableWriting_spec (channel_ c)) as (ch & cs & Hch & Hw & _ & _).
  assert (Hc : Buffer.contents (outputBuffer_ c) = []).
  { by apply readable_contents. }
  apply wp_bind, wp_get. cbn [app]. rewrite Hq, Z.eqb_refl. cbn [andb].
  apply wp_when; intros Hb; last first.
  { exfalso. zbool. by apply H0, Hf; lia. }
  wp_steps; try (eapply wp_on_channel; [exact Hch|]); wp_steps; fields; zbool;
    rewrite ?Hw in *; try done.
  all: split_and!; [| done | by autorewrite with effects | | | by autorewrite with effects].
  all: try (rewrite Hc; intros [?|?]; [done | lia]).
  all: try (autorewrite with effects; simpl; destruct (0 <=? fileFd_ c) eqn:E; zbool; done || lia).
  all: intros ?; rewrite !in_app_iff; simpl; tauto || congruence.
Qed.

(** ** Properties *)

(** A small connection and a run on it, for the examples below. *)
Definition test_callbacks : callbacks := Callbacks true true true true true true.

Definition test_conn : t :=
  mk (-1) 0 0 4 8 false kConnecting (Channel.make 7) test_callbacks
     Buffer.test_buffer Buffer.test_buffer.

Definition test_up : t :=
  mk (-1) 0 0 4 8 false kConnected (Channel.mk 7 1 0 true true) test_callbacks
     Buffer.test_buffer Buffer.test_buffer.

Definition test_run : list event :=
  [EvEstablished; EvSend true (SysOk 3) (str "hello world!"); EvWrite (SysOk 6) (SysOk 0);
   EvSendFile true 9 10; EvShutdown true; EvWrite (SysOk 3) (SysOk 10);
   EvRead (Buffer.ReadvOk [] []); EvForceClose].

Lemma test_up_wf : wf test_up.
Proof.
  split; [split|]; try apply Buffer.test_buffer_wf; try done.
  all: by intros ? [?|Hf]; [|vm_compute in Hf].
Qed.

Lemma test_conn_wf : wf test_conn.
Proof.
  split; [split|]; try apply Buffer.test_buffer_wf; try done.
  all: by intros ? [?|Hf]; [|vm_compute in Hf].
Qed.

(** Evaluates [run_ok] on a concrete run. *)
Ltac concrete_run := vm_compute; split_and!; try discriminate; try reflexivity.

Lemma test_run_ok : run_ok test_run test_conn.
Proof. concrete_run. by split. Qed.

(** C8. The output is a byte stream: whatever happens to a connection, in whatever
    order, no event faults, and the bytes given to the socket followed by the
    bytes still queued are those queued at first followed by the messages
    accepted, in order: nothing is lost, duplicated or reordered between the
    direct write of [sendInLoop], [outputBuffer_] and [handleWrite].  A message is
    refused only when the connection is down or the socket is broken. *)
Theorem output_stream_integrity (c : t) (evs : list event) :
  wf c -> run_ok evs c ->
  exists c' l, run_log evs c = Ok (c', l) /\ wf c' /\
    written (l_effects l) ++ Buffer.contents (outputBuffer_ c') =
      Buffer.contents (outputBuffer_ c) ++ l_accepted l.
Proof.
  intros Hwf Hok. destruct (run_log_spec evs c Hwf Hok) as (c' & l & ? & ? & []). eauto 6.
Qed.

Lemma output_stream_integrity_witness :
  exists c' l, run_log test_run test_conn = Ok (c', l) /\ wf c' /\
    written (l_effects l) ++ Buffer.contents (outputBuffer_ c') =
      Buffer.contents (outputBuffer_ test_conn) ++ l_accepted l.
Proof.
  apply (output_stream_integrity test_conn test_run); [apply test_conn_wf | apply test_run_ok].
Defined.

(** C21. The watermark callbacks alternate: the notifications queued in a run, high
    and low, come in turns, each with a queue length at or beyond its mark, and the
    flag tells which one comes next. *)
Theorem watermarks_alternate (c : t) (evs : list event) :
  wf c -> run_ok evs c ->
  lowWaterMarkCallback_ (callbacks_ c) = true ->
  highWaterMarkCallback_ (callbacks_ c) = true ->
  exists c' l, run_log evs c = Ok (c', l) /\
    alternates (lowWaterMark_ c) (highWaterMark_ c) (aboveHighWaterMark_ c)
      (marks (l_effects l)) (aboveHighWaterMark_ c') /\
    (let queued := Buffer.readableBytes (outputBuffer_ c') in
     (highWaterMark_ c <= queued -> aboveHighWaterMark_ c' = true) /\
     (queued <= lowWaterMark_ c -> aboveHighWaterMark_ c' = false)).
Proof.
  intros Hwf Hok Hl Hh.
  destruct (run_log_spec evs c Hwf Hok) as (c' & l & ? & [Hwf' Ha] & [? ? (El & Eh & _) Hm]).
  exists c', l. split_and!; [done | by apply Hm |]. unfold above_ok in Ha.
  rewrite El, Eh in Ha. destruct (aboveHighWaterMark_ c'); split; intros; done || lia.
Qed.

Lemma watermarks_alternate_witness :
  exists c' l, run_log test_run test_conn = Ok (c', l) /\
    alternates 4 8 false (marks (l_effects l)) (aboveHighWaterMark_ c') /\
    (let queued := Buffer.readableBytes (outputBuffer_ c') in
     (8 <= queued -> aboveHighWaterMark_ c' = true) /\
     (queued <= 4 -> aboveHighWaterMark_ c' = false)).
Proof.
  apply (watermarks_alternate test_conn test_run);
    [apply test_conn_wf | apply test_run_ok | reflexivity | reflexivity].
Defined.





(** C9. Graceful shutdown: when, after any run, an event half-closes the socket of
    a connection that is still up, everything that was ever accepted has been
    written, and no file is left to send. *)
Theorem half_close_after_drain (c c1 c2 : t) (evs : list event) (l : log) (e : event)
    (es : list effect) :
  wf c -> run_ok evs c -> run_log evs c = Ok (c1, l) ->
  event_ok c1 e -> run_event e c1 = Ok (tt, c2, es) ->
  half_closed es = true -> state_ c2 <> kDisconnected ->
  written (l_effects l ++ es) =
    Buffer.contents (outputBuffer_ c) ++ l_accepted l ++ accepted c1 e /\
  pending c2 = [].
Proof.
  intros Hwf Hok Hl He Hr Hh Hs.
  destruct (run_log_spec evs c Hwf Hok) as (c1' & l' & Hl' & Hwf1 & [B1]).
  rewrite Hl in Hl'. injection Hl' as <- <-.
  pose proof (run_event_spec c1 e Hwf1 He) as Hspec. unfold wp in Hspec. rewrite Hr in Hspec.
  destruct Hspec as (_ & D & [B2]). specialize (D Hh Hs). unfold has_output in D.
  split.
  - destruct (decide (Buffer.contents (outputBuffer_ c2) = [])) as [E|]; [|naive_solver].
    rewrite E, app_nil_r in B2. by rewrite written_app, B2, app_assoc, B1, <- app_assoc.
  - unfold pending. destruct (0 <=? fileFd_ c2) eqn:E; [zbool; naive_solver | done].
Qed.

(** Three bytes and a file are left when [shutdown] is called. *)
Definition test_drain : list event :=
  [EvSend true (SysOk 9) (str "hello world!"); EvSendFile true 9 10; EvShutdown true].

Definition test_drained : t :=
  match run_log (test_drain ++ [EvWrite (SysOk 3) (SysOk 10)]) test_up with
  | Ok (c, _) => c
  | Fault _ => test_up
  end.

Lemma half_close_after_drain_witness :
  exists c1 l es, run_log test_drain test_up = Ok (c1, l) /\
    written (l_effects l ++ es) = str "hello world!" /\ pending test_drained = [].
Proof.
  eexists _, _, _. split; [vm_compute; reflexivity|].
  refine (half_close_after_drain test_up _ test_drained test_drain _
            (EvWrite (SysOk 3) (SysOk 10)) _ test_up_wf _ _ _ _ _ _).
  - concrete_run.
  - vm_compute. reflexivity.
  - concrete_run.
  - vm_compute. reflexivity.
  - vm_compute. reflexivity.
  - vm_compute. discriminate.
Defined.

(** C22. The output drains: one [handleWrite] in which the kernel takes everything
    there is writes the queue, closes the file, stops asking for EPOLLOUT, queues
    the write-complete callback, and half-closes exactly a connection that
    [shutdown] had put in kDisconnecting.  (It does run: a connection with
    something to send asks for EPOLLOUT.) *)
Theorem output_drains (c : t) :
  wf c -> state_ c <> kDisconnected -> has_output c ->
  Channel.isWriting (channel_ c) = true /\
  wp (handleWrite (SysOk (Buffer.readableBytes (outputBuffer_ c)))
                  (SysOk (fileSize_ c - fileOffset_ c))) c (fun _ c' es =>
    written es = Buffer.contents (outputBuffer_ c) /\
    (0 <= fileFd_ c ->
     In (ESendfile (fileFd_ c) (fileOffset_ c) (fileSize_ c - fileOffset_ c)) es) /\
    ~ has_output c' /\ Channel.isWriting (channel_ c') = false /\ closed es = pending c /\
    (writeCompleteCallback_ (callbacks_ c) = true -> In (EQueueInLoop FWriteComplete) es) /\
    half_closed es = is_state kDisconnecting c).
Proof.
  intros Hwf Hs Ho. pose proof (wf_armed c (proj1 Hwf) Hs Ho) as Hw. split; [done|].
  unfold handleWrite. apply wp_bind, wp_get. rewrite Hw. cbn [negb app].
  apply wp_bind. eapply wp_mono; [by apply writeOutput_all|].
  intros go c1 es1 (-> & b & -> & Hwb & Hb & W1 & C1 & H1). cbn [negb].
  apply wp_bind. eapply wp_mono; [by apply notifyLowWaterMark_all|].
  intros _ c2 es2 (ab & -> & W2 & C2 & H2).
  apply wp_bind. eapply wp_mono; [apply (writeFile_all (set_above ab (set_output b c)))|];
    fields; [apply Hwf | done |].
  intros go c3 es3 (-> & off & -> & Hoff & W3 & C3 & H3). cbn [negb].
  eapply wp_mono; [apply finishWrite_all; fields; [done..|]; intros; by apply Hoff|].
  intros _ c4 es4 (N4 & Wr4 & W4 & C4 & F4 & H4).
  autorewrite with effects. rewrite W1, W2, W3, W4, C1, C2, C3, C4, H1, H2, H3, H4, !app_nil_r.
  split_and!; try done.
  - intros Hfd. rewrite !in_app_iff. right; right; left. rewrite (proj2 (Hoff Hfd)).
    by left.
  - intros Hcb. rewrite !in_app_iff. auto.
Qed.

Definition test_queued : t :=
  match run_log test_drain test_up with Ok (c, _) => c | Fault _ => test_up end.

Lemma test_queued_wf : wf test_queued.
Proof.
  destruct (run_log_spec test_drain test_up test_up_wf) as (c & l & Hc & Hw & _).
  { concrete_run. }
  unfold test_queued. by rewrite Hc.
Qed.

Lemma output_drains_witness :
  Channel.isWriting (channel_ test_queued) = true /\
  wp (handleWrite (SysOk 3) (SysOk 10)) test_queued (fun _ c' es =>
    written es = str "ld!" /\ (0 <= 9 -> In (ESendfile 9 0 10) es) /\
    ~ has_output c' /\ Channel.isWriting (channel_ c') = false /\ closed es = [9] /\
    (true = true -> In (EQueueInLoop FWriteComplete) es) /\
    half_closed es = true).
Proof.
  apply (output_drains test_queued); [apply test_queued_wf | vm_compute; discriminate |].
  right. vm_compute. discriminate.
Defined.

(** ** What the code does not guard against *)

(** A connection that is up calls the close callback when it goes down. *)
Lemma handleClose_once c :
  state_ c <> kDisconnected -> closeCallback_ (callbacks_ c) = true ->
  wp handleClose c (fun _ c' es => closeCallback_ (callbacks_ c') = true /\
    count_occ callback_eq_dec (called es) CClose = 1%nat).
Proof.
  intros Hs Hcb. unfold handleClose, is_state. apply wp_bind, wp_get.
  rewrite bool_decide_eq_false_2 by done.
  destruct (Channel.disableAll_spec (channel_ c)) as (ch & cs & Hch & _).
  wp_steps; (eapply wp_on_channel; [exact Hch|]); wp_steps; try congruence.
  all: split; [done|]; by autorewrite with effects.
Qed.

(** [shutdown] called from another thread tests the state and sets it in two
    accesses.  If the loop closes the connection in between, a disconnected
    connection becomes kDisconnecting, and a forced close calls the close callback
    a second time. *)
Theorem shutdown_race (c : t) :
  state_ c = kConnected -> closeCallback_ (callbacks_ c) = true ->
  wp (handleClose ;;; shutdown_set false ;;; forceClose ;;; forceCloseInLoop) c (fun _ c' es =>
    count_occ callback_eq_dec (called es) CClose = 2%nat).
Proof.
  intros Hs Hcb. apply wp_bind. eapply wp_mono; [apply handleClose_once; congruence|].
  intros _ c1 es1 (Hcb1 & E1). apply wp_bind. unfold shutdown_set, runInLoop, queueInLoop.
  apply wp_bind, wp_modify, wp_tell, wp_bind. unfold forceClose, forceCloseInLoop, queueInLoop.
  apply wp_bind, wp_get, wp_bind, wp_modify, wp_tell, wp_bind, wp_get.
  eapply wp_mono; [by apply handleClose_once|].
  intros _ c2 es2 (_ & E2). by rewrite !called_app, !count_occ_app, E1, E2.
Qed.

(** A file is being sent when a second one is: nothing closes the first. *)
Example second_file_drops_first :
  match run_log [EvSendFile true 9 10; EvSendFile true 11 20; EvClose] test_up with
  | Ok (c, l) => closed (l_effects l) = [11] /\ pending c = [] /\ l_dropped l = [9]
  | Fault _ => False
  end.
Proof. vm_compute. auto. Qed.

(** A message sent while a file is half sent goes out in the middle of the file. *)
Example message_inside_file :
  match run_log [EvSendFile true 9 10; EvWrite (SysOk 0) (SysOk 4);
                 EvSend true (SysOk 0) (str "xy"); EvWrite (SysOk 2) (SysOk 6)] test_up with
  | Ok (c, l) =>
      List.filter (fun e => match e with EWrite _ | ESendfile _ _ _ => true | _ => false end)
             (l_effects l) = [ESendfile 9 0 4; EWrite (str "xy"); ESendfile 9 4 6]
  | Fault _ => False
  end.
Proof. vm_compute. auto. Qed.

End TcpConnection.
