(* ===== verification/FileStream.v ===== *)
(** * FileStream: the file that a connection sends

    What [sendFileInLoop], [handleWrite] and [handleClose] of
    src/src/tcp/TcpConnection.cpp do to one file: the ranges that [sendfile] takes from
    it, whatever else happens to the connection in between. *)

From S2P Require Import Prelude Buffer Channel TcpConnection.

Module FileStream.

(** The ranges that [sendfile] took, as (descriptor, offset, length). *)
Definition ranges (es : list TcpConnection.effect) : list (Z * Z * Z) :=
  flat_map (fun e => match e with TcpConnection.ESendfile fd o n => [(fd, o, n)] | _ => [] end) es.

(** Ranges of one file, each one where the one before it ended. *)
Fixpoint chain (fd from : Z) (rs : list (Z * Z * Z)) (to : Z) : Prop :=
  match rs with
  | [] => to = from
  | (fd', o, n) :: rs => fd' = fd /\ o = from /\ 0 <= n /\ chain fd (from + n) rs to
  end.

(** No other file is handed over. *)
Definition no_new_file (e : TcpConnection.event) : bool :=
  match e with
  | TcpConnection.EvSendFile true _ _ | TcpConnection.EvSendFileInLoop _ _ => false
  | _ => true
  end.

(** [sendfile] fails for good. *)
Definition broken (e : TcpConnection.event) : bool :=
  match e with
  | TcpConnection.EvWrite _ (SysErr errno) => negb (errno =? EAGAIN)
  | _ => false
  end.

(** From one state of a connection to a later one: the file that is being sent, if any,
    is taken further in order; it is either still there, or its descriptor was closed,
    once, when it was complete, when [sendfile] failed or when the connection went down. *)
Definition sent_on (failed : bool) (c : TcpConnection.t) (es : list TcpConnection.effect)
    (c' : TcpConnection.t) : Prop :=
  if 0 <=? TcpConnection.fileFd_ c then
    exists to, chain (TcpConnection.fileFd_ c) (TcpConnection.fileOffset_ c) (ranges es) to /\
      TcpConnection.fileOffset_ c <= to <= TcpConnection.fileSize_ c /\
      (TcpConnection.closed es = [] /\ TcpConnection.fileFd_ c' = TcpConnection.fileFd_ c /\
         TcpConnection.fileSize_ c' = TcpConnection.fileSize_ c /\ TcpConnection.fileOffset_ c' = to \/
       TcpConnection.closed es = [TcpConnection.fileFd_ c] /\ TcpConnection.fileFd_ c' < 0 /\
         (to = TcpConnection.fileSize_ c \/ failed = true \/ TcpConnection.disconnected c' = true))
  else ranges es = [] /\ TcpConnection.closed es = [] /\ TcpConnection.fileFd_ c' < 0.

(** Down once down. *)
Definition stays_down (c c' : TcpConnection.t) : Prop :=
  TcpConnection.disconnected c = true -> TcpConnection.disconnected c' = true.

(** What leaves the file alone. *)
Definition kept (c : TcpConnection.t) (es : list TcpConnection.effect) (c' : TcpConnection.t) : Prop :=
  TcpConnection.same_file c c' /\ ranges es = [] /\ TcpConnection.closed es = [] /\ stays_down c c'.

Definition in_range (c : TcpConnection.t) : Prop :=
  0 <= TcpConnection.fileFd_ c ->
  0 <= TcpConnection.fileOffset_ c <= TcpConnection.fileSize_ c /\ TcpConnection.fileSize_ c < 2^63.

(** ** Lemmas *)

Lemma ranges_app es es' : ranges (es ++ es') = ranges es ++ ranges es'.
Proof. apply flat_map_app. Qed.

Lemma ranges_epoll cs : ranges (map TcpConnection.EEpoll cs) = [].
Proof. by induction cs. Qed.

Create Rewrite HintDb files.
#[export] Hint Rewrite ranges_app ranges_epoll TcpConnection.closed_app TcpConnection.epoll_closed
  app_nil_r : files.

Lemma chain_app fd from rs mid rs' to :
  chain fd from rs mid -> chain fd mid rs' to -> chain fd from (rs ++ rs') to.
Proof.
  revert from. induction rs as [|[[fd' o] n] rs IH]; simpl; intros from; [by intros -> |].
  intros (-> & -> & Hn & H) H'. split_and!; [done..|]. by apply IH.
Qed.

Lemma kept_sent b c es c' : in_range c -> kept c es c' -> sent_on b c es c'.
Proof.
  intros Hr ((E1 & E2 & E3) & Hrs & Hc & _). unfold sent_on. rewrite Hrs, Hc, E1.
  destruct (0 <=? TcpConnection.fileFd_ c) eqn:E; zbool; [|by split_and!].
  exists (TcpConnection.fileOffset_ c). destruct (Hr E). split; [done|]. split; [lia|]. left. by split_and!.
Qed.

Lemma kept_range c es c' : kept c es c' -> in_range c -> in_range c'.
Proof. intros ((E1 & E2 & E3) & _) Hr. unfold in_range. by rewrite E1, E2, E3. Qed.

Lemma kept_refl c : kept c [] c.
Proof. split; [done|]. split_and!; [done..|by intros ?]. Qed.

Lemma kept_trans c es c1 es' c2 : kept c es c1 -> kept c1 es' c2 -> kept c (es ++ es') c2.
Proof.
  intros ((A1 & A2 & A3) & R1 & C1 & D1) ((B1 & B2 & B3) & R2 & C2 & D2).
  split; [split_and!; congruence|]. autorewrite with files. rewrite R1, R2, C1, C2.
  split_and!; [done..|]. intros H. by apply D2, D1.
Qed.

(** The file before and after something that left it alone. *)
Lemma kept_sent_on b c es c1 es' c2 : kept c es c1 -> sent_on b c1 es' c2 -> sent_on b c (es ++ es') c2.
Proof.
  intros ((A1 & A2 & A3) & R1 & C1 & D1). unfold sent_on. rewrite A1, A2, A3.
  autorewrite with files. by rewrite R1, C1.
Qed.

Lemma sent_on_trans b b' c es c1 es' c2 :
  sent_on b c es c1 -> sent_on b' c1 es' c2 -> stays_down c1 c2 -> sent_on (b || b') c (es ++ es') c2.
Proof.
  intros H H' Hd. unfold sent_on in *. destruct (0 <=? TcpConnection.fileFd_ c) eqn:E; zbool.
  - destruct H as (mid & Hch & Hr & [(Hc & E1 & E2 & E3)|(Hc & E1 & Hw)]).
    + rewrite E1, (proj2 (Z.leb_le _ _) E), E2, E3 in H'.
      destruct H' as (to & Hch' & Hr' & H'). exists to. rewrite ranges_app.
      split; [by eapply chain_app|]. split; [lia|]. rewrite TcpConnection.closed_app, Hc.
      destruct H' as [H'|(Hc' & E1' & Hw)]; [by left | right]. split_and!; [done..|].
      rewrite orb_true_iff. naive_solver.
    + rewrite (proj2 (Z.leb_gt _ _) E1) in H'. destruct H' as (Hrs' & Hc' & E1').
      exists mid. rewrite ranges_app, TcpConnection.closed_app, Hrs', Hc', Hc, app_nil_r.
      split; [done|]. split; [done|]. right. split_and!; [done..|].
      rewrite orb_true_iff. naive_solver.
  - destruct H as (Hrs & Hc & E1). rewrite (proj2 (Z.leb_gt _ _) E1) in H'.
    destruct H' as (Hrs' & Hc' & E1'). rewrite ranges_app, TcpConnection.closed_app. by rewrite Hrs, Hc, Hrs'.
Qed.

(** Runs an operation that leaves the file alone. *)
Ltac keep :=
  TcpConnection.wlp_run;
  (split; [by split_and!|]); autorewrite with files; split_and!;
  unfold stays_down, TcpConnection.disconnected, TcpConnection.is_state in *; TcpConnection.fields;
  try done; try (intros ?; exfalso;
    repeat match goal with
    | H : _ || _ = true |- _ => apply orb_true_iff in H as [H|H]
    | H : negb (bool_decide _) = _ |- _ => apply (f_equal negb) in H; rewrite negb_involutive in H; simpl in H
    | H : bool_decide _ = true |- _ => apply bool_decide_eq_true in H
    end; congruence).

Lemma writeOutput_kept r c : wlp (TcpConnection.writeOutput r) c (fun _ c' es => kept c es c').
Proof. unfold TcpConnection.writeOutput. keep. Qed.

Lemma notifyLowWaterMark_kept c : wlp TcpConnection.notifyLowWaterMark c (fun _ c' es => kept c es c').
Proof. unfold TcpConnection.notifyLowWaterMark, TcpConnection.queueInLoop. keep. Qed.

Lemma sendInLoop_kept r m c : wlp (TcpConnection.sendInLoop r m) c (fun _ c' es => kept c es c').
Proof.
  unfold TcpConnection.sendInLoop, TcpConnection.directWrite, TcpConnection.queueOutput,
    TcpConnection.notifyHighWaterMark, TcpConnection.armWriting, TcpConnection.queueInLoop. keep.
Qed.

Lemma shutdownInLoop_kept c : wlp TcpConnection.shutdownInLoop c (fun _ c' es => kept c es c').
Proof. unfold TcpConnection.shutdownInLoop. keep. Qed.

(** The ways a file is closed. *)
Lemma handleClose_sent c :
  in_range c -> wlp TcpConnection.handleClose c (fun _ c' es => sent_on false c es c' /\ stays_down c c').
Proof.
  intros Hr. unfold TcpConnection.handleClose, sent_on, in_range in *.
  wlp_step. wlp_step. destruct (TcpConnection.is_state TcpConnection.kDisconnected c) eqn:Hd.
  { apply wlp_ret. split; [|by intros ?]. destruct (0 <=? _) eqn:E; zbool; [|by split_and!].
    exists (TcpConnection.fileOffset_ c). split; [done|]. split; [lia|]. left. by split_and!. }
  destruct (0 <=? TcpConnection.fileFd_ c) eqn:E; zbool.
  - TcpConnection.wlp_run; autorewrite with files;
      (split; [|by intros ?]); exists (TcpConnection.fileOffset_ c); (split; [done|]; split; [lia|]; right;
      split_and!; [done | TcpConnection.fields; lia | by right; right]).
  - TcpConnection.wlp_run; autorewrite with files;
        (split; [by split_and! | by intros ?]).
Qed.

Lemma finishWrite_sent c :
  in_range c -> wlp TcpConnection.finishWrite c (fun _ c' es => sent_on false c es c' /\ stays_down c c').
Proof.
  intros Hr. unfold TcpConnection.finishWrite, sent_on. do 2 wlp_step. apply wlp_when; intros Hb.
  - zbool. destruct (0 <=? TcpConnection.fileFd_ c) eqn:E; zbool.
    + destruct (Hr E) as [Ho Hs]. assert (Hoff : TcpConnection.fileOffset_ c = TcpConnection.fileSize_ c).
      { apply orb_true_iff in H0 as [?|Hx]; zbool; [lia|]. rewrite u64_small in Hx; lia. }
      unfold TcpConnection.queueInLoop, TcpConnection.shutdownInLoop.
      TcpConnection.wlp_run; autorewrite with files;
        (split; [|by intros ?]); exists (TcpConnection.fileOffset_ c); (split; [done|]; split; [lia|]; right;
        split_and!; [done | TcpConnection.fields; lia | by left]).
    + unfold TcpConnection.queueInLoop, TcpConnection.shutdownInLoop.
      TcpConnection.wlp_run; autorewrite with files;
        (split; [by split_and! | by intros ?]).
  - split; [|by intros ?]. apply kept_sent, kept_refl; done.
Qed.

Lemma writeFile_sent r c :
  in_range c -> TcpConnection.answer_ok (TcpConnection.fileSize_ c - TcpConnection.fileOffset_ c) r ->
  wlp (TcpConnection.writeFile r) c (fun go c' es =>
    sent_on (match r with SysOk _ => false | SysErr errno => negb (errno =? EAGAIN) end) c es c' /\
    in_range c' /\ stays_down c c').
Proof.
  intros Hr Ha. assert (Hkept : forall b, sent_on b c [] c) by (intros b; by apply kept_sent, kept_refl).
  unfold TcpConnection.writeFile. do 2 wlp_step.
  destruct (_ && _) eqn:Hb; [|apply wlp_ret; split_and!; [done | done | by intros ?]]. zbool.
  destruct (Hr H0) as [Ho Hs]. destruct r as [n|errno]; simpl in Ha.
  - wlp_steps. split_and!; [|unfold in_range; TcpConnection.fields; lia | by intros ?].
    unfold sent_on. rewrite (proj2 (Z.leb_le _ _) H0). exists (TcpConnection.fileOffset_ c + n).
    split; [simpl; split_and!; [done|done|lia|done]|]. split; [lia|]. left. by split_and!.
  - destruct (errno =? EAGAIN); [apply wlp_ret; split_and!; [done | done | by intros ?]|].
    wlp_steps. split_and!; [|unfold in_range; TcpConnection.fields; lia | by intros ?].
    unfold sent_on. rewrite (proj2 (Z.leb_le _ _) H0). exists (TcpConnection.fileOffset_ c).
    split; [done|]. split; [lia|]. right. split_and!; [done | TcpConnection.fields; lia | by right; left].
Qed.

Lemma handleWrite_sent w r c :
  in_range c -> TcpConnection.answer_ok (TcpConnection.fileSize_ c - TcpConnection.fileOffset_ c) r ->
  wlp (TcpConnection.handleWrite w r) c (fun _ c' es =>
    sent_on (broken (TcpConnection.EvWrite w r)) c es c' /\ stays_down c c').
Proof.
  intros Hr Ha. unfold TcpConnection.handleWrite. do 2 wlp_step.
  assert (Hk : forall es c1, kept c es c1 -> sent_on (broken (TcpConnection.EvWrite w r)) c es c1 /\ stays_down c c1).
  { intros es c1 H. split; [by apply kept_sent | apply H]. }
  destruct (negb _); [apply wlp_ret, Hk, kept_refl|].
  apply wlp_bind. eapply wlp_mono; [apply writeOutput_kept|]. intros go c1 es1 K1.
  destruct go; cbn [negb]; [|apply wlp_ret, Hk; by rewrite app_nil_r].
  apply wlp_bind. eapply wlp_mono; [apply notifyLowWaterMark_kept|]. intros ? c2 es2 K2.
  pose proof (kept_trans _ _ _ _ _ K1 K2) as K. pose proof (kept_range _ _ _ K Hr) as Hr2.
  apply wlp_bind. eapply wlp_mono; [apply writeFile_sent; [done|]|].
  { destruct K as ((_ & -> & ->) & _). done. }
  intros go c3 es3 (S3 & Hr3 & D3). destruct go; cbn [negb].
  - eapply wlp_mono; [by apply finishWrite_sent|]. intros ? c4 es4 [S4 D4]. cbn [app]. rewrite app_assoc.
    split; [|intros H; by apply D4, D3, K].
    apply (kept_sent_on _ _ _ _ _ _ K). rewrite <- (orb_false_r (broken _)).
    by eapply sent_on_trans.
  - apply wlp_ret. cbn [app]. rewrite app_nil_r, app_assoc.
    split; [by apply (kept_sent_on _ _ _ _ _ _ K) | intros H; by apply D3, K].
Qed.

Lemma handleRead_sent r c :
  in_range c -> wlp (TcpConnection.handleRead r) c (fun _ c' es => sent_on false c es c' /\ stays_down c c').
Proof.
  intros Hr. unfold TcpConnection.handleRead, TcpConnection.handleError. do 3 wlp_step. apply wlp_lift. intros [[b n] e] ?.
  cbv beta iota. do 2 wlp_step.
  set (c1 := TcpConnection.set_input b c). assert (K : kept c [] c1) by (by apply (kept_refl c)).
  assert (Hq : sent_on false c [] c1 /\ stays_down c c1) by (split; [by apply kept_sent | apply K]).
  destruct (0 <? n).
  - apply wlp_when; intros _; [|done]. apply wlp_tell. destruct Hq as [Hq Hd]. split; [|done].
    rewrite <- (app_nil_r ([] ++ _)), <- app_assoc. by apply (kept_sent_on false c [] c1).
  - destruct (n =? 0); [|by apply wlp_ret].
    eapply wlp_mono; [apply handleClose_sent, (kept_range _ _ _ K Hr)|]. intros ? c2 es [S D].
    split; [by apply (kept_sent_on _ _ _ _ _ _ K) | intros Hx; by apply D, K].
Qed.

(** Operations that take effect in one state of the connection only. *)
Lemma kept_when (b : bool) (m : TcpConnection.M unit) c :
  (b = true -> wlp m c (fun _ c' es => kept c es c')) ->
  wlp (st_when b m) c (fun _ c' es => kept c es c').
Proof. intros H. apply wlp_when; [exact H|]. intros _. apply kept_refl. Qed.

Lemma kept_get {A} (k : TcpConnection.t -> TcpConnection.M A) c :
  wlp (k c) c (fun _ c' es => kept c es c') ->
  wlp (st_bind st_get k) c (fun _ c' es => kept c es c').
Proof. intros H. do 2 wlp_step. exact H. Qed.

Lemma send_kept inLoop r m c : wlp (TcpConnection.send inLoop r m) c (fun _ c' es => kept c es c').
Proof.
  unfold TcpConnection.send, TcpConnection.runInLoop, TcpConnection.queueInLoop.
  apply kept_get, kept_when. intros _. destruct inLoop; [apply sendInLoop_kept | keep].
Qed.

Lemma shutdown_kept inLoop c : wlp (TcpConnection.shutdown inLoop) c (fun _ c' es => kept c es c').
Proof.
  unfold TcpConnection.shutdown, TcpConnection.shutdown_set, TcpConnection.runInLoop,
    TcpConnection.queueInLoop, TcpConnection.shutdownInLoop. destruct inLoop; keep.
Qed.

Lemma forceClose_kept c : wlp TcpConnection.forceClose c (fun _ c' es => kept c es c').
Proof. unfold TcpConnection.forceClose, TcpConnection.queueInLoop. keep. Qed.

(** The start of a file. *)
Lemma sendFileInLoop_adopts fd size c :
  TcpConnection.is_state TcpConnection.kDisconnected c = false ->
  wlp (TcpConnection.sendFileInLoop fd size) c (fun _ c' es =>
    TcpConnection.fileFd_ c' = fd /\ TcpConnection.fileSize_ c' = size /\
    TcpConnection.fileOffset_ c' = 0 /\ ranges es = [] /\ TcpConnection.closed es = []).
Proof.
  intros Hd. unfold TcpConnection.sendFileInLoop, TcpConnection.armWriting. do 2 wlp_step. rewrite Hd.
  TcpConnection.wlp_run; autorewrite with files; done.
Qed.

(** Every event. *)
Lemma event_sent c e :
  in_range c -> TcpConnection.event_ok c e -> no_new_file e = true ->
  wlp (TcpConnection.run_event e) c (fun _ c' es => sent_on (broken e) c es c' /\ stays_down c c').
Proof.
  intros Hr He Hn.
  assert (Hk : forall m : TcpConnection.M unit, wlp m c (fun _ c' es => kept c es c') ->
    wlp m c (fun _ c' es => sent_on (broken e) c es c' /\ stays_down c c')).
  { intros m H. eapply wlp_mono; [exact H|]. intros ? c1 es K. split; [by apply kept_sent | apply K]. }
  destruct e; cbn [TcpConnection.run_event]; try done.
  - apply Hk. unfold TcpConnection.connectEstablished. keep.
  - by apply handleRead_sent.
  - by apply handleWrite_sent; [|apply He].
  - by apply handleClose_sent.
  - apply Hk. keep.
  - apply Hk, send_kept.
  - apply Hk, sendInLoop_kept.
  - destruct inLoop; [done|]. apply Hk.
    unfold TcpConnection.sendFile, TcpConnection.runInLoop, TcpConnection.queueInLoop. keep.
  - apply Hk, shutdown_kept.
  - apply Hk, shutdownInLoop_kept.
  - apply Hk, forceClose_kept.
  - unfold TcpConnection.forceCloseInLoop. do 2 wlp_step. apply wlp_when; intros _; [by apply handleClose_sent|].
    split; [by apply kept_sent, kept_refl | by intros ?].
  - apply Hk. unfold TcpConnection.connectDestroyed. keep.
Qed.

Lemma run_sent evs : forall c,
  TcpConnection.wf c -> TcpConnection.run_ok evs c -> forallb no_new_file evs = true ->
  exists c' l, TcpConnection.run_log evs c = Ok (c', l) /\ TcpConnection.wf c' /\
    sent_on (existsb broken evs) c (TcpConnection.l_effects l) c' /\ stays_down c c'.
Proof.
  assert (Hwr : forall c, TcpConnection.wf c -> in_range c).
  { intros c Hwf Hf. by apply (TcpConnection.wf_file _ (proj1 Hwf)). }
  induction evs as [|e evs IH]; intros c Hwf Hok Hn.
  { exists c, (TcpConnection.Log [] [] [] []). split_and!; [done | done | by apply kept_sent, kept_refl; auto | by intros ?]. }
  destruct Hok as [He Hok]. cbn [forallb] in Hn. apply andb_true_iff in Hn as [Hn1 Hn]. cbn [TcpConnection.run_log].
  destruct (wp_elim _ _ _ (TcpConnection.run_event_spec c e Hwf He)) as ([] & c1 & es & Hrun & Hwf1 & _).
  destruct (event_sent c e (Hwr c Hwf) He Hn1 _ _ _ Hrun) as [S1 D1].
  rewrite Hrun in *. destruct (IH c1 Hwf1 Hok Hn) as (c2 & l & Hl & Hwf2 & S2 & D2).
  cbn [obind]. rewrite Hl. cbn [obind]. do 2 eexists. split; [done|]. split; [done|].
  split; [|intros H; by apply D2, D1]. cbn [TcpConnection.l_effects existsb]. by eapply sent_on_trans.
Qed.

(** ** Property *)

(** C23. A file is sent once and in order: after [sendFileInLoop] on a connection that is
    not down, whatever happens to it before the next file is handed over, the calls of
    [sendfile] take ranges of that file alone, each one where the one before it ended,
    from 0 and within its size; and its descriptor is either still there, with the offset
    where the last range ended, or was closed exactly once: when the file was complete,
    when [sendfile] failed, or when the connection went down. *)
Theorem file_sent_in_order (c : TcpConnection.t) (fd size : Z) (evs : list TcpConnection.event) :
  TcpConnection.wf c ->
  TcpConnection.state_ c <> TcpConnection.kDisconnected ->
  TcpConnection.run_ok (TcpConnection.EvSendFileInLoop fd size :: evs) c ->
  forallb no_new_file evs = true ->
  exists c' l to, TcpConnection.run_log (TcpConnection.EvSendFileInLoop fd size :: evs) c = Ok (c', l) /\
    chain fd 0 (ranges (TcpConnection.l_effects l)) to /\ 0 <= to <= size /\
    (TcpConnection.closed (TcpConnection.l_effects l) = [] /\ TcpConnection.fileFd_ c' = fd /\
       TcpConnection.fileOffset_ c' = to \/
     TcpConnection.closed (TcpConnection.l_effects l) = [fd] /\ TcpConnection.pending c' = [] /\
       (to = size \/ existsb broken evs = true \/ TcpConnection.disconnected c' = true)).
Proof.
  intros Hwf Hst [He Hok] Hn. cbn [TcpConnection.run_log].
  destruct (wp_elim _ _ _ (TcpConnection.run_event_spec c _ Hwf He)) as ([] & c1 & es & Hrun & Hwf1 & _).
  assert (H1 : TcpConnection.fileFd_ c1 = fd /\ TcpConnection.fileSize_ c1 = size /\
    TcpConnection.fileOffset_ c1 = 0 /\ ranges es = [] /\ TcpConnection.closed es = []).
  { revert Hrun. apply (sendFileInLoop_adopts fd size c). by apply bool_decide_eq_false. }
  destruct H1 as (E1 & E2 & E3 & R1 & C1). rewrite Hrun in Hok. rewrite Hrun.
  destruct (run_sent evs c1 Hwf1 Hok Hn) as (c2 & l & Hl & _ & S & _). cbn [obind]. rewrite Hl. cbn [obind].
  destruct He as [[Hfd Hsz] _]. unfold sent_on in S. rewrite E1, E2, E3, (proj2 (Z.leb_le _ _) Hfd) in S.
  destruct S as (to & Hch & Hr & S). do 3 eexists. split; [reflexivity|]. cbn [TcpConnection.l_effects].
  rewrite ranges_app, TcpConnection.closed_app, R1, C1. split; [exact Hch|]. split; [done|].
  destruct S as [(? & ? & _ & ?)|(? & Hneg & ?)]; [by left | right]. split_and!; [done| |done].
  unfold TcpConnection.pending. by rewrite (proj2 (Z.leb_gt _ _) Hneg).
Qed.

(** A file of ten bytes goes out in two parts, with a message in between. *)
Definition test_events : list TcpConnection.event :=
  [TcpConnection.EvWrite (SysOk 0) (SysOk 4); TcpConnection.EvSend true (SysOk 0) (str "xy");
   TcpConnection.EvWrite (SysErr EAGAIN) (SysErr EAGAIN); TcpConnection.EvWrite (SysOk 2) (SysOk 6)].

Lemma file_sent_in_order_witness :
  exists c' l to,
    TcpConnection.run_log (TcpConnection.EvSendFileInLoop 9 10 :: test_events) TcpConnection.test_up = Ok (c', l) /\
    chain 9 0 (ranges (TcpConnection.l_effects l)) to /\ 0 <= to <= 10 /\
    (TcpConnection.closed (TcpConnection.l_effects l) = [] /\ TcpConnection.fileFd_ c' = 9 /\
       TcpConnection.fileOffset_ c' = to \/
     TcpConnection.closed (TcpConnection.l_effects l) = [9] /\ TcpConnection.pending c' = [] /\
       (to = 10 \/ existsb broken test_events = true \/ TcpConnection.disconnected c' = true)).
Proof.
  apply (file_sent_in_order TcpConnection.test_up 9 10 test_events).
  - apply TcpConnection.test_up_wf.
  - discriminate.
  - TcpConnection.concrete_run.
  - reflexivity.
Defined.

(** A file that has become shorter than [fileSize_]: [sendfile] takes nothing any more,
    and the connection asks for EPOLLOUT for ever. *)
Example truncated_file :
  match TcpConnection.run_log (TcpConnection.EvSendFileInLoop 9 10 ::
      replicate 20 (TcpConnection.EvWrite (SysOk 0) (SysOk 0))) TcpConnection.test_up with
  | Ok (c, l) => TcpConnection.closed (TcpConnection.l_effects l) = [] /\ TcpConnection.fileFd_ c = 9 /\
      Channel.isWriting (TcpConnection.channel_ c) = true
  | Fault _ => False
  end.
Proof. vm_compute. auto. Qed.

End FileStream.
