(* ===== verification/Duration.v ===== *)
(** * Duration: secondsToMicroseconds of src/src/net/TimerQueue.cpp

    A [double] is a [spec_float] of the Standard Library, binary64; the product is
    the correctly rounded one ([SFmul]), and the conversion to [int64_t] truncates
    and is a fault out of range, where C++ leaves it undefined.  The property is
    that it never is out of range. *)

From Stdlib Require Import SpecFloat.
From S2P Require Import Prelude.

Module Duration.

(** [double]: IEEE 754 binary64. *)
Abbreviation double := spec_float.
Definition prec : Z := 53.
Definition emax : Z := 1024.

Definition zero : double := S754_zero false.

Definition isfinite (x : double) : bool :=
  match x with S754_zero _ | S754_finite _ _ _ => true | _ => false end.

Definition leb (x y : double) : bool := SFleb x y.
Definition ltb (x y : double) : bool := SFltb x y.
Definition mul (x y : double) : double := SFmul prec emax x y.

(** The conversion of an integer, rounded to nearest. *)
Definition of_int64 (z : Z) : double := binary_normalize prec emax z 0 false.

(** [m * 2^e] without its fraction. *)
Definition trunc (m : positive) (e : Z) : Z :=
  if 0 <=? e then Z.pos m * 2^e else Z.pos m / 2^(-e).

(** [static_cast<int64_t>] *)
Definition to_int64 (x : double) : outcome Z :=
  match x with
  | S754_zero _ => Ok 0
  | S754_finite s m e =>
      let z := if s then - trunc m e else trunc m e in
      if (- 2^63 <=? z) && (z <=? INT64_MAX) then Ok z else Fault BadConversion
  | _ => Fault BadConversion
  end.

Definition kMicrosecondsPerSecond : Z := 1000000.

Definition secondsToMicroseconds (seconds : double) : outcome Z :=
  if leb seconds zero then Ok 0 else
  let maxSeconds := of_int64 (INT64_MAX / kMicrosecondsPerSecond) in
  if leb maxSeconds seconds then Ok INT64_MAX else
  let! us := to_int64 (mul seconds (of_int64 kMicrosecondsPerSecond)) in
  Ok (Z.max 1 us).

(** [valid x]: a value a binary64 variable can hold. *)
Definition valid (x : double) : Prop := valid_binary prec emax x = true.

(** The double nearest to [n / d]. *)
Definition quotient (n d : Z) : double := SFdiv prec emax (of_int64 n) (of_int64 d).

Example half_second : secondsToMicroseconds (quotient 1 2) = Ok 500000.
Proof. reflexivity. Qed.
Example tenth_second : secondsToMicroseconds (quotient 1 10) = Ok 100000.
Proof. reflexivity. Qed.
Example a_nanosecond : secondsToMicroseconds (quotient 1 1000000000) = Ok 1.
Proof. reflexivity. Qed.
Example ten_billion_seconds : secondsToMicroseconds (of_int64 10000000000000) = Ok INT64_MAX.
Proof. reflexivity. Qed.

(** ** Lemmas: right shifts and rounding only increase by less than one unit *)

(** A value [m * 2^e], scaled to an integer. *)
Definition scale : Z := 1200.
Definition scaled (m e : Z) : Z := m * 2^(e + scale).

Lemma scaled_mono m m' e : - scale <= e -> m <= m' -> scaled m e <= scaled m' e.
Proof. intros. unfold scaled. apply Z.mul_le_mono_nonneg_r; [apply Z.pow_nonneg|]; lia. Qed.

Lemma scaled_shift m e k : - scale <= e -> 0 <= k -> scaled m (e + k) = scaled (m * 2^k) e.
Proof.
  intros. unfold scaled. replace (e + k + scale) with (k + (e + scale)) by lia.
  rewrite Z.pow_add_r by (unfold scale in *; lia). lia.
Qed.

Lemma shr_1_half r : 0 <= shr_m r -> 0 <= 2 * shr_m (shr_1 r) <= shr_m r.
Proof. destruct r as [m rb s]. simpl. destruct m as [|[p|p|]|p]; simpl; lia. Qed.

Lemma iter_shr_1 p r :
  0 <= shr_m r -> 0 <= shr_m (SpecFloat.iter_pos shr_1 p r) * 2^(Z.pos p) <= shr_m r.
Proof.
  revert r. induction p as [p IH|p IH|]; intros r Hr; cbn [SpecFloat.iter_pos].
  - pose proof (shr_1_half r Hr). destruct (IH (shr_1 r)) as [H1 H2]; [lia|].
    assert (Hp : 0 < 2^Z.pos p) by (apply Z.pow_pos_nonneg; lia).
    destruct (IH (SpecFloat.iter_pos shr_1 p (shr_1 r))) as [H3 H4]; [nia|].
    replace (Z.pos p~1) with (1 + Z.pos p + Z.pos p) by lia.
    rewrite !Z.pow_add_r by lia. change (2^1) with 2. nia.
  - destruct (IH r Hr) as [H1 H2].
    assert (Hp : 0 < 2^Z.pos p) by (apply Z.pow_pos_nonneg; lia).
    destruct (IH (SpecFloat.iter_pos shr_1 p r)) as [H3 H4]; [nia|].
    replace (Z.pos p~0) with (Z.pos p + Z.pos p) by lia.
    rewrite !Z.pow_add_r by lia. nia.
  - pose proof (shr_1_half r Hr). change (2^1) with 2. lia.
Qed.

Lemma shr_scaled r e n r' e' :
  0 <= shr_m r -> - scale <= e -> shr r e n = (r', e') ->
  0 <= shr_m r' /\ scaled (shr_m r') e' <= scaled (shr_m r) e /\ e' = e + Z.max 0 n /\
  (n <= 0 -> r' = r).
Proof.
  intros Hr He Hs. destruct n as [|p|p]; simpl in Hs; simplify_eq.
  - split_and!; [lia..|]. done.
  - destruct (iter_shr_1 p r Hr) as [H1 H2].
    assert (Hp : 0 < 2^Z.pos p) by (apply Z.pow_pos_nonneg; lia).
    split_and!; [nia | | lia | lia].
    rewrite scaled_shift by lia. by apply scaled_mono.
  - split_and!; [lia..|]. done.
Qed.

Lemma digits_bound p :
  2^(Z.pos (digits2_pos p) - 1) <= Z.pos p < 2^(Z.pos (digits2_pos p)).
Proof.
  induction p as [p IH|p IH|]; cbn [digits2_pos]; [..|by cbn];
    rewrite Pos2Z.inj_succ;
    replace (Z.succ (Z.pos (digits2_pos p)) - 1) with (Z.succ (Z.pos (digits2_pos p) - 1)) by lia;
    rewrite !Z.pow_succ_r by lia; lia.
Qed.

Lemma Zdigits2_nonneg m : 0 <= m -> 0 <= Zdigits2 m.
Proof. destruct m; simpl; lia. Qed.

Lemma fexp_ge e : - 1074 <= fexp prec emax e.
Proof. unfold fexp, emin, prec, emax. lia. Qed.

(** The unit of the last place of a rounded value is a 2^52-th of it, or the
    smallest there is. *)
Lemma ulp_bound m e :
  - 1110 <= e ->
  scaled 1 (fexp prec emax (Z.pos (digits2_pos m) + e)) * 2^52 <=
    Z.max (scaled (Z.pos m) e) (2^200).
Proof.
  intros He. pose proof (digits_bound m) as [Hd _]. unfold scaled, fexp, emin, prec, emax, scale.
  rewrite Z.mul_1_l, <- Z.pow_add_r by lia.
  set (d := Z.pos (digits2_pos m)) in *. assert (1 <= d) by (subst d; lia).
  destruct (Z.max_spec (d + e - 53) (3 - 1024 - 53)) as [[? ->]|[? ->]].
  - transitivity (2^200); [|apply Z.le_max_r]. apply Z.pow_le_mono_r; lia.
  - transitivity (Z.pos m * 2 ^ (e + 1200)); [|apply Z.le_max_l].
    replace (d + e - 53 + 1200 + 52) with ((d - 1) + (e + 1200)) by lia.
    rewrite Z.pow_add_r by lia. apply Z.mul_le_mono_nonneg_r; [apply Z.pow_nonneg; lia | done].
Qed.

(** The rounding of an exact positive value exceeds it by at most one unit. *)
Lemma binary_round_aux_bound m e x :
  - 1110 <= e -> binary_round_aux prec emax false (Z.pos m) e loc_Exact = x ->
  match x with
  | S754_zero _ => True
  | S754_infinity _ =>
      scaled 1 972 * 2^52 <= scaled (Z.pos m) e * 2^52 + Z.max (scaled (Z.pos m) e) (2^200)
  | S754_finite s m' e' => s = false /\ - 1110 <= e' /\
      scaled (Z.pos m') e' * 2^52 <= scaled (Z.pos m) e * 2^52 + Z.max (scaled (Z.pos m) e) (2^200)
  | S754_nan => False
  end.
Proof.
  intros He <-. unfold binary_round_aux, shr_fexp. cbn [shr_record_of_loc Zdigits2].
  destruct (shr _ e _) as [r1 e1] eqn:H1.
  apply shr_scaled in H1 as (Hm1 & Hv1 & -> & Hid); [| simpl; lia | unfold scale; lia].
  cbn [shr_m] in *. set (k := fexp prec emax (Z.pos (digits2_pos m) + e) - e) in *.
  set (m1 := round_nearest_even (shr_m r1) (loc_of_shr_record r1)).
  assert (Hr : 0 <= m1 /\ scaled m1 (e + Z.max 0 k) * 2^52 <=
      scaled (Z.pos m) e * 2^52 + Z.max (scaled (Z.pos m) e) (2^200)).
  { destruct (decide (k <= 0)) as [Hk|Hk].
    - subst m1. rewrite Hid in * by done. cbn [shr_m loc_of_shr_record round_nearest_even] in *.
      split; [lia|]. pose proof (Z.le_max_r (scaled (Z.pos m) e) (2^200)). lia.
    - assert (0 <= m1 <= shr_m r1 + 1) as [Hm1a Hm1b].
      { subst m1. destruct r1 as [mm [] []]; cbn in *; try destruct (Z.even mm); lia. }
      split; [done|]. pose proof (ulp_bound m e He) as Hu.
      replace (e + Z.max 0 k) with (fexp prec emax (Z.pos (digits2_pos m) + e)) in * by lia.
      pose proof (fexp_ge (Z.pos (digits2_pos m) + e)) as Hf. unfold scaled in *.
      pose proof (Z.pow_nonneg 2 (fexp prec emax (Z.pos (digits2_pos m) + e) + scale)).
      nia. }
  destruct (shr _ (e + Z.max 0 k) _) as [r2 e2] eqn:H2.
  apply shr_scaled in H2 as (Hm2 & Hv2 & -> & _); [| simpl; lia | unfold scale; lia].
  cbn [shr_m shr_record_of_loc] in *.
  destruct (shr_m r2) as [|m2|m2]; [done | | lia].
  destruct (_ <=? emax - prec) eqn:Hinf; zbool; [split_and!; [done | lia | lia]|].
  assert (scaled 1 972 <= scaled (Z.pos m2) (e + Z.max 0 k + Z.max 0 (fexp prec emax (Zdigits2 m1 + (e + Z.max 0 k)) - (e + Z.max 0 k)))); [|lia].
  unfold scaled. apply Z.mul_le_mono_nonneg; [lia.. | apply Z.pow_nonneg; lia |].
  apply Z.pow_le_mono_r; unfold emax, prec in *; lia.
Qed.

Lemma trunc_bound m e b :
  - scale <= e -> 0 <= b -> scaled (Z.pos m) e < b * 2^scale -> 0 <= trunc m e < b.
Proof.
  intros He Hb H. unfold trunc, scaled in *. destruct (0 <=? e) eqn:E; zbool.
  - rewrite Z.pow_add_r in H by (unfold scale in *; lia).
    assert (0 < 2^scale) by done. assert (0 < 2^e) by (apply Z.pow_pos_nonneg; lia).
    split; [lia|]. apply (Z.mul_lt_mono_pos_r (2^scale)); lia.
  - assert (0 < 2^(-e)) by (apply Z.pow_pos_nonneg; lia).
    split; [apply Z.div_pos; lia|]. apply Z.div_lt_upper_bound; [done|].
    replace scale with ((e + scale) + - e) in H at 2 by lia.
    rewrite (Z.pow_add_r 2 (e + scale)) in H by lia.
    assert (0 < 2^(e + scale)) by (apply Z.pow_pos_nonneg; lia).
    apply (Z.mul_lt_mono_pos_r (2^(e + scale))); lia.
Qed.

Lemma valid_finite s m e :
  valid (S754_finite s m e) -> - 1074 <= e /\ 2^52 * Z.pos m < 2^52 * 2^53.
Proof.
  unfold valid. cbn [valid_binary]. unfold bounded, canonical_mantissa.
  intros [H _]%andb_true_iff. apply Z.eqb_eq in H.
  pose proof (fexp_ge (Z.pos (digits2_pos m) + e)). split; [unfold prec in *; lia|].
  apply Z.mul_lt_mono_pos_l; [lia|].
  assert (Z.pos (digits2_pos m) <= 53) by (unfold fexp, prec in H; lia).
  pose proof (digits_bound m). pose proof (Z.pow_le_mono_r 2 (Z.pos (digits2_pos m)) 53). lia.
Qed.

(** [maxSeconds] as a double, exactly. *)
Lemma max_seconds_exact :
  of_int64 (INT64_MAX / kMicrosecondsPerSecond) = S754_finite false (9223372036854 * 512) (-9).
Proof. reflexivity. Qed.

Lemma million_exact : of_int64 kMicrosecondsPerSecond = S754_finite false (1000000 * 2^33) (-33).
Proof. reflexivity. Qed.

(** Below [maxSeconds]. *)
Lemma below_max m e :
  valid (S754_finite false m e) ->
  leb (of_int64 (INT64_MAX / kMicrosecondsPerSecond)) (S754_finite false m e) = false ->
  scaled (Z.pos m) e < 9223372036854 * 2^scale.
Proof.
  intros [He Hm]%valid_finite. rewrite max_seconds_exact. unfold leb, SFleb. cbn [SFcompare].
  unfold scaled. destruct (Z.compare_spec (-9) e) as [<-|Hlt|Hgt]; [|done|].
  - destruct (Pos.compare_cont _ _ _) eqn:E; [done..|]. intros _.
    change (Pos.compare (9223372036854 * 512) m = Gt) in E. apply Pos.compare_gt_iff in E.
    apply Pos2Z.pos_lt_pos in E. unfold scale in *. nia.
  - intros _. assert (0 < 2^(e + scale)) by (apply Z.pow_pos_nonneg; unfold scale; lia).
    apply Z.lt_le_trans with (2^53 * 2^(e + scale)); [nia|].
    transitivity (2^53 * 2^(-10 + scale)); [|by vm_compute].
    apply Z.mul_le_mono_nonneg_l; [lia|]. apply Z.pow_le_mono_r; lia.
Qed.

(** For users: the result is in range. *)
Lemma seconds_cases x :
  valid x -> isfinite x = true ->
  exists us, secondsToMicroseconds x = Ok us /\ 0 <= us <= INT64_MAX /\
    (us = 0 <-> leb x zero = true).
Proof.
  intros Hv Hf. unfold secondsToMicroseconds. destruct (leb x zero) eqn:Hz.
  { exists 0. by split_and!. }
  destruct (leb (of_int64 _) x) eqn:Hmx.
  { exists INT64_MAX. split_and!; try done. }
  destruct x as [b| | |b m e]; try done. destruct b; [done|].
  pose proof (below_max m e Hv Hmx) as Hb. destruct (valid_finite _ _ _ Hv) as [He _].
  unfold mul. rewrite million_exact. cbn [SFmul xorb].
  assert (HP : 0 <= scaled (Z.pos (m * (1000000 * 2^33))) (e + -33) <
                1000000 * 9223372036854 * 2^scale).
  { unfold scaled in *. replace (e + scale) with ((e + -33 + scale) + 33) in Hb by lia.
    rewrite (Z.pow_add_r 2 (e + -33 + scale)) in Hb by (unfold scale; lia).
    rewrite Pos2Z.inj_mul. change (Z.pos (1000000 * 2^33)) with (1000000 * 2^33).
    assert (0 < 2^(e + -33 + scale)) by (apply Z.pow_pos_nonneg; unfold scale; lia).
    split; [lia|]. lia. }
  destruct (binary_round_aux _ _ _ _ _ _) as [?|?| |s m' e'] eqn:Hr;
    (eapply binary_round_aux_bound in Hr as Hx; [|lia]); cbn iota beta in Hx.
  - exists 1. by split_and!.
  - exfalso. change (2^scale) with (2^1200) in HP. revert HP Hx.
    generalize (scaled (Z.pos (m * (1000000 * 2^33))) (e + -33)). intros P HP Hx.
    assert (2^200 <= 2^1200) by done. assert (scaled 1 972 = 2^900 * 2^72 * 2^1200) as HS by done.
    rewrite HS in Hx.
    assert (2^72 * 2^1200 <= 2^900 * 2^72 * 2^1200) by done. lia.
  - done.
  - destruct Hx as (-> & He' & Hx).
    assert (0 <= trunc m' e' < 2^63) as Ht.
    { apply trunc_bound; [unfold scale; lia | done |]. change (2^scale) with (2^1200) in *.
      assert (2^200 <= 2^1200) by done. lia. }
    cbn [to_int64]. rewrite (proj2 (Z.leb_le (-2^63) _)) by lia.
    rewrite (proj2 (Z.leb_le _ INT64_MAX)) by (unfold INT64_MAX; lia).
    exists (Z.max 1 (trunc m' e')). split; [done|]. unfold INT64_MAX. split_and!; [lia..|].
    split; [lia | done].
Qed.

Lemma seconds_range x :
  valid x -> isfinite x = true ->
  exists us, secondsToMicroseconds x = Ok us /\ 0 <= us <= INT64_MAX.
Proof. intros Hv Hf. destruct (seconds_cases x Hv Hf) as (us & ? & ? & _). eauto. Qed.

(** ** Properties *)

(** C30. The conversion of a delay: for every finite double the conversion to
    [int64_t] is in range (no undefined behaviour), the result is between 0 and
    INT64_MAX, 0 exactly for a delay that is not positive, and at least one
    microsecond for a positive one; it saturates from INT64_MAX/10^6 seconds on. *)
Theorem secondsToMicroseconds_in_range (x : double) :
  valid x -> isfinite x = true ->
  exists us, secondsToMicroseconds x = Ok us /\ 0 <= us <= INT64_MAX /\
    (us = 0 <-> leb x zero = true).
Proof.
  intros Hv Hf. by apply seconds_cases.
Qed.

Lemma secondsToMicroseconds_in_range_witness :
  exists us, secondsToMicroseconds (quotient 5 2) = Ok us /\ 0 <= us <= INT64_MAX /\
    (us = 0 <-> leb (quotient 5 2) zero = true).
Proof. apply (secondsToMicroseconds_in_range (quotient 5 2)); reflexivity. Defined.

End Duration.
