(* ===== verification/Socket.v ===== *)
(** * Timestamp and Socket: src/src/base/Timestamp.h and src/src/net/Socket.{h,cpp}

    The clock's value and the arithmetic on it, and the owner of a socket descriptor: one
    system call per method, whose result is an argument, and the end of the process where
    the code calls [exit]. *)

From Stdlib Require Import SpecFloat.
From S2P Require Import Prelude Duration.

Module Timestamp.

(** [microSecondsSinceEpoch_], an [int64_t]. *)
Record t := mk { microSecondsSinceEpoch_ : Z }.

Definition kMicroSecondsPerSecond : Z := 1000 * 1000.

Definition make : t := mk 0.
Definition microSecondsSinceEpoch (x : t) : Z := microSecondsSinceEpoch_ x.

(** A result of signed 64-bit arithmetic. *)
Definition int64 (z : Z) : outcome Z :=
  require ((- 2^63 <=? z) && (z <=? INT64_MAX)) SignedOverflow (Ok z).

(** [now()], [gettimeofday] having answered [tv_sec] and [tv_usec]. *)
Definition now (tv_sec tv_usec : Z) : outcome t :=
  let! us := int64 (tv_sec * kMicroSecondsPerSecond) in
  let! us := int64 (us + tv_usec) in
  Ok (mk us).

Definition ltb (x y : t) : bool := microSecondsSinceEpoch_ x <? microSecondsSinceEpoch_ y.
Definition eqb (x y : t) : bool := microSecondsSinceEpoch_ x =? microSecondsSinceEpoch_ y.

(** [addTime]: the conversion of an infinite or huge number of seconds is undefined. *)
Definition addTime (timestamp : t) (seconds : Duration.double) : outcome t :=
  let! delta := Duration.to_int64 (Duration.mul seconds (Duration.of_int64 kMicroSecondsPerSecond)) in
  let! us := int64 (microSecondsSinceEpoch timestamp + delta) in
  Ok (mk us).

(** Clock readings are ordered like the clock. *)
Lemma now_ordered s1 u1 s2 u2 x y :
  0 <= u1 < 1000000 -> 0 <= u2 < 1000000 ->
  now s1 u1 = Ok x -> now s2 u2 = Ok y ->
  ltb x y = true <-> s1 < s2 \/ (s1 = s2 /\ u1 < u2).
Proof.
  intros H1 H2. unfold now, int64, ltb, kMicroSecondsPerSecond.
  repeat (unfold require; destruct (_ && _); cbn [obind]; [|by try (intros ? ?)]).
  intros [= <-] [= <-]. simpl. rewrite Z.ltb_lt. lia.
Qed.

(** No reading of a clock that shows a time before the year 292277 overflows. *)
Lemma now_total s u :
  0 <= s <= 9223372036853 -> 0 <= u < 1000000 -> now s u = Ok (mk (s * 1000000 + u)).
Proof.
  intros Hs Hu. unfold now, int64, kMicroSecondsPerSecond, INT64_MAX.
  rewrite require_true by (apply andb_true_iff; split; apply Z.leb_le; lia). cbn [obind].
  rewrite require_true by (apply andb_true_iff; split; apply Z.leb_le; lia). done.
Qed.

(** Where [TimerQueue]'s conversion is neither clamped to 1 nor to the largest integer,
    [addTime] adds the same delay. *)
Lemma addTime_delay x s d :
  Duration.leb s Duration.zero = false ->
  Duration.leb (Duration.of_int64 (INT64_MAX / Duration.kMicrosecondsPerSecond)) s = false ->
  Duration.secondsToMicroseconds s = Ok d -> 1 < d ->
  addTime x s = (let! us := int64 (microSecondsSinceEpoch x + d) in Ok (mk us)).
Proof.
  intros H1 H2. unfold Duration.secondsToMicroseconds, addTime. rewrite H1, H2.
  change (Duration.of_int64 kMicroSecondsPerSecond) with (Duration.of_int64 Duration.kMicrosecondsPerSecond).
  destruct (Duration.to_int64 _) as [us|]; cbn [obind]; [|done].
  intros [= <-] Hd. by replace (Z.max 1 us) with us in * by lia.
Qed.

Example addTime_half : addTime make (Duration.quotient 1 2) = Ok (mk 500000).
Proof. vm_compute. reflexivity. Qed.
(** Negative delays go back in time, and fractions of a microsecond are dropped. *)
Example addTime_negative : addTime (mk 10) (Duration.of_int64 (-1)) = Ok (mk (-999990)).
Proof. vm_compute. reflexivity. Qed.
Example addTime_infinite : addTime make (S754_infinity false) = Fault BadConversion.
Proof. vm_compute. reflexivity. Qed.

End Timestamp.

Module Socket.

Record t := mk { fd_ : Z }.

(** The system calls, and what is printed. *)
Inductive effect :=
| ESocket                            (** [socket(AF_INET, SOCK_STREAM, 0)] *)
| EClose (fd : Z)
| EBind (fd : Z)
| EListen (fd : Z)
| EAccept4 (fd : Z)
| EShutdownWr (fd : Z)
| ESetsockopt (fd : Z) (reuse : bool) (optval : Z)   (** SO_REUSEADDR or SO_KEEPALIVE *)
| EGetfl (fd : Z)
| ESetfl (fd flags : Z)
| EPrint (line : string)            (** the text, without symbols, number and newline *)
.

(** An operation returns, or ends the process. *)
Inductive ended (A : Type) :=
| Returned (a : A)
| Exited (status : Z).
Arguments Returned {A} a.
Arguments Exited {A} status.

Definition M (A : Type) := ST t effect (ended A).

(** The next operation, unless the process has ended. *)
Definition andThen {A B} (m : M A) (k : A -> M B) : M B :=
  let* r := m in
  match r with Returned a => k a | Exited s => st_ret (Exited s) end.

Definition ok : M unit := st_ret (Returned tt).
Definition perform (es : list effect) : M unit := st_tell es ;;; ok.

Definition fd_of (r : sysret) : Z := match r with SysOk n => n | SysErr _ => -1 end.

(** [Socket(int fd)] and [Socket()]; the second one makes the socket. *)
Definition of_fd (fd : Z) : t * list effect :=
  (mk fd, if fd =? -1 then [EPrint "Create socket error!"] else []).
Definition make (r : sysret) : t * list effect :=
  let fd := fd_of r in
  (mk fd, ESocket :: if fd =? -1 then [EPrint "Create socket error!"] else []).

Definition destroy (s : t) : list effect :=
  if negb (fd_ s =? -1) then [EClose (fd_ s); EPrint "Socket closed: "] else [].

Definition getFd (s : t) : Z := fd_ s.

Definition bindAddress (r : sysret) : M unit :=
  let* s := st_get in
  st_tell [EBind (fd_ s)] ;;;
  match r with
  | SysOk _ => perform [EPrint "Socket::bindAddress success"]
  | SysErr _ => st_tell [EPrint "Socket::bindAddress fatal error"] ;;; st_ret (Exited 1)
  end.

Definition listen (r : sysret) : M unit :=
  let* s := st_get in
  st_tell [EListen (fd_ s)] ;;;
  match r with
  | SysOk _ => perform [EPrint "Socket::listen success"]
  | SysErr _ => st_tell [EPrint "Socket::listen fatal error"] ;;; st_ret (Exited 1)
  end.

(** [accept]: the descriptor and the address of the peer, which is only stored when
    there is one. *)
Definition accept {A} (r : sysret) (addr : A) (peeraddr : A) : M (Z * A) :=
  let* s := st_get in
  st_tell [EAccept4 (fd_ s)] ;;;
  let connfd := fd_of r in
  st_ret (Returned (connfd, if 0 <=? connfd then addr else peeraddr)).

Definition setReuseAddr (on : bool) : M unit :=
  let* s := st_get in perform [ESetsockopt (fd_ s) true (if on then 1 else 0)].
Definition setKeepAlive (on : bool) : M unit :=
  let* s := st_get in perform [ESetsockopt (fd_ s) false (if on then 1 else 0)].

Definition O_NONBLOCK : Z := 2048.

(** [fcntl(F_GETFL)] answers [r]; a failure is not looked at, and or-ed as -1. *)
Definition setNonBlocking (r : sysret) : M unit :=
  let* s := st_get in
  perform [EGetfl (fd_ s); ESetfl (fd_ s) (Z.lor (fd_of r) O_NONBLOCK)].

Definition shutdownWrite (r : sysret) : M unit :=
  let* s := st_get in
  st_tell [EShutdownWr (fd_ s)] ;;;
  match r with
  | SysOk _ => ok
  | SysErr _ => perform [EPrint "Socket::shutdownWrite"]
  end.

(** The descriptors an effect list closes. *)
Definition closed (es : list effect) : list Z :=
  omap (fun e => match e with EClose fd => Some fd | _ => None end) es.

(** A descriptor that was made is closed exactly once, by the destructor; where there is
    none nothing is closed. *)
Lemma socket_closed r :
  match r with SysOk fd => 0 <= fd | SysErr _ => True end ->
  closed (make r).2 = [] /\
  closed (destroy (make r).1) = match r with SysOk fd => [fd] | SysErr _ => [] end.
Proof.
  intros Hr. unfold make, destroy, fd_of. destruct r as [fd|e]; simpl; [|done].
  rewrite (proj2 (Z.eqb_neq fd (-1))) by lia. done.
Qed.

End Socket.
