(* ===== verification/TimerQueue.v ===== *)
(** * TimerQueue: src/src/net/TimerQueue.{h,cpp}

    A timer is an object shared by [timers_], [activeTimers_], the functors queued
    on the loop and the local vector of [handleRead]: the state holds the timers by
    address, so that what one holder writes ([canceled], [expiration]) the others
    see.  [timers_] is ordered by (expiration, address), as the [std::set] of pairs
    is.  [timerfd_] is what the kernel's timer is set to; [queued_] are the functors
    that [runInLoop] put on the loop, in order; readings of the clock and the
    addresses of new timers are arguments. *)

From Stdlib Require Import Sorted.
From S2P Require Import Prelude Duration.

Module TimerQueue.

Definition kMicrosecondsPerSecond : Z := Duration.kMicrosecondsPerSecond.

(** [TimerQueue::Timer], without its callback. *)
Record timer := Timer {
  id : Z;
  expiration : Z;
  interval : Z;
  repeating : bool;
  canceled : bool;
}.

(** [struct itimerspec]'s [it_value]. *)
Record timespec := Timespec { tv_sec : Z; tv_nsec : Z }.

Inductive functor :=
| FAdd (p : Z) (delay : Duration.double)     (** [addTimerInLoop(timer, delay)] *)
| FCancel (timerId : Z).                     (** [cancelInLoop(timerId)] *)

Record t := mk {
  heap : gmap Z timer;               (** the timers, by address *)
  nextTimerId_ : Z;
  timers_ : list (Z * Z);            (** (expiration, address) *)
  activeTimers_ : gmap Z Z;          (** id to address *)
  timerfd_ : timespec;
  queued_ : list functor;
}.

(** The calls of timer callbacks, by timer id. *)
Inductive effect := ECallback (timerId : Z).

Definition M := ST t effect.

Definition make : t := mk ∅ 1 [] ∅ (Timespec 0 0) [].

Definition set_heap (h : gmap Z timer) (c : t) : t :=
  mk h (nextTimerId_ c) (timers_ c) (activeTimers_ c) (timerfd_ c) (queued_ c).
Definition set_next (n : Z) (c : t) : t :=
  mk (heap c) n (timers_ c) (activeTimers_ c) (timerfd_ c) (queued_ c).
Definition set_timers (l : list (Z * Z)) (c : t) : t :=
  mk (heap c) (nextTimerId_ c) l (activeTimers_ c) (timerfd_ c) (queued_ c).
Definition set_active (a : gmap Z Z) (c : t) : t :=
  mk (heap c) (nextTimerId_ c) (timers_ c) a (timerfd_ c) (queued_ c).
Definition set_timerfd (v : timespec) (c : t) : t :=
  mk (heap c) (nextTimerId_ c) (timers_ c) (activeTimers_ c) v (queued_ c).
Definition set_queued (q : list functor) (c : t) : t :=
  mk (heap c) (nextTimerId_ c) (timers_ c) (activeTimers_ c) (timerfd_ c) q.

Definition set_expiration (e : Z) (tm : timer) : timer :=
  Timer (id tm) e (interval tm) (repeating tm) (canceled tm).
Definition set_canceled (tm : timer) : timer :=
  Timer (id tm) (expiration tm) (interval tm) (repeating tm) true.

(** Dereferences of a [shared_ptr]. *)
Definition deref (p : Z) : M timer :=
  let* c := st_get in
  match heap c !! p with
  | Some tm => st_ret tm
  | None => st_lift (Fault NullDereference)
  end.
Definition assign (p : Z) (tm : timer) : M unit :=
  st_modify (fun c => set_heap (<[p := tm]> (heap c)) c).

(** [std::pair]'s [<] *)
Definition entry_lt (a b : Z * Z) : bool :=
  (a.1 <? b.1) || ((a.1 =? b.1) && (a.2 <? b.2)).

Definition entry_eqb (a b : Z * Z) : bool := (a.1 =? b.1) && (a.2 =? b.2).

(** [std::set::emplace], on the ordered elements. *)
Fixpoint set_emplace (x : Z * Z) (l : list (Z * Z)) : list (Z * Z) :=
  match l with
  | [] => [x]
  | y :: l' =>
      if entry_lt x y then x :: l
      else if entry_eqb x y then l
      else y :: set_emplace x l'
  end.

(** [std::set::erase] of an element that is there. *)
Definition set_erase (x : Z * Z) (l : list (Z * Z)) : list (Z * Z) :=
  List.filter (fun y => negb (entry_eqb x y)) l.

(** [std::map::emplace]: nothing when the key is there. *)
Definition map_emplace (k v : Z) (m : gmap Z Z) : gmap Z Z :=
  match m !! k with Some _ => m | None => <[k := v]> m end.

(** [now + delay], saturated. *)
Definition expire_at (now delayUs : Z) : Z :=
  if INT64_MAX - now <? delayUs then INT64_MAX else now + delayUs.

Definition resetTimerfd (e : Z) : M unit :=
  st_modify (set_timerfd
    (if 0 <? e
     then Timespec (e / kMicrosecondsPerSecond) ((e mod kMicrosecondsPerSecond) * 1000)
     else Timespec 0 0)).

(** Whether an element expires before all of [timers_]. *)
Definition before_all (e : Z) (l : list (Z * Z)) : bool :=
  match l with [] => true | x :: _ => e <? x.1 end.

Definition addTimerInLoop (p : Z) (delay : Duration.double) (now : Z) : M unit :=
  let* delayUs := st_lift (Duration.secondsToMicroseconds delay) in
  let* tm := deref p in
  let e := expire_at now delayUs in
  assign p (set_expiration e tm) ;;;
  let* c := st_get in
  let earliestChanged := before_all e (timers_ c) in
  st_modify (fun c => set_timers (set_emplace (e, p) (timers_ c)) c) ;;;
  st_modify (fun c => set_active (map_emplace (id tm) p (activeTimers_ c)) c) ;;;
  st_when earliestChanged (resetTimerfd e).

(** [timers_.empty() ? 0 : timers_.begin()->first] *)
Definition earliest (l : list (Z * Z)) : Z := match l with [] => 0 | x :: _ => x.1 end.

Definition cancelInLoop (timerId : Z) : M unit :=
  let* c := st_get in
  match activeTimers_ c !! timerId with
  | None => st_ret tt
  | Some p =>
      let* tm := deref p in
      assign p (set_canceled tm) ;;;
      let found := existsb (entry_eqb (expiration tm, p)) (timers_ c) in
      let earliestChanged :=
        match timers_ c with
        | [] => false
        | x :: _ => found && entry_eqb (expiration tm, p) x
        end in
      st_when found
        (st_modify (fun c => set_timers (set_erase (expiration tm, p) (timers_ c)) c)) ;;;
      st_modify (fun c => set_active (delete timerId (activeTimers_ c)) c) ;;;
      let* c := st_get in
      st_when earliestChanged (resetTimerfd (earliest (timers_ c)))
  end.

(** [loop_->runInLoop], on the loop's thread or elsewhere. *)
Definition runInLoop (inLoop : bool) (m : M unit) (f : functor) : M unit :=
  if inLoop then m else st_modify (fun c => set_queued (queued_ c ++ [f]) c).

(** The arguments [addTimer] refuses. *)
Definition rejected (callback : bool) (delay interval : Duration.double) : bool :=
  negb callback || negb (Duration.isfinite delay) || Duration.ltb delay Duration.zero ||
  negb (Duration.isfinite interval) || Duration.ltb interval Duration.zero.

(** Returns the id; [callback] tells whether the [std::function] is set. *)
Definition addTimer (inLoop callback : bool) (p : Z) (delay interval : Duration.double) (now : Z)
    : M Z :=
  if rejected callback delay interval then st_ret 0
  else
    let* c := st_get in
    let timerId := nextTimerId_ c in
    st_modify (set_next (u64 (timerId + 1))) ;;;
    let* intervalUs := st_lift (Duration.secondsToMicroseconds interval) in
    assign p (Timer timerId 0 intervalUs (Duration.ltb Duration.zero interval) false) ;;;
    runInLoop inLoop (addTimerInLoop p delay now) (FAdd p delay) ;;;
    st_ret timerId.

Definition cancel (inLoop : bool) (timerId : Z) : M unit :=
  if timerId =? 0 then st_ret tt
  else runInLoop inLoop (cancelInLoop timerId) (FCancel timerId).

(** What a timer callback does to the queue it is called from. *)
Inductive action :=
| AddTimer (p : Z) (delay interval : Duration.double) (now : Z)
| Cancel (timerId : Z).

Definition run_action (a : action) : M unit :=
  match a with
  | AddTimer p delay interval now => let* _ := addTimer true true p delay interval now in st_ret tt
  | Cancel timerId => cancel true timerId
  end.

Fixpoint run_actions (l : list action) : M unit :=
  match l with
  | [] => st_ret tt
  | a :: l => run_action a ;;; run_actions l
  end.

Definition is_due (now : Z) (x : Z * Z) : bool := x.1 <=? now.

(** [while (end != timers_.end() && end->first <= now)]: the elements before [end]. *)
Fixpoint due (now : Z) (l : list (Z * Z)) : list (Z * Z) :=
  match l with
  | [] => []
  | x :: l => if is_due now x then x :: due now l else []
  end.

(** The first loop over [expired]; [acts p] is what the callback of [p] does. *)
Definition callTimer (acts : Z -> list action) (p : Z) : M unit :=
  let* tm := deref p in
  st_when (negb (canceled tm)) (st_tell [ECallback (id tm)] ;;; run_actions (acts p)).

Fixpoint callExpired (acts : Z -> list action) (expired : list Z) : M unit :=
  match expired with
  | [] => st_ret tt
  | p :: expired => callTimer acts p ;;; callExpired acts expired
  end.

(** One step of the second loop. *)
Definition restart (restartTime : Z) (p : Z) : M unit :=
  let* tm := deref p in
  let* c := st_get in
  match activeTimers_ c !! id tm with
  | None => st_ret tt
  | Some _ =>
      if canceled tm then st_ret tt
      else if repeating tm then
        let e := expire_at restartTime (interval tm) in
        assign p (set_expiration e tm) ;;;
        st_modify (fun c => set_timers (set_emplace (e, p) (timers_ c)) c)
      else st_modify (fun c => set_active (delete (id tm) (activeTimers_ c)) c)
  end.

Fixpoint restartExpired (restartTime : Z -> Z) (expired : list Z) : M unit :=
  match expired with
  | [] => st_ret tt
  | p :: expired => restart (restartTime p) p ;;; restartExpired restartTime expired
  end.

(** [acts p]: what the callback of timer [p] does; [restartTime p]: the clock when
    [p] is restarted. *)
Definition handleRead (now : Z) (acts : Z -> list action) (restartTime : Z -> Z) : M unit :=
  let* c := st_get in
  let dues := due now (timers_ c) in
  let expired := map snd dues in
  st_modify (set_timers (drop (length dues) (timers_ c))) ;;;
  callExpired acts expired ;;;
  restartExpired restartTime expired ;;;
  let* c := st_get in
  st_when (negb (bool_decide (timers_ c = []))) (resetTimerfd (earliest (timers_ c))).

(** The loop runs the next functor queued on it. *)
Definition run_queued (now : Z) : M unit :=
  let* c := st_get in
  match queued_ c with
  | [] => st_ret tt
  | f :: q =>
      st_modify (set_queued q) ;;;
      match f with
      | FAdd p delay => addTimerInLoop p delay now
      | FCancel timerId => cancelInLoop timerId
      end
  end.

(** ** Events and runs *)

Inductive event :=
| EvAdd (inLoop callback : bool) (p : Z) (delay interval : Duration.double) (now : Z)
| EvCancel (inLoop : bool) (timerId : Z)
| EvExpire (now : Z) (acts : Z -> list action) (restartTime : Z -> Z)
| EvQueued (now : Z).

Definition run_event (e : event) : M unit :=
  match e with
  | EvAdd inLoop callback p delay interval now =>
      let* _ := addTimer inLoop callback p delay interval now in st_ret tt
  | EvCancel inLoop timerId => cancel inLoop timerId
  | EvExpire now acts restartTime => handleRead now acts restartTime
  | EvQueued now => run_queued now
  end.

Fixpoint run (evs : list event) : M unit :=
  match evs with
  | [] => st_ret tt
  | e :: evs => run_event e ;;; run evs
  end.

Definition fired (es : list effect) : list Z := map (fun '(ECallback i) => i) es.

(** ** What the environment may do: the clock shows a positive 64-bit value, ids do
    not run out, a new timer is at a fresh address, doubles are doubles. *)

Definition clock_ok (now : Z) : Prop := 0 < now <= INT64_MAX.

Definition add_ok (c : t) (p : Z) (delay interval : Duration.double) (now : Z) : Prop :=
  heap c !! p = None /\ nextTimerId_ c < SIZE_MAX /\ clock_ok now /\
  Duration.valid delay /\ Duration.valid interval.

Definition action_ok (c : t) (a : action) : Prop :=
  match a with
  | AddTimer p delay interval now => add_ok c p delay interval now
  | Cancel _ => True
  end.

(** [ok] of every step of a sequence, each in the state it runs in. *)
Fixpoint steps_ok {A} (ok : t -> A -> Prop) (step : A -> M unit) (l : list A) (c : t) : Prop :=
  match l with
  | [] => True
  | a :: l =>
      ok c a /\
      match step a c with Ok (_, c', _) => steps_ok ok step l c' | Fault _ => True end
  end.

(** A callback that is called does actions that are fine. *)
Definition call_ok (acts : Z -> list action) (c : t) (p : Z) : Prop :=
  match heap c !! p with
  | Some tm => canceled tm = false -> steps_ok action_ok run_action (acts p) c
  | None => True
  end.

Definition event_ok (c : t) (e : event) : Prop :=
  match e with
  | EvAdd _ _ p delay interval now => add_ok c p delay interval now
  | EvCancel _ _ => True
  | EvExpire now acts restartTime =>
      clock_ok now /\ (forall p, clock_ok (restartTime p)) /\
      let dues := due now (timers_ c) in
      steps_ok (call_ok acts) (callTimer acts) (map snd dues)
               (set_timers (drop (length dues) (timers_ c)) c)
  | EvQueued now => clock_ok now
  end.

(** ** The invariant *)

Definition lt (a b : Z * Z) : Prop := entry_lt a b = true.

(** [pend]: the timers [handleRead] has taken out of [timers_] and not yet put back. *)
Record wf (pend : list Z) (c : t) : Prop := {
  w_sorted : StronglySorted lt (timers_ c);
  w_entry e p : In (e, p) (timers_ c) ->
    0 < e <= INT64_MAX /\
    exists tm, heap c !! p = Some tm /\ expiration tm = e /\ canceled tm = false /\
      activeTimers_ c !! id tm = Some p;
  w_active i p : activeTimers_ c !! i = Some p ->
    exists tm, heap c !! p = Some tm /\ id tm = i /\ canceled tm = false /\
      (In (expiration tm, p) (timers_ c) \/ In p pend);
  w_queued p d : In (FAdd p d) (queued_ c) ->
    Duration.valid d /\ Duration.isfinite d = true /\
    exists tm, heap c !! p = Some tm /\ activeTimers_ c !! id tm = None /\ canceled tm = false;
  w_queued_once : NoDup (omap (fun f => match f with FAdd p _ => Some p | _ => None end) (queued_ c));
  w_id p tm : heap c !! p = Some tm -> 1 <= id tm < nextTimerId_ c;
  w_next : 1 <= nextTimerId_ c <= SIZE_MAX;
  w_inj p q tm tm' : heap c !! p = Some tm -> heap c !! q = Some tm' -> id tm = id tm' -> p = q;
  w_interval p tm : heap c !! p = Some tm -> 0 <= interval tm <= INT64_MAX;
  w_pend p : In p pend ->
    exists tm, heap c !! p = Some tm /\ (forall e, ~ In (e, p) (timers_ c)) /\
      (forall d, ~ In (FAdd p d) (queued_ c)) /\
      activeTimers_ c !! id tm = if canceled tm then None else Some p;
}.

(** The kernel's timer is set to the earliest expiration. *)
Definition settime (e : Z) : timespec :=
  Timespec (e / kMicrosecondsPerSecond) ((e mod kMicrosecondsPerSecond) * 1000).

Definition armed (c : t) : Prop :=
  timers_ c <> [] -> timerfd_ c = settime (earliest (timers_ c)).

(** Neither scheduled nor about to be: the id was given out, and is over. *)
Definition dead (i : Z) (c : t) : Prop :=
  i < nextTimerId_ c /\ activeTimers_ c !! i = None /\
  forall p d tm, In (FAdd p d) (queued_ c) -> heap c !! p = Some tm -> id tm <> i.

(** The same timer, perhaps restarted or canceled in between. *)
Definition same_timer (tm tm' : timer) : Prop :=
  id tm' = id tm /\ repeating tm' = repeating tm /\ interval tm' = interval tm /\
  (canceled tm = true -> canceled tm' = true).

(** What operations do: ids that are over stay over, and do not fire. *)
Record trans (c : t) (es : list effect) (c' : t) : Prop := {
  tr_next : nextTimerId_ c <= nextTimerId_ c';
  tr_dead i : dead i c -> dead i c';
  tr_fired i : dead i c -> ~ In i (fired es);
  tr_same p tm : heap c !! p = Some tm -> exists tm', heap c' !! p = Some tm' /\ same_timer tm tm';
}.

(** ** Lemmas: the ordered set *)

Lemma lt_trans x y z : lt x y -> lt y z -> lt x z.
Proof.
  unfold lt, entry_lt. rewrite !orb_true_iff, !andb_true_iff, !Z.ltb_lt, !Z.eqb_eq. lia.
Qed.

Lemma entry_eqb_eq x y : entry_eqb x y = true <-> x = y.
Proof.
  destruct x as [a b], y as [a' b']. unfold entry_eqb. simpl.
  rewrite andb_true_iff, !Z.eqb_eq. split; [by intros [-> ->] | by intros [= -> ->]].
Qed.

Lemma lt_total x y : entry_lt x y = false -> entry_eqb x y = false -> lt y x.
Proof.
  unfold lt, entry_lt, entry_eqb. destruct x as [a b], y as [a' b']. simpl.
  rewrite orb_false_iff, !andb_false_iff, orb_true_iff, andb_true_iff,
    !Z.ltb_lt, !Z.ltb_ge, !Z.eqb_eq, !Z.eqb_neq. lia.
Qed.

Lemma set_emplace_In x y l : In x (set_emplace y l) <-> x = y \/ In x l.
Proof.
  induction l as [|z l IH]; simpl; [intuition congruence|].
  destruct (entry_lt y z) eqn:E1; [simpl; intuition congruence|].
  destruct (entry_eqb y z) eqn:E2; simpl.
  - apply entry_eqb_eq in E2 as ->. intuition congruence.
  - rewrite IH. intuition congruence.
Qed.

Lemma set_emplace_sorted x l : StronglySorted lt l -> StronglySorted lt (set_emplace x l).
Proof.
  induction 1 as [|y l Hl IH Hy]; simpl; [by repeat constructor|].
  destruct (entry_lt x y) eqn:E1.
  - constructor; [by constructor|]. constructor; [done|].
    eapply Forall_impl; [exact Hy|]. intros z. by apply lt_trans.
  - destruct (entry_eqb x y) eqn:E2; [by constructor|]. constructor; [done|].
    apply List.Forall_forall. intros z [->|Hz]%set_emplace_In; [by apply lt_total|].
    rewrite List.Forall_forall in Hy. by apply Hy.
Qed.

Lemma set_erase_In x y l : In x (set_erase y l) <-> x <> y /\ In x l.
Proof.
  unfold set_erase. rewrite filter_In, negb_true_iff. rewrite <- not_true_iff_false, entry_eqb_eq.
  intuition congruence.
Qed.

Lemma set_erase_sorted x l : StronglySorted lt l -> StronglySorted lt (set_erase x l).
Proof.
  unfold set_erase. induction 1 as [|y l Hl IH Hy]; simpl; [constructor|].
  destruct (negb _); [|done]. constructor; [done|].
  rewrite List.Forall_forall in *. intros z [Hz _]%filter_In. auto.
Qed.

(** The first element is the earliest. *)
Lemma sorted_earliest l e p : StronglySorted lt l -> In (e, p) l -> earliest l <= e.
Proof.
  intros Hs. destruct Hs as [|x l Hs Hx]; simpl; [done|]. intros [->|Hin]; [done|].
  rewrite List.Forall_forall in Hx. specialize (Hx _ Hin).
  unfold lt, entry_lt in Hx. rewrite orb_true_iff, andb_true_iff, Z.ltb_lt, Z.eqb_eq in Hx.
  simpl in Hx. lia.
Qed.

(** ** Lemmas: the operations *)

Ltac fields :=
  cbn [set_heap set_next set_timers set_active set_timerfd set_queued
       heap nextTimerId_ timers_ activeTimers_ timerfd_ queued_
       set_expiration set_canceled id expiration interval repeating canceled] in *.

Lemma wp_deref p c tm (Q : timer -> t -> list effect -> Prop) :
  heap c !! p = Some tm -> Q tm c [] -> wp (deref p) c Q.
Proof. intros H HQ. unfold deref, wp, st_bind, st_get. by rewrite H. Qed.

Lemma wp_assign p tm c (Q : unit -> t -> list effect -> Prop) :
  Q tt (set_heap (<[p := tm]> (heap c)) c) [] -> wp (assign p tm) c Q.
Proof. done. Qed.

Lemma expire_at_range now d :
  clock_ok now -> 0 <= d <= INT64_MAX -> now <= expire_at now d <= INT64_MAX.
Proof. unfold clock_ok, expire_at. intros. destruct (_ <? _) eqn:E; zbool; lia. Qed.

Lemma wp_resetTimerfd e c (Q : unit -> t -> list effect -> Prop) :
  0 < e -> Q tt (set_timerfd (settime e) c) [] -> wp (resetTimerfd e) c Q.
Proof.
  intros He HQ. unfold resetTimerfd. apply wp_modify. by rewrite (proj2 (Z.ltb_lt 0 e) He).
Qed.

(** What is not yet on the heap is nowhere. *)
Lemma fresh_nowhere pend c p :
  wf pend c -> heap c !! p = None ->
  (forall e, ~ In (e, p) (timers_ c)) /\ (forall i, activeTimers_ c !! i <> Some p) /\
  (forall d, ~ In (FAdd p d) (queued_ c)) /\ ~ In p pend.
Proof.
  intros Hwf Hp. split_and!.
  - intros e Hin. destruct (w_entry _ _ Hwf _ _ Hin) as (_ & tm & Ht & _). congruence.
  - intros i Hi. destruct (w_active _ _ Hwf _ _ Hi) as (tm & Ht & _). congruence.
  - intros d Hin. destruct (w_queued _ _ Hwf _ _ Hin) as (_ & _ & tm & Ht & _). congruence.
  - intros Hin. destruct (w_pend _ _ Hwf _ Hin) as (tm & Ht & _). congruence.
Qed.

(** The timer [p], not scheduled so far, is scheduled at [e]. *)
Definition scheduled (e p : Z) (tm : timer) (c : t) : t :=
  set_active (<[id tm := p]> (activeTimers_ c))
    (set_timers (set_emplace (e, p) (timers_ c))
       (set_heap (<[p := set_expiration e tm]> (heap c)) c)).

Lemma scheduled_wf pend pend' e p tm c :
  wf pend c -> heap c !! p = Some tm -> (forall e', ~ In (e', p) (timers_ c)) ->
  canceled tm = false -> (forall d, ~ In (FAdd p d) (queued_ c)) ->
  (forall q, In q pend <-> (q = p /\ In p pend) \/ In q pend') -> ~ In p pend' ->
  0 < e <= INT64_MAX -> wf pend' (scheduled e p tm c).
Proof.
  intros Hwf Hp Hin Hc Hq Hpd Hpd' He. unfold scheduled.
  assert (Hnew : forall q tq, heap c !! q = Some tq -> q <> p -> id tq <> id tm).
  { intros q tq Hq' Hne Hid. by destruct Hne; eapply (w_inj _ _ Hwf). }
  split; fields.
  - apply set_emplace_sorted, Hwf.
  - intros e' q [[= -> ->]|Hq']%set_emplace_In.
    + split; [done|]. eexists. rewrite lookup_insert_eq. split; [done|]. fields.
      by rewrite lookup_insert_eq.
    + destruct (w_entry _ _ Hwf _ _ Hq') as (? & tq & Htq & ? & ? & Ha). split; [done|].
      exists tq. assert (q <> p) by (intros ->; by eapply Hin).
      rewrite lookup_insert_ne by done. split_and!; try done.
      rewrite lookup_insert_ne; [done|]. intros E. by apply (Hnew q tq).
  - intros i q [[<- <-]|[Hne Hi]]%lookup_insert_Some.
    + eexists. rewrite lookup_insert_eq. split_and!; try done. left. fields.
      apply set_emplace_In. by left.
    + destruct (w_active _ _ Hwf _ _ Hi) as (tq & Htq & ? & ? & Hor). exists tq.
      assert (q <> p) by (intros ->; simplify_eq).
      rewrite lookup_insert_ne by done. split_and!; try done. rewrite set_emplace_In.
      rewrite Hpd in Hor. tauto.
  - intros q d Hin'. destruct (w_queued _ _ Hwf _ _ Hin') as (? & ? & tq & Htq & Ha & ?).
    assert (q <> p) by (intros ->; by eapply Hq). split_and!; try done. exists tq.
    rewrite lookup_insert_ne by done. split_and!; try done.
    rewrite lookup_insert_ne; [done|]. intros E. by apply (Hnew q tq).
  - apply Hwf.
  - intros q tq [[<- <-]|[_ Htq]]%lookup_insert_Some; [exact (w_id _ _ Hwf p tm Hp)|].
    by apply (w_id _ _ Hwf q).
  - apply Hwf.
  - intros q r tq tr [[<- <-]|[Hne1 Htq]]%lookup_insert_Some [[<- <-]|[Hne2 Htr]]%lookup_insert_Some;
      fields; intros E; try done.
    + by destruct (Hnew r tr).
    + by destruct (Hnew q tq).
    + by eapply (w_inj _ _ Hwf).
  - intros q tq [[<- <-]|[_ Htq]]%lookup_insert_Some; [exact (w_interval _ _ Hwf p tm Hp)|].
    by apply (w_interval _ _ Hwf q).
  - intros q Hin'. destruct (w_pend _ _ Hwf q) as (tq & Htq & Hn & ? & Ha); [apply Hpd; auto|].
    assert (q <> p) by (by intros ->). exists tq. rewrite lookup_insert_ne by done.
    split_and!; try done.
    + intros e' [[= -> ->]|Hx]%set_emplace_In; [done|]. by eapply Hn.
    + rewrite lookup_insert_ne; [done|]. intros E. by apply (Hnew q tq).
Qed.

Lemma set_timerfd_wf pend v c : wf pend c -> wf pend (set_timerfd v c).
Proof. intros []. by split. Qed.

Lemma earliest_emplace e p l :
  earliest (set_emplace (e, p) l) = if before_all e l then e else earliest l.
Proof.
  destruct l as [|[a b] l]; simpl; [done|]. unfold entry_lt, entry_eqb. simpl.
  destruct (e <? a) eqn:E1; simpl; [done|].
  destruct (e =? a) eqn:E2; zbool; simpl; [|done]. subst.
  destruct (p <? b) eqn:E3; simpl; [done|]. by destruct (p =? b).
Qed.

(** Setting the kernel's timer when the earliest changed keeps it armed. *)
Lemma armed_scheduled e p tm c :
  armed c ->
  armed (if before_all e (timers_ c) then set_timerfd (settime e) (scheduled e p tm c)
         else scheduled e p tm c).
Proof.
  intros Ha _. pose proof (earliest_emplace e p (timers_ c)) as He.
  destruct (before_all e (timers_ c)) eqn:E; unfold scheduled; fields; rewrite He; [done|].
  apply Ha. by intros Hn; rewrite Hn in E.
Qed.

Lemma addTimerInLoop_spec pend p delay now tm c :
  wf pend c -> heap c !! p = Some tm -> activeTimers_ c !! id tm = None ->
  canceled tm = false -> (forall d, ~ In (FAdd p d) (queued_ c)) -> ~ In p pend ->
  clock_ok now -> Duration.valid delay -> Duration.isfinite delay = true ->
  wp (addTimerInLoop p delay now) c (fun _ c' es => es = [] /\ wf pend c' /\
    (armed c -> armed c') /\
    exists us v, Duration.secondsToMicroseconds delay = Ok us /\
      c' = set_timerfd v (scheduled (expire_at now us) p tm c)).
Proof.
  intros Hwf Hp Ha Hc Hq Hpd Hnow Hv Hf.
  destruct (Duration.seconds_range delay Hv Hf) as (us & Hus & Hr).
  unfold addTimerInLoop. apply wp_bind. eapply wp_lift; [exact Hus|].
  apply wp_bind. eapply wp_deref; [exact Hp|]. apply wp_bind, wp_assign, wp_bind, wp_get.
  apply wp_bind, wp_modify, wp_bind, wp_modify. cbn [app]. fields.
  pose proof (expire_at_range now us Hnow Hr) as He. set (e := expire_at now us) in *.
  assert (Hin : forall e', ~ In (e', p) (timers_ c)).
  { intros e' Hin. destruct (w_entry _ _ Hwf _ _ Hin) as (_ & t' & ? & _ & _ & ?). congruence. }
  assert (Hw : wf pend (scheduled e p tm c)).
  { apply (scheduled_wf pend); try done; [tauto | unfold clock_ok in Hnow; lia]. }
  assert (map_emplace (id tm) p (activeTimers_ c) = <[id tm := p]> (activeTimers_ c)) as Hm.
  { unfold map_emplace. by rewrite Ha. }
  rewrite Hm. fold (scheduled e p tm c). pose proof (armed_scheduled e p tm c) as Harm.
  apply wp_when; intros Hb; rewrite Hb in Harm.
  - apply wp_resetTimerfd; [unfold clock_ok in Hnow; lia|].
    split_and!; [done | by apply set_timerfd_wf | done |]. by exists us, (settime e).
  - split_and!; [done | done | done |]. by exists us, (timerfd_ c).
Qed.

(** The timer [p], of id [i], is canceled and out of the two containers. *)
Definition unscheduled (i p : Z) (tm : timer) (c : t) : t :=
  set_active (delete i (activeTimers_ c))
    (set_timers (set_erase (expiration tm, p) (timers_ c))
       (set_heap (<[p := set_canceled tm]> (heap c)) c)).

Lemma unscheduled_wf pend i p tm c :
  wf pend c -> activeTimers_ c !! i = Some p -> heap c !! p = Some tm ->
  wf pend (unscheduled i p tm c).
Proof.
  intros Hwf Hi Hp. unfold unscheduled.
  assert (id tm = i) as Hid.
  { destruct (w_active _ _ Hwf _ _ Hi) as (t' & ? & ? & _). congruence. }
  assert (Hoth : forall q tq, heap c !! q = Some tq -> q <> p -> id tq <> i).
  { intros q tq Hq Hne E. apply Hne. eapply (w_inj _ _ Hwf); [done..|]. congruence. }
  split; fields.
  - apply set_erase_sorted, Hwf.
  - intros e q [Hne Hin]%set_erase_In.
    destruct (w_entry _ _ Hwf _ _ Hin) as (? & tq & Htq & ? & ? & Ha). split; [done|].
    assert (q <> p) by (intros ->; congruence). exists tq.
    rewrite lookup_insert_ne, lookup_delete_ne by (done || by eapply not_eq_sym, Hoth). done.
  - intros j q [Hne Hj]%lookup_delete_Some.
    destruct (w_active _ _ Hwf _ _ Hj) as (tq & Htq & ? & ? & Hor).
    assert (q <> p) by (intros ->; congruence). exists tq.
    rewrite lookup_insert_ne by done. split_and!; try done. rewrite set_erase_In.
    destruct Hor; [left; split; [congruence | done] | by right].
  - intros q d Hin. destruct (w_queued _ _ Hwf _ _ Hin) as (? & ? & tq & Htq & Ha & ?).
    assert (q <> p) by (intros ->; congruence). split_and!; try done. exists tq.
    rewrite lookup_insert_ne by done. split_and!; try done. by apply lookup_delete_None; right.
  - apply Hwf.
  - intros q tq [[<- <-]|[_ Htq]]%lookup_insert_Some; [exact (w_id _ _ Hwf p tm Hp)|].
    by apply (w_id _ _ Hwf q).
  - apply Hwf.
  - intros q r tq tr [[<- <-]|[Hne1 Htq]]%lookup_insert_Some [[<- <-]|[Hne2 Htr]]%lookup_insert_Some;
      fields; intros E; try done.
    + destruct (Hoth r tr); congruence.
    + destruct (Hoth q tq); congruence.
    + by eapply (w_inj _ _ Hwf).
  - intros q tq [[<- <-]|[_ Htq]]%lookup_insert_Some; [exact (w_interval _ _ Hwf p tm Hp)|].
    by apply (w_interval _ _ Hwf q).
  - intros q Hin. destruct (w_pend _ _ Hwf _ Hin) as (tq & Htq & Hn & Hq & Ha).
    assert (forall e, ~ In (e, q) (set_erase (expiration tm, p) (timers_ c))) as Hn'.
    { intros e [_ Hx]%set_erase_In. by eapply Hn. }
    destruct (decide (q = p)) as [->|Hne].
    + eexists. rewrite lookup_insert_eq. split_and!; try done. fields. simplify_eq.
      by rewrite lookup_delete_eq.
    + exists tq. rewrite lookup_insert_ne by done. split_and!; try done.
      rewrite lookup_delete_ne; [done|]. by eapply not_eq_sym, Hoth.
Qed.

Lemma set_erase_id x l : existsb (entry_eqb x) l = false -> set_erase x l = l.
Proof.
  unfold set_erase. intros H%existsb_forallb. induction l as [|y l IH]; simpl in *; [done|].
  apply andb_true_iff in H as [-> ?]. by rewrite IH.
Qed.

Lemma earliest_pos pend c : wf pend c -> timers_ c <> [] -> 0 < earliest (timers_ c).
Proof.
  intros Hwf Hne. destruct (timers_ c) as [|[e p] l] eqn:E; [done|]. simpl.
  destruct (w_entry _ _ Hwf e p); [rewrite E; by left | lia].
Qed.

(** Programs the kernel's timer with the earliest expiration, or disarms it. *)
Lemma wp_reset_earliest pend c (Q : unit -> t -> list effect -> Prop) :
  wf pend c ->
  (forall v, let c' := set_timerfd v c in wf pend c' -> armed c' -> Q tt c' []) ->
  wp (resetTimerfd (earliest (timers_ c))) c Q.
Proof.
  intros Hwf HQ. destruct (decide (timers_ c = [])) as [E|E].
  - unfold resetTimerfd. apply wp_modify. rewrite E. apply HQ; [by apply set_timerfd_wf|].
    by intros [].
  - apply wp_resetTimerfd; [by eapply earliest_pos|]. apply HQ; [by apply set_timerfd_wf | done].
Qed.

Lemma cancelInLoop_spec pend i c :
  wf pend c ->
  wp (cancelInLoop i) c (fun _ c' es => es = [] /\ wf pend c' /\ (armed c -> armed c') /\
    match activeTimers_ c !! i with
    | None => c' = c
    | Some p => exists tm v, heap c !! p = Some tm /\ c' = set_timerfd v (unscheduled i p tm c)
    end).
Proof.
  intros Hwf. unfold cancelInLoop. apply wp_bind, wp_get. cbn [app].
  destruct (activeTimers_ c !! i) as [p|] eqn:Hi; [|by apply wp_ret].
  destruct (w_active _ _ Hwf _ _ Hi) as (tm & Hp & Hid & _ & _).
  pose proof (unscheduled_wf pend i p tm c Hwf Hi Hp) as Hw.
  apply wp_bind. eapply wp_deref; [exact Hp|]. apply wp_bind, wp_assign. cbn [app].
  assert (Heq : forall b, existsb (entry_eqb (expiration tm, p)) (timers_ c) = b ->
    set_active (delete i (activeTimers_ c))
      (if b then set_timers (set_erase (expiration tm, p) (timers_ c))
                   (set_heap (<[p := set_canceled tm]> (heap c)) c)
       else set_heap (<[p := set_canceled tm]> (heap c)) c) = unscheduled i p tm c).
  { intros [] Hb; [done|]. unfold unscheduled. rewrite set_erase_id by done. by destruct c. }
  specialize (Heq _ eq_refl). fields.
  set (found := existsb (entry_eqb (expiration tm, p)) (timers_ c)) in *.
  apply wp_bind.
  eapply (wp_mono _ _ (fun _ c1 es => es = [] /\ set_active (delete i (activeTimers_ c)) c1 =
    unscheduled i p tm c /\ activeTimers_ c1 = activeTimers_ c)).
  { destruct found; cbn [st_when]; [by apply wp_modify | by apply wp_ret]. }
  intros _ c1 es1 (-> & Hc1 & Ha1). apply wp_bind, wp_modify, wp_bind, wp_get.
  rewrite Ha1, Hc1. cbn [app]. apply wp_when; intros Hch.
  - eapply wp_reset_earliest; [done|]. intros v c' Hw' Harm. split_and!; try done.
    by exists tm, v.
  - split_and!; try done; [|by exists tm, (timerfd_ c)].
    intros Harm Hne. unfold unscheduled in *. fields. clear Heq Hc1.
    destruct (timers_ c) as [|x l] eqn:El; [done|].
    rewrite Harm by (by rewrite El). rewrite El.
    destruct found eqn:Hf; subst found; cbn [andb] in Hch; [|by rewrite set_erase_id].
    unfold set_erase. cbn [List.filter]. by rewrite Hch.
Qed.

(** ** Lemmas: summaries *)

Lemma same_timer_refl tm : same_timer tm tm.
Proof. by split_and!. Qed.

Lemma same_timer_trans tm tm' tm'' : same_timer tm tm' -> same_timer tm' tm'' -> same_timer tm tm''.
Proof. unfold same_timer. intros (? & ? & ? & ?) (? & ? & ? & ?). split_and!; congruence || auto. Qed.

#[local] Hint Resolve same_timer_refl : core.

Lemma timers_trans_refl c : trans c [] c.
Proof. split; naive_solver. Qed.

Lemma fired_app es es' : fired (es ++ es') = fired es ++ fired es'.
Proof. apply map_app. Qed.

Lemma timers_trans_trans c es c1 es' c2 : trans c es c1 -> trans c1 es' c2 -> trans c (es ++ es') c2.
Proof.
  intros [N1 D1 F1 R1] [N2 D2 F2 R2]. split; [lia | auto | |].
  - intros i Hd. rewrite fired_app, in_app_iff. intros [H|H]; [by eapply F1 | eapply F2; eauto].
  - intros p tm Hp. destruct (R1 p tm Hp) as (t1 & H1 & ?).
    destruct (R2 p t1 H1) as (t2 & ? & ?). exists t2. split; [done|]. by eapply same_timer_trans.
Qed.

(** A summary without the effect of the first step. *)
Lemma trans_silent c c1 es c2 : trans c [] c1 -> trans c1 es c2 -> trans c es c2.
Proof. apply (timers_trans_trans c []). Qed.

Lemma trans_scheduled e p tm v c i :
  heap c !! p = Some tm -> id tm <> i -> dead i c -> dead i (set_timerfd v (scheduled e p tm c)).
Proof.
  intros Hp Hne (Hlt & Ha & Hq). unfold scheduled. split_and!; fields; [done | |].
  - by rewrite lookup_insert_ne.
  - intros q d tq Hin [[<- <-]|[_ Ht]]%lookup_insert_Some; [done|]. by eapply Hq.
Qed.

Lemma same_update p tm tm' (h : gmap Z timer) :
  h !! p = Some tm -> same_timer tm tm' ->
  forall q tq, h !! q = Some tq -> exists t', <[p := tm']> h !! q = Some t' /\ same_timer tq t'.
Proof.
  intros Hp ? q tq Hq. destruct (decide (q = p)) as [->|].
  - exists tm'. rewrite lookup_insert_eq. by simplify_eq.
  - exists tq. by rewrite lookup_insert_ne.
Qed.

Lemma trans_unscheduled i p tm v c :
  heap c !! p = Some tm -> trans c [] (set_timerfd v (unscheduled i p tm c)).
Proof.
  intros Hp. unfold unscheduled. split; fields; [done | | naive_solver |].
  - intros j (Hlt & Ha & Hq). split_and!; fields; [done | by apply lookup_delete_None; right |].
    intros q d tq Hin [[<- <-]|[_ Ht]]%lookup_insert_Some; [exact (Hq p d tm Hin Hp) | by eapply Hq].
  - by apply (same_update p tm).
Qed.

(** Scheduled again, while active. *)
Lemma trans_scheduled_active e p tm c :
  heap c !! p = Some tm -> activeTimers_ c !! id tm = Some p ->
  trans c [] (scheduled e p tm c).
Proof.
  intros Hp Ha. split; [done | | naive_solver | by apply (same_update p tm)].
  intros i Hd. apply (trans_scheduled e p tm (timerfd_ c)); [done | | done].
  intros <-. destruct Hd as (_ & ? & _). congruence.
Qed.

(** A new timer on the heap, its id taken. *)
Definition allocated (p iv : Z) (rep : bool) (c : t) : t :=
  set_heap (<[p := Timer (nextTimerId_ c) 0 iv rep false]> (heap c))
    (set_next (u64 (nextTimerId_ c + 1)) c).

Lemma next_small pend c : wf pend c -> nextTimerId_ c < SIZE_MAX ->
  u64 (nextTimerId_ c + 1) = nextTimerId_ c + 1.
Proof. intros Hwf Hn. pose proof (w_next _ _ Hwf). apply u64_small. unfold SIZE_MAX in *. lia. Qed.

Lemma allocated_wf pend p iv rep c :
  wf pend c -> heap c !! p = None -> nextTimerId_ c < SIZE_MAX -> 0 <= iv <= INT64_MAX ->
  wf pend (allocated p iv rep c).
Proof.
  intros Hwf Hp Hn Hiv. unfold allocated. rewrite (next_small pend) by done.
  destruct (fresh_nowhere _ _ _ Hwf Hp) as (F1 & F2 & F3 & F4).
  pose proof (w_next _ _ Hwf) as Hnx.
  assert (Hne : forall q tq, heap c !! q = Some tq -> q <> p) by (intros q tq Hq ->; congruence).
  split; fields.
  - apply Hwf.
  - intros e q Hin. destruct (w_entry _ _ Hwf _ _ Hin) as (? & tq & Htq & ? & ? & ?).
    split; [done|]. exists tq. rewrite lookup_insert_ne by (by eapply not_eq_sym, Hne). done.
  - intros i q Hi. destruct (w_active _ _ Hwf _ _ Hi) as (tq & Htq & ? & ? & ?).
    exists tq. rewrite lookup_insert_ne by (by eapply not_eq_sym, Hne). done.
  - intros q d Hin. destruct (w_queued _ _ Hwf _ _ Hin) as (? & ? & tq & Htq & ? & ?).
    split_and!; try done. exists tq. rewrite lookup_insert_ne by (by eapply not_eq_sym, Hne). done.
  - apply Hwf.
  - intros q tq [[<- <-]|[_ Htq]]%lookup_insert_Some; fields; [lia|].
    pose proof (w_id _ _ Hwf _ _ Htq). lia.
  - lia.
  - intros q r tq tr [[<- <-]|[_ Htq]]%lookup_insert_Some [[<- <-]|[_ Htr]]%lookup_insert_Some;
      fields; intros E; try done.
    + pose proof (w_id _ _ Hwf _ _ Htr). lia.
    + pose proof (w_id _ _ Hwf _ _ Htq). lia.
    + by eapply (w_inj _ _ Hwf).
  - intros q tq [[<- <-]|[_ Htq]]%lookup_insert_Some; [done|]. by apply (w_interval _ _ Hwf q).
  - intros q Hin. destruct (w_pend _ _ Hwf _ Hin) as (tq & Htq & ? & ? & ?).
    exists tq. rewrite lookup_insert_ne by (by eapply not_eq_sym, Hne). done.
Qed.

(** The next id is nowhere yet. *)
Lemma next_inactive pend c : wf pend c -> activeTimers_ c !! nextTimerId_ c = None.
Proof.
  intros Hwf. destruct (activeTimers_ c !! nextTimerId_ c) as [p|] eqn:E; [|done].
  destruct (w_active _ _ Hwf _ _ E) as (tm & Ht & Hid & _).
  pose proof (w_id _ _ Hwf _ _ Ht). lia.
Qed.

Lemma allocated_trans pend p iv rep c :
  wf pend c -> heap c !! p = None -> nextTimerId_ c < SIZE_MAX ->
  trans c [] (allocated p iv rep c).
Proof.
  intros Hwf Hp Hn. unfold allocated. rewrite (next_small pend) by done.
  destruct (fresh_nowhere _ _ _ Hwf Hp) as (_ & _ & F & _). split; fields; [lia | | naive_solver |].
  - intros i (Hlt & Ha & Hq). split_and!; fields; [lia | done |].
    intros q d tq Hin [[<- _]|[_ Htq]]%lookup_insert_Some; [by apply F in Hin | by eapply Hq].
  - intros q tq Hq. exists tq. rewrite lookup_insert_ne by (intros ->; congruence). done.
Qed.

(** A functor [FAdd] queued for a timer that was just allocated. *)
Lemma queue_add_wf pend p d tm c :
  wf pend c -> heap c !! p = Some tm -> activeTimers_ c !! id tm = None -> canceled tm = false ->
  (forall d, ~ In (FAdd p d) (queued_ c)) -> ~ In p pend ->
  Duration.valid d -> Duration.isfinite d = true ->
  wf pend (set_queued (queued_ c ++ [FAdd p d]) c).
Proof.
  intros Hwf Hp Ha Hc Hq Hpd Hv Hf. destruct Hwf as [? ? ? Hqd Hnd ? ? ? ? Hpend].
  split; fields; try done.
  - intros q d' [Hin|[[= -> ->]|[]]]%in_app_iff; [by apply Hqd|]. split_and!; eauto.
  - rewrite omap_app. cbn. apply NoDup_app. split_and!; [done | | by apply NoDup_singleton].
    intros q Hin ->%list_elem_of_singleton. apply list_elem_of_omap in Hin as (f & Hin & Hf').
    destruct f; simplify_eq. eapply Hq. by apply list_elem_of_In.
  - intros q Hin. destruct (Hpend q Hin) as (tq & Htq & Hn & Hqq & Hact). exists tq.
    split_and!; try done. intros d' [?|[[= -> ->]|[]]]%in_app_iff; [by eapply Hqq | done].
Qed.

Lemma rejected_false callback delay interval :
  rejected callback delay interval = false ->
  Duration.isfinite delay = true /\ Duration.isfinite interval = true.
Proof. unfold rejected. intros H. by zbool. Qed.

Lemma scheduled_trans pend e p iv rep v c :
  wf pend c -> heap c !! p = None -> nextTimerId_ c < SIZE_MAX ->
  trans c [] (set_timerfd v (scheduled e p (Timer (nextTimerId_ c) 0 iv rep false)
    (allocated p iv rep c))).
Proof.
  intros Hwf Hp Hn. destruct (allocated_trans pend p iv rep c) as [N D F R]; [done..|].
  assert (Hh : heap (allocated p iv rep c) !! p = Some (Timer (nextTimerId_ c) 0 iv rep false)).
  { unfold allocated. fields. by rewrite lookup_insert_eq. }
  split; [exact N | | naive_solver |].
  - intros i Hd. apply trans_scheduled; [done | | by apply D]. destruct Hd. simpl. lia.
  - intros q tq Hq. destruct (R q tq Hq) as (t1 & H1 & ?).
    eapply (same_update p _ (set_expiration e (Timer (nextTimerId_ c) 0 iv rep false))) in H1
      as (t2 & Ht2 & ?); [|exact Hh|done..].
    exists t2. split; [exact Ht2 | by eapply same_timer_trans].
Qed.

Lemma addTimer_spec pend inLoop callback p delay interval now c :
  wf pend c -> add_ok c p delay interval now ->
  wp (addTimer inLoop callback p delay interval now) c (fun r c' es =>
    es = [] /\ wf pend c' /\ (armed c -> armed c') /\ trans c [] c' /\
    if rejected callback delay interval then r = 0 /\ c' = c
    else r = nextTimerId_ c /\ exists us iv tm,
      Duration.secondsToMicroseconds delay = Ok us /\
      Duration.secondsToMicroseconds interval = Ok iv /\
      tm = Timer r 0 iv (Duration.ltb Duration.zero interval) false /\
      if inLoop then exists v,
        c' = set_timerfd v (scheduled (expire_at now us) p tm (allocated p iv (repeating tm) c))
      else c' = set_queued (queued_ c ++ [FAdd p delay]) (allocated p iv (repeating tm) c)).
Proof.
  intros Hwf (Hp & Hn & Hnow & Hvd & Hvi). unfold addTimer.
  destruct (rejected callback delay interval) eqn:Hrej.
  { apply wp_ret. split_and!; try done. apply timers_trans_refl. }
  destruct (rejected_false _ _ _ Hrej) as [Hfd Hfi].
  destruct (Duration.seconds_range interval Hvi Hfi) as (iv & Hiv & Hivr).
  destruct (Duration.seconds_range delay Hvd Hfd) as (us & Hus & _).
  destruct (fresh_nowhere _ _ _ Hwf Hp) as (F1 & F2 & F3 & F4).
  apply wp_bind, wp_get, wp_bind, wp_modify, wp_bind. eapply wp_lift; [exact Hiv|].
  apply wp_bind, wp_assign, wp_bind. cbn [app]. fields.
  set (rep := Duration.ltb Duration.zero interval). fold (allocated p iv rep c).
  pose proof (allocated_wf pend p iv rep c Hwf Hp Hn Hivr) as Hw1.
  pose proof (allocated_trans pend p iv rep c Hwf Hp Hn) as T1.
  set (tm := Timer (nextTimerId_ c) 0 iv rep false).
  assert (Hh : heap (allocated p iv rep c) !! p = Some tm).
  { unfold allocated. fields. by rewrite lookup_insert_eq. }
  assert (Ha : activeTimers_ (allocated p iv rep c) !! id tm = None) by apply (next_inactive _ _ Hwf).
  unfold runInLoop. destruct inLoop.
  - eapply wp_mono; [by apply (addTimerInLoop_spec pend p delay now tm)|].
    intros _ c' es (-> & Hw & Harm & us' & v & Hus' & ->). apply wp_ret.
    assert (us' = us) as -> by congruence.
    split_and!; [done | done | exact Harm | by eapply scheduled_trans | done |].
    exists us, iv, tm. split_and!; try done. by exists v.
  - apply wp_modify, wp_ret. split_and!; [done | by eapply (queue_add_wf _ _ _ tm) | done | | done |].
    + destruct T1 as [N D F R]. split; [exact N | | naive_solver | exact R].
      intros i Hd. destruct (D i Hd) as (? & ? & Hq). split_and!; [done..|]. fields.
      intros q d' tq [Hin|[[= <- <-]|[]]]%in_app_iff Htq; [by eapply Hq|].
      rewrite Hh in Htq. destruct Hd. simplify_eq. simpl. lia.
    + exists us, iv, tm. by split_and!.
Qed.

Lemma cancel_spec pend inLoop i c :
  wf pend c ->
  wp (cancel inLoop i) c (fun _ c' es =>
    es = [] /\ wf pend c' /\ (armed c -> armed c') /\ trans c [] c').
Proof.
  intros Hwf. unfold cancel, runInLoop. destruct (i =? 0).
  { apply wp_ret. split_and!; try done. apply timers_trans_refl. }
  destruct inLoop.
  - eapply wp_mono; [by apply cancelInLoop_spec|]. intros _ c' es (-> & Hw & Harm & Hc).
    split_and!; try done. destruct (activeTimers_ c !! i) as [p|]; [|subst; apply timers_trans_refl].
    destruct Hc as (tm & v & Hp & ->). by apply trans_unscheduled.
  - apply wp_modify. split_and!; try done.
    + destruct Hwf as [? ? ? Hqd Hnd ? ? ? ? Hpend]. split; fields; try done.
      * intros q d [Hin|[[=]|[]]]%in_app_iff. eauto.
      * rewrite omap_app. cbn. by rewrite app_nil_r.
      * intros q Hin. destruct (Hpend q Hin) as (tq & ? & ? & Hqq & ?). exists tq.
        split_and!; try done. intros d [?|[[=]|[]]]%in_app_iff. by eapply Hqq.
    + split; fields; [done | | naive_solver | naive_solver].
      intros j (? & ? & Hq). split_and!; fields; [done..|].
      intros q d tq [Hin|[[=]|[]]]%in_app_iff. eauto.
Qed.

Lemma run_actions_spec pend l c :
  wf pend c -> steps_ok action_ok run_action l c ->
  wp (run_actions l) c (fun _ c' es => es = [] /\ wf pend c' /\ trans c [] c').
Proof.
  revert c. induction l as [|a l IH]; intros c Hwf Hok.
  { apply wp_ret. split_and!; try done. apply timers_trans_refl. }
  destruct Hok as [Ha Hok]. cbn [run_actions].
  assert (wp (run_action a) c (fun _ c' es => es = [] /\ wf pend c' /\ trans c [] c')) as H.
  { destruct a as [p d iv now|i]; cbn [run_action].
    - apply wp_bind. eapply wp_mono; [by apply addTimer_spec|].
      intros r c' es (-> & ? & _ & ? & _). by apply wp_ret.
    - eapply wp_mono; [by apply cancel_spec|]. intros _ c' es (-> & ? & _ & ?). done. }
  apply wp_bind. apply wp_elim in H as ([] & c1 & es & Hrun & -> & Hw1 & T1).
  rewrite Hrun in Hok. eapply wp_intro; [exact Hrun|].
  eapply wp_mono; [by apply IH|]. intros _ c2 es (-> & Hw2 & T2).
  split_and!; try done. by eapply trans_silent.
Qed.

(** ** Lemmas: the dispatch of expired timers *)

(** The id of the timer at an address. *)
Definition idof (c : t) (p : Z) : Z := match heap c !! p with Some tm => id tm | None => 0 end.

Lemma idof_trans c es c' p tm :
  trans c es c' -> heap c !! p = Some tm -> idof c' p = idof c p.
Proof.
  intros T Hp. destruct (tr_same _ _ _ T p tm Hp) as (tm' & Hp' & Hid & _).
  unfold idof. by rewrite Hp, Hp'.
Qed.

Definition is_canceled (c : t) (p : Z) : Prop :=
  exists tm, heap c !! p = Some tm /\ canceled tm = true.

Lemma is_canceled_trans c es c' p : trans c es c' -> is_canceled c p -> is_canceled c' p.
Proof.
  intros T (tm & Hp & Hc). destruct (tr_same _ _ _ T p tm Hp) as (tm' & Hp' & _ & _ & _ & H).
  exists tm'. auto.
Qed.

(** A timer out of [timers_] that is canceled is over. *)
Lemma pend_canceled_dead pend c p tm :
  wf pend c -> In p pend -> heap c !! p = Some tm -> canceled tm = true -> dead (id tm) c.
Proof.
  intros Hwf Hin Hp Hc. destruct (w_pend _ _ Hwf _ Hin) as (t' & ? & _ & Hq & Ha).
  simplify_eq. rewrite Hc in Ha. split_and!; [by eapply (w_id _ _ Hwf p) | done |].
  intros q d tq Hin' Htq E. assert (q = p) as -> by (by eapply (w_inj _ _ Hwf)).
  by eapply Hq.
Qed.

Lemma callTimer_spec pend acts p c :
  wf pend c -> In p pend -> call_ok acts c p ->
  wp (callTimer acts p) c (fun _ c' es => wf pend c' /\ trans c es c' /\
    (fired es = [idof c p] \/ fired es = [] /\ is_canceled c' p)).
Proof.
  intros Hwf Hin Hok. destruct (w_pend _ _ Hwf _ Hin) as (tm & Hp & _ & _ & Ha).
  unfold callTimer, call_ok in *. rewrite Hp in Hok. apply wp_bind. eapply wp_deref; [exact Hp|].
  apply wp_when; intros Hc; zbool; cbn [app].
  - rewrite Hc in Ha. apply wp_bind, wp_tell. eapply wp_mono; [apply run_actions_spec; eauto|].
    intros _ c' es (-> & Hw & T). cbn [app]. split_and!; [done | |].
    + apply (timers_trans_trans c [ECallback (id tm)] c [] c'); [|done].
      split; [done | done | | naive_solver]. intros i (_ & Hi & _) [<-|[]]. congruence.
    + left. unfold idof. by rewrite Hp.
  - split_and!; [done | apply timers_trans_refl |]. right. split; [done|]. by exists tm.
Qed.

Lemma callExpired_spec pend acts l c :
  wf pend c -> (forall p, In p l -> In p pend) ->
  steps_ok (call_ok acts) (callTimer acts) l c ->
  wp (callExpired acts l) c (fun _ c' es => wf pend c' /\ trans c es c' /\
    exists ps, fired es = map (idof c) ps /\ ps `sublist_of` l /\
      forall p, In p l -> In p ps \/ is_canceled c' p).
Proof.
  revert c. induction l as [|p l IH]; intros c Hwf Hin Hok.
  { apply wp_ret. split_and!; [done | apply timers_trans_refl |]. exists []. by split_and!. }
  destruct Hok as [Hp Hok]. cbn [callExpired]. apply wp_bind.
  destruct (wp_elim _ _ _ (callTimer_spec pend acts p c Hwf (Hin p (or_introl eq_refl)) Hp))
    as ([] & c1 & es1 & Hrun & Hw1 & T1 & Hf1).
  rewrite Hrun in Hok. eapply wp_intro; [exact Hrun|].
  eapply wp_mono; [apply IH; [done | by intros q ?; apply Hin; right | done]|].
  intros _ c2 es2 (Hw2 & T2 & ps & Hps & Hsub & Hall).
  split_and!; [done | by eapply timers_trans_trans |].
  assert (map (idof c1) ps = map (idof c) ps) as Hmap.
  { apply map_ext_in. intros q Hq. destruct (w_pend _ _ Hwf q) as (tq & ? & _).
    - apply Hin. right. apply list_elem_of_In. eapply elem_of_sublist; [|done].
      by apply list_elem_of_In.
    - by eapply idof_trans. }
  rewrite Hmap in Hps. rewrite fired_app, Hps. destruct Hf1 as [->|[-> Hc]].
  - exists (p :: ps). split_and!; [done | by constructor |].
    intros q [->|Hq]; [left; by left|]. destruct (Hall q Hq); [left; by right | by right].
  - exists ps. split_and!; [done | by constructor |].
    intros q [->|Hq]; [right; by eapply is_canceled_trans | auto].
Qed.

(** The timers left in [pend], after [p] is dealt with: [timers_] may have gained [p]. *)
Lemma unpend_wf pend p c tm :
  wf (p :: pend) c -> heap c !! p = Some tm -> canceled tm = true -> wf pend c.
Proof.
  intros Hwf Hp Hc. split; try apply Hwf.
  - intros i q Hi. destruct (w_active _ _ Hwf _ _ Hi) as (tq & ? & ? & ? & Hor). exists tq.
    split_and!; try done. destruct Hor as [|[->|]]; [by left | congruence | by right].
  - intros q Hin. apply (w_pend _ _ Hwf). by right.
Qed.

Lemma erase_active_wf pend p c tm :
  wf (p :: pend) c -> ~ In p pend -> heap c !! p = Some tm -> canceled tm = false ->
  wf pend (set_active (delete (id tm) (activeTimers_ c)) c).
Proof.
  intros Hwf Hnp Hp Hc.
  assert (Hoth : forall q tq, heap c !! q = Some tq -> q <> p -> id tq <> id tm).
  { intros q tq Hq Hne E. apply Hne. by eapply (w_inj _ _ Hwf). }
  destruct (w_pend _ _ Hwf p) as (t' & ? & Hn & Hq & Ha); [by left|]. simplify_eq.
  rewrite Hc in Ha. split; fields; try apply Hwf.
  - intros e q Hin. destruct (w_entry _ _ Hwf _ _ Hin) as (? & tq & Htq & ? & ? & ?).
    split; [done|]. exists tq. rewrite lookup_delete_ne; [done|]. eapply not_eq_sym, Hoth; [done|].
    intros ->. by eapply Hn.
  - intros i q [Hne Hi]%lookup_delete_Some.
    destruct (w_active _ _ Hwf _ _ Hi) as (tq & ? & ? & ? & Hor). exists tq.
    split_and!; try done. destruct Hor as [|[->|]]; [by left | congruence | by right].
  - intros q d Hin. destruct (w_queued _ _ Hwf _ _ Hin) as (? & ? & tq & ? & ? & ?).
    split_and!; try done. exists tq. split_and!; try done. by apply lookup_delete_None; right.
  - intros q Hin. destruct (w_pend _ _ Hwf q) as (tq & Htq & ? & ? & ?); [by right|]. exists tq.
    split_and!; try done. rewrite lookup_delete_ne; [done|]. eapply not_eq_sym, Hoth; [done|].
    by intros ->.
Qed.

(** What the second loop leaves of an expired timer [tm] at [p]. *)
Definition settled (restartTime : Z -> Z) (p : Z) (tm : timer) (c' : t) : Prop :=
  if repeating tm && negb (canceled tm)
  then In (expire_at (restartTime p) (interval tm), p) (timers_ c')
  else dead (id tm) c'.

Lemma trans_erase_active i c : trans c [] (set_active (delete i (activeTimers_ c)) c).
Proof.
  split; fields; [done | | naive_solver | naive_solver].
  intros j (? & ? & ?). split_and!; fields; try done. by apply lookup_delete_None; right.
Qed.

Lemma restart_spec pend restartTime p tm c :
  wf (p :: pend) c -> ~ In p pend -> clock_ok (restartTime p) -> heap c !! p = Some tm ->
  wp (restart (restartTime p) p) c (fun _ c' es => es = [] /\ wf pend c' /\ trans c [] c' /\
    settled restartTime p tm c' /\ (forall x, In x (timers_ c) -> In x (timers_ c')) /\
    (forall q, q <> p -> heap c' !! q = heap c !! q)).
Proof.
  intros Hwf Hnp Hrt Hp. unfold restart, settled.
  destruct (w_pend _ _ Hwf p) as (t' & ? & Hn & Hq & Ha); [by left|]. simplify_eq.
  apply wp_bind. eapply wp_deref; [exact Hp|]. apply wp_bind, wp_get. cbn [app]. rewrite Ha.
  destruct (canceled tm) eqn:Hc.
  { apply wp_ret. rewrite andb_false_r. split_and!; try done.
    - by eapply unpend_wf.
    - apply timers_trans_refl.
    - by eapply pend_canceled_dead; [exact Hwf | by left | | ]. }
  rewrite andb_true_r. destruct (repeating tm) eqn:Hr; cbn [app].
  - apply wp_bind, wp_assign, wp_modify. fields. set (e := expire_at (restartTime p) (interval tm)).
    assert (He : 0 < e <= INT64_MAX).
    { pose proof (expire_at_range (restartTime p) (interval tm) Hrt (w_interval _ _ Hwf p tm Hp)).
      unfold clock_ok in Hrt. subst e. lia. }
    assert (Hs : set_timers (set_emplace (e, p) (timers_ c))
        (set_heap (<[p := set_expiration e tm]> (heap c)) c) = scheduled e p tm c).
    { unfold scheduled. fields. by rewrite (insert_id (activeTimers_ c)). }
    fields. rewrite Hs. split_and!; [done | | | | |].
    + apply (scheduled_wf (p :: pend)); try done. simpl. intuition congruence.
    + by apply trans_scheduled_active.
    + unfold scheduled. fields. apply set_emplace_In. by left.
    + intros x Hx. unfold scheduled. fields. apply set_emplace_In. by right.
    + intros q Hne. unfold scheduled. fields. by rewrite lookup_insert_ne.
  - apply wp_modify. split_and!; try done.
    + by eapply erase_active_wf.
    + apply trans_erase_active.
    + split_and!; fields; [by eapply (w_id _ _ Hwf p) | by rewrite lookup_delete_eq |].
      intros q d tq Hin Htq E. assert (q = p) as -> by (by eapply (w_inj _ _ Hwf)). by eapply Hq.
Qed.

Lemma restartExpired_spec restartTime l c :
  wf l c -> NoDup l -> (forall p, clock_ok (restartTime p)) ->
  wp (restartExpired restartTime l) c (fun _ c' es => es = [] /\ wf [] c' /\ trans c [] c' /\
    (forall x, In x (timers_ c) -> In x (timers_ c')) /\
    forall p tm, In p l -> heap c !! p = Some tm -> settled restartTime p tm c').
Proof.
  intros Hwf Hnd Hrt. revert c Hwf. induction l as [|p l IH]; intros c Hwf.
  { apply wp_ret. split_and!; try done. apply timers_trans_refl. }
  apply NoDup_cons in Hnd as [Hnp Hnd]. rewrite list_elem_of_In in Hnp.
  destruct (w_pend _ _ Hwf p) as (tm & Hp & _); [by left|]. cbn [restartExpired].
  apply wp_bind. eapply wp_mono; [by apply (restart_spec l restartTime p tm)|].
  intros _ c1 es1 (-> & Hw1 & T1 & Hset & Hin1 & Hh1).
  eapply wp_mono; [by apply IH|]. intros _ c2 es2 (-> & Hw2 & T2 & Hin2 & Hset2).
  split_and!; [done | done | by eapply trans_silent | auto |].
  intros q tq [<-|Hq] Hqt.
  - simplify_eq. unfold settled in *. destruct (_ && _); [auto | by eapply (tr_dead _ _ _ T2)].
  - apply Hset2; [done|]. rewrite Hh1; [done|]. by intros ->.
Qed.

(** ** Lemmas: the due timers *)

Lemma due_split now l : due now l ++ drop (length (due now l)) l = l.
Proof. induction l as [|x l IH]; simpl; [done|]. destruct (is_due now x); simpl; by rewrite ?IH. Qed.

Lemma due_now now l x : In x (due now l) -> x.1 <= now.
Proof.
  induction l as [|y l IH]; simpl; [done|]. unfold is_due. destruct (y.1 <=? now) eqn:E; [|done].
  zbool. intros [->|?]; auto.
Qed.

Lemma not_due_later now l x :
  StronglySorted lt l -> In x (drop (length (due now l)) l) -> now < x.1.
Proof.
  induction 1 as [|y l Hs IH Hy]; simpl; [done|]. unfold is_due.
  destruct (y.1 <=? now) eqn:E; simpl; [done|]. zbool. intros [->|Hin]; [done|].
  rewrite List.Forall_forall in Hy. specialize (Hy x Hin).
  unfold lt, entry_lt in Hy. rewrite orb_true_iff, andb_true_iff, Z.ltb_lt, Z.eqb_eq in Hy. lia.
Qed.

Lemma sorted_NoDup l : StronglySorted lt l -> NoDup l.
Proof.
  induction 1 as [|x l Hs IH Hx]; constructor; [|done]. rewrite list_elem_of_In. intros Hin.
  rewrite List.Forall_forall in Hx. specialize (Hx x Hin).
  unfold lt, entry_lt in Hx. rewrite orb_true_iff, andb_true_iff, Z.ltb_lt in Hx. lia.
Qed.

Lemma sorted_app l l' : StronglySorted lt (l ++ l') -> StronglySorted lt l /\ StronglySorted lt l'.
Proof.
  induction l as [|x l IH]; simpl; [by split; [constructor|]|].
  intros [Hs Hx]%StronglySorted_inv. destruct (IH Hs). split; [|done]. constructor; [done|].
  rewrite List.Forall_forall in *. intros y Hy. apply Hx, in_app_iff. by left.
Qed.

(** The due timers taken out of [timers_]. *)
Lemma take_due_wf now c :
  wf [] c ->
  let dues := due now (timers_ c) in
  wf (map snd dues) (set_timers (drop (length dues) (timers_ c)) c) /\ NoDup (map snd dues).
Proof.
  intros Hwf dues. pose proof (due_split now (timers_ c)) as Hsplit. fold dues in Hsplit.
  assert (Hin1 : forall x, In x dues -> In x (timers_ c)).
  { intros x Hx. rewrite <- Hsplit. apply in_app_iff. by left. }
  assert (Hin2 : forall x, In x (drop (length dues) (timers_ c)) -> In x (timers_ c)).
  { intros x Hx. rewrite <- Hsplit. apply in_app_iff. by right. }
  pose proof (w_sorted _ _ Hwf) as Hs.
  pose proof Hs as Hs'. rewrite <- Hsplit in Hs'. apply sorted_app in Hs' as [Hs1 Hs2].
  split.
  - split; fields; try apply Hwf; try done.
    + intros e p Hin. apply (w_entry _ _ Hwf), Hin2, Hin.
    + intros i p Hi. destruct (w_active _ _ Hwf _ _ Hi) as (tm & ? & ? & ? & [Hin|[]]).
      exists tm. split_and!; try done. rewrite <- Hsplit in Hin.
      apply in_app_iff in Hin as [Hin|Hin]; [right | by left]. by apply (in_map snd) in Hin.
    + intros p Hin. apply in_map_iff in Hin as ([e p'] & <- & Hin). simpl in *.
      destruct (w_entry _ _ Hwf e p' (Hin1 _ Hin)) as (_ & tm & Htm & He & Hc & Ha).
      exists tm. rewrite Hc. split_and!; try done.
      * intros e' Hin'. destruct (w_entry _ _ Hwf e' p' (Hin2 _ Hin')) as (_ & t' & ? & ? & _).
        pose proof (due_now _ _ _ Hin). pose proof (not_due_later _ _ _ Hs Hin').
        simplify_eq. simpl in *. lia.
      * intros d Hd. destruct (w_queued _ _ Hwf _ _ Hd) as (_ & _ & t' & ? & ? & _). congruence.
  - apply (NoDup_fmap_2_strong snd); [|by apply sorted_NoDup].
    intros [e p] [e' p'] Hx%list_elem_of_In%Hin1 Hy%list_elem_of_In%Hin1. simpl. intros ->.
    destruct (w_entry _ _ Hwf e p' Hx) as (_ & t1 & ? & ? & _).
    destruct (w_entry _ _ Hwf e' p' Hy) as (_ & t2 & ? & ? & _). simplify_eq. done.
Qed.

Lemma trans_take l c : trans c [] (set_timers l c).
Proof. split; fields; naive_solver. Qed.

Definition dispatch_spec (now : Z) (restartTime : Z -> Z) (c c' : t) (es : list effect) : Prop :=
  exists ps, fired es = map (idof c) ps /\ ps `sublist_of` map snd (due now (timers_ c)) /\
    forall p, In p (map snd (due now (timers_ c))) ->
      (In p ps \/ is_canceled c' p) /\
      exists tm, heap c !! p = Some tm /\
        (if repeating tm
         then is_canceled c' p \/ In (expire_at (restartTime p) (interval tm), p) (timers_ c')
         else dead (id tm) c').

Lemma timers_handleRead_spec now acts restartTime c :
  wf [] c -> event_ok c (EvExpire now acts restartTime) ->
  wp (handleRead now acts restartTime) c (fun _ c' es =>
    wf [] c' /\ armed c' /\ trans c es c' /\ dispatch_spec now restartTime c c' es).
Proof.
  intros Hwf (Hnow & Hrt & Hok). unfold handleRead, dispatch_spec. cbv zeta in Hok.
  destruct (take_due_wf now c Hwf) as [Hw0 Hnd]. cbv zeta in Hw0.
  set (dues := due now (timers_ c)) in *. set (c0 := set_timers (drop (length dues) (timers_ c)) c) in *.
  apply wp_bind, wp_get, wp_bind, wp_modify. fold dues c0. apply wp_bind.
  eapply wp_mono; [by apply (callExpired_spec (map snd dues))|].
  intros _ c1 es1 (Hw1 & T1 & ps & Hps & Hsub & Hall). apply wp_bind.
  eapply wp_mono; [by apply restartExpired_spec|].
  intros _ c2 es2 (-> & Hw2 & T2 & _ & Hset). apply wp_bind, wp_get.
  cbn [app]. rewrite ?app_nil_r.
  assert (T : trans c es1 c2).
  { rewrite <- (app_nil_r es1). eapply timers_trans_trans; [|exact T2].
    eapply trans_silent; [apply trans_take | exact T1]. }
  assert (Hd : forall v c3, c3 = set_timerfd v c2 -> trans c es1 c3 /\
    dispatch_spec now restartTime c c3 es1).
  { intros v c3 ->. split.
    - destruct T. by split.
    - exists ps. split; [|split].
      + rewrite Hps. by apply map_ext.
      + done.
      + intros p Hp. destruct (w_pend _ _ Hw0 _ Hp) as (tm & Htm & _).
        destruct (tr_same _ _ _ T1 p tm Htm) as (t1 & Ht1 & Hid & Hrep & Hiv & _).
        specialize (Hset p t1 Hp Ht1). unfold settled in Hset. rewrite Hrep, Hiv, Hid in Hset.
        assert (is_canceled c1 p -> is_canceled (set_timerfd v c2) p) as Hc12.
        { intros Hx. by apply (is_canceled_trans c1 [] c2 p T2). }
        split; [destruct (Hall p Hp); auto|]. exists tm. split; [done|].
        destruct (repeating tm); [|done]. destruct (canceled t1) eqn:Hcc; [|by right].
        left. apply Hc12. by exists t1. }
  apply wp_when; intros Hb; rewrite ?app_nil_r.
  - eapply wp_reset_earliest; [done|]. intros v c3 Hw3 Ha3. rewrite ?app_nil_r.
    split_and!; [done | done | by eapply Hd..].
  - destruct (Hd (timerfd_ c2) c2) as [T3 D3]; [by destruct c2|]. split_and!; try done.
    intros Hne. by rewrite bool_decide_eq_false_2 in Hb.
Qed.

(** ** Lemmas: events and runs *)

Definition one_shot (i : Z) (c : t) : Prop :=
  exists p tm, heap c !! p = Some tm /\ id tm = i /\ repeating tm = false.

Lemma one_shot_trans i c es c' : trans c es c' -> one_shot i c -> one_shot i c'.
Proof.
  intros T (p & tm & Hp & ? & ?). destruct (tr_same _ _ _ T p tm Hp) as (tm' & ? & ? & ? & _).
  exists p, tm'. split_and!; congruence.
Qed.

(** No id twice in one dispatch, and one-shot timers are over afterwards. *)
Lemma dispatch_once now restartTime c c' es i :
  wf [] c -> dispatch_spec now restartTime c c' es ->
  NoDup (fired es) /\ (one_shot i c -> In i (fired es) -> dead i c').
Proof.
  intros Hwf (ps & -> & Hsub & Hall).
  destruct (take_due_wf now c Hwf) as [Hw0 Hnd]. cbv zeta in Hw0.
  assert (Hheap : forall p, p ∈ ps -> exists tm, heap c !! p = Some tm /\ idof c p = id tm).
  { intros p Hp. eapply elem_of_sublist in Hp; [|exact Hsub].
    destruct (w_pend _ _ Hw0 p) as (tm & Htm & _); [by apply list_elem_of_In|].
    fields. exists tm. split; [done|]. unfold idof. by rewrite Htm. }
  split.
  - apply (NoDup_fmap_2_strong (idof c)); [|by eapply sublist_NoDup].
    intros p q (tp & Hp & ->)%Hheap (tq & Hq & ->)%Hheap E. by eapply (w_inj _ _ Hwf).
  - intros (q & tq & Hq & Hid & Hrep) (p & <- & Hp)%in_map_iff.
    apply list_elem_of_In in Hp. destruct (Hheap p Hp) as (tm & Htm & E).
    rewrite E in *. assert (p = q) as -> by (by eapply (w_inj _ _ Hwf)).
    eapply elem_of_sublist in Hp; [|exact Hsub].
    destruct (Hall q) as (_ & t1 & Ht1 & H); [by apply list_elem_of_In|].
    simplify_eq. by rewrite Hrep in H.
Qed.

Lemma pop_queued_wf f q c :
  wf [] c -> queued_ c = f :: q -> wf [] (set_queued q c).
Proof.
  intros Hwf E. destruct Hwf as [? ? ? Hqd Hnd ? ? ? ? ?]. rewrite E in *.
  split; fields; try done.
  - intros p d Hin. apply Hqd. by right.
  - cbn in Hnd. destruct f; [by apply NoDup_cons in Hnd as [_ ?] | done].
Qed.

Lemma run_queued_spec now c :
  wf [] c -> clock_ok now ->
  wp (run_queued now) c (fun _ c' es => es = [] /\ wf [] c' /\ (armed c -> armed c') /\
    trans c [] c').
Proof.
  intros Hwf Hnow. unfold run_queued. apply wp_bind, wp_get.
  destruct (queued_ c) as [|f q] eqn:E; cbn [app].
  { apply wp_ret. split_and!; try done. apply timers_trans_refl. }
  apply wp_bind, wp_modify. cbn [app]. pose proof (pop_queued_wf f q c Hwf E) as Hw1.
  destruct f as [p d|i].
  - destruct (w_queued _ _ Hwf p d) as (Hv & Hf & tm & Hp & Ha & Hc); [rewrite E; by left|].
    assert (Hnq : forall d', ~ In (FAdd p d') q).
    { pose proof (w_queued_once _ _ Hwf) as Hnd. rewrite E in Hnd. cbn in Hnd.
      apply NoDup_cons in Hnd as [Hnd _]. intros d' Hin. apply Hnd, list_elem_of_omap.
      exists (FAdd p d'). split; [by apply list_elem_of_In |]. done. }
    eapply wp_mono; [apply (addTimerInLoop_spec [] p d now tm); (done || by intros [])|].
    intros _ c' es (-> & Hw & Harm & us & v & _ & ->). split_and!; try done.
    split; [done | | naive_solver | by apply (same_update p tm)].
    intros i (Hlt & Hai & Hq). apply trans_scheduled; [done | |].
    + apply (Hq p d tm); [rewrite E; by left | done].
    + split_and!; fields; [done..|]. intros r d' tr Hin. apply (Hq r d'). rewrite E. by right.
  - eapply wp_mono; [by apply cancelInLoop_spec|]. fields.
    intros _ c' es (-> & Hw & Harm & Hc'). split_and!; try done.
    assert (T0 : trans c [] (set_queued q c)).
    { split; fields; [done | | naive_solver | naive_solver].
      intros j (? & ? & Hq). split_and!; fields; [done..|].
      intros r d' tr Hin. apply (Hq r d'). rewrite E. by right. }
    destruct (activeTimers_ c !! i) as [p|]; [|by subst].
    destruct Hc' as (tm & v & Hp & ->). eapply trans_silent; [exact T0|].
    by apply (trans_unscheduled i p tm v (set_queued q c)).
Qed.

Lemma timer_event_spec e c :
  wf [] c -> armed c -> event_ok c e ->
  wp (run_event e) c (fun _ c' es => wf [] c' /\ armed c' /\ trans c es c' /\
    forall i, NoDup (fired es) /\ (one_shot i c -> In i (fired es) -> dead i c')).
Proof.
  intros Hwf Ha Hok. assert (forall i c', NoDup (fired []) /\
    (one_shot i c -> In i (fired []) -> dead i c')) as Hnil by (by split; [constructor|]).
  destruct e as [inLoop cb p d iv now|inLoop i|now acts rt|now]; cbn [run_event].
  - apply wp_bind. eapply wp_mono; [by apply addTimer_spec|].
    intros r c' es (-> & ? & ? & ? & _). apply wp_ret. split_and!; auto.
  - eapply wp_mono; [by apply cancel_spec|]. intros _ c' es (-> & ? & ? & ?). split_and!; auto.
  - eapply wp_mono; [by apply timers_handleRead_spec|]. intros _ c' es (? & ? & ? & Hd).
    split_and!; try done. intros i. by eapply dispatch_once.
  - eapply wp_mono; [by apply run_queued_spec|]. intros _ c' es (-> & ? & ? & ?).
    split_and!; auto.
Qed.

Lemma timer_run_spec evs c :
  wf [] c -> armed c -> steps_ok event_ok run_event evs c ->
  wp (run evs) c (fun _ c' es => wf [] c' /\ armed c' /\ trans c es c' /\
    forall i, one_shot i c -> (count_occ Z.eq_dec (fired es) i <= 1)%nat).
Proof.
  revert c. induction evs as [|e evs IH]; intros c Hwf Ha Hok.
  { apply wp_ret. split_and!; try done; [apply timers_trans_refl|]. simpl. lia. }
  destruct Hok as [He Hok]. cbn [run]. apply wp_bind.
  destruct (wp_elim _ _ _ (timer_event_spec e c Hwf Ha He))
    as ([] & c1 & es1 & Hrun & Hw1 & Ha1 & T1 & H1).
  rewrite Hrun in Hok. eapply wp_intro; [exact Hrun|].
  eapply wp_mono; [by apply IH|]. intros _ c2 es2 (Hw2 & Ha2 & T2 & H2).
  split_and!; try done; [by eapply timers_trans_trans|].
  intros i Hi. destruct (H1 i) as [Hnd Hdead]. rewrite fired_app, count_occ_app.
  pose proof (proj1 (NoDup_count_occ Z.eq_dec (fired es1)) (proj1 (NoDup_ListNoDup _) Hnd) i) as Hle.
  destruct (in_dec Z.eq_dec i (fired es1)) as [Hin|Hnin].
  - pose proof (tr_fired _ _ _ T2 i (Hdead Hi Hin)) as Hn.
    apply (count_occ_not_In Z.eq_dec) in Hn. lia.
  - apply (count_occ_not_In Z.eq_dec) in Hnin. rewrite Hnin. simpl.
    apply H2. by eapply one_shot_trans.
Qed.

Lemma timers_make_wf : wf [] make /\ armed make.
Proof.
  split; [|done]. split; cbn; try done; try lia; try (intros ? ? H; by rewrite lookup_empty in H);
    try constructor.
Qed.

(** Nanoseconds on the monotonic clock. *)
Definition nanoseconds (v : timespec) : Z := tv_sec v * 10^9 + tv_nsec v.

Lemma settime_exact e :
  0 <= e -> nanoseconds (settime e) = e * 1000 /\ 0 <= tv_nsec (settime e) < 10^9.
Proof.
  intros He. unfold nanoseconds, settime, kMicrosecondsPerSecond, Duration.kMicrosecondsPerSecond.
  cbn [tv_sec tv_nsec]. pose proof (Z.mod_pos_bound e 1000000).
  pose proof (Z.div_mod e 1000000). change (10^9) with 1000000000. lia.
Qed.

(** Timers for the examples: every half second from 1 s on, and once at 1.2 s. *)
Definition second : Z := 1000000.
Definition half : Duration.double := Duration.quotient 1 2.
Definition test_adds : list event :=
  [EvAdd true true 100 (Duration.of_int64 1) half second;
   EvAdd false true 96 (Duration.quotient 6 5) Duration.zero second;
   EvQueued second].
Definition test_timers : t :=
  match run test_adds make with Ok (_, c, _) => c | Fault _ => make end.

(** At 2.5 s both are due, and the callback of the first cancels the other one. *)
Definition test_acts (p : Z) : list action := if p =? 100 then [Cancel 2] else [].
Definition test_expire : event := EvExpire 2500000 test_acts (fun _ => 2500001).

(** Evaluates the conditions on a concrete run. *)
Ltac concrete_steps := vm_compute; split_and!; try (intros; split); try discriminate; done.

Lemma test_adds_ok : steps_ok event_ok run_event test_adds make.
Proof. concrete_steps. Qed.

Lemma test_timers_ok : wf [] test_timers /\ armed test_timers.
Proof.
  destruct timers_make_wf as [Hw Ha].
  destruct (wp_elim _ _ _ (timer_run_spec test_adds make Hw Ha test_adds_ok))
    as ([] & c & es & Hrun & Hw' & Ha' & _).
  unfold test_timers. rewrite Hrun. exact (conj Hw' Ha').
Qed.

Lemma test_expire_ok : event_ok test_timers test_expire.
Proof. concrete_steps. Qed.

(** ** Properties *)



(** C29. Cancellation: after [cancel] of a scheduled timer on the loop's thread, that
    timer never fires again, whatever happens later. *)
Theorem canceled_never_fires (c : t) (i p : Z) (evs : list event) :
  wf [] c -> armed c -> activeTimers_ c !! i = Some p ->
  steps_ok event_ok run_event (EvCancel true i :: evs) c ->
  exists c' es, run (EvCancel true i :: evs) c = Ok (tt, c', es) /\ ~ In i (fired es).
Proof.
  intros Hwf Ha Hi Hok. destruct Hok as [_ Hok]. cbn [run run_event] in *.
  destruct (w_active _ _ Hwf _ _ Hi) as (tm & Hp & Hid & _ & _).
  pose proof (w_id _ _ Hwf _ _ Hp) as Hrange.
  unfold cancel in *. rewrite (proj2 (Z.eqb_neq i 0)) in * by lia. cbn [runInLoop] in *.
  destruct (wp_elim _ _ _ (cancelInLoop_spec [] i c Hwf)) as ([] & c1 & es1 & Hrun & -> & Hw1 & Ha1 & Hc1).
  rewrite Hrun in Hok. rewrite Hi in Hc1. destruct Hc1 as (tm' & v & Hp' & ->).
  destruct (wp_elim _ _ _ (timer_run_spec evs _ Hw1 (Ha1 Ha) Hok)) as ([] & c2 & es2 & Hrun2 & _ & _ & T & _).
  exists c2, es2. unfold st_bind. rewrite Hrun, Hrun2. split; [done|].
  apply (tr_fired _ _ _ T). split_and!; unfold unscheduled; fields; [lia | by rewrite lookup_delete_eq |].
  intros q d tq Hin Hq E. destruct (w_queued _ _ Hwf _ _ Hin) as (_ & _ & t2 & Ht2 & Hn & _).
  assert (q <> p) as Hne by (intros ->; simplify_eq; congruence).
  rewrite lookup_insert_ne in Hq by done. simplify_eq. apply Hne. by eapply (w_inj _ _ Hwf).
Qed.

Lemma canceled_never_fires_witness :
  exists c' es, run [EvCancel true 1; test_expire] test_timers = Ok (tt, c', es) /\
    ~ In 1 (fired es).
Proof.
  apply (canceled_never_fires test_timers 1 100 [test_expire]);
    [apply test_timers_ok | apply test_timers_ok | reflexivity |].
  concrete_steps.
Defined.

(** A timer without an interval fires at most once in any run. *)
Theorem one_shot_fires_once (c : t) (i : Z) (evs : list event) :
  wf [] c -> armed c -> one_shot i c -> steps_ok event_ok run_event evs c ->
  exists c' es, run evs c = Ok (tt, c', es) /\ (count_occ Z.eq_dec (fired es) i <= 1)%nat.
Proof.
  intros Hwf Ha Hi Hok.
  destruct (wp_elim _ _ _ (timer_run_spec evs c Hwf Ha Hok)) as ([] & c' & es & ? & _ & _ & _ & H).
  eauto.
Qed.

Lemma one_shot_fires_once_witness :
  exists c' es, run [test_expire; test_expire] test_timers = Ok (tt, c', es) /\
    (count_occ Z.eq_dec (fired es) 2%Z <= 1)%nat.
Proof.
  apply (one_shot_fires_once test_timers 2 [test_expire; test_expire]);
    [apply test_timers_ok | apply test_timers_ok | |].
  - exists 96, (Timer 2 2200000 0 false false). split_and!; vm_compute; reflexivity.
  - concrete_steps.
Defined.

(** No timer is forgotten: after any run from a new queue, while a timer is
    active the kernel's timer is set, to exactly the earliest expiration, so at
    the latest to that of the timer; its nanoseconds are in range. *)
Theorem active_timer_armed (evs : list event) :
  steps_ok event_ok run_event evs make ->
  exists c' es, run evs make = Ok (tt, c', es) /\ wf [] c' /\
    forall i p, activeTimers_ c' !! i = Some p ->
      exists tm, heap c' !! p = Some tm /\ id tm = i /\
        0 < nanoseconds (timerfd_ c') <= expiration tm * 1000 /\
        nanoseconds (timerfd_ c') = earliest (timers_ c') * 1000 /\
        0 <= tv_nsec (timerfd_ c') < 10^9.
Proof.
  intros Hok. destruct timers_make_wf as [Hw0 Ha0].
  destruct (wp_elim _ _ _ (timer_run_spec evs make Hw0 Ha0 Hok))
    as ([] & c' & es & Hrun & Hw & Ha & _).
  exists c', es. split_and!; try done. intros i p Hi.
  destruct (w_active _ _ Hw _ _ Hi) as (tm & Hp & Hid & _ & [Hin|[]]).
  assert (Hne : timers_ c' <> []) by (intros E; rewrite E in Hin; done).
  pose proof (earliest_pos _ _ Hw Hne) as Hpos.
  pose proof (sorted_earliest _ _ _ (w_sorted _ _ Hw) Hin) as Hle.
  exists tm. rewrite (Ha Hne). destruct (settime_exact (earliest (timers_ c'))) as [-> ?]; [lia|].
  split_and!; try done; lia.
Qed.

Lemma active_timer_armed_witness :
  exists c' es, run (test_adds ++ [test_expire]) make = Ok (tt, c', es) /\ wf [] c' /\
    forall i p, activeTimers_ c' !! i = Some p ->
      exists tm, heap c' !! p = Some tm /\ id tm = i /\
        0 < nanoseconds (timerfd_ c') <= expiration tm * 1000 /\
        nanoseconds (timerfd_ c') = earliest (timers_ c') * 1000 /\
        0 <= tv_nsec (timerfd_ c') < 10^9.
Proof.
  apply (active_timer_armed (test_adds ++ [test_expire])).
  concrete_steps.
Defined.

(** [addTimer]: 0 and no effect for an empty callback and for a delay or
    interval that is negative, infinite or NaN; otherwise a new id.  On the loop's
    thread the timer is scheduled at once, at now plus the delay, saturated at
    INT64_MAX; from another thread the scheduling is queued on the loop. *)
Theorem addTimer_schedules (c : t) (inLoop callback : bool) (p : Z)
    (delay interval : Duration.double) (now : Z) :
  wf [] c -> add_ok c p delay interval now ->
  exists r c', addTimer inLoop callback p delay interval now c = Ok (r, c', []) /\ wf [] c' /\
    if rejected callback delay interval then r = 0 /\ c' = c
    else r = nextTimerId_ c /\ r <> 0 /\ nextTimerId_ c' = r + 1 /\
      exists us, Duration.secondsToMicroseconds delay = Ok us /\
        if inLoop
        then activeTimers_ c' !! r = Some p /\ In (Z.min INT64_MAX (now + us), p) (timers_ c')
        else queued_ c' = queued_ c ++ [FAdd p delay] /\ timers_ c' = timers_ c.
Proof.
  intros Hwf Hok.
  destruct (wp_elim _ _ _ (addTimer_spec [] inLoop callback p delay interval now c Hwf Hok))
    as (r & c' & es & Hrun & -> & Hw & _ & _ & Hc).
  exists r, c'. split_and!; [done..|]. destruct (rejected callback delay interval); [done|].
  destruct Hc as (-> & us & iv & tm & Hus & _ & -> & Hc).
  destruct Hok as (_ & Hn & Hnow & _). pose proof (w_next _ _ Hwf).
  pose proof (next_small _ _ Hwf Hn) as Hnx.
  split_and!; [done | lia | |].
  - destruct inLoop; [destruct Hc as (v & ->) | subst c']; exact Hnx.
  - exists us. split; [done|]. destruct inLoop; [|by subst c'].
    destruct Hc as (v & ->). unfold scheduled. fields. rewrite lookup_insert_eq.
    split; [done|]. apply set_emplace_In. left. f_equal. unfold expire_at.
    destruct (_ <? _) eqn:E; zbool; lia.
Qed.

Lemma addTimer_schedules_witness :
  exists r c', addTimer true true 100 half Duration.zero second make = Ok (r, c', []) /\ wf [] c' /\
    r = 1 /\ r <> 0 /\ nextTimerId_ c' = r + 1 /\
      exists us, Duration.secondsToMicroseconds half = Ok us /\
        activeTimers_ c' !! r = Some 100 /\ In (Z.min INT64_MAX (second + us), 100) (timers_ c').
Proof.
  apply (addTimer_schedules make true true 100 half Duration.zero second);
    [apply timers_make_wf | vm_compute; split_and!; try discriminate; done].
Defined.

(** ** What the code does not guard against *)

(** [cancel] on the loop's thread runs at once, before an [addTimer] of another
    thread that is still queued: the id is unknown, the call does nothing, and the
    timer fires all the same. *)
Example early_cancel_ignored :
  match run [EvAdd false true 100 half Duration.zero second; EvCancel true 1; EvQueued second;
             EvExpire 2000000 (fun _ => []) (fun _ => 2000000)] make with
  | Ok (_, _, es) => fired es = [1]
  | Fault _ => False
  end.
Proof. vm_compute. done. Qed.

End TimerQueue.
