(* ===== verification/LoopLife.v ===== *)
(** * LoopLife: the descriptors of an event loop

    The constructors and destructors of src/src/net/EventLoop.cpp, TimerQueue.cpp and
    Epoll.cpp: the epoll instance, the eventfd and the timerfd, their registration, and
    the order in which the members go; and the helpers of TimerQueue.cpp that read the
    clock and the timerfd.  What the system calls answer is an argument, and a kernel
    that refuses calls on descriptors that are not open judges the order. *)

From S2P Require Import Prelude Channel Socket.

Module LoopLife.

Inductive effect :=
| EEpollCreate (r : sysret)                (** [epoll_create1(0)] *)
| EEventfd (r : sysret)
| ETimerfd (r : sysret)
| ECtl (epfd : Z) (c : Channel.ctl)
| EClose (fd : Z)
| EPerror (what : string)
| EFatal (what : string).                  (** [LOG_FATAL], which aborts *)

(** [Epoll::Epoll] and [~Epoll]. *)
Definition Epoll_make (r : sysret) : Z * list effect :=
  let epfd := Socket.fd_of r in
  (epfd, EEpollCreate r :: if epfd =? -1 then [EPerror "epoll_create1"] else []).
Definition Epoll_destroy (epfd : Z) : list effect :=
  if negb (epfd =? -1) then [EClose epfd] else [].

(** [None]: the process has aborted. *)
Definition createEventfd (r : sysret) : option Z * list effect :=
  match r with
  | SysOk fd => (Some fd, [EEventfd r])
  | SysErr _ => (None, [EEventfd r; EFatal "Failed in eventfd"])
  end.

Definition createTimerfd (r : sysret) : Z * list effect :=
  let timerfd := Socket.fd_of r in
  (timerfd, ETimerfd r :: if timerfd <? 0 then [EPerror "Failed in timerfd_create: "] else []).

(** [TimerQueue::TimerQueue] and [~TimerQueue], on a loop whose [ep_] is [epfd]. *)
Definition TimerQueue_make (epfd : Z) (r : sysret) : outcome (Channel.t * list effect) :=
  let (timerfd_, es) := createTimerfd r in
  let! (_, ch, cs) := Channel.enableReading (Channel.make timerfd_) in
  Ok (ch, es ++ map (ECtl epfd) cs).
Definition TimerQueue_destroy (epfd : Z) (timerfdChannel_ : Channel.t) : outcome (list effect) :=
  let! (_, ch, cs) := (Channel.disableAll ;;; Channel.remove) timerfdChannel_ in
  let timerfd_ := Channel.fd_ timerfdChannel_ in
  Ok (map (ECtl epfd) cs ++ if 0 <=? timerfd_ then [EClose timerfd_] else []).

(** The members of an [EventLoop] that hold descriptors; [wakeupFd_] and [timerfd_] are
    those of their channels. *)
Record t := mk {
  ep_ : Z;
  wakeupChannel_ : Channel.t;
  timerfdChannel_ : Channel.t;
}.

Definition wakeupFd_ (l : t) : Z := Channel.fd_ (wakeupChannel_ l).
Definition timerfd_ (l : t) : Z := Channel.fd_ (timerfdChannel_ l).

(** [EventLoop::EventLoop]: the members in the order of their declarations, then the body. *)
Definition construct (epoll_r eventfd_r timerfd_r : sysret) : outcome (option t * list effect) :=
  let (ep, es1) := Epoll_make epoll_r in
  let (wakeupFd, es2) := createEventfd eventfd_r in
  match wakeupFd with
  | None => Ok (None, es1 ++ es2)
  | Some fd =>
      let! (timers, es3) := TimerQueue_make ep timerfd_r in
      let! (_, ch, cs) := Channel.enableReading (Channel.make fd) in
      Ok (Some (mk ep ch timers), es1 ++ es2 ++ es3 ++ map (ECtl ep) cs)
  end.

(** [~EventLoop]: its body, then the members, the last one first. *)
Definition destroy (l : t) : outcome (list effect) :=
  let! (_, ch, cs) := (Channel.disableAll ;;; Channel.remove) (wakeupChannel_ l) in
  let! es := TimerQueue_destroy (ep_ l) (timerfdChannel_ l) in
  Ok (map (ECtl (ep_ l)) cs ++ [EClose (wakeupFd_ l)] ++ es ++ Epoll_destroy (ep_ l)).

(** The thread of the loop, and the threads that call it, by their identifiers. *)
Definition isInLoopThread (threadId_ tid : Z) : bool := threadId_ =? tid.
Definition assertInLoopThread (threadId_ tid : Z) : list effect :=
  if negb (isInLoopThread threadId_ tid) then [EFatal "abort"] else [].

(** ** The clock and the timerfd *)

(** [monotonicMicroseconds]: 0 when [clock_gettime] fails; otherwise of [tv_sec] and
    [tv_nsec], in signed 64-bit arithmetic. *)
Definition monotonicMicroseconds (now : option (Z * Z)) : outcome Z :=
  match now with
  | None => Ok 0
  | Some (tv_sec, tv_nsec) =>
      let! us := Timestamp.int64 (tv_sec * 1000000) in
      Timestamp.int64 (us + Z.quot tv_nsec 1000)
  end.

(** [readTimerfd]: whether it complains about what [read] answers. *)
Definition readTimerfd (r : sysret) : bool :=
  match r with
  | SysOk n => negb (n =? 8)
  | SysErr errno => negb ((errno =? EAGAIN) || (errno =? EINTR))
  end.

(** The clock does not go back when it is rounded to microseconds, and nothing overflows
    for the next 292277 years. *)
Lemma monotonicMicroseconds_mono s1 n1 s2 n2 :
  0 <= s1 -> s2 < 9223372036854 -> 0 <= n1 < 1000000000 -> 0 <= n2 < 1000000000 ->
  s1 * 1000000000 + n1 <= s2 * 1000000000 + n2 ->
  exists a b, monotonicMicroseconds (Some (s1, n1)) = Ok a /\
    monotonicMicroseconds (Some (s2, n2)) = Ok b /\ a <= b.
Proof.
  intros Hs1 Hs2 Hn1 Hn2 Hle.
  assert (Hrun : forall s n, 0 <= s < 9223372036854 -> 0 <= n < 1000000000 ->
    monotonicMicroseconds (Some (s, n)) = Ok (s * 1000000 + n / 1000)).
  { intros s n Hs Hn. assert (0 <= n / 1000 < 1000000)
      by (split; [apply Z.div_pos | apply Z.div_lt_upper_bound]; lia).
    unfold monotonicMicroseconds, Timestamp.int64, INT64_MAX.
    rewrite require_true by (apply andb_true_iff; split; apply Z.leb_le; lia). cbn [obind].
    rewrite Z.quot_div_nonneg by lia.
    by rewrite require_true by (apply andb_true_iff; split; apply Z.leb_le; lia). }
  do 2 eexists. split; [apply Hrun; lia|]. split; [apply Hrun; lia|].
  destruct (Z.eq_dec s1 s2) as [->|].
  - pose proof (Z.div_le_mono n1 n2 1000). lia.
  - assert (n1 / 1000 < 1000000) by (apply Z.div_lt_upper_bound; lia).
    assert (0 <= n2 / 1000) by (apply Z.div_pos; lia). lia.
Qed.

(** ** A kernel with descriptors *)

Record kernel := Kernel {
  open : gset Z;
  interest : gmap Z (gmap Z Z);    (** the interest lists of the epoll instances *)
}.

Definition ctl_fd (c : Channel.ctl) : Z :=
  match c with Channel.CtlAdd fd _ | Channel.CtlMod fd _ | Channel.CtlDel fd => fd end.

Definition opens (fd : Z) (k : kernel) : option (gset Z) :=
  if decide (fd ∈ open k) then None else Some ({[fd]} ∪ open k).

(** [None] when the call fails although the code counts on it: EBADF, EEXIST, ENOENT. *)
Definition kernel_step (e : effect) (k : kernel) : option kernel :=
  match e with
  | EEpollCreate (SysOk fd) => o ← opens fd k; Some (Kernel o (<[fd := ∅]> (interest k)))
  | EEventfd (SysOk fd) | ETimerfd (SysOk fd) => o ← opens fd k; Some (Kernel o (interest k))
  | ECtl epfd c =>
      if decide (epfd ∈ open k /\ ctl_fd c ∈ open k) then
        i ← interest k !! epfd; i ← Channel.kernel_ctl c i;
        Some (Kernel (open k) (<[epfd := i]> (interest k)))
      else None
  | EClose fd =>
      if decide (fd ∈ open k) then
        Some (Kernel (open k ∖ {[fd]}) (delete fd (delete fd <$> interest k)))
      else None
  | _ => Some k
  end.

Fixpoint kernel_run (es : list effect) (k : kernel) : option kernel :=
  match es with
  | [] => Some k
  | e :: es => k ← kernel_step e k; kernel_run es k
  end.

(** What others do with the kernel in the life of a loop: they leave its descriptors and
    their registration alone. *)
Definition leaves (l : t) (k k' : kernel) : Prop :=
  {[ep_ l; wakeupFd_ l; timerfd_ l]} ⊆ open k' /\
  forall fd, fd = wakeupFd_ l \/ fd = timerfd_ l ->
    (interest k' !! ep_ l ≫= (.!! fd)) = (interest k !! ep_ l ≫= (.!! fd)).

(** ** Lemmas *)

Lemma kernel_run_cat es es' k : kernel_run (es ++ es') k = k ← kernel_run es k; kernel_run es' k.
Proof.
  revert k. induction es as [|e es IH]; intros k; simpl; [done|].
  destruct (kernel_step e k); simpl; [apply IH | done].
Qed.

(** Calls for one descriptor that is open, on an epoll instance that is. *)
Lemma kernel_run_ctl epfd fd cs : forall k i i',
  epfd ∈ open k -> fd ∈ open k -> interest k !! epfd = Some i ->
  (forall c, c ∈ cs -> ctl_fd c = fd) -> Channel.kernel_run cs i = Some i' ->
  kernel_run (map (ECtl epfd) cs) k = Some (Kernel (open k) (<[epfd := i']> (interest k))).
Proof.
  induction cs as [|c cs IH]; intros k i i' He Hf Hi Hc Hr; simpl in *.
  { injection Hr as <-. rewrite insert_id by done. by destruct k. }
  apply bind_Some in Hr as (i1 & Hi1 & Hr).
  rewrite decide_True by (rewrite (Hc c) by (apply elem_of_cons; by left); done).
  rewrite Hi. simpl. rewrite Hi1. simpl. rewrite (IH _ i1 i'); simpl; try done.
  - by rewrite insert_insert_eq.
  - by rewrite lookup_insert_eq.
  - intros c' H. apply Hc, elem_of_cons. by right.
Qed.

(** The way out of epoll and of the process of a channel that reads. *)
Lemma channel_leaves epfd fd k i :
  epfd ∈ open k -> fd ∈ open k -> epfd <> fd -> interest k !! epfd = Some i ->
  i !! fd = Some Channel.EPOLLIN ->
  exists ch cs i', (Channel.disableAll ;;; Channel.remove) (Channel.mk fd Channel.EPOLLIN 0 true false) = Ok (tt, ch, cs) /\
    kernel_run (map (ECtl epfd) cs ++ [EClose fd]) k =
      Some (Kernel (open k ∖ {[fd]}) (delete fd (delete fd <$> <[epfd := i']> (interest k)))) /\
    forall fd', fd' <> fd -> i' !! fd' = i !! fd'.
Proof.
  intros He Hf Hne Hi Hr. eexists _, _, (delete fd (<[fd := 0]> (<[fd := 0]> i))).
  split; [reflexivity|]. split.
  - rewrite kernel_run_cat.
    rewrite (kernel_run_ctl epfd fd _ k i (delete fd (<[fd := 0]> (<[fd := 0]> i)))); try done.
    + simpl. by rewrite decide_True.
    + intros c Hc. simpl in Hc. set_solver.
    + simpl. rewrite Hr. simpl. rewrite lookup_insert_eq. simpl. by rewrite lookup_insert_eq.
  - intros fd' H. by rewrite lookup_delete_ne, !lookup_insert_ne.
Qed.

Lemma construct_ok epfd evfd tfd k0 :
  0 <= epfd -> 0 <= tfd -> epfd <> evfd -> epfd <> tfd -> evfd <> tfd ->
  epfd ∉ open k0 -> evfd ∉ open k0 -> tfd ∉ open k0 ->
  exists es, construct (SysOk epfd) (SysOk evfd) (SysOk tfd) =
      Ok (Some (mk epfd (Channel.mk evfd Channel.EPOLLIN 0 true false)
                        (Channel.mk tfd Channel.EPOLLIN 0 true false)), es) /\
    kernel_run es k0 = Some (Kernel ({[epfd; evfd; tfd]} ∪ open k0)
      (<[epfd := {[evfd := Channel.EPOLLIN; tfd := Channel.EPOLLIN]}]> (interest k0))).
Proof.
  intros H0 H0' N1 N2 N3 O1 O2 O3. unfold construct, Epoll_make, TimerQueue_make, createTimerfd. simpl.
  rewrite (proj2 (Z.eqb_neq epfd (-1))), (proj2 (Z.ltb_ge tfd 0)) by lia. simpl.
  eexists. split; [reflexivity|]. simpl. unfold opens.
  rewrite decide_False by done. simpl. rewrite decide_False by set_solver. simpl.
  rewrite decide_False by set_solver. simpl. rewrite decide_True by set_solver. simpl.
  rewrite lookup_insert_eq. simpl. rewrite lookup_empty. simpl. rewrite decide_True by set_solver. simpl.
  rewrite lookup_insert_eq. simpl. rewrite lookup_insert_ne, lookup_empty by done. simpl.
  rewrite !insert_insert_eq. do 2 f_equal. set_solver.
Qed.

Lemma destroy_ok epfd evfd tfd :
  0 <= epfd -> 0 <= tfd -> epfd <> evfd -> epfd <> tfd -> evfd <> tfd ->
  exists es, destroy (mk epfd (Channel.mk evfd Channel.EPOLLIN 0 true false)
                             (Channel.mk tfd Channel.EPOLLIN 0 true false)) = Ok es /\
    forall k i, epfd ∈ open k -> evfd ∈ open k -> tfd ∈ open k -> interest k !! epfd = Some i ->
      i !! evfd = Some Channel.EPOLLIN -> i !! tfd = Some Channel.EPOLLIN ->
      exists k', kernel_run es k = Some k' /\ open k' = open k ∖ {[epfd; evfd; tfd]} /\
        interest k' !! epfd = None.
Proof.
  intros H0 H0' N1 N2 N3. eexists. split.
  { unfold destroy, TimerQueue_destroy, Epoll_destroy. simpl.
    rewrite (proj2 (Z.eqb_neq epfd (-1))), (proj2 (Z.leb_le 0 tfd)) by lia. reflexivity. }
  intros k i He Hv Ht Hi Hiv Hit.
  destruct (channel_leaves epfd evfd k i) as (ch & cs & i1 & E1 & K1 & I1); [done..|].
  injection E1 as _ <-.
  set (k1 := Kernel _ _) in K1.
  destruct (channel_leaves epfd tfd k1 (delete evfd i1)) as (ch2 & cs2 & i2 & E2 & K2 & I2);
    [simpl; set_solver | simpl; set_solver | done | | |].
  { simpl. rewrite lookup_delete_ne by done. by rewrite lookup_fmap, lookup_insert_eq. }
  { by rewrite lookup_delete_ne, I1. }
  injection E2 as _ <-.
  pose (down fd := map (ECtl epfd) [Channel.CtlMod fd 0; Channel.CtlMod fd 0; Channel.CtlDel fd] ++ [EClose fd]).
  change (kernel_run (down evfd) k = Some k1) in K1. change (kernel_run (down tfd) k1 =
    Some (Kernel (open k1 ∖ {[tfd]}) (delete tfd (delete tfd <$> <[epfd := i2]> (interest k1))))) in K2.
  match goal with |- exists k', kernel_run ?es _ = _ /\ _ =>
    change es with (down evfd ++ down tfd ++ [EClose epfd]) end.
  rewrite kernel_run_cat, K1. cbn [mbind option_bind]. rewrite kernel_run_cat, K2. cbn [mbind option_bind].
  eexists. split; [cbn [kernel_run kernel_step]; rewrite decide_True by set_solver; reflexivity|].
  cbn [open interest]. split; [subst k1; cbn [open]; set_solver | by rewrite lookup_delete_eq].
Qed.

(** ** Property *)



(** A loop in a process that has its standard streams open. *)
Definition process : kernel := Kernel {[0; 1; 2]} ∅.


Example loop_calls :
  construct (SysOk 3) (SysOk 4) (SysOk 5) =
    Ok (Some (mk 3 (Channel.mk 4 1 0 true false) (Channel.mk 5 1 0 true false)),
        [EEpollCreate (SysOk 3); EEventfd (SysOk 4); ETimerfd (SysOk 5);
         ECtl 3 (Channel.CtlAdd 5 1); ECtl 3 (Channel.CtlAdd 4 1)]).
Proof. reflexivity. Qed.

(** ** What the code does not guard against *)

(** Without an epoll instance, or without a timerfd, there is a loop all the same: its
    waits fail at once for ever, or its timers never fire.  Only a missing eventfd ends
    the process. *)
Example no_epoll :
  construct (SysErr 24) (SysOk 4) (SysOk 5) =
    Ok (Some (mk (-1) (Channel.mk 4 1 0 true false) (Channel.mk 5 1 0 true false)),
        [EEpollCreate (SysErr 24); EPerror "epoll_create1"; EEventfd (SysOk 4); ETimerfd (SysOk 5);
         ECtl (-1) (Channel.CtlAdd 5 1); ECtl (-1) (Channel.CtlAdd 4 1)]).
Proof. reflexivity. Qed.

Example no_eventfd :
  construct (SysOk 3) (SysErr 24) (SysOk 5) =
    Ok (None, [EEpollCreate (SysOk 3); EEventfd (SysErr 24); EFatal "Failed in eventfd"]).
Proof. reflexivity. Qed.

End LoopLife.
