(* ===== verification/EventLoop.v ===== *)
(** * EventLoop: src/src/net/EventLoop.{h,cpp}, and Epoll::poll

    The loop's thread and the threads that call [queueInLoop] and [quit] interleave:
    an execution is a list of labels, one atomic step each, and [step] says what a
    label does and when it can happen.  The loop's thread is at a program counter;
    a call of [queueInLoop] from another thread is two steps (the push under the
    mutex, then the write to the eventfd), as is [quit].  User code on the loop's
    thread (callbacks of channels, functors) calls [queueInLoop] and [quit] in one
    step, as only its own thread reads [callingPendingFunctors_]. *)

From S2P Require Import Prelude Channel Duration TimerQueue.

Module EventLoop.

(** What a channel in [activeChannels_] is: the loop's own eventfd, or another. *)
Inductive chan := Wakeup | Other (fd : Z).

(** A functor, by an identifier. *)
Definition functor := Z.

(** Where the loop's thread is. *)
Inductive pc :=
| PcStart                                  (** before [loop()] *)
| PcTest                                   (** [while (!quit_)] *)
| PcPoll                                   (** in [epoll_wait] *)
| PcEvents (active : list (chan * Z))      (** the channels left, with their revents *)
| PcCalling (functors : list functor)      (** the functors left of the swapped vector *)
| PcDone.                                  (** [loop()] has returned *)

Record t := mk {
  looping_ : bool;
  quit_ : bool;
  callingPendingFunctors_ : bool;
  pendingFunctors_ : list functor;
  wakeupFd_ : Z;                 (** the counter of the eventfd *)
  pc_ : pc;
  owed : nat;                    (** other threads between a push or [quit_ = true] and their [wakeup] *)
  executed : list functor;       (** the functors run so far *)
}.

Definition make : t := mk false false false [] 0 PcStart 0 [].

Definition set_pc (p : pc) (s : t) : t :=
  mk (looping_ s) (quit_ s) (callingPendingFunctors_ s) (pendingFunctors_ s) (wakeupFd_ s) p
     (owed s) (executed s).
Definition set_looping (b : bool) (s : t) : t :=
  mk b (quit_ s) (callingPendingFunctors_ s) (pendingFunctors_ s) (wakeupFd_ s) (pc_ s)
     (owed s) (executed s).
Definition set_quit (b : bool) (s : t) : t :=
  mk (looping_ s) b (callingPendingFunctors_ s) (pendingFunctors_ s) (wakeupFd_ s) (pc_ s)
     (owed s) (executed s).
Definition set_calling (b : bool) (s : t) : t :=
  mk (looping_ s) (quit_ s) b (pendingFunctors_ s) (wakeupFd_ s) (pc_ s) (owed s) (executed s).
Definition set_pending (l : list functor) (s : t) : t :=
  mk (looping_ s) (quit_ s) (callingPendingFunctors_ s) l (wakeupFd_ s) (pc_ s)
     (owed s) (executed s).
Definition set_counter (n : Z) (s : t) : t :=
  mk (looping_ s) (quit_ s) (callingPendingFunctors_ s) (pendingFunctors_ s) n (pc_ s)
     (owed s) (executed s).
Definition set_owed (n : nat) (s : t) : t :=
  mk (looping_ s) (quit_ s) (callingPendingFunctors_ s) (pendingFunctors_ s) (wakeupFd_ s) (pc_ s)
     n (executed s).
Definition set_executed (l : list functor) (s : t) : t :=
  mk (looping_ s) (quit_ s) (callingPendingFunctors_ s) (pendingFunctors_ s) (wakeupFd_ s) (pc_ s)
     (owed s) l.

(** A write of 1 to a non-blocking eventfd: refused when the counter is at its
    maximum, which is logged. *)
Definition eventfd_max : Z := 2^64 - 2.
Definition wakeup (s : t) : t :=
  if wakeupFd_ s <? eventfd_max then set_counter (wakeupFd_ s + 1) s else s.

(** A read of the eventfd: the counter is reset. *)
Definition handleRead (s : t) : t := set_counter 0 s.

(** The two parts of [queueInLoop]: the push under the mutex, and the wakeup. *)
Definition push (f : functor) (s : t) : t := set_pending (pendingFunctors_ s ++ [f]) s.
Definition queueInLoop_wakes (inLoop : bool) (s : t) : bool :=
  negb inLoop || callingPendingFunctors_ s.
Definition queueInLoop (f : functor) (s : t) : t :=
  let s := push f s in
  if queueInLoop_wakes true s then wakeup s else s.

(** The start of a call from another thread: its wakeup is owed. *)
Definition queueInLoop_other (f : functor) (s : t) : t :=
  let s := push f s in
  if queueInLoop_wakes false s then set_owed (S (owed s)) s else s.

(** [quit] from the loop's thread, and its first part from another one. *)
Definition quit (s : t) : t := set_quit true s.
Definition quit_other (s : t) : t := set_owed (S (owed s)) (set_quit true s).

(** [runInLoop] on the loop's thread runs the functor. *)
Definition runInLoop (inLoop : bool) (f : functor) (s : t) : t :=
  if inLoop then set_executed (executed s ++ [f]) s else queueInLoop_other f s.

(** [Epoll::poll]: nothing when [epoll_wait] fails, the ready channels with their
    masks otherwise. *)
Definition poll (r : option (list (chan * Z))) : list (chan * Z) :=
  match r with None => [] | Some ready => ready end.

(** [channel->handleEvent]: the wakeup channel has a read callback only. *)
Definition wakeup_callbacks : Channel.callbacks := Channel.setReadCallback Channel.no_callbacks.
Definition handleEvent (x : chan * Z) (s : t) : t :=
  match x with
  | (Wakeup, revents) =>
      if bool_decide (Channel.dispatch wakeup_callbacks revents = []) then s else handleRead s
  | (Other _, _) => s
  end.

Inductive label :=
| LStart                                   (** [loop()] is entered *)
| LTest
| LPoll (r : option (list (chan * Z)))     (** [epoll_wait] returns *)
| LEvent                                   (** the next active channel is handled *)
| LSwap                                    (** [doPendingFunctors] up to the swap *)
| LCall                                    (** the next functor is called *)
| LEnd                                     (** [doPendingFunctors] returns *)
| LQueue (f : functor)                     (** user code on the loop's thread *)
| LQuit
| TPush (f : functor)                      (** other threads *)
| TQuit
| TWake.

#[export] Instance callback_eq_dec : EqDecision Channel.callback.
Proof. solve_decision. Defined.

(** What the kernel reports: the eventfd only when its counter is not zero. *)
Definition reported (s : t) (r : option (list (chan * Z))) : bool :=
  match r with
  | None => true
  | Some ready =>
      forallb (fun x => match x.1 with Wakeup => 0 <? wakeupFd_ s | Other _ => true end) ready
  end.

(** Whether user code of the loop's thread can be running. *)
Definition in_user_code (s : t) : bool :=
  match pc_ s with PcStart | PcEvents _ | PcCalling _ => true | _ => false end.

Definition step (l : label) (s : t) : option t :=
  match l with
  | LStart =>
      match pc_ s with
      | PcStart => Some (set_pc PcTest (set_quit false (set_looping true s)))
      | _ => None
      end
  | LTest =>
      match pc_ s with
      | PcTest => Some (if negb (quit_ s) then set_pc PcPoll s
                        else set_pc PcDone (set_looping false s))
      | _ => None
      end
  | LPoll r =>
      match pc_ s with
      | PcPoll => if reported s r then Some (set_pc (PcEvents (poll r)) s) else None
      | _ => None
      end
  | LEvent =>
      match pc_ s with
      | PcEvents (x :: active) => Some (set_pc (PcEvents active) (handleEvent x s))
      | _ => None
      end
  | LSwap =>
      match pc_ s with
      | PcEvents [] =>
          Some (set_pc (PcCalling (pendingFunctors_ s)) (set_pending [] (set_calling true s)))
      | _ => None
      end
  | LCall =>
      match pc_ s with
      | PcCalling (f :: functors) =>
          Some (set_pc (PcCalling functors) (set_executed (executed s ++ [f]) s))
      | _ => None
      end
  | LEnd =>
      match pc_ s with
      | PcCalling [] => Some (set_pc PcTest (set_calling false s))
      | _ => None
      end
  | LQueue f => if in_user_code s then Some (queueInLoop f s) else None
  | LQuit => if in_user_code s then Some (quit s) else None
  | TPush f => Some (queueInLoop_other f s)
  | TQuit => Some (quit_other s)
  | TWake =>
      match owed s with
      | O => None
      | S n => Some (wakeup (set_owed n s))
      end
  end.

Fixpoint exec (ls : list label) (s : t) : option t :=
  match ls with
  | [] => Some s
  | l :: ls => s ← step l s; exec ls s
  end.

(** [runAfter], [runEvery] and [cancel] of the timer queue. *)
Definition runAfter (inLoop callback : bool) (p : Z) (delay : Duration.double) (now : Z)
    : TimerQueue.M Z :=
  TimerQueue.addTimer inLoop callback p delay Duration.zero now.

Definition runEvery (inLoop callback : bool) (p : Z) (interval : Duration.double) (now : Z)
    : TimerQueue.M Z :=
  if negb (Duration.isfinite interval) || Duration.leb interval Duration.zero then st_ret 0
  else TimerQueue.addTimer inLoop callback p interval interval now.

Definition cancel (inLoop : bool) (timerId : Z) : TimerQueue.M unit :=
  TimerQueue.cancel inLoop timerId.

(** ** What a run did *)

(** The functors given to [queueInLoop], in order. *)
Definition queued (ls : list label) : list functor :=
  omap (fun l => match l with LQueue f | TPush f => Some f | _ => None end) ls.

(** Those swapped out and not yet called. *)
Definition batch (s : t) : list functor :=
  match pc_ s with PcCalling functors => functors | _ => [] end.

(** The loop's thread queued nothing before it entered [loop()]. *)
Fixpoint no_early_queue (ls : list label) : bool :=
  match ls with
  | [] => true
  | LStart :: _ => true
  | LQueue _ :: _ => false
  | _ :: ls => no_early_queue ls
  end.

(** The wait for events can return because of the eventfd. *)
Definition wakeup_ready (s : t) : Prop := 0 < wakeupFd_ s.

(** The steps of the loop's thread itself, from the poll to the next test. *)
Definition iteration (s : t) : list label :=
  [LPoll (Some [(Wakeup, Channel.EPOLLIN)]); LEvent; LSwap] ++
  replicate (length (pendingFunctors_ s)) LCall ++ [LEnd].

(** ** The invariant: no wakeup is lost *)

Definition will_wake (s : t) : Prop := wakeup_ready s \/ owed s <> 0%nat.

Record inv (s : t) : Prop := {
  inv_calling : callingPendingFunctors_ s = true <-> exists fs, pc_ s = PcCalling fs;
  inv_counter : 0 <= wakeupFd_ s;
  inv_pending : match pc_ s with PcEvents _ | PcDone => True | _ =>
    pendingFunctors_ s <> [] -> will_wake s end;
  inv_quit : pc_ s = PcPoll -> quit_ s = true -> will_wake s;
}.

(** ** Lemmas *)

Ltac fields :=
  cbn [set_pc set_looping set_quit set_calling set_pending set_counter set_owed set_executed
       looping_ quit_ callingPendingFunctors_ pendingFunctors_ wakeupFd_ pc_ owed executed] in *.

Lemma wakeup_spec s :
  0 <= wakeupFd_ s -> exists n, 0 < n /\ wakeup s = set_counter n s.
Proof.
  intros H. unfold wakeup. destruct (_ <? _) eqn:E; zbool.
  - exists (wakeupFd_ s + 1). split; [lia | done].
  - exists (wakeupFd_ s). split; [unfold eventfd_max in *; lia | by destruct s].
Qed.

(** Everything that was queued, in the order it is run. *)
Definition history (s : t) : list functor := executed s ++ batch s ++ pendingFunctors_ s.

Lemma history_push f s : history (push f s) = history s ++ [f].
Proof. unfold history, batch. fields. by rewrite <- !app_assoc. Qed.
Lemma history_wakeup s : history (wakeup s) = history s.
Proof. unfold wakeup. by destruct (_ <? _). Qed.
Lemma history_handleEvent x s : history (handleEvent x s) = history s.
Proof. destruct x as [[|fd] r]; simpl; [|done]. by case_bool_decide. Qed.
Lemma pc_handleEvent x s : pc_ (handleEvent x s) = pc_ s.
Proof. destruct x as [[|fd] r]; simpl; [|done]. by case_bool_decide. Qed.

Lemma history_step l s s' : step l s = Some s' -> history s' = history s ++ queued [l].
Proof.
  destruct l; simpl; intros H; rewrite ?app_nil_r.
  1-7: destruct (pc_ s) as [| | |[|x xs]|[|x xs]|] eqn:E; try done.
  - injection H as <-. unfold history, batch. by rewrite E.
  - injection H as <-. unfold history, batch. by destruct (quit_ s); simpl; rewrite ?E.
  - destruct (reported s r); [|done]. injection H as <-. unfold history, batch. by rewrite E.
  - injection H as <-. rewrite <- (history_handleEvent x s). unfold history, batch.
    fields. by rewrite pc_handleEvent, E.
  - injection H as <-. unfold history, batch. rewrite E. fields. by rewrite app_nil_r.
  - injection H as <-. unfold history, batch. rewrite E. fields. by rewrite <- app_assoc.
  - injection H as <-. unfold history, batch. by rewrite E.
  - destruct (in_user_code s); [|done]. injection H as <-. unfold queueInLoop.
    destruct (queueInLoop_wakes _ _); by rewrite ?history_wakeup, history_push.
  - destruct (in_user_code s); [|done]. by injection H as <-.
  - injection H as <-. unfold queueInLoop_other.
    rewrite <- history_push. by destruct (queueInLoop_wakes _ _).
  - by injection H as <-.
  - destruct (owed s); [done|]. injection H as <-. by rewrite history_wakeup.
Qed.

Lemma executed_wakeup s : executed (wakeup s) = executed s.
Proof. unfold wakeup. by destruct (_ <? _). Qed.

(** Only [LCall] runs a functor. *)
Lemma executed_step l s s' :
  step l s = Some s' -> l <> LCall -> executed s' = executed s.
Proof.
  intros H Hl. destruct l; simpl in H; try done.
  1-6: destruct (pc_ s) as [| | |[|x xs]|[|x xs]|]; try done.
  - by injection H as <-.
  - injection H as <-. by destruct (quit_ s).
  - destruct (reported s r); [|done]. by injection H as <-.
  - injection H as <-. destruct x as [[|fd] r]; simpl; [|done]. by case_bool_decide.
  - by injection H as <-.
  - by injection H as <-.
  - destruct (in_user_code s); [|done]. injection H as <-. unfold queueInLoop.
    destruct (queueInLoop_wakes _ _); by rewrite ?executed_wakeup.
  - destruct (in_user_code s); [|done]. by injection H as <-.
  - injection H as <-. unfold queueInLoop_other. by destruct (queueInLoop_wakes _ _).
  - by injection H as <-.
  - destruct (owed s); [done|]. injection H as <-. by rewrite executed_wakeup.
Qed.

Lemma history_exec ls s s' : exec ls s = Some s' -> history s' = history s ++ queued ls.
Proof.
  revert s. induction ls as [|l ls IH]; simpl; intros s H.
  - simplify_eq. by rewrite app_nil_r.
  - apply bind_Some in H as (s1 & H1 & H2). rewrite (IH _ H2), (history_step _ _ _ H1), <- app_assoc.
    f_equal. by destruct l.
Qed.

Lemma inv_make : inv make.
Proof. split; cbn; try done. split; [done | by intros []]. Qed.

(** A wakeup keeps the invariant. *)
Lemma inv_wakeup s : inv s -> inv (wakeup s).
Proof.
  intros [Ic In Ip Iq]. destruct (wakeup_spec s In) as (n & Hn & ->).
  assert (will_wake (set_counter n s)) by (by left).
  split; fields; try done; [lia | by destruct (pc_ s)].
Qed.

Lemma inv_push f s :
  inv s -> (match pc_ s with PcEvents _ | PcDone => True | _ => will_wake s end) ->
  inv (push f s).
Proof.
  intros [Ic In Ip Iq] Hw. split; fields; try done.
  change (pc_ (push f s)) with (pc_ s). revert Hw. by destruct (pc_ s); intros Hw; try intros _.
Qed.

Lemma inv_owe s : inv s -> inv (set_owed (S (owed s)) s).
Proof.
  intros [Ic In Ip Iq]. assert (will_wake (set_owed (S (owed s)) s)) by (by right).
  split; fields; try done. by destruct (pc_ s).
Qed.

Lemma inv_queueInLoop f s :
  inv s -> in_user_code s = true -> pc_ s <> PcStart -> inv (queueInLoop f s).
Proof.
  intros Hinv Hu Hs. unfold queueInLoop, in_user_code in *.
  unfold queueInLoop_wakes. cbn [negb orb]. fields.
  destruct Hinv as [Ic In Ip Iq].
  destruct (callingPendingFunctors_ (push f s)) eqn:Hc.
  - unfold push in *. fields.
    destruct (wakeup_spec (set_pending (pendingFunctors_ s ++ [f]) s) In) as (n & Hn & ->).
    assert (will_wake (set_counter n (set_pending (pendingFunctors_ s ++ [f]) s))) by (by left).
    split; fields; try done; [lia | by destruct (pc_ s)].
  - apply inv_push; [done|]. destruct (pc_ s) eqn:E; try done.
    exfalso. unfold push in Hc. fields. rewrite (proj2 Ic) in Hc; [done | eauto].
Qed.

Lemma inv_other_call s s1 :
  inv s -> looping_ s1 = looping_ s -> callingPendingFunctors_ s1 = callingPendingFunctors_ s ->
  wakeupFd_ s1 = wakeupFd_ s -> pc_ s1 = pc_ s -> owed s1 <> 0%nat -> inv s1.
Proof.
  intros [Ic In Ip Iq] _ E1 E2 E3 Ho. assert (will_wake s1) by (by right).
  split; rewrite ?E1, ?E2, ?E3; try done. by destruct (pc_ s).
Qed.

(** A push from the loop's thread before [loop()] is what breaks the invariant. *)
Lemma inv_step l s s' :
  inv s -> step l s = Some s' -> (forall f, l = LQueue f -> pc_ s <> PcStart) -> inv s'.
Proof.
  intros Hinv H Hearly. pose proof Hinv as [Ic In Ip Iq]. destruct l; simpl in H.
  1-7: destruct (pc_ s) as [| | |[|x xs]|[|x xs]|] eqn:E; try done.
  - injection H as <-. split; fields; try done. rewrite Ic. naive_solver.
  - injection H as <-. destruct (quit_ s) eqn:Hq; simpl; split; fields; try done;
      try congruence; rewrite Ic; naive_solver.
  - destruct (reported s r); [|done]. injection H as <-.
    split; fields; try done. rewrite Ic. naive_solver.
  - injection H as <-. assert (callingPendingFunctors_ (handleEvent x s) = callingPendingFunctors_ s /\
      0 <= wakeupFd_ (handleEvent x s)) as [E1 E2].
    { destruct x as [[|fd] r]; simpl; [|done]. by case_bool_decide. }
    split; fields; try done. rewrite E1, Ic. naive_solver.
  - injection H as <-. split; fields; try done. naive_solver.
  - injection H as <-. split; fields; try done. rewrite Ic. naive_solver.
  - injection H as <-. split; fields; try done. naive_solver.
  - destruct (in_user_code s) eqn:Hu; [|done]. injection H as <-. apply inv_queueInLoop; eauto.
  - destruct (in_user_code s) eqn:Hu; [|done]. injection H as <-. unfold quit.
    split; fields; try done. intros Hp. unfold in_user_code in Hu. by rewrite Hp in Hu.
  - injection H as <-. by apply (inv_other_call s).
  - injection H as <-. by apply (inv_other_call s).
  - destruct (owed s) as [|n]; [done|]. injection H as <-.
    destruct (wakeup_spec (set_owed n s) In) as (k & Hk & ->).
    assert (will_wake (set_counter k (set_owed n s))) by (by left).
    split; fields; try done; [lia | by destruct (pc_ s)].
Qed.

(** Only [LStart] leaves the first program counter, and nothing comes back to it. *)
Lemma step_start l s s' :
  step l s = Some s' -> pc_ s' = PcStart <-> pc_ s = PcStart /\ l <> LStart.
Proof.
  destruct l; simpl; intros H.
  1-7: destruct (pc_ s) as [| | |[|x xs]|[|x xs]|] eqn:E; try done.
  - injection H as <-. naive_solver.
  - injection H as <-. destruct (quit_ s); naive_solver.
  - destruct (reported s r); [|done]. injection H as <-. naive_solver.
  - injection H as <-. naive_solver.
  - injection H as <-. naive_solver.
  - injection H as <-. naive_solver.
  - injection H as <-. naive_solver.
  - destruct (in_user_code s); [|done]. injection H as <-. unfold queueInLoop.
    destruct (queueInLoop_wakes _ _); [unfold wakeup; destruct (_ <? _)|]; naive_solver.
  - destruct (in_user_code s); [|done]. injection H as <-. naive_solver.
  - injection H as <-. naive_solver.
  - injection H as <-. naive_solver.
  - destruct (owed s); [done|]. injection H as <-. unfold wakeup. destruct (_ <? _); naive_solver.
Qed.

Lemma inv_exec ls s s' :
  inv s -> (pc_ s = PcStart -> no_early_queue ls = true) -> exec ls s = Some s' -> inv s'.
Proof.
  revert s. induction ls as [|l ls IH]; simpl; intros s Hi Hp H; [by simplify_eq|].
  apply bind_Some in H as (s1 & H1 & H2). pose proof (step_start _ _ _ H1) as Hs.
  eapply IH; [| |exact H2].
  - eapply inv_step; [done..|]. intros f -> E. by specialize (Hp E).
  - intros E. apply Hs in E as [E Hne]. specialize (Hp E). by destruct l.
Qed.

(** The calls of a batch. *)
Lemma exec_calls fs s :
  pc_ s = PcCalling fs ->
  exec (replicate (length fs) LCall) s =
    Some (set_pc (PcCalling []) (set_executed (executed s ++ fs) s)).
Proof.
  revert s. induction fs as [|f fs IH]; simpl; intros s E.
  - rewrite app_nil_r. destruct s; simpl in *. by subst.
  - rewrite E. simpl. rewrite IH by done. fields. by rewrite <- app_assoc.
Qed.

Lemma exec_app ls ls' s : exec (ls ++ ls') s = s ← exec ls s; exec ls' s.
Proof.
  revert s. induction ls as [|l ls IH]; intros s; simpl; [done|].
  destruct (step l s); simpl; [apply IH | done].
Qed.

(** A finite double that is not at most zero is above it. *)
Lemma positive_double x :
  Duration.isfinite x = true -> Duration.leb x Duration.zero = false ->
  Duration.ltb x Duration.zero = false /\ Duration.ltb Duration.zero x = true.
Proof. destruct x as [|?| |[] m e]; done. Qed.

(** ** Properties *)

(** C27. Queued work runs in order and exactly once: in every interleaving of the
    loop's thread with others, the functors already run, those swapped out for the
    current batch, and those still pending are, in this order, exactly the functors
    given to [queueInLoop], in the order of their pushes. *)
Theorem functors_run_in_order (ls : list label) (s : t) :
  exec ls make = Some s ->
  executed s ++ batch s ++ pendingFunctors_ s = queued ls.
Proof. apply (history_exec ls make s). Qed.

(** Two threads push, the loop's thread pushes from a functor. *)
Definition test_run : list label :=
  [TPush 1; LStart; LTest; TWake; LPoll (Some [(Other 5, 1); (Wakeup, 1)]); LEvent; TPush 2;
   LEvent; LQueue 3; LSwap; LCall; LQueue 4; LCall; TPush 5; LCall; LEnd; TWake; LTest].

Lemma functors_run_in_order_witness :
  exists s, exec test_run make = Some s /\
    executed s ++ batch s ++ pendingFunctors_ s = [1; 2; 3; 4; 5].
Proof.
  eexists. split; [vm_compute; reflexivity|].
  apply (functors_run_in_order test_run). vm_compute. reflexivity.
Defined.

(** C26. No wakeup is lost: in every interleaving in which the loop's own thread
    queued nothing before it entered [loop()], if the loop waits in [epoll_wait]
    while functors are pending, or after [quit] was called, and no other thread is
    between its push and its wakeup, then the eventfd is readable: the wait ends. *)
Theorem no_lost_wakeup (ls : list label) (s : t) :
  exec ls make = Some s -> no_early_queue ls = true ->
  pc_ s = PcPoll -> owed s = 0%nat ->
  pendingFunctors_ s <> [] \/ quit_ s = true ->
  wakeup_ready s.
Proof.
  intros H He Hp Ho Hor. destruct (inv_exec ls make s inv_make (fun _ => He) H) as [_ _ Ip Iq].
  rewrite Hp in Ip. destruct Hor as [Hne|Hq].
  - by destruct (Ip Hne).
  - by destruct (Iq Hp Hq).
Qed.

Lemma no_lost_wakeup_witness :
  exists s, exec (test_run ++ [TWake]) make = Some s /\ pendingFunctors_ s = [4; 5] /\
    wakeup_ready s.
Proof.
  eexists. split; [vm_compute; reflexivity|]. split; [reflexivity|].
  apply (no_lost_wakeup (test_run ++ [TWake]));
    [vm_compute; reflexivity | reflexivity | reflexivity | reflexivity | left; discriminate].
Defined.

(** One iteration runs everything pending: from a wait that the eventfd ends,
    the loop's thread alone comes back to its test with every pending functor run,
    in order, nothing pending and the eventfd reset. *)
Theorem iteration_runs_pending (s : t) :
  pc_ s = PcPoll -> wakeup_ready s ->
  exists s', exec (iteration s) s = Some s' /\ pc_ s' = PcTest /\
    executed s' = executed s ++ pendingFunctors_ s /\ pendingFunctors_ s' = [] /\
    wakeupFd_ s' = 0 /\ callingPendingFunctors_ s' = false /\ quit_ s' = quit_ s.
Proof.
  intros Hp Hw. unfold iteration. rewrite exec_app. cbn [exec step].
  rewrite Hp. unfold reported. cbn [forallb fst]. rewrite (proj2 (Z.ltb_lt _ _) Hw). cbn [andb].
  simpl. rewrite exec_app, exec_calls by done. simpl. eexists. split; [done|]. by split_and!.
Qed.

Lemma iteration_runs_pending_witness :
  exists s0 s', exec [LStart; LTest; TPush 7; TWake] make = Some s0 /\
    exec (iteration s0) s0 = Some s' /\ pc_ s' = PcTest /\
    executed s' = executed s0 ++ pendingFunctors_ s0 /\ pendingFunctors_ s' = [] /\
    wakeupFd_ s' = 0 /\ callingPendingFunctors_ s' = false /\ quit_ s' = quit_ s0.
Proof.
  eexists.
  destruct (iteration_runs_pending (mk true false false [7] 1 PcPoll 0 [])) as [s' Hs'];
    [reflexivity | reflexivity |].
  exists s'. split; [vm_compute; reflexivity | exact Hs'].
Defined.

(** [runEvery] refuses an interval that is not a positive finite number: it
    returns 0 and schedules nothing; any other interval is both the first delay and
    the period of a new timer. *)
Theorem runEvery_positive (c : TimerQueue.t) (inLoop : bool) (p : Z)
    (interval : Duration.double) (now : Z) :
  TimerQueue.wf [] c -> TimerQueue.add_ok c p interval interval now ->
  exists r c', runEvery inLoop true p interval now c = Ok (r, c', []) /\
    if Duration.isfinite interval && negb (Duration.leb interval Duration.zero)
    then r = TimerQueue.nextTimerId_ c /\ exists us tm,
      Duration.secondsToMicroseconds interval = Ok us /\ 0 < us /\
      TimerQueue.heap c' !! p = Some tm /\ TimerQueue.id tm = r /\
      TimerQueue.repeating tm = true /\ TimerQueue.interval tm = us
    else r = 0 /\ c' = c.
Proof.
  intros Hwf Hok. unfold runEvery.
  destruct (Duration.isfinite interval) eqn:Hf; cbn [negb orb andb]; [|by eexists _, _].
  destruct (Duration.leb interval Duration.zero) eqn:Hz; cbn [negb]; [by eexists _, _|].
  destruct (positive_double interval Hf Hz) as [Hlt Hgt].
  destruct (wp_elim _ _ _ (TimerQueue.addTimer_spec [] inLoop true p interval interval now c Hwf Hok))
    as (r & c' & es & Hrun & -> & _ & _ & _ & Hc).
  assert (TimerQueue.rejected true interval interval = false) as Hrej.
  { unfold TimerQueue.rejected. by rewrite Hf, Hlt. }
  rewrite Hrej in Hc. destruct Hc as (-> & us & iv & tm & Hus & Hiv & -> & Hc).
  assert (iv = us) as -> by congruence. rewrite Hgt in *.
  exists (TimerQueue.nextTimerId_ c), c'. split; [done|]. split; [done|].
  destruct Hok as (_ & _ & _ & Hv & _).
  destruct (Duration.seconds_cases interval Hv Hf) as (us' & Hus' & Hr & H0).
  assert (us' = us) as -> by congruence. exists us.
  assert (0 < us). { destruct (decide (us = 0)) as [E|]; [|lia]. apply H0 in E. congruence. }
  destruct inLoop; [destruct Hc as (v & ->) | subst c'];
    unfold TimerQueue.scheduled, TimerQueue.allocated; TimerQueue.fields;
    rewrite lookup_insert_eq; eexists; by split_and!.
Qed.

Lemma runEvery_positive_witness :
  exists r c', runEvery true true 100 TimerQueue.half TimerQueue.second TimerQueue.make =
      Ok (r, c', []) /\
    r = 1 /\ exists us tm,
      Duration.secondsToMicroseconds TimerQueue.half = Ok us /\ 0 < us /\
      TimerQueue.heap c' !! 100 = Some tm /\ TimerQueue.id tm = r /\
      TimerQueue.repeating tm = true /\ TimerQueue.interval tm = us.
Proof.
  apply (runEvery_positive TimerQueue.make true 100 TimerQueue.half TimerQueue.second);
    [apply TimerQueue.timers_make_wf | TimerQueue.concrete_steps].
Defined.

(** ** What the code does not guard against *)

(** A functor that the loop's own thread queues before [loop()] wakes nobody: the
    loop goes to wait while it is pending. *)
Theorem early_queue_waits (f : functor) :
  exists s, exec [LQueue f; LStart; LTest] make = Some s /\
    pc_ s = PcPoll /\ pendingFunctors_ s = [f] /\ owed s = 0%nat /\ ~ wakeup_ready s.
Proof.
  eexists. split; [vm_compute; reflexivity|]. split_and!; [reflexivity..|].
  unfold wakeup_ready. simpl. lia.
Qed.

(** [loop()] resets [quit_]: a [quit] that came first is forgotten. *)
Theorem early_quit_forgotten :
  exists s s', exec [TQuit; TWake; LStart; LTest] make = Some s /\
    exec (iteration s ++ [LTest]) s = Some s' /\ pc_ s' = PcPoll /\ ~ wakeup_ready s'.
Proof.
  eexists _, _. split; [vm_compute; reflexivity|]. split; [vm_compute; reflexivity|].
  split; [reflexivity|]. unfold wakeup_ready. simpl. lia.
Qed.

End EventLoop.
