(* ===== verification/CrossThread.v ===== *)
(** * CrossThread: a connection that several threads use

    The composition of src/src/net/EventLoop.cpp with src/src/tcp/TcpConnection.cpp and
    src/src/net/Channel.cpp.  A connection lives on a loop that other channels share.  Other
    threads call [send], [sendFile], [shutdown] and [forceClose], which queue functors on
    the loop; the loop's thread handles the events of the connection's channel, runs the
    functors, and in its callbacks calls the same methods, which then act at once.  The loop
    is [EventLoop.t] with its program counter, its queue and its eventfd; the functor number
    [i] of the loop is the [i]-th entry of [tasks].  A run interleaves all of this, one
    atomic step of one thread each. *)

From S2P Require Import Prelude Buffer Channel TcpConnection Duration TimerQueue EventLoop.

Module CrossThread.

#[local] Existing Instance TcpConnection.StateE_eq_dec.

(** What a queued functor does: a functor of this connection, or something else. *)
Inductive task :=
| Mine (f : TcpConnection.functor)
| Others.

Record t := mk {
  loop : EventLoop.t;
  tcp : TcpConnection.t;
  tasks : list task;                    (** all functors queued so far, by their number *)
  handlers : list Channel.callback;     (** what [handleEvent] still has to call *)
}.

Definition set_loop (l : EventLoop.t) (s : t) : t := mk l (tcp s) (tasks s) (handlers s).
Definition set_tcp (c : TcpConnection.t) (s : t) : t := mk (loop s) c (tasks s) (handlers s).
Definition set_handlers (h : list Channel.callback) (s : t) : t := mk (loop s) (tcp s) (tasks s) h.

(** [queueInLoop] of the loop, on its thread or on another one. *)
Definition post (inLoop : bool) (x : task) (s : t) : t :=
  let id := Z.of_nat (length (tasks s)) in
  mk (if inLoop then EventLoop.queueInLoop id (loop s) else EventLoop.queueInLoop_other id (loop s))
     (tcp s) (tasks s ++ [x]) (handlers s).

Definition posts (inLoop : bool) (xs : list task) (s : t) : t :=
  foldl (fun s x => post inLoop x s) s xs.

(** The functors that an operation of the connection queues. *)
Definition queued (es : list TcpConnection.effect) : list TcpConnection.functor :=
  omap (fun e => match e with TcpConnection.EQueueInLoop f => Some f | _ => None end) es.

(** An operation of the connection; its functors are queued on the loop. *)
Definition tcp_event (inLoop : bool) (e : TcpConnection.event) (s : t)
    : outcome (t * list TcpConnection.effect) :=
  let! (_, c, es) := TcpConnection.run_event e (tcp s) in
  Ok (posts inLoop (map Mine (queued es)) (set_tcp c s), es).

(** The methods that any thread may call; [write_r] is the answer of [::write], if the
    call makes one. *)
Inductive api :=
| Send (write_r : sysret) (message : bytes)
| SendFile (fd fileSize : Z)
| Shutdown
| ForceClose.

Definition api_event (inLoop : bool) (op : api) : TcpConnection.event :=
  match op with
  | Send r m => TcpConnection.EvSend inLoop r m
  | SendFile fd n => TcpConnection.EvSendFile inLoop fd n
  | Shutdown => TcpConnection.EvShutdown inLoop
  | ForceClose => TcpConnection.EvForceClose
  end.

(** What a functor runs; those of the user's callbacks call back by labels of their own. *)
Definition functor_event (r : sysret) (f : TcpConnection.functor) : option TcpConnection.event :=
  match f with
  | TcpConnection.FWriteComplete => None
  | TcpConnection.FLowWaterMark _ | TcpConnection.FHighWaterMark _ => None
  | TcpConnection.FSendInLoop m => Some (TcpConnection.EvSendInLoop r m)
  | TcpConnection.FSendFileInLoop fd n => Some (TcpConnection.EvSendFileInLoop fd n)
  | TcpConnection.FShutdownInLoop => Some TcpConnection.EvShutdownInLoop
  | TcpConnection.FForceCloseInLoop => Some TcpConnection.EvForceCloseInLoop
  end.

(** The constructor sets the four callbacks of the channel. *)
Definition channel_callbacks : Channel.callbacks :=
  Channel.setErrorCallback (Channel.setCloseCallback (Channel.setWriteCallback
    (Channel.setReadCallback Channel.no_callbacks))).

(** What a callback of the channel runs; [handleError] only logs. *)
Definition handler_event (cb : Channel.callback) (rd : Buffer.readv_result) (w f : sysret)
    : option TcpConnection.event :=
  match cb with
  | Channel.CbClose => Some TcpConnection.EvClose
  | Channel.CbError => None
  | Channel.CbRead => Some (TcpConnection.EvRead rd)
  | Channel.CbWrite => Some (TcpConnection.EvWrite w f)
  end.

Inductive label :=
| Loop (l : EventLoop.label)            (** a step that does not concern the connection *)
| Foreign (inLoop : bool)               (** something else is queued on the loop *)
| Dispatch                              (** the loop comes to the connection's channel *)
| Handle (rd : Buffer.readv_result) (w f : sysret)   (** the next callback of the channel *)
| Run (r : sysret)                      (** the next functor of [doPendingFunctors] *)
| Call (inLoop : bool) (op : api).

Definition runs_event (oe : option TcpConnection.event) (s : t)
    : outcome (t * list TcpConnection.effect) :=
  match oe with Some e => tcp_event true e s | None => Ok (s, []) end.

(** The steps of the loop that are not about channels, calls and queues. *)
Definition free (l : EventLoop.label) : bool :=
  match l with
  | EventLoop.LStart | EventLoop.LTest | EventLoop.LPoll _ | EventLoop.LSwap | EventLoop.LEnd
  | EventLoop.LQuit | EventLoop.TQuit | EventLoop.TWake => true
  | _ => false
  end.

(** The channel that [loop()] comes to next, after the last one is done with. *)
Definition next_channel (s : t) : option (EventLoop.chan * Z) :=
  match EventLoop.pc_ (loop s), handlers s with
  | EventLoop.PcEvents (x :: _), [] => Some x
  | _, _ => None
  end.

Definition is_mine (s : t) (ch : EventLoop.chan) : bool :=
  match ch with
  | EventLoop.Wakeup => false
  | EventLoop.Other fd => fd =? Channel.fd_ (TcpConnection.channel_ (tcp s))
  end.

(** Whether the loop can take the step while the connection is not concerned. *)
Definition loop_step_ok (l : EventLoop.label) (s : t) : bool :=
  match l with
  | EventLoop.LEvent =>
      match next_channel s with Some (ch, _) => negb (is_mine s ch) | None => false end
  | EventLoop.LSwap => bool_decide (handlers s = [])
  | _ => free l
  end.

Definition loop_step (l : EventLoop.label) (s : t) : t :=
  match EventLoop.step l (loop s) with Some l' => set_loop l' s | None => s end.

(** One step.  A label that cannot happen in a state does nothing. *)
Definition step (l : label) (s : t) : outcome (t * list TcpConnection.effect) :=
  match l with
  | Loop l => Ok (if loop_step_ok l s then loop_step l s else s, [])
  | Foreign inLoop =>
      Ok (if negb inLoop || EventLoop.in_user_code (loop s) then post inLoop Others s else s, [])
  | Dispatch =>
      match next_channel s with
      | Some (ch, revents) =>
          Ok (if is_mine s ch
              then set_handlers (Channel.dispatch channel_callbacks revents) (loop_step EventLoop.LEvent s)
              else s, [])
      | None => Ok (s, [])
      end
  | Handle rd w f =>
      match handlers s with
      | cb :: rest => runs_event (handler_event cb rd w f) (set_handlers rest s)
      | [] => Ok (s, [])
      end
  | Run r =>
      match EventLoop.pc_ (loop s) with
      | EventLoop.PcCalling (i :: _) =>
          let s1 := loop_step EventLoop.LCall s in
          match tasks s !! Z.to_nat i with
          | Some (Mine f) => runs_event (functor_event r f) s1
          | _ => Ok (s1, [])
          end
      | _ => Ok (s, [])
      end
  | Call inLoop op =>
      if negb inLoop || EventLoop.in_user_code (loop s) then tcp_event inLoop (api_event inLoop op) s
      else Ok (s, [])
  end.

Fixpoint run (ls : list label) (s : t) : outcome (t * list TcpConnection.effect) :=
  match ls with
  | [] => Ok (s, [])
  | l :: ls =>
      let! (s, es) := step l s in
      let! (s, es') := run ls s in
      Ok (s, es ++ es')
  end.

(** ** What the environment may do *)

(** The event of the connection that a label runs in a state. *)
Definition event_of (l : label) (s : t) : option TcpConnection.event :=
  match l with
  | Handle rd w f => match handlers s with cb :: _ => handler_event cb rd w f | [] => None end
  | Run r =>
      match EventLoop.pc_ (loop s) with
      | EventLoop.PcCalling (i :: _) =>
          match tasks s !! Z.to_nat i with Some (Mine f) => functor_event r f | _ => None end
      | _ => None
      end
  | Call inLoop op =>
      if negb inLoop || EventLoop.in_user_code (loop s) then Some (api_event inLoop op) else None
  | _ => None
  end.

(** [write] never answers that the connection is broken. *)
Definition sane (l : label) : Prop :=
  match l with
  | Run r | Call _ (Send r _) => TcpConnection.fatal_errno r = false
  | _ => True
  end.

(** The answers of the kernel are in range and there is memory for what is queued. *)
Definition enabled (l : label) (s : t) : Prop :=
  match event_of l s with Some e => TcpConnection.event_ok (tcp s) e | None => True end.

Fixpoint run_enabled (ls : list label) (s : t) : Prop :=
  match ls with
  | [] => True
  | l :: ls =>
      enabled l s /\ match step l s with Ok (s, _) => run_enabled ls s | Fault _ => True end
  end.

(** The messages of the calls of [send] on a connected connection, from the loop's
    thread, and from the others. *)
Definition sent_now (inLoop : bool) (l : label) (s : t) : list bytes :=
  match l with
  | Call b (Send _ m) =>
      if Bool.eqb b inLoop && (negb b || EventLoop.in_user_code (loop s)) &&
         TcpConnection.connected (tcp s) then [m] else []
  | _ => []
  end.

Fixpoint sent (inLoop : bool) (ls : list label) (s : t) : list bytes :=
  match ls with
  | [] => []
  | l :: ls =>
      sent_now inLoop l s ++ match step l s with Ok (s, _) => sent inLoop ls s | Fault _ => [] end
  end.

(** The loop sleeps: nothing that was queued or asked of it ends its wait. *)
Definition sleeps (s : t) : Prop :=
  EventLoop.pc_ (loop s) = EventLoop.PcPoll /\ EventLoop.owed (loop s) = 0%nat /\
  ~ EventLoop.wakeup_ready (loop s).

(** ** Lemmas: the messages that are queued *)

Definition messages (xs : list task) : list bytes :=
  omap (fun x => match x with Mine (TcpConnection.FSendInLoop m) => Some m | _ => None end) xs.

Lemma messages_app xs ys : messages (xs ++ ys) = messages xs ++ messages ys.
Proof. apply omap_app. Qed.

(** The messages that the effects of an operation queue. *)
Definition posted (es : list TcpConnection.effect) : list bytes := messages (map Mine (queued es)).

Lemma posted_app es es' : posted (es ++ es') = posted es ++ posted es'.
Proof. unfold posted, queued. by rewrite omap_app, map_app, messages_app. Qed.

Lemma posted_epoll cs : posted (map TcpConnection.EEpoll cs) = [].
Proof. induction cs as [|c cs IH]; [done | exact IH]. Qed.

(** Only [send] from another thread queues a message. *)
Definition crossing (c : TcpConnection.t) (e : TcpConnection.event) : list bytes :=
  match e with
  | TcpConnection.EvSend false _ m => if TcpConnection.connected c then [m] else []
  | _ => []
  end.

(** An operation that queues no message. *)
Definition mute {A} (m : TcpConnection.M A) : Prop :=
  forall c, wlp m c (fun _ _ es => posted es = []).

Lemma mute_bind {A B} (m : TcpConnection.M A) (k : A -> TcpConnection.M B) :
  mute m -> (forall a, mute (k a)) -> mute (st_bind m k).
Proof.
  intros Hm Hk c. apply wlp_bind. eapply wlp_mono; [apply Hm|]. intros a c1 e1 E1.
  eapply wlp_mono; [apply Hk|]. intros b c2 e2 E2. by rewrite posted_app, E1, E2.
Qed.
Lemma mute_ret {A} (a : A) : mute (st_ret a).
Proof. intros c. by apply wlp_ret. Qed.
Lemma mute_get : mute st_get.
Proof. intros c. by apply wlp_get. Qed.
Lemma mute_modify f : mute (st_modify f).
Proof. intros c. by apply wlp_modify. Qed.
Lemma mute_lift {A} (m : outcome A) : mute (st_lift m).
Proof. intros c. by apply wlp_lift. Qed.
Lemma mute_tell es : posted es = [] -> mute (st_tell es).
Proof. intros H c. by apply wlp_tell. Qed.
Lemma mute_when b m : mute m -> mute (st_when b m).
Proof. destruct b; [done|]. intros _. apply mute_ret. Qed.
Lemma mute_on_channel m : mute (TcpConnection.on_channel m).
Proof.
  intros c a c' es. unfold TcpConnection.on_channel.
  destruct (m _) as [[[[] ch] cs]|]; [|done]. intros [= <- <- <-]. apply posted_epoll.
Qed.

Ltac head_of t := lazymatch t with ?f _ => head_of f | _ => t end.

(** Applies the rule of the head of the operation, or unfolds it. *)
Ltac mute_tac := repeat (
  lazymatch goal with
  | |- mute (st_bind _ _) => apply mute_bind; [|intros ?]
  | |- mute (st_ret _) => apply mute_ret
  | |- mute st_get => apply mute_get
  | |- mute (st_tell _) => by apply mute_tell
  | |- mute (st_lift _) => apply mute_lift
  | |- mute (st_modify _) => apply mute_modify
  | |- mute (st_when _ _) => apply mute_when
  | |- mute (TcpConnection.on_channel _) => apply mute_on_channel
  | |- mute (if ?b then _ else _) => destruct b
  | |- mute (match ?x with _ => _ end) => destruct x
  | |- mute ?m => let h := head_of m in unfold h
  end).

Lemma mute_event e :
  match e with TcpConnection.EvSend false _ _ => False | _ => True end ->
  mute (TcpConnection.run_event e).
Proof. destruct e as [| | | | |[]| |[]| | [] | | | |]; intros He; [..|]; try done; mute_tac. Qed.

Lemma queued_messages c e :
  wlp (TcpConnection.run_event e) c (fun _ _ es => posted es = crossing c e).
Proof.
  destruct e as [| | | | |[]| | | | | | | |]; try (by apply mute_event).
  cbn [TcpConnection.run_event crossing]. unfold TcpConnection.send, TcpConnection.connected.
  apply wlp_bind, wlp_get, wlp_when; intros ->; [|done]. by apply wlp_tell.
Qed.

(** ** The invariant *)

(** The numbers of the first [n] functors. *)
Definition ids (n : nat) : list Z := map Z.of_nat (seq 0 n).

Record inv (s : t) : Prop := {
  i_loop : EventLoop.inv (loop s);
  i_started : EventLoop.pc_ (loop s) <> EventLoop.PcStart;
  i_history : EventLoop.history (loop s) = ids (length (tasks s));
  i_wf : TcpConnection.wf (tcp s);
  i_up : TcpConnection.state_ (tcp s) <> TcpConnection.kConnecting;
}.

(** The functors that have run; the messages handed to the connection by functors, and
    those that still wait in the queue. *)
Definition ran (s : t) : nat := length (EventLoop.executed (loop s)).
Definition handed (s : t) : list bytes := messages (take (ran s) (tasks s)).
Definition waiting (s : t) : list bytes := messages (drop (ran s) (tasks s)).

Lemma handed_waiting s : handed s ++ waiting s = messages (tasks s).
Proof. unfold handed, waiting. by rewrite <- messages_app, take_drop. Qed.

Lemma ids_succ n : ids (S n) = ids n ++ [Z.of_nat n].
Proof. unfold ids. by rewrite seq_S, map_app. Qed.

(** The functor that runs next is the one after those that have run. *)
Lemma next_functor s i fs :
  inv s -> EventLoop.pc_ (loop s) = EventLoop.PcCalling (i :: fs) ->
  i = Z.of_nat (ran s) /\ (ran s < length (tasks s))%nat.
Proof.
  intros Hs E. pose proof (i_history s Hs) as H. unfold EventLoop.history, EventLoop.batch in H.
  rewrite E in H. assert (Hi : ids (length (tasks s)) !! ran s = Some i).
  { rewrite <- H. unfold ran. by rewrite lookup_app_r, Nat.sub_diag by done. }
  unfold ids in Hi. rewrite list_lookup_fmap in Hi.
  destruct (seq 0 (length (tasks s)) !! ran s) as [j|] eqn:Ej; [|done].
  apply lookup_seq in Ej as [-> Hl]. simpl in Hi. by injection Hi as <-.
Qed.

(** ** Lemmas: the queue *)

Lemma post_spec inLoop x s :
  inv s -> (inLoop = true -> EventLoop.in_user_code (loop s) = true) ->
  inv (post inLoop x s) /\ EventLoop.executed (loop (post inLoop x s)) = EventLoop.executed (loop s).
Proof.
  intros [Hl Hst Hh Hwf Hup] Hu. set (id := Z.of_nat (length (tasks s))).
  set (el := if inLoop then EventLoop.LQueue id else EventLoop.TPush id).
  assert (E : EventLoop.step el (loop s) = Some (loop (post inLoop x s))).
  { unfold el, post. destruct inLoop; simpl; [by rewrite Hu | done]. }
  split; [split|]; try done.
  - eapply EventLoop.inv_step; [exact Hl | exact E | done].
  - intros Hp. apply (EventLoop.step_start _ _ _ E) in Hp as [Hp _]. done.
  - rewrite (EventLoop.history_step _ _ _ E), Hh. cbn [post tasks].
    rewrite length_app, Nat.add_1_r, ids_succ. unfold el, id. by destruct inLoop.
  - unfold post, EventLoop.queueInLoop, EventLoop.queueInLoop_other, EventLoop.wakeup. cbn [loop].
    destruct inLoop, (EventLoop.queueInLoop_wakes _ _); try done. by destruct (_ <? _).
Qed.

Lemma pc_post inLoop x s : EventLoop.pc_ (loop (post inLoop x s)) = EventLoop.pc_ (loop s).
Proof.
  unfold post, EventLoop.queueInLoop, EventLoop.queueInLoop_other, EventLoop.wakeup. cbn [loop].
  destruct inLoop, (EventLoop.queueInLoop_wakes _ _); try done. by destruct (_ <? _).
Qed.

Lemma posts_spec inLoop xs : forall s,
  inv s -> (inLoop = true -> EventLoop.in_user_code (loop s) = true) ->
  let s' := posts inLoop xs s in
  inv s' /\ EventLoop.executed (loop s') = EventLoop.executed (loop s) /\
  tasks s' = tasks s ++ xs /\ tcp s' = tcp s.
Proof.
  induction xs as [|x xs IH]; intros s Hs Hu; [simpl; by rewrite app_nil_r|].
  destruct (post_spec inLoop x s Hs Hu) as [H1 E1].
  destruct (IH (post inLoop x s) H1) as (H2 & E2 & Et & Ec); [by unfold EventLoop.in_user_code; rewrite pc_post|].
  change (posts inLoop (x :: xs) s) with (posts inLoop xs (post inLoop x s)).
  split_and!; [done | by rewrite E2 | rewrite Et; cbn [post tasks]; by rewrite <- app_assoc | done].
Qed.

Lemma posts_frame inLoop xs : forall s,
  handlers (posts inLoop xs s) = handlers s /\
  EventLoop.pc_ (loop (posts inLoop xs s)) = EventLoop.pc_ (loop s).
Proof.
  induction xs as [|x xs IH]; intros s; [done|].
  change (posts inLoop (x :: xs) s) with (posts inLoop xs (post inLoop x s)).
  destruct (IH (post inLoop x s)) as [-> ->]. split; [done | apply pc_post].
Qed.

(** ** Lemmas: one step *)

(** What a step adds: [hs] are the messages it hands over, [own] those the loop's thread
    sends, [new] those the other threads queue. *)
Record adds (s : t) (es : list TcpConnection.effect) (s' : t) (own hs new : list bytes) : Prop := {
  a_inv : inv s';
  a_rank : TcpConnection.rank (TcpConnection.state_ (tcp s)) <=
    TcpConnection.rank (TcpConnection.state_ (tcp s'));
  a_handed : handed s' = handed s ++ hs;
  a_queued : messages (tasks s') = messages (tasks s) ++ new;
  a_output : TcpConnection.state_ (tcp s') <> TcpConnection.kDisconnected -> exists out,
    TcpConnection.written es ++ Buffer.contents (TcpConnection.outputBuffer_ (tcp s')) =
      Buffer.contents (TcpConnection.outputBuffer_ (tcp s)) ++ concat out /\
    merged own hs out;
}.

(** A step of the loop alone. *)
Lemma loop_adds s el l' :
  inv s -> EventLoop.step el (loop s) = Some l' ->
  EventLoop.queued [el] = [] -> EventLoop.executed l' = EventLoop.executed (loop s) ->
  adds s [] (set_loop l' s) [] [] [].
Proof.
  intros [Hl Hst Hh Hwf Hup] E Hq He. split; cbn [set_loop tcp tasks]; rewrite ?app_nil_r; try done.
  - split; try done; cbn [set_loop loop].
    + eapply EventLoop.inv_step; [exact Hl | exact E|]. by intros f ->.
    + intros Hp. by apply (EventLoop.step_start _ _ _ E) in Hp as [Hp _].
    + by rewrite (EventLoop.history_step _ _ _ E), Hh, Hq, app_nil_r.
  - unfold handed, ran. cbn [set_loop loop]. by rewrite He.
  - intros _. exists []. simpl. rewrite app_nil_r. split; [done | constructor].
Qed.

Lemma idle_adds s : inv s -> adds s [] s [] [] [].
Proof.
  intros Hs. split; rewrite ?app_nil_r; try done. intros _. exists []. simpl.
  rewrite app_nil_r. split; [done | constructor].
Qed.

(** An event of the connection: what it accepts, and the messages it queues. *)
Lemma tcp_event_spec inLoop e s :
  inv s -> TcpConnection.event_ok (tcp s) e ->
  (inLoop = true -> EventLoop.in_user_code (loop s) = true) ->
  exists s' es, tcp_event inLoop e s = Ok (s', es) /\ inv s' /\
    EventLoop.executed (loop s') = EventLoop.executed (loop s) /\
    TcpConnection.rank (TcpConnection.state_ (tcp s)) <=
      TcpConnection.rank (TcpConnection.state_ (tcp s')) /\
    (exists xs, tasks s' = tasks s ++ xs /\ messages xs = crossing (tcp s) e) /\
    TcpConnection.written es ++ Buffer.contents (TcpConnection.outputBuffer_ (tcp s')) =
      Buffer.contents (TcpConnection.outputBuffer_ (tcp s)) ++ TcpConnection.accepted (tcp s) e.
Proof.
  intros Hs He Hu. pose proof Hs as [Hl Hst Hh Hwf Hup].
  destruct (wp_elim _ _ _ (TcpConnection.run_event_spec _ e Hwf He)) as ([] & c & es & E & Hc & _ & T).
  unfold tcp_event. rewrite E. cbn [obind].
  pose proof (TcpConnection.tr_state _ _ _ _ _ _ _ T) as Hr.
  assert (Hs1 : inv (set_tcp c s)).
  { split; try done. cbn [set_tcp tcp]. intros Hk. rewrite Hk in Hr.
    destruct (TcpConnection.state_ (tcp s)); simpl in Hr; done || lia. }
  destruct (posts_spec inLoop (map Mine (queued es)) (set_tcp c s) Hs1 Hu) as (H2 & E2 & Et & Ec).
  do 2 eexists. split; [reflexivity|]. rewrite Ec. split_and!; try done.
  - exists (map Mine (queued es)). split; [done|]. exact (queued_messages _ _ _ _ _ E).
  - apply T.
Qed.

(** Taking in more functors does not change what was handed over. *)
Lemma handed_more s s' xs :
  inv s -> EventLoop.executed (loop s') = EventLoop.executed (loop s) -> tasks s' = tasks s ++ xs ->
  handed s' = handed s.
Proof.
  intros Hs He Ht. unfold handed, ran. rewrite He, Ht, take_app_le; [done|].
  pose proof (f_equal length (i_history s Hs)) as Hn. unfold EventLoop.history, ids in Hn.
  rewrite !length_app, length_map, length_seq in Hn. lia.
Qed.

Lemma connected_state c :
  TcpConnection.connected c = bool_decide (TcpConnection.state_ c = TcpConnection.kConnected).
Proof. done. Qed.

(** The messages that an event of the loop's thread accepts by a call of [send]. *)
Definition own_of (s : t) (e : TcpConnection.event) : list bytes :=
  match e with
  | TcpConnection.EvSend true _ m => if TcpConnection.connected (tcp s) then [m] else []
  | _ => []
  end.

Definition quiet_event (e : TcpConnection.event) : Prop :=
  match e with
  | TcpConnection.EvSend _ r _ => TcpConnection.fatal_errno r = false
  | TcpConnection.EvSendInLoop _ _ => False
  | _ => True
  end.

Lemma accepted_own s e :
  quiet_event e -> TcpConnection.accepted (tcp s) e = concat (own_of s e).
Proof.
  unfold TcpConnection.accepted, TcpConnection.sends, own_of.
  destruct e as [| | | | |[] r m| | | | | | | |]; try done. intros Hr. cbn [quiet_event] in Hr.
  destruct (TcpConnection.connected (tcp s)); [|done].
  rewrite Hr, andb_false_r. simpl. by rewrite app_nil_r.
Qed.

Lemma event_adds inLoop e s :
  inv s -> TcpConnection.event_ok (tcp s) e -> quiet_event e ->
  (inLoop = true -> EventLoop.in_user_code (loop s) = true) ->
  exists s' es, tcp_event inLoop e s = Ok (s', es) /\
    adds s es s' (own_of s e) [] (crossing (tcp s) e).
Proof.
  intros Hs He Hq Hu.
  destruct (tcp_event_spec inLoop e s Hs He Hu) as (s' & es & E & Hs' & Hx & Hr & (xs & Ht & Hm) & Hb).
  exists s', es. split; [done|]. split; try done.
  - rewrite app_nil_r. by eapply handed_more.
  - by rewrite Ht, messages_app, Hm.
  - intros _. exists (own_of s e). rewrite Hb, (accepted_own s e Hq). split; [done | apply merged_own].
Qed.

(** A functor that runs: the message it carries is handed over. *)
Definition carried (x : task) : list bytes := messages [x].

Lemma handed_next s x :
  inv s -> tasks s !! ran s = Some x ->
  messages (take (S (ran s)) (tasks s)) = handed s ++ carried x.
Proof. intros Hs Hx. unfold handed. by rewrite (take_S_r _ _ _ Hx), messages_app. Qed.

Lemma call_step s i fs :
  inv s -> EventLoop.pc_ (loop s) = EventLoop.PcCalling (i :: fs) ->
  let s1 := loop_step EventLoop.LCall s in
  inv s1 /\ ran s1 = S (ran s) /\ tasks s1 = tasks s /\ tcp s1 = tcp s /\
  EventLoop.in_user_code (loop s1) = true.
Proof.
  intros Hs E s1. pose proof Hs as [Hl Hst Hh Hwf Hup].
  destruct (EventLoop.step EventLoop.LCall (loop s)) as [l'|] eqn:El; [|by simpl in El; rewrite E in El].
  assert (s1 = set_loop l' s) as -> by (unfold s1, loop_step; by rewrite El).
  pose proof El as El'. simpl in El'. rewrite E in El'.
  split_and!; try done.
  - split; try done; cbn [set_loop loop].
    + by eapply EventLoop.inv_step; [exact Hl | exact El|].
    + intros Hp. by apply (EventLoop.step_start _ _ _ El) in Hp as [Hp _].
    + by rewrite (EventLoop.history_step _ _ _ El), app_nil_r, Hh.
  - injection El' as <-. unfold ran. cbn. rewrite length_app. simpl. lia.
  - by injection El' as <-.
Qed.

(** The next functor of a batch: it is the first that has not run; the message it
    carries, if any, is handed to the connection. *)
Lemma run_adds r s :
  inv s -> enabled (Run r) s -> TcpConnection.fatal_errno r = false ->
  exists s' es hs, step (Run r) s = Ok (s', es) /\ adds s es s' [] hs [].
Proof.
  intros Hs He Hr. cbn [step]. unfold enabled in He. cbn [event_of] in He.
  destruct (EventLoop.pc_ (loop s)) as [| | | |[|i fs]|] eqn:Epc;
    try (exists s, [], []; split; [done | by apply idle_adds]).
  destruct (next_functor s i fs Hs Epc) as [-> Hlt].
  destruct (call_step s _ fs Hs Epc) as (H1 & Hran & Ht & Hc & Hu). set (s1 := loop_step _ s) in *.
  rewrite Nat2Z.id in *. destruct (lookup_lt_is_Some_2 _ _ Hlt) as [x Hx]. rewrite Hx in *.
  assert (Hh1 : handed s1 = handed s ++ carried x).
  { unfold handed at 1. rewrite Hran, Ht. by apply handed_next. }
  assert (Hidle : carried x = [] -> adds s [] s1 [] [] []).
  { intros Hx0. split; rewrite ?Hh1, ?Hx0, ?Ht, ?Hc, ?app_nil_r; try done.
    intros _. exists []. simpl. rewrite app_nil_r. split; [done | constructor]. }
  destruct x as [f|]; [|exists s1, [], []; split; [done | by apply Hidle]].
  destruct (functor_event r f) as [e|] eqn:Ef; cbn [runs_event].
  2: { exists s1, [], []. split; [done|]. apply Hidle. by destruct f. }
  rewrite <- Hc in He. destruct (tcp_event_spec true e s1 H1 He (fun _ => Hu))
    as (s' & es & E & Hs' & Hx' & Hrank & (xs & Hxs & Hm) & Hb).
  exists s', es, (carried (Mine f)). split; [done|].
  assert (Hcr : crossing (tcp s1) e = []) by (destruct f; by simplify_eq/=).
  assert (Hacc : TcpConnection.state_ (tcp s1) <> TcpConnection.kDisconnected ->
    TcpConnection.accepted (tcp s1) e = concat (carried (Mine f))).
  { intros Hd. unfold TcpConnection.accepted, TcpConnection.sends.
    destruct f as [| | |m| | |]; simplify_eq/=; try done. unfold TcpConnection.disconnected, TcpConnection.is_state.
    rewrite bool_decide_eq_false_2 by done. rewrite Hr, andb_false_r. by rewrite app_nil_r. }
  split; try done.
  - by rewrite <- Hc.
  - rewrite (handed_more s1 s' xs H1 Hx' Hxs). exact Hh1.
  - by rewrite Hxs, messages_app, Hm, Hcr, Ht.
  - intros Hd. exists (carried (Mine f)). split; [|apply merged_other].
    rewrite Hb, Hc. f_equal. rewrite <- Hc. apply Hacc. intros Hk. rewrite Hk in Hrank.
    destruct (TcpConnection.state_ (tcp s')); simpl in Hrank; done || lia.
Qed.

(** A step of the loop that calls nothing and queues nothing. *)
Lemma free_adds el s :
  inv s -> free el = true \/ el = EventLoop.LEvent ->
  adds s [] (loop_step el s) [] [] [].
Proof.
  intros Hs Hel. unfold loop_step. destruct (EventLoop.step el (loop s)) as [l'|] eqn:E; [|by apply idle_adds].
  apply (loop_adds s el); [done | exact E | |].
  - destruct Hel as [Hel| ->]; [|done]. by destruct el.
  - apply (EventLoop.executed_step el _ _ E). intros ->. by destruct Hel.
Qed.

Lemma inv_handlers h s : inv s -> inv (set_handlers h s).
Proof. by intros []; split. Qed.

Lemma adds_handlers h s es s' own hs new :
  adds s es s' own hs new -> adds s es (set_handlers h s') own hs new.
Proof. intros []. split; try done. by apply inv_handlers. Qed.

(** The callbacks of the channel send nothing by themselves. *)
Lemma handle_adds rd w f s :
  inv s -> enabled (Handle rd w f) s -> (handlers s <> [] -> EventLoop.in_user_code (loop s) = true) ->
  exists s' es, step (Handle rd w f) s = Ok (s', es) /\ adds s es s' [] [] [].
Proof.
  intros Hs He Hu. cbn [step]. unfold enabled in He. cbn [event_of] in He.
  destruct (handlers s) as [|cb rest] eqn:Eh; [exists s, []; split; [done | by apply idle_adds]|].
  pose proof (inv_handlers rest s Hs) as H1.
  destruct (handler_event cb rd w f) as [e|] eqn:Ee; cbn [runs_event].
  2: { exists (set_handlers rest s), []. split; [done|]. by apply adds_handlers, idle_adds. }
  assert (quiet_event e /\ own_of s e = [] /\ crossing (tcp s) e = []) as (Hq & Ho & Hc)
    by (by destruct cb; simplify_eq/=).
  destruct (event_adds true e (set_handlers rest s) H1 He Hq) as (s' & es & E & [Ha]); [by intros _; apply Hu|].
  exists s', es. split; [done|]. change (own_of (set_handlers rest s) e) with (own_of s e) in *.
  change (tcp (set_handlers rest s)) with (tcp s) in *. rewrite Ho, Hc in *. by split.
Qed.

(** A call, when its thread can make it. *)
Lemma call_adds inLoop op s :
  inv s -> enabled (Call inLoop op) s -> sane (Call inLoop op) ->
  exists s' es, step (Call inLoop op) s = Ok (s', es) /\
    adds s es s' (sent_now true (Call inLoop op) s) [] (sent_now false (Call inLoop op) s).
Proof.
  intros Hs He Hsane. cbn [step]. unfold enabled in He. cbn [event_of] in He.
  destruct (negb inLoop || EventLoop.in_user_code (loop s)) eqn:Hu.
  - assert (Hq : quiet_event (api_event inLoop op)) by (by destruct op).
    destruct (event_adds inLoop (api_event inLoop op) s Hs He Hq) as (s' & es & E & Ha);
      [by intros ->|].
    exists s', es. split; [done|].
    assert (sent_now true (Call inLoop op) s = own_of s (api_event inLoop op)) as ->.
    { destruct op; try done. cbn [sent_now]. rewrite Hu. by destruct inLoop. }
    assert (sent_now false (Call inLoop op) s = crossing (tcp s) (api_event inLoop op)) as ->; [|done].
    destruct op; try done. cbn [sent_now]. rewrite Hu. by destruct inLoop.
  - exists s, []. split; [done|].
    assert (forall b, sent_now b (Call inLoop op) s = []) as E; [|rewrite !E; by apply idle_adds].
    intros b. destruct op; try done. cbn [sent_now]. by rewrite Hu, andb_false_r.
Qed.

(** While callbacks of the channel are left the loop is among its active channels. *)
Definition dispatching (s : t) : Prop :=
  handlers s <> [] -> exists active, EventLoop.pc_ (loop s) = EventLoop.PcEvents active.

Lemma dispatching_user s : dispatching s -> handlers s <> [] -> EventLoop.in_user_code (loop s) = true.
Proof. unfold EventLoop.in_user_code. intros H [active ->]%H. done. Qed.

Lemma step_adds l s :
  inv s -> dispatching s -> enabled l s -> sane l ->
  exists s' es hs, step l s = Ok (s', es) /\ adds s es s' (sent_now true l s) hs (sent_now false l s).
Proof.
  intros Hs Hd He Hsane. destruct l as [el|inLoop| |rd w f|r|inLoop op].
  - exists (if loop_step_ok el s then loop_step el s else s), [], []. split; [done|].
    destruct (loop_step_ok el s) eqn:E; [|by apply idle_adds].
    apply free_adds; [done|]. destruct el; try done; auto.
  - cbn [step]. eexists _, [], []. split; [done|].
    destruct (negb inLoop || EventLoop.in_user_code (loop s)) eqn:E; [|by apply idle_adds].
    destruct (post_spec inLoop Others s Hs) as [H1 E1]; [by intros ->|].
    split; rewrite ?app_nil_r; try done.
    + by apply (handed_more s _ [Others]).
    + cbn [post tasks]. by rewrite messages_app, app_nil_r.
    + intros _. exists []. simpl. rewrite app_nil_r. split; [done | constructor].
  - cbn [step]. destruct (next_channel s) as [[ch revents]|]; [|exists s, [], []; split; [done | by apply idle_adds]].
    eexists _, [], []. split; [done|]. destruct (is_mine s ch); [|by apply idle_adds].
    apply adds_handlers, free_adds; auto.
  - destruct (handle_adds rd w f s Hs He (dispatching_user s Hd)) as (s' & es & E & Ha).
    by exists s', es, [].
  - destruct (run_adds r s Hs He Hsane) as (s' & es & hs & E & Ha). by exists s', es, hs.
  - destruct (call_adds inLoop op s Hs He Hsane) as (s' & es & E & Ha). by exists s', es, [].
Qed.

Lemma tcp_event_frame inLoop e s s' es :
  tcp_event inLoop e s = Ok (s', es) ->
  handlers s' = handlers s /\ EventLoop.pc_ (loop s') = EventLoop.pc_ (loop s).
Proof.
  unfold tcp_event. intros ([[[] c] es1] & _ & [= <- _])%obind_Ok.
  apply (posts_frame inLoop _ (set_tcp c s)).
Qed.

Lemma runs_event_frame oe s s' es :
  runs_event oe s = Ok (s', es) ->
  handlers s' = handlers s /\ EventLoop.pc_ (loop s') = EventLoop.pc_ (loop s).
Proof. destruct oe; [apply tcp_event_frame | by intros [= <- _]]. Qed.

Lemma step_dispatching l s s' es : dispatching s -> step l s = Ok (s', es) -> dispatching s'.
Proof.
  unfold dispatching. intros Hd E.
  assert (Hframe : handlers s' = handlers s /\ EventLoop.pc_ (loop s') = EventLoop.pc_ (loop s) ->
    handlers s' <> [] -> exists active, EventLoop.pc_ (loop s') = EventLoop.PcEvents active)
    by (intros [-> ->]; done).
  destruct l as [el|inLoop| |rd w f|r|inLoop op]; cbn [step] in E.
  - injection E as <- <-. destruct (loop_step_ok el s) eqn:Eok; [|done].
    unfold loop_step. destruct (EventLoop.step el (loop s)) as [l'|] eqn:El; [|done].
    cbn [set_loop handlers loop]. intros Hh. destruct (Hd Hh) as [active Hp].
    destruct el; simpl in Eok, El; rewrite ?Hp in El; try done.
    + unfold next_channel in Eok. rewrite Hp in Eok. by destruct active, (handlers s).
    + by rewrite bool_decide_eq_false_2 in Eok.
    + destruct (EventLoop.in_user_code (loop s)); [|done]. injection El as <-. eauto.
    + injection El as <-. eauto.
    + destruct (EventLoop.owed (loop s)); [done|]. injection El as <-. exists active.
      unfold EventLoop.wakeup. by destruct (_ <? _).
  - injection E as <- <-. destruct (_ || _); [|done]. apply Hframe. split; [done | apply pc_post].
  - unfold next_channel in E. destruct (EventLoop.pc_ (loop s)) as [| | |[|[ch rev] active]| |] eqn:Hp;
      try (by injection E as <- <-; rewrite Hp).
    destruct (handlers s) eqn:Hh; [|by injection E as <- <-; rewrite Hh, Hp].
    injection E as <- <-. destruct (is_mine s ch); [|by rewrite Hh].
    intros _. exists active. unfold loop_step. simpl. by rewrite Hp.
  - destruct (handlers s) as [|cb rest] eqn:Hh; [injection E as <- <-; by rewrite Hh|].
    apply runs_event_frame in E as [_ Hp]. intros _. rewrite Hp. by apply Hd.
  - destruct (EventLoop.pc_ (loop s)) as [| | | |[|i fs]|] eqn:Hp; try (by injection E as <- <-; rewrite Hp).
    intros Hh. exfalso. assert (handlers s <> []) as Hne; [|by destruct (Hd Hne)].
    assert (handlers s' = handlers (loop_step EventLoop.LCall s)) as Heq.
    { destruct (tasks s !! Z.to_nat i) as [[g|]|]; [|by injection E as <- _..].
      by apply runs_event_frame in E as [-> _]. }
    rewrite Heq in Hh. unfold loop_step in Hh. by destruct (EventLoop.step _ _).
  - destruct (_ || _); [|by injection E as <- <-]. by apply Hframe, (tcp_event_frame inLoop (api_event inLoop op) s s' es).
Qed.

(** ** Runs *)

Lemma run_adds_all ls : forall s,
  inv s -> dispatching s -> run_enabled ls s -> Forall sane ls ->
  exists s' es hs, run ls s = Ok (s', es) /\ adds s es s' (sent true ls s) hs (sent false ls s).
Proof.
  induction ls as [|l ls IH]; intros s Hs Hd Hen Hsane.
  { exists s, [], []. split; [done | by apply idle_adds]. }
  destruct Hen as [He Hen]. apply Forall_cons in Hsane as [Hl Hsane].
  destruct (step_adds l s Hs Hd He Hl) as (s1 & e1 & h1 & E1 & A1).
  rewrite E1 in Hen. pose proof A1 as [Hs1 R1 H1 Q1 O1].
  destruct (IH s1 Hs1 (step_dispatching _ _ _ _ Hd E1) Hen Hsane) as (s2 & e2 & h2 & E2 & [Hs2 R2 H2 Q2 O2]).
  exists s2, (e1 ++ e2), (h1 ++ h2). cbn [run sent]. rewrite E1. cbn [obind]. rewrite E2. cbn [obind].
  split; [done|]. split; [done | lia | by rewrite H2, H1, app_assoc | by rewrite Q2, Q1, app_assoc |].
  intros Hnd. destruct (O2 Hnd) as (o2 & B2 & M2). destruct O1 as (o1 & B1 & M1).
  { intros Hk. rewrite Hk in R2. destruct (TcpConnection.state_ (tcp s2)); simpl in R2; done || lia. }
  exists (o1 ++ o2). split; [|by apply merged_app].
  rewrite TcpConnection.written_app, <- app_assoc, B2, app_assoc, B1, <- app_assoc. by rewrite concat_app.
Qed.

(** A loop that sleeps has no functor left. *)
Lemma sleeps_waiting s : inv s -> sleeps s -> waiting s = [].
Proof.
  intros Hs (Hp & Ho & Hw). pose proof (EventLoop.inv_pending _ (i_loop s Hs)) as Hpend. rewrite Hp in Hpend.
  pose proof (i_history s Hs) as Hh. unfold EventLoop.history, EventLoop.batch in Hh. rewrite Hp in Hh.
  assert (EventLoop.pendingFunctors_ (loop s) = []) as E.
  { destruct (EventLoop.pendingFunctors_ (loop s)); [done|]. by destruct Hpend as [|[]]. }
  rewrite E, !app_nil_r in Hh. apply (f_equal length) in Hh. unfold ids in Hh.
  rewrite length_map, length_seq in Hh. unfold waiting, ran. by rewrite Hh, drop_all.
Qed.

(** ** Properties *)

(** C5. Messages sent from several threads: in every interleaving of the loop's thread,
    the callbacks of the channel and calls from other threads, as long as the connection
    stays up and its socket does not break, the bytes written to the socket followed by
    those still in the output buffer are whole messages: those sent on the loop's thread, in
    the order of the calls, merged with those sent by other threads, in the order of the
    calls; of the latter a tail may still wait in the queue of the loop, and there is none
    when the loop sleeps. *)
Theorem cross_thread_sends_in_order (ls0 : list EventLoop.label) (l0 : EventLoop.t) (n : nat)
    (c : TcpConnection.t) (ls : list label) :
  EventLoop.exec ls0 EventLoop.make = Some l0 -> EventLoop.no_early_queue ls0 = true ->
  EventLoop.pc_ l0 <> EventLoop.PcStart -> EventLoop.queued ls0 = ids n ->
  TcpConnection.wf c -> TcpConnection.state_ c = TcpConnection.kConnected ->
  let s := mk l0 c (replicate n Others) [] in
  run_enabled ls s -> Forall sane ls ->
  exists s' es, run ls s = Ok (s', es) /\
    (TcpConnection.state_ (tcp s') <> TcpConnection.kDisconnected ->
     exists handed waiting out, sent false ls s = handed ++ waiting /\
       merged (sent true ls s) handed out /\
       TcpConnection.written es ++ Buffer.contents (TcpConnection.outputBuffer_ (tcp s')) =
         Buffer.contents (TcpConnection.outputBuffer_ c) ++ concat out /\
       (sleeps s' -> waiting = [])).
Proof.
  intros Hl0 Hearly Hpc Hq Hwf Hst s Hen Hsane.
  assert (Hnone : forall k, messages (replicate k Others) = []) by (by induction k).
  assert (Hs : inv s).
  { split; subst s; cbn [loop tcp tasks]; [|done| |done|by rewrite Hst].
    - by eapply (EventLoop.inv_exec ls0); [apply EventLoop.inv_make | intros _ | exact Hl0].
    - rewrite (EventLoop.history_exec _ _ _ Hl0), Hq, length_replicate. done. }
  destruct (run_adds_all ls s Hs) as (s' & es & hs & E & [Hs' _ Hh Hm Ho]); [by intros []|done..|].
  exists s', es. split; [done|]. intros Hd. destruct (Ho Hd) as (out & Hb & Hmerge).
  assert (handed s = []) as Eh.
  { unfold handed. subst s. cbn [tasks]. by rewrite take_replicate, Hnone. }
  rewrite Eh in Hh. cbn [app] in Hh. exists hs, (waiting s'), out. split_and!; [|done..|by apply sleeps_waiting].
  rewrite <- Hh, handed_waiting, Hm. subst s. cbn [tasks]. by rewrite Hnone.
Qed.

(** Another thread sends a message; a read of the connection makes the loop's thread send
    one and comes before the functor; a third message is queued during the events. *)
Definition fd7 : EventLoop.chan := EventLoop.Other 7.

Definition looping : list EventLoop.label := [EventLoop.TPush 0; EventLoop.TWake; EventLoop.LStart; EventLoop.LTest].

Definition looping_loop : EventLoop.t :=
  default EventLoop.make (EventLoop.exec looping EventLoop.make).

Definition test_labels : list label :=
  [Call false (Send (SysErr EAGAIN) (str "ab")); Loop EventLoop.TWake;
   Loop (EventLoop.LPoll (Some [(fd7, Channel.EPOLLIN); (EventLoop.Wakeup, Channel.EPOLLIN)]));
   Dispatch; Handle (Buffer.ReadvOk (str "GET") []) (SysOk 0) (SysOk 0);
   Call true (Send (SysOk 1) (str "cd")); Call false (Send (SysErr EAGAIN) (str "ef"));
   Loop EventLoop.TWake; Loop EventLoop.LEvent; Loop EventLoop.LSwap;
   Run (SysOk 0); Run (SysOk 0); Run (SysOk 0); Loop EventLoop.LEnd; Loop EventLoop.LTest].

Definition test_start : t := mk looping_loop TcpConnection.test_up (replicate 1 Others) [].

Lemma test_labels_enabled : run_enabled test_labels test_start.
Proof.
  TcpConnection.concrete_run. split; try done; vm_compute; discriminate.
Qed.

Lemma cross_thread_sends_in_order_witness :
  exists s' es, run test_labels test_start = Ok (s', es) /\
    sleeps s' /\ sent true test_labels test_start = [str "cd"] /\
    sent false test_labels test_start = [str "ab"; str "ef"] /\
    exists out, merged [str "cd"] [str "ab"; str "ef"] out /\
      TcpConnection.written es ++ Buffer.contents (TcpConnection.outputBuffer_ (tcp s')) = concat out.
Proof.
  destruct (cross_thread_sends_in_order looping looping_loop 1 TcpConnection.test_up test_labels)
    as (s' & es & E & H);
    [vm_compute; reflexivity | reflexivity | vm_compute; discriminate | reflexivity
    | apply TcpConnection.test_up_wf | reflexivity | apply test_labels_enabled
    | repeat constructor |].
  exists s', es. split; [exact E|].
  change (mk looping_loop TcpConnection.test_up (replicate 1 Others) []) with test_start in *.
  assert (Hs : sleeps s' /\ TcpConnection.state_ (tcp s') = TcpConnection.kConnected).
  { vm_compute in E. injection E as <- <-. unfold sleeps, EventLoop.wakeup_ready. vm_compute.
    split_and!; [reflexivity | reflexivity | discriminate | reflexivity]. }
  destruct Hs as [Hsl Hst]. split; [exact Hsl|]. split; [vm_compute; reflexivity|].
  split; [vm_compute; reflexivity|].
  destruct H as (handed & waiting & out & Hq & Hm & Hw & Hsleep); [by rewrite Hst|].
  exists out. rewrite (Hsleep Hsl), app_nil_r in Hq. rewrite <- Hq in Hm. split; [exact Hm | exact Hw].
Defined.

(** ** What the code does not guard against *)

(** A thread sends a message and then calls [shutdown], while an earlier one is still in the
    output buffer.  [shutdown] sets the state at once, and the loop, which finds the socket
    writable, empties the buffer and half-closes the socket before it comes to the functor
    of the message: the message is lost. *)
Definition overtaking : list label :=
  [Call false (Send (SysErr EAGAIN) (str "first")); Loop EventLoop.TWake;
   Loop (EventLoop.LPoll (Some [(EventLoop.Wakeup, Channel.EPOLLIN)])); Loop EventLoop.LEvent;
   Loop EventLoop.LSwap; Run (SysOk 0); Run (SysOk 2); Loop EventLoop.LEnd; Loop EventLoop.LTest;
   Call false (Send (SysErr EAGAIN) (str "second")); Call false Shutdown;
   Loop (EventLoop.LPoll (Some [(fd7, Channel.EPOLLOUT)])); Dispatch;
   Handle (Buffer.ReadvErr EAGAIN) (SysOk 3) (SysOk 0); Loop EventLoop.LSwap;
   Run (SysErr EPIPE); Run (SysErr EPIPE); Loop EventLoop.LEnd].

Theorem shutdown_overtakes_send :
  match run overtaking test_start with
  | Ok (s, es) =>
      sent false overtaking test_start = [str "first"; str "second"] /\
      TcpConnection.written es = str "first" /\ waiting s = [] /\
      Buffer.contents (TcpConnection.outputBuffer_ (tcp s)) = [] /\
      TcpConnection.state_ (tcp s) = TcpConnection.kDisconnecting
  | Fault _ => False
  end.
Proof. vm_compute. split_and!; reflexivity. Qed.

End CrossThread.
