(* ===== verification/EventLoopThread.v ===== *)
(** * EventLoopThread: src/src/pool/EventLoopThread.{h,cpp}

    The owner of an [EventLoopThread] (its constructor, [startLoop] and destructor) and
    the new thread ([threadFunc]) interleave; each is at a program point, and a label is
    one atomic step of one of them, of the loop that [threadFunc] runs (an [EventLoop.t]),
    or of a third thread that uses the loop.  An object used outside of its lifetime (the
    loop, which is a local variable of [threadFunc], or the [EventLoopThread] itself) is a
    fault. *)

From S2P Require Import Prelude Channel Duration TimerQueue EventLoop Thread.

Module EventLoopThread.

(** Where the owner is. *)
Inductive owner_pc :=
| OInit                (** constructed *)
| OLock                (** in [startLoop], after [thread_.start()] *)
| OTest                (** [while (loop_ == nullptr)], holding the mutex *)
| OWait                (** in [cond_.wait], which has released the mutex *)
| OWoken               (** [cond_.wait] has to lock the mutex again *)
| OReturned            (** [startLoop] has returned the pointer *)
| ODtor                (** in the destructor, before [exiting_ = true] *)
| OTestLoop            (** [if (loop_ != nullptr)] *)
| OQuit                (** [loop_->quit()]: [quit_ = true] *)
| OWake                (** [loop_->quit()]: the wakeup *)
| OJoin                (** [thread_.join()] *)
| OMembers             (** the members are destroyed *)
| ODead.

(** Where [threadFunc] is. *)
Inductive worker_pc :=
| WNone                (** the thread does not run yet *)
| WMake                (** [EventLoop loop;] *)
| WCallback            (** [callback_(&loop)] *)
| WLock | WSet | WNotify | WUnlock
| WLoop                (** in [loop.loop()] *)
| WLock2 | WClear | WUnlock2
| WDestroy             (** [loop] is destroyed *)
| WEnd.

#[export] Instance owner_pc_eq_dec : EqDecision owner_pc.
Proof. solve_decision. Defined.
#[export] Instance worker_pc_eq_dec : EqDecision worker_pc.
Proof. solve_decision. Defined.

Inductive who := Owner | Worker.

#[export] Instance who_eq_dec : EqDecision who.
Proof. solve_decision. Defined.

Record t := mk {
  loop_ : bool;                  (** [loop_] points to the loop of [threadFunc] *)
  exiting_ : bool;
  thread_ : Thread.t;
  mutex_ : option who;           (** who holds it *)
  loop : option EventLoop.t;     (** the local variable, while it is alive *)
  called : bool;                 (** the init callback, if there is one, has been called *)
  result : option bool;          (** what [startLoop] returned: whether not null *)
  owner : owner_pc;
  worker : worker_pc;
}.

(** The constructor. *)
Definition make (name : bytes) (numCreated : Z) : t :=
  mk false false (Thread.make name numCreated).1 None None false None OInit WNone.

Definition set_owner (p : owner_pc) (s : t) : t :=
  mk (loop_ s) (exiting_ s) (thread_ s) (mutex_ s) (loop s) (called s) (result s) p (worker s).
Definition set_worker (p : worker_pc) (s : t) : t :=
  mk (loop_ s) (exiting_ s) (thread_ s) (mutex_ s) (loop s) (called s) (result s) (owner s) p.
Definition set_loop_ (b : bool) (s : t) : t :=
  mk b (exiting_ s) (thread_ s) (mutex_ s) (loop s) (called s) (result s) (owner s) (worker s).
Definition set_exiting (b : bool) (s : t) : t :=
  mk (loop_ s) b (thread_ s) (mutex_ s) (loop s) (called s) (result s) (owner s) (worker s).
Definition set_thread (x : Thread.t) (s : t) : t :=
  mk (loop_ s) (exiting_ s) x (mutex_ s) (loop s) (called s) (result s) (owner s) (worker s).
Definition set_mutex (m : option who) (s : t) : t :=
  mk (loop_ s) (exiting_ s) (thread_ s) m (loop s) (called s) (result s) (owner s) (worker s).
Definition set_loop (l : option EventLoop.t) (s : t) : t :=
  mk (loop_ s) (exiting_ s) (thread_ s) (mutex_ s) l (called s) (result s) (owner s) (worker s).
Definition set_called (s : t) : t :=
  mk (loop_ s) (exiting_ s) (thread_ s) (mutex_ s) (loop s) true (result s) (owner s) (worker s).
Definition set_result (r : bool) (s : t) : t :=
  mk (loop_ s) (exiting_ s) (thread_ s) (mutex_ s) (loop s) (called s) (Some r) (owner s) (worker s).

Inductive label :=
| LStartLoop                   (** the owner calls [startLoop] *)
| LDestroy                     (** the owner's destructor is entered *)
| LOwner                       (** the next step of the owner *)
| LWorker                      (** the next step of [threadFunc] *)
| LLoop (l : EventLoop.label)  (** a step of [loop.loop()], or another thread's on the loop *)
| LSpurious.                   (** [cond_.wait] wakes up without a notification *)

(** What a step does: [None] when it cannot happen now. *)
Definition result_of := option (outcome t).
Definition goes (s : t) : result_of := Some (Ok s).

(** The operations on the member [thread_]. *)
Definition on_thread (m : Thread.M unit) (s : t) (k : t -> t) : result_of :=
  Some (let! (_, x, _) := m (thread_ s) in Ok (k (set_thread x s))).

(** A use of the loop through [loop_]. *)
Definition on_loop (f : EventLoop.t -> EventLoop.t) (s : t) (k : t -> t) : result_of :=
  match loop s with
  | Some l => goes (k (set_loop (Some (f l)) s))
  | None => Some (Fault DanglingPointer)
  end.

Definition startLoop (s : t) : result_of :=
  match owner s with
  | OInit => on_thread Thread.start s (fun s => set_owner OLock (set_worker WMake s))
  | _ => None
  end.

(** The owner's next step. *)
Definition owner_step (s : t) : result_of :=
  match owner s with
  | OInit | OReturned | OWait | ODead => None
  | OLock | OWoken =>
      match mutex_ s with
      | None => goes (set_owner OTest (set_mutex (Some Owner) s))
      | Some _ => None
      end
  | OTest =>
      if loop_ s then goes (set_owner OReturned (set_result true (set_mutex None s)))
      else goes (set_owner OWait (set_mutex None s))
  | ODtor => goes (set_owner OTestLoop (set_exiting true s))
  | OTestLoop => goes (set_owner (if loop_ s then OQuit else OMembers) s)
  | OQuit => on_loop EventLoop.quit_other s (set_owner OWake)
  | OWake =>
      match loop s with
      | Some l =>
          match EventLoop.step EventLoop.TWake l with
          | Some l => goes (set_owner OJoin (set_loop (Some l) s))
          | None => None
          end
      | None => Some (Fault DanglingPointer)
      end
  | OJoin =>
      if bool_decide (worker s = WEnd)
      then on_thread Thread.join s (set_owner OMembers)
      else None
  | OMembers => on_thread Thread.destroy s (set_owner ODead)
  end.

(** A step of [threadFunc] that uses a member of the [EventLoopThread]. *)
Definition member (s : t) (r : result_of) : result_of :=
  if bool_decide (owner s = ODead) then Some (Fault DanglingPointer) else r.

Definition lock (s : t) (k : t -> t) : result_of :=
  match mutex_ s with
  | None => goes (k (set_mutex (Some Worker) s))
  | Some _ => None
  end.

(** [cond_.notify_one()] wakes the owner when it waits. *)
Definition notify_one (s : t) : t :=
  if bool_decide (owner s = OWait) then set_owner OWoken s else s.

(** The next step of [threadFunc]. *)
Definition threadFunc (s : t) : result_of :=
  match worker s with
  | WNone | WEnd => None
  | WMake => goes (set_worker WCallback (set_loop (Some EventLoop.make) s))
  | WCallback => member s (goes (set_worker WLock (set_called s)))
  | WLock => member s (lock s (set_worker WSet))
  | WSet => member s (goes (set_worker WNotify (set_loop_ true s)))
  | WNotify => member s (goes (set_worker WUnlock (notify_one s)))
  | WUnlock => member s (goes (set_worker WLoop (set_mutex None s)))
  | WLoop =>
      match loop s with
      | Some l =>
          match EventLoop.pc_ l with
          | EventLoop.PcDone => goes (set_worker WLock2 s)
          | _ => None
          end
      | None => None
      end
  | WLock2 => member s (lock s (set_worker WClear))
  | WClear => member s (goes (set_worker WUnlock2 (set_loop_ false s)))
  | WUnlock2 => member s (goes (set_worker WDestroy (set_mutex None s)))
  | WDestroy => goes (set_worker WEnd (set_loop None s))
  end.

(** The steps of [loop.loop()] happen in it; user code of the loop's thread can also run
    in the init callback; other threads use the loop while it is alive (the last wakeup
    that is owed is the owner's when it is in [quit]). *)
Definition loop_step (l : EventLoop.label) (s : t) : result_of :=
  match loop s with
  | None => None
  | Some x =>
      let here :=
        match l with
        | EventLoop.TPush _ | EventLoop.TQuit => true
        | EventLoop.TWake => negb (bool_decide (owner s = OWake /\ EventLoop.owed x = 1%nat))
        | EventLoop.LQueue _ | EventLoop.LQuit =>
            bool_decide (worker s = WCallback) || bool_decide (worker s = WLoop)
        | _ => bool_decide (worker s = WLoop)
        end in
      if here then x ← EventLoop.step l x; goes (set_loop (Some x) s) else None
  end.

Definition step (l : label) (s : t) : result_of :=
  match l with
  | LStartLoop => startLoop s
  | LDestroy =>
      match owner s with OInit | OReturned => goes (set_owner ODtor s) | _ => None end
  | LOwner => owner_step s
  | LWorker => threadFunc s
  | LLoop l => loop_step l s
  | LSpurious => match owner s with OWait => goes (set_owner OWoken s) | _ => None end
  end.

Fixpoint exec (ls : list label) (s : t) : result_of :=
  match ls with
  | [] => goes s
  | l :: ls =>
      match step l s with
      | Some (Ok s) => exec ls s
      | r => r
      end
  end.

(** Nobody but the destructor makes the loop quit. *)
Definition no_quit (l : label) : bool :=
  match l with LLoop (EventLoop.LQuit | EventLoop.TQuit) => false | _ => true end.

(** The owner has not entered the destructor. *)
Definition in_use (s : t) : Prop :=
  match owner s with OInit | OLock | OTest | OWait | OWoken | OReturned => True | _ => False end.

(** ** The invariant of the handshake *)

(** [threadFunc] holds the mutex. *)
Definition worker_locked (w : worker_pc) : bool :=
  match w with WSet | WNotify | WUnlock => true | _ => false end.

(** It has stored the pointer. *)
Definition worker_set (w : worker_pc) : bool :=
  match w with WNotify | WUnlock | WLoop => true | _ => false end.

(** It has called the init callback. *)
Definition worker_called (w : worker_pc) : bool :=
  match w with WNone | WMake | WCallback => false | _ => true end.

(** Who holds the mutex. *)
Definition holder (o : owner_pc) (w : worker_pc) : option who :=
  match o with
  | OTest => Some Owner
  | _ => if worker_locked w then Some Worker else None
  end.

(** The loop, while nobody made it quit: it is not left. *)
Definition running (x : EventLoop.t) : Prop :=
  EventLoop.quit_ x = false /\ EventLoop.pc_ x <> EventLoop.PcDone.

(** Where the two threads can be together, before the destructor and as long as nobody
    makes the loop quit. *)
Definition together (o : owner_pc) (w : worker_pc) : bool :=
  match o, w with
  | OInit, WNone => true
  | OInit, _ | _, WNone => false
  | _, (WLock2 | WClear | WUnlock2 | WDestroy | WEnd) => false
  | OTest, _ => negb (worker_locked w)
  | OWait, (WUnlock | WLoop) => false
  | OReturned, WLoop => true
  | OReturned, _ => false
  | (OLock | OWait | OWoken), _ => true
  | _, _ => false
  end.

Record inv (s : t) : Prop := {
  inv_together : together (owner s) (worker s) = true;
  inv_mutex : mutex_ s = holder (owner s) (worker s);
  inv_loop_ : loop_ s = worker_set (worker s);
  inv_called : called s = worker_called (worker s);
  inv_result : result s = if decide (owner s = OReturned) then Some true else None;
  inv_loop : match worker s with
    | WNone | WMake => loop s = None
    | _ => exists x, loop s = Some x /\ running x
    end;
}.

Lemma elt_make name n : inv (make name n).
Proof. by split. Qed.

(** A step of the loop, or of another thread on it, that does not make it quit. *)
Lemma running_step l x x' :
  no_quit (LLoop l) = true -> running x -> EventLoop.step l x = Some x' -> running x'.
Proof.
  intros Hl [Hq Hp] H. unfold running.
  destruct l; simpl in *; try discriminate Hl;
    repeat match goal with
    | H : context [match ?y with _ => _ end] |- _ => destruct y eqn:?; try discriminate H
    end; simplify_eq; unfold EventLoop.queueInLoop, EventLoop.queueInLoop_other, EventLoop.wakeup;
    repeat (case_match; simplify_eq); EventLoop.fields; try (split; [congruence|done || congruence]).
  - by rewrite Hq in *.
  - split; [|done]. destruct p as [[|fd] r]; simpl; [by case_bool_decide | done].
  - by split.
  - by split.
  - by split.
  - by split.
Qed.

(** A step keeps the invariant, and none is a fault. *)
Lemma elt_step l s r :
  l <> LDestroy -> no_quit l = true -> inv s -> step l s = Some r -> exists s', r = Ok s' /\ inv s'.
Proof.
  intros Hd Hq [Ht Hm Hp Hc Hr Hl]. destruct s as [lp ex th mu lo ca re ow wo]. cbn in *. subst.
  destruct l as [| | | |l|]; [|done| | | |]; cbn.
  - destruct ow, wo; try done. cbn. intros [= <-]. eexists. split; [done|]. by split.
  - destruct ow, wo; try done; cbn; intros [= <-]; eexists; (split; [done|]); by split.
  - destruct ow, wo; try done; cbn in *.
    all: try (destruct Hl as (x & -> & Hx)).
    all: try match goal with |- context [EventLoop.pc_ ?x] => destruct Hx as [_ Hx]; by destruct (EventLoop.pc_ x) end.
    all: intros [= <-]; eexists; (split; [done|]); split; cbn; eauto.
    all: by exists EventLoop.make.
  - unfold loop_step. cbn. destruct lo as [x|]; [|done]. 
    destruct (match l with EventLoop.LStart => _ | _ => _ end); [|done].
    destruct (EventLoop.step l x) as [x'|] eqn:E; [|done]. cbn. intros [= <-].
    eexists. split; [done|]. split; cbn; try done.
    destruct wo; try done; destruct Hl as (? & [= <-] & Hx); eexists; (split; [done|]); by eapply running_step.
  - destruct ow, wo; try done; cbn; intros [= <-]; eexists; (split; [done|]); by split.
Qed.

(** The labels of a run in which nobody but the destructor makes the loop quit, and the
    destructor has not been entered. *)
Definition handshake (ls : list label) : Prop :=
  Forall (fun l => l <> LDestroy /\ no_quit l = true) ls.

Lemma elt_exec ls : forall s r,
  handshake ls -> inv s -> exec ls s = Some r -> exists s', r = Ok s' /\ inv s'.
Proof.
  induction ls as [|l ls IH]; intros s r Hls Hs H; simpl in H.
  - unfold goes in H. simplify_eq. eauto.
  - apply Forall_cons in Hls as [[Hd Hq] Hls].
    destruct (step l s) as [r1|] eqn:E; [|done].
    destruct (elt_step l s r1 Hd Hq Hs E) as (s1 & -> & Hs1). by eapply IH.
Qed.

(** The owner is in [startLoop]. *)
Definition starting (s : t) : Prop :=
  match owner s with OLock | OTest | OWait | OWoken => True | _ => False end.

(** How many steps of the two threads are left until [startLoop] returns, at most. *)
Definition owner_rank (s : t) : nat :=
  match owner s with
  | OLock | OWoken => if loop_ s then 2 else 5
  | OTest => if loop_ s then 1 else 4
  | OWait => 3
  | _ => 0
  end.
Definition worker_rank (s : t) : nat :=
  match worker s with
  | WMake => 6 | WCallback => 5 | WLock => 4 | WSet => 3 | WNotify => 2 | WUnlock => 1
  | _ => 0
  end.
Definition remaining (s : t) : nat := owner_rank s + worker_rank s.

(** The run in which the destructor's [quit] comes before [loop()] is entered. *)
Definition early_quit : list label :=
  [LStartLoop; LOwner; LOwner; LWorker; LWorker; LWorker; LWorker; LWorker; LWorker; LOwner; LOwner;
   LDestroy; LOwner; LOwner; LOwner; LOwner; LLoop EventLoop.LStart].

(** The loop was told to quit, and has forgotten it. *)
Record forgotten (s : t) : Prop := {
  fg_owner : owner s = OJoin;
  fg_worker : worker s = WLoop;
  fg_loop : exists x, loop s = Some x /\ running x /\ EventLoop.pc_ x <> EventLoop.PcStart;
}.

Lemma forgotten_step l s r :
  no_quit l = true -> forgotten s -> step l s = Some r -> exists s', r = Ok s' /\ forgotten s'.
Proof.
  intros Hq [Ho Hw (x & Hx & Hr & Hp)] H.
  destruct l as [| | | |l|]; simpl in H; unfold startLoop, owner_step, threadFunc in H;
    rewrite ?Ho, ?Hw, ?Hx in H; try discriminate H.
  - destruct Hr as [_ Hr]. by destruct (EventLoop.pc_ x).
  - unfold loop_step in H. rewrite Hx in H.
    destruct (match l with EventLoop.LStart => _ | _ => _ end); [|done].
    destruct (EventLoop.step l x) as [x'|] eqn:E; [|done]. simpl in H. unfold goes in H. simplify_eq.
    eexists. split; [done|]. split; simpl; [done..|]. exists x'. split_and!; [done|by eapply running_step|].
    intros Hs. destruct l; simpl in E; try discriminate Hq;
      repeat match goal with
      | H : context [match ?y with _ => _ end] |- _ => destruct y eqn:?; try discriminate H
      end; simplify_eq; unfold EventLoop.queueInLoop, EventLoop.queueInLoop_other, EventLoop.wakeup in Hs;
      repeat (case_match; simplify_eq); EventLoop.fields; try congruence.
Qed.

(** The state it leads to: the eventfd is readable, but [quit_] is not set. *)
Definition forgotten_state (th : Thread.t) : t :=
  mk true true (Thread.mk (Thread.name_ th) true (Thread.joined_ th) true) None
     (Some (EventLoop.mk true false false [] 1 EventLoop.PcTest 0 [])) true (Some true) OJoin WLoop.

Lemma early_quit_run th :
  exec early_quit (mk false false th None None false None OInit WNone) =
    Some (Ok (forgotten_state th)).
Proof. vm_compute. reflexivity. Qed.

Lemma forgotten_state_ok th : forgotten (forgotten_state th).
Proof. split; [done..|]. eexists. by split_and!. Qed.

(** ** Properties *)

(** C34. The handshake is safe: in every run before the destructor in which nobody makes
    the loop quit, no step is a fault, the mutex is held by one thread at a time, and once
    [startLoop] has returned, its pointer is not null and points to the loop, which is
    alive, was passed to the init callback, and is being run by the new thread. *)
Theorem startLoop_returns_live_loop (name : bytes) (numCreated : Z) (ls : list label) (r : outcome t) :
  handshake ls ->
  exec ls (make name numCreated) = Some r ->
  exists s, r = Ok s /\
    ~ (owner s = OTest /\ worker_locked (worker s) = true) /\
    (owner s = OReturned ->
       result s = Some true /\ loop_ s = true /\ called s = true /\ worker s = WLoop /\
       exists x, loop s = Some x /\ EventLoop.pc_ x <> EventLoop.PcDone).
Proof.
  intros Hls H. destruct (elt_exec ls _ r Hls (elt_make name numCreated) H) as (s & -> & [Ht Hm Hp Hc Hr Hl]).
  exists s. split; [done|]. destruct s as [lp ex th mu lo ca re ow wo]. cbn in *. subst. split.
  - intros [-> E]. by destruct wo.
  - intros ->. destruct wo; try done. destruct Hl as (x & -> & _ & ?). eauto 10.
Qed.

(** C33. [startLoop] returns: in every such run, while it has not returned, one of the two
    threads can take a step (there is no deadlock and no lost notification), and every
    step either of them takes, except a spurious wakeup, brings the return nearer; at
    most 11 are needed. *)
Theorem startLoop_returns (name : bytes) (numCreated : Z) (ls : list label) (s : t) :
  handshake ls ->
  exec ls (make name numCreated) = Some (Ok s) ->
  starting s ->
  (remaining s <= 11)%nat /\
  (exists l s', (l = LOwner \/ l = LWorker) /\ step l s = Some (Ok s')) /\
  forall l s', l = LOwner \/ l = LWorker -> step l s = Some (Ok s') ->
    (remaining s' < remaining s)%nat /\ (starting s' \/ owner s' = OReturned).
Proof.
  intros Hls H Hst. destruct (elt_exec ls _ _ Hls (elt_make name numCreated) H) as (s' & [= <-] & [Ht Hm Hp Hc Hr Hl]).
  clear H. unfold starting, remaining, owner_rank, worker_rank in *.
  destruct s as [lp ex th mu lo ca re ow wo]. cbn in *. subst.
  split; [|split].
  - destruct ow, wo; simpl in *; try done; lia.
  - destruct ow, wo; try done; try (destruct Hl as (x & -> & Hx));
      first [by exists LOwner; eexists; split; [by left|reflexivity]
            |by exists LWorker; eexists; split; [by right|reflexivity]].
  - intros l s' [-> | ->]; destruct ow, wo; try done; cbn;
      try (destruct Hl as (x & -> & _ & Hx); try (by destruct (EventLoop.pc_ x)));
      intros [= <-]; unfold notify_one; cbn; try rewrite bool_decide_eq_true_2 by done;
      try rewrite bool_decide_eq_false_2 by done; cbn;
      (split; [lia|first [by left|by right]]).
Qed.

(** What the handshake does not cover: the destructor may call [quit] after
    [startLoop] has returned and before the new thread has entered [loop()], which sets
    [quit_] to false again.  The destructor then waits in [join] in every continuation in
    which nobody else makes the loop quit. *)
Theorem early_quit_is_forgotten (name : bytes) (numCreated : Z) :
  exists s, exec early_quit (make name numCreated) = Some (Ok s) /\ owner s = OJoin /\
    forall ls r, Forall (fun l => no_quit l = true) ls -> exec ls s = Some r ->
      exists s', r = Ok s' /\ owner s' = OJoin.
Proof.
  exists (forgotten_state (Thread.make name numCreated).1).
  split; [apply early_quit_run|]. split; [done|].
  assert (Hf : forall ls s r, forgotten s -> Forall (fun l => no_quit l = true) ls ->
    exec ls s = Some r -> exists s', r = Ok s' /\ owner s' = OJoin).
  { induction ls as [|l ls IH]; intros s r Hs Hls H; simpl in H.
    - unfold goes in H. simplify_eq. exists s. split; [done | apply Hs].
    - apply Forall_cons in Hls as [Hl Hls]. destruct (step l s) as [r1|] eqn:E; [|done].
      destruct (forgotten_step l s r1 Hl Hs E) as (s1 & -> & Hs1). by eapply IH. }
  intros ls r. apply Hf, forgotten_state_ok.
Qed.

Definition test_run : list label :=
  [LStartLoop; LWorker; LOwner; LOwner; LWorker; LSpurious; LWorker; LWorker; LWorker; LWorker;
   LLoop EventLoop.LStart; LLoop (EventLoop.TPush 7); LOwner; LOwner].

Lemma test_run_handshake : handshake test_run.
Proof. by repeat constructor. Qed.

(** Where a run ends. *)
Definition after (ls : list label) : t :=
  match exec ls (make [] 0) with Some (Ok s) => s | _ => make [] 0 end.

Lemma startLoop_returns_live_loop_witness :
  exists s, Ok (after test_run) = Ok s /\ owner (after test_run) = OReturned /\
    ~ (owner s = OTest /\ worker_locked (worker s) = true) /\
    (owner s = OReturned ->
       result s = Some true /\ loop_ s = true /\ called s = true /\ worker s = WLoop /\
       exists x, loop s = Some x /\ EventLoop.pc_ x <> EventLoop.PcDone).
Proof.
  assert (E : exec test_run (make [] 0) = Some (Ok (after test_run))) by (vm_compute; reflexivity).
  destruct (startLoop_returns_live_loop [] 0 test_run _ test_run_handshake E) as (s & Es & H).
  exists s. split; [exact Es|]. split; [vm_compute; reflexivity | exact H].
Defined.

Definition waiting : list label := [LStartLoop; LOwner; LOwner].

Lemma startLoop_returns_witness :
  owner (after waiting) = OWait /\
  (remaining (after waiting) <= 11)%nat /\
  (exists l s', (l = LOwner \/ l = LWorker) /\ step l (after waiting) = Some (Ok s')) /\
  forall l s', l = LOwner \/ l = LWorker -> step l (after waiting) = Some (Ok s') ->
    (remaining s' < remaining (after waiting))%nat /\ (starting s' \/ owner s' = OReturned).
Proof.
  split; [vm_compute; reflexivity|].
  apply (startLoop_returns [] 0 waiting); [by repeat constructor | vm_compute; reflexivity | vm_compute; exact I].
Defined.

(** The other race of the destructor: the loop sees [quit_] and is destroyed by its
    thread before [quit] writes to its eventfd. *)
Definition late_wakeup : list label :=
  [LStartLoop; LWorker; LWorker; LWorker; LWorker; LWorker; LWorker; LOwner; LOwner;
   LLoop EventLoop.LStart; LDestroy; LOwner; LOwner; LOwner;
   LLoop EventLoop.LTest; LWorker; LWorker; LWorker; LWorker; LWorker; LOwner].

Example quit_after_destruction : exec late_wakeup (make [] 0) = Some (Fault DanglingPointer).
Proof. vm_compute. reflexivity. Qed.

(** The shutdown as it is meant: the loop waits for events, [quit] wakes it up, the thread
    ends, and it is joined. *)
Definition clean_shutdown : list label :=
  [LStartLoop; LWorker; LWorker; LWorker; LWorker; LWorker; LWorker; LOwner; LOwner;
   LLoop EventLoop.LStart; LLoop EventLoop.LTest; LDestroy; LOwner; LOwner; LOwner; LOwner;
   LLoop (EventLoop.LPoll (Some [(EventLoop.Wakeup, Channel.EPOLLIN)])); LLoop EventLoop.LEvent;
   LLoop EventLoop.LSwap; LLoop EventLoop.LEnd; LLoop EventLoop.LTest;
   LWorker; LWorker; LWorker; LWorker; LWorker; LOwner; LOwner].

Example shutdown_joins :
  match exec clean_shutdown (make [] 0) with
  | Some (Ok s) => Some (owner s, worker s, loop s, Thread.joined_ (thread_ s))
  | _ => None
  end = Some (ODead, WEnd, None, true).
Proof. vm_compute. reflexivity. Qed.

End EventLoopThread.
