(* ===== verification/Main.v ===== *)
(** * Main: the process of src/main.cpp

    [main()] as the sequence of its statements, the signal handlers it installs, and the
    base loop that it runs, with signals that arrive at any moment: on the main thread,
    between any two of its steps, or on another thread.  The EventLoop is that of
    src/src/net/EventLoop.cpp, with the time between the test of [quit_] and [epoll_wait]
    told apart from the wait itself, which a signal handler of this thread interrupts. *)

From S2P Require Import Prelude Channel EventLoop.

Module Main.

Inductive signal := SIGPIPE | SIGINT | SIGTERM.
Inductive disposition := SIG_DFL | SIG_IGN | SignalHandler.

#[export] Instance signal_eq_dec : EqDecision signal.
Proof. solve_decision. Defined.

(** The statements of [main()] that touch the state; [DestroyLocals] is the end of its
    scope. *)
Inductive statement :=
| Signal (s : signal) (d : disposition)
| StartLogging                             (** [AsyncLogging::getInstance().start()] *)
| SetOutput                                (** [Logger::setOutput(asyncOutput)] *)
| LogInfo (text : string)
| MakeLoop                                 (** [EventLoop loop] *)
| SetLoop                                  (** [g_loop = &loop] *)
| MakeServer (ip : string) (port : Z)
| StartServer
| RunLoop                                  (** [loop.loop()] *)
| StopLogging
| Printf (text : string)
| DestroyLocals
| Return (status : Z).

Definition main : list statement :=
  [Signal SIGPIPE SIG_IGN; Signal SIGINT SignalHandler; Signal SIGTERM SignalHandler;
   StartLogging; SetOutput;
   LogInfo "========================================"; LogInfo "  LunaNet WebChat Server is Booting...  ";
   LogInfo "  Pid = "; LogInfo "========================================";
   MakeLoop; SetLoop; MakeServer "127.0.0.1" 8080; StartServer; RunLoop; StopLogging;
   Printf "LunaNet WebChatServer exited gracefully. See you next time!"; DestroyLocals; Return 0].

Inductive ending :=
| Running
| Killed (s : signal)          (** by the default action *)
| Exited (status : Z)
| Dangling.                    (** the handler used a loop that is gone *)

Record t := mk {
  todo : list statement;
  sigaction : signal -> disposition;
  g_loop : bool;               (** [g_loop != nullptr] *)
  alive : bool;                (** the loop exists *)
  loop : EventLoop.t;
  in_wait : bool;              (** inside [epoll_wait] *)
  interrupted : bool;          (** which will fail with EINTR *)
  logging : bool;              (** the backend of the log runs *)
  status : ending;
}.

Definition start : t :=
  mk main (fun _ => SIG_DFL) false false EventLoop.make false false false Running.

Definition set_todo (l : list statement) (s : t) : t :=
  mk l (sigaction s) (g_loop s) (alive s) (loop s) (in_wait s) (interrupted s) (logging s) (status s).
Definition set_loop (e : EventLoop.t) (s : t) : t :=
  mk (todo s) (sigaction s) (g_loop s) (alive s) e (in_wait s) (interrupted s) (logging s) (status s).
Definition set_wait (w i : bool) (s : t) : t :=
  mk (todo s) (sigaction s) (g_loop s) (alive s) (loop s) w i (logging s) (status s).
Definition set_status (e : ending) (s : t) : t :=
  mk (todo s) (sigaction s) (g_loop s) (alive s) (loop s) (in_wait s) (interrupted s) (logging s) e.
Definition set_sigaction (sg : signal) (d : disposition) (s : t) : t :=
  mk (todo s) (fun x => if decide (x = sg) then d else sigaction s x) (g_loop s) (alive s) (loop s)
     (in_wait s) (interrupted s) (logging s) (status s).
Definition set_process (g a l : bool) (s : t) : t :=
  mk (todo s) (sigaction s) g a (loop s) (in_wait s) (interrupted s) l (status s).

(** A statement other than [RunLoop]. *)
Definition run_statement (c : statement) (s : t) : t :=
  match c with
  | Signal sg d => set_sigaction sg d s
  | StartLogging => set_process (g_loop s) (alive s) true s
  | MakeLoop => set_process (g_loop s) true (logging s) s
  | SetLoop => set_process true (alive s) (logging s) s
  | StopLogging => set_process (g_loop s) (alive s) false s
  | DestroyLocals => set_process (g_loop s) false (logging s) s
  | Return n => set_status (Exited n) s
  | SetOutput | LogInfo _ | MakeServer _ _ | StartServer | RunLoop | Printf _ => s
  end.

(** [signalHandler], on the main thread or on another one, whose [wakeup] comes later. *)
Definition signalHandler (onMain : bool) (s : t) : t :=
  if g_loop s then
    if alive s then
      set_loop (if onMain then EventLoop.quit (loop s) else EventLoop.quit_other (loop s)) s
    else set_status Dangling s
  else s.

(** A signal arrives; a handler that runs on the main thread interrupts its wait. *)
Definition deliver (sg : signal) (onMain : bool) (s : t) : t :=
  match sigaction s sg with
  | SIG_DFL => set_status (Killed sg) s
  | SIG_IGN => s
  | SignalHandler =>
      let s := if onMain && in_wait s then set_wait true true s else s in
      signalHandler onMain s
  end.

Inductive label :=
| MNext                                    (** the main thread, outside of the loop *)
| MWait                                    (** it enters [epoll_wait] *)
| MLoop (l : EventLoop.label)              (** a step of the loop or of another thread *)
| Deliver (sg : signal) (onMain : bool).

Definition at_loop (s : t) : bool :=
  match todo s with RunLoop :: _ => true | _ => false end.

(** The labels of the loop's own thread. *)
Definition on_loop_thread (l : EventLoop.label) : bool :=
  match l with EventLoop.TPush _ | EventLoop.TQuit | EventLoop.TWake => false | _ => true end.

Definition step (l : label) (s : t) : option t :=
  match status s with
  | Running =>
      match l with
      | MNext =>
          match todo s with
          | [] => None
          | RunLoop :: rest =>
              match EventLoop.pc_ (loop s) with
              | EventLoop.PcStart => e ← EventLoop.step EventLoop.LStart (loop s); Some (set_loop e s)
              | EventLoop.PcDone => Some (set_todo rest s)
              | _ => None
              end
          | c :: rest => Some (set_todo rest (run_statement c s))
          end
      | MWait =>
          match EventLoop.pc_ (loop s) with
          | EventLoop.PcPoll => if in_wait s then None else Some (set_wait true false s)
          | _ => None
          end
      | MLoop EventLoop.LStart => None
      | MLoop (EventLoop.LPoll r) =>
          if at_loop s && in_wait s && match r with None => interrupted s | Some _ => true end then
            e ← EventLoop.step (EventLoop.LPoll r) (loop s); Some (set_loop e (set_wait false false s))
          else None
      | MLoop l =>
          if (if on_loop_thread l then at_loop s else alive s) then
            e ← EventLoop.step l (loop s); Some (set_loop e s)
          else None
      | Deliver sg onMain => Some (deliver sg onMain s)
      end
  | _ => None
  end.

Fixpoint exec (ls : list label) (s : t) : option t :=
  match ls with
  | [] => Some s
  | l :: ls => s ← step l s; exec ls s
  end.

(** The main thread serves: it is in [loop()], past its first assignments. *)
Definition serving (s : t) : Prop :=
  status s = Running /\ at_loop s = true /\ EventLoop.pc_ (loop s) <> EventLoop.PcStart.

(** Between the test of [quit_] and [epoll_wait]. *)
Definition in_gap (s : t) : Prop :=
  EventLoop.pc_ (loop s) = EventLoop.PcPoll /\ in_wait s = false.

(** The labels of the main thread, and the wakeup that a handler on another thread owes. *)
Definition own (l : label) : bool :=
  match l with
  | MNext | MWait => true
  | MLoop EventLoop.TWake => true
  | MLoop (EventLoop.LQueue _) | MLoop EventLoop.LQuit => false
  | MLoop l => on_loop_thread l
  | Deliver _ _ => false
  end.

(** The main thread, left alone, gets to the end of [main()] with the log stopped. *)
Definition shuts_down (s : t) : Prop :=
  exists ls s', Forall (fun l => own l = true) ls /\ exec ls s = Some s' /\
    status s' = Exited 0 /\ logging s' = false /\ EventLoop.pc_ (loop s') = EventLoop.PcDone.

(** ** The invariant: how far [main()] is *)

(** The state after [k] statements, of which the signals and the loop only change the
    rest. *)
Definition after (k : nat) : t := fold_left (fun s c => run_statement c s) (take k main) start.

Record agree (s s' : t) : Prop := {
  a_sigaction sg : sigaction s sg = sigaction s' sg;
  a_g_loop : g_loop s = g_loop s';
  a_alive : alive s = alive s';
  a_logging : logging s = logging s';
}.

Record inv (s : t) : Prop := {
  m_todo : exists k, todo s = drop k main /\ agree s (after k);
  m_counter : 0 <= EventLoop.wakeupFd_ (loop s);
}.

(** ** Lemmas *)

Ltac fields :=
  cbn [set_todo set_loop set_wait set_status set_sigaction set_process todo sigaction g_loop alive loop
       in_wait interrupted logging status] in *.

Lemma loop_counter l e e' :
  0 <= EventLoop.wakeupFd_ e -> EventLoop.step l e = Some e' -> 0 <= EventLoop.wakeupFd_ e'.
Proof.
  intros H E. assert (Hw : forall x, 0 <= EventLoop.wakeupFd_ x -> 0 <= EventLoop.wakeupFd_ (EventLoop.wakeup x)).
  { intros x Hx. destruct (EventLoop.wakeup_spec x Hx) as (n & Hn & ->). simpl. lia. }
  destruct l; simpl in E.
  1-7: destruct (EventLoop.pc_ e) as [| | |[|x xs]|[|x xs]|]; try done.
  - by injection E as <-.
  - injection E as <-. by destruct (EventLoop.quit_ e).
  - destruct (EventLoop.reported e r); [|done]. by injection E as <-.
  - injection E as <-. destruct x as [[|fd] m]; simpl; [|done]. by case_bool_decide.
  - by injection E as <-.
  - by injection E as <-.
  - by injection E as <-.
  - destruct (EventLoop.in_user_code e); [|done]. injection E as <-. unfold EventLoop.queueInLoop.
    destruct (EventLoop.queueInLoop_wakes _ _); [by apply Hw | done].
  - destruct (EventLoop.in_user_code e); [|done]. by injection E as <-.
  - by injection E as <-.
  - by injection E as <-.
  - destruct (EventLoop.owed e); [done|]. injection E as <-. by apply Hw.
Qed.

Lemma inv_start : inv start.
Proof. split; [|done]. by exists 0%nat. Qed.

Lemma agree_run c s s' : agree s s' -> agree (run_statement c s) (run_statement c s').
Proof.
  intros [H1 H2 H3 H4]. destruct c; split; simpl; try done. intros sg. by destruct (decide _).
Qed.

Lemma after_S k c : main !! k = Some c -> after (S k) = run_statement c (after k).
Proof. intros H. unfold after. by rewrite (take_S_r _ _ _ H), fold_left_app. Qed.

(** Whatever leaves the statements alone. *)
Lemma main_same s s' :
  inv s -> todo s' = todo s -> agree s' s -> 0 <= EventLoop.wakeupFd_ (loop s') -> inv s'.
Proof.
  intros [(k & Ht & [A1 A2 A3 A4]) _] E [B1 B2 B3 B4] Hc. split; [|done]. exists k.
  split; [congruence|]. split; [intros sg; congruence | congruence..].
Qed.

Lemma next_statement s c rest k :
  todo s = c :: rest -> todo s = drop k main -> main !! k = Some c /\ rest = drop (S k) main.
Proof.
  intros E Ht. rewrite E in Ht. split.
  - rewrite <- (Nat.add_0_r k), <- lookup_drop, <- Ht. done.
  - replace (S k) with (k + 1)%nat by lia. by rewrite <- drop_drop, <- Ht.
Qed.

(** The one [RunLoop] of [main()]. *)
Lemma at_loop_state s :
  inv s -> at_loop s = true ->
  todo s = drop 13 main /\ agree s (after 13).
Proof.
  intros [(k & Ht & Ha) _] Hl. unfold at_loop in Hl. rewrite Ht in Hl.
  assert (k = 13%nat) as -> by
    (do 18 (destruct k as [|k]; [first [reflexivity | discriminate Hl]|]);
     cbn in Hl; by rewrite ?drop_nil in Hl).
  done.
Qed.

Lemma inv_next s s' : inv s -> step MNext s = Some s' -> inv s'.
Proof.
  intros Hs E. pose proof Hs as [(k & Ht & Ha) Hc]. unfold step in E.
  destruct (status s); try done. destruct (todo s) as [|c rest] eqn:Et; [done|].
  destruct (next_statement s c rest k Et) as [Hk Hrest]; [congruence|].
  assert (Hskip : agree (run_statement c s) (after (S k))) by (rewrite (after_S _ _ Hk); by apply agree_run).
  destruct (match c with RunLoop => true | _ => false end) eqn:Hrun.
  - destruct c; try done. destruct (EventLoop.pc_ (loop s)) eqn:Hpc; try done.
    + destruct (EventLoop.step EventLoop.LStart (loop s)) as [e|] eqn:Ee; [|done]. injection E as <-.
      apply (main_same s); [done..|]. fields. by eapply loop_counter.
    + injection E as <-. split; [|done]. exists (S k). split; [done|]. by destruct Hskip.
  - assert (E' : Some (set_todo rest (run_statement c s)) = Some s') by (by destruct c).
    injection E' as <-. split; [|by destruct c]. exists (S k). split; [done|]. by destruct Hskip.
Qed.

Lemma deliver_same sg onMain s :
  todo (deliver sg onMain s) = todo s /\ agree (deliver sg onMain s) s /\
  EventLoop.wakeupFd_ (loop (deliver sg onMain s)) = EventLoop.wakeupFd_ (loop s) /\
  EventLoop.pc_ (loop (deliver sg onMain s)) = EventLoop.pc_ (loop s).
Proof.
  unfold deliver, signalHandler. destruct (sigaction s sg); try done.
  destruct onMain, (in_wait s); simpl; destruct (g_loop s) eqn:Hg; try done; destruct (alive s) eqn:Ha; done.
Qed.

Lemma inv_main_step l s s' : inv s -> step l s = Some s' -> inv s'.
Proof.
  intros Hs E. destruct l as [| |l|sg onMain]; [by eapply inv_next|..].
  - unfold step in E. destruct (status s); try done. destruct (EventLoop.pc_ (loop s)); try done.
    destruct (in_wait s); [done|]. injection E as <-. apply (main_same s); try done. apply Hs.
  - unfold step in E. destruct (status s); try done.
    assert (H : exists e w i, EventLoop.step l (loop s) = Some e /\ s' = set_loop e (set_wait w i s)).
    { destruct l; try done; destruct (if _ : bool then _ else _ : bool) || destruct (_ && _); try done;
        destruct (EventLoop.step _ (loop s)) as [e|] eqn:Ee; try done;
        injection E as <-; exists e; eexists _, _; (split; [done|]); try done; by destruct s. }
    destruct H as (e & w & i & Ee & ->). apply (main_same s); try done. fields.
    eapply loop_counter; [apply Hs | exact Ee].
  - unfold step in E. destruct (status s); try done. injection E as <-.
    destruct (deliver_same sg onMain s) as (H1 & H2 & H3 & _).
    apply (main_same s); try done. rewrite H3. apply Hs.
Qed.

Lemma inv_main_exec ls : forall s s', inv s -> exec ls s = Some s' -> inv s'.
Proof.
  induction ls as [|l ls IH]; intros s s' Hs E; [by injection E as <-|].
  apply bind_Some in E as (s1 & E1 & E2). eapply IH; [|exact E2]. by eapply inv_main_step.
Qed.

(** ** Lemmas: the way out *)

Lemma shuts_down_step l s s1 :
  own l = true -> step l s = Some s1 -> shuts_down s1 -> shuts_down s.
Proof.
  intros Hl E (ls & s' & Hls & Ex & H). exists (l :: ls), s'. split; [by constructor|].
  split; [|done]. cbn [exec]. by rewrite E.
Qed.

(** A state of the loop that main serves. *)
Record quitting (s : t) : Prop := {
  q_status : status s = Running;
  q_todo : todo s = drop 13 main;
  q_quit : EventLoop.quit_ (loop s) = true;
}.

Ltac own_step l := eapply (shuts_down_step l); [done | |].

Lemma out_of_loop s : quitting s -> EventLoop.pc_ (loop s) = EventLoop.PcDone -> shuts_down s.
Proof.
  intros [Hr Ht Hq] Hpc. destruct s as [td sa g al lp w i lg st]. fields. subst td st.
  do 4 (own_step MNext; [unfold step; fields; rewrite ?Hpc; reflexivity|]).
  own_step MNext; [reflexivity|]. eexists [], _. split; [constructor|]. split; [reflexivity|].
  by split_and!.
Qed.

Lemma quitting_loop s e : quitting s -> EventLoop.quit_ e = true -> quitting (set_loop e s).
Proof. by intros []; split. Qed.

(** A step of the loop other than the wait. *)
Lemma loop_step l s e :
  quitting s -> own (MLoop l) = true ->
  match l with EventLoop.LStart | EventLoop.LPoll _ | EventLoop.TWake => False | _ => True end ->
  EventLoop.step l (loop s) = Some e -> step (MLoop l) s = Some (set_loop e s).
Proof.
  intros [Hr Ht Hq] Ho Hl E. unfold step. rewrite Hr. unfold at_loop. rewrite Ht. simpl.
  destruct l; try done; by rewrite E.
Qed.

Ltac loop_step l := eapply (shuts_down_step (MLoop l)); [done | apply loop_step; [done | done | done |] |].

Lemma from_test s : quitting s -> EventLoop.pc_ (loop s) = EventLoop.PcTest -> shuts_down s.
Proof.
  intros Hs Hpc. loop_step EventLoop.LTest; [simpl; by rewrite Hpc|].
  pose proof (q_quit _ Hs) as Hq. rewrite Hq. simpl.
  apply out_of_loop; [by apply quitting_loop | done].
Qed.

Lemma from_calling fs : forall s,
  quitting s -> EventLoop.pc_ (loop s) = EventLoop.PcCalling fs -> shuts_down s.
Proof.
  induction fs as [|f fs IH]; intros s Hs Hpc.
  - loop_step EventLoop.LEnd; [simpl; by rewrite Hpc|].
    apply from_test; [apply quitting_loop; [done | apply Hs] | done].
  - loop_step EventLoop.LCall; [simpl; by rewrite Hpc|].
    apply IH; [apply quitting_loop; [done | apply Hs] | done].
Qed.

Lemma from_events active : forall s,
  quitting s -> EventLoop.pc_ (loop s) = EventLoop.PcEvents active -> shuts_down s.
Proof.
  induction active as [|x active IH]; intros s Hs Hpc.
  - loop_step EventLoop.LSwap; [simpl; by rewrite Hpc|].
    eapply from_calling; [apply quitting_loop; [done | apply Hs] | done].
  - loop_step EventLoop.LEvent; [simpl; by rewrite Hpc|].
    apply IH; [apply quitting_loop; [done|] | done]. pose proof (q_quit _ Hs) as Hq.
    destruct x as [[|fd] m]; simpl; [|done]. by case_bool_decide.
Qed.

(** A wait that a signal has interrupted, or that the eventfd ends. *)
Lemma from_wait s :
  quitting s -> EventLoop.pc_ (loop s) = EventLoop.PcPoll ->
  in_wait s = true /\ interrupted s = true \/ EventLoop.wakeup_ready (loop s) -> shuts_down s.
Proof.
  intros Hs Hpc [[Hw Hi]|Hw].
  - eapply (shuts_down_step (MLoop (EventLoop.LPoll None))); [done| |].
    { unfold step, at_loop. rewrite (q_status _ Hs), (q_todo _ Hs), Hw, Hi. simpl. rewrite Hpc. done. }
    eapply from_events; [|done]. by destruct Hs.
  - assert (Hpoll : forall s, quitting s -> EventLoop.pc_ (loop s) = EventLoop.PcPoll -> in_wait s = true ->
      EventLoop.wakeup_ready (loop s) -> shuts_down s).
    { clear. intros s Hs Hpc Hi Hw.
      eapply (shuts_down_step (MLoop (EventLoop.LPoll (Some [(EventLoop.Wakeup, Channel.EPOLLIN)])))); [done| |].
      { unfold step, at_loop. rewrite (q_status _ Hs), (q_todo _ Hs), Hi. simpl. rewrite Hpc.
        unfold EventLoop.reported. simpl. rewrite (proj2 (Z.ltb_lt _ _) Hw). done. }
      eapply from_events; [|done]. by destruct Hs. }
    destruct (in_wait s) eqn:Hi; [by apply Hpoll|].
    own_step MWait; [unfold step; by rewrite (q_status _ Hs), Hpc, Hi|].
    apply Hpoll; try done. by destruct Hs.
Qed.

(** The loop's thread gets out of the loop from everywhere but a wait that nothing ends. *)
Lemma quitting_shuts_down s :
  quitting s -> EventLoop.pc_ (loop s) <> EventLoop.PcStart ->
  (EventLoop.pc_ (loop s) = EventLoop.PcPoll ->
     in_wait s = true /\ interrupted s = true \/ EventLoop.wakeup_ready (loop s)) ->
  shuts_down s.
Proof.
  intros Hs Hpc Hw. destruct (EventLoop.pc_ (loop s)) eqn:E; [done|..].
  - by apply from_test.
  - apply from_wait; auto.
  - by eapply from_events.
  - by eapply from_calling.
  - by apply out_of_loop.
Qed.

(** ** Property *)


(** The boot, a first connection handled, and SIGTERM during the next wait. *)
Definition test_run : list label :=
  replicate 14 MNext ++
  [MLoop EventLoop.LTest; MWait; MLoop (EventLoop.LPoll (Some [(EventLoop.Other 5, 1)]));
   MLoop EventLoop.LEvent; MLoop EventLoop.LSwap; MLoop (EventLoop.TPush 3); MLoop EventLoop.LEnd;
   MLoop EventLoop.LTest; MWait].

Definition test_state : t := default start (exec test_run start).


(** ** What the code does not guard against *)

(** A signal in the gap: the main thread waits with [quit_] set, until something else
    happens to the loop. *)
Example signal_in_gap_waits :
  exists s, exec (replicate 14 MNext ++ [MLoop EventLoop.LTest; Deliver SIGINT true; MWait]) start = Some s /\
    EventLoop.quit_ (loop s) = true /\ status s = Running /\
    step MNext s = None /\ step MWait s = None /\ step (MLoop (EventLoop.LPoll None)) s = None /\
    step (MLoop (EventLoop.LPoll (Some [(EventLoop.Wakeup, Channel.EPOLLIN)]))) s = None.
Proof. eexists. split; [vm_compute; reflexivity|]. vm_compute. split_and!; reflexivity. Qed.

(** A signal during the boot is forgotten, by [loop()] or because there is no loop yet;
    one that arrives when the loop is gone uses it. *)
Example early_signal_forgotten :
  exists s, exec (replicate 3 MNext ++ [Deliver SIGINT true] ++ replicate 10 MNext ++ [Deliver SIGTERM true; MNext;
      MLoop EventLoop.LTest; MWait]) start = Some s /\
    status s = Running /\ EventLoop.quit_ (loop s) = false /\ interrupted s = false.
Proof. eexists. split; [vm_compute; reflexivity|]. vm_compute. split_and!; reflexivity. Qed.

Example late_signal_dangles :
  exists s, exec (test_run ++ [Deliver SIGTERM true; MLoop (EventLoop.LPoll None); MLoop EventLoop.LSwap;
      MLoop EventLoop.LCall; MLoop EventLoop.LEnd; MLoop EventLoop.LTest; MNext; MNext; MNext; MNext;
      Deliver SIGINT true]) start = Some s /\ status s = Dangling.
Proof. eexists. split; vm_compute; reflexivity. Qed.

(** Without the handlers the process is killed; SIGPIPE is ignored from the start. *)
Example dispositions :
  (s ← exec [Deliver SIGINT true] start; Some (status s)) = Some (Killed SIGINT) /\
  (s ← exec [MNext; Deliver SIGPIPE true] start; Some (status s)) = Some Running.
Proof. split; reflexivity. Qed.

End Main.
