(* ===== verification/TcpServer.v ===== *)
(** * TcpServer: src/src/tcp/TcpServer.{h,cpp}, Acceptor.{h,cpp},
      src/src/pool/EventLoopThreadPool.{h,cpp} and src/src/net/InetAddress.{h,cpp}

    [InetAddress] renders addresses, [EventLoopThreadPool] hands out loops in turn,
    [Acceptor] takes the connections that wait, and [TcpServer.t] holds the server's
    members, the connections it made, each a [TcpConnection.t] with the loop it was
    given to, and the functors that the server and the close callbacks have queued
    on the loops.  A run interleaves accepts, queued functors and whatever happens
    to the connections ([TcpConnection.event]). *)

From S2P Require Import Prelude Buffer Digits Channel TcpConnection.

Module InetAddress.

(** [sockaddr_in]: the family, the four bytes of the address, the port in network order. *)
Record t := mk {
  sin_family : Z;
  sin_addr : Z * Z * Z * Z;
  sin_port : Z;
}.

(** Both conversions swap the bytes of a 16-bit integer (on a little-endian host). *)
Definition htons (x : Z) : Z := (x mod 256) * 256 + x / 256.
Definition ntohs : Z -> Z := htons.

Definition AF_INET : Z := 2.

(** [InetAddress()]: all bytes are zero. *)
Definition zero : t := mk 0 (0, 0, 0, 0) 0.

(** [InetAddress(ip, port)], [addr] being what [inet_pton] makes of [ip], if it is an
    address; otherwise the bytes stay zero, which is the address of every interface. *)
Definition of_pton (addr : option (Z * Z * Z * Z)) (port : Z) : t :=
  mk AF_INET (default (sin_addr zero) addr) (htons port).
Definition make (addr : Z * Z * Z * Z) (port : Z) : t := of_pton (Some addr) port.

(** [InetAddress(sockaddr_in)], [getAddr] and [setAddr]. *)
Definition of_sockaddr (addr : t) : t := addr.
Definition getAddr (a : t) : t := a.
Definition setAddr (addr a : t) : t := addr.

(** [getLocalAddr], given what [getsockname] stores, if it succeeds. *)
Definition getLocalAddr (getsockname_r : option t) : t :=
  of_sockaddr (default zero getsockname_r).

(** [inet_ntop(AF_INET, ...)]: dotted decimal. *)
Definition inet_ntop (addr : Z * Z * Z * Z) : bytes :=
  let '(a, b, c, d) := addr in
  Digits.to_string a ++ str "." ++ Digits.to_string b ++ str "." ++
  Digits.to_string c ++ str "." ++ Digits.to_string d.

Definition toIpPort (a : t) : bytes :=
  inet_ntop (sin_addr a) ++ str ":" ++ Digits.to_string (ntohs (sin_port a)).

Definition octet (x : Z) : Prop := 0 <= x < 256.
Definition wf (a : t) : Prop :=
  (let '(a, b, c, d) := sin_addr a in octet a /\ octet b /\ octet c /\ octet d) /\
  0 <= sin_port a < 2^16.

Example loopback : toIpPort (make (127, 0, 0, 1) 8080) = str "127.0.0.1:8080".
Proof. reflexivity. Qed.
(** What is not an address is taken for [INADDR_ANY]. *)
Example not_an_address : toIpPort (of_pton None 80) = str "0.0.0.0:80".
Proof. reflexivity. Qed.
Example no_socket : toIpPort (getLocalAddr None) = str "0.0.0.0:0".
Proof. reflexivity. Qed.

(** The port that is printed is the one that was given. *)
Lemma port_roundtrip addr port :
  0 <= port < 2^16 -> ntohs (sin_port (of_pton addr port)) = port.
Proof.
  intros H. unfold ntohs, of_pton, sin_port, htons. pose proof (Z.mod_pos_bound port 256).
  assert (0 <= port / 256 < 256) by (split; [apply Z.div_pos | apply Z.div_lt_upper_bound]; lia).
  replace ((port mod 256 * 256 + port / 256) mod 256) with (port / 256)
    by (rewrite Z.add_comm, Z_mod_plus_full, Z.mod_small; lia).
  replace ((port mod 256 * 256 + port / 256) / 256) with (port mod 256)
    by (rewrite Z.add_comm, Z_div_plus_full, Z.div_small; lia).
  pose proof (Z.div_mod port 256). lia.
Qed.

Lemma htons_range x : 0 <= x < 2^16 -> 0 <= htons x < 2^16.
Proof.
  intros. unfold htons. pose proof (Z.mod_pos_bound x 256).
  assert (0 <= x / 256 < 256) by (split; [apply Z.div_pos | apply Z.div_lt_upper_bound]; lia). lia.
Qed.

(** An address takes at most 21 characters: it fits in the buffers of 64. *)
Lemma toIpPort_length a : wf a -> blen (toIpPort a) <= 21.
Proof.
  intros [Ha Hp]. unfold toIpPort, inet_ntop. destruct (sin_addr a) as [[[w x] y] z].
  destruct Ha as (? & ? & ? & ?). unfold octet in *. pose proof (htons_range _ Hp). unfold ntohs.
  rewrite !blen_app.
  assert (Hd : forall n, octet n -> blen (Digits.to_string n) <= 3)
    by (intros n Hn; unfold octet in Hn; apply (Digits.to_string_length 3); lia).
  pose proof (Hd w ltac:(done)). pose proof (Hd x ltac:(done)).
  pose proof (Hd y ltac:(done)). pose proof (Hd z ltac:(done)).
  assert (blen (Digits.to_string (htons (sin_port a))) <= 5) by (apply (Digits.to_string_length 5); lia).
  change (blen (str ".")) with 1. change (blen (str ":")) with 1. lia.
Qed.

End InetAddress.

Module EventLoopThreadPool.

(** A loop is named by its address. *)
Record t := mk {
  baseLoop_ : Z;
  started_ : bool;
  next_ : Z;
  numThreads_ : Z;
  loops_ : list Z;
}.

Definition make (baseLoop : Z) : t := mk baseLoop false 0 0 [].

Definition setThreadNum (n : Z) (p : t) : t :=
  mk (baseLoop_ p) (started_ p) (next_ p) n (loops_ p).

(** [start]: [startLoop] of the i-th thread returns the loop [threads i].  Returns
    also the loops the thread initialisation callback is called on. *)
Definition start (cb : bool) (threads : nat -> Z) (p : t) : t * list Z :=
  let new := map threads (seq 0 (Z.to_nat (numThreads_ p))) in
  (mk (baseLoop_ p) true (next_ p) (numThreads_ p) (loops_ p ++ new),
   if cb then (if numThreads_ p =? 0 then [baseLoop_ p] else new) else []).

Definition getNextLoop (p : t) : outcome (Z * t) :=
  match loops_ p with
  | [] => Ok (baseLoop_ p, p)
  | _ :: _ =>
      match loops_ p !! Z.to_nat (next_ p) with
      | None => Fault OutOfBounds
      | Some loop =>
          let next := next_ p + 1 in
          let next := if Z.of_nat (length (loops_ p)) <=? u64 next then 0 else next in
          Ok (loop, mk (baseLoop_ p) (started_ p) next (numThreads_ p) (loops_ p))
      end
  end.

Definition getAllLoops (p : t) : list Z :=
  match loops_ p with [] => [baseLoop_ p] | _ :: _ => loops_ p end.

(** After [k] calls: the cursor is [k] modulo the number of loops. *)
Definition cursor (k : Z) (p : t) : Prop :=
  loops_ p = [] \/ next_ p = k mod Z.of_nat (length (loops_ p)).

(** The loop of the [k]-th call, from 0: they are taken in turn. *)
Definition loop_of_turn (k : Z) (p : t) : Z :=
  default (baseLoop_ p) (loops_ p !! Z.to_nat (k mod Z.of_nat (length (loops_ p)))).

Lemma next_turn k n :
  0 < n -> (if n <=? k mod n + 1 then 0 else k mod n + 1) = (k + 1) mod n.
Proof.
  intros Hn. pose proof (Z.mod_pos_bound k n Hn). pose proof (Z.div_mod k n ltac:(lia)).
  destruct (n <=? k mod n + 1) eqn:E; zbool.
  - apply (Z.mod_unique _ _ (k / n + 1)); lia.
  - apply (Z.mod_unique _ _ (k / n)); lia.
Qed.

Lemma getNextLoop_spec k p :
  0 <= k -> cursor k p -> Z.of_nat (length (loops_ p)) < 2^31 ->
  exists p', getNextLoop p = Ok (loop_of_turn k p, p') /\ cursor (k + 1) p' /\
    loops_ p' = loops_ p /\ baseLoop_ p' = baseLoop_ p.
Proof.
  intros Hk Hc Hn. unfold getNextLoop, loop_of_turn, cursor in *.
  destruct (loops_ p) as [|l0 l] eqn:E.
  { exists p. rewrite E. split_and!; [by rewrite lookup_nil | by left | done..]. }
  destruct Hc as [|Hc]; [done|]. set (n := Z.of_nat (length (l0 :: l))) in *.
  assert (0 < n) by (unfold n; simpl; lia). pose proof (Z.mod_pos_bound k n).
  rewrite Hc. destruct (lookup_lt_is_Some_2 (l0 :: l) (Z.to_nat (k mod n))) as [loop Hl];
    [unfold n in *; lia|].
  rewrite Hl. unfold u64. rewrite (Z.mod_small (k mod n + 1)) by lia.
  rewrite next_turn by done. eexists. split; [done|]. simpl. split_and!; [by right | done..].
Qed.

End EventLoopThreadPool.

(** The listening socket.  [newConnectionCallback_] is the server's. *)
Module Acceptor.

Record t := mk {
  acceptSocket_ : Z;
  acceptChannel_ : Channel.t;
  listening_ : bool;
}.

Definition make (fd : Z) : t := mk fd (Channel.make fd) false.

Definition listen (a : t) : outcome t :=
  let! (_, ch, _) := Channel.enableReading (acceptChannel_ a) in
  Ok (mk (acceptSocket_ a) ch true).

Section handleRead.
Context {S : Type} (newConnectionCallback_ : option (Z -> S -> outcome S)).

(** [handleRead], given what [accept] answers: the connections that wait, each
    given to the callback or closed, until [accept] fails.  Returns also the
    descriptors it closed. *)
Fixpoint handleRead (answers : list sysret) (s : S) : outcome (S * list Z) :=
  match answers with
  | SysOk connfd :: answers =>
      match newConnectionCallback_ with
      | Some cb =>
          let! s := cb connfd s in
          handleRead answers s
      | None =>
          let! (s, closed) := handleRead answers s in
          Ok (s, connfd :: closed)
      end
  | SysErr _ :: _ | [] => Ok (s, [])
  end.
End handleRead.

End Acceptor.

Module TcpServer.

#[local] Existing Instance TcpConnection.StateE_eq_dec.

(** The functors that the server and the close callbacks queue, about the
    connection with a given number. *)
Inductive functor :=
| FEstablish (p : Z)     (** [connectEstablished] *)
| FErase (p : Z)         (** the lambda of the close callback *)
| FDestroy (p : Z).      (** [connectDestroyed] *)

#[export] Instance functor_eq_dec : EqDecision functor.
Proof. solve_decision. Defined.

(** A connection and its [getLoop()]. *)
Record conn := Conn {
  getLoop : Z;
  tcp : TcpConnection.t;
}.

(** [pending]: the functors queued on the loops, oldest first, each with its loop.
    [destroyed]: the connections [connectDestroyed] was run on. *)
Record t := mk {
  started_ : Z;
  nextConnId_ : Z;
  connections_ : gmap bytes Z;
  threadPool_ : EventLoopThreadPool.t;
  acceptor_ : Acceptor.t;
  objects : gmap Z conn;
  pending : list (Z * functor);
  destroyed : list Z;
}.

Definition set_connections (m : gmap bytes Z) (s : t) : t :=
  mk (started_ s) (nextConnId_ s) m (threadPool_ s) (acceptor_ s) (objects s) (pending s) (destroyed s).
Definition set_objects (m : gmap Z conn) (s : t) : t :=
  mk (started_ s) (nextConnId_ s) (connections_ s) (threadPool_ s) (acceptor_ s) m (pending s)
     (destroyed s).
Definition set_pending (l : list (Z * functor)) (s : t) : t :=
  mk (started_ s) (nextConnId_ s) (connections_ s) (threadPool_ s) (acceptor_ s) (objects s) l
     (destroyed s).
Definition set_destroyed (l : list Z) (s : t) : t :=
  mk (started_ s) (nextConnId_ s) (connections_ s) (threadPool_ s) (acceptor_ s) (objects s)
     (pending s) l.

Section server.
(** [loop_], [name_], [ipPort_], and which of the message and the write-complete
    callbacks are set; the connection callback is. *)
Variables (loop_ : Z) (name_ ipPort_ : bytes) (message_ writeComplete_ : bool).

(** [snprintf(buf, 64, "-%s#%d", ...)]: at most 63 characters. *)
Definition conn_name (connId : Z) : bytes :=
  name_ ++ take 63 (str "-" ++ ipPort_ ++ str "#" ++ Digits.to_string connId).

Definition callbacks : TcpConnection.callbacks :=
  TcpConnection.Callbacks true message_ writeComplete_ false false true.

Definition make (acceptfd : Z) : t :=
  mk 0 1 ∅ (EventLoopThreadPool.make loop_) (Acceptor.make acceptfd) ∅ [] [].

Definition setThreadNum (n : Z) (s : t) : t :=
  mk (started_ s) (nextConnId_ s) (connections_ s)
     (EventLoopThreadPool.setThreadNum n (threadPool_ s)) (acceptor_ s) (objects s) (pending s)
     (destroyed s).

(** [start] on the loop's thread: [listen] runs at once. *)
Definition start (cb : bool) (threads : nat -> Z) (s : t) : outcome t :=
  let s1 := mk (started_ s + 1) (nextConnId_ s) (connections_ s) (threadPool_ s) (acceptor_ s)
               (objects s) (pending s) (destroyed s) in
  if started_ s =? 0 then
    let (pool, _) := EventLoopThreadPool.start cb threads (threadPool_ s) in
    let! acceptor := Acceptor.listen (acceptor_ s) in
    Ok (mk (started_ s1) (nextConnId_ s) (connections_ s) pool acceptor (objects s) (pending s)
           (destroyed s))
  else Ok s1.

Definition queueInLoop (loop : Z) (f : functor) (s : t) : t :=
  set_pending (pending s ++ [(loop, f)]) s.

(** A method of a connection; returns its effects. *)
Definition run_tcp (p : Z) (e : TcpConnection.event) (s : t) : outcome (t * list TcpConnection.effect) :=
  match objects s !! p with
  | None => Fault NullDereference
  | Some o =>
      let! (_, c, es) := TcpConnection.run_event e (tcp o) in
      Ok (set_objects (<[p := Conn (getLoop o) c]> (objects s)) s, es)
  end.

Definition connectEstablished (p : Z) (s : t) : outcome t :=
  let! (s, _) := run_tcp p TcpConnection.EvEstablished s in Ok s.

Definition connectDestroyed (p : Z) (s : t) : outcome t :=
  let! (s, _) := run_tcp p TcpConnection.EvDestroyed s in
  Ok (set_destroyed (destroyed s ++ [p]) s).

(** The lambda that the close callback runs on the base loop. *)
Definition erase (p : Z) (s : t) : outcome t :=
  match objects s !! p with
  | None => Fault NullDereference
  | Some o =>
      Ok (queueInLoop (getLoop o) (FDestroy p) (set_connections (delete (conn_name p) (connections_ s)) s))
  end.

(** The close callback, on the connection's loop: [baseLoop->runInLoop]. *)
Definition closeCallback (p : Z) (s : t) : outcome t :=
  match objects s !! p with
  | None => Fault NullDereference
  | Some o => if getLoop o =? loop_ then erase p s else Ok (queueInLoop loop_ (FErase p) s)
  end.

(** [newConnection]; a connection is named by the number in its name. *)
Definition newConnection (sockfd : Z) (s : t) : outcome t :=
  let! (ioLoop, pool) := EventLoopThreadPool.getNextLoop (threadPool_ s) in
  let p := nextConnId_ s in
  let connName := conn_name p in
  let! conn := TcpConnection.make sockfd callbacks in
  let s := mk (started_ s) (nextConnId_ s + 1) (<[connName := p]> (connections_ s)) pool (acceptor_ s)
              (<[p := Conn ioLoop conn]> (objects s)) (pending s) (destroyed s) in
  if ioLoop =? loop_ then connectEstablished p s
  else Ok (queueInLoop ioLoop (FEstablish p) s).

Definition run_functor (f : functor) (s : t) : outcome t :=
  match f with
  | FEstablish p => connectEstablished p s
  | FErase p => erase p s
  | FDestroy p => connectDestroyed p s
  end.

(** The oldest functor queued on a loop. *)
Fixpoint pop {A} (loop : Z) (l : list (Z * A)) : option (A * list (Z * A)) :=
  match l with
  | [] => None
  | (l0, f) :: l =>
      if l0 =? loop then Some (f, l)
      else match pop loop l with
           | None => None
           | Some (g, l') => Some (g, (l0, f) :: l')
           end
  end.

Definition is_close (e : TcpConnection.effect) : bool :=
  match e with TcpConnection.ECall TcpConnection.CClose => true | _ => false end.

(** What happens: connections wait at the acceptor; a loop runs its oldest
    functor; something happens to a connection. *)
Inductive event :=
| SAccept (answers : list sysret)
| SRun (loop : Z)
| SConn (p : Z) (e : TcpConnection.event).

Definition step (e : event) (s : t) : outcome t :=
  match e with
  | SAccept answers =>
      let! (s, _) := Acceptor.handleRead (Some newConnection) answers s in Ok s
  | SRun loop =>
      match pop loop (pending s) with
      | None => Ok s
      | Some (f, l) => run_functor f (set_pending l s)
      end
  | SConn p e =>
      let! (s, es) := run_tcp p e s in
      if existsb is_close es then closeCallback p s else Ok s
  end.

Fixpoint run (evs : list event) (s : t) : outcome t :=
  match evs with
  | [] => Ok s
  | e :: evs => let! s := step e s in run evs s
  end.

(** What can happen: the connection numbers fit an [int]; an established connection
    gets any event whose precondition holds, besides the two of its life cycle,
    which only the server runs. *)
Definition enabled (e : event) (s : t) : Prop :=
  match e with
  | SAccept answers => nextConnId_ s + Z.of_nat (length answers) < 2^31
  | SRun _ => True
  | SConn p e =>
      match e with
      | TcpConnection.EvEstablished | TcpConnection.EvDestroyed => False
      | _ =>
          exists o, objects s !! p = Some o /\ TcpConnection.state_ (tcp o) <> TcpConnection.kConnecting /\
            TcpConnection.event_ok (tcp o) e
      end
  end.

Fixpoint run_enabled (evs : list event) (s : t) : Prop :=
  match evs with
  | [] => True
  | e :: evs => enabled e s /\ match step e s with Ok s => run_enabled evs s | Fault _ => True end
  end.

(** ** The invariant *)

(** How many times a functor is queued, and a connection was destroyed. *)
Definition waiting (f : functor) (s : t) : nat := count_occ functor_eq_dec (map snd (pending s)) f.
Definition times_destroyed (p : Z) (s : t) : nat := count_occ Z.eq_dec (destroyed s) p.

(** In the map under its name. *)
Definition listed (p : Z) (s : t) : Prop := connections_ s !! conn_name p = Some p.

(** A connection: queued for establishment while it is connecting; listed until the
    functor that erases it has run; then destroyed, or about to be, exactly once. *)
Record conn_inv (s : t) (p : Z) (o : conn) : Prop := {
  c_wf : TcpConnection.wf (tcp o);
  c_callbacks : TcpConnection.callbacks_ (tcp o) = callbacks;
  c_loop : getLoop o = EventLoopThreadPool.loop_of_turn (p - 1) (threadPool_ s);
  c_establish : waiting (FEstablish p) s =
    Nat.b2n (bool_decide (TcpConnection.state_ (tcp o) = TcpConnection.kConnecting));
  c_over : (waiting (FErase p) s + waiting (FDestroy p) s + times_destroyed p s =
    Nat.b2n (TcpConnection.disconnected (tcp o)))%nat;
  c_listed : listed p s <-> TcpConnection.disconnected (tcp o) = false \/ waiting (FErase p) s = 1%nat;
}.

Definition inv_at (s : t) (p : Z) : Prop :=
  match objects s !! p with
  | Some o => 1 <= p < nextConnId_ s /\ conn_inv s p o
  | None =>
      waiting (FEstablish p) s = 0%nat /\ waiting (FErase p) s = 0%nat /\
      waiting (FDestroy p) s = 0%nat /\ times_destroyed p s = 0%nat /\ ~ listed p s
  end.

(** The loop a functor has to run on. *)
Definition home (s : t) (f : functor) : option Z :=
  match f with
  | FErase _ => Some loop_
  | FEstablish p | FDestroy p => getLoop <$> objects s !! p
  end.

Record inv (s : t) : Prop := {
  i_at p : inv_at s p;
  i_names n p : connections_ s !! n = Some p -> n = conn_name p;
  i_home l f : (l, f) ∈ pending s -> home s f = Some l;
  i_cursor : EventLoopThreadPool.cursor (nextConnId_ s - 1) (threadPool_ s);
  i_bound : 1 <= nextConnId_ s < 2^31;
  i_pool : Z.of_nat (length (EventLoopThreadPool.loops_ (threadPool_ s))) < 2^31 /\
    EventLoopThreadPool.baseLoop_ (threadPool_ s) = loop_;
}.

(** ** Lemmas: the queues *)

Lemma pop_perm {A} loop (l : list (Z * A)) f l' : pop loop l = Some (f, l') -> l ≡ₚ (loop, f) :: l'.
Proof.
  revert f l'. induction l as [|[l0 g] l IH]; intros f l'; [done|]. simpl.
  destruct (l0 =? loop) eqn:E; zbool; [by intros [= <- <-]; subst|].
  destruct (pop loop l) as [[h l1]|]; [|done]. intros [= <- <-].
  rewrite (IH h l1 eq_refl). apply Permutation_swap.
Qed.

Lemma count_perm (l l' : list functor) f :
  l ≡ₚ l' -> count_occ functor_eq_dec l f = count_occ functor_eq_dec l' f.
Proof. intros H. by apply Permutation_count_occ. Qed.

Lemma waiting_pop loop f l s g :
  pop loop (pending s) = Some (f, l) ->
  waiting g s = (waiting g (set_pending l s) + Nat.b2n (bool_decide (f = g)))%nat.
Proof.
  intros H%pop_perm. unfold waiting. rewrite (count_perm _ _ g (Permutation_map snd H)).
  cbn [set_pending pending map snd count_occ].
  case_bool_decide; destruct (functor_eq_dec f g); simpl; done || lia.
Qed.

Lemma waiting_queue loop f s g :
  waiting g (queueInLoop loop f s) = (waiting g s + Nat.b2n (bool_decide (f = g)))%nat.
Proof.
  unfold waiting, queueInLoop. cbn [set_pending pending]. rewrite map_app, count_occ_app.
  cbn [map snd count_occ]. case_bool_decide; destruct (functor_eq_dec f g); simpl; done || lia.
Qed.

(** ** Lemmas: the names *)

Hypothesis ipPort_fits : blen ipPort_ <= 21.

(** Nothing is cut off, so that different connections have different names. *)
Lemma conn_name_inj p q :
  0 <= p < 2^31 -> 0 <= q < 2^31 -> conn_name p = conn_name q -> p = q.
Proof.
  intros Hp Hq H. unfold conn_name in H. apply app_inv_head in H.
  assert (Hl : forall n, 0 <= n < 2^31 ->
    take 63 (str "-" ++ ipPort_ ++ str "#" ++ Digits.to_string n) =
    str "-" ++ ipPort_ ++ str "#" ++ Digits.to_string n).
  { intros n Hn. apply take_ge. pose proof (Digits.to_string_length 10 n ltac:(lia) ltac:(lia)) as Hd.
    change (str "-") with ["-"%char]. change (str "#") with ["#"%char].
    unfold blen in *. rewrite !length_app. simpl. lia. }
  rewrite !Hl in H by done. apply app_inv_head, app_inv_head, app_inv_head in H.
  by apply Digits.to_string_inj in H; [|unfold SIZE_MAX; lia..].
Qed.

(** ** Lemmas: one connection *)

(** What happens to a connection, seen from the server. *)
Lemma run_tcp_spec p e s o :
  objects s !! p = Some o -> TcpConnection.wf (tcp o) -> TcpConnection.event_ok (tcp o) e ->
  exists c es, run_tcp p e s = Ok (set_objects (<[p := Conn (getLoop o) c]> (objects s)) s, es) /\
    TcpConnection.run_event e (tcp o) = Ok (tt, c, es) /\
    TcpConnection.event_spec (tcp o) e c es.
Proof.
  intros Ho Hwf He. destruct (wp_elim _ _ _ (TcpConnection.run_event_spec (tcp o) e Hwf He))
    as ([] & c & es & Hrun & Hspec).
  exists c, es. unfold run_tcp. rewrite Ho, Hrun. by split_and!.
Qed.

Lemma close_count es :
  existsb is_close es =
    negb (count_occ TcpConnection.callback_eq_dec (TcpConnection.called es) TcpConnection.CClose =? 0)%nat.
Proof.
  induction es as [|e es IH]; [done|]. cbn [existsb]. rewrite IH.
  destruct e as [| | | | | |[]]; try done.
Qed.

(** An event of the life of a connection calls the close callback exactly when it
    brings the connection down. *)
Lemma event_close c e c' es :
  TcpConnection.event_spec c e c' es -> TcpConnection.is_destroyed e = false ->
  TcpConnection.callbacks_ c = callbacks ->
  TcpConnection.callbacks_ c' = callbacks /\
  (TcpConnection.state_ c <> TcpConnection.kConnecting -> TcpConnection.state_ c' <> TcpConnection.kConnecting) /\
  TcpConnection.disconnected c' = TcpConnection.disconnected c || existsb is_close es /\
  (existsb is_close es = true -> TcpConnection.disconnected c = false).
Proof.
  intros (_ & _ & T) Hd Hcb. rewrite Hd in T. destruct T as [_ Hr (_ & _ & Hc) _ _ _ Hone].
  specialize (Hone ltac:(by rewrite Hcb) eq_refl). rewrite close_count. split_and!.
  - congruence.
  - intros Hne E. rewrite E in Hr. destruct (TcpConnection.state_ c); simpl in Hr; done || lia.
  - destruct (TcpConnection.disconnected c), (TcpConnection.disconnected c'),
      (count_occ _ _ _) as [|[|n]]; simpl in *; done || lia.
  - destruct (TcpConnection.disconnected c), (TcpConnection.disconnected c'),
      (count_occ _ _ _) as [|[|n]]; simpl in *; done || lia.
Qed.

Lemma established_state c :
  TcpConnection.state_ c = TcpConnection.kConnecting ->
  wp TcpConnection.connectEstablished c (fun _ c' _ => TcpConnection.state_ c' = TcpConnection.kConnected).
Proof.
  intros Hs. unfold TcpConnection.connectEstablished, TcpConnection.is_state.
  destruct (Channel.enableReading_spec (Channel.tie (TcpConnection.channel_ c))) as (ch & cs & Hch & _).
  apply wp_bind, wp_get. rewrite bool_decide_eq_true_2 by done. cbn [negb].
  wp_steps; (eapply TcpConnection.wp_on_channel; [exact Hch|]); by wp_steps.
Qed.

Lemma connectEstablished_ok p s o :
  objects s !! p = Some o -> TcpConnection.wf (tcp o) ->
  TcpConnection.callbacks_ (tcp o) = callbacks ->
  TcpConnection.state_ (tcp o) = TcpConnection.kConnecting ->
  exists c, connectEstablished p s = Ok (set_objects (<[p := Conn (getLoop o) c]> (objects s)) s) /\
    TcpConnection.wf c /\ TcpConnection.callbacks_ c = callbacks /\
    TcpConnection.state_ c = TcpConnection.kConnected.
Proof.
  intros Ho Hwf Hcb Hst.
  destruct (run_tcp_spec p TcpConnection.EvEstablished s o Ho Hwf Hst) as (c & es & E & Hr & Hspec).
  exists c. unfold connectEstablished. rewrite E. split_and!; [done | apply Hspec | |].
  - by destruct (event_close _ _ _ _ Hspec eq_refl Hcb).
  - pose proof (established_state _ Hst) as H. unfold wp in H.
    change (TcpConnection.run_event TcpConnection.EvEstablished) with TcpConnection.connectEstablished in Hr.
    by rewrite Hr in H.
Qed.

Lemma connectDestroyed_ok p s o :
  objects s !! p = Some o -> TcpConnection.wf (tcp o) ->
  TcpConnection.callbacks_ (tcp o) = callbacks -> TcpConnection.disconnected (tcp o) = true ->
  exists c, connectDestroyed p s =
      Ok (set_destroyed (destroyed s ++ [p]) (set_objects (<[p := Conn (getLoop o) c]> (objects s)) s)) /\
    TcpConnection.wf c /\ TcpConnection.callbacks_ c = callbacks /\ TcpConnection.disconnected c = true.
Proof.
  intros Ho Hwf Hcb Hd.
  destruct (run_tcp_spec p TcpConnection.EvDestroyed s o Ho Hwf) as (c & es & E & Hr & (Hw & _ & T)).
  { cbn [TcpConnection.event_ok]. by rewrite Hcb. }
  exists c. unfold connectDestroyed. rewrite E. destruct T as [_ Hrank (_ & _ & Hc) _ _ _ _].
  split_and!; [done | done | congruence |].
  apply bool_decide_eq_true in Hd. rewrite Hd in Hrank. apply bool_decide_eq_true.
  destruct (TcpConnection.state_ c); simpl in Hrank; done || lia.
Qed.

(** ** Lemmas: the other connections *)

Record same_at (s s' : t) (p : Z) : Prop := {
  s_object : objects s' !! p = objects s !! p;
  s_establish : waiting (FEstablish p) s' = waiting (FEstablish p) s;
  s_erase : waiting (FErase p) s' = waiting (FErase p) s;
  s_destroy : waiting (FDestroy p) s' = waiting (FDestroy p) s;
  s_destroyed : times_destroyed p s' = times_destroyed p s;
  s_listed : listed p s' <-> listed p s;
  s_pool : EventLoopThreadPool.loops_ (threadPool_ s') = EventLoopThreadPool.loops_ (threadPool_ s) /\
    EventLoopThreadPool.baseLoop_ (threadPool_ s') = EventLoopThreadPool.baseLoop_ (threadPool_ s);
  s_next : nextConnId_ s <= nextConnId_ s';
}.

Lemma inv_same s s' p : inv_at s p -> same_at s s' p -> inv_at s' p.
Proof.
  intros H [Ho He Hr Hd Ht Hl [Hp Hb] Hn]. unfold inv_at in *. rewrite Ho.
  destruct (objects s !! p) as [o|].
  - destruct H as [Hpn [? ? Hloop ? ? ?]]. split; [lia|].
    split; rewrite ?He, ?Hr, ?Hd, ?Ht, ?Hl; try done.
    rewrite Hloop. unfold EventLoopThreadPool.loop_of_turn. by rewrite Hp, Hb.
  - rewrite He, Hr, Hd, Ht, Hl. done.
Qed.

Lemma inv_object s p o : inv s -> objects s !! p = Some o -> 1 <= p < nextConnId_ s /\ conn_inv s p o.
Proof. intros Hs Ho. pose proof (i_at s Hs p) as H. unfold inv_at in H. by rewrite Ho in H. Qed.

(** A functor that waits concerns a connection that was made. *)
Lemma waiting_object s f p :
  inv s -> (f = FEstablish p \/ f = FErase p \/ f = FDestroy p) -> (0 < waiting f s)%nat ->
  exists o, objects s !! p = Some o.
Proof.
  intros Hs Hf Hw. pose proof (i_at s Hs p) as H. unfold inv_at in H.
  destruct (objects s !! p) as [o|]; [by exists o|].
  destruct H as (H1 & H2 & H3 & _). destruct Hf as [->|[->| ->]]; lia.
Qed.

(** The names of the other connections are untouched by those of [p]. *)
Lemma listed_range s q : inv s -> listed q s -> 0 <= q < 2^31.
Proof.
  intros Hs Hl. pose proof (i_at s Hs q) as H. unfold inv_at in H.
  pose proof (i_bound s Hs). destruct (objects s !! q); [lia|]. by destruct H as (_ & _ & _ & _ & []).
Qed.

Lemma listed_insert s s' p q :
  inv s -> 0 <= p < 2^31 -> q <> p ->
  connections_ s' = <[conn_name p := p]> (connections_ s) -> listed q s' <-> listed q s.
Proof.
  intros Hs Hp Hne E. unfold listed at 1. rewrite E, lookup_insert_Some. split.
  - intros [[_ <-]|[_ ?]]; done.
  - intros Hl. right. split; [|done]. intros H.
    apply conn_name_inj in H; [by subst | done | by apply (listed_range s)].
Qed.

Lemma listed_delete s s' p q :
  inv s -> 0 <= p < 2^31 -> q <> p ->
  connections_ s' = delete (conn_name p) (connections_ s) -> listed q s' <-> listed q s.
Proof.
  intros Hs Hp Hne E. unfold listed at 1. rewrite E, lookup_delete_Some. split; [by intros []|].
  intros Hl. split; [|done]. intros H.
  apply conn_name_inj in H; [by subst | done | by apply (listed_range s)].
Qed.

(** A step about [p] keeps the invariant of the other connections. *)
Lemma inv_frame s s' p :
  inv s -> (forall q, q <> p -> same_at s s' q) -> inv_at s' p -> forall q, inv_at s' q.
Proof.
  intros Hs Hq Hp q. destruct (decide (q = p)) as [->|Hne]; [done|].
  eapply inv_same; [by apply i_at | by apply Hq].
Qed.

Ltac fields :=
  cbn [set_connections set_objects set_pending set_destroyed queueInLoop getLoop tcp started_ nextConnId_
       connections_ threadPool_ acceptor_ objects pending destroyed] in *.

(** The state of a connection changes, and nothing else. *)
Lemma home_object s p o c f :
  objects s !! p = Some o ->
  home (set_objects (<[p := Conn (getLoop o) c]> (objects s)) s) f = home s f.
Proof.
  intros Ho. destruct f as [q|q|q]; simpl; try done;
    (destruct (decide (q = p)) as [->|]; [by rewrite lookup_insert_eq, Ho | by rewrite lookup_insert_ne]).
Qed.

Lemma make_callbacks sockfd c :
  TcpConnection.make sockfd callbacks = Ok c -> TcpConnection.callbacks_ c = callbacks.
Proof. unfold TcpConnection.make. intros (? & _ & (? & _ & [= <-])%obind_Ok)%obind_Ok. done. Qed.

(** The state after [newConnection], the new connection being [o] and [queued] the
    functors it added. *)
Definition added (o : conn) (pool : EventLoopThreadPool.t) (queued : list (Z * functor)) (s : t) : t :=
  let p := nextConnId_ s in
  mk (started_ s) (p + 1) (<[conn_name p := p]> (connections_ s)) pool (acceptor_ s)
     (<[p := o]> (objects s)) (pending s ++ queued) (destroyed s).

Lemma added_inv s o pool queued :
  inv s -> nextConnId_ s + 1 < 2^31 ->
  TcpConnection.wf (tcp o) -> TcpConnection.callbacks_ (tcp o) = callbacks ->
  TcpConnection.disconnected (tcp o) = false ->
  getLoop o = EventLoopThreadPool.loop_of_turn (nextConnId_ s - 1) (threadPool_ s) ->
  EventLoopThreadPool.cursor (nextConnId_ s + 1 - 1) pool ->
  EventLoopThreadPool.loops_ pool = EventLoopThreadPool.loops_ (threadPool_ s) ->
  EventLoopThreadPool.baseLoop_ pool = EventLoopThreadPool.baseLoop_ (threadPool_ s) ->
  queued = (if bool_decide (TcpConnection.state_ (tcp o) = TcpConnection.kConnecting)
            then [(getLoop o, FEstablish (nextConnId_ s))] else []) ->
  inv (added o pool queued s).
Proof.
  intros Hs Hn Hwf Hcb Hd Hl Hcur Hpl Hpb Hq. set (p := nextConnId_ s) in *.
  assert (Hpo : objects s !! p = None).
  { destruct (objects s !! p) eqn:E; [|done]. apply (inv_object s) in E as [? _]; [lia|done]. }
  pose proof (i_at s Hs p) as Hp. unfold inv_at in Hp. rewrite Hpo in Hp.
  destruct Hp as (W1 & W2 & W3 & W4 & _). pose proof (i_bound s Hs).
  assert (Hw : forall g, waiting g (added o pool queued s) = (waiting g s + Nat.b2n
    (bool_decide (g = FEstablish p /\ TcpConnection.state_ (tcp o) = TcpConnection.kConnecting)))%nat).
  { intros g. unfold waiting, added. cbn [pending]. rewrite map_app, count_occ_app, Hq. f_equal.
    case_bool_decide as Hst; cbn [map snd count_occ].
    - destruct (functor_eq_dec _ g); case_bool_decide; naive_solver.
    - case_bool_decide; naive_solver. }
  split; [apply (inv_frame s _ p Hs)| | | | |]; cbn [added nextConnId_ threadPool_ connections_ pending].
  - intros q Hne. split; rewrite ?Hw; cbn [added objects threadPool_ nextConnId_]; try done; try lia.
    + by rewrite lookup_insert_ne.
    + rewrite bool_decide_eq_false_2; [simpl; lia|naive_solver].
    + by apply (listed_insert s _ p q); [|unfold p in *; lia|..].
  - unfold inv_at. cbn [added objects nextConnId_]. rewrite lookup_insert_eq. split; [lia|].
    split; rewrite ?Hw, ?Hd; try done.
    + rewrite Hl. unfold EventLoopThreadPool.loop_of_turn. cbn [added threadPool_]. by rewrite Hpl, Hpb.
    + rewrite W1. do 2 case_bool_decide; naive_solver.
    + change (times_destroyed p (added o pool queued s)) with (times_destroyed p s).
      rewrite W2, W3, W4, !bool_decide_eq_false_2 by naive_solver. done.
    + unfold listed. cbn [added connections_]. rewrite lookup_insert_eq. naive_solver.
  - intros n q [[<- <-]|[_ Hq']]%lookup_insert_Some; [done|]. by apply (i_names s Hs).
  - intros l f [Hin|Hin]%elem_of_app.
    + apply (i_home s Hs) in Hin. destruct f as [q|q|q]; simpl in *; try done;
        (rewrite lookup_insert_ne; [done | intros <-; fold p in Hin; by rewrite Hpo in Hin]).
    + rewrite Hq in Hin. case_bool_decide; [|by apply elem_of_nil in Hin].
      apply list_elem_of_singleton in Hin. injection Hin as -> ->. simpl. by rewrite lookup_insert_eq.
  - done.
  - lia.
  - rewrite Hpl, Hpb. apply (i_pool s Hs).
Qed.

Lemma newConnection_inv s sockfd :
  inv s -> nextConnId_ s + 1 < 2^31 ->
  exists s', newConnection sockfd s = Ok s' /\ inv s' /\ nextConnId_ s' = nextConnId_ s + 1.
Proof.
  intros Hs Hn. unfold newConnection. pose proof (i_bound s Hs). pose proof (i_pool s Hs) as [Hpn Hpb].
  destruct (EventLoopThreadPool.getNextLoop_spec (nextConnId_ s - 1) (threadPool_ s)) as
    (pool & -> & Hcur & Hl & Hb); [lia | apply (i_cursor s Hs) | done |]. cbn [obind].
  replace (nextConnId_ s - 1 + 1) with (nextConnId_ s + 1 - 1) in Hcur by lia.
  set (ioLoop := EventLoopThreadPool.loop_of_turn _ _).
  destruct (TcpConnection.connection_make_wf sockfd callbacks) as (c & Hc & Hwf & Hst & _).
  pose proof (make_callbacks _ _ Hc) as Hcb. rewrite Hc. cbn [obind].
  destruct (ioLoop =? loop_).
  - edestruct (connectEstablished_ok (nextConnId_ s)) as (c' & -> & Hwf' & Hcb' & Hst');
      [apply lookup_insert_eq | done.. |].
    eexists. split; [reflexivity|]. fields. rewrite insert_insert_eq.
    split; [|done]. pose proof (added_inv s (Conn ioLoop c') pool [] Hs Hn) as Ha.
    unfold added in Ha. rewrite app_nil_r in Ha. apply Ha; cbn [tcp getLoop]; try done.
    + unfold TcpConnection.disconnected, TcpConnection.is_state. by rewrite Hst'.
    + by rewrite Hst'.
  - eexists. split; [reflexivity|]. split; [|done].
    apply (added_inv s (Conn ioLoop c) pool [(ioLoop, FEstablish (nextConnId_ s))] Hs Hn);
      cbn [tcp getLoop]; try done.
    + unfold TcpConnection.disconnected, TcpConnection.is_state. by rewrite Hst.
    + by rewrite Hst.
Qed.

Lemma accept_inv answers s :
  inv s -> nextConnId_ s + Z.of_nat (length answers) < 2^31 ->
  exists s' closed, Acceptor.handleRead (Some newConnection) answers s = Ok (s', closed) /\ inv s'.
Proof.
  revert s. induction answers as [|[fd|e] answers IH]; intros s Hs Hn; cbn [Acceptor.handleRead]; [by eauto| |by eauto].
  cbn [length] in Hn. destruct (newConnection_inv s fd Hs) as (s1 & -> & Hs1 & Hn1); [lia|].
  cbn [obind]. apply IH; [done | lia].
Qed.

Definition subject (f : functor) : Z :=
  match f with FEstablish p | FErase p | FDestroy p => p end.

(** A step about the connection [p]: what is to be shown of it alone. *)
Lemma subject_inv s s' p o c :
  inv s -> objects s !! p = Some o ->
  objects s' = <[p := Conn (getLoop o) c]> (objects s) ->
  connections_ s' = connections_ s \/ connections_ s' = delete (conn_name p) (connections_ s) ->
  threadPool_ s' = threadPool_ s -> nextConnId_ s' = nextConnId_ s ->
  (forall g, subject g <> p -> waiting g s' = waiting g s) ->
  (forall q, q <> p -> times_destroyed q s' = times_destroyed q s) ->
  (forall l f, (l, f) ∈ pending s' -> (l, f) ∈ pending s \/ home s f = Some l) ->
  conn_inv s' p (Conn (getLoop o) c) ->
  inv s'.
Proof.
  intros Hs Ho Hobj Hconn Hpool Hnext Hw Ht Hpend Hp.
  destruct (inv_object s p o Hs Ho) as [Hpn _]. pose proof (i_bound s Hs) as Hb.
  split; rewrite ?Hpool, ?Hnext; try apply Hs.
  - apply (inv_frame s s' p Hs).
    + intros q Hne. split; try (by apply Hw); rewrite ?Hpool, ?Hnext; try done; try lia.
      * by rewrite Hobj, lookup_insert_ne.
      * by apply Ht.
      * destruct Hconn as [Hc|Hc]; [unfold listed; by rewrite Hc|].
        by apply (listed_delete s s' p q); [|lia|..].
    + unfold inv_at. rewrite Hobj, lookup_insert_eq, Hnext. done.
  - intros n q Hn. apply (i_names s Hs). destruct Hconn as [Hc|Hc]; rewrite Hc in Hn; [done|].
    by apply lookup_delete_Some in Hn as [_ Hn].
  - intros l f Hin.
    assert (Hh : home s f = Some l) by (destruct (Hpend _ _ Hin); [by apply (i_home s Hs)|done]).
    rewrite <- Hh, <- (home_object s p o c f Ho). destruct f; simpl; by rewrite ?Hobj.
Qed.

Lemma pop_elem loop f l s : pop loop (pending s) = Some (f, l) ->
  (loop, f) ∈ pending s /\ (forall x, x ∈ l -> x ∈ pending s) /\ (0 < waiting f s)%nat.
Proof.
  intros H. pose proof (waiting_pop loop f l s f H) as Hw. rewrite bool_decide_eq_true_2 in Hw by done.
  apply pop_perm in H. split_and!; [rewrite H; by left | intros x Hx; rewrite H; by right | simpl in Hw; lia].
Qed.

(** Functors about other connections are not counted. *)
Lemma waiting_pop_ne loop f l s g :
  pop loop (pending s) = Some (f, l) -> subject g <> subject f ->
  waiting g (set_pending l s) = waiting g s.
Proof.
  intros H Hne. rewrite (waiting_pop loop f l s g H), bool_decide_eq_false_2; [simpl; lia|].
  by intros ->.
Qed.

Lemma disconnected_connecting c :
  TcpConnection.state_ c = TcpConnection.kConnecting -> TcpConnection.disconnected c = false.
Proof. intros E. unfold TcpConnection.disconnected, TcpConnection.is_state. by rewrite E. Qed.

Lemma run_establish s loop p l :
  inv s -> pop loop (pending s) = Some (FEstablish p, l) ->
  exists s', run_functor (FEstablish p) (set_pending l s) = Ok s' /\ inv s'.
Proof.
  intros Hs Hpop. destruct (pop_elem _ _ _ _ Hpop) as (Hin & Hsub & Hpos).
  destruct (waiting_object s (FEstablish p) p Hs) as [o Ho]; [by left | done|].
  destruct (inv_object s p o Hs Ho) as [Hpn [Hwf Hcb Hl He Hov Hli]].
  assert (Hst : TcpConnection.state_ (tcp o) = TcpConnection.kConnecting).
  { case_bool_decide; [done|]. simpl in He. lia. }
  pose proof (fun g => waiting_pop _ _ _ _ g Hpop) as Hw.
  destruct (connectEstablished_ok p (set_pending l s) o Ho Hwf Hcb Hst) as (c & Hc & Hwf' & Hcb' & Hst').
  cbn [run_functor]. rewrite Hc. eexists. split; [done|].
  assert (Hd : TcpConnection.disconnected c = TcpConnection.disconnected (tcp o)).
  { rewrite (disconnected_connecting _ Hst). unfold TcpConnection.disconnected, TcpConnection.is_state.
    by rewrite Hst'. }
  pose proof (Hw (FErase p)) as W1. pose proof (Hw (FDestroy p)) as W2. pose proof (Hw (FEstablish p)) as W0.
  rewrite bool_decide_eq_false_2 in W1, W2 by done. rewrite bool_decide_eq_true_2 in W0 by done.
  rewrite bool_decide_eq_true_2 in He by done.
  apply (subject_inv s _ p o c Hs Ho); fields; auto.
  - intros g Hne. exact (waiting_pop_ne _ _ _ _ g Hpop Hne).
  - split; fields; try done.
    + change (waiting (FEstablish p) (set_pending l s) =
        Nat.b2n (bool_decide (TcpConnection.state_ c = TcpConnection.kConnecting))).
      rewrite bool_decide_eq_false_2 by congruence. simpl in *. lia.
    + rewrite Hd, <- Hov. change (waiting (FErase p) (set_pending l s) + waiting (FDestroy p) (set_pending l s)
        + times_destroyed p s = waiting (FErase p) s + waiting (FDestroy p) s + times_destroyed p s)%nat.
      simpl in *. lia.
    + rewrite Hd. change (listed p s <-> TcpConnection.disconnected (tcp o) = false \/
        waiting (FErase p) (set_pending l s) = 1%nat). rewrite Hli. simpl in *.
      by replace (waiting (FErase p) (set_pending l s)) with (waiting (FErase p) s) by lia.
Qed.

Lemma run_erase s loop p l :
  inv s -> pop loop (pending s) = Some (FErase p, l) ->
  exists s', run_functor (FErase p) (set_pending l s) = Ok s' /\ inv s'.
Proof.
  intros Hs Hpop. destruct (pop_elem _ _ _ _ Hpop) as (Hin & Hsub & Hpos).
  destruct (waiting_object s (FErase p) p Hs) as [o Ho]; [by right; left | done|].
  destruct (inv_object s p o Hs Ho) as [Hpn [Hwf Hcb Hl He Hov Hli]].
  pose proof (fun g => waiting_pop _ _ _ _ g Hpop) as Hw.
  cbn [run_functor]. unfold erase. fields. rewrite Ho. eexists. split; [done|].
  match goal with |- inv ?x => set (s' := x) end.
  assert (Hq : forall g, waiting g s' =
    (waiting g (set_pending l s) + Nat.b2n (bool_decide (FDestroy p = g)))%nat).
  { intros g. exact (waiting_queue (getLoop o) (FDestroy p) (set_pending l s) g). }
  pose proof (Hw (FErase p)) as W1. pose proof (Hw (FDestroy p)) as W2. pose proof (Hw (FEstablish p)) as W0.
  pose proof (Hq (FErase p)) as Q1. pose proof (Hq (FDestroy p)) as Q2. pose proof (Hq (FEstablish p)) as Q0.
  rewrite bool_decide_eq_false_2 in W0, W2, Q1, Q0 by done. rewrite bool_decide_eq_true_2 in W1, Q2 by done.
  assert (Hd : TcpConnection.disconnected (tcp o) = true).
  { destruct (TcpConnection.disconnected (tcp o)); [done|]. simpl in *. lia. }
  rewrite Hd in Hov, Hli. simpl in W0, W1, W2, Q0, Q1, Q2, Hov.
  apply (subject_inv s _ p o (tcp o) Hs Ho).
  - unfold s'. fields. rewrite insert_id; [done|]. rewrite Ho. by destruct o.
  - by right.
  - done.
  - done.
  - intros g Hne. rewrite Hq, (waiting_pop_ne _ _ _ _ g Hpop Hne), bool_decide_eq_false_2; [simpl; lia|].
    by intros <-.
  - done.
  - unfold s'. fields. intros l0 f [Hf|Hf]%elem_of_app; [left; by apply Hsub|].
    apply list_elem_of_singleton in Hf. injection Hf as -> ->. right. simpl. by rewrite Ho.
  - split; cbn [tcp getLoop]; try done; rewrite ?Hd.
    + rewrite Q0. lia.
    + change (times_destroyed p s') with (times_destroyed p s). simpl. lia.
    + unfold listed, s'. fields. rewrite lookup_delete_eq. split; [done|].
      intros [|H]; [done|]. fold s' in H. lia.
Qed.

Lemma run_destroy s loop p l :
  inv s -> pop loop (pending s) = Some (FDestroy p, l) ->
  exists s', run_functor (FDestroy p) (set_pending l s) = Ok s' /\ inv s'.
Proof.
  intros Hs Hpop. destruct (pop_elem _ _ _ _ Hpop) as (Hin & Hsub & Hpos).
  destruct (waiting_object s (FDestroy p) p Hs) as [o Ho]; [by right; right | done|].
  destruct (inv_object s p o Hs Ho) as [Hpn [Hwf Hcb Hl He Hov Hli]].
  pose proof (fun g => waiting_pop _ _ _ _ g Hpop) as Hw.
  assert (Hd : TcpConnection.disconnected (tcp o) = true).
  { destruct (TcpConnection.disconnected (tcp o)); [done|]. simpl in *. lia. }
  destruct (connectDestroyed_ok p (set_pending l s) o Ho Hwf Hcb Hd) as (c & Hc & Hwf' & Hcb' & Hd').
  cbn [run_functor]. rewrite Hc. eexists. split; [done|]. match goal with |- inv ?x => set (s' := x) end.
  pose proof (Hw (FErase p)) as W1. pose proof (Hw (FDestroy p)) as W2. pose proof (Hw (FEstablish p)) as W0.
  rewrite bool_decide_eq_false_2 in W0, W1 by done. rewrite bool_decide_eq_true_2 in W2 by done.
  rewrite Hd in Hov, Hli. simpl in W0, W1, W2, Hov.
  assert (Ht : forall q, times_destroyed q s' = (times_destroyed q s + Nat.b2n (bool_decide (p = q)))%nat).
  { intros q. unfold times_destroyed, s'. fields. rewrite count_occ_app. cbn [count_occ].
    destruct (bool_decide_reflect (p = q)), (Z.eq_dec p q); simpl; done || lia. }
  apply (subject_inv s _ p o c Hs Ho); try done.
  - by left.
  - intros g Hne. exact (waiting_pop_ne _ _ _ _ g Hpop Hne).
  - intros q Hne. rewrite Ht, bool_decide_eq_false_2 by done. simpl. lia.
  - intros l0 f Hf. left. by apply Hsub.
  - split; cbn [tcp getLoop]; try done; rewrite ?Hd'.
    + change (waiting (FEstablish p) s') with (waiting (FEstablish p) (set_pending l s)).
      rewrite W0, Nat.add_0_r in He. rewrite He. f_equal. apply bool_decide_ext.
      apply bool_decide_eq_true in Hd, Hd'. by rewrite Hd, Hd'.
    + change (waiting (FErase p) s') with (waiting (FErase p) (set_pending l s)).
      change (waiting (FDestroy p) s') with (waiting (FDestroy p) (set_pending l s)).
      rewrite Ht, bool_decide_eq_true_2 by done. simpl. lia.
    + change (waiting (FErase p) s') with (waiting (FErase p) (set_pending l s)).
      change (listed p s') with (listed p s). rewrite Hli, W1. by rewrite Nat.add_0_r.
Qed.

(** Anything that happens to an established connection. *)
Lemma conn_inv_step s p e :
  inv s -> enabled (SConn p e) s ->
  exists s', step (SConn p e) s = Ok s' /\ inv s'.
Proof.
  intros Hs He0.
  assert (TcpConnection.is_destroyed e = false /\ exists o, objects s !! p = Some o /\
    TcpConnection.state_ (tcp o) <> TcpConnection.kConnecting /\ TcpConnection.event_ok (tcp o) e)
    as (Hnd & o & Ho & Hnc & Hok) by (by destruct e).
  clear He0. destruct (inv_object s p o Hs Ho) as [Hpn [Hwf Hcb Hl He Hov Hli]].
  destruct (run_tcp_spec p e s o Ho Hwf Hok) as (c & es & E & _ & Hspec).
  destruct (event_close _ _ _ _ Hspec Hnd Hcb) as (Hcb' & Hnc' & Hd & Hone). specialize (Hnc' Hnc).
  cbn [step]. rewrite E. cbn [obind]. rewrite bool_decide_eq_false_2 in He by done.
  destruct (existsb is_close es).
  - specialize (Hone eq_refl). rewrite Hone in Hd, Hov, Hli. simpl in Hd, Hov.
    unfold closeCallback, erase. fields. rewrite lookup_insert_eq. cbn [getLoop].
    destruct (getLoop o =? loop_).
    + eexists. split; [done|]. match goal with |- inv ?x => set (s' := x) end.
      assert (Hq : forall g, waiting g s' = (waiting g s + Nat.b2n (bool_decide (FDestroy p = g)))%nat).
      { intros g. exact (waiting_queue (getLoop o) (FDestroy p) s g). }
      apply (subject_inv s _ p o c Hs Ho); try done.
      * by right.
      * intros g Hne. rewrite Hq, bool_decide_eq_false_2; [simpl; lia | by intros <-].
      * unfold s'. fields. intros l0 f [Hf|Hf]%elem_of_app; [by left|].
        apply list_elem_of_singleton in Hf. injection Hf as -> ->. right. simpl. by rewrite Ho.
      * split; cbn [tcp getLoop]; try done; [by apply Hspec| | |]; rewrite ?Hq, ?Hd.
        -- rewrite !bool_decide_eq_false_2 by done. simpl in *. lia.
        -- change (times_destroyed p s') with (times_destroyed p s).
           rewrite bool_decide_eq_false_2, bool_decide_eq_true_2 by done. simpl. lia.
        -- rewrite bool_decide_eq_false_2 by done. unfold listed, s'. fields. rewrite lookup_delete_eq.
           split; [done|]. intros [|H]; [done|]. simpl in H. lia.
    + eexists. split; [done|]. match goal with |- inv ?x => set (s' := x) end.
      assert (Hq : forall g, waiting g s' = (waiting g s + Nat.b2n (bool_decide (FErase p = g)))%nat).
      { intros g. exact (waiting_queue loop_ (FErase p) s g). }
      apply (subject_inv s _ p o c Hs Ho); try done.
      * by left.
      * intros g Hne. rewrite Hq, bool_decide_eq_false_2; [simpl; lia | by intros <-].
      * unfold s'. fields. intros l0 f [Hf|Hf]%elem_of_app; [by left|].
        apply list_elem_of_singleton in Hf. injection Hf as -> ->. by right.
      * split; cbn [tcp getLoop]; try done; [by apply Hspec| | |]; rewrite ?Hq, ?Hd.
        -- rewrite !bool_decide_eq_false_2 by done. simpl in *. lia.
        -- change (times_destroyed p s') with (times_destroyed p s).
           rewrite bool_decide_eq_true_2, bool_decide_eq_false_2 by done. simpl. lia.
        -- rewrite bool_decide_eq_true_2 by done. change (listed p s') with (listed p s).
           rewrite Hli. simpl. split; [intros _; right; lia | by left].
  - rewrite orb_false_r in Hd. eexists. split; [done|].
    apply (subject_inv s _ p o c Hs Ho); try done; [by left | by left|].
    split; cbn [tcp getLoop]; try done; [by apply Hspec| | |]; rewrite ?Hd; try done.
    by rewrite bool_decide_eq_false_2.
Qed.

Lemma step_inv e s : inv s -> enabled e s -> exists s', step e s = Ok s' /\ inv s'.
Proof.
  intros Hs He. destruct e as [answers|loop|p e].
  - destruct (accept_inv answers s Hs He) as (s' & closed & E & Hs'). cbn [step]. rewrite E. eauto.
  - cbn [step]. destruct (pop loop (pending s)) as [[[p|p|p] l]|] eqn:E; [..|by eauto].
    + by apply (run_establish s loop).
    + by apply (run_erase s loop).
    + by apply (run_destroy s loop).
  - by apply conn_inv_step.
Qed.

Lemma run_inv evs s : inv s -> run_enabled evs s -> exists s', run evs s = Ok s' /\ inv s'.
Proof.
  revert s. induction evs as [|e evs IH]; intros s Hs; [by eauto|]. cbn [run run_enabled].
  intros [He Hrun]. destruct (step_inv e s Hs He) as (s1 & E & Hs1). rewrite E in *. by apply IH.
Qed.

(** The loops of the pool do not change. *)
Definition loops (s : t) : list Z := EventLoopThreadPool.loops_ (threadPool_ s).

Lemma run_tcp_loops p e s s' es : run_tcp p e s = Ok (s', es) -> loops s' = loops s.
Proof.
  unfold run_tcp. destruct (objects s !! p); [|done].
  by intros ([[? ?] ?] & _ & [= <- _])%obind_Ok.
Qed.

Lemma run_functor_loops f s s' : run_functor f s = Ok s' -> loops s' = loops s.
Proof.
  destruct f as [p|p|p]; simpl.
  - intros ([s1 es] & H%run_tcp_loops & [= <-])%obind_Ok. done.
  - unfold erase. destruct (objects s !! p); [|done]. by intros [= <-].
  - intros ([s1 es] & H%run_tcp_loops & [= <-])%obind_Ok. done.
Qed.

Lemma newConnection_loops fd s s' : newConnection fd s = Ok s' -> loops s' = loops s.
Proof.
  unfold newConnection. intros ([l pool] & Hg & (c & _ & Hr)%obind_Ok)%obind_Ok.
  assert (Hp : EventLoopThreadPool.loops_ pool = loops s).
  { unfold EventLoopThreadPool.getNextLoop in Hg. unfold loops.
    destruct (EventLoopThreadPool.loops_ (threadPool_ s)) as [|l0 ls] eqn:E; [by simplify_eq|].
    destruct ((l0 :: ls) !! _); [|done]. by injection Hg as _ <-. }
  rewrite <- Hp. destruct (l =? loop_); [|by injection Hr as <-].
  by apply (run_functor_loops (FEstablish _)) in Hr.
Qed.

Lemma step_loops e s s' : step e s = Ok s' -> loops s' = loops s.
Proof.
  destruct e as [answers|loop|p e]; cbn [step].
  - intros ([s1 closed] & H & [= <-])%obind_Ok. revert s H.
    induction answers as [|[fd|er] answers IH]; intros s; cbn [Acceptor.handleRead]; try by intros [= <- _].
    intros (s2 & H2%newConnection_loops & H)%obind_Ok. by rewrite (IH _ H).
  - destruct (pop loop (pending s)) as [[f l]|]; [|by intros [= <-]].
    intros H. by rewrite (run_functor_loops _ _ _ H).
  - intros ([s1 es] & H%run_tcp_loops & Hr)%obind_Ok. rewrite <- H. revert Hr.
    destruct (existsb is_close es); [|by intros [= <-]]. unfold closeCallback.
    destruct (objects s1 !! p) as [o|] eqn:E; [|done]. destruct (getLoop o =? loop_).
    + apply (run_functor_loops (FErase p)).
    + by intros [= <-].
Qed.

Lemma run_loops evs s s' : run evs s = Ok s' -> loops s' = loops s.
Proof.
  revert s. induction evs as [|e evs IH]; intros s; [by intros [= <-]|]. cbn [run].
  intros (s1 & H1%step_loops & H)%obind_Ok. by rewrite (IH _ H).
Qed.

(** A started server: [n] threads, whose loops are [threads 0], [threads 1], ... *)
Definition started (acceptfd n : Z) (cb : bool) (threads : nat -> Z) : outcome t :=
  start cb threads (setThreadNum n (make acceptfd)).

Lemma started_inv acceptfd n cb threads :
  n < 2^31 ->
  exists s, started acceptfd n cb threads = Ok s /\ inv s /\
    EventLoopThreadPool.loops_ (threadPool_ s) = map threads (seq 0 (Z.to_nat n)).
Proof.
  intros Hn. unfold started, start. cbn [setThreadNum make started_].
  change (0 =? 0) with true. cbv iota.
  unfold EventLoopThreadPool.start, Acceptor.listen. cbv beta iota zeta.
  destruct (Channel.enableReading_spec (Acceptor.acceptChannel_ (acceptor_ (setThreadNum n (make acceptfd)))))
    as (ch & cs & -> & _).
  cbn [obind]. eexists. split; [reflexivity|]. split; [|done].
  split; fields; unfold make, setThreadNum; fields.
  - intros p. unfold inv_at. fields. rewrite lookup_empty. split_and!; try done.
  - intros m p. by rewrite lookup_empty.
  - intros l f []%elem_of_nil.
  - unfold EventLoopThreadPool.cursor. cbn [EventLoopThreadPool.loops_ EventLoopThreadPool.next_].
    right. change (1 - 1) with 0. by rewrite Zmod_0_l.
  - lia.
  - cbn [EventLoopThreadPool.loops_ EventLoopThreadPool.baseLoop_ EventLoopThreadPool.setThreadNum
         EventLoopThreadPool.make EventLoopThreadPool.numThreads_ app].
    rewrite length_map, length_seq. split; [lia|done].
Qed.

(** ** Properties *)


(** Connections are spread over the loops in turn: the [p]-th one runs on the
    loop of thread [(p - 1) mod n] (on the base loop without threads), and every
    functor queued for it waits on that loop, those that touch the map on the base
    loop. *)
Theorem connections_round_robin (acceptfd n : Z) (cb : bool) (threads : nat -> Z) (evs : list event)
    (s0 s : t) :
  n < 2^31 ->
  started acceptfd n cb threads = Ok s0 ->
  run_enabled evs s0 ->
  run evs s0 = Ok s ->
  (forall p o, objects s !! p = Some o ->
     getLoop o = if n <=? 0 then loop_ else threads (Z.to_nat ((p - 1) mod n))) /\
  (forall l f, (l, f) ∈ pending s -> home s f = Some l).
Proof.
  intros Hn E0 Hrun E. destruct (started_inv acceptfd n cb threads Hn) as (s0' & E0' & Hs0 & Hl0).
  rewrite E0 in E0'. injection E0' as <-.
  destruct (run_inv evs s0 Hs0 Hrun) as (s' & E' & Hs). pose proof (run_loops _ _ _ E) as Hl.
  unfold loops in Hl. rewrite E in E'. injection E' as <-. split; [|apply (i_home s Hs)].
  intros p o Ho. destruct (inv_object s p o Hs Ho) as [Hp [_ _ Hloop _ _ _]]. rewrite Hloop.
  unfold EventLoopThreadPool.loop_of_turn. rewrite Hl, Hl0, (proj2 (i_pool s Hs)), length_map, length_seq.
  destruct (n <=? 0) eqn:En; zbool.
  - by replace (Z.to_nat n) with 0%nat by lia.
  - rewrite Z2Nat.id by lia. pose proof (Z.mod_pos_bound (p - 1) n En).
    rewrite list_lookup_fmap, lookup_seq_lt by lia. simpl. done.
Qed.

End server.

(** Different connections of a server have different names, whatever the address
    it listens on: the 64 characters that [newConnection] formats them into are
    enough, so that no connection replaces another one in the map. *)
Theorem connection_names_distinct (name : bytes) (a : InetAddress.t) (p q : Z) :
  InetAddress.wf a ->
  0 <= p < 2^31 ->
  0 <= q < 2^31 ->
  conn_name name (InetAddress.toIpPort a) p = conn_name name (InetAddress.toIpPort a) q ->
  p = q.
Proof. intros Ha Hp Hq. by apply conn_name_inj; [apply InetAddress.toIpPort_length|..]. Qed.

(** ** Witnesses *)

Definition test_addr : InetAddress.t := InetAddress.make (127, 0, 0, 1) 8080.
Definition test_ip : bytes := InetAddress.toIpPort test_addr.
Definition test_threads (i : nat) : Z := 100 + Z.of_nat i.

(** Three connections on two threads; the first one is closed by its peer, erased on
    the base loop and destroyed on its own. *)
Definition server_run : list event :=
  [SAccept [SysOk 7; SysOk 8; SysOk 9; SysErr EAGAIN]; SRun 100; SRun 101; SConn 1 TcpConnection.EvClose;
   SRun 1; SRun 100; SRun 100].

Definition server0 : t :=
  Eval vm_compute in
  match started 1 5 2 true test_threads with Ok s => s | Fault _ => make 1 5 end.

Lemma server_run_enabled : run_enabled 1 (str "chat") test_ip true false server_run server0.
Proof.
  vm_compute. split_and!; try exact I; try reflexivity.
  eexists. split; [reflexivity|]. split; [discriminate | exact I].
Qed.

Lemma test_ip_fits : blen test_ip <= 21.
Proof. vm_compute. discriminate. Qed.


Definition server_after : t :=
  match run 1 (str "chat") test_ip true false server_run server0 with Ok s => s | Fault _ => server0 end.

Lemma connections_round_robin_witness :
  (forall p o, objects server_after !! p = Some o ->
     getLoop o = if 2 <=? 0 then 1 else test_threads (Z.to_nat ((p - 1) mod 2))) /\
  (forall l f, (l, f) ∈ pending server_after -> home 1 server_after f = Some l).
Proof.
  apply (connections_round_robin 1 (str "chat") test_ip true false test_ip_fits 5 2 true test_threads server_run
    server0); [zclosed | vm_compute; reflexivity | apply server_run_enabled | vm_compute; reflexivity].
Defined.

Lemma connection_names_distinct_witness :
  InetAddress.wf test_addr /\
  (conn_name (str "chat") test_ip 1 = conn_name (str "chat") test_ip 2 -> 1 = 2).
Proof.
  assert (Hw : InetAddress.wf test_addr) by (split; vm_compute; split_and!; try discriminate; reflexivity).
  split; [exact Hw|]. apply (connection_names_distinct (str "chat") test_addr 1 2 Hw); zclosed.
Defined.

End TcpServer.
