(* ===== verification/Teardown.v ===== *)
(** * Teardown: how the listening socket and the server come to life and go

    The constructor and the destructor of src/src/tcp/Acceptor.cpp with the system calls
    of its [Socket], and the destructor of src/src/tcp/TcpServer.cpp, which takes the
    connections that are left down on their own loops. *)

From stdpp Require Import sorting.
From S2P Require Import Prelude Buffer Digits Channel Duration Socket TcpConnection TcpServer.

Module AcceptorLife.

(** What an acceptor does: calls on its socket, and [epoll_ctl] calls. *)
Inductive effect := ESock (e : Socket.effect) | ECtl (c : Channel.ctl).

(** The constructor, given what [socket], [fcntl(F_GETFL)] and [bind] answer. *)
Definition construct (socket_r getfl_r bind_r : sysret) : outcome (Socket.ended Acceptor.t * list effect) :=
  let (acceptSocket, es0) := Socket.make socket_r in
  let a := Acceptor.make (Socket.getFd acceptSocket) in
  let! (r, _, es) := Socket.andThen (Socket.setNonBlocking getfl_r) (fun _ =>
    Socket.andThen (Socket.setReuseAddr true) (fun _ => Socket.bindAddress bind_r)) acceptSocket in
  Ok (match r with
      | Socket.Returned _ => Socket.Returned a
      | Socket.Exited s => Socket.Exited s
      end, map ESock (es0 ++ es)).

(** [listen()], given what [::listen] answers. *)
Definition listen (listen_r : sysret) (a : Acceptor.t) :
    outcome (Socket.ended Acceptor.t * list effect) :=
  let! (r, _, es) := Socket.listen listen_r (Socket.mk (Acceptor.acceptSocket_ a)) in
  match r with
  | Socket.Exited s => Ok (Socket.Exited s, map ESock es)
  | Socket.Returned _ =>
      let! (_, ch, cs) := Channel.enableReading (Acceptor.acceptChannel_ a) in
      Ok (Socket.Returned (Acceptor.mk (Acceptor.acceptSocket_ a) ch true), map ESock es ++ map ECtl cs)
  end.

(** The destructor, and then those of the members: the channel leaves epoll before the
    descriptor is closed. *)
Definition destroy (a : Acceptor.t) : outcome (list effect) :=
  let! (_, ch, cs) := (Channel.disableAll ;;; Channel.remove) (Acceptor.acceptChannel_ a) in
  Ok (map ECtl cs ++ map ESock (Socket.destroy (Socket.mk (Acceptor.acceptSocket_ a)))).

Definition sock_effects (es : list effect) : list Socket.effect :=
  omap (fun e => match e with ESock e => Some e | ECtl _ => None end) es.

Lemma sock_effects_sock es : sock_effects (map ESock es) = es.
Proof. induction es as [|e es IH]; [done|]. simpl. by f_equal. Qed.
Lemma sock_effects_ctl cs : sock_effects (map ECtl cs) = [].
Proof. by induction cs. Qed.
Lemma sock_effects_app es es' : sock_effects (es ++ es') = sock_effects es ++ sock_effects es'.
Proof. apply omap_app. Qed.

(** Without a socket that can be bound there is no acceptor: the process ends with
    status 1; otherwise the acceptor has the descriptor and does not listen yet. *)
Lemma construct_spec socket_r getfl_r bind_r :
  exists es, construct socket_r getfl_r bind_r =
    Ok (match bind_r with
        | SysOk _ => Socket.Returned (Acceptor.make (Socket.fd_of socket_r))
        | SysErr _ => Socket.Exited 1
        end, es) /\ Socket.closed (sock_effects es) = [].
Proof.
  unfold construct. destruct socket_r as [fd|e], bind_r as [n|e']; simpl;
    (eexists; split; [reflexivity|]); try case_match; done.
Qed.

(** [listen] on a socket that can listen is [Acceptor.listen]. *)
Lemma listen_spec n a :
  exists a' es, Acceptor.listen a = Ok a' /\ listen (SysOk n) a = Ok (Socket.Returned a', es).
Proof.
  unfold listen, Acceptor.listen. destruct (Channel.enableReading_spec (Acceptor.acceptChannel_ a))
    as (ch & cs & E & _). rewrite E. simpl. by eexists _, _.
Qed.

(** The destructor closes the descriptor once, after the channel has left epoll. *)
Lemma destroy_spec a :
  0 <= Acceptor.acceptSocket_ a ->
  exists cs es, destroy a = Ok (map ECtl cs ++ map ESock es) /\
    Socket.closed es = [Acceptor.acceptSocket_ a].
Proof.
  intros Hfd. unfold destroy, st_bind.
  destruct (Channel.disableAll_spec (Acceptor.acceptChannel_ a)) as (ch & cs & -> & _).
  destruct (Channel.remove_spec ch) as (ch' & cs' & -> & _). cbn [obind].
  exists (cs ++ cs'), (Socket.destroy (Socket.mk (Acceptor.acceptSocket_ a))). split; [done|].
  unfold Socket.destroy. simpl. by rewrite (proj2 (Z.eqb_neq _ _)) by lia.
Qed.

End AcceptorLife.

Module ServerLife.

Section server.
Variables (loop_ : Z) (name_ ipPort_ : bytes) (message_ writeComplete_ : bool).

(** The order of the [std::map] of connections. *)
Definition name_le (x y : bytes * Z) : Prop := string_lt y.1 x.1 = false.

#[export] Instance name_le_dec : RelDecision name_le.
Proof. intros x y. unfold name_le. apply _. Defined.

(** The connections the destructor visits. *)
Definition visited (s : TcpServer.t) : list Z :=
  (merge_sort name_le (map_to_list (TcpServer.connections_ s))).*2.

(** The setters of a connection's callbacks, [b] telling whether the function is set. *)
Definition set_callbacks (cbs : TcpConnection.callbacks) (c : TcpConnection.t) : TcpConnection.t :=
  TcpConnection.mk (TcpConnection.fileFd_ c) (TcpConnection.fileSize_ c) (TcpConnection.fileOffset_ c)
    (TcpConnection.lowWaterMark_ c) (TcpConnection.highWaterMark_ c) (TcpConnection.aboveHighWaterMark_ c)
    (TcpConnection.state_ c) (TcpConnection.channel_ c) cbs (TcpConnection.inputBuffer_ c)
    (TcpConnection.outputBuffer_ c).

Definition setConnectionCallback (b : bool) (c : TcpConnection.t) : TcpConnection.t :=
  let (_, m, w, l, h, cl) := TcpConnection.callbacks_ c in
  set_callbacks (TcpConnection.Callbacks b m w l h cl) c.
Definition setMessageCallback (b : bool) (c : TcpConnection.t) : TcpConnection.t :=
  let (cn, _, w, l, h, cl) := TcpConnection.callbacks_ c in
  set_callbacks (TcpConnection.Callbacks cn b w l h cl) c.
Definition setWriteCompleteCallback (b : bool) (c : TcpConnection.t) : TcpConnection.t :=
  let (cn, m, _, l, h, cl) := TcpConnection.callbacks_ c in
  set_callbacks (TcpConnection.Callbacks cn m b l h cl) c.
Definition setCloseCallback (b : bool) (c : TcpConnection.t) : TcpConnection.t :=
  let (cn, m, w, l, h, _) := TcpConnection.callbacks_ c in
  set_callbacks (TcpConnection.Callbacks cn m w l h b) c.

(** A connection that is taken down calls functions that do nothing from now on. *)
Definition silence (c : TcpConnection.t) : TcpConnection.t :=
  setCloseCallback true (setMessageCallback true (setConnectionCallback true c)).

(** One of them: its callbacks are replaced by functions that do nothing, and
    [connectDestroyed] runs on its loop, at once if that is the destructor's. *)
Definition takeDown (s : TcpServer.t) (p : Z) : outcome TcpServer.t :=
  match TcpServer.objects s !! p with
  | None => Fault NullDereference
  | Some o =>
      let conn := TcpServer.Conn (TcpServer.getLoop o) (silence (TcpServer.tcp o)) in
      let s := TcpServer.set_objects (<[p := conn]> (TcpServer.objects s)) s in
      if TcpServer.getLoop o =? loop_ then TcpServer.connectDestroyed p s
      else Ok (TcpServer.queueInLoop (TcpServer.getLoop o) (TcpServer.FDestroy p) s)
  end.

Fixpoint takeDownAll (ps : list Z) (s : TcpServer.t) : outcome TcpServer.t :=
  match ps with
  | [] => Ok s
  | p :: ps => let! s := takeDown s p in takeDownAll ps s
  end.

(** [~TcpServer], up to the end of the map, which the close callbacks that are still
    queued find expired. *)
Definition destroy (s : TcpServer.t) : outcome TcpServer.t :=
  let! s := takeDownAll (visited s) s in Ok (TcpServer.set_connections ∅ s).

(** What a connection has become, given what it was and the functors queued since. *)
Definition taken_down (o : TcpServer.conn) (p : Z) (s : TcpServer.t)
    (queued : list (Z * TcpServer.functor)) : Prop :=
  exists o', TcpServer.objects s !! p = Some o' /\ TcpServer.getLoop o' = TcpServer.getLoop o /\
    if TcpServer.getLoop o =? loop_
    then TcpConnection.state_ (TcpServer.tcp o) <> TcpConnection.kConnecting ->
         TcpConnection.disconnected (TcpServer.tcp o') = true
    else TcpServer.tcp o' = silence (TcpServer.tcp o) /\
         (TcpServer.getLoop o, TcpServer.FDestroy p) ∈ queued.

(** [connectDestroyed] leaves a connection that was established down. *)
Lemma destroyed_state c :
  TcpConnection.wf c -> TcpConnection.connectionCallback_ (TcpConnection.callbacks_ c) = true ->
  TcpConnection.state_ c <> TcpConnection.kConnecting ->
  wp TcpConnection.connectDestroyed c (fun _ c' _ => TcpConnection.disconnected c' = true).
Proof.
  intros Hwf Hcb Hs. unfold TcpConnection.connectDestroyed.
  destruct (Channel.disableAll_spec (TcpConnection.channel_ c)) as (ch & cs & Hch & _).
  apply wp_bind, wp_get. rewrite Hcb. cbn [app]. apply wp_bind, wp_when; intros Hd.
  - wp_steps. eapply TcpConnection.wp_on_channel; [exact Hch|]. wp_steps.
    destruct (Channel.remove_spec ch) as (ch' & cs' & Hch' & _).
    eapply TcpConnection.wp_on_channel; [exact Hch'|]. done.
  - destruct (Channel.remove_spec (TcpConnection.channel_ c)) as (ch' & cs' & Hch' & _).
    eapply TcpConnection.wp_on_channel; [exact Hch'|].
    unfold TcpConnection.disconnected, TcpConnection.is_state in *. simpl.
    destruct (TcpConnection.state_ c); done.
Qed.

Lemma silence_wf c : TcpConnection.wf c -> TcpConnection.wf (silence c).
Proof. destruct c as [? ? ? ? ? ? ? ? [] ? ?]. intros [[] ?]. split; [split|]; done. Qed.

Lemma silence_calls c : TcpConnection.connectionCallback_ (TcpConnection.callbacks_ (silence c)) = true.
Proof. by destruct c as [? ? ? ? ? ? ? ? [] ? ?]. Qed.

Lemma silence_state c : TcpConnection.state_ (silence c) = TcpConnection.state_ c.
Proof. by destruct c as [? ? ? ? ? ? ? ? [] ? ?]. Qed.

Definition ready (s : TcpServer.t) (p : Z) : Prop :=
  exists o, TcpServer.objects s !! p = Some o /\ TcpConnection.wf (TcpServer.tcp o).

(** The functors a destructor queues: [connectDestroyed] for some of [ps], once each. *)
Definition destroys (ps : list Z) (queued : list (Z * TcpServer.functor)) : Prop :=
  NoDup queued /\ forall l f, (l, f) ∈ queued -> exists p, f = TcpServer.FDestroy p /\ p ∈ ps.

Lemma takeDown_spec s p :
  ready s p ->
  exists s' queued, takeDown s p = Ok s' /\
    TcpServer.pending s' = TcpServer.pending s ++ queued /\ destroys [p] queued /\
    (forall o, TcpServer.objects s !! p = Some o -> taken_down o p s' queued) /\
    (forall q, q <> p -> TcpServer.objects s' !! q = TcpServer.objects s !! q).
Proof.
  intros (o & Ho & Hwf). unfold takeDown. rewrite Ho.
  set (conn := TcpServer.Conn (TcpServer.getLoop o) (silence (TcpServer.tcp o))).
  set (s1 := TcpServer.set_objects (<[p := conn]> (TcpServer.objects s)) s).
  assert (H1 : TcpServer.objects s1 !! p = Some conn) by apply lookup_insert_eq.
  destruct (TcpServer.getLoop o =? loop_) eqn:El.
  - destruct (TcpServer.run_tcp_spec p TcpConnection.EvDestroyed s1 conn H1 (silence_wf _ Hwf)
      (silence_calls _)) as (c & es & E & Hr & _).
    unfold TcpServer.connectDestroyed. rewrite E. cbn [obind]. eexists _, []. split; [done|].
    split; [by rewrite app_nil_r|]. split; [by split; [constructor | intros l f []%elem_of_nil]|]. split.
    + intros o1 [= <-]. exists (TcpServer.Conn (TcpServer.getLoop o) c). simpl.
      rewrite lookup_insert_eq, El. split_and!; [done..|]. intros Hs.
      rewrite <- silence_state in Hs.
      pose proof (destroyed_state _ (silence_wf _ Hwf) (silence_calls _) Hs) as H.
      unfold wp in H. cbn [TcpConnection.run_event] in Hr. simpl in Hr. by rewrite Hr in H.
    + intros q Hq. simpl. by rewrite !lookup_insert_ne.
  - eexists _, [_]. split; [done|]. split; [done|]. split; [|split].
    + split; [apply NoDup_singleton|]. intros l f [= -> ->]%list_elem_of_singleton.
      exists p. by split; [|apply list_elem_of_singleton].
    + intros o1 [= <-]. exists conn. rewrite El. split_and!; [done..|].
      by apply list_elem_of_singleton.
    + intros q Hq. simpl. by rewrite lookup_insert_ne.
Qed.

Lemma destroys_cons p ps q1 q2 :
  p ∉ ps -> destroys [p] q1 -> destroys ps q2 -> destroys (p :: ps) (q1 ++ q2).
Proof.
  intros Hp [H1 D1] [H2 D2]. split.
  - apply NoDup_app. split_and!; [done| |done]. intros [l f] Hq1 Hq2.
    destruct (D1 l f Hq1) as (x & -> & ->%list_elem_of_singleton).
    by destruct (D2 l _ Hq2) as (y & [= <-] & ?).
  - intros l f [Hq|Hq]%elem_of_app; [destruct (D1 l f Hq) as (x & -> & ?) | destruct (D2 l f Hq) as (x & -> & ?)];
      exists x; set_solver.
Qed.

Lemma taken_down_mono o p s s' q q' :
  taken_down o p s q -> TcpServer.objects s' !! p = TcpServer.objects s !! p ->
  (forall x, x ∈ q -> x ∈ q') -> taken_down o p s' q'.
Proof.
  intros (o' & Ho' & Hl & H) E Hq. exists o'. rewrite E. split_and!; [done..|].
  destruct (_ =? loop_); [done|]. destruct H. split; auto.
Qed.

Lemma takeDownAll_spec ps : forall s,
  NoDup ps -> (forall p, p ∈ ps -> ready s p) ->
  exists s' queued, takeDownAll ps s = Ok s' /\
    TcpServer.pending s' = TcpServer.pending s ++ queued /\ destroys ps queued /\
    (forall p o, p ∈ ps -> TcpServer.objects s !! p = Some o -> taken_down o p s' queued) /\
    (forall q, q ∉ ps -> TcpServer.objects s' !! q = TcpServer.objects s !! q).
Proof.
  induction ps as [|p ps IH]; intros s Hnd Hr.
  { exists s, []. rewrite app_nil_r. split_and!; try done.
    - split; [constructor | intros l f []%elem_of_nil].
    - by intros p o []%not_elem_of_nil. }
  apply NoDup_cons in Hnd as [Hnp Hnd].
  destruct (takeDown_spec s p) as (s1 & q1 & E1 & P1 & D1 & T1 & O1); [apply Hr; set_solver|].
  destruct (IH s1 Hnd) as (s2 & q2 & E2 & P2 & D2 & T2 & O2).
  { intros q Hq. destruct (Hr q) as (o & Ho & ?); [set_solver|]. exists o.
    rewrite O1; [done|]. by intros ->. }
  exists s2, (q1 ++ q2). cbn [takeDownAll]. rewrite E1. split; [exact E2|].
  split; [by rewrite P2, P1, app_assoc|]. split; [by apply destroys_cons|]. split.
  - intros q o [->|Hq]%elem_of_cons Ho.
    + eapply taken_down_mono; [by apply T1 | by apply O2 | intros x Hx; set_solver].
    + assert (Hqp : q <> p) by (by intros ->).
      eapply taken_down_mono; [apply (T2 q o Hq); by rewrite O1 | done | intros x Hx; set_solver].
  - intros q [Hqp Hq]%not_elem_of_cons. by rewrite O2, O1.
Qed.

Hypothesis ipPort_fits : blen ipPort_ <= 21.

#[local] Abbreviation inv := (TcpServer.inv loop_ name_ ipPort_ message_ writeComplete_).

Lemma visited_elem s p :
  inv s -> p ∈ visited s <-> TcpServer.listed name_ ipPort_ p s.
Proof.
  intros Hs. unfold visited, TcpServer.listed. rewrite list_elem_of_fmap. split.
  - intros ([n q] & -> & H). rewrite merge_sort_Permutation in H. apply elem_of_map_to_list in H.
    simpl. pose proof (TcpServer.i_names _ _ _ _ _ s Hs n q H) as ->. exact H.
  - intros H. exists (TcpServer.conn_name name_ ipPort_ p, p). split; [done|].
    rewrite merge_sort_Permutation. by apply elem_of_map_to_list.
Qed.

Lemma visited_nodup s : inv s -> NoDup (visited s).
Proof.
  intros Hs. unfold visited.
  assert (H : forall l : list (bytes * Z), NoDup l.*1 ->
    (forall n p, (n, p) ∈ l -> n = TcpServer.conn_name name_ ipPort_ p) -> NoDup l.*2).
  { induction l as [|[n p] l IH]; intros Hnd Hn; [constructor|]. simpl in *.
    apply NoDup_cons in Hnd as [Hnin Hnd]. apply NoDup_cons. split.
    - intros ([n' p'] & E & H)%list_elem_of_fmap. simpl in E. subst p'. apply Hnin.
      rewrite (Hn n p) by set_solver. rewrite <- (Hn n' p) by set_solver.
      by apply (list_elem_of_fmap_2 fst l (n', p)).
    - apply IH; [done|]. intros n' p' H. apply Hn. set_solver. }
  apply H.
  - rewrite merge_sort_Permutation. apply NoDup_fst_map_to_list.
  - intros n p Hp. rewrite merge_sort_Permutation in Hp. apply elem_of_map_to_list in Hp.
    by apply (TcpServer.i_names _ _ _ _ _ s Hs).
Qed.

(** ** Property *)


End server.

(** ** Witness *)


Example destroyed_server :
  (let! s := destroy 1 TcpServer.server_after in Ok (TcpServer.pending s)) =
  Ok [(101, TcpServer.FDestroy 2); (100, TcpServer.FDestroy 3)].
Proof. vm_compute. reflexivity. Qed.

End ServerLife.

Module ChatServer.

(** Which of the functions a [TcpServer] keeps are set: none at first. *)
Record callbacks := Callbacks {
  connectionCallback_ : bool;
  messageCallback_ : bool;
  writeCompleteCallback_ : bool;
  threadInitCallback_ : bool;
}.

Definition no_callbacks : callbacks := Callbacks false false false false.
Definition setConnectionCallback (cbs : callbacks) : callbacks :=
  Callbacks true (messageCallback_ cbs) (writeCompleteCallback_ cbs) (threadInitCallback_ cbs).
Definition setMessageCallback (cbs : callbacks) : callbacks :=
  Callbacks (connectionCallback_ cbs) true (writeCompleteCallback_ cbs) (threadInitCallback_ cbs).
Definition setWriteCompleteCallback (cbs : callbacks) : callbacks :=
  Callbacks (connectionCallback_ cbs) (messageCallback_ cbs) true (threadInitCallback_ cbs).
Definition setThreadInitCallback (cbs : callbacks) : callbacks :=
  Callbacks (connectionCallback_ cbs) (messageCallback_ cbs) (writeCompleteCallback_ cbs) true.

(** [WebChatServer::WebChatServer], on the loop [loop_] and the listening socket
    [acceptfd], and [WebChatServer::start]. *)
Definition name : bytes := str "WebChatServer".
Definition make (loop_ acceptfd : Z) : callbacks * TcpServer.t :=
  (setMessageCallback (setConnectionCallback no_callbacks),
   TcpServer.setThreadNum 4 (TcpServer.make loop_ acceptfd)).
Definition start (threads : nat -> Z) (s : callbacks * TcpServer.t) : outcome TcpServer.t :=
  TcpServer.start (threadInitCallback_ s.1) threads s.2.

(** The callbacks that the server gives to its connections. *)
Definition given (cbs : callbacks) : TcpConnection.callbacks :=
  TcpConnection.Callbacks (connectionCallback_ cbs) (messageCallback_ cbs)
    (writeCompleteCallback_ cbs) false false true.

(** The chat server: in every run after its start its [p]-th connection has a connection
    and a message callback, and lives on thread [(p - 1) mod 4]. *)
Theorem chat_connections (loop_ acceptfd : Z) (a : InetAddress.t) (threads : nat -> Z)
    (evs : list TcpServer.event) (s0 s : TcpServer.t) :
  InetAddress.wf a ->
  start threads (make loop_ acceptfd) = Ok s0 ->
  let run_enabled := TcpServer.run_enabled loop_ name (InetAddress.toIpPort a) true false in
  let run := TcpServer.run loop_ name (InetAddress.toIpPort a) true false in
  run_enabled evs s0 -> run evs s0 = Ok s ->
  forall p o, TcpServer.objects s !! p = Some o ->
    TcpConnection.callbacks_ (TcpServer.tcp o) = given (make loop_ acceptfd).1 /\
    TcpServer.getLoop o = threads (Z.to_nat ((p - 1) mod 4)).
Proof.
  intros Ha E0 run_enabled run Hen E p o Ho.
  pose proof (InetAddress.toIpPort_length a Ha) as Hip.
  destruct (TcpServer.started_inv loop_ name (InetAddress.toIpPort a) true false acceptfd 4 false threads)
    as (s0' & E0' & Hs0 & _); [done|].
  change (start threads (make loop_ acceptfd)) with (TcpServer.started loop_ acceptfd 4 false threads) in E0.
  rewrite E0 in E0'. injection E0' as <-.
  destruct (TcpServer.run_inv loop_ name (InetAddress.toIpPort a) true false Hip evs s0 Hs0 Hen) as (s' & E' & Hs).
  fold run in E'. rewrite E in E'. injection E' as <-. split.
  - destruct (TcpServer.inv_object _ _ _ _ _ s p o Hs Ho) as [_ Hc].
    apply (TcpServer.c_callbacks _ _ _ _ _ _ _ Hc).
  - destruct (TcpServer.connections_round_robin loop_ name (InetAddress.toIpPort a) true false Hip acceptfd 4
      false threads evs s0 s) as [Hrr _]; try done. by apply (Hrr p).
Qed.

End ChatServer.
