(* ===== verification/WebChat.v ===== *)
(** * WebChat: the chat server of src/main.cpp

    [WebChat.t] holds the maps of [WebChatServer]; each handler is an operation
    whose effects are the calls it makes on connections ([send], [shutdown],
    [forceClose]) and on their loops ([runAfter], [cancel]), and the lines it
    logs.  A connection is named by its address; what [connected()] and
    [disconnected()] answer, and the identifiers [runAfter] returns, are
    arguments.  The handlers run on the loop of their connection, and hold the
    mutexes while they access the maps.  [world] composes them with the states
    of the connections and the timers that are armed. *)

From stdpp Require Import fin_maps fin_map_dom sorting.
From S2P Require Import Prelude Buffer InputQueue HttpParser Digits HttpReader TcpConnection.

Module WebChat.

#[local] Existing Instance TcpConnection.StateE_eq_dec.
#[local] Existing Instance HttpParser.state_eq_dec.

(** A [TcpConnectionPtr], by the address it holds; a [TimerId]. *)
Abbreviation Conn := Z (only parsing).
Abbreviation TimerId := Z (only parsing).

Record ConnectionTimers := Timers {
  idleTimer : TimerId;
  forceCloseTimer : TimerId;
}.

Record t := mk {
  connections_ : gset Conn;
  idleTimers_ : gmap Conn ConnectionTimers;
  parsers_ : gmap Conn HttpParser.t;
}.

Definition make : t := mk ∅ ∅ ∅.

(** The two lambdas given to [runAfter]. *)
Inductive timeout := IdleTimeout | ForceCloseTimeout.

#[export] Instance timeout_eq_dec : EqDecision timeout.
Proof. solve_decision. Defined.

Inductive effect :=
| ESend (conn : Conn) (message : bytes)
| EShutdown (conn : Conn)
| EForceClose (conn : Conn)
| ERunAfter (conn : Conn) (delay : Z) (callback : timeout) (timerId : TimerId)
| ECancel (conn : Conn) (timerId : TimerId)
| ELog (line : bytes).

Definition M := ST t effect.

Definition set_connections (l : gset Conn) (s : t) : t := mk l (idleTimers_ s) (parsers_ s).
Definition set_idleTimers (m : gmap Conn ConnectionTimers) (s : t) : t :=
  mk (connections_ s) m (parsers_ s).
Definition set_parsers (m : gmap Conn HttpParser.t) (s : t) : t :=
  mk (connections_ s) (idleTimers_ s) m.

Definition connected (st : TcpConnection.StateE) : bool :=
  bool_decide (st = TcpConnection.kConnected).
Definition disconnected (st : TcpConnection.StateE) : bool :=
  bool_decide (st = TcpConnection.kDisconnected).

(** The embedded page: [~] stands for the double quote, which it does not use. *)
Definition quoted (s : string) : bytes :=
  map (fun c => if Ascii.eqb c (chr 126) then chr 34 else c) (str s).

Definition g_chat_html : bytes := quoted "
<!DOCTYPE html>
<html>
<head>
    <meta charset=~UTF-8~>
    <title>LunaNet WebChat</title>
</head>
<body style=~font-family: Arial, sans-serif; background-color: #f4f4f9; padding: 20px;~>
    <h2 style=~color: #333;~>🚀 LunaNet 生产级 WebChat 演示</h2>
    <div id=~chat-box~ style=~height:400px; border:1px solid #ccc; overflow-y:scroll; background:white; padding:10px; border-radius: 8px;~></div>
    <div style=~margin-top: 15px;~>
        <input type=~text~ id=~msg-input~ placeholder=~输入聊天内容...~ style=~width:70%; padding: 10px; border-radius: 4px; border: 1px solid #ccc;~>
        <button onclick='sendMsg()' style=~padding: 10px 20px; background-color: #007BFF; color: white; border: none; border-radius: 4px; cursor: pointer;~>发送</button>
    </div>
    <script>
        function sendMsg() {
            const input = document.getElementById('msg-input');
            const val = input.value;
            if(!val) return;
            fetch('/chat', { method: 'POST', body: val });

            const box = document.getElementById('chat-box');
            box.innerHTML += '<div style=~margin-bottom:8px;~><b>我:</b> ' + val + '</div>';
            box.scrollTop = box.scrollHeight;
            input.value = '';
        }
    </script>
</body>
</html>
".

Section server.
(** [conn->peerAddress().toIpPort()]. *)
Variable peer : Conn -> bytes.

(** The idle and the force-close timeouts, in seconds. *)
Definition kTimeout : Z := 15.

(** Called with the state of the connection, and what [runAfter] returns if it is
    called. *)
Definition refreshIdleTimer (conn : Conn) (st : TcpConnection.StateE) (timerId : TimerId) : M unit :=
  if negb (connected st) then st_ret tt else
  let* s := st_get in
  match idleTimers_ s !! conn with
  | None => st_ret tt
  | Some state =>
      st_when (negb (idleTimer state =? 0)) (st_tell [ECancel conn (idleTimer state)]) ;;;
      st_tell [ERunAfter conn kTimeout IdleTimeout timerId] ;;;
      st_modify (set_idleTimers
        (<[conn := Timers timerId (forceCloseTimer state)]> (idleTimers_ s)))
  end.

(** The first critical section of [onConnection]: (idleTimer, forceCloseTimer). *)
Definition register (conn : Conn) (st : TcpConnection.StateE) : M (TimerId * TimerId) :=
  let* s := st_get in
  if connected st then
    st_tell [ELog (str "✅ [New User] " ++ peer conn ++ str " online.")] ;;;
    st_modify (set_connections ({[conn]} ∪ connections_ s)) ;;;
    st_modify (set_idleTimers (<[conn := Timers 0 0]> (idleTimers_ s))) ;;;
    st_ret (0, 0)
  else
    st_tell [ELog (str "❌ [User Left] " ++ peer conn ++ str " offline.")] ;;;
    st_modify (set_connections (connections_ s ∖ {[conn]})) ;;;
    match idleTimers_ s !! conn with
    | None => st_ret (0, 0)
    | Some timers =>
        st_modify (set_idleTimers (delete conn (idleTimers_ s))) ;;;
        st_ret (idleTimer timers, forceCloseTimer timers)
    end.

(** [parsers_.try_emplace(conn)] and [parsers_.erase(conn)]. *)
Definition track_parser (conn : Conn) (st : TcpConnection.StateE) : M unit :=
  st_modify (fun s => set_parsers
    (if connected st then
       match parsers_ s !! conn with
       | Some _ => parsers_ s
       | None => <[conn := HttpParser.make]> (parsers_ s)
       end
     else delete conn (parsers_ s)) s).

Definition onConnection (conn : Conn) (st : TcpConnection.StateE) (timerId : TimerId) : M unit :=
  let* (idle, force) := register conn st in
  st_when (negb (idle =? 0)) (st_tell [ECancel conn idle]) ;;;
  st_when (negb (force =? 0)) (st_tell [ECancel conn force]) ;;;
  st_when (connected st) (refreshIdleTimer conn st timerId) ;;;
  track_parser conn st.

(** [broadcast]: to every connection, in the order of the set. *)
Definition broadcast (msg : bytes) : M unit :=
  let* s := st_get in
  st_tell (map (fun conn => ESend conn (str "Broadcast: " ++ msg ++ Buffer.kCRLF))
    (merge_sort Z.le (elements (connections_ s)))).

Definition http_response (contentType content : bytes) : bytes :=
  str "HTTP/1.1 200 OK" ++ Buffer.kCRLF ++
  str "Content-Type: " ++ contentType ++ Buffer.kCRLF ++
  str "Content-Length: " ++ Digits.to_string (blen content) ++ Buffer.kCRLF ++
  str "Connection: Keep-Alive" ++ Buffer.kCRLF ++
  Buffer.kCRLF ++
  content.

Definition sendHttpResponse (conn : Conn) (contentType content : bytes) : M unit :=
  st_tell [ESend conn (http_response contentType content)].

Definition bad_request_response : bytes :=
  str "HTTP/1.1 400 Bad Request" ++ Buffer.kCRLF ++ str "Content-Length: 0" ++ Buffer.kCRLF ++
  str "Connection: close" ++ Buffer.kCRLF ++ Buffer.kCRLF.

(** One iteration of the loop over the requests: (path, body). *)
Definition handleRequest (conn : Conn) (request : bytes * bytes) : M unit :=
  let '(path, body) := request in
  if bool_decide (path = str "/") then
    st_tell [ELog (str "📄 " ++ peer conn ++ str " requested Chat UI.")] ;;;
    sendHttpResponse conn (str "text/html; charset=utf-8") g_chat_html
  else if bool_decide (path = str "/chat") then
    let msg := body in
    st_tell [ELog (str "💬 [" ++ peer conn ++ str "] says: " ++ msg)] ;;;
    broadcast (str "[" ++ peer conn ++ str "]: " ++ msg) ;;;
    sendHttpResponse conn (str "text/plain") (str "OK")
  else st_ret tt.

Fixpoint handleRequests (conn : Conn) (requests : list (bytes * bytes)) : M unit :=
  match requests with
  | [] => st_ret tt
  | request :: requests => handleRequest conn request ;;; handleRequests conn requests
  end.

Section parse.
Context {Q : Type} `{InputQueue Q}.

(** The loop over the input buffer: (malformedRequest, requests, parser, buf). *)
Fixpoint parseRequests (fuel : nat) (parser : HttpParser.t) (buf : Q)
  : outcome (bool * list (bytes * bytes) * HttpParser.t * Q) :=
  match fuel with
  | O => Fault OutOfFuel
  | S fuel =>
      let! (ok, parser, buf) := HttpParser.parseRequest parser buf in
      if negb ok then Ok (true, [], parser, buf) else
      if negb (HttpParser.gotAll parser) then Ok (false, [], parser, buf) else
      let request := (HttpParser.getPath parser, HttpParser.getBody parser) in
      let parser := HttpParser.reset parser in
      if q_readableBytes buf =? 0 then Ok (false, [request], parser, buf) else
      let! (malformed, requests, parser, buf) := parseRequests fuel parser buf in
      Ok (malformed, request :: requests, parser, buf)
  end.

(** Every request but the first consumes a byte, so that this is enough
    ([onMessage_total]). *)
Definition requestFuel (buf : Q) : nat := S (S (Z.to_nat (q_readableBytes buf))).

(** Returns the input buffer as it leaves it. *)
Definition onMessage (conn : Conn) (buf : Q) (st : TcpConnection.StateE) (timerId : TimerId) : M Q :=
  st_when (connected st) (refreshIdleTimer conn st timerId) ;;;
  let* s := st_get in
  let parser := default HttpParser.make (parsers_ s !! conn) in
  let* (malformed, requests, parser, buf) :=
    st_lift (parseRequests (requestFuel buf) parser buf) in
  st_modify (fun s => set_parsers (<[conn := parser]> (parsers_ s)) s) ;;;
  (if malformed : bool then
     st_tell [ESend conn bad_request_response] ;;;
     st_tell [EShutdown conn]
   else handleRequests conn requests) ;;;
  st_ret buf.
End parse.

Definition handleIdleTimeout (conn : Conn) (st : TcpConnection.StateE) (timerId : TimerId) : M unit :=
  if negb (connected st) then st_ret tt else
  st_tell [ELog (str "Connection idle for 15 seconds; starting graceful shutdown: " ++ peer conn)] ;;;
  st_tell [EShutdown conn] ;;;
  let* s := st_get in
  match idleTimers_ s !! conn with
  | None => st_ret tt
  | Some state =>
      st_tell [ERunAfter conn kTimeout ForceCloseTimeout timerId] ;;;
      st_modify (set_idleTimers (<[conn := Timers 0 timerId]> (idleTimers_ s)))
  end.

Definition handleForceCloseTimeout (conn : Conn) (st : TcpConnection.StateE) : M unit :=
  let* s := st_get in
  match idleTimers_ s !! conn with
  | None => st_ret tt
  | Some state =>
      st_modify (set_idleTimers (<[conn := Timers (idleTimer state) 0]> (idleTimers_ s))) ;;;
      st_when (negb (disconnected st))
        (st_tell [ELog (str "Connection did not close within 15 seconds after shutdown; forcing close: "
                        ++ peer conn)] ;;;
         st_tell [EForceClose conn])
  end.

(** ** What the handlers send *)

(** The messages sent, with their destination, and the half-closes. *)
Definition sent (es : list effect) : list (Conn * bytes) :=
  omap (fun e => match e with ESend c m => Some (c, m) | _ => None end) es.
Definition shut (es : list effect) : list Conn :=
  omap (fun e => match e with EShutdown c => Some c | _ => None end) es.

(** What a request makes the server send, [users] being the connections. *)
Definition answers (users : gset Conn) (conn : Conn) (request : bytes * bytes)
  : list (Conn * bytes) :=
  if bool_decide (request.1 = str "/") then
    [(conn, http_response (str "text/html; charset=utf-8") g_chat_html)]
  else if bool_decide (request.1 = str "/chat") then
    map (fun user => (user, str "Broadcast: [" ++ peer conn ++ str "]: " ++ request.2 ++ Buffer.kCRLF))
      (merge_sort Z.le (elements users)) ++
    [(conn, http_response (str "text/plain") (str "OK"))]
  else [].

(** The messages of one connection as they arrive: a fragment is appended to its
    input buffer, and the message callback runs. *)
Fixpoint deliver (conn : Conn) (frags : list (bytes * TimerId)) (b : Buffer.t) : M Buffer.t :=
  match frags with
  | [] => st_ret b
  | (d, timerId) :: frags =>
      let* b := st_lift (Buffer.append d b) in
      let* b := onMessage conn b TcpConnection.kConnected timerId in
      deliver conn frags b
  end.

(** ** The world: connections and timers around the handlers

    The handlers of a connection run on its loop, one at a time; those of others
    touch other entries of the maps.  The timers of a loop have identifiers that
    are not used again, and fire at most once. *)

Variable loopOf : Conn -> Z.

Record world := World {
  chat : t;
  states : gmap Conn TcpConnection.StateE;          (** of the established connections *)
  armed : gmap (Z * TimerId) (Conn * timeout);      (** the timers that will fire *)
  used : gmap (Z * TimerId) (Conn * timeout);       (** all those made so far *)
  closing : gset Conn;                              (** those [forceClose] was called on *)
}.

Definition world0 : world := World make ∅ ∅ ∅ ∅.

Definition set_app (s : t) (w : world) : world := World s (states w) (armed w) (used w) (closing w).
Definition set_states (m : gmap Conn TcpConnection.StateE) (w : world) : world :=
  World (chat w) m (armed w) (used w) (closing w).
Definition set_armed (m : gmap (Z * TimerId) (Conn * timeout)) (w : world) : world :=
  World (chat w) (states w) m (used w) (closing w).

(** [TcpConnection::shutdown] and [forceClose], on the state. *)
Definition shutdown_state (st : TcpConnection.StateE) : TcpConnection.StateE :=
  if connected st then TcpConnection.kDisconnecting else st.
Definition forceClose_state (st : TcpConnection.StateE) : TcpConnection.StateE :=
  match st with
  | TcpConnection.kConnected | TcpConnection.kDisconnecting => TcpConnection.kDisconnecting
  | _ => st
  end.

Definition apply_effect (w : world) (e : effect) : world :=
  match e with
  | ERunAfter c _ k i =>
      World (chat w) (states w) (<[(loopOf c, i) := (c, k)]> (armed w))
            (<[(loopOf c, i) := (c, k)]> (used w)) (closing w)
  | ECancel c i => set_armed (delete (loopOf c, i) (armed w)) w
  | EShutdown c => set_states (alter shutdown_state c (states w)) w
  | EForceClose c =>
      World (chat w) (alter forceClose_state c (states w)) (armed w) (used w) ({[c]} ∪ closing w)
  | ESend _ _ | ELog _ => w
  end.

Definition apply_effects (es : list effect) (w : world) : world := foldl apply_effect w es.

Definition handle {A} (m : M A) (w : world) : outcome world :=
  let! (_, s, es) := m (chat w) in Ok (apply_effects es (set_app s w)).

(** A connection comes up, goes down, receives bytes; a timer fires.  [timerId] is
    what [runAfter] returns if the handler calls it. *)
Inductive event :=
| WEstablished (c : Conn) (timerId : TimerId)
| WClosed (c : Conn) (timerId : TimerId)
| WMessage (c : Conn) (b : Buffer.t) (timerId : TimerId)
| WFire (loop : Z) (fired : TimerId) (timerId : TimerId).

Definition step (e : event) (w : world) : outcome world :=
  match e with
  | WEstablished c i =>
      handle (onConnection c TcpConnection.kConnected i)
        (set_states (<[c := TcpConnection.kConnected]> (states w)) w)
  | WClosed c i =>
      handle (onConnection c TcpConnection.kDisconnected i)
        (set_states (<[c := TcpConnection.kDisconnected]> (states w)) w)
  | WMessage c b i =>
      handle (onMessage c b (default TcpConnection.kConnecting (states w !! c)) i) w
  | WFire loop fired i =>
      match armed w !! (loop, fired) with
      | None => Ok w
      | Some (c, k) =>
          let w := set_armed (delete (loop, fired) (armed w)) w in
          let st := default TcpConnection.kConnecting (states w !! c) in
          handle (match k with
                  | IdleTimeout => handleIdleTimeout c st i
                  | ForceCloseTimeout => handleForceCloseTimeout c st
                  end) w
      end
  end.

(** The connection is established and not yet down. *)
Definition up (w : world) (c : Conn) : Prop :=
  states w !! c = Some TcpConnection.kConnected \/ states w !! c = Some TcpConnection.kDisconnecting.

Definition fresh (w : world) (c : Conn) (i : TimerId) : Prop :=
  i <> 0 /\ used w !! (loopOf c, i) = None.

(** What can happen: the contract of [TcpConnection] and of the timer queue. *)
Definition enabled (e : event) (w : world) : Prop :=
  match e with
  | WEstablished c i => states w !! c = None /\ fresh w c i
  | WClosed c i => up w c /\ fresh w c i
  | WMessage c b i => up w c /\ fresh w c i /\ Buffer.wf b
  | WFire loop fired i =>
      exists c k, armed w !! (loop, fired) = Some (c, k) /\ fresh w c i
  end.

Fixpoint run (evs : list event) (w : world) : outcome world :=
  match evs with
  | [] => Ok w
  | e :: evs => let! w := step e w in run evs w
  end.

Fixpoint run_enabled (evs : list event) (w : world) : Prop :=
  match evs with
  | [] => True
  | e :: evs => enabled e w /\ match step e w with Ok w => run_enabled evs w | Fault _ => False end
  end.

(** ** Lemmas: the effects *)

Lemma sent_app es es' : sent (es ++ es') = sent es ++ sent es'.
Proof. apply omap_app. Qed.
Lemma shut_app es es' : shut (es ++ es') = shut es ++ shut es'.
Proof. apply omap_app. Qed.

(** ** Lemmas: the loop over the input buffer *)

Lemma reset_make p : HttpParser.reset p = HttpParser.make.
Proof. by destruct p. Qed.

(** The state of a parser between two calls of [onMessage]. *)
Definition between (p : HttpParser.t) : Prop :=
  HttpParser.wf p /\ HttpParser.state_ p <> HttpParser.GotAll.

Lemma between_make : between HttpParser.make.
Proof. split; [apply HttpParser.make_wf | done]. Qed.

(** A request that starts in the buffer takes bytes of it. *)
Lemma parse_consumes p (s : bytes) ok p' s' :
  between p -> HttpParser.parseRequest p s = Ok (ok, p', s') -> HttpParser.gotAll p' = true ->
  (length s' <= length s)%nat /\
  (HttpParser.state_ p = HttpParser.ExpectRequestLine -> (length s' < length s)%nat).
Proof.
  intros [Hwf _] Hr Hg. split.
  { apply HttpParser.parseRequest_suffix in Hr as [n ->]. rewrite length_drop. lia. }
  intros E. unfold HttpParser.parseRequest, HttpParser.parseFuel in Hr. rewrite E in Hr.
  cbn [HttpParser.parseLoop] in Hr. apply obind_Ok in Hr as (st & Hst & Hk).
  destruct st as [p1 s1|ok1 p1 s1].
  - apply HttpParser.parseStep_progress in Hst as (? & _); [|by rewrite E..].
    apply HttpParser.parseLoop_suffix in Hk as [n ->]. rewrite length_drop. lia.
  - unfold HttpParser.parseStep in Hst. rewrite E in Hst. unfold HttpParser.stepRequestLine in Hst.
    simplify_eq. apply bool_decide_eq_true in Hg.
    destruct (q_findCRLF s); [destruct (HttpParser.processRequestLine _ _)|]; simplify_eq/=.
    + by apply obind_Ok in Hst as (? & _ & ?).
    + congruence.
Qed.

Definition fuel_ok (n : nat) (p : HttpParser.t) (s : bytes) : Prop :=
  (length s < n)%nat /\
  (HttpParser.state_ p <> HttpParser.ExpectRequestLine -> (S (length s) < n)%nat).

Lemma parseRequests_total n p (s : bytes) :
  between p -> fuel_ok n p s ->
  exists mal rs p' s', parseRequests n p s = Ok (mal, rs, p', s') /\ between p'.
Proof.
  revert p s. induction n as [|n IH]; intros p s Hp [Hn Hn']; [lia|]. cbn [parseRequests].
  destruct (HttpParser.parseRequest_sim (Q:=bytes) p s) as (ok & p1 & s1 & Hr & _ & Hwf1 & _);
    [done | apply Hp |]. rewrite Hr. cbn [obind].
  destruct ok; cbn [negb].
  2: { do 4 eexists. split; [done|]. split; [done|].
       apply HttpParser.parseRequest_error in Hr as [He _]; [|apply Hp]. by rewrite He. }
  destruct (HttpParser.gotAll p1) eqn:Hg; cbn [negb].
  2: { do 4 eexists. split; [done|]. split; [done|]. by apply bool_decide_eq_false in Hg. }
  rewrite reset_make. destruct (parse_consumes p s true p1 s1 Hp Hr Hg) as [Hle Hlt].
  destruct (q_readableBytes s1 =? 0); [by eauto 10 using between_make|].
  destruct (IH HttpParser.make s1) as (mal & rs & p' & s' & -> & Hp'); [apply between_make| |].
  { split; [|by intros []].
    destruct (decide (HttpParser.state_ p = HttpParser.ExpectRequestLine)) as [E|E];
      [specialize (Hlt E) | specialize (Hn' E)]; lia. }
  cbn [obind]. eauto 10.
Qed.

Lemma parseRequests_fuel n m p (s : bytes) r :
  parseRequests n p s = Ok r -> (n <= m)%nat -> parseRequests m p s = Ok r.
Proof.
  revert p s m r. induction n as [|n IH]; intros p s m r; [done|].
  destruct m as [|m]; [lia|]. cbn [parseRequests]. intros Hr Hm.
  apply obind_Ok in Hr as ([[ok p1] s1] & -> & Hk). cbn [obind].
  destruct (negb ok), (negb (HttpParser.gotAll p1)), (q_readableBytes s1 =? 0); try done.
  apply obind_Ok in Hk as ([[[mal rs] p2] s2] & Hk & Hr).
  by rewrite (IH _ _ m _ Hk) by lia.
Qed.

(** The loop on the C++ buffer is the loop on its bytes. *)
Lemma parseRequests_buffer n p (b : Buffer.t) mal rs p' s' :
  Buffer.wf b -> between p ->
  parseRequests n p (Buffer.contents b) = Ok (mal, rs, p', s') ->
  exists b', parseRequests n p b = Ok (mal, rs, p', b') /\ Buffer.wf b' /\
    Buffer.contents b' = s' /\
    forall room, Buffer.size b + room <= Buffer.max_size -> Buffer.size b' + room <= Buffer.max_size.
Proof.
  revert p b mal rs. induction n as [|n IH]; intros p b mal rs Hb Hp; [done|]. cbn [parseRequests].
  destruct (HttpParser.parseRequest_buffer p b Hb) as (ok & p1 & b1 & -> & Hb1 & Hwf1 & -> & Hfit);
    [apply Hp|]. cbn [obind].
  destruct (negb ok); [by intros [= <- <- <- <-]; eauto|].
  destruct (negb (HttpParser.gotAll p1)); [by intros [= <- <- <- <-]; eauto|].
  rewrite reset_make. change (q_readableBytes (Buffer.contents b1)) with (blen (Buffer.contents b1)).
  change (q_readableBytes b1) with (Buffer.readableBytes b1).
  rewrite Buffer.contents_length by done.
  destruct (_ =? 0); [by intros [= <- <- <- <-]; eauto|].
  intros ([[[mal2 rs2] p2] s2] & Hk & Hr)%obind_Ok. injection Hr as <- <- <- <-.
  destruct (IH _ b1 _ _ Hb1 between_make Hk) as (b' & -> & ? & ? & ?). cbn [obind].
  exists b'. split_and!; eauto.
Qed.

Lemma parse_nothing : HttpParser.parseRequest HttpParser.make ([] : bytes) = Ok (true, HttpParser.make, []).
Proof. reflexivity. Qed.

Lemma parseRequests_nothing n : (0 < n)%nat ->
  parseRequests n HttpParser.make ([] : bytes) = Ok (false, [], HttpParser.make, []).
Proof. by destruct n; [lia|]. Qed.

(** Bytes that arrive later go on where the loop stopped. *)
Lemma parseRequests_resumes n m p (s d : bytes) rs p' s' mal rs2 p2 s2 :
  between p ->
  parseRequests n p s = Ok (false, rs, p', s') ->
  parseRequests m p' (s' ++ d) = Ok (mal, rs2, p2, s2) ->
  exists k, parseRequests k p (s ++ d) = Ok (mal, rs ++ rs2, p2, s2).
Proof.
  revert p s rs. induction n as [|n IH]; intros p s rs Hp; [done|]. cbn [parseRequests].
  intros ([[ok p1] s1] & Hr & Hk)%obind_Ok Hm.
  pose proof (HttpParser.parseRequest_resumes p s d ok p1 s1 (proj1 Hp) Hr) as Hres.
  unfold HttpParser.resumes in Hres.
  destruct ok; [|done]. cbn [negb andb] in *.
  destruct (HttpParser.gotAll p1) eqn:Hg; cbn [negb] in *.
  2: { injection Hk as <- <- <-. exists m. destruct m as [|m]; [done|]. cbn [parseRequests] in *.
       by rewrite (proj1 Hres). }
  rewrite reset_make in Hk.
  destruct (q_readableBytes s1 =? 0) eqn:E.
  - injection Hk as <- <- <-. apply Z.eqb_eq in E. destruct s1; [|done].
    exists (S m). cbn [parseRequests]. rewrite Hres. cbn [obind negb]. rewrite Hg, reset_make.
    cbn [negb app] in *. destruct d as [|c d].
    + destruct m as [|m]; [done|]. rewrite parseRequests_nothing in Hm by lia. by simplify_eq.
    + change (q_readableBytes (c :: d) =? 0) with false. cbv iota. by rewrite Hm.
  - apply obind_Ok in Hk as ([[[mal1 rs1] p3] s3] & Hk & [= -> <- -> ->]).
    destruct (IH _ _ _ between_make Hk Hm) as [k Hk'].
    exists (S k). cbn [parseRequests]. rewrite Hres. cbn [obind negb]. rewrite Hg, reset_make.
    cbn [negb]. replace (q_readableBytes (s1 ++ d) =? 0) with false.
    { by rewrite Hk'. }
    symmetry. apply Z.eqb_neq. apply Z.eqb_neq in E. simpl in *. rewrite blen_app.
    pose proof (blen_nonneg s1). pose proof (blen_nonneg d). lia.
Qed.

(** A stream of well-formed requests. *)
Definition request_of (r : HttpParser.request) : bytes * bytes :=
  (HttpParser.r_path r, HttpParser.r_body r).

Definition stream (rs : list HttpParser.request) : bytes := concat (map HttpParser.render rs).

Lemma render_nonempty r : HttpParser.valid_request r -> HttpParser.render r <> [].
Proof.
  intros [[Hm _] _ _ _ _ _ _]. unfold HttpParser.render, HttpParser.render_request_line.
  by destruct (HttpParser.r_method r).
Qed.

Lemma parseRequests_stream rs :
  Forall HttpParser.valid_request rs ->
  exists n, parseRequests n HttpParser.make (stream rs) =
    Ok (false, map request_of rs, HttpParser.make, []).
Proof.
  induction rs as [|r rs IH]; intros Hv.
  { exists 1%nat. apply parseRequests_nothing. lia. }
  apply Forall_cons in Hv as [Hr Hv]. destruct (IH Hv) as [n Hn].
  exists (S n). unfold stream. cbn [map concat parseRequests].
  destruct (HttpParser.parse_render r (stream rs) Hr) as [k Hk].
  unfold stream in Hk, Hn. rewrite Hk. cbn [obind negb].
  change (HttpParser.gotAll _) with true. cbn [negb]. rewrite reset_make.
  destruct (concat (map HttpParser.render rs)) as [|c s] eqn:E.
  - change (q_readableBytes ([] : bytes) =? 0) with true. cbv iota.
    destruct rs as [|r2 rs]; [done|]. apply Forall_cons in Hv as [Hr2 _].
    cbn [map concat] in E. apply app_eq_nil in E as [E _]. by apply render_nonempty in E.
  - change (q_readableBytes (c :: s) =? 0) with false. cbv iota. by rewrite Hn.
Qed.

(** ** Lemmas: the handlers *)

(** Effects that are messages and log lines only. *)
Definition quiet (e : effect) : Prop :=
  match e with ESend _ _ | ELog _ => True | _ => False end.

Lemma quiet_shut es : Forall quiet es -> shut es = [].
Proof. induction 1 as [|[] es ? ? IH]; done. Qed.

Lemma broadcast_quiet s msg :
  wp (broadcast msg) s (fun _ s' es => s' = s /\ Forall quiet es /\
    sent es = map (fun user => (user, str "Broadcast: " ++ msg ++ Buffer.kCRLF))
      (merge_sort Z.le (elements (connections_ s)))).
Proof.
  unfold broadcast. wp_steps. rewrite app_nil_l. split_and!; [done| |].
  - by apply Forall_fmap, Forall_true.
  - induction (merge_sort _ _) as [|c l IH]; [done|]. exact (f_equal (cons _) IH).
Qed.

Lemma handleRequest_spec s conn r :
  wp (handleRequest conn r) s (fun _ s' es => s' = s /\ Forall quiet es /\
    sent es = answers (connections_ s) conn r).
Proof.
  destruct r as [path body]. unfold handleRequest, answers, sendHttpResponse. cbn [fst snd].
  case_bool_decide; [|case_bool_decide]; [wp_steps; by repeat constructor| |by wp_steps].
  wp_step. wp_step. wp_step. eapply wp_mono; [apply broadcast_quiet|].
  intros _ s' es (-> & Hq & Hs). wp_steps. split_and!; [done| |].
  - apply Forall_app. split; [by repeat constructor|]. apply Forall_app. split; [done|by repeat constructor].
  - rewrite !sent_app, Hs. simpl. f_equal. apply map_ext. intros user. by rewrite <- !app_assoc.
Qed.

Lemma handleRequests_spec s conn rs :
  wp (handleRequests conn rs) s (fun _ s' es => s' = s /\ Forall quiet es /\
    sent es = flat_map (answers (connections_ s) conn) rs).
Proof.
  induction rs as [|r rs IH]; cbn [handleRequests flat_map]; [by apply wp_ret|].
  wp_step. eapply wp_mono; [apply handleRequest_spec|]. intros _ s' es (-> & Hq & Hs).
  eapply wp_mono; [apply IH|]. intros _ s' es' (-> & Hq' & Hs').
  split_and!; [done | by apply Forall_app | by rewrite sent_app, Hs, Hs'].
Qed.

Lemma refreshIdleTimer_spec s conn st timerId :
  wp (refreshIdleTimer conn st timerId) s (fun _ s' es =>
    sent es = [] /\ shut es = [] /\ connections_ s' = connections_ s /\ parsers_ s' = parsers_ s).
Proof. unfold refreshIdleTimer. by wp_steps. Qed.

(** What the parse of the buffer decides. *)
Definition outcome_sent (users : gset Conn) (conn : Conn) (mal : bool) (rs : list (bytes * bytes))
  : list (Conn * bytes) :=
  if mal then [(conn, bad_request_response)] else flat_map (answers users conn) rs.

Definition parser_of (s : t) (conn : Conn) : HttpParser.t := default HttpParser.make (parsers_ s !! conn).

Lemma onMessage_spec s conn (b : Buffer.t) st timerId :
  between (parser_of s conn) -> Buffer.wf b ->
  wp (onMessage conn b st timerId) s (fun b' s' es => exists n mal rs p',
    parseRequests n (parser_of s conn) (Buffer.contents b) = Ok (mal, rs, p', Buffer.contents b') /\
    between p' /\ Buffer.wf b' /\
    (forall room, Buffer.size b + room <= Buffer.max_size -> Buffer.size b' + room <= Buffer.max_size) /\
    parsers_ s' = <[conn := p']> (parsers_ s) /\ connections_ s' = connections_ s /\
    sent es = outcome_sent (connections_ s) conn mal rs /\
    shut es = (if mal then [conn] else [])).
Proof.
  intros Hp Hb. unfold onMessage. wp_step.
  eapply (wp_mono _ _ (fun _ s' es => sent es = [] /\ shut es = [] /\
    connections_ s' = connections_ s /\ parsers_ s' = parsers_ s)).
  { apply wp_when; intros _; [apply refreshIdleTimer_spec | done]. }
  intros _ s1 es1 (Hs1 & Hsh1 & Hc1 & Hp1). wp_step. wp_step. rewrite Hp1.
  fold (parser_of s conn). set (n := requestFuel b).
  destruct (parseRequests_total n (parser_of s conn) (Buffer.contents b) Hp) as
    (mal & rs & p' & s' & Hpr & Hp').
  { unfold n, requestFuel. cbn [q_readableBytes Buffer_queue].
    rewrite <- Buffer.contents_length by done. unfold fuel_ok, blen. split; lia. }
  destruct (parseRequests_buffer _ _ _ _ _ _ _ Hb Hp Hpr) as (b' & Hb1 & Hb' & <- & Hfit).
  wp_step. eapply wp_lift; [exact Hb1|]. cbv beta iota. wp_step. wp_step. wp_step.
  eapply (wp_mono _ _ (fun _ s' es => s' = set_parsers (<[conn:=p']> (parsers_ s1)) s1 /\
    sent es = outcome_sent (connections_ s) conn mal rs /\ shut es = (if mal then [conn] else []))).
  - destruct mal; [by wp_steps|]. eapply wp_mono; [apply handleRequests_spec|].
    intros _ s2 es (-> & Hq & Hs). split_and!; [done | by rewrite Hs, <- Hc1 | by apply quiet_shut].
  - intros _ s2 es (-> & Hs & Hsh). wp_step. exists n, mal, rs, p'.
    rewrite !sent_app, !shut_app, Hs1, Hsh1. cbn [app]. rewrite !app_nil_r. rewrite <- Hp1. by split_and!.
Qed.

(** A malformed request stays one when more bytes arrive. *)
Lemma parseRequests_malformed n p (s d : bytes) rs p' s' :
  between p -> parseRequests n p s = Ok (true, rs, p', s') ->
  parseRequests n p (s ++ d) = Ok (true, rs, p', s' ++ d).
Proof.
  revert p s rs. induction n as [|n IH]; intros p s rs Hp; [done|]. cbn [parseRequests].
  intros ([[ok p1] s1] & Hr & Hk)%obind_Ok.
  pose proof (HttpParser.parseRequest_resumes p s d ok p1 s1 (proj1 Hp) Hr) as Hres.
  unfold HttpParser.resumes in Hres.
  destruct ok; cbn [negb andb] in *; [|by rewrite Hres; simplify_eq/=].
  destruct (HttpParser.gotAll p1) eqn:Hg; cbn [negb] in *; [|done].
  rewrite Hres. cbn [obind negb]. rewrite Hg. cbn [negb]. rewrite reset_make in *.
  destruct (q_readableBytes s1 =? 0) eqn:E; [done|].
  replace (q_readableBytes (s1 ++ d) =? 0) with false.
  2: { symmetry. apply Z.eqb_neq. apply Z.eqb_neq in E. simpl in *. rewrite blen_app.
       pose proof (blen_nonneg s1). pose proof (blen_nonneg d). lia. }
  apply obind_Ok in Hk as ([[[mal1 rs1] p3] s3] & Hk & [= -> <- -> ->]).
  by rewrite (IH _ _ _ between_make Hk).
Qed.

(** A malformed request leaves the parser in [Error]. *)
Lemma parseRequests_refused n p (s : bytes) rs p' s' :
  between p -> parseRequests n p s = Ok (true, rs, p', s') -> HttpParser.state_ p' = HttpParser.Error.
Proof.
  revert p s rs. induction n as [|n IH]; intros p s rs Hp; [done|]. cbn [parseRequests].
  intros ([[ok p1] s1] & Hr & Hk)%obind_Ok. apply HttpParser.parseRequest_error in Hr as [He _]; [|apply Hp].
  destruct ok; cbn [negb] in Hk; [|simplify_eq; by apply He].
  destruct (negb (HttpParser.gotAll p1)), (q_readableBytes s1 =? 0); try done.
  apply obind_Ok in Hk as ([[[mal1 rs1] p3] s3] & Hk & [= -> <- -> ->]).
  rewrite reset_make in Hk. by apply (IH _ _ _ between_make Hk).
Qed.

(** Fuel does not change the result. *)
Lemma parseRequests_unique n m p (s : bytes) r1 r2 :
  parseRequests n p s = Ok r1 -> parseRequests m p s = Ok r2 -> r1 = r2.
Proof.
  intros H1 H2. apply (parseRequests_fuel _ (n `max` m)) in H1, H2; [|lia..]. congruence.
Qed.

(** The bytes are split: so is the work. *)
Lemma parseRequests_split n p (s d : bytes) rs p2 s2 k mal1 rs1 p1 s1 :
  between p -> parseRequests n p (s ++ d) = Ok (false, rs, p2, s2) ->
  parseRequests k p s = Ok (mal1, rs1, p1, s1) -> between p1 ->
  mal1 = false /\ exists m rs2, rs = rs1 ++ rs2 /\ parseRequests m p1 (s1 ++ d) = Ok (false, rs2, p2, s2).
Proof.
  intros Hp Hn Hk Hp1. destruct mal1.
  { apply (parseRequests_malformed _ _ _ d) in Hk; [|done].
    by pose proof (parseRequests_unique _ _ _ _ _ _ Hn Hk). }
  split; [done|]. set (m := S (S (length (s1 ++ d)))).
  destruct (parseRequests_total m p1 (s1 ++ d) Hp1) as (mal & rs2 & p3 & s3 & Hm & _).
  { split; lia. }
  destruct (parseRequests_resumes _ _ _ _ _ _ _ _ _ _ _ _ Hp Hk Hm) as [j Hj].
  pose proof (parseRequests_unique _ _ _ _ _ _ Hn Hj) as E. simplify_eq. eauto.
Qed.

(** Fragments are served as they come. *)
Lemma deliver_spec conn frags s (b : Buffer.t) p n rs :
  parser_of s conn = p -> between p -> Buffer.wf b ->
  Buffer.size b + blen (concat (map fst frags)) <= Buffer.max_size ->
  parseRequests n p (Buffer.contents b ++ concat (map fst frags)) = Ok (false, rs, HttpParser.make, []) ->
  frags <> [] ->
  wp (deliver conn frags b) s (fun b' s' es =>
    parser_of s' conn = HttpParser.make /\ Buffer.contents b' = [] /\
    sent es = flat_map (answers (connections_ s) conn) rs /\ shut es = []).
Proof.
  revert s b p n rs. induction frags as [|[d timerId] frags IH]; intros s b p n rs Hps Hp Hb Hsz Hn Hne; [done|]. clear Hne.
  cbn [deliver map fst concat] in *. rewrite blen_app in Hsz.
  pose proof (blen_nonneg (concat (map fst frags))).
  destruct (@q_append_law _ Buffer_queue Buffer_queue_laws b d
    (blen d + blen (concat (map fst frags)))) as (b1 & Hb1 & Hwf1 & Hc1 & Hsz1); [done|simpl; lia|lia|].
  cbn [q_append q_wf q_contents q_fits Buffer_queue] in *.
  wp_step. eapply wp_lift; [exact Hb1|]. cbv beta. wp_step. subst p.
  eapply wp_mono; [by apply onMessage_spec|].
  intros b2 s2 es (k & mal & rs1 & p1 & Hk & Hp1 & Hwf2 & Hfit & Hps2 & Hcs & Hs & Hsh).
  rewrite app_assoc, <- Hc1 in Hn.
  destruct (parseRequests_split _ _ _ _ _ _ _ _ _ _ _ _ Hp Hn Hk Hp1) as (-> & m & rs2 & -> & Hm).
  assert (Hpo : parser_of s2 conn = p1) by (unfold parser_of; by rewrite Hps2, lookup_insert_eq).
  cbn [outcome_sent app] in *.
  destruct frags as [|f frags].
  - cbn [deliver map concat] in *. apply wp_ret. rewrite app_nil_r in Hn.
    pose proof (parseRequests_unique _ _ _ _ _ _ Hn Hk) as E. simplify_eq.
    rewrite !app_nil_r in *. cbn [app]. rewrite ?app_nil_r. rewrite Hs, flat_map_app.
    split_and!; [done..| |done].
    assert (rs2 = []) as -> by (apply (app_inv_head rs1); by rewrite app_nil_r).
    by rewrite app_nil_r.
  - eapply wp_mono; [eapply (IH s2 b2 p1 m rs2)|]; [done..| |exact Hm|done|].
    { apply Hfit in Hsz1. lia. }
    intros b3 s3 es3 (? & ? & Hs3 & Hsh3). cbn [app].
    split_and!; [done..| |]; rewrite ?sent_app, ?shut_app, ?Hs, ?Hs3, ?Hsh, ?Hsh3, ?Hcs; [|done].
    by rewrite flat_map_app.
Qed.

(** ** Lemmas: handlers in the world *)

(** [m] does not fault in the world [w], and leaves a world where [Q] holds. *)
Definition wpw {A} (m : M A) (w : world) (Q : A -> world -> Prop) : Prop :=
  wp m (chat w) (fun a s es => Q a (apply_effects es (set_app s w))).

Lemma apply_chat es w : chat (apply_effects es w) = chat w.
Proof. revert w. induction es as [|e es IH]; intros w; [done|]. simpl. rewrite IH. by destruct e. Qed.

Lemma apply_set_app es s w : apply_effects es (set_app s w) = set_app s (apply_effects es w).
Proof. revert w. induction es as [|e es IH]; intros w; [done|]. simpl. rewrite <- IH. by destruct e. Qed.

Lemma wpw_bind {A B} (m : M A) (k : A -> M B) w Q :
  wpw m w (fun a w1 => wpw (k a) w1 Q) -> wpw (st_bind m k) w Q.
Proof.
  unfold wpw. intros H. apply wp_bind. eapply wp_mono; [exact H|].
  intros a s es Hk. unfold wpw in Hk. rewrite apply_chat in Hk. eapply wp_mono; [exact Hk|].
  intros b s' es' Hq. cbv beta in *. unfold apply_effects in *. rewrite foldl_app.
  fold (apply_effects es (set_app s' w)). rewrite apply_set_app.
  fold (apply_effects es (set_app s w)) in Hq. rewrite apply_set_app in Hq. exact Hq.
Qed.

Lemma wpw_ret {A} (a : A) w (Q : A -> world -> Prop) : Q a w -> wpw (st_ret a) w Q.
Proof. unfold wpw. intros H. apply wp_ret. by destruct w. Qed.
Lemma wpw_get w (Q : t -> world -> Prop) : Q (chat w) w -> wpw st_get w Q.
Proof. unfold wpw. intros H. apply wp_get. by destruct w. Qed.
Lemma wpw_modify f w (Q : unit -> world -> Prop) : Q tt (set_app (f (chat w)) w) -> wpw (st_modify f) w Q.
Proof. done. Qed.
Lemma wpw_tell es w (Q : unit -> world -> Prop) : Q tt (apply_effects es w) -> wpw (st_tell es) w Q.
Proof. unfold wpw. intros H. apply wp_tell. by destruct w. Qed.
Lemma wpw_when b (m : M unit) w Q :
  (b = true -> wpw m w Q) -> (b = false -> Q tt w) -> wpw (st_when b m) w Q.
Proof.
  unfold wpw. intros H1 H2. apply wp_when; [done|]. intros Hb. by destruct w; apply H2.
Qed.
Lemma wpw_mono {A} (m : M A) w (Q Q' : A -> world -> Prop) :
  wpw m w Q -> (forall a w', Q a w' -> Q' a w') -> wpw m w Q'.
Proof. unfold wpw. intros H HQ. eapply wp_mono; [exact H|]. eauto. Qed.

Lemma wpw_handle {A} (m : M A) w (P : world -> Prop) :
  wpw m w (fun _ w' => P w') -> exists w', handle m w = Ok w' /\ P w'.
Proof.
  intros (a & s & es & E & H)%wp_elim. unfold handle. rewrite E. simpl. eauto.
Qed.

Ltac wpw_step :=
  lazymatch goal with
  | |- wpw (st_bind _ _) _ _ => apply wpw_bind
  | |- wpw (st_ret _) _ _ => apply wpw_ret
  | |- wpw st_get _ _ => apply wpw_get
  | |- wpw (st_modify _) _ _ => apply wpw_modify
  | |- wpw (st_tell _) _ _ => apply wpw_tell
  | |- wpw (st_when _ _) _ _ => apply wpw_when; intros ?
  | |- wpw (if ?b then _ else _) _ _ => destruct b eqn:?
  end; cbv beta.
Ltac wpw_steps := repeat wpw_step.

Lemma apply_quiet es w : Forall quiet es -> apply_effects es w = w.
Proof. induction 1 as [|[] es ? ? IH]; done. Qed.

(** ** The invariant of the world *)

Definition timer_of (k : timeout) (tm : ConnectionTimers) : TimerId :=
  match k with IdleTimeout => idleTimer tm | ForceCloseTimeout => forceCloseTimer tm end.

(** What concerns one connection: it is in the three maps while it is up, its
    armed timers are those recorded, and its idle timer runs while it is connected. *)
Record inv_at (w : world) (c : Conn) : Prop := {
  i_users : c ∈ connections_ (chat w) <-> up w c;
  i_timers : is_Some (idleTimers_ (chat w) !! c) <-> up w c;
  i_parsers : is_Some (parsers_ (chat w) !! c) <-> up w c;
  i_between p : parsers_ (chat w) !! c = Some p -> between p;
  i_armed l i k : armed w !! (l, i) = Some (c, k) ->
    l = loopOf c /\ i <> 0 /\ used w !! (l, i) = Some (c, k) /\
    exists tm, idleTimers_ (chat w) !! c = Some tm /\ timer_of k tm = i;
  i_recorded tm k : idleTimers_ (chat w) !! c = Some tm -> timer_of k tm <> 0 ->
    used w !! (loopOf c, timer_of k tm) = Some (c, k);
  i_connected : states w !! c = Some TcpConnection.kConnected ->
    exists i, i <> 0 /\ idleTimers_ (chat w) !! c = Some (Timers i 0) /\
      armed w !! (loopOf c, i) = Some (c, IdleTimeout);
  i_deadline : states w !! c = Some TcpConnection.kDisconnecting ->
    (exists i, armed w !! (loopOf c, i) = Some (c, ForceCloseTimeout)) \/ c ∈ closing w \/
    exists p, parsers_ (chat w) !! c = Some p /\ HttpParser.state_ p = HttpParser.Error;
}.

Definition inv (w : world) : Prop := forall c, inv_at w c.

Lemma inv_world0 : inv world0.
Proof.
  intros c. split; unfold up; simpl; try (intros *; rewrite ?lookup_empty; done).
  all: rewrite ?lookup_empty; set_solver.
Qed.

(** The two worlds agree about a connection. *)
Record same_at (w w' : world) (c : Conn) : Prop := {
  s_users : c ∈ connections_ (chat w') <-> c ∈ connections_ (chat w);
  s_timers : idleTimers_ (chat w') !! c = idleTimers_ (chat w) !! c;
  s_parsers : parsers_ (chat w') !! c = parsers_ (chat w) !! c;
  s_states : states w' !! c = states w !! c;
  s_armed key k : armed w' !! key = Some (c, k) <-> armed w !! key = Some (c, k);
  s_used key k : used w' !! key = Some (c, k) <-> used w !! key = Some (c, k);
  s_closing : c ∈ closing w' <-> c ∈ closing w;
}.

Lemma world_same w w' c : inv_at w c -> same_at w w' c -> inv_at w' c.
Proof.
  intros [Iu It Ip Ib Ia Ir Ic Id] [Su St Sp Ss Sa Sd Sc]. unfold up in *.
  split; unfold up; rewrite ?St, ?Sp, ?Ss, ?Su; try done.
  - intros l i k Hk%Sa. destruct (Ia _ _ _ Hk) as (? & ? & ? & ?). rewrite Sd. done.
  - intros tm k Htm Hk. rewrite Sd. eauto.
  - intros Hst. destruct (Ic Hst) as (i & ? & ? & ?). exists i. by rewrite Sa.
  - intros Hst. rewrite Sc. destruct (Id Hst) as [[i Hi]|Hd]; [|by right].
    left. exists i. by rewrite Sa.
Qed.

(** A step about [c] keeps the invariant of the others when they agree. *)
Lemma world_frame w w' c :
  inv w -> (forall c', c' <> c -> same_at w w' c') -> inv_at w' c -> inv w'.
Proof.
  intros Hw Hs Hc c'. destruct (decide (c' = c)) as [->|Hne]; [done|].
  eapply world_same; [apply Hw | by apply Hs].
Qed.

(** Timers of [c] made or removed are not those of another connection. *)
Lemma own_insert (m : gmap (Z * TimerId) (Conn * timeout)) key0 c k0 c' key k :
  m !! key0 = None -> c' <> c ->
  <[key0 := (c, k0)]> m !! key = Some (c', k) <-> m !! key = Some (c', k).
Proof.
  intros Hn Hne. destruct (decide (key = key0)) as [->|Hk].
  - rewrite lookup_insert_eq, Hn. split; [congruence | done].
  - by rewrite lookup_insert_ne.
Qed.

Lemma own_delete (m : gmap (Z * TimerId) (Conn * timeout)) key0 c c' key k :
  (forall v, m !! key0 = Some v -> v.1 = c) -> c' <> c ->
  delete key0 m !! key = Some (c', k) <-> m !! key = Some (c', k).
Proof.
  intros Hv Hne. destruct (decide (key = key0)) as [->|Hk].
  - rewrite lookup_delete_eq. split; [done|]. intros H. by apply Hv in H.
  - by rewrite lookup_delete_ne.
Qed.

(** A timer identifier not used yet is not armed. *)
Lemma fresh_not_armed w key : inv w -> used w !! key = None -> armed w !! key = None.
Proof.
  intros Hw Hu. destruct key as [l i]. destruct (armed w !! (l, i)) as [[c k]|] eqn:E; [|done].
  apply (i_armed _ _ (Hw c)) in E as (_ & _ & ? & _). congruence.
Qed.

(** What is armed under a recorded identifier belongs to its connection. *)
Lemma recorded_owner w c tm k v :
  inv w -> idleTimers_ (chat w) !! c = Some tm -> timer_of k tm <> 0 ->
  armed w !! (loopOf c, timer_of k tm) = Some v -> v = (c, k).
Proof.
  intros Hw Htm Hk Hv. destruct v as [c' k'].
  apply (i_armed _ _ (Hw c')) in Hv as (_ & _ & Hu & _).
  pose proof (i_recorded _ _ (Hw c) tm k Htm Hk). congruence.
Qed.

Ltac world_fields :=
  cbn [apply_effects foldl apply_effect set_app set_states set_armed chat states armed used closing
       set_connections set_idleTimers set_parsers connections_ idleTimers_ parsers_
       idleTimer forceCloseTimer timer_of] in *.

(** [refreshIdleTimer] of a connection that is up: its timer is replaced. *)
Definition refreshed (c : Conn) (i : TimerId) (tm : ConnectionTimers) (w : world) : world :=
  let s := set_idleTimers (<[c := Timers i (forceCloseTimer tm)]> (idleTimers_ (chat w))) (chat w) in
  let w := if idleTimer tm =? 0 then w
           else set_armed (delete (loopOf c, idleTimer tm) (armed w)) w in
  set_app s (apply_effect w (ERunAfter c kTimeout IdleTimeout i)).

Lemma wpw_refresh w c i tm (Q : unit -> world -> Prop) :
  idleTimers_ (chat w) !! c = Some tm -> Q tt (refreshed c i tm w) ->
  wpw (refreshIdleTimer c TcpConnection.kConnected i) w Q.
Proof.
  intros Htm HQ. unfold refreshIdleTimer, refreshed in *.
  change (negb (connected TcpConnection.kConnected)) with false. cbv iota.
  wpw_step. wpw_step. rewrite Htm. wpw_steps; destruct (idleTimer tm =? 0); done.
Qed.

Lemma step_established w c i :
  inv w -> enabled (WEstablished c i) w ->
  exists w', step (WEstablished c i) w = Ok w' /\ inv w'.
Proof.
  intros Hw [Hst [Hi Hf]]. apply wpw_handle. unfold onConnection, register.
  pose proof (fresh_not_armed w _ Hw Hf) as Hna.
  assert (Hup : ~ up w c) by (unfold up; rewrite Hst; by intros [|]).
  pose proof (Hw c) as [Iu It Ip _ Ia _ _].
  assert (HT : idleTimers_ (chat w) !! c = None) by (apply eq_None_not_Some; by rewrite It).
  assert (HP : parsers_ (chat w) !! c = None) by (apply eq_None_not_Some; by rewrite Ip).
  change (connected TcpConnection.kConnected) with true. cbv iota.
  wpw_steps; try done. eapply wpw_refresh; [apply lookup_insert_eq|].
  unfold track_parser, refreshed. change (connected TcpConnection.kConnected) with true.
  wpw_step. destruct w as [[C T P] S A U F]. world_fields. rewrite HP, insert_insert_eq.
  change (0 =? 0) with true. cbv iota. world_fields.
  apply (world_frame _ _ c Hw).
  - intros c' Hne. split; world_fields; rewrite ?lookup_insert_ne by done; try done;
      [set_solver | intros; by apply own_insert..].
  - split; unfold up; world_fields; rewrite ?lookup_insert_eq;
      [set_solver | by split; auto.. | | | | | done].
    + intros p [= <-]. apply between_make.
    + intros l j k [([= <- <-] & [= <-])|(Hne & Hk)]%lookup_insert_Some.
      * rewrite lookup_insert_eq. eauto 10.
      * apply Ia in Hk as (_ & _ & _ & tm & Htm & _). congruence.
    + intros tm k [= <-] Hk. destruct k; world_fields; [by rewrite lookup_insert_eq | done].
    + intros _. exists i. by rewrite lookup_insert_eq.
Qed.

(** The cancellations of [onConnection]: what is recorded is no longer armed. *)
Definition canceled (c : Conn) (tm : ConnectionTimers) (m : gmap (Z * TimerId) (Conn * timeout))
  : gmap (Z * TimerId) (Conn * timeout) :=
  let m := if idleTimer tm =? 0 then m else delete (loopOf c, idleTimer tm) m in
  if forceCloseTimer tm =? 0 then m else delete (loopOf c, forceCloseTimer tm) m.

Lemma wpw_cancels c tm w (k : M unit) (Q : unit -> world -> Prop) :
  wpw k (set_armed (canceled c tm (armed w)) w) Q ->
  wpw (st_when (negb (idleTimer tm =? 0)) (st_tell [ECancel c (idleTimer tm)]) ;;;
       st_when (negb (forceCloseTimer tm =? 0)) (st_tell [ECancel c (forceCloseTimer tm)]) ;;;
       k) w Q.
Proof.
  intros H. unfold canceled in H. destruct w.
  wpw_step. wpw_step; wpw_step; wpw_step;
    destruct (idleTimer tm =? 0), (forceCloseTimer tm =? 0); try done; exact H.
Qed.

Lemma canceled_armed c tm w l i c' k :
  inv w -> idleTimers_ (chat w) !! c = Some tm ->
  canceled c tm (armed w) !! (l, i) = Some (c', k) <-> armed w !! (l, i) = Some (c', k) /\ c' <> c.
Proof.
  intros Hw Htm.
  assert (Hi : forall k v, timer_of k tm <> 0 -> armed w !! (loopOf c, timer_of k tm) = Some v -> v.1 = c).
  { intros k0 v Hk Hv. by rewrite (recorded_owner _ _ _ _ _ Hw Htm Hk Hv). }
  pose proof (Hi IdleTimeout) as Hidle. pose proof (Hi ForceCloseTimeout) as Hforce. cbn [timer_of] in *.
  unfold canceled. split.
  - intros Hk. assert (Hk0 : armed w !! (l, i) = Some (c', k)).
    { destruct (idleTimer tm =? 0), (forceCloseTimer tm =? 0);
        rewrite ?lookup_delete_Some in Hk; naive_solver. }
    split; [done|]. intros ->. apply (i_armed _ _ (Hw c)) in Hk0 as (-> & Hi0 & _ & tm' & Htm' & <-).
    rewrite Htm in Htm'. injection Htm' as <-.
    destruct (idleTimer tm =? 0) eqn:E1, (forceCloseTimer tm =? 0) eqn:E2, k; zbool; cbn [timer_of] in *;
      rewrite ?lookup_delete_Some in Hk; naive_solver.
  - intros [Hk Hne]. destruct (idleTimer tm =? 0) eqn:E1, (forceCloseTimer tm =? 0) eqn:E2; zbool;
      rewrite ?lookup_delete_Some; split_and?; try done; intros [= <- <-]; naive_solver.
Qed.

Lemma step_closed w c i :
  inv w -> enabled (WClosed c i) w ->
  exists w', step (WClosed c i) w = Ok w' /\ inv w'.
Proof.
  intros Hw [Hup _]. apply wpw_handle. unfold onConnection, register.
  change (connected TcpConnection.kDisconnected) with false. cbv iota.
  pose proof (Hw c) as [_ It _ _ _ _ _]. apply It in Hup as [tm Htm].
  pose proof (fun l i c' k => canceled_armed c tm w l i c' k Hw Htm) as Hca.
  destruct w as [[C T P] S A U F]. world_fields.
  do 7 (wpw_step; world_fields). rewrite Htm. do 3 (wpw_step; world_fields). cbv iota.
  apply wpw_cancels. world_fields. wpw_step. apply wpw_when; [done|intros _].
  unfold track_parser. wpw_step. change (connected TcpConnection.kDisconnected) with false.
  world_fields. cbv iota. apply (world_frame _ _ c Hw).
  - intros c' Hne. split; world_fields; rewrite ?lookup_insert_ne, ?lookup_delete_ne by done; try done;
      [set_solver | intros [l j] k; rewrite Hca; naive_solver].
  - split; unfold up; world_fields; rewrite ?lookup_insert_eq, ?lookup_delete_eq; try done;
      [set_solver | naive_solver.. |].
    intros l j k []%Hca. done.
Qed.

(** Replacing the idle timer of a connected connection keeps the invariant. *)
Lemma inv_refreshed w c i j :
  inv w -> i <> 0 -> used w !! (loopOf c, i) = None -> j <> 0 ->
  states w !! c = Some TcpConnection.kConnected ->
  idleTimers_ (chat w) !! c = Some (Timers j 0) -> armed w !! (loopOf c, j) = Some (c, IdleTimeout) ->
  inv (refreshed c i (Timers j 0) w).
Proof.
  intros Hw Hi Hf Hj Hst Htm Haj. pose proof (fresh_not_armed w _ Hw Hf) as Hna.
  pose proof (Hw c) as [Iu It Ip Ib Ia Ir _].
  unfold refreshed. cbn [idleTimer forceCloseTimer].
  rewrite (proj2 (Z.eqb_neq j 0)) by done. destruct w as [[C T P] S A U F]. unfold up in *. world_fields.
  apply (world_frame _ _ c Hw).
  - intros c' Hne. split; world_fields; rewrite ?lookup_insert_ne by done; try done.
    + intros key k. rewrite (own_insert _ _ c), (own_delete _ _ c); try done.
      * intros v. rewrite Haj. by intros [= <-].
      * apply lookup_delete_None. by right.
    + intros key k. by apply (own_insert _ _ c).
  - split; unfold up; world_fields; rewrite ?lookup_insert_eq; try done; [naive_solver| | | |congruence].
    + intros l j' k [([= <- <-] & [= <-])|(Hne & (Hne' & Hk)%lookup_delete_Some)]%lookup_insert_Some.
      * rewrite lookup_insert_eq. eauto 10.
      * destruct (Ia _ _ _ Hk) as (-> & Hj' & _ & tm & Htm' & <-). rewrite Htm in Htm'.
        injection Htm' as <-. destruct k; simpl in *; congruence.
    + intros tm k [= <-] Hk. destruct k; simpl in *; [|done]. by rewrite lookup_insert_eq.
    + intros _. exists i. by rewrite lookup_insert_eq.
Qed.

(** [shutdown] of a connection that is up, its parser in [Error]. *)
Lemma inv_shutdown w c m p :
  inv w -> up w c ->
  parsers_ (chat w) !! c = Some p -> HttpParser.state_ p = HttpParser.Error ->
  inv (apply_effects [EShutdown c] (apply_effects [ESend c m] w)).
Proof.
  intros Hw Hup Hp He. world_fields. pose proof (Hw c) as [Iu It Ip Ib Ia Ir _ _].
  apply (world_frame _ _ c Hw).
  - intros c' Hne. split; world_fields; rewrite ?lookup_alter_ne by done; done.
  - split; unfold up in *; world_fields; rewrite ?lookup_alter_eq; try done.
    5: { intros _. right. right. eauto. }
    all: destruct Hup as [Hst|Hst]; rewrite Hst in *; simpl; naive_solver.
Qed.

Lemma wpw_handleRequests c rs w (Q : unit -> world -> Prop) :
  Q tt w -> wpw (handleRequests c rs) w Q.
Proof.
  intros HQ. unfold wpw. eapply wp_mono; [apply handleRequests_spec|].
  intros [] s es (-> & Hq & _). rewrite apply_quiet by done. by destruct w.
Qed.

(** The message is parsed without a fault. *)
Lemma parse_message p (b : Buffer.t) :
  between p -> Buffer.wf b ->
  exists mal rs p' b', parseRequests (requestFuel b) p b = Ok (mal, rs, p', b') /\ between p' /\
    (mal = true -> HttpParser.state_ p' = HttpParser.Error) /\
    (HttpParser.state_ p = HttpParser.Error -> mal = true).
Proof.
  intros Hp Hb.
  destruct (parseRequests_total (requestFuel b) p (Buffer.contents b) Hp) as (mal & rs & p' & s' & Hpr & Hp').
  { unfold requestFuel. cbn [q_readableBytes Buffer_queue].
    rewrite <- Buffer.contents_length by done. unfold fuel_ok, blen. split; lia. }
  destruct (parseRequests_buffer _ _ _ _ _ _ _ Hb Hp Hpr) as (b' & Hb1 & _).
  exists mal, rs, p', b'. split_and!; [done..| |].
  - intros ->. by apply (parseRequests_refused _ _ _ _ _ _ Hp Hpr).
  - intros He. unfold requestFuel in Hpr. cbn [parseRequests] in Hpr.
    unfold HttpParser.parseRequest in Hpr. rewrite He in Hpr. by simplify_eq/=.
Qed.

(** A message: the parser and the timers of its connection, and its state. *)
Lemma step_message w c b i :
  inv w -> enabled (WMessage c b i) w ->
  exists w', step (WMessage c b i) w = Ok w' /\ inv w'.
Proof.
  intros Hw (Hup & [Hi Hf] & Hb). apply wpw_handle. unfold onMessage.
  pose proof (fresh_not_armed w _ Hw Hf) as Hna.
  assert (exists w1, inv w1 /\ up w1 c /\
    wpw (st_when (connected (default TcpConnection.kConnecting (states w !! c)))
      (refreshIdleTimer c (default TcpConnection.kConnecting (states w !! c)) i)) w (fun _ w' => w' = w1))
    as (w1 & Hw1 & Hup1 & H1).
  { destruct Hup as [Hst|Hst]; rewrite Hst; cbn [default from_option id].
    - destruct (i_connected _ _ (Hw c) Hst) as (j & Hj & Htm & Haj).
      exists (refreshed c i (Timers j 0) w). split_and!.
      + by apply (inv_refreshed w c i j).
      + left. unfold refreshed. by destruct (_ =? 0).
      + by apply (wpw_refresh _ _ _ (Timers j 0)).
    - exists w. split_and!; [done | by right | by apply wpw_ret]. }
  wpw_step. eapply wpw_mono; [exact H1|]. intros _ ? ->. clear w Hw Hup Hf Hna H1.
  wpw_step. wpw_step. fold (parser_of (chat w1) c).
  assert (Hp : between (parser_of (chat w1) c)).
  { unfold parser_of. destruct (parsers_ (chat w1) !! c) as [p|] eqn:E; [|apply between_make].
    by apply (i_between _ _ (Hw1 c)). }
  destruct (parse_message (parser_of (chat w1) c) b Hp Hb) as (mal & rs & p' & b' & -> & Hp' & Hmal & Herr).
  apply wpw_bind. unfold wpw at 1. eapply wp_lift; [done|]. cbv beta iota.
  wpw_step. wpw_step.
  set (w2 := set_app _ _).
  assert (Hl2 : parsers_ (chat w2) !! c = Some p') by apply lookup_insert_eq.
  assert (inv w2 /\ up w2 c) as [Hw2 Hup2].
  { split; [|done]. apply (world_frame w1 _ c Hw1).
    - intros c' Hne. split; try done. unfold w2. world_fields. by rewrite lookup_insert_ne.
    - destruct (Hw1 c) as [Iu It Ip Ib Ia Ir Ic Id]. split; try done.
      + rewrite Hl2. naive_solver.
      + intros Hst. destruct (Id Hst) as [?|[?|(p & Hpp & He)]]; [by left|by right; left|].
        right. right. exists p'. split; [done|]. apply Hmal, Herr. unfold parser_of. by rewrite Hpp. }
  wpw_step. destruct mal.
  - wpw_steps. by apply (inv_shutdown _ _ _ p'); auto.
  - apply wpw_handleRequests. by wpw_step.
Qed.

(** [forceClose] of a connection that is not connected. *)
Lemma forced_states w c :
  states w !! c <> Some TcpConnection.kConnected -> alter forceClose_state c (states w) = states w.
Proof.
  intros Hst. apply map_eq. intros c'. destruct (decide (c' = c)) as [->|Hne].
  - rewrite lookup_alter_eq. destruct (states w !! c) as [[]|]; done.
  - by rewrite lookup_alter_ne.
Qed.

(** What remains when a timer of connection [c] fires: the other timer of [c] keeps its place, and
    no other connection sees a difference. *)
Lemma fired_others w c fired k tm :
  inv w -> armed w !! (loopOf c, fired) = Some (c, k) ->
  idleTimers_ (chat w) !! c = Some tm -> timer_of k tm = fired ->
  (forall l j k', delete (loopOf c, fired) (armed w) !! (l, j) = Some (c, k') ->
    l = loopOf c /\ j <> 0 /\ used w !! (l, j) = Some (c, k') /\ j = timer_of k' tm /\ k' <> k) /\
  (forall c', c' <> c -> same_at w (set_armed (delete (loopOf c, fired) (armed w)) w) c').
Proof.
  intros Hw Ha Htm Hk. pose proof (Hw c) as Hc.
  assert (Hown : forall v, armed w !! (loopOf c, fired) = Some v -> v.1 = c) by (rewrite Ha; naive_solver).
  split.
  - intros l j k' [Hne Hj]%lookup_delete_Some. destruct (i_armed _ _ Hc _ _ _ Hj) as (-> & ? & ? & tm' & Htm' & <-).
    split_and!; try done; congruence.
  - intros c' Hne. split; world_fields; try done. intros key k'. by apply (own_delete _ _ c).
Qed.

(** The idle timer fires: a connected client is shut down with a deadline. *)
Lemma idle_fires w c fired i tm :
  inv w -> armed w !! (loopOf c, fired) = Some (c, IdleTimeout) ->
  idleTimers_ (chat w) !! c = Some tm -> timer_of IdleTimeout tm = fired -> fresh w c i ->
  wpw (handleIdleTimeout c (default TcpConnection.kConnecting (states w !! c)) i) (set_armed (delete (loopOf c, fired) (armed w)) w) (fun _ w' => inv w').
Proof.
  intros Hw Ha Htm Hk [Hi Hf]. pose proof (Hw c) as Hc.
  pose proof (fresh_not_armed w _ Hw Hf) as Hna.
  destruct (fired_others _ _ _ _ _ Hw Ha Htm Hk) as [Hother Hsame].
  unfold handleIdleTimeout. world_fields. destruct (connected _) eqn:Est; cbn [negb].
  + assert (Hst : states w !! c = Some TcpConnection.kConnected).
    { apply bool_decide_eq_true in Est. by destruct (states w !! c); simpl in Est; subst. }
    destruct (i_connected _ _ Hc Hst) as (j & _ & Htm' & _). rewrite Htm in Htm'. injection Htm' as ->.
    destruct w as [[C T P] S A U F]. world_fields. do 6 (wpw_step; world_fields). rewrite Htm.
    wpw_step. wpw_step. world_fields. wpw_step. world_fields. apply (world_frame _ _ c Hw).
    * intros c' Hne. destruct (Hsame c' Hne) as [_ _ _ _ Sa _]. split; world_fields;
        rewrite ?lookup_insert_ne, ?lookup_alter_ne by done; try done.
      -- intros key k. rewrite (own_insert _ _ c); [apply Sa | | done]. apply lookup_delete_None. by right.
      -- intros key k. by apply own_insert.
    * destruct Hc as [Iu It Ip Ib _ _ _ _]. unfold up in *. world_fields.
      assert (Hst' : alter shutdown_state c S !! c = Some TcpConnection.kDisconnecting)
        by (by rewrite lookup_alter_eq, Hst).
      rewrite Hst in Iu, It, Ip.
      split; unfold up; world_fields; rewrite ?lookup_insert_eq, ?Hst'; try done; [naive_solver..| | |].
      -- intros l j' k [([= <- <-] & [= <-])|(Hne & (_ & Hj0 & _ & Hj & Hk0)%Hother)]%lookup_insert_Some.
         ++ rewrite lookup_insert_eq. eauto 10.
         ++ destruct k; simpl in *; congruence.
      -- intros tm k [= <-] Hk2. destruct k; simpl in *; [done|]. by rewrite lookup_insert_eq.
      -- intros _. left. exists i. by rewrite lookup_insert_eq.
  + apply wpw_ret. apply (world_frame _ _ c Hw Hsame).
    destruct Hc as [Iu It Ip Ib _ Ir _ Id]. split; world_fields; try done.
    * intros l j k (-> & ? & ? & -> & _)%Hother. eauto 10.
    * intros Hst. rewrite Hst in Est. done.
    * intros Hst. destruct (Id Hst) as [[j Hj]|?]; [left|by right]. exists j.
      rewrite lookup_delete_ne; [done|]. intros [= <-]. congruence.
Qed.

(** The deadline fires: a client that is still shutting down is closed. *)
Lemma deadline_fires w c fired tm :
  inv w -> armed w !! (loopOf c, fired) = Some (c, ForceCloseTimeout) ->
  idleTimers_ (chat w) !! c = Some tm -> timer_of ForceCloseTimeout tm = fired ->
  wpw (handleForceCloseTimeout c (default TcpConnection.kConnecting (states w !! c))) (set_armed (delete (loopOf c, fired) (armed w)) w) (fun _ w' => inv w').
Proof.
  intros Hw Ha Htm Hk. pose proof (Hw c) as Hc.
  destruct (i_armed _ _ Hc _ _ _ Ha) as (_ & Hi0 & _).
  destruct (fired_others _ _ _ _ _ Hw Ha Htm Hk) as [Hother Hsame].
  assert (Hnc : states w !! c <> Some TcpConnection.kConnected).
  { intros Hst. destruct (i_connected _ _ Hc Hst) as (j & _ & Htm' & _). rewrite Htm in Htm'.
    injection Htm' as ->. simpl in Hk; congruence. }
  unfold handleForceCloseTimeout. wpw_step. wpw_step. cbn [set_armed chat states]. rewrite Htm.
  wpw_step. wpw_step.
  set (w' := set_app _ _).
  assert (forall X : gset Z, (forall c', c' ∈ X -> c' = c) ->
    (states w !! c = Some TcpConnection.kDisconnecting -> c ∈ X) ->
    inv (World (chat w') (states w') (armed w') (used w') (X ∪ closing w'))) as Hw'.
  { intros X HX Hd. apply (world_frame _ _ c Hw).
    - intros c' Hne. destruct (Hsame c' Hne) as [_ _ _ _ Sa _ _]. subst w'. split; world_fields; try done.
      + by rewrite lookup_insert_ne.
      + set_solver.
    - destruct Hc as [Iu It Ip Ib _ Ir _ _]. subst w'. split; world_fields; try done.
      + rewrite lookup_insert_eq, <- It, Htm. by split.
      + intros l j k (-> & ? & ? & -> & Hk2)%Hother. rewrite lookup_insert_eq.
        split_and!; try done. eexists. split; [done|]. by destruct k.
      + intros tm' k. rewrite lookup_insert_eq. intros [= <-] Hk2.
        destruct k; [|done]. exact (Ir tm IdleTimeout Htm Hk2).
      + intros Hst. right. left. apply elem_of_union_l. by apply Hd. }
  wpw_steps.
  + world_fields. rewrite forced_states by done. apply Hw'; set_solver.
  + replace w' with (World (chat w') (states w') (armed w') (used w') (∅ ∪ closing w'))
      by (destruct w'; world_fields; f_equal; set_solver).
    apply Hw'; [set_solver|]. intros Hst. rewrite Hst in *. done.
Qed.

Lemma step_fire w loop fired i :
  inv w -> enabled (WFire loop fired i) w ->
  exists w', step (WFire loop fired i) w = Ok w' /\ inv w'.
Proof.
  intros Hw (c & k & Ha & Hf). simpl. rewrite Ha. apply wpw_handle.
  destruct (i_armed _ _ (Hw c) _ _ _ Ha) as (-> & _ & _ & tm & Htm & Hk).
  destruct k; [by apply (idle_fires _ _ _ _ tm) | by apply (deadline_fires _ _ _ tm)].
Qed.

(** Every run that respects the contracts of connections and timers. *)
Lemma world_run_inv evs w :
  inv w -> run_enabled evs w -> exists w', run evs w = Ok w' /\ inv w'.
Proof.
  revert w. induction evs as [|e evs IH]; intros w Hw; [by eauto|]. cbn [run run_enabled].
  intros [He Hrun].
  assert (exists w1, step e w = Ok w1 /\ inv w1) as (w1 & E & Hw1).
  { destruct e; [by apply step_established | by apply step_closed | by apply step_message | by apply step_fire]. }
  rewrite E in *. cbn [obind]. by apply IH.
Qed.

(** ** Lemmas: a client reads the response *)

Definition response_headers (contentType content : bytes) : list (bytes * bytes) :=
  [(str "Content-Type", contentType); (str "Content-Length", Digits.to_string (blen content));
   (str "Connection", str "Keep-Alive")].

Lemma http_response_headers contentType content :
  http_response contentType content =
    str "HTTP/1.1 200 OK" ++ Buffer.kCRLF ++
    HttpParser.render_headers (response_headers contentType content) ++ Buffer.kCRLF ++ content.
Proof.
  unfold http_response, HttpParser.render_headers, response_headers, HttpParser.render_header.
  cbn [map concat fst snd]. change (str "Content-Type: ") with (str "Content-Type" ++ [HttpParser.COLON; HttpParser.SP]).
  change (str "Content-Length: ") with (str "Content-Length" ++ [HttpParser.COLON; HttpParser.SP]).
  change (str "Connection: Keep-Alive") with
    (str "Connection" ++ [HttpParser.COLON; HttpParser.SP] ++ str "Keep-Alive").
  by rewrite <- !app_assoc.
Qed.

(** What the two timeouts do in the world. *)
Lemma fire_idle w c i j tm :
  armed w !! (loopOf c, i) = Some (c, IdleTimeout) ->
  states w !! c = Some TcpConnection.kConnected -> idleTimers_ (chat w) !! c = Some tm ->
  exists w1, step (WFire (loopOf c) i j) w = Ok w1 /\
    states w1 !! c = Some TcpConnection.kDisconnecting /\
    armed w1 !! (loopOf c, j) = Some (c, ForceCloseTimeout) /\
    idleTimers_ (chat w1) !! c = Some (Timers 0 j).
Proof.
  intros Ha Hst Htm. cbn [step]. rewrite Ha. cbn [set_armed states]. rewrite Hst.
  apply wpw_handle. unfold handleIdleTimeout.
  change (negb (connected (default TcpConnection.kConnecting (Some TcpConnection.kConnected)))) with false.
  cbv iota. destruct w as [[C T P] S A U F]. world_fields.
  do 6 (wpw_step; world_fields). rewrite Htm. do 3 (wpw_step; world_fields).
  by rewrite lookup_alter_eq, Hst, !lookup_insert_eq.
Qed.

Lemma fire_force w c i j tm :
  armed w !! (loopOf c, i) = Some (c, ForceCloseTimeout) ->
  states w !! c = Some TcpConnection.kDisconnecting -> idleTimers_ (chat w) !! c = Some tm ->
  exists w1, step (WFire (loopOf c) i j) w = Ok w1 /\ c ∈ closing w1.
Proof.
  intros Ha Hst Htm. cbn [step]. rewrite Ha. cbn [set_armed states]. rewrite Hst.
  apply wpw_handle. unfold handleForceCloseTimeout. destruct w as [[C T P] S A U F]. world_fields.
  do 2 (wpw_step; world_fields). rewrite Htm. do 2 (wpw_step; world_fields).
  wpw_steps; [|done]. world_fields. set_solver.
Qed.

(** Requests that are served are lost when a refused one follows in the buffer. *)
Lemma parseRequests_stream_refused rs r rest :
  Forall HttpParser.valid_request rs ->
  HttpParser.valid_method (HttpParser.r_method r) -> HttpParser.valid_path (HttpParser.r_path r) ->
  HttpParser.r_version r ∈ HttpParser.versions ->
  Forall (fun h => HttpParser.valid_method h.1 /\ HttpParser.valid_value h.2) (HttpParser.r_headers r) ->
  HttpParser.ambiguous_headers r ->
  exists n p' s', parseRequests n HttpParser.make (stream rs ++ HttpParser.render r ++ rest) =
    Ok (true, map request_of rs, p', s').
Proof.
  intros Hv Hm Hp Hver Hh Ha. induction rs as [|q rs IH].
  - destruct (HttpParser.parse_ambiguous r rest) as (p' & s' & Hr); [done..|].
    exists 1%nat, p', s'. cbn [stream map concat app parseRequests]. by rewrite Hr.
  - apply Forall_cons in Hv as [Hq Hv]. destruct (IH Hv) as (n & p' & s' & Hn).
    exists (S n), p', s'. unfold stream in *. cbn [map concat parseRequests].
    rewrite <- app_assoc. destruct (HttpParser.parse_render q
      (concat (map HttpParser.render rs) ++ HttpParser.render r ++ rest) Hq) as [k ->].
    cbn [obind negb]. change (HttpParser.gotAll _) with true. cbn [negb]. rewrite reset_make.
    replace (q_readableBytes _ =? 0) with false; [by rewrite Hn|].
    symmetry. apply Z.eqb_neq. cbn [q_readableBytes bytes_queue]. rewrite !blen_app.
    pose proof (blen_nonneg rest). pose proof (blen_nonneg (concat (map HttpParser.render rs))).
    assert (0 < blen (HttpParser.render r)); [|lia].
    unfold HttpParser.render, HttpParser.render_request_line.
    destruct Hm as [Hm _]. destruct (HttpParser.r_method r); [done|]. unfold blen. simpl. lia.
Qed.

(** ** Properties *)

(** However the bytes of a stream of well-formed requests are fragmented, the
    message callbacks together send exactly the responses to these requests, in
    order ([/]: the page; [/chat]: a broadcast to every connection, then OK;
    other paths: nothing), half-close nothing, and leave an empty buffer and a
    fresh parser. *)
Theorem requests_answered (rs : list HttpParser.request) (conn : Conn)
    (frags : list (bytes * TimerId)) (s : t) (b : Buffer.t) :
  Forall HttpParser.valid_request rs ->
  concat (map fst frags) = stream rs ->
  Buffer.wf b ->
  Buffer.contents b = [] ->
  Buffer.size b + blen (stream rs) <= Buffer.max_size ->
  parser_of s conn = HttpParser.make ->
  exists b' s' es, deliver conn frags b s = Ok (b', s', es) /\
    sent es = flat_map (answers (connections_ s) conn) (map request_of rs) /\
    shut es = [] /\ Buffer.contents b' = [] /\ parser_of s' conn = HttpParser.make.
Proof.
  intros Hv Hc Hb He Hsz Hp. destruct (parseRequests_stream rs Hv) as [n Hn].
  destruct (decide (frags = [])) as [->|Hne].
  - exists b, s, []. destruct rs as [|r rs]; [by split_and!|].
    apply Forall_cons in Hv as [Hr _]. cbn [map concat] in Hc. unfold stream in Hc.
    cbn [map concat] in Hc. symmetry in Hc. apply app_eq_nil in Hc as [Hc _].
    by apply render_nonempty in Hc.
  - assert (wp (deliver conn frags b) s (fun b' s' es =>
      parser_of s' conn = HttpParser.make /\ Buffer.contents b' = [] /\
      sent es = flat_map (answers (connections_ s) conn) (map request_of rs) /\ shut es = [])) as Hw.
    { apply (deliver_spec _ _ _ _ HttpParser.make n); [done | apply between_make | done | | | done].
      - by rewrite Hc.
      - by rewrite He, Hc. }
    apply wp_elim in Hw as (b' & s' & es & ? & ? & ? & ? & ?). exists b', s', es. by split_and!.
Qed.


(** A client that reads by [Content-Length] gets exactly the content back, the
    headers, and the bytes of the next response untouched. *)
Theorem response_framed (contentType content rest : bytes) :
  HttpParser.valid_value contentType ->
  blen content <= SIZE_MAX ->
  HttpReader.read_response (http_response contentType content ++ rest) =
    Some (str "HTTP/1.1 200 OK",
          HttpParser.header_map (response_headers contentType content) ∅, content, rest).
Proof.
  intros Hct Hl. pose proof (blen_nonneg content).
  rewrite http_response_headers, <- !app_assoc. apply HttpReader.read_rendered. split.
  - done.
  - unfold response_headers. rewrite !Forall_cons, Forall_nil. cbn [fst snd].
    split_and!; try done. apply HttpReader.to_string_value. lia.
  - by apply (bool_decide_unpack _).
  - done.
  - eexists. split; [reflexivity|]. apply HttpReader.parse_to_string. lia.
Qed.


(** An idle connection is closed: in every reachable world, the idle timer of a
    connected connection, when it fires, shuts the connection down and arms its
    force-close timer, and that one, when it fires, calls [forceClose]. *)
Theorem idle_connection_closed (evs : list event) (w : world) (c : Conn) :
  run_enabled evs world0 ->
  run evs world0 = Ok w ->
  states w !! c = Some TcpConnection.kConnected ->
  exists i, armed w !! (loopOf c, i) = Some (c, IdleTimeout) /\
    forall j, exists w1, step (WFire (loopOf c) i j) w = Ok w1 /\
      states w1 !! c = Some TcpConnection.kDisconnecting /\
      armed w1 !! (loopOf c, j) = Some (c, ForceCloseTimeout) /\
      forall j', exists w2, step (WFire (loopOf c) j j') w1 = Ok w2 /\ c ∈ closing w2.
Proof.
  intros Hrun E Hst. destruct (world_run_inv evs world0 inv_world0 Hrun) as (w' & E' & Hw).
  rewrite E in E'. injection E' as <-.
  destruct (i_connected _ _ (Hw c) Hst) as (i & Hi & Htm & Ha). exists i. split; [done|].
  intros j. destruct (fire_idle w c i j _ Ha Hst Htm) as (w1 & E1 & Hst1 & Ha1 & Htm1).
  exists w1. split_and!; try done. intros j'. by eapply fire_force.
Qed.

End server.

(** ** Witnesses *)

Definition test_peer (c : Conn) : bytes := str "127.0.0.1:5000" ++ Digits.to_string c.

Definition get_page : HttpParser.request :=
  HttpParser.Request (str "GET") (str "/") (str "HTTP/1.1") [(str "Host", str "localhost")] [].

Lemma get_page_valid : HttpParser.valid_request get_page.
Proof.
  split; try (vm_compute; done).
  - by apply elem_of_cons; right; apply elem_of_cons; left.
  - by repeat constructor.
  - by apply (bool_decide_unpack _).
Qed.

(** Two users; one asks for the page and says hello, in three fragments. *)
Definition two_users : t :=
  mk {[1; 2]} {[1 := Timers 1 0; 2 := Timers 2 0]}
     {[1 := HttpParser.make; 2 := HttpParser.make]}.

Definition two_requests : list HttpParser.request := [get_page; HttpParser.post_chat].

Definition fragments : list (bytes * TimerId) :=
  [(take 20 (stream two_requests), 3); (take 60 (drop 20 (stream two_requests)), 4);
   (drop 80 (stream two_requests), 5)].

Lemma requests_answered_witness :
  exists b' s' es, deliver test_peer 1 fragments (HttpParser.test_buffer []) two_users = Ok (b', s', es) /\
    sent es = flat_map (answers test_peer (connections_ two_users) 1) (map request_of two_requests) /\
    shut es = [] /\ Buffer.contents b' = [] /\ parser_of s' 1 = HttpParser.make.
Proof.
  apply (requests_answered test_peer two_requests 1 fragments two_users (HttpParser.test_buffer [])).
  - apply Forall_cons. split; [apply get_page_valid|]. apply Forall_singleton, HttpParser.post_chat_valid.
  - vm_compute. reflexivity.
  - by apply HttpParser.test_buffer_spec.
  - vm_compute. reflexivity.
  - zclosed.
  - vm_compute. reflexivity.
Defined.


Lemma response_framed_witness :
  HttpReader.read_response (http_response (str "text/plain") (str "OK") ++ str "HTTP/1.1 400") =
    Some (str "HTTP/1.1 200 OK",
          HttpParser.header_map (response_headers (str "text/plain") (str "OK")) ∅,
          str "OK", str "HTTP/1.1 400").
Proof. apply (response_framed (str "text/plain") (str "OK")); [by vm_compute | zclosed]. Defined.

(** Two connections come up on one loop; one sends a request, times out and is
    forced to close, and goes down. *)
Definition chat_run : list event :=
  [WEstablished 1 1; WEstablished 2 2;
   WMessage 1 (HttpParser.test_buffer (stream [get_page])) 3; WFire 0 3 4; WFire 0 4 5; WClosed 1 6].

Definition test_loop (c : Conn) : Z := 0.

(** Checks that an event is enabled, by evaluation. *)
Ltac enabled :=
  cbn [enabled];
  lazymatch goal with
  | |- exists c k, _ => do 2 eexists
  | _ => idtac
  end;
  unfold fresh, up; split_and?;
  first [ by apply HttpParser.test_buffer_spec | vm_compute; reflexivity | discriminate
        | by left; vm_compute | by right; vm_compute ].

Lemma chat_run_enabled : run_enabled test_peer test_loop chat_run world0.
Proof.
  unfold chat_run.
  repeat (cbn [run_enabled]; split;
    [enabled | match goal with |- match ?m with Ok _ => _ | Fault _ => _ end =>
       let r := eval vm_compute in m in change m with r; cbv iota end]).
  exact I.
Qed.


Definition short_run : list event := [WEstablished 1 1].

Lemma idle_connection_closed_witness :
  exists w i, run test_peer test_loop short_run world0 = Ok w /\
    armed w !! (test_loop 1, i) = Some (1, IdleTimeout) /\
    forall j, exists w1, step test_peer test_loop (WFire (test_loop 1) i j) w = Ok w1 /\
      states w1 !! 1 = Some TcpConnection.kDisconnecting /\
      armed w1 !! (test_loop 1, j) = Some (1, ForceCloseTimeout) /\
      forall j', exists w2,
        step test_peer test_loop (WFire (test_loop 1) j j') w1 = Ok w2 /\ 1 ∈ closing w2.
Proof.
  assert (Hrun : run_enabled test_peer test_loop short_run world0).
  { split; [enabled|]. exact I. }
  destruct (world_run_inv test_peer test_loop short_run world0 (inv_world0 test_peer test_loop) Hrun) as (w & E & _).
  destruct (idle_connection_closed test_peer test_loop short_run w 1) as (i & H); [exact Hrun | exact E | |].
  { vm_compute in E. injection E as <-. vm_compute. reflexivity. }
  exists w, i. split; [exact E | exact H].
Defined.

(** ** What the model shows besides *)

(** A connection whose request was refused is half-closed, so that its idle timer,
    when it fires, does nothing: it arms no force-close timer, and only the peer
    ends the connection. *)
Example refused_connection_not_forced :
  exists w, run test_peer test_loop
      [WEstablished 1 1; WMessage 1 (HttpParser.test_buffer HttpParser.bad_request) 2; WFire 0 2 3]
      world0 = Ok w /\
    states w !! 1 = Some TcpConnection.kDisconnecting /\ armed w = ∅ /\ closing w = ∅.
Proof. eexists. split; [vm_compute; reflexivity | by split_and!]. Qed.

(** The user who posts a message is among those it is broadcast to: the bytes sent
    on that connection start with the broadcast, which is not an HTTP response. *)
Example poster_reads_broadcast_first :
  map (fun m => m.2)
    (filter (fun m => m.1 = 1) (answers test_peer {[1; 2]} 1 (str "/chat", str "hello"))) =
  [str "Broadcast: [127.0.0.1:50001]: hello" ++ Buffer.kCRLF;
   http_response (str "text/plain") (str "OK")].
Proof. vm_compute. reflexivity. Qed.

End WebChat.
