(* ===== verification/IdleTimers.v ===== *)
(** * IdleTimers: the timeouts of the chat server on the timer queues of its loops

    WebChat takes the identifiers that [runAfter] returns as arguments, and supposes
    that they are new and that a timer fires once.  Here the handlers of src/main.cpp
    run on the real queues: each loop has its TimerQueue and the functions its timers
    hold; [runAfter] and [cancel] are those of EventLoop, and [TimerQueue::handleRead]
    runs the handlers in place, one expired timer at a time, between its first loop
    ([Expire]) and its last one ([Finish]).  The runs are runs of [WebChat.world]
    ([timers_implemented]), and the two timeouts of 15 seconds are neither early nor
    late ([timeouts_on_time]).  The clock and the addresses of new timers are
    arguments; [touched] and [idled] record when a connection came up or last spoke,
    and when its idle timeout ran. *)

From stdpp Require Import fin_maps fin_map_dom.
From S2P Require Import Prelude Buffer InputQueue HttpParser Digits TcpConnection Duration TimerQueue EventLoop WebChat.

Module IdleTimers.

#[local] Existing Instance TcpConnection.StateE_eq_dec.

Abbreviation Conn := Z (only parsing).

(** [handleRead] under way: the clock it read, and its vector [expired], split into
    the timers that were called (or skipped) and those that were not yet. *)
Record reading := Reading {
  readAt : Z;
  called : list Z;
  todo : list Z;
}.

(** A loop: its timers, what their callbacks are (by the address of the timer). *)
Record loop := Loop {
  timers : TimerQueue.t;
  callbacks : gmap Z (Conn * WebChat.timeout);
  inRead : option reading;
}.

Definition idle_loop : loop := Loop TimerQueue.make ∅ None.

Record t := mk {
  chat : WebChat.t;
  states : gmap Conn TcpConnection.StateE;
  closing : gset Conn;                     (** those [forceClose] was called on *)
  loops : gmap Z loop;
  touched : gmap Conn Z;
  idled : gmap Conn Z;
}.

Definition init : t := mk WebChat.make ∅ ∅ ∅ ∅ ∅.

Definition loop_at (l : Z) (s : t) : loop := default idle_loop (loops s !! l).

Definition set_chat (c : WebChat.t) (s : t) : t :=
  mk c (states s) (closing s) (loops s) (touched s) (idled s).
Definition set_states (m : gmap Conn TcpConnection.StateE) (s : t) : t :=
  mk (chat s) m (closing s) (loops s) (touched s) (idled s).
Definition set_closing (m : gset Conn) (s : t) : t :=
  mk (chat s) (states s) m (loops s) (touched s) (idled s).
Definition set_loop (l : Z) (lp : loop) (s : t) : t :=
  mk (chat s) (states s) (closing s) (<[l := lp]> (loops s)) (touched s) (idled s).
Definition set_touched (m : gmap Conn Z) (s : t) : t :=
  mk (chat s) (states s) (closing s) (loops s) m (idled s).
Definition set_idled (m : gmap Conn Z) (s : t) : t :=
  mk (chat s) (states s) (closing s) (loops s) (touched s) m.

Section server.
Variable peer : Conn -> bytes.
Variable loopOf : Conn -> Z.

(** The identifier the next [runAfter] on the loop of [c] returns. *)
Definition nextId (c : Conn) (s : t) : Z :=
  TimerQueue.nextTimerId_ (timers (loop_at (loopOf c) s)).

(** [runAfter] on the loop [lp]; [inLoop]: called on its thread. *)
Definition run_after (inLoop : bool) (p : Z) (delay : Z) (callback : Conn * WebChat.timeout) (now : Z)
    (lp : loop) : outcome (Z * loop) :=
  let! (r, q, _) := EventLoop.runAfter inLoop true p (Duration.of_int64 delay) now (timers lp) in
  Ok (r, Loop q (<[p := callback]> (callbacks lp)) (inRead lp)).

Definition cancel (inLoop : bool) (i : Z) (lp : loop) : outcome loop :=
  let! (_, q, _) := EventLoop.cancel inLoop i (timers lp) in
  Ok (Loop q (callbacks lp) (inRead lp)).

(** What a handler does on the loop [l]; the timer it makes is at [p], and the clock
    shows [now] then.  The handler was run with the identifier that [runAfter]
    returns. *)
Definition perform (l p now : Z) (e : WebChat.effect) (s : t) : outcome t :=
  match e with
  | WebChat.ERunAfter c delay k i =>
      let! (r, lp) :=
        run_after (bool_decide (loopOf c = l)) p delay (c, k) now (loop_at (loopOf c) s) in
      require (r =? i) AssertFailure (Ok (set_loop (loopOf c) lp s))
  | WebChat.ECancel c i =>
      let! lp := cancel (bool_decide (loopOf c = l)) i (loop_at (loopOf c) s) in
      Ok (set_loop (loopOf c) lp s)
  | WebChat.EShutdown c => Ok (set_states (alter WebChat.shutdown_state c (states s)) s)
  | WebChat.EForceClose c =>
      Ok (set_closing ({[c]} ∪ closing s)
            (set_states (alter WebChat.forceClose_state c (states s)) s))
  | WebChat.ESend _ _ | WebChat.ELog _ => Ok s
  end.

Definition handle {A} (l p now : Z) (m : WebChat.M A) (s : t) : outcome t :=
  let! (_, c, es) := m (chat s) in ofold (perform l p now) es (set_chat c s).

(** The function that a timer was made with. *)
Definition timeout_handler (c : Conn) (k : WebChat.timeout) (st : TcpConnection.StateE) (timerId : Z)
    : WebChat.M unit :=
  match k with
  | WebChat.IdleTimeout => WebChat.handleIdleTimeout peer c st timerId
  | WebChat.ForceCloseTimeout => WebChat.handleForceCloseTimeout peer c st
  end.

(** A connection comes up, goes down, receives bytes; [TimerQueue::handleRead] takes
    the expired timers of a loop, deals with the next one, and puts back what
    repeats. *)
Inductive event :=
| Established (c : Conn) (p now : Z)
| Closed (c : Conn) (p now : Z)
| Message (c : Conn) (b : Buffer.t) (p now : Z)
| Expire (l now : Z)
| Call (l p now : Z)
| Finish (l : Z) (restartTime : Z -> Z).

Definition state_of (c : Conn) (s : t) : TcpConnection.StateE :=
  default TcpConnection.kConnecting (states s !! c).

(** The connection speaks: while it is connected, its idle period starts again. *)
Definition touch (c : Conn) (now : Z) (s : t) : t :=
  if WebChat.connected (state_of c s) then set_touched (<[c := now]> (touched s)) s else s.

(** The timeout [k] of [c] runs. *)
Definition note_timeout (c : Conn) (k : WebChat.timeout) (now : Z) (s : t) : t :=
  match k with
  | WebChat.IdleTimeout =>
      if WebChat.connected (state_of c s) then set_idled (<[c := now]> (idled s)) s else s
  | WebChat.ForceCloseTimeout => s
  end.

(** [handleRead] up to its first loop. *)
Definition begin_read (now : Z) (lp : loop) : loop :=
  let q := timers lp in
  let dues := TimerQueue.due now (TimerQueue.timers_ q) in
  Loop (TimerQueue.set_timers (drop (length dues) (TimerQueue.timers_ q)) q) (callbacks lp)
    (Some (Reading now [] (map snd dues))).

(** The next timer of the vector, and the loop once it is dealt with. *)
Definition next_call (lp : loop) : option (Z * loop) :=
  match inRead lp with
  | Some (Reading now called (x :: todo)) =>
      Some (x, Loop (timers lp) (callbacks lp) (Some (Reading now (called ++ [x]) todo)))
  | _ => None
  end.

(** [handleRead] from its second loop on. *)
Definition end_timers (restartTime : Z -> Z) (expired : list Z) : TimerQueue.M unit :=
  TimerQueue.restartExpired restartTime expired ;;;
  let* c := st_get in
  st_when (negb (bool_decide (TimerQueue.timers_ c = [])))
    (TimerQueue.resetTimerfd (TimerQueue.earliest (TimerQueue.timers_ c))).

Definition step (e : event) (s : t) : outcome t :=
  match e with
  | Established c p now =>
      let s := touch c now (set_states (<[c := TcpConnection.kConnected]> (states s)) s) in
      handle (loopOf c) p now (WebChat.onConnection peer c TcpConnection.kConnected (nextId c s)) s
  | Closed c p now =>
      let s := set_states (<[c := TcpConnection.kDisconnected]> (states s)) s in
      handle (loopOf c) p now (WebChat.onConnection peer c TcpConnection.kDisconnected (nextId c s)) s
  | Message c b p now =>
      let s := touch c now s in
      handle (loopOf c) p now (WebChat.onMessage peer c b (state_of c s) (nextId c s)) s
  | Expire l now => Ok (set_loop l (begin_read now (loop_at l s)) s)
  | Call l p now =>
      match next_call (loop_at l s) with
      | None => Ok s
      | Some (x, lp) =>
          let s := set_loop l lp s in
          let! (tm, _, _) := TimerQueue.deref x (timers lp) in
          if TimerQueue.canceled tm then Ok s else
          match callbacks lp !! x with
          | None => Fault BadFunctionCall
          | Some (c, k) =>
              let st := state_of c s in
              handle l p now (timeout_handler c k st (nextId c s)) (note_timeout c k now s)
          end
      end
  | Finish l restartTime =>
      let lp := loop_at l s in
      match inRead lp with
      | Some (Reading _ called []) =>
          let! (_, q, _) := end_timers restartTime called (timers lp) in
          Ok (set_loop l (Loop q (callbacks lp) None) s)
      | _ => Ok s
      end
  end.

Fixpoint run (evs : list event) (s : t) : outcome t :=
  match evs with
  | [] => Ok s
  | e :: evs => let! s := step e s in run evs s
  end.

(** ** What may happen

    The clock is positive and below its largest value, and does not go back while
    [handleRead] runs; identifiers do not run out; a new timer is at a fresh
    address.  A connection is established once, and receives bytes and goes down
    while it is up. *)

Definition clock_ok (now : Z) : Prop := 0 < now < INT64_MAX.

Definition timer_ok (l p now : Z) (s : t) : Prop :=
  let lp := loop_at l s in
  TimerQueue.heap (timers lp) !! p = None /\
  TimerQueue.nextTimerId_ (timers lp) < SIZE_MAX /\
  clock_ok now /\
  match inRead lp with Some r => readAt r <= now | None => True end.

Definition up (c : Conn) (s : t) : Prop :=
  states s !! c = Some TcpConnection.kConnected \/ states s !! c = Some TcpConnection.kDisconnecting.

Definition event_ok (e : event) (s : t) : Prop :=
  match e with
  | Established c p now => states s !! c = None /\ timer_ok (loopOf c) p now s
  | Closed c p now => up c s /\ timer_ok (loopOf c) p now s
  | Message c b p now => up c s /\ Buffer.wf b /\ timer_ok (loopOf c) p now s
  | Expire l now => inRead (loop_at l s) = None /\ clock_ok now
  | Call l p now => is_Some (next_call (loop_at l s)) /\ timer_ok l p now s
  | Finish l restartTime =>
      (exists now called, inRead (loop_at l s) = Some (Reading now called [])) /\
      forall p, clock_ok (restartTime p)
  end.

Fixpoint run_ok (evs : list event) (s : t) : Prop :=
  match evs with
  | [] => True
  | e :: evs => event_ok e s /\ match step e s with Ok s => run_ok evs s | Fault _ => True end
  end.

(** When a period that started at [at_] ends: 15 seconds later, in microseconds. *)
Definition deadline (at_ : Z) : Z :=
  Z.min INT64_MAX (at_ + WebChat.kTimeout * TimerQueue.kMicrosecondsPerSecond).

(** When the period that the timeout [k] of [c] watches started. *)
Definition period (s : t) (c : Conn) (k : WebChat.timeout) : option Z :=
  match k with
  | WebChat.IdleTimeout => touched s !! c
  | WebChat.ForceCloseTimeout => idled s !! c
  end.

(** The callback that the identifier [i] of a loop stands for, while it is going to
    be called; and when it expires. *)
Definition live (lp : loop) (i : Z) : option (Conn * WebChat.timeout) :=
  p ← TimerQueue.activeTimers_ (timers lp) !! i;
  if decide (p ∈ from_option called [] (inRead lp)) then None else callbacks lp !! p.

Definition expiry (lp : loop) (i : Z) : option Z :=
  p ← TimerQueue.activeTimers_ (timers lp) !! i;
  TimerQueue.expiration <$> TimerQueue.heap (timers lp) !! p.

(** The events of [WebChat.world] that an event is. *)
Definition world_events (e : event) (s : t) : list WebChat.event :=
  match e with
  | Established c _ _ => [WebChat.WEstablished c (nextId c s)]
  | Closed c _ _ => [WebChat.WClosed c (nextId c s)]
  | Message c b _ _ => [WebChat.WMessage c b (nextId c s)]
  | Call l _ _ =>
      match next_call (loop_at l s) with
      | None => []
      | Some (x, _) =>
          match TimerQueue.heap (timers (loop_at l s)) !! x with
          | Some tm =>
              if TimerQueue.canceled tm then []
              else [WebChat.WFire l (TimerQueue.id tm) (TimerQueue.nextTimerId_ (timers (loop_at l s)))]
          | None => []
          end
      end
  | Expire _ _ | Finish _ _ => []
  end.

End server.

(** ** Lemmas: one loop *)

(** The timers out of [timers_] while [handleRead] runs. *)
Definition expired (lp : loop) : list Z :=
  match inRead lp with Some r => called r ++ todo r | None => [] end.

(** A loop between two events: its queue is well formed, its timers have a callback
    and do not repeat, the kernel's timer is set unless [handleRead] runs, and then
    what is left in [timers_] expires later than the clock it read. *)
Record loop_ok (lp : loop) : Prop := {
  lo_wf : TimerQueue.wf (expired lp) (timers lp);
  lo_nodup : NoDup (expired lp);
  lo_armed : inRead lp = None -> TimerQueue.armed (timers lp);
  lo_once p tm : TimerQueue.heap (timers lp) !! p = Some tm ->
    TimerQueue.repeating tm = false /\ is_Some (callbacks lp !! p);
  lo_later r e p : inRead lp = Some r -> In (e, p) (TimerQueue.timers_ (timers lp)) -> readAt r < e;
  lo_due r p tm : inRead lp = Some r -> In p (todo r) ->
    TimerQueue.heap (timers lp) !! p = Some tm -> TimerQueue.expiration tm <= readAt r;
  lo_read r : inRead lp = Some r -> clock_ok (readAt r);
}.

Lemma idle_loop_ok : loop_ok idle_loop.
Proof.
  destruct TimerQueue.timers_make_wf. split; try done. constructor.
Qed.

(** A live identifier: its timer, what it calls and when. *)
Lemma live_timer lp i v :
  loop_ok lp -> live lp i = Some v ->
  exists p tm, TimerQueue.activeTimers_ (timers lp) !! i = Some p /\
    TimerQueue.heap (timers lp) !! p = Some tm /\ TimerQueue.id tm = i /\
    callbacks lp !! p = Some v /\ expiry lp i = Some (TimerQueue.expiration tm) /\
    1 <= i < TimerQueue.nextTimerId_ (timers lp) /\
    (In (TimerQueue.expiration tm, p) (TimerQueue.timers_ (timers lp)) \/
     exists r, inRead lp = Some r /\ In p (todo r)).
Proof.
  intros Hlp. unfold live, expiry. intros (p & Hi & Hp)%bind_Some.
  destruct (TimerQueue.w_active _ _ (lo_wf _ Hlp) _ _ Hi) as (tm & Ht & Hid & _ & Hor).
  pose proof (TimerQueue.w_id _ _ (lo_wf _ Hlp) _ _ Ht). case_decide as Hn; [done|].
  exists p, tm. rewrite Hi. cbn. rewrite Ht. split_and!; try done; try lia.
  destruct Hor as [?|Hin]; [by left|right]. unfold expired in Hin.
  destruct (inRead lp) as [r|]; [|done]. exists r. split; [done|].
  apply in_app_iff in Hin as [Hin|Hin]; [|done]. destruct Hn. by apply list_elem_of_In.
Qed.

Lemma deadline_range now : clock_ok now -> now < deadline now <= INT64_MAX.
Proof.
  unfold clock_ok, deadline, WebChat.kTimeout, TimerQueue.kMicrosecondsPerSecond,
    Duration.kMicrosecondsPerSecond. lia.
Qed.

Lemma timer_clock now : clock_ok now -> TimerQueue.clock_ok now.
Proof. unfold clock_ok, TimerQueue.clock_ok. lia. Qed.

Lemma timeout_us : Duration.secondsToMicroseconds (Duration.of_int64 WebChat.kTimeout) = Ok 15000000.
Proof. vm_compute. reflexivity. Qed.

Lemma expire_deadline now : TimerQueue.expire_at now 15000000 = deadline now.
Proof.
  unfold TimerQueue.expire_at, deadline, WebChat.kTimeout, TimerQueue.kMicrosecondsPerSecond,
    Duration.kMicrosecondsPerSecond. destruct (_ <? _) eqn:Eb; zbool; lia.
Qed.

(** The queue after [runAfter] of a timeout. *)
Lemma run_after_queue pend q p now :
  TimerQueue.wf pend q -> TimerQueue.heap q !! p = None ->
  TimerQueue.nextTimerId_ q < SIZE_MAX -> clock_ok now ->
  let i := TimerQueue.nextTimerId_ q in
  exists v, let q' := TimerQueue.set_timerfd v (TimerQueue.scheduled (deadline now) p
      (TimerQueue.Timer i 0 0 false false) (TimerQueue.allocated p 0 false q)) in
    EventLoop.runAfter true true p (Duration.of_int64 WebChat.kTimeout) now q = Ok (i, q', []) /\
    TimerQueue.wf pend q' /\ (TimerQueue.armed q -> TimerQueue.armed q').
Proof.
  intros Hwf Hp Hn Hnow i.
  assert (Hok : TimerQueue.add_ok q p (Duration.of_int64 WebChat.kTimeout) Duration.zero now).
  { unfold TimerQueue.add_ok. split_and!; try done; by apply timer_clock. }
  destruct (wp_elim _ _ _ (TimerQueue.addTimer_spec pend true true p _ _ now _ Hwf Hok))
    as (r & q' & es & E & -> & Hwf' & Harm & _ & Hc).
  change (TimerQueue.rejected _ _ _) with false in Hc. cbv iota in Hc.
  destruct Hc as (-> & us & iv & tm & Hus & Hiv & Etm & v & Hq).
  rewrite timeout_us in Hus. injection Hus as <-.
  assert (iv = 0) as -> by (by injection Hiv).
  change (Duration.ltb Duration.zero Duration.zero) with false in Etm. subst tm.
  cbn [TimerQueue.repeating] in Hq. rewrite expire_deadline in Hq. subst q'.
  exists v. by split_and!.
Qed.

(** [runAfter] of the timeout, on the thread of the loop: a new identifier, whose
    timer expires at the deadline. *)
Lemma run_after_spec lp p v now :
  loop_ok lp -> TimerQueue.heap (timers lp) !! p = None ->
  TimerQueue.nextTimerId_ (timers lp) < SIZE_MAX -> clock_ok now ->
  match inRead lp with Some r => readAt r <= now | None => True end ->
  let i := TimerQueue.nextTimerId_ (timers lp) in
  exists lp', run_after true p WebChat.kTimeout v now lp = Ok (i, lp') /\ loop_ok lp' /\
    inRead lp' = inRead lp /\ TimerQueue.nextTimerId_ (timers lp') = i + 1 /\
    (forall j, live lp' j = if decide (j = i) then Some v else live lp j) /\
    (forall j, expiry lp' j = if decide (j = i) then Some (deadline now) else expiry lp j).
Proof.
  intros Hlp Hp Hn Hnow Hr i.
  destruct (run_after_queue _ _ p now (lo_wf _ Hlp) Hp Hn Hnow) as (v' & E & Hwf & Harm).
  pose proof (deadline_range now Hnow) as Hd.
  destruct (TimerQueue.fresh_nowhere _ _ _ (lo_wf _ Hlp) Hp) as (F1 & F2 & F3 & F4).
  unfold run_after. rewrite E. eexists. split; [done|]. fold i in Hwf, Harm |- *.
  unfold TimerQueue.scheduled, TimerQueue.allocated in *.
  split_and!; [split | done | by apply (TimerQueue.next_small _ _ (lo_wf _ Hlp)) | |];
    unfold expired, live, expiry in *;
    cbn [timers callbacks inRead TimerQueue.timers_ TimerQueue.heap TimerQueue.activeTimers_
         TimerQueue.set_timerfd TimerQueue.set_active TimerQueue.set_timers TimerQueue.set_heap
         TimerQueue.set_next TimerQueue.id TimerQueue.set_expiration] in *.
  - done.
  - apply Hlp.
  - intros Hrd. by apply Harm, (lo_armed _ Hlp).
  - intros q tm. destruct (decide (q = p)) as [->|Hne].
    + rewrite !lookup_insert_eq. intros [= <-]. eauto.
    + rewrite !lookup_insert_ne by done. apply (lo_once _ Hlp).
  - intros r e q Hrd [[= -> ->]|Hin]%TimerQueue.set_emplace_In; [|by eapply (lo_later _ Hlp)].
    rewrite Hrd in Hr. lia.
  - intros r q tm Hrd Hin. destruct (decide (q = p)) as [->|Hne].
    + destruct F4. rewrite Hrd. apply in_app_iff. by right.
    + rewrite !lookup_insert_ne by done. by apply (lo_due _ Hlp).
  - apply (lo_read _ Hlp).
  - intros j. case_decide as Hj.
    + subst j. rewrite lookup_insert_eq. cbn. rewrite decide_False; [by rewrite lookup_insert_eq|].
      intros Hin. apply F4. destruct (inRead lp) as [r|]; [|by apply elem_of_nil in Hin].
      apply in_app_iff. left. by apply list_elem_of_In.
    + rewrite lookup_insert_ne by done.
      destruct (TimerQueue.activeTimers_ (timers lp) !! j) as [q|] eqn:Ej; cbn; [|done].
      case_decide; [done|]. rewrite lookup_insert_ne; [done|]. intros ->. by destruct (F2 j).
  - intros j. case_decide as Hj.
    + subst j. rewrite lookup_insert_eq. cbn. by rewrite lookup_insert_eq.
    + rewrite lookup_insert_ne by done.
      destruct (TimerQueue.activeTimers_ (timers lp) !! j) as [q|] eqn:Ej; cbn; [|done].
      rewrite !lookup_insert_ne; [done|..]; intros ->; by destruct (F2 j).
Qed.

(** [cancel], on the thread of the loop: the identifier is no longer live. *)
Lemma cancel_live lp i :
  loop_ok lp ->
  exists lp', cancel true i lp = Ok lp' /\ loop_ok lp' /\ inRead lp' = inRead lp /\
    TimerQueue.nextTimerId_ (timers lp') = TimerQueue.nextTimerId_ (timers lp) /\
    (forall p, TimerQueue.heap (timers lp) !! p = None -> TimerQueue.heap (timers lp') !! p = None) /\
    (forall j, live lp' j = if decide (j = i) then None else live lp j) /\
    (forall j, j <> i -> expiry lp' j = expiry lp j).
Proof.
  intros Hlp. unfold cancel, EventLoop.cancel, TimerQueue.cancel.
  assert (Hsame : TimerQueue.activeTimers_ (timers lp) !! i = None ->
    forall j, live lp j = if decide (j = i) then None else live lp j).
  { intros Hi j. case_decide as Hj; [|done]. subst. unfold live. by rewrite Hi. }
  destruct (i =? 0) eqn:Ei.
  { apply Z.eqb_eq in Ei as ->. exists lp. cbn. split_and!; try done; [by destruct lp|].
    apply Hsame. destruct (TimerQueue.activeTimers_ (timers lp) !! 0) as [p|] eqn:E; [|done].
    destruct (TimerQueue.w_active _ _ (lo_wf _ Hlp) _ _ E) as (tm & Ht & Hid & _).
    pose proof (TimerQueue.w_id _ _ (lo_wf _ Hlp) _ _ Ht). lia. }
  cbn [TimerQueue.runInLoop].
  destruct (wp_elim _ _ _ (TimerQueue.cancelInLoop_spec (expired lp) i _ (lo_wf _ Hlp)))
    as ([] & q & es & E & -> & Hwf & Harm & Hc). rewrite E. cbn [obind].
  eexists. split; [done|].
  destruct (TimerQueue.activeTimers_ (timers lp) !! i) as [p|] eqn:Hi.
  2: { subst q. split_and!; try done; [by destruct lp | by apply Hsame]. }
  destruct Hc as (tm & v & Hp & ->).
  destruct (TimerQueue.w_active _ _ (lo_wf _ Hlp) _ _ Hi) as (tm' & Ht & Hid & _).
  rewrite Hp in Ht. injection Ht as <-.
  assert (Hoth : forall j q, TimerQueue.activeTimers_ (timers lp) !! j = Some q -> j <> i -> q <> p).
  { intros j q Hj Hne ->. destruct (TimerQueue.w_active _ _ (lo_wf _ Hlp) _ _ Hj) as (t' & ? & ? & _).
    congruence. }
  unfold TimerQueue.unscheduled in *.
  split_and!; [split | done | done | | |]; unfold expired, live, expiry in *;
    cbn [timers callbacks inRead TimerQueue.timers_ TimerQueue.heap TimerQueue.activeTimers_
         TimerQueue.set_timerfd TimerQueue.set_active TimerQueue.set_timers TimerQueue.set_heap] in *.
  - done.
  - apply Hlp.
  - intros Hrd. by apply Harm, (lo_armed _ Hlp).
  - intros q tq [[<- <-]|[_ Hq]]%lookup_insert_Some; [|by apply (lo_once _ Hlp)].
    exact (lo_once _ Hlp p tm Hp).
  - intros r e q Hrd [_ Hin]%TimerQueue.set_erase_In. by eapply (lo_later _ Hlp).
  - intros r q tq Hrd Hin [[<- <-]|[_ Hq]]%lookup_insert_Some; [|by apply (lo_due _ Hlp r q)].
    exact (lo_due _ Hlp r p tm Hrd Hin Hp).
  - apply (lo_read _ Hlp).
  - intros q Hq. rewrite lookup_insert_ne; [done|congruence].
  - intros j. case_decide as Hj; [subst; by rewrite lookup_delete_eq | by rewrite lookup_delete_ne].
  - intros j Hj. rewrite lookup_delete_ne by done.
    destruct (TimerQueue.activeTimers_ (timers lp) !! j) as [q|] eqn:Ej; cbn; [|done].
    rewrite lookup_insert_ne; [done|]. by eapply not_eq_sym, Hoth.
Qed.

(** [handleRead] starts: the same identifiers are live. *)
Lemma begin_read_ok lp now :
  loop_ok lp -> inRead lp = None -> clock_ok now ->
  loop_ok (begin_read now lp) /\ (forall i, live (begin_read now lp) i = live lp i) /\
  (forall i, expiry (begin_read now lp) i = expiry lp i).
Proof.
  intros Hlp Hrd Hnow. pose proof (lo_wf _ Hlp) as Hwf. unfold expired in Hwf. rewrite Hrd in Hwf.
  destruct (TimerQueue.take_due_wf now _ Hwf) as [Hwf' Hnd]. cbv zeta in Hwf'.
  split_and!; [|intros i; unfold live; by rewrite Hrd|done]. unfold begin_read. split; cbn [timers callbacks inRead expired called todo].
  - done.
  - done.
  - done.
  - apply (lo_once _ Hlp).
  - intros r e p [= <-] Hin. apply (TimerQueue.not_due_later now) in Hin; [done | apply Hwf].
  - intros r p tm [= <-]. cbn [todo readAt TimerQueue.heap TimerQueue.set_timers].
    intros ([e q] & <- & Hin)%in_map_iff Ht. cbn [snd] in Ht.
    pose proof (TimerQueue.due_now _ _ _ Hin) as He. cbn [fst] in He.
    destruct (TimerQueue.w_entry _ _ Hwf e q) as (_ & tm' & Ht' & <- & _).
    { rewrite <- (TimerQueue.due_split now (TimerQueue.timers_ (timers lp))). apply in_app_iff. by left. }
    by simplify_eq.
  - by intros r [= <-].
Qed.

(** [TimerQueue.handleRead] is these phases, whatever its callbacks do. *)
Lemma handleRead_phases now acts rt lp :
  TimerQueue.handleRead now acts rt (timers lp) =
  (let l := expired (begin_read now lp) in TimerQueue.callExpired acts l ;;; end_timers rt l)
    (timers (begin_read now lp)).
Proof.
  unfold TimerQueue.handleRead, end_timers, st_bind, st_get, st_modify. cbn.
  by repeat (case_match; simplify_eq/=).
Qed.

(** The next timer of [expired] is taken: it is no longer live, if it was. *)
Lemma next_call_ok lp x lp' :
  loop_ok lp -> next_call lp = Some (x, lp') ->
  loop_ok lp' /\ timers lp' = timers lp /\
  exists r tm, inRead lp = Some r /\ inRead lp' = Some (Reading (readAt r) (called r ++ [x]) (List.tl (todo r))) /\
    TimerQueue.heap (timers lp) !! x = Some tm /\ TimerQueue.expiration tm <= readAt r /\
    is_Some (callbacks lp !! x) /\
    (forall i, live lp' i = if decide (i = TimerQueue.id tm) then None else live lp i) /\
    (TimerQueue.canceled tm = true -> live lp (TimerQueue.id tm) = None) /\
    (TimerQueue.canceled tm = false -> live lp (TimerQueue.id tm) = callbacks lp !! x) /\
    (forall i, expiry lp' i = expiry lp i).
Proof.
  intros Hlp. unfold next_call.
  destruct (inRead lp) as [[now cs [|y todo]]|] eqn:Hrd; try done. intros [= -> <-].
  pose proof (lo_wf _ Hlp) as Hwf. pose proof (lo_nodup _ Hlp) as Hnd.
  unfold expired in Hwf, Hnd. rewrite Hrd in Hwf, Hnd. cbn [called IdleTimers.todo] in Hwf, Hnd.
  destruct (TimerQueue.w_pend _ _ Hwf x) as (tm & Ht & _ & _ & Ha); [apply in_app_iff; right; by left|].
  assert (Hx : x ∉ cs).
  { apply NoDup_app in Hnd as (_ & Hnd & _). intros Hin. apply (Hnd x Hin). by left. }
  assert (Hxi : forall i, TimerQueue.activeTimers_ (timers lp) !! i = Some x -> i = TimerQueue.id tm).
  { intros i Hi. destruct (TimerQueue.w_active _ _ Hwf _ _ Hi) as (t' & ? & ? & _). congruence. }
  split.
  { split; unfold expired; cbn [timers callbacks inRead called IdleTimers.todo]; rewrite <- ?app_assoc; try done.
    - apply (lo_once _ Hlp).
    - intros r e p [= <-]. exact (lo_later _ Hlp _ e p Hrd).
    - intros r p tq [= <-] Hin. apply (lo_due _ Hlp _ p tq Hrd). by right.
    - intros r [= <-]. exact (lo_read _ Hlp _ Hrd). }
  split; [done|]. eexists _, tm. split; [done|]. split; [done|]. cbn [readAt called IdleTimers.todo].
  split_and!; [done | | | | | | done].
  - apply (lo_due _ Hlp _ x tm Hrd); [by left | done].
  - exact (proj2 (lo_once _ Hlp x tm Ht)).
  - intros i. unfold live. rewrite Hrd. cbn [timers callbacks inRead from_option called].
    destruct (TimerQueue.activeTimers_ (timers lp) !! i) as [q|] eqn:Hi; cbn; [|by case_decide].
    rewrite (decide_ext (q ∈ cs ++ [x]) (q ∈ cs \/ q = x)) by set_solver.
    destruct (decide (i = TimerQueue.id tm)) as [->|Hne].
    + assert (q = x) as ->.
      { destruct (TimerQueue.w_active _ _ Hwf _ _ Hi) as (t' & ? & ? & _). by eapply (TimerQueue.w_inj _ _ Hwf). }
      rewrite decide_True; [done | by right].
    + assert (q <> x) by (intros ->; by apply Hne, Hxi).
      by rewrite (decide_ext _ (q ∈ cs)) by naive_solver.
  - intros Hc. rewrite Hc in Ha. unfold live. by rewrite Ha.
  - intros Hc. rewrite Hc in Ha. unfold live. rewrite Ha, Hrd. cbn. by rewrite decide_False.
Qed.

(** The second loop of [handleRead] forgets the expired timers: none repeats. *)
Lemma restart_once rt l c :
  TimerQueue.wf l c -> NoDup l ->
  (forall p tm, TimerQueue.heap c !! p = Some tm -> TimerQueue.repeating tm = false) ->
  exists a, TimerQueue.restartExpired rt l c = Ok (tt, TimerQueue.set_active a c, []) /\
    TimerQueue.wf [] (TimerQueue.set_active a c) /\
    forall i p, a !! i = Some p <-> TimerQueue.activeTimers_ c !! i = Some p /\ p ∉ l.
Proof.
  intros Hwf Hnd Hone. revert c Hwf Hone. induction l as [|p l IH]; intros c Hwf Hone.
  { exists (TimerQueue.activeTimers_ c). destruct c. split_and!; [done..|].
    intros i q. split; [intros ?; split; [done | apply not_elem_of_nil] | by intros [? _]]. }
  apply NoDup_cons in Hnd as [Hnp Hnd]. pose proof Hnp as Hnp'. rewrite list_elem_of_In in Hnp'.
  destruct (TimerQueue.w_pend _ _ Hwf p) as (tm & Hp & _ & _ & Ha); [by left|].
  assert (Hid : forall i, TimerQueue.activeTimers_ c !! i = Some p -> i = TimerQueue.id tm).
  { intros i Hi. destruct (TimerQueue.w_active _ _ Hwf _ _ Hi) as (t' & ? & ? & _). congruence. }
  set (a1 := if TimerQueue.canceled tm then TimerQueue.activeTimers_ c
             else delete (TimerQueue.id tm) (TimerQueue.activeTimers_ c)).
  assert (Hr : TimerQueue.restart (rt p) p c = Ok (tt, TimerQueue.set_active a1 c, [])).
  { unfold TimerQueue.restart, TimerQueue.deref, st_bind, st_get. rewrite Hp. cbn. rewrite Ha. cbn.
    subst a1. destruct (TimerQueue.canceled tm) eqn:Hc; [by destruct c|].
    by rewrite (Hone p tm Hp). }
  assert (Hw1 : TimerQueue.wf l (TimerQueue.set_active a1 c)).
  { subst a1. destruct (TimerQueue.canceled tm) eqn:Hc.
    - replace (TimerQueue.set_active _ c) with c by (by destruct c).
      by apply (TimerQueue.unpend_wf l p c tm).
    - by apply (TimerQueue.erase_active_wf l p c tm). }
  destruct (IH Hnd _ Hw1 Hone) as (a & E & Hw & Hin). exists a.
  cbn [TimerQueue.restartExpired]. unfold st_bind. rewrite Hr, E. split_and!; [done..|].
  intros i q. rewrite Hin. cbn [TimerQueue.activeTimers_ TimerQueue.set_active]. subst a1.
  rewrite not_elem_of_cons. destruct (TimerQueue.canceled tm) eqn:Hc.
  - split; [|tauto]. intros [Hi ?]. split_and!; try done. intros ->.
    pose proof (Hid _ Hi). congruence.
  - rewrite lookup_delete_Some. split; [|intros (Hi & ? & ?); split_and!; try done].
    + intros [[Hne Hi] ?]. split_and!; try done. intros ->. by destruct Hne; rewrite (Hid _ Hi).
    + intros E'. congruence.
Qed.

(** [handleRead] ends: what was live stays so, and the kernel's timer is set. *)
Lemma end_read_ok lp now cs rt :
  loop_ok lp -> inRead lp = Some (Reading now cs []) ->
  exists q, end_timers rt cs (timers lp) = Ok (tt, q, []) /\
    let lp' := Loop q (callbacks lp) None in
    loop_ok lp' /\ TimerQueue.nextTimerId_ q = TimerQueue.nextTimerId_ (timers lp) /\
    (forall i, live lp' i = live lp i) /\
    (forall i, is_Some (live lp i) -> expiry lp' i = expiry lp i).
Proof.
  intros Hlp Hrd. pose proof (lo_wf _ Hlp) as Hwf. pose proof (lo_nodup _ Hlp) as Hnd.
  unfold expired in *. rewrite Hrd in *. cbn [called todo] in *. rewrite app_nil_r in *.
  destruct (restart_once rt cs (timers lp) Hwf Hnd) as (a & E & Hw & Ha).
  { intros p tm Hp. by apply (lo_once _ Hlp p). }
  set (c1 := TimerQueue.set_active a (timers lp)) in *.
  assert (exists v, end_timers rt cs (timers lp) = Ok (tt, TimerQueue.set_timerfd v c1, []) /\
    TimerQueue.armed (TimerQueue.set_timerfd v c1)) as (v & Ev & Harm).
  { unfold end_timers, st_bind at 1. rewrite E. unfold st_bind, st_get.
    destruct (decide (TimerQueue.timers_ c1 = [])) as [En|En].
    - exists (TimerQueue.timerfd_ c1). rewrite bool_decide_eq_true_2 by done. cbn.
      split; [subst c1; by destruct (timers lp)|]. intros Hne. by destruct Hne.
    - rewrite bool_decide_eq_false_2 by done. cbn [negb st_when].
      destruct (wp_elim _ _ _ (TimerQueue.wp_resetTimerfd (TimerQueue.earliest (TimerQueue.timers_ c1)) c1
        (fun _ c2 es => c2 = TimerQueue.set_timerfd (TimerQueue.settime (TimerQueue.earliest (TimerQueue.timers_ c1))) c1 /\ es = [])
        (TimerQueue.earliest_pos _ _ Hw En) (conj eq_refl eq_refl))) as ([] & c2 & es & E2 & -> & ->).
      exists (TimerQueue.settime (TimerQueue.earliest (TimerQueue.timers_ c1))). rewrite E2. split; [done|]. exact (fun _ => eq_refl). }
  exists (TimerQueue.set_timerfd v c1). split; [done|]. cbv zeta.
  assert (Hlive : forall i, live (Loop (TimerQueue.set_timerfd v c1) (callbacks lp) None) i = live lp i).
  { intros i. unfold live. rewrite Hrd. cbn. apply option_eq. intros w. rewrite !bind_Some.
    split.
    - intros (p & [Hp Hnp]%Ha & Hcb). exists p. split; [done|]. rewrite decide_False in Hcb by (apply not_elem_of_nil).
      by rewrite decide_False.
    - intros (p & Hp & Hcb). case_decide; [done|]. exists p. split; [by apply Ha|].
      by rewrite decide_False by (apply not_elem_of_nil). }
  split_and!; [|done|exact Hlive|].
  - split; unfold expired; cbn [timers callbacks inRead]; try done.
    + by apply TimerQueue.set_timerfd_wf.
    + constructor.
    + apply (lo_once _ Hlp).
  - intros i [w Hw']. destruct (live_timer lp i w Hlp Hw') as (p & tm & Hi & Ht & _ & _ & _).
    unfold live in Hw'. rewrite Hi, Hrd in Hw'. cbn in Hw'. case_decide as Hn; [done|].
    unfold expiry. cbn [timers TimerQueue.activeTimers_ TimerQueue.set_timerfd TimerQueue.heap c1 TimerQueue.set_active].
    by rewrite (proj2 (Ha i p) (conj Hi Hn)), Hi.
Qed.

(** ** Lemmas: what the handlers do *)

Lemma loop_at_set l lp s l' : loop_at l' (set_loop l lp s) = if decide (l' = l) then lp else loop_at l' s.
Proof.
  unfold loop_at, set_loop. cbn [loops]. case_decide as Hl.
  - subst. by rewrite lookup_insert_eq.
  - by rewrite lookup_insert_ne.
Qed.

(** Effects that are no timers. *)
Definition calm (e : WebChat.effect) : Prop :=
  match e with WebChat.ERunAfter _ _ _ _ | WebChat.ECancel _ _ => False | _ => True end.

(** Effects that leave the connections as they are. *)
Definition silent (e : WebChat.effect) : Prop :=
  match e with WebChat.ESend _ _ | WebChat.ELog _ => True | _ => False end.

(** What the handlers find at their connection. *)
Ltac own_entry :=
  cbn [WebChat.set_idleTimers WebChat.set_connections WebChat.set_parsers WebChat.idleTimers_
       WebChat.idleTimer WebChat.forceCloseTimer] in *;
  repeat match goal with
  | H : <[?c := _]> _ !! ?c = _ |- _ => rewrite lookup_insert_eq in H
  | H1 : ?m !! ?c = Some _, H2 : ?m !! ?c = _ |- _ => rewrite H1 in H2
  end;
  simplify_eq/=.

Section effects.
Variable peer : Conn -> bytes.

Lemma established_effects (c : Conn) (i : Z) (s : WebChat.t) :
  wp (WebChat.onConnection peer c TcpConnection.kConnected i) s (fun _ _ es =>
    exists line, es = [WebChat.ELog line; WebChat.ERunAfter c WebChat.kTimeout WebChat.IdleTimeout i]).
Proof.
  unfold WebChat.onConnection, WebChat.register, WebChat.refreshIdleTimer, WebChat.track_parser.
  change (WebChat.connected TcpConnection.kConnected) with true. cbv iota.
  wp_steps; try done; own_entry; cbn; eauto.
Qed.

(** The cancellations of [onConnection]. *)
Definition cancels (c : Conn) (tm : WebChat.ConnectionTimers) : list WebChat.effect :=
  (if WebChat.idleTimer tm =? 0 then [] else [WebChat.ECancel c (WebChat.idleTimer tm)]) ++
  (if WebChat.forceCloseTimer tm =? 0 then [] else [WebChat.ECancel c (WebChat.forceCloseTimer tm)]).

Lemma closed_effects (c : Conn) (i : Z) (s : WebChat.t) tm :
  WebChat.idleTimers_ s !! c = Some tm ->
  wp (WebChat.onConnection peer c TcpConnection.kDisconnected i) s (fun _ _ es =>
    exists line, es = WebChat.ELog line :: cancels c tm).
Proof.
  intros Htm. unfold WebChat.onConnection, WebChat.register, WebChat.track_parser, cancels.
  change (WebChat.connected TcpConnection.kDisconnected) with false. cbv iota.
  wp_steps; own_entry; destruct (WebChat.idleTimer _ =? 0), (WebChat.forceCloseTimer _ =? 0); try done;
    cbn; eauto.
Qed.

Lemma requests_silent (c : Conn) rs (s : WebChat.t) :
  wp (WebChat.handleRequests peer c rs) s (fun _ _ es => Forall silent es).
Proof. eapply wp_mono; [apply WebChat.handleRequests_spec|]. by intros _ s' es (_ & H & _). Qed.

(** A message: the idle timer is replaced while the connection is connected; what
    follows is no timer, and half-closes at most this connection. *)
Definition talk (c : Conn) (e : WebChat.effect) : Prop :=
  silent e \/ e = WebChat.EShutdown c.

Lemma message_effects (c : Conn) (b : Buffer.t) (st : TcpConnection.StateE) (i j : Z) (s : WebChat.t) :
  WebChat.between (WebChat.parser_of s c) -> Buffer.wf b ->
  (st = TcpConnection.kConnected -> j <> 0 /\ WebChat.idleTimers_ s !! c = Some (WebChat.Timers j 0)) ->
  wp (WebChat.onMessage peer c b st i) s (fun _ _ es =>
    exists rest, Forall (talk c) rest /\
      es = (if WebChat.connected st then
              [WebChat.ECancel c j; WebChat.ERunAfter c WebChat.kTimeout WebChat.IdleTimeout i]
            else []) ++ rest).
Proof.
  intros Hp Hb Hst. unfold WebChat.onMessage. wp_step.
  eapply (wp_mono _ _ (fun _ s' es => WebChat.parsers_ s' = WebChat.parsers_ s /\
    es = if WebChat.connected st then
           [WebChat.ECancel c j; WebChat.ERunAfter c WebChat.kTimeout WebChat.IdleTimeout i] else [])).
  { apply wp_when; intros Ec; rewrite Ec; [|done]. unfold WebChat.refreshIdleTimer. rewrite Ec.
    cbn [negb]. apply bool_decide_eq_true in Ec. destruct (Hst Ec) as [Hj Htm].
    apply Z.eqb_neq in Hj. wp_steps; own_entry; by rewrite ?Hj in *. }
  intros _ s1 es1 [Hps ->]. do 2 wp_step. rewrite Hps. fold (WebChat.parser_of s c).
  destruct (WebChat.parse_message (WebChat.parser_of s c) b Hp Hb) as (mal & rs & p' & b' & Hpr & _).
  wp_step. eapply wp_lift; [exact Hpr|]. cbv beta iota. do 3 wp_step.
  eapply (wp_mono _ _ (fun _ _ es => Forall (talk c) es)).
  - destruct mal.
    + wp_steps. cbn. apply Forall_cons; split; [by left|]. apply Forall_singleton. by right.
    + eapply wp_mono; [apply requests_silent|]. intros [] s2 es H.
      eapply Forall_impl; [exact H|]. intros e He. by left.
  - intros [] s2 es H. wp_step. exists es. by rewrite !app_nil_r.
Qed.

Lemma idle_effects (c : Conn) (st : TcpConnection.StateE) (i : Z) (s : WebChat.t) :
  is_Some (WebChat.idleTimers_ s !! c) ->
  wp (WebChat.handleIdleTimeout peer c st i) s (fun _ _ es =>
    exists line, es = if WebChat.connected st then
      [WebChat.ELog line; WebChat.EShutdown c;
       WebChat.ERunAfter c WebChat.kTimeout WebChat.ForceCloseTimeout i] else []).
Proof.
  intros [tm Htm]. unfold WebChat.handleIdleTimeout. destruct (WebChat.connected st); cbn [negb].
  - wp_steps; own_entry. eauto.
  - wp_steps. by exists [].
Qed.

Lemma force_effects (c : Conn) (st : TcpConnection.StateE) (s : WebChat.t) :
  is_Some (WebChat.idleTimers_ s !! c) ->
  wp (WebChat.handleForceCloseTimeout peer c st) s (fun _ _ es =>
    exists line, es = if WebChat.disconnected st then [] else [WebChat.ELog line; WebChat.EForceClose c]).
Proof.
  intros [tm Htm]. unfold WebChat.handleForceCloseTimeout. 
  wp_steps; own_entry; destruct (WebChat.disconnected st); try done; eauto.
Qed.

End effects.

(** ** Lemmas: the queues implement the timers of [WebChat.world] *)

Section simulation.
Variable peer : Conn -> bytes.
Variable loopOf : Conn -> Z.

(** The world that a state stands for: a timer is armed while its identifier is
    live, and the identifiers used are below the next one. *)
Record link (s : t) (w : WebChat.world) : Prop := {
  k_chat : WebChat.chat w = chat s;
  k_states : WebChat.states w = states s;
  k_closing : WebChat.closing w = closing s;
  k_loop l : loop_ok (loop_at l s);
  k_live l i : WebChat.armed w !! (l, i) = live (loop_at l s) i;
  k_used l i : is_Some (WebChat.used w !! (l, i)) -> i < TimerQueue.nextTimerId_ (timers (loop_at l s));
}.

(** Every armed timer expires at the deadline of the period [P] it watches. *)
Definition timely (P : Conn -> WebChat.timeout -> option Z) (s : t) (w : WebChat.world) : Prop :=
  forall l i c k, WebChat.armed w !! (l, i) = Some (c, k) ->
    exists at_, P c k = Some at_ /\ expiry (loop_at l s) i = Some (deadline at_).

(** [s'] has the history of [s], and its loops are as far in [handleRead]. *)
Record keeps (s s' : t) : Prop := {
  ke_touched : touched s' = touched s;
  ke_idled : idled s' = idled s;
  ke_read l : inRead (loop_at l s') = inRead (loop_at l s);
}.

Lemma keeps_refl s : keeps s s.
Proof. by split. Qed.

Lemma keeps_trans s s' s'' : keeps s s' -> keeps s' s'' -> keeps s s''.
Proof. intros [H1 H2 H3] [H4 H5 H6]. split; congruence. Qed.

(** What a step of a handler does: [w'] for the world, [P] for the periods. *)
Definition performs (l p now : Z) (es : list WebChat.effect) (P : Conn -> WebChat.timeout -> option Z)
    (s : t) (w : WebChat.world) : Prop :=
  exists s', ofold (perform loopOf l p now) es s = Ok s' /\
    link s' (WebChat.apply_effects loopOf es w) /\ keeps s s' /\
    timely P s' (WebChat.apply_effects loopOf es w).

Lemma performs_nil l p now P s w : link s w -> timely P s w -> performs l p now [] P s w.
Proof. intros Hk Hti. exists s. by split_and!. Qed.

(** Effects that are no timers leave the loops alone. *)
Lemma perform_calm l p now e es P s w :
  calm e -> link s w ->
  (forall s', link s' (WebChat.apply_effect loopOf w e) -> loops s' = loops s ->
    (forall P', timely P' s w -> timely P' s' (WebChat.apply_effect loopOf w e)) ->
    performs l p now es P s' (WebChat.apply_effect loopOf w e)) ->
  performs l p now (e :: es) P s w.
Proof.
  intros He Hk Hes.
  assert (exists s1, perform loopOf l p now e s = Ok s1 /\ link s1 (WebChat.apply_effect loopOf w e) /\
    loops s1 = loops s /\ touched s1 = touched s /\ idled s1 = idled s /\
    WebChat.armed (WebChat.apply_effect loopOf w e) = WebChat.armed w)
    as (s1 & E & Hk1 & Hl & Ht & Hi & Ha).
  { destruct Hk as [K1 K2 K3 K4 K5 K6]. destruct e as [| c | c | | |]; try done; eexists; (split; [done|]);
      (split_and!; try done; split; try done; cbn; congruence). }
  destruct (Hes s1 Hk1 Hl) as (s2 & E2 & Hk2 & Hp2 & Hti2).
  - intros P' Hti l' i c k. rewrite Ha. unfold loop_at. rewrite Hl. apply Hti.
  - exists s2. cbn [ofold]. rewrite E. cbn [obind]. split_and!; [done..| |done].
    eapply keeps_trans; [|exact Hp2]. split; [done..|]. intros l'. unfold loop_at. by rewrite Hl.
Qed.

Lemma performs_calm l p now es P s w :
  Forall calm es -> link s w -> timely P s w -> performs l p now es P s w.
Proof.
  intros Hes. revert s w. induction Hes as [|e es He Hes IH]; intros s w Hk Hti; [by apply performs_nil|].
  apply perform_calm; auto.
Qed.

(** [cancel] of a timer of this loop. *)
Lemma perform_cancel l p now c i es P s w :
  loopOf c = l -> link s w ->
  let w' := WebChat.apply_effect loopOf w (WebChat.ECancel c i) in
  (forall s', link s' w' -> keeps s s' ->
    (forall q, timer_ok l q now s -> timer_ok l q now s') -> nextId loopOf c s' = nextId loopOf c s ->
    (forall P', timely P' s w -> timely P' s' w') ->
    performs l p now es P s' w') ->
  performs l p now (WebChat.ECancel c i :: es) P s w.
Proof.
  intros Hl Hk w' Hes. pose proof Hk as [K1 K2 K3 K4 K5 K6].
  destruct (cancel_live (loop_at l s) i (K4 l)) as (lp & E & Hlp & Hrd & Hn & Hh & Hlive & Hexp).
  set (s1 := set_loop l lp s).
  assert (Hat : forall l', loop_at l' s1 = if decide (l' = l) then lp else loop_at l' s) by apply loop_at_set.
  assert (Hti : forall P', timely P' s w -> timely P' s1 w').
  { intros P' Hti l' j c' k' Hj. unfold w' in Hj. cbn in Hj. apply lookup_delete_Some in Hj as [Hne Hj].
    destruct (Hti _ _ _ _ Hj) as (at_ & HP & Hx). exists at_. split; [done|]. rewrite Hat.
    case_decide as Hd; [|done]. subst. rewrite Hexp; [done | congruence]. }
  assert (Hke : keeps s s1).
  { split; [done..|]. intros l'. rewrite Hat. by case_decide; [subst|]. }
  assert (Hk1 : link s1 w').
  { split; try done.
    - intros l'. rewrite Hat. by case_decide.
    - intros l' j. rewrite Hat. unfold w'. cbn. rewrite Hl. case_decide as Hd.
      + subst l'. rewrite Hlive, <- K5. case_decide as Hj; [subst; by rewrite lookup_delete_eq|].
        rewrite lookup_delete_ne; congruence.
      + rewrite lookup_delete_ne by congruence. apply K5.
    - intros l' j Hu. rewrite Hat. specialize (K6 _ _ Hu). case_decide; [|done]. subst l'. by rewrite Hn. }
  destruct (Hes s1 Hk1 Hke) as (s2 & E2 & Hk2 & Hp2 & Hti2); try done.
  - intros q (Hq & Hnx & Hc & Hr). unfold timer_ok. rewrite Hat, decide_True by done.
    rewrite Hn, Hrd. split_and!; try done. by apply Hh.
  - unfold nextId. by rewrite Hat, Hl, decide_True, Hn.
  - exists s2. cbn [ofold perform]. rewrite Hl, bool_decide_eq_true_2, E by done. cbn [obind].
    split_and!; [done..| | done]. by eapply keeps_trans.
Qed.

(** [runAfter] of a timeout of this loop; the handler has the identifier. *)
Lemma perform_run l p now c k es P s w :
  loopOf c = l -> link s w -> timely P s w -> timer_ok l p now s -> P c k = Some now ->
  Forall calm es ->
  performs l p now (WebChat.ERunAfter c WebChat.kTimeout k (nextId loopOf c s) :: es) P s w.
Proof.
  intros Hl Hk Hti0 (Hp & Hn & Hnow & Hr) HP Hes. pose proof Hk as [K1 K2 K3 K4 K5 K6].
  destruct (run_after_spec (loop_at l s) p (c, k) now (K4 l) Hp Hn Hnow Hr)
    as (lp & E & Hlp & Hrd & Hn' & Hlive & Hexp).
  set (i := nextId loopOf c s) in *.
  assert (Hi : TimerQueue.nextTimerId_ (timers (loop_at l s)) = i) by (unfold i, nextId; by rewrite Hl).
  rewrite Hi in *. set (s1 := set_loop l lp s).
  set (w1 := WebChat.apply_effect loopOf w (WebChat.ERunAfter c WebChat.kTimeout k i)).
  assert (Hat : forall l', loop_at l' s1 = if decide (l' = l) then lp else loop_at l' s) by apply loop_at_set.
  assert (Hti : timely P s1 w1).
  { intros l' j c' k' Hj. unfold w1 in Hj. cbn in Hj. rewrite Hat. rewrite Hl in Hj.
    apply lookup_insert_Some in Hj as [[[= <- <-] [= <- <-]]|[Hne Hj]].
    - exists now. split; [exact HP|]. by rewrite decide_True, Hexp, decide_True by done.
    - destruct (Hti0 _ _ _ _ Hj) as (at_ & HP' & Hx). exists at_. split; [done|].
      case_decide as Hd; [|done]. subst l'. rewrite Hexp, decide_False; [done|congruence]. }
  assert (Hk1 : link s1 w1).
  { split; [exact K1 | exact K2 | exact K3 | ..].
    - intros l'. rewrite Hat. by case_decide.
    - intros l' j. rewrite Hat. unfold w1. cbn. rewrite Hl. case_decide as Hd.
      + subst l'. rewrite Hlive, <- K5. case_decide as Hj; [subst; by rewrite lookup_insert_eq|].
        rewrite lookup_insert_ne; congruence.
      + rewrite lookup_insert_ne by congruence. apply K5.
    - intros l' j. rewrite Hat. unfold w1. cbn. rewrite Hl. intros Hu. case_decide as Hd.
      + subst l'. destruct (decide (j = i)) as [->|Hj]; [lia|].
        rewrite lookup_insert_ne in Hu by congruence. apply K6 in Hu. lia.
      + rewrite lookup_insert_ne in Hu by congruence. by apply K6. }
  destruct (performs_calm l p now es P s1 w1 Hes Hk1 Hti) as (s2 & E2 & Hk2 & Hp2 & Hti2).
  exists s2. cbn [ofold perform]. rewrite Hl, bool_decide_eq_true_2, E by done. cbn [obind].
  rewrite Z.eqb_refl. cbn [require obind]. split_and!; [done..| |done].
  eapply keeps_trans; [|exact Hp2]. split; [done..|]. intros l'. rewrite Hat. by case_decide; [subst|].
Qed.

(** A handler runs: its effects are those of the world. *)
Lemma handle_link {A} l p now (m : WebChat.M A) P s w a c es :
  m (chat s) = Ok (a, c, es) -> link s w -> performs l p now es P (set_chat c s) (WebChat.set_app c w) ->
  exists s' w', handle loopOf l p now m s = Ok s' /\ WebChat.handle loopOf m w = Ok w' /\
    w' = WebChat.apply_effects loopOf es (WebChat.set_app c w) /\ link s' w' /\
    keeps s s' /\ timely P s' w'.
Proof.
  intros E [K1 _ _ _ _ _] (s' & Es & Hk & [Ht Hi Hr] & Hti). exists s'. eexists.
  unfold handle, WebChat.handle. rewrite K1, E. cbn [obind]. by split_and!.
Qed.

Lemma link_chat s w c : link s w -> link (set_chat c s) (WebChat.set_app c w).
Proof. by intros []; split. Qed.

Lemma link_states s w m : link s w -> link (set_states m s) (WebChat.set_states m w).
Proof. by intros []; split. Qed.

Lemma link_touched s w m : link s w -> link (set_touched m s) w.
Proof. by intros []; split. Qed.

Lemma link_idled s w m : link s w -> link (set_idled m s) w.
Proof. by intros []; split. Qed.

(** The periods may change where no timer watches them. *)
Lemma timely_change P P' s s' w :
  timely P s w -> loops s' = loops s ->
  (forall l i c k, WebChat.armed w !! (l, i) = Some (c, k) -> P' c k = P c k) ->
  timely P' s' w.
Proof.
  intros Hti Hl HP l i c k Ha. destruct (Hti _ _ _ _ Ha) as (at_ & E & Hx). exists at_.
  unfold loop_at. rewrite Hl. split; [|done]. by rewrite (HP _ _ _ _ Ha).
Qed.

(** The identifier that [runAfter] is going to return is new to the world. *)
Lemma next_fresh s w c : link s w -> WebChat.fresh loopOf w c (nextId loopOf c s).
Proof.
  intros Hk. unfold nextId. pose proof (TimerQueue.w_next _ _ (lo_wf _ (k_loop _ _ Hk (loopOf c)))).
  split; [lia|]. destruct (WebChat.used w !! _) eqn:E; [|done].
  assert (is_Some (WebChat.used w !! (loopOf c, TimerQueue.nextTimerId_ (timers (loop_at (loopOf c) s)))))
    as Hu by eauto.
  apply (k_used _ _ Hk) in Hu. lia.
Qed.

Lemma next_not_armed s w c v :
  WebChat.inv loopOf w -> link s w -> WebChat.armed w !! (loopOf c, nextId loopOf c s) <> Some v.
Proof.
  intros Hw Hk. destruct (next_fresh s w c Hk) as [_ Hf].
  rewrite (WebChat.fresh_not_armed loopOf w _ Hw Hf). done.
Qed.

(** A connection whose idle timeout ran, and that is still half-closed: its
    force-close timer is armed, or [forceClose] was called. *)
Definition half (m : gmap Conn Z) (w : WebChat.world) : Prop :=
  forall c, is_Some (m !! c) ->
    WebChat.states w !! c = Some TcpConnection.kDisconnected \/
    (WebChat.states w !! c = Some TcpConnection.kDisconnecting /\
     (c ∈ WebChat.closing w \/
      exists i, WebChat.armed w !! (loopOf c, i) = Some (c, WebChat.ForceCloseTimeout))).

Lemma half_mono m w w' :
  half m w ->
  (forall c, is_Some (m !! c) ->
    WebChat.states w' !! c = Some TcpConnection.kDisconnected \/
    (WebChat.states w' !! c = WebChat.states w !! c /\
     (c ∈ WebChat.closing w -> c ∈ WebChat.closing w') /\
     forall i, WebChat.armed w !! (loopOf c, i) = Some (c, WebChat.ForceCloseTimeout) ->
       WebChat.armed w' !! (loopOf c, i) = Some (c, WebChat.ForceCloseTimeout) \/ c ∈ WebChat.closing w')) ->
  half m w'.
Proof.
  intros Hh Hm c Hc. destruct (Hm c Hc) as [?|(Hst & Hcl & Ha)]; [by left|].
  destruct (Hh c Hc) as [Hd|[Hd Hor]]; [left; congruence|right]. split; [congruence|].
  destruct Hor as [?|[i Hi]]; [by left; auto|]. destruct (Ha i Hi); [right; eauto | by left].
Qed.

(** Between two events. *)
Record good (s : t) (w : WebChat.world) : Prop := {
  g_inv : WebChat.inv loopOf w;
  g_link : link s w;
  g_timely : timely (period s) s w;
  g_half : half (idled s) w;
}.

Lemma good_init : good init WebChat.world0.
Proof.
  split.
  - apply (WebChat.inv_world0 peer).
  - split; try done.
    + intros l. unfold loop_at. cbn. rewrite lookup_empty. apply idle_loop_ok.
    + by intros l i [v Hv].
  - by intros l i c k H.
  - by intros c [v H].
Qed.

(** No timeout cuts a connection short: what changes a connection other than its own
    messages is a timer called by a [handleRead] that read a clock past the deadline. *)
Definition called_after (c : Conn) (k : WebChat.timeout) (e : event) (s : t) : Prop :=
  exists p now r at_, e = Call (loopOf c) p now /\ inRead (loop_at (loopOf c) s) = Some r /\
    period s c k = Some at_ /\ deadline at_ <= readAt r.

Definition not_early (e : event) (s s' : t) : Prop :=
  (forall c, states s !! c = Some TcpConnection.kConnected ->
    states s' !! c = Some TcpConnection.kDisconnecting ->
    (exists b p now, e = Message c b p now) \/ called_after c WebChat.IdleTimeout e s) /\
  (forall c, c ∈ closing s' -> c ∉ closing s -> called_after c WebChat.ForceCloseTimeout e s).

(** What a step does: the events of the world that it is, and the next state. *)
Definition steps_to (e : event) (s : t) (w : WebChat.world) : Prop :=
  exists s' w', step peer loopOf e s = Ok s' /\
    WebChat.run peer loopOf (world_events loopOf e s) w = Ok w' /\
    WebChat.run_enabled peer loopOf (world_events loopOf e s) w /\
    good s' w' /\ not_early e s s'.

(** A step that is one event of the world. *)
Lemma steps_to_one e s w we w1 :
  world_events loopOf e s = [we] -> WebChat.enabled loopOf we w ->
  WebChat.step peer loopOf we w = Ok w1 ->
  (exists s', step peer loopOf e s = Ok s' /\ good s' w1 /\ not_early e s s') ->
  steps_to e s w.
Proof.
  intros Hwe Hen Hst (s' & E & Hg & Hn). exists s', w1. rewrite Hwe. cbn [WebChat.run WebChat.run_enabled].
  rewrite Hst. by split_and!.
Qed.

Lemma state_of_up s w c :
  link s w -> WebChat.up w c -> states s !! c = Some (state_of c s) /\ up c s.
Proof.
  intros Hk. unfold WebChat.up, up, state_of. rewrite (k_states _ _ Hk). by intros [-> | ->]; auto.
Qed.

(** A connection that is not known yet has no timer. *)
Lemma unknown_not_armed s w c l i k :
  good s w -> states s !! c = None -> WebChat.armed w !! (l, i) <> Some (c, k).
Proof.
  intros [Hw Hk _ _] Hst Ha.
  destruct (WebChat.i_armed _ _ _ (Hw c) _ _ _ Ha) as (_ & _ & _ & tm & Htm & _).
  assert (WebChat.up w c) as [Hu|Hu] by (apply (WebChat.i_timers _ _ _ (Hw c)); eauto);
    rewrite (k_states _ _ Hk) in Hu; congruence.
Qed.

Lemma connected_now c s : WebChat.connected (state_of c s) = true -> states s !! c = Some TcpConnection.kConnected.
Proof.
  intros Hc%bool_decide_eq_true. unfold state_of in Hc. by destruct (states s !! c); cbn in Hc; subst.
Qed.

(** A connection comes up. *)
Lemma step_good_established s w c p now :
  good s w -> event_ok loopOf (Established c p now) s -> steps_to (Established c p now) s w.
Proof.
  intros Hg [Hst Htm]. pose proof Hg as [Hw Hk Hti Hh].
  assert (Hen : WebChat.enabled loopOf (WebChat.WEstablished c (nextId loopOf c s)) w).
  { split; [by rewrite (k_states _ _ Hk) | by apply next_fresh]. }
  destruct (WebChat.step_established peer loopOf w c _ Hw Hen) as (w1 & Hs1 & Hw1).
  eapply steps_to_one; [reflexivity | exact Hen | exact Hs1 |]. cbn [WebChat.step step] in *.
  set (s1 := touch c now (set_states (<[c:=TcpConnection.kConnected]> (states s)) s)).
  assert (Es1 : s1 = set_touched (<[c:=now]> (touched s))
    (set_states (<[c:=TcpConnection.kConnected]> (states s)) s)).
  { unfold s1, touch, state_of. cbn [states set_states]. by rewrite lookup_insert_eq. }
  rewrite (k_states _ _ Hk) in Hs1. set (w0 := WebChat.set_states _ w) in Hs1.
  assert (Hk1 : link s1 w0) by (rewrite Es1; by apply link_touched, link_states).
  assert (Hti1 : timely (period s1) s1 w0).
  { apply (timely_change (period s) _ s); [done | by rewrite Es1|].
    intros l i c' k Ha. rewrite Es1. destruct k; [|done]. cbn.
    rewrite lookup_insert_ne; [done|]. intros <-.
    by destruct (unknown_not_armed s w c l i WebChat.IdleTimeout). }
  assert (Hid : nextId loopOf c s1 = nextId loopOf c s) by (by rewrite Es1).
  destruct (wp_elim _ _ _ (established_effects peer c (nextId loopOf c s1) (chat s1)))
    as ([] & ch & es & E & line & ->).
  destruct (handle_link (loopOf c) p now _ (period s1) s1 w0 tt ch _ E Hk1) as
    (s' & w' & Es & Ew & Hw' & Hk' & Hke & Hti').
  { apply perform_calm; [done | by apply link_chat|]. intros s2 Hk2 Hl2 Hti2.
    assert (nextId loopOf c s1 = nextId loopOf c s2) as -> by (unfold nextId, loop_at; by rewrite Hl2).
    apply perform_run; [done | done | by apply Hti2 | | rewrite Es1; cbn; by rewrite lookup_insert_eq | constructor].
    unfold timer_ok, loop_at in *. rewrite Hl2, Es1. exact Htm. }
  rewrite Hid in Ew. rewrite Hs1 in Ew. injection Ew as <-. exists s'. split; [exact Es|].
  destruct Hke as [Ht Hi Hr].
  assert (Hs' : states s' = <[c:=TcpConnection.kConnected]> (states s)).
  { rewrite <- (k_states _ _ Hk'), Hw'. done. }
  split; [split; try done|].
  - unfold period in *. by rewrite Ht, Hi.
  - rewrite Hi, Es1. apply (half_mono _ w); [done|]. intros c' Hc'. right.
    assert (c' <> c).
    { intros ->. destruct (Hh c Hc') as [H|[H _]]; rewrite (k_states _ _ Hk) in H; congruence. }
    rewrite Hw'. cbn. rewrite lookup_insert_ne, (k_states _ _ Hk) by done. split_and!; [done..|].
    intros i Ha. left. rewrite lookup_insert_ne; [done|]. intros E'.
    eapply (next_not_armed s w c); [done..|]. rewrite <- Hid, E'. exact Ha.
  - split.
    + intros c' H1 H2. rewrite Hs' in H2. destruct (decide (c' = c)) as [->|].
      * by rewrite lookup_insert_eq in H2.
      * rewrite lookup_insert_ne in H2 by done. congruence.
    + intros c' H1 H2. destruct H2. rewrite <- (k_closing _ _ Hk), <- (k_closing _ _ Hk') in *. by rewrite Hw' in H1.
Qed.

Lemma performs_cancels l p now c tm P s w :
  loopOf c = l -> link s w -> timely P s w -> performs l p now (cancels c tm) P s w.
Proof.
  intros Hl Hk Hti. unfold cancels.
  assert (forall s w, link s w -> timely P s w -> performs l p now
    (if WebChat.forceCloseTimer tm =? 0 then [] else [WebChat.ECancel c (WebChat.forceCloseTimer tm)]) P s w)
    as Hf.
  { intros s1 w1 Hk1 Hti1. destruct (_ =? 0); [by apply performs_nil|].
    apply perform_cancel; [done..|]. intros s2 Hk2 _ _ _ Hti2. apply performs_nil; auto. }
  destruct (WebChat.idleTimer tm =? 0); [by apply Hf|].
  apply perform_cancel; [done..|]. intros s1 Hk1 _ _ _ Hti1. apply Hf; auto.
Qed.

Lemma cancels_world c tm w :
  WebChat.apply_effects loopOf (cancels c tm) w =
  WebChat.set_armed (WebChat.canceled loopOf c tm (WebChat.armed w)) w.
Proof.
  unfold cancels, WebChat.canceled.
  by destruct w, (WebChat.idleTimer tm =? 0), (WebChat.forceCloseTimer tm =? 0).
Qed.

(** A connection goes down. *)
Lemma step_good_closed s w c p now :
  good s w -> event_ok loopOf (Closed c p now) s -> steps_to (Closed c p now) s w.
Proof.
  intros [Hw Hk Hti Hh] [Hup Htm].
  assert (Hupw : WebChat.up w c) by (unfold WebChat.up; by rewrite (k_states _ _ Hk)).
  assert (Hen : WebChat.enabled loopOf (WebChat.WClosed c (nextId loopOf c s)) w).
  { split; [done | by apply next_fresh]. }
  destruct (WebChat.step_closed peer loopOf w c _ Hw Hen) as (w1 & Hs1 & Hw1).
  eapply steps_to_one; [reflexivity | exact Hen | exact Hs1 |]. cbn [WebChat.step step] in *.
  pose proof (proj2 (WebChat.i_timers _ _ _ (Hw c)) Hupw) as [tm Htm'].
  set (s1 := set_states (<[c:=TcpConnection.kDisconnected]> (states s)) s).
  rewrite (k_states _ _ Hk) in Hs1. set (w0 := WebChat.set_states _ w) in Hs1.
  assert (Hk1 : link s1 w0) by (by apply link_states).
  assert (Hti1 : timely (period s1) s1 w0) by (by apply (timely_change (period s) _ s)).
  assert (Hid : nextId loopOf c s1 = nextId loopOf c s) by done.
  rewrite (k_chat _ _ Hk) in Htm'.
  destruct (wp_elim _ _ _ (closed_effects peer c (nextId loopOf c s1) (chat s1) tm Htm'))
    as ([] & ch & es & E & line & ->).
  destruct (handle_link (loopOf c) p now _ (period s1) s1 w0 tt ch _ E Hk1) as
    (s' & w' & Es & Ew & Hw' & Hk' & Hke & Hti').
  { apply perform_calm; [done | by apply link_chat|]. intros s2 Hk2 Hl2 Hti2.
    apply performs_cancels; [done | done | by apply Hti2]. }
  rewrite Hid in Ew. rewrite Hs1 in Ew. injection Ew as <-. exists s'. split; [exact Es|].
  cbn [WebChat.apply_effects foldl WebChat.apply_effect] in Hw'.
  fold (WebChat.apply_effects loopOf (cancels c tm) (WebChat.set_app ch w0)) in Hw'.
  rewrite cancels_world in Hw'. destruct Hke as [Ht Hi Hr].
  assert (Hs' : states s' = <[c:=TcpConnection.kDisconnected]> (states s)).
  { rewrite <- (k_states _ _ Hk'), Hw'. done. }
  split; [split; try done|].
  - unfold period in *. by rewrite Ht, Hi.
  - rewrite Hi. apply (half_mono _ w); [done|]. intros c' Hc'. rewrite Hw'. cbn.
    destruct (decide (c' = c)) as [->|Hne]; [left; by rewrite lookup_insert_eq|right].
    rewrite lookup_insert_ne, (k_states _ _ Hk) by done. split_and!; [done..|]. intros i Ha. left.
    apply (WebChat.canceled_armed peer loopOf c tm w); [done | by rewrite (k_chat _ _ Hk) | done].
  - split.
    + intros c' H1 H2. rewrite Hs' in H2. destruct (decide (c' = c)) as [->|].
      * by rewrite lookup_insert_eq in H2.
      * rewrite lookup_insert_ne in H2 by done. congruence.
    + intros c' H1 H2. destruct H2. rewrite <- (k_closing _ _ Hk), <- (k_closing _ _ Hk') in *. by rewrite Hw' in H1.
Qed.

(** What follows the timers in a message callback. *)
Lemma talk_calm c es : Forall (talk c) es -> Forall calm es.
Proof. intros H. eapply Forall_impl; [exact H|]. by intros [] [|]. Qed.

Lemma talk_world c es w :
  Forall (talk c) es ->
  exists m, WebChat.apply_effects loopOf es w = WebChat.set_states m w /\
    (forall c', c' <> c -> m !! c' = WebChat.states w !! c') /\
    (WebChat.states w !! c = Some TcpConnection.kDisconnecting ->
     m !! c = Some TcpConnection.kDisconnecting).
Proof.
  intros Hes. revert w. induction Hes as [|e es He Hes IH]; intros w.
  { exists (WebChat.states w). by destruct w. }
  cbn [WebChat.apply_effects foldl]. destruct He as [He| ->].
  - assert (WebChat.apply_effect loopOf w e = w) as -> by (by destruct e). apply IH.
  - destruct (IH (WebChat.apply_effect loopOf w (WebChat.EShutdown c))) as (m & E & Hm & Hd).
    exists m. split; [exact E|]. cbn [WebChat.apply_effect WebChat.set_states WebChat.states] in *. split.
    + intros c' Hne. rewrite Hm by done. by rewrite lookup_alter_ne.
    + intros Hst. apply Hd. by rewrite lookup_alter_eq, Hst.
Qed.

(** What the caller knows of a message callback, whatever its effects after the
    timers: who changes state, and what [half] needs. *)
Lemma message_after s w c p now b j ch rest s' :
  good s w -> up c s -> Forall (talk c) rest ->
  (state_of c s = TcpConnection.kConnected -> WebChat.armed w !! (loopOf c, j) = Some (c, WebChat.IdleTimeout)) ->
  let es := (if WebChat.connected (state_of c s)
             then [WebChat.ECancel c j; WebChat.ERunAfter c WebChat.kTimeout WebChat.IdleTimeout (nextId loopOf c s)]
             else []) ++ rest in
  let w' := WebChat.apply_effects loopOf es (WebChat.set_app ch w) in
  link s' w' -> idled s' = idled s ->
  half (idled s') w' /\ not_early (Message c b p now) s s'.
Proof.
  intros [Hw Hk Hti Hh] Hup Hrest Hj es w' Hk' Hi.
  destruct (talk_world c rest (WebChat.apply_effects loopOf (if WebChat.connected (state_of c s)
     then [WebChat.ECancel c j; WebChat.ERunAfter c WebChat.kTimeout WebChat.IdleTimeout (nextId loopOf c s)]
     else []) (WebChat.set_app ch w)) Hrest) as (m & Em & Hm & Hd).
  assert (Ew : w' = WebChat.set_states m (WebChat.apply_effects loopOf (if WebChat.connected (state_of c s)
     then [WebChat.ECancel c j; WebChat.ERunAfter c WebChat.kTimeout WebChat.IdleTimeout (nextId loopOf c s)]
     else []) (WebChat.set_app ch w))).
  { rewrite <- Em. unfold w', es, WebChat.apply_effects. by rewrite foldl_app. }
  assert (Hst : forall c', c' <> c -> WebChat.states w' !! c' = states s !! c').
  { intros c' Hne. rewrite Ew. cbn. rewrite Hm, <- (k_states _ _ Hk) by done. by destruct (WebChat.connected _). }
  assert (Hcl : WebChat.closing w' = WebChat.closing w) by (rewrite Ew; by destruct (WebChat.connected _)).
  split.
  - rewrite Hi. apply (half_mono _ w); [done|]. intros c' Hc'. right. rewrite Hcl. split_and!; [|done|].
    + destruct (decide (c' = c)) as [->|Hne]; [|by rewrite Hst, (k_states _ _ Hk)].
      destruct (Hh c Hc') as [H|[H _]].
      * rewrite (k_states _ _ Hk) in H. by destruct Hup as [E|E]; rewrite E in H.
      * rewrite H, Ew. cbn. apply Hd. by destruct (WebChat.connected _).
    + intros i Ha. left. rewrite Ew. cbn. destruct (WebChat.connected (state_of c s)) eqn:Ec; [|done].
      apply bool_decide_eq_true in Ec. specialize (Hj Ec). cbn.
      rewrite lookup_insert_ne, lookup_delete_ne; [done | |].
      * intros E'. rewrite <- E' in Ha. congruence.
      * intros E'. eapply (next_not_armed s w c); [done..|]. rewrite E'. exact Ha.
  - split.
    + intros c' H1 H2. destruct (decide (c' = c)) as [->|Hne]; [left; eauto|].
      rewrite <- (k_states _ _ Hk'), Hst in H2 by done. congruence.
    + intros c' H1 H2. destruct H2. by rewrite <- (k_closing _ _ Hk), <- Hcl, (k_closing _ _ Hk').
Qed.

(** What [touch] leaves alone. *)
Lemma touch_same c now s :
  chat (touch c now s) = chat s /\ states (touch c now s) = states s /\ loops (touch c now s) = loops s /\
  idled (touch c now s) = idled s /\ (forall w, link s w -> link (touch c now s) w).
Proof.
  unfold touch. destruct (WebChat.connected (state_of c s)); [|done].
  split_and!; [done..|]. intros w. apply link_touched.
Qed.

(** The idle timer of a connection that is connected. *)
Lemma idle_timer s w c :
  good s w -> exists j, state_of c s = TcpConnection.kConnected ->
    j <> 0 /\ WebChat.idleTimers_ (chat s) !! c = Some (WebChat.Timers j 0) /\
    WebChat.armed w !! (loopOf c, j) = Some (c, WebChat.IdleTimeout).
Proof.
  intros [Hw Hk _ _]. destruct (WebChat.connected (state_of c s)) eqn:Ec.
  - apply connected_now in Ec. rewrite <- (k_states _ _ Hk) in Ec.
    destruct (WebChat.i_connected _ _ _ (Hw c) Ec) as (j & ? & ? & ?). exists j. by rewrite <- (k_chat _ _ Hk).
  - exists 0. intros Hst. by rewrite Hst in Ec.
Qed.

(** The timers of a message callback. *)
Lemma message_performs s w c p now j ch rest :
  good s w -> timer_ok (loopOf c) p now s -> Forall (talk c) rest ->
  (state_of c s = TcpConnection.kConnected ->
    WebChat.idleTimers_ (chat s) !! c = Some (WebChat.Timers j 0)) ->
  let s1 := touch c now s in
  link s1 w ->
  performs (loopOf c) p now
    ((if WebChat.connected (state_of c s)
      then [WebChat.ECancel c j; WebChat.ERunAfter c WebChat.kTimeout WebChat.IdleTimeout (nextId loopOf c s)]
      else []) ++ rest) (period s1) (set_chat ch s1) (WebChat.set_app ch w).
Proof.
  intros [Hw Hk Hti Hh] Htm Hrest Hj s1 Hk1. pose proof (talk_calm _ _ Hrest) as Hcalm. unfold s1, touch in *.
  destruct (WebChat.connected (state_of c s)) eqn:Ec.
  2: { apply performs_calm; [done | by apply link_chat | done]. }
  apply bool_decide_eq_true in Ec. specialize (Hj Ec).
  apply perform_cancel; [done | by apply link_chat|].
  intros s2 Hk2 [Ht2 Hi2 Hr2] Hok2 Hid2 Hti2. cbn [app].
  replace (nextId loopOf c s) with (nextId loopOf c s2) by (by rewrite Hid2).
  apply perform_run; [done | done | | by apply Hok2 | cbn; by rewrite lookup_insert_eq | done].
  apply (timely_change (period s) _ s2); [by apply Hti2 | done|].
  intros l i c' k Ha. destruct k; [|done]. cbn. rewrite lookup_insert_ne; [done|]. intros <-.
  cbn in Ha. apply lookup_delete_Some in Ha as [Hne Ha].
  destruct (WebChat.i_armed _ _ _ (Hw c) _ _ _ Ha) as (-> & _ & _ & tm & Htm' & Hti0).
  rewrite (k_chat _ _ Hk), Hj in Htm'. by simplify_eq/=.
Qed.

(** A message. *)
Lemma step_good_message s w c b p now :
  good s w -> event_ok loopOf (Message c b p now) s -> steps_to (Message c b p now) s w.
Proof.
  intros Hg (Hup & Hb & Htm). pose proof Hg as [Hw Hk Hti Hh].
  assert (Hupw : WebChat.up w c) by (unfold WebChat.up; by rewrite (k_states _ _ Hk)).
  assert (Hen : WebChat.enabled loopOf (WebChat.WMessage c b (nextId loopOf c s)) w).
  { split_and!; [done | by apply next_fresh.. | done]. }
  destruct (WebChat.step_message peer loopOf w c b _ Hw Hen) as (w1 & Hs1 & Hw1).
  eapply steps_to_one; [reflexivity | exact Hen | exact Hs1 |]. cbn [WebChat.step step] in *.
  rewrite (k_states _ _ Hk) in Hs1. fold (state_of c s) in Hs1.
  set (s1 := touch c now s).
  destruct (touch_same c now s) as (Hc1 & Hs1' & Hl1 & Hi1 & Hkt). fold s1 in Hc1, Hs1', Hl1, Hi1, Hkt.
  pose proof (Hkt w Hk) as Hk1.
  assert (Est : state_of c s1 = state_of c s) by (unfold state_of; by rewrite Hs1').
  assert (Hid : nextId loopOf c s1 = nextId loopOf c s) by (unfold nextId, loop_at; by rewrite Hl1).
  assert (Hbt : WebChat.between (WebChat.parser_of (chat s1) c)).
  { rewrite <- (k_chat _ _ Hk1). unfold WebChat.parser_of.
    destruct (WebChat.parsers_ (WebChat.chat w) !! c) eqn:E; [by eapply (WebChat.i_between _ _ _ (Hw c)) | apply WebChat.between_make]. }
  destruct (idle_timer s w c Hg) as [j Hj]. rewrite <- Hc1 in Hj.
  rewrite Est, Hid.
  destruct (wp_elim _ _ _ (message_effects peer c b (state_of c s) (nextId loopOf c s) j (chat s1) Hbt Hb
    (fun H => conj (proj1 (Hj H)) (proj1 (proj2 (Hj H)))))) as (b' & ch & es & E & rest & Hrest & ->).
  rewrite Hc1 in Hj.
  destruct (handle_link (loopOf c) p now _ (period s1) s1 w b' ch _ E Hk1
    (message_performs s w c p now j ch rest Hg Htm Hrest (fun H => proj1 (proj2 (Hj H))) Hk1)) as
    (s' & w' & Es & Ew & Hw' & Hk' & [Ht Hi Hr] & Hti').
  rewrite Hs1 in Ew. injection Ew as <-. exists s'. split; [exact Es|].
  rewrite Hw' in Hk'. destruct (message_after s w c p now b j ch rest s' Hg Hup Hrest) as [Hh' Hne'].
  { intros H. by apply Hj. }
  { exact Hk'. }
  { by rewrite Hi. }
  rewrite <- Hw' in Hh', Hk'. split; [split; try done|done].
  unfold period in *. by rewrite Ht, Hi.
Qed.

(** The force-close timer runs while the connection is half-closed. *)
Lemma force_armed s w c i :
  good s w -> WebChat.armed w !! (loopOf c, i) = Some (c, WebChat.ForceCloseTimeout) ->
  states s !! c = Some TcpConnection.kDisconnecting.
Proof.
  intros [Hw Hk _ _] Ha. rewrite <- (k_states _ _ Hk).
  destruct (WebChat.i_armed _ _ _ (Hw c) _ _ _ Ha) as (_ & Hi & _ & tm & Htm & Hti).
  destruct (proj1 (WebChat.i_timers _ _ _ (Hw c)) ltac:(eauto)) as [H|H]; [|done].
  destruct (WebChat.i_connected _ _ _ (Hw c) H) as (j & _ & Htm' & _). rewrite Htm in Htm'. by simplify_eq/=.
Qed.

(** What the two timeouts do to the connections and to the periods. *)
Definition timeout_done (c : Conn) (k : WebChat.timeout) (s s' : t) (w' : WebChat.world) : Prop :=
  link s' w' /\ timely (period s') s' w' /\ half (idled s') w' /\
  (forall c', states s !! c' = Some TcpConnection.kConnected ->
     states s' !! c' = Some TcpConnection.kDisconnecting -> c' = c /\ k = WebChat.IdleTimeout) /\
  (forall c', c' ∈ closing s' -> c' ∉ closing s -> c' = c /\ k = WebChat.ForceCloseTimeout).

Section fired.
Context (s : t) (w : WebChat.world) (c : Conn) (j p now : Z) (lp : loop).
Let s0 := set_loop (loopOf c) lp s.
Let w0 := WebChat.set_armed (delete (loopOf c, j) (WebChat.armed w)) w.
Hypothesis Hg : good s w.
Hypothesis Hk0 : link s0 w0.
Hypothesis Hti0 : timely (period s) s0 w0.
Hypothesis Htm0 : timer_ok (loopOf c) p now s0.
Hypothesis Hid0 : nextId loopOf c s0 = nextId loopOf c s.

(** The timers of the idle timeout. *)
Lemma idle_performs ch line :
  let s1 := note_timeout c WebChat.IdleTimeout now s0 in
  link (set_chat ch s1) (WebChat.set_app ch w0) ->
  performs (loopOf c) p now
    (if WebChat.connected (state_of c s)
     then [WebChat.ELog line; WebChat.EShutdown c;
           WebChat.ERunAfter c WebChat.kTimeout WebChat.ForceCloseTimeout (nextId loopOf c s0)]
     else []) (period s1) (set_chat ch s1) (WebChat.set_app ch w0).
Proof.
  intros s1 Hk1. unfold s1, note_timeout in *. change (state_of c s0) with (state_of c s) in *.
  destruct (WebChat.connected (state_of c s)) eqn:Ec.
  2: { apply performs_nil; [exact Hk1 | exact Hti0]. }
  apply connected_now in Ec.
  apply perform_calm; [done | exact Hk1 |]. intros s2 Hk2 Hl2 Hti2.
  apply perform_calm; [done | exact Hk2 |]. intros s3 Hk3 Hl3 Hti3.
  assert (Hl : loops s3 = loops s0) by (by rewrite Hl3, Hl2).
  replace (nextId loopOf c s0) with (nextId loopOf c s3) by (unfold nextId, loop_at; by rewrite Hl).
  apply perform_run; [done | done | | unfold timer_ok, loop_at in *; by rewrite Hl |
    cbn; by rewrite lookup_insert_eq | constructor].
  apply Hti3, Hti2, (timely_change (period s) _ s0); [done..|].
  intros l i c' k Hai. destruct k; [done|]. cbn. rewrite lookup_insert_ne; [done|]. intros <-.
  change (delete (loopOf c, j) (WebChat.armed w) !! (l, i) = Some (c, WebChat.ForceCloseTimeout)) in Hai.
  apply lookup_delete_Some in Hai as [_ Hai].
  pose proof (WebChat.i_armed _ _ _ (g_inv _ _ Hg c) _ _ _ Hai) as (-> & _).
  pose proof (force_armed s w c i Hg Hai). congruence.
Qed.

(** The idle timeout. *)
Lemma idle_done :
  WebChat.armed w !! (loopOf c, j) = Some (c, WebChat.IdleTimeout) ->
  exists s' w',
    handle loopOf (loopOf c) p now (WebChat.handleIdleTimeout peer c (state_of c s) (nextId loopOf c s0))
      (note_timeout c WebChat.IdleTimeout now s0) = Ok s' /\
    WebChat.handle loopOf (WebChat.handleIdleTimeout peer c (state_of c s) (nextId loopOf c s0)) w0 = Ok w' /\
    timeout_done c WebChat.IdleTimeout s s' w'.
Proof.
  intros Ha. destruct Hg as [Hw Hk Hti Hh].
  destruct (WebChat.i_armed _ _ _ (Hw c) _ _ _ Ha) as (_ & _ & _ & tm & Htm & Htj).
  rewrite (k_chat _ _ Hk) in Htm. set (s1 := note_timeout c WebChat.IdleTimeout now s0).
  assert (Hk1 : link s1 w0).
  { unfold s1, note_timeout. destruct (WebChat.connected _); [by apply link_idled | done]. }
  assert (Hch : chat s1 = chat s) by (unfold s1, note_timeout; by destruct (WebChat.connected _)).
  destruct (wp_elim _ _ _ (idle_effects peer c (state_of c s) (nextId loopOf c s0) (chat s1)
    ltac:(rewrite Hch; by exists tm))) as ([] & ch & es & E & line & ->).
  destruct (handle_link (loopOf c) p now _ (period s1) s1 w0 tt ch _ E Hk1
    (idle_performs ch line (link_chat _ _ ch Hk1))) as
    (s' & w' & Es & Ew & Hw' & Hk' & [Ht Hi Hr] & Hti').
  exists s', w'. split_and!; [exact Es | exact Ew|]. unfold timeout_done.
  assert (Hkey : forall c' i, WebChat.armed w !! (loopOf c', i) = Some (c', WebChat.ForceCloseTimeout) ->
    delete (loopOf c, j) (WebChat.armed w) !! (loopOf c', i) = Some (c', WebChat.ForceCloseTimeout)).
  { intros c' i Hi'. rewrite lookup_delete_ne; [done|]. intros E'. rewrite <- E' in Hi'. congruence. }
  assert (Hcl : closing s' = closing s).
  { rewrite <- (k_closing _ _ Hk'), <- (k_closing _ _ Hk), Hw'. by destruct (WebChat.connected _). }
  split_and!; [done | unfold period in *; by rewrite Ht, Hi | | | intros c'; by rewrite Hcl].
  - rewrite Hi. intros c' Hc'. unfold s1, note_timeout in Hc'. change (state_of c s0) with (state_of c s) in Hc'.
    destruct (WebChat.connected (state_of c s)) eqn:Ec.
    2: { rewrite Hw'. destruct (Hh c' Hc') as [?|[? [?|[i ?]]]]; [by left | by right; auto |].
         right. split; [done|]. right. exists i. by apply Hkey. }
    rewrite Hw'. cbn. cbn in Hc'. destruct (decide (c' = c)) as [->|Hne].
    + right. rewrite (k_states _ _ Hk), lookup_alter_eq, (connected_now c s Ec). split; [done|]. right. exists (nextId loopOf c s0). by rewrite lookup_insert_eq.
    + rewrite lookup_insert_ne in Hc' by done. rewrite lookup_alter_ne by done.
      destruct (Hh c' Hc') as [?|[? [?|[i Hfi]]]]; [by left | by right; auto |].
      right. split; [done|]. right. exists i. rewrite lookup_insert_ne; [by apply Hkey|].
      intros E'. eapply (next_not_armed s w c); [done..|]. rewrite <- Hid0, E'. exact Hfi.
  - intros c' H1 H2. split; [|done]. rewrite <- (k_states _ _ Hk'), Hw' in H2. cbn in H2.
    destruct (decide (c' = c)) as [|Hne]; [done|].
    destruct (WebChat.connected (state_of c s)); cbn in H2;
      rewrite ?lookup_alter_ne, (k_states _ _ Hk) in H2 by done; congruence.
Qed.

(** The force-close timeout: the connection is half-closed. *)
Lemma force_done :
  WebChat.armed w !! (loopOf c, j) = Some (c, WebChat.ForceCloseTimeout) ->
  exists s' w',
    handle loopOf (loopOf c) p now (WebChat.handleForceCloseTimeout peer c (state_of c s))
      (note_timeout c WebChat.ForceCloseTimeout now s0) = Ok s' /\
    WebChat.handle loopOf (WebChat.handleForceCloseTimeout peer c (state_of c s)) w0 = Ok w' /\
    timeout_done c WebChat.ForceCloseTimeout s s' w'.
Proof.
  intros Ha. destruct Hg as [Hw Hk Hti Hh]. cbn [note_timeout].
  destruct (WebChat.i_armed _ _ _ (Hw c) _ _ _ Ha) as (_ & _ & _ & tm & Htm & _).
  pose proof (force_armed s w c j Hg Ha) as Hst.
  rewrite (k_chat _ _ Hk) in Htm.
  destruct (wp_elim _ _ _ (force_effects peer c (state_of c s) (chat s0) ltac:(by exists tm)))
    as ([] & ch & es & E & line & ->).
  replace (WebChat.disconnected (state_of c s)) with false in E by (unfold state_of; by rewrite Hst).
  destruct (handle_link (loopOf c) p now _ (period s0) s0 w0 tt ch _ E Hk0) as
    (s' & w' & Es & Ew & Hw' & Hk' & [Ht Hi Hr] & Hti').
  { apply performs_calm; [by repeat constructor | by apply link_chat | exact Hti0]. }
  exists s', w'. split_and!; [exact Es | exact Ew|]. unfold timeout_done.
  assert (Hal : alter WebChat.forceClose_state c (WebChat.states w) = WebChat.states w).
  { apply WebChat.forced_states. rewrite (k_states _ _ Hk), Hst. done. }
  assert (Hs' : states s' = states s).
  { rewrite <- (k_states _ _ Hk'), Hw'. cbn. by rewrite Hal, (k_states _ _ Hk). }
  assert (Hcl : closing s' = {[c]} ∪ closing s).
  { rewrite <- (k_closing _ _ Hk'), <- (k_closing _ _ Hk), Hw'. done. }
  split_and!; [done | unfold period in *; by rewrite Ht, Hi | | | ].
  - rewrite Hi. apply (half_mono _ w); [done|]. intros c' Hc'. right.
    rewrite (k_states _ _ Hk'), (k_states _ _ Hk), (k_closing _ _ Hk'), (k_closing _ _ Hk), Hs', Hcl.
    split_and!; [done | set_solver |]. intros i Hfi. destruct (decide (c' = c)) as [->|Hne]; [right; set_solver|].
    left. rewrite Hw'. cbn. rewrite lookup_delete_ne; [done|]. intros E'. rewrite <- E' in Hfi. congruence.
  - intros c' H1 H2. rewrite Hs' in H2. congruence.
  - intros c' H1 H2. rewrite Hcl in H1. split; [set_solver | done].
Qed.

End fired.

(** The loop [l] changes, the others stay. *)
Lemma link_set_loop s w l lp w' :
  link s w -> loop_ok lp ->
  WebChat.chat w' = WebChat.chat w -> WebChat.states w' = WebChat.states w ->
  WebChat.closing w' = WebChat.closing w -> WebChat.used w' = WebChat.used w ->
  TimerQueue.nextTimerId_ (timers lp) = TimerQueue.nextTimerId_ (timers (loop_at l s)) ->
  (forall l' i, WebChat.armed w' !! (l', i) = if decide (l' = l) then live lp i else WebChat.armed w !! (l', i)) ->
  link (set_loop l lp s) w'.
Proof.
  intros [K1 K2 K3 K4 K5 K6] Hlp E1 E2 E3 E4 Hn Hl. split.
  - by rewrite E1.
  - by rewrite E2.
  - by rewrite E3.
  - intros l'. rewrite loop_at_set. by case_decide.
  - intros l' i. rewrite Hl, loop_at_set. by case_decide.
  - intros l' i. rewrite E4, loop_at_set. intros Hu%K6. case_decide; [|done]. subst. by rewrite Hn.
Qed.

Lemma timely_set_loop P s w w' l lp :
  timely P s w ->
  (forall key v, WebChat.armed w' !! key = Some v -> WebChat.armed w !! key = Some v) ->
  (forall i, is_Some (WebChat.armed w' !! (l, i)) -> expiry lp i = expiry (loop_at l s) i) ->
  timely P (set_loop l lp s) w'.
Proof.
  intros Hti Ha He l' i c k Hi. destruct (Hti _ _ _ _ (Ha _ _ Hi)) as (at_ & ? & Hx).
  exists at_. split; [done|]. rewrite loop_at_set. case_decide; [|done]. subst. rewrite He; eauto.
Qed.

(** A step that only moves a loop on. *)
Lemma steps_to_none e s w l lp :
  good s w -> world_events loopOf e s = [] -> step peer loopOf e s = Ok (set_loop l lp s) ->
  loop_ok lp -> TimerQueue.nextTimerId_ (timers lp) = TimerQueue.nextTimerId_ (timers (loop_at l s)) ->
  (forall i, live lp i = live (loop_at l s) i) ->
  (forall i, is_Some (live (loop_at l s) i) -> expiry lp i = expiry (loop_at l s) i) ->
  steps_to e s w.
Proof.
  intros [Hw Hk Hti Hh] Hwe Hst Hlp Hn Hlive Hexp. exists (set_loop l lp s), w. rewrite Hwe.
  split_and!; [done..| |].
  - split; try done.
    + eapply link_set_loop; [done..|]. intros l' i. case_decide; [|done]. subst. by rewrite Hlive, (k_live _ _ Hk).
    + eapply timely_set_loop; [exact Hti | done |]. intros i. rewrite (k_live _ _ Hk). apply Hexp.
  - split; [|done]. intros c H1 H2. cbn in H2. congruence.
Qed.

Lemma step_good_expire s w l now :
  good s w -> event_ok loopOf (Expire l now) s -> steps_to (Expire l now) s w.
Proof.
  intros Hg [Hrd Hnow]. destruct (begin_read_ok (loop_at l s) now) as (Hlp & Hl & He);
    [apply (k_loop _ _ (g_link _ _ Hg)) | done..|].
  by apply (steps_to_none _ s w l (begin_read now (loop_at l s))).
Qed.

Lemma step_good_finish s w l rt :
  good s w -> event_ok loopOf (Finish l rt) s -> steps_to (Finish l rt) s w.
Proof.
  intros Hg [(now & cs & Hrd) Hrt].
  destruct (end_read_ok (loop_at l s) now cs rt (k_loop _ _ (g_link _ _ Hg) l) Hrd) as (q & E & Hlp & Hn & Hl & He).
  apply (steps_to_none _ s w l (Loop q (callbacks (loop_at l s)) None)); try done.
  cbn [step]. rewrite Hrd, E. done.
Qed.

(** The next expired timer is taken to be called. *)
Lemma popped s w c lp j :
  good s w -> loop_ok lp -> timers lp = timers (loop_at (loopOf c) s) ->
  (forall i, live lp i = if decide (i = j) then None else live (loop_at (loopOf c) s) i) ->
  (forall i, expiry lp i = expiry (loop_at (loopOf c) s) i) ->
  let w0 := WebChat.set_armed (delete (loopOf c, j) (WebChat.armed w)) w in
  link (set_loop (loopOf c) lp s) w0 /\ timely (period s) (set_loop (loopOf c) lp s) w0.
Proof.
  intros [Hw Hk Hti Hh] Hlp Et Hlive Hexp w0. split.
  - eapply link_set_loop; [done..| by rewrite Et |]. intros l' i. unfold w0. cbn. case_decide as Hl.
    + subst. rewrite Hlive, <- (k_live _ _ Hk). case_decide as Hi; [subst; by rewrite lookup_delete_eq|].
      rewrite lookup_delete_ne; congruence.
    + rewrite lookup_delete_ne; congruence.
  - eapply timely_set_loop; [exact Hti | |]; [|intros; apply Hexp].
    intros key v Hv. unfold w0 in Hv. cbn in Hv. by apply lookup_delete_Some in Hv as [_ ?].
Qed.

(** Its deadline is at or before the clock that [handleRead] read. *)
Lemma fired_after s w c k x tm r p now :
  good s w -> WebChat.armed w !! (loopOf c, TimerQueue.id tm) = Some (c, k) ->
  TimerQueue.heap (timers (loop_at (loopOf c) s)) !! x = Some tm ->
  inRead (loop_at (loopOf c) s) = Some r -> TimerQueue.expiration tm <= readAt r ->
  called_after c k (Call (loopOf c) p now) s.
Proof.
  intros [Hw Hk Hti Hh] Ha Hx Hrd Hdue. destruct (Hti _ _ _ _ Ha) as (at_ & HP & He).
  rewrite (k_live _ _ Hk) in Ha.
  destruct (live_timer _ _ _ (k_loop _ _ Hk (loopOf c)) Ha) as (y & tm' & Hy & Htm' & Hid' & _ & Hx' & _).
  rewrite Hx' in He. injection He as Ex.
  assert (y = x) as -> by (by eapply (TimerQueue.w_inj _ _ (lo_wf _ (k_loop _ _ Hk (loopOf c))))).
  rewrite Hx in Htm'. injection Htm' as <-. exists p, now, r, at_. split_and!; try done. lia.
Qed.

(** The next expired timer. *)
Lemma step_good_call s w l p now :
  good s w -> event_ok loopOf (Call l p now) s -> steps_to (Call l p now) s w.
Proof.
  intros Hg [[[x lp] Hnx] Htm]. pose proof Hg as [Hw Hk Hti Hh].
  destruct (next_call_ok _ _ _ (k_loop _ _ Hk l) Hnx) as
    (Hlp & Et & r & tm & Hrd & Hrd' & Hx & Hdue & [[c k] Hcb] & Hlive & Hcan & Hlv & Hexp).
  assert (Hd : TimerQueue.deref x (timers lp) = Ok (tm, timers lp, [])).
  { unfold TimerQueue.deref, st_bind, st_get. by rewrite Et, Hx. }
  assert (Ecb : callbacks lp = callbacks (loop_at l s)).
  { unfold next_call in Hnx. by destruct (inRead _) as [[? ? [|]]|]; simplify_eq/=. }
  destruct (TimerQueue.canceled tm) eqn:Hc.
  { apply (steps_to_none _ s w l lp); try done.
    - cbn [world_events]. by rewrite Hnx, Hx, Hc.
    - cbn [step]. by rewrite Hnx, Hd; cbn [obind]; rewrite Hc.
    - by rewrite Et.
    - intros i. rewrite Hlive. case_decide; [|done]. subst. by rewrite Hcan. }
  set (j := TimerQueue.id tm) in *. set (s0 := set_loop l lp s).
  assert (Ha : WebChat.armed w !! (l, j) = Some (c, k)) by (by rewrite (k_live _ _ Hk), Hlv).
  destruct (WebChat.i_armed _ _ _ (Hw c) _ _ _ Ha) as (-> & _).
  set (w0 := WebChat.set_armed (delete (loopOf c, j) (WebChat.armed w)) w).
  destruct (popped s w c lp j Hg Hlp Et Hlive Hexp) as [Hk0 Hti0]. fold s0 w0 in Hk0, Hti0.
  assert (Htm0 : timer_ok (loopOf c) p now s0).
  { unfold timer_ok, s0 in *. rewrite loop_at_set, decide_True, Et, Hrd' by done. by rewrite Hrd in Htm. }
  assert (Hid0 : nextId loopOf c s0 = nextId loopOf c s).
  { unfold nextId, s0. by rewrite loop_at_set, decide_True, Et. }
  assert (exists s' w', step peer loopOf (Call (loopOf c) p now) s = Ok s' /\
    WebChat.step peer loopOf (WebChat.WFire (loopOf c) j (nextId loopOf c s)) w = Ok w' /\
    timeout_done c k s s' w') as (s' & w' & Es & Ew & Hk' & Hti' & Hh' & Hsh & Hfc).
  { cbn [step WebChat.step]. rewrite Hnx, Hd. cbn [obind]. rewrite Hc, Ecb, Hcb, Ha. fold s0 w0.
    rewrite <- Hid0. change (state_of c s0) with (state_of c s). cbn [WebChat.states WebChat.set_armed w0].
    rewrite (k_states _ _ Hk). fold (state_of c s).
    destruct k; cbn [timeout_handler].
    - exact (idle_done s w c j p now lp Hg Hk0 Hti0 Htm0 Hid0 Ha).
    - exact (force_done s w c j p now lp Hg Hk0 Hti0 Htm0 Hid0 Ha). }
  assert (Hen : WebChat.enabled loopOf (WebChat.WFire (loopOf c) j (nextId loopOf c s)) w).
  { exists c, k. split; [done | by apply next_fresh]. }
  destruct (WebChat.step_fire peer loopOf w _ _ _ Hw Hen) as (w1 & Ew1 & Hw1).
  rewrite Ew in Ew1. injection Ew1 as <-.
  apply (steps_to_one _ _ _ (WebChat.WFire (loopOf c) j (nextId loopOf c s)) w'); [|done..|].
  { cbn [world_events]. by rewrite Hnx, Hx, Hc. }
  exists s'. split_and!; [done | by split |].
  pose proof (fired_after s w c k x tm r p now Hg Ha Hx Hrd Hdue) as Hcall.
  split.
  - intros c' H1 H2. right. by destruct (Hsh c' H1 H2) as [-> ->].
  - intros c' H1 H2. by destruct (Hfc c' H1 H2) as [-> ->].
Qed.

Lemma step_good e s w : good s w -> event_ok loopOf e s -> steps_to e s w.
Proof.
  destruct e; [apply step_good_established | apply step_good_closed | apply step_good_message
    | apply step_good_expire | apply step_good_call | apply step_good_finish].
Qed.

(** The events of the world that a run is. *)
Fixpoint world_run (evs : list event) (s : t) : list WebChat.event :=
  match evs with
  | [] => []
  | e :: evs =>
      world_events loopOf e s ++
      match step peer loopOf e s with Ok s => world_run evs s | Fault _ => [] end
  end.

Lemma world_run_app xs ys w :
  WebChat.run peer loopOf (xs ++ ys) w = let! w := WebChat.run peer loopOf xs w in WebChat.run peer loopOf ys w.
Proof.
  revert w. induction xs as [|x xs IH]; intros w; [done|]. cbn.
  destruct (WebChat.step peer loopOf x w); cbn; [apply IH | done].
Qed.

Lemma world_enabled_app xs ys w w' :
  WebChat.run_enabled peer loopOf xs w -> WebChat.run peer loopOf xs w = Ok w' ->
  WebChat.run_enabled peer loopOf ys w' -> WebChat.run_enabled peer loopOf (xs ++ ys) w.
Proof.
  revert w. induction xs as [|x xs IH]; intros w; cbn; [by intros _ [= ->]|].
  intros [Hx Hxs] E Hys. split; [done|]. destruct (WebChat.step peer loopOf x w); [|done]. by apply IH.
Qed.

Lemma run_good evs s w :
  good s w -> run_ok peer loopOf evs s ->
  exists s' w', run peer loopOf evs s = Ok s' /\ WebChat.run_enabled peer loopOf (world_run evs s) w /\
    WebChat.run peer loopOf (world_run evs s) w = Ok w' /\ good s' w'.
Proof.
  revert s w. induction evs as [|e evs IH]; intros s w Hg; cbn [run_ok run world_run].
  { intros _. by exists s, w. }
  intros [He Hok]. destruct (step_good e s w Hg He) as (s1 & w1 & E & Ew & Hen & Hg1 & _).
  rewrite E in *. destruct (IH _ _ Hg1 Hok) as (s' & w' & E' & Hen' & Ew' & Hg'). exists s', w'.
  split_and!; [done | | | done].
  - by eapply world_enabled_app.
  - by rewrite world_run_app, Ew.
Qed.

Lemma run_ok_app xs ys s :
  run_ok peer loopOf (xs ++ ys) s ->
  run_ok peer loopOf xs s /\ forall s', run peer loopOf xs s = Ok s' -> run_ok peer loopOf ys s'.
Proof.
  revert s. induction xs as [|x xs IH]; intros s; cbn; [by intros H; split; [|intros s' [= <-]]|].
  intros [Hx H]. destruct (step peer loopOf x s) as [s1|]; [|by split]. destruct (IH _ H). by split.
Qed.

(** The timeout [k] of [c] has yet to do its work. *)
Definition awaits (s : t) (c : Conn) (k : WebChat.timeout) : Prop :=
  match k with
  | WebChat.IdleTimeout => states s !! c = Some TcpConnection.kConnected
  | WebChat.ForceCloseTimeout =>
      states s !! c = Some TcpConnection.kDisconnecting /\ is_Some (idled s !! c) /\ c ∉ closing s
  end.

Lemma awaited s w c k :
  good s w -> awaits s c k ->
  exists i at_, live (loop_at (loopOf c) s) i = Some (c, k) /\ period s c k = Some at_ /\
    expiry (loop_at (loopOf c) s) i = Some (deadline at_).
Proof.
  intros [Hw Hk Hti Hh] Haw.
  assert (exists i, WebChat.armed w !! (loopOf c, i) = Some (c, k)) as [i Hi].
  { destruct k; cbn in Haw; rewrite <- ?(k_states _ _ Hk), <- ?(k_closing _ _ Hk) in Haw.
    - destruct (WebChat.i_connected _ _ _ (Hw c) Haw) as (i & _ & _ & ?). by exists i.
    - destruct Haw as (Hst & Hid & Hcl). destruct (Hh c Hid) as [?|[_ [?|?]]]; [congruence | done | done]. }
  destruct (Hti _ _ _ _ Hi) as (at_ & ? & ?). exists i, at_. split_and!; try done.
  by rewrite <- (k_live _ _ Hk).
Qed.

(** Its entry is in [timers_], unless [handleRead] has yet to call it. *)
Lemma awaited_entry s w c k :
  good s w -> awaits s c k ->
  (forall r, inRead (loop_at (loopOf c) s) = Some r -> todo r = []) ->
  exists p at_, period s c k = Some at_ /\
    In (deadline at_, p) (TimerQueue.timers_ (timers (loop_at (loopOf c) s))).
Proof.
  intros Hg Haw Hrd. destruct (awaited s w c k Hg Haw) as (i & at_ & Hi & HP & He).
  destruct (live_timer _ _ _ (k_loop _ _ (g_link _ _ Hg) (loopOf c)) Hi)
    as (p & tm & _ & _ & _ & _ & He' & _ & Hor).
  rewrite He' in He. injection He as Ex. rewrite Ex in Hor. exists p, at_. split; [done|].
  destruct Hor as [?|(r & Hr & Hin)]; [done|]. by rewrite (Hrd r Hr) in Hin.
Qed.

(** ** Properties *)

(** C7. Nothing faults, and the queues of the loops implement the timers that WebChat
    supposes: every run is a run of [WebChat.world] that respects its contract, where
    the identifiers that [addTimer] gives are the new ones, the timers that
    [handleRead] calls are armed, and a timer is armed exactly while its identifier
    is active and it was not called yet. *)
Theorem timers_implemented (evs : list event) :
  run_ok peer loopOf evs init ->
  exists s w, run peer loopOf evs init = Ok s /\
    WebChat.run_enabled peer loopOf (world_run evs init) WebChat.world0 /\
    WebChat.run peer loopOf (world_run evs init) WebChat.world0 = Ok w /\
    chat s = WebChat.chat w /\ states s = WebChat.states w /\ closing s = WebChat.closing w /\
    forall l i, live (loop_at l s) i = WebChat.armed w !! (l, i).
Proof.
  intros Hok. destruct (run_good evs init WebChat.world0 good_init Hok) as (s & w & ? & ? & ? & [_ [] _ _]).
  exists s, w. by split_and!.
Qed.

(** C6. The timeouts are on time.  Never early: a step half-closes a connected connection
    only by a message of that connection, or by its idle timer, called by a
    [handleRead] that read a clock at or past 15 seconds after the connection came up
    or last spoke; and calls [forceClose] only by its timer, 15 seconds after the
    idle timeout ran.  Never late: when [handleRead] ends, no timeout of its loop
    still to run has a deadline at or before the clock it read; and whenever
    [handleRead] does not run, the kernel's timer is set no later than the deadline of
    every timeout still to run. *)
Theorem timeouts_on_time (evs : list event) (e : event) :
  run_ok peer loopOf (evs ++ [e]) init ->
  exists s s', run peer loopOf evs init = Ok s /\ step peer loopOf e s = Ok s' /\
    not_early e s s' /\
    (forall l restartTime r c k, e = Finish l restartTime -> inRead (loop_at l s) = Some r ->
       loopOf c = l -> awaits s' c k ->
       exists at_, period s' c k = Some at_ /\ readAt r < deadline at_) /\
    (forall c k, inRead (loop_at (loopOf c) s') = None -> awaits s' c k ->
       exists at_, period s' c k = Some at_ /\
         0 < TimerQueue.nanoseconds (TimerQueue.timerfd_ (timers (loop_at (loopOf c) s')))
           <= deadline at_ * 1000).
Proof.
  intros [Hok He]%run_ok_app. destruct (run_good evs init WebChat.world0 good_init Hok) as (s & w & E & _ & _ & Hg).
  destruct (He s E) as [Hev _]. destruct (step_good e s w Hg Hev) as (s' & w' & E' & _ & _ & Hg' & Hne).
  exists s, s'. split_and!; [done..| |].
  - intros l rt r c k -> Hrd Hl Haw. destruct Hev as [(now & cs & Hrd') _].
    assert (awaits s c k /\ period s' c k = period s c k) as [Haw0 ->].
    { cbn [step] in E'. rewrite Hrd' in E'. apply obind_Ok in E' as ([[u q] es] & _ & [= <-]). by destruct k. }
    rewrite Hrd in Hrd'. injection Hrd' as ->. rewrite <- Hl in Hrd.
    destruct (awaited_entry s w c k Hg Haw0) as (p & at_ & HP & Hin).
    { intros r Hr. rewrite Hrd in Hr. by injection Hr as <-. }
    exists at_. split; [done|]. by apply (lo_later _ (k_loop _ _ (g_link _ _ Hg) (loopOf c)) _ _ p Hrd).
  - intros c k Hrd Haw. destruct (awaited_entry s' w' c k Hg' Haw) as (p & at_ & HP & Hin).
    { intros r Hr. congruence. }
    exists at_. split; [done|].
    pose proof (k_loop _ _ (g_link _ _ Hg') (loopOf c)) as Hlp.
    assert (Hn : TimerQueue.timers_ (timers (loop_at (loopOf c) s')) <> []) by (intros En; by rewrite En in Hin).
    rewrite (lo_armed _ Hlp Hrd Hn).
    pose proof (TimerQueue.earliest_pos _ _ (lo_wf _ Hlp) Hn) as Hpos.
    pose proof (TimerQueue.sorted_earliest _ _ _ (TimerQueue.w_sorted _ _ (lo_wf _ Hlp)) Hin) as Hle.
    destruct (TimerQueue.settime_exact _ (Z.lt_le_incl _ _ Hpos)) as [-> _]. lia.
Qed.

End simulation.

(** ** Witnesses *)

Definition test_loop (c : Conn) : Z := 0.

(** Two connections on one loop, at 1 s and 2 s; the first sends a request at 3 s; at
    17.5 s the timer queue runs the idle timeout of the second, due at 17 s. *)
Definition test_run : list event :=
  [Established 1 100 1000000; Established 2 104 2000000;
   Message 1 (HttpParser.test_buffer (WebChat.stream [WebChat.get_page])) 108 3000000;
   Expire 0 17500000; Call 0 112 17500001].
Definition test_finish : event := Finish 0 (fun _ => 17500002).

(** Checks what an event requires, by evaluation. *)
Ltac event_enabled :=
  cbn [event_ok]; unfold timer_ok, up;
  lazymatch goal with
  | |- (exists now cs, _) /\ _ => split; [do 2 eexists; vm_compute; reflexivity | intros ?; by vm_compute]
  | _ =>
      split_and?;
      first [ by apply HttpParser.test_buffer_spec | by vm_compute | by left; vm_compute
            | by right; vm_compute | by eexists; vm_compute ]
  end.

Ltac run_enabled_here :=
  repeat (cbn [run_ok app]; split;
    [event_enabled | match goal with |- match ?m with Ok _ => _ | Fault _ => _ end =>
       let r := eval vm_compute in m in change m with r; cbv iota end]);
  exact I.

Lemma timed_run_ok : run_ok WebChat.test_peer test_loop (test_run ++ [test_finish]) init.
Proof. unfold test_run, test_finish. run_enabled_here. Qed.

Lemma timers_implemented_witness :
  exists s w, run WebChat.test_peer test_loop (test_run ++ [test_finish]) init = Ok s /\
    WebChat.run WebChat.test_peer test_loop
      (world_run WebChat.test_peer test_loop (test_run ++ [test_finish]) init) WebChat.world0 = Ok w /\
    forall l i, live (loop_at l s) i = WebChat.armed w !! (l, i).
Proof.
  destruct (timers_implemented WebChat.test_peer test_loop (test_run ++ [test_finish]) timed_run_ok)
    as (s & w & E & _ & Ew & _ & _ & _ & H).
  exists s, w. exact (conj E (conj Ew H)).
Defined.

(** At the end the first connection still has until 18 s. *)
Lemma timeouts_on_time_witness :
  exists s s', run WebChat.test_peer test_loop test_run init = Ok s /\
    step WebChat.test_peer test_loop test_finish s = Ok s' /\
    exists at_, touched s' !! 1 = Some at_ /\ 17500000 < deadline at_.
Proof.
  destruct (timeouts_on_time WebChat.test_peer test_loop test_run test_finish timed_run_ok)
    as (s & s' & E & E' & _ & H & _).
  exists s, s'. split; [exact E|]. split; [exact E'|].
  vm_compute in E. injection E as <-. vm_compute in E'. injection E' as <-.
  apply (H 0 (fun _ => 17500002) (Reading 17500000 [104] []) 1 WebChat.IdleTimeout);
    vm_compute; reflexivity.
Defined.

(** The same evaluated: at the end the first connection is connected, with its timer
    armed for 18 s, the second half-closed, with its force-close timer for 32.500001 s. *)
Example test_run_result :
  match run WebChat.test_peer test_loop (test_run ++ [test_finish]) init with
  | Ok s => states s !! 1 = Some TcpConnection.kConnected /\
      states s !! 2 = Some TcpConnection.kDisconnecting /\
      TimerQueue.timers_ (timers (loop_at 0 s)) = [(18000000, 108); (32500001, 112)] /\
      TimerQueue.timerfd_ (timers (loop_at 0 s)) = TimerQueue.Timespec 18 0
  | Fault _ => False
  end.
Proof. vm_compute. by split_and!. Qed.

End IdleTimers.
