(* ===== verification/Served.v ===== *)
(** * Served: a connection of the chat server, from its socket to its socket

    The composition of src/src/tcp/TcpConnection.cpp with the message callback of
    src/main.cpp: [handleRead] calls [WebChatServer::onMessage] on the input buffer, whose
    calls of [send] and [shutdown] on this connection run at once, as they are made on its
    loop.  A run interleaves reads, writable sockets, the functors that the broadcasts of
    other connections have queued here, and changes of the shared state by handlers on
    other loops.  The theorem refines the run to a server that maps a stream of requests
    to a stream of responses. *)

From stdpp Require Import sorting.
From S2P Require Import Prelude Buffer InputQueue HttpParser Channel TcpConnection Digits WebChat.

Module Served.

#[local] Existing Instance TcpConnection.StateE_eq_dec.

Section served.
Variables (peer : Z -> bytes) (conn : Z).

Record t := mk {
  chat : WebChat.t;              (** the server's shared state *)
  tcp : TcpConnection.t;         (** this connection *)
}.

Inductive event :=
| Arrive (d0 d1 : bytes) (timerId : Z) (answers : list sysret)
    (** the socket is readable; what [readv] stores in the two iovecs, and what [write]
        answers to the sends of the message callback *)
| Writable (write_r sendfile_r : sysret)
| Relayed (r : sysret) (message : bytes)   (** a queued [sendInLoop] runs *)
| Elsewhere (s : WebChat.t).               (** handlers of other connections have run *)

(** The calls that the handler makes on this connection. *)
Fixpoint calls (es : list WebChat.effect) (answers : list sysret) : list TcpConnection.event :=
  match es with
  | [] => []
  | WebChat.ESend c m :: es =>
      if c =? conn then
        TcpConnection.EvSend true (default (SysErr EAGAIN) (head answers)) m :: calls es (tail answers)
      else calls es answers
  | WebChat.EShutdown c :: es =>
      if c =? conn then TcpConnection.EvShutdown true :: calls es answers else calls es answers
  | WebChat.EForceClose c :: es =>
      if c =? conn then TcpConnection.EvForceClose :: calls es answers else calls es answers
  | _ :: es => calls es answers
  end.

Definition calls_message (es : list TcpConnection.effect) : bool :=
  existsb (fun e => match e with TcpConnection.ECall TcpConnection.CMessage => true | _ => false end) es.

(** The message callback and what it does to this connection. *)
Definition onMessage (timerId : Z) (answers : list sysret) (s : t) :
    outcome (t * list TcpConnection.effect) :=
  let! (buf, chat, es) := WebChat.onMessage peer conn (TcpConnection.inputBuffer_ (tcp s))
    (TcpConnection.state_ (tcp s)) timerId (chat s) in
  let! (c, l) := TcpConnection.run_log (calls es answers) (TcpConnection.set_input buf (tcp s)) in
  Ok (mk chat c, TcpConnection.l_effects l).

Definition step (e : event) (s : t) : outcome (t * list TcpConnection.effect) :=
  match e with
  | Arrive d0 d1 timerId answers =>
      let! (_, c, es) := TcpConnection.handleRead (Buffer.ReadvOk d0 d1) (tcp s) in
      let s := mk (chat s) c in
      if calls_message es then
        let! (s, es') := onMessage timerId answers s in Ok (s, es ++ es')
      else Ok (s, es)
  | Writable w f =>
      let! (_, c, es) := TcpConnection.handleWrite w f (tcp s) in Ok (mk (chat s) c, es)
  | Relayed r m =>
      let! (_, c, es) := TcpConnection.sendInLoop r m (tcp s) in Ok (mk (chat s) c, es)
  | Elsewhere chat => Ok (mk chat (tcp s), [])
  end.

Fixpoint run (evs : list event) (s : t) : outcome (t * list TcpConnection.effect) :=
  match evs with
  | [] => Ok (s, [])
  | e :: evs =>
      let! (s, es) := step e s in
      let! (s, es') := run evs s in
      Ok (s, es ++ es')
  end.

(** ** What the environment may do *)

(** An answer of [write] that is not the end of the connection. *)
Definition sane (r : sysret) : Prop := TcpConnection.fatal_errno r = false.

(** The answers of the kernel are in range and there is memory for what is queued. *)
Definition calls_ok (timerId : Z) (answers : list sysret) (s : t) : Prop :=
  Forall sane answers /\
  match WebChat.onMessage peer conn (TcpConnection.inputBuffer_ (tcp s))
          (TcpConnection.state_ (tcp s)) timerId (chat s) with
  | Ok (buf, _, es) => TcpConnection.run_ok (calls es answers) (TcpConnection.set_input buf (tcp s))
  | Fault _ => True
  end.

Definition enabled (e : event) (s : t) : Prop :=
  match e with
  | Arrive d0 d1 timerId answers =>
      d0 ++ d1 <> [] /\
      TcpConnection.event_ok (tcp s) (TcpConnection.EvRead (Buffer.ReadvOk d0 d1)) /\
      match TcpConnection.handleRead (Buffer.ReadvOk d0 d1) (tcp s) with
      | Ok (_, c, _) => calls_ok timerId answers (mk (chat s) c)
      | Fault _ => True
      end
  | Writable w f => TcpConnection.event_ok (tcp s) (TcpConnection.EvWrite w f)
  | Relayed r m => TcpConnection.send_ok (tcp s) r m /\ sane r
  | Elsewhere chat' =>
      WebChat.parser_of chat' conn = WebChat.parser_of (chat s) conn /\
      (conn ∈ WebChat.connections_ chat' <-> conn ∈ WebChat.connections_ (chat s))
  end.

Fixpoint run_enabled (evs : list event) (s : t) : Prop :=
  match evs with
  | [] => True
  | e :: evs =>
      enabled e s /\ match step e s with Ok (s, _) => run_enabled evs s | Fault _ => True end
  end.

(** The bytes that arrive, and the messages that other connections relay. *)
Definition arrived (evs : list event) : bytes :=
  flat_map (fun e => match e with Arrive d0 d1 _ _ => d0 ++ d1 | _ => [] end) evs.
Definition relayed (evs : list event) : list bytes :=
  omap (fun e => match e with Relayed _ m => Some m | _ => None end) evs.

(** ** The specification: requests to responses *)

(** What a request makes the server send to its own connection; a member of the chat
    also gets its own broadcast. *)
Definition response (member : bool) (request : bytes * bytes) : list bytes :=
  if bool_decide (request.1 = str "/") then
    [WebChat.http_response (str "text/html; charset=utf-8") WebChat.g_chat_html]
  else if bool_decide (request.1 = str "/chat") then
    (if member then
       [str "Broadcast: [" ++ peer conn ++ str "]: " ++ request.2 ++ Buffer.kCRLF]
     else []) ++
    [WebChat.http_response (str "text/plain") (str "OK")]
  else [].

Definition responses (member : bool) (requests : list (bytes * bytes)) : list bytes :=
  flat_map (response member) requests.

(** ** Lemmas: the messages to this connection *)

Definition to_conn (sent : list (Z * bytes)) : list bytes :=
  omap (fun '(c, m) => if c =? conn then Some m else None) sent.

Lemma to_conn_app s1 s2 : to_conn (s1 ++ s2) = to_conn s1 ++ to_conn s2.
Proof. apply omap_app. Qed.

Lemma to_conn_map (l : list Z) (m : bytes) :
  NoDup l -> to_conn (map (fun c => (c, m)) l) = if decide (conn ∈ l) then [m] else [].
Proof.
  induction 1 as [|c l Hc Hl IH]; [by rewrite decide_False by apply not_elem_of_nil|].
  unfold to_conn in *. cbn [map omap list_omap].
  destruct (c =? conn) eqn:E; zbool.
  - subst c. rewrite (decide_True (P := conn ∈ conn :: l)) by (apply elem_of_cons; by left).
    rewrite IH. by rewrite decide_False.
  - rewrite IH. apply decide_ext. rewrite elem_of_cons. naive_solver.
Qed.

Lemma to_conn_answers users r :
  to_conn (WebChat.answers peer users conn r) = response (bool_decide (conn ∈ users)) r.
Proof.
  unfold WebChat.answers, response. case_bool_decide; [simpl; by rewrite Z.eqb_refl|].
  case_bool_decide; [|done]. rewrite to_conn_app.
  set (m := str "Broadcast: [" ++ _).
  change (map (fun user => (user, m))) with (map (fun c : Z => (c, m))).
  rewrite to_conn_map by (rewrite merge_sort_Permutation; apply NoDup_elements).
  simpl. rewrite Z.eqb_refl. f_equal.
  destruct (bool_decide_reflect (conn ∈ users)) as [Hin|Hin].
  - rewrite decide_True; [done|]. rewrite merge_sort_Permutation. by apply elem_of_elements.
  - rewrite decide_False; [done|]. rewrite merge_sort_Permutation. by rewrite elem_of_elements.
Qed.

Lemma to_conn_responses users rs :
  to_conn (flat_map (WebChat.answers peer users conn) rs) =
    responses (bool_decide (conn ∈ users)) rs.
Proof.
  induction rs as [|r rs IH]; [done|]. cbn [flat_map]. by rewrite to_conn_app, to_conn_answers, IH.
Qed.

(** ** Lemmas: what the operations of a connection leave alone *)

(** [m] does not touch the state, the input buffer and the callbacks. *)
Definition keeps {A} (m : TcpConnection.M A) : Prop :=
  forall c a c' es, m c = Ok (a, c', es) ->
    TcpConnection.state_ c' = TcpConnection.state_ c /\
    TcpConnection.inputBuffer_ c' = TcpConnection.inputBuffer_ c /\
    TcpConnection.callbacks_ c' = TcpConnection.callbacks_ c.

Lemma keeps_bind {A B} (m : TcpConnection.M A) (k : A -> TcpConnection.M B) :
  keeps m -> (forall a, keeps (k a)) -> keeps (st_bind m k).
Proof.
  intros Hm Hk c b c' es. unfold st_bind. destruct (m c) as [[[a c1] e1]|] eqn:E1; [|done].
  destruct (k a c1) as [[[b2 c2] e2]|] eqn:E2; [|done]. intros [= -> -> <-].
  apply Hm in E1. apply Hk in E2. intuition congruence.
Qed.

Lemma keeps_ret {A} (a : A) : keeps (st_ret a).
Proof. by intros c a' c' es [= <- <- <-]. Qed.
Lemma keeps_get : keeps st_get.
Proof. by intros c a' c' es [= <- <- <-]. Qed.
Lemma keeps_tell es : keeps (st_tell es).
Proof. by intros c a' c' es' [= <- <- <-]. Qed.
Lemma keeps_lift {A} (m : outcome A) : keeps (st_lift m).
Proof. intros c a' c' es. unfold st_lift. destruct m; [by intros [= <- <- <-] | done]. Qed.
Lemma keeps_modify f :
  (forall c, TcpConnection.state_ (f c) = TcpConnection.state_ c /\
     TcpConnection.inputBuffer_ (f c) = TcpConnection.inputBuffer_ c /\
     TcpConnection.callbacks_ (f c) = TcpConnection.callbacks_ c) -> keeps (st_modify f).
Proof. intros Hf c a' c' es [= <- <- <-]. apply Hf. Qed.
Lemma keeps_when b m : keeps m -> keeps (st_when b m).
Proof. destruct b; [done|]. intros _. apply keeps_ret. Qed.
Lemma keeps_on_channel m : keeps (TcpConnection.on_channel m).
Proof.
  intros c a c' es. unfold TcpConnection.on_channel.
  destruct (m _) as [[[[] ch] cs]|]; [by intros [= <- <- <-] | done].
Qed.

(** Applies the rule of the head of the operation. *)
Ltac keeps_tac := repeat (
  lazymatch goal with
  | |- keeps (st_bind _ _) => apply keeps_bind; [|intros ?]
  | |- keeps (st_ret _) => apply keeps_ret
  | |- keeps st_get => apply keeps_get
  | |- keeps (st_tell _) => apply keeps_tell
  | |- keeps (st_lift _) => apply keeps_lift
  | |- keeps (st_modify _) => apply keeps_modify; intros ?; by split_and!
  | |- keeps (st_when _ _) => apply keeps_when
  | |- keeps (TcpConnection.on_channel _) => apply keeps_on_channel
  | |- keeps (if ?b then _ else _) => destruct b
  | |- keeps (match ?x with _ => _ end) => destruct x
  end).

Lemma keeps_sendInLoop r m : keeps (TcpConnection.sendInLoop r m).
Proof.
  unfold TcpConnection.sendInLoop, TcpConnection.directWrite, TcpConnection.queueOutput,
    TcpConnection.notifyHighWaterMark, TcpConnection.armWriting, TcpConnection.queueInLoop.
  keeps_tac.
Qed.

Lemma keeps_send r m : keeps (TcpConnection.run_event (TcpConnection.EvSend true r m)).
Proof.
  cbn [TcpConnection.run_event]. unfold TcpConnection.send. keeps_tac. apply keeps_sendInLoop.
Qed.

Lemma keeps_handleWrite w f : keeps (TcpConnection.handleWrite w f).
Proof.
  unfold TcpConnection.handleWrite, TcpConnection.writeOutput, TcpConnection.notifyLowWaterMark,
    TcpConnection.writeFile, TcpConnection.finishWrite, TcpConnection.shutdownInLoop,
    TcpConnection.queueInLoop.
  keeps_tac.
Qed.

(** Bytes that arrive are stored, and the message callback is called. *)
Lemma handleRead_data c d0 d1 :
  TcpConnection.wf c ->
  TcpConnection.event_ok c (TcpConnection.EvRead (Buffer.ReadvOk d0 d1)) ->
  d0 ++ d1 <> [] ->
  TcpConnection.messageCallback_ (TcpConnection.callbacks_ c) = true ->
  exists b, TcpConnection.handleRead (Buffer.ReadvOk d0 d1) c =
      Ok (tt, TcpConnection.set_input b c, [TcpConnection.ECall TcpConnection.CMessage]) /\
    Buffer.wf b /\
    Buffer.contents b = Buffer.contents (TcpConnection.inputBuffer_ c) ++ d0 ++ d1.
Proof.
  intros Hwf [Hok Hm] Hne Hcb.
  destruct (Buffer.readFd_spec (TcpConnection.inputBuffer_ c) d0 d1) as (b & Hr & Hb & Hc);
    [apply Hwf | done..|].
  exists b. split; [|done]. unfold TcpConnection.handleRead, st_bind, st_get, st_lift. rewrite Hr.
  assert (0 < blen d0 + blen d1).
  { rewrite <- blen_app. unfold blen. destruct (d0 ++ d1); [done|]. simpl. lia. }
  rewrite (proj2 (Z.ltb_lt _ _)) by done. simpl. by rewrite Hcb.
Qed.

(** ** Lemmas: the calls of the handler *)

(** The effects of a handler that are no forced closes. *)
Definition no_force (e : WebChat.effect) : Prop :=
  match e with WebChat.EForceClose _ => False | _ => True end.

Definition gentle {A} (m : WebChat.M A) : Prop :=
  forall s a s' es, m s = Ok (a, s', es) -> Forall no_force es.

Lemma gentle_bind {A B} (m : WebChat.M A) (k : A -> WebChat.M B) :
  gentle m -> (forall a, gentle (k a)) -> gentle (st_bind m k).
Proof.
  intros Hm Hk s b s' es. unfold st_bind. destruct (m s) as [[[a s1] e1]|] eqn:E1; [|done].
  destruct (k a s1) as [[[b2 s2] e2]|] eqn:E2; [|done]. intros [= _ _ <-].
  apply Forall_app. split; [by eapply Hm | by eapply Hk].
Qed.

Lemma gentle_silent {A} (m : WebChat.M A) :
  (forall s a s' es, m s = Ok (a, s', es) -> es = []) -> gentle m.
Proof. intros H s a s' es E. by rewrite (H _ _ _ _ E). Qed.

Lemma gentle_onMessage (buf : Buffer.t) st timerId :
  gentle (WebChat.onMessage peer conn buf st timerId).
Proof.
  assert (Hret : forall A (a : A), gentle (st_ret a)) by (intros; apply gentle_silent; by intros ? ? ? ? [= _ _ <-]).
  assert (Hget : gentle st_get) by (apply gentle_silent; by intros ? ? ? ? [= _ _ <-]).
  assert (Hmod : forall f, gentle (st_modify f)) by (intros; apply gentle_silent; by intros ? ? ? ? [= _ _ <-]).
  assert (Hlift : forall A (m : outcome A), gentle (st_lift m)).
  { intros A m. apply gentle_silent. intros ? ? ? ?. unfold st_lift. by destruct m; intros [= _ _ <-]. }
  assert (Htell : forall es, Forall no_force es -> gentle (st_tell es)) by (by intros es Hes ? ? ? ? [= _ _ <-]).
  assert (Hwhen : forall b m, gentle m -> gentle (st_when b m)) by (intros [] m Hm; [done | apply Hret]).
  unfold WebChat.onMessage. apply gentle_bind; [apply Hwhen|intros _].
  { unfold WebChat.refreshIdleTimer. destruct (negb _); [apply Hret|].
    apply gentle_bind; [done|]. intros s. destruct (_ !! _); [|apply Hret].
    apply gentle_bind; [apply Hwhen, Htell; by repeat constructor|]. intros _.
    apply gentle_bind; [apply Htell; by repeat constructor|]. intros _. apply Hmod. }
  apply gentle_bind; [done|]. intros s. apply gentle_bind; [apply Hlift|].
  intros [[[mal rs] p] b]. apply gentle_bind; [apply Hmod|]. intros _.
  apply gentle_bind; [|intros _; apply Hret]. destruct mal.
  - apply gentle_bind; [apply Htell; by repeat constructor|]. intros _. apply Htell; by repeat constructor.
  - intros s1 a s2 es E. pose proof (WebChat.handleRequests_spec peer s1 conn rs) as H.
    unfold wp in H. rewrite E in H. destruct H as (_ & Hq & _).
    eapply Forall_impl; [exact Hq|]. by intros [].
Qed.

(** The sends of a list of messages, each with its answer. *)
Fixpoint sends (ms : list bytes) (answers : list sysret) : list TcpConnection.event :=
  match ms with
  | [] => []
  | m :: ms => TcpConnection.EvSend true (default (SysErr EAGAIN) (head answers)) m :: sends ms (tail answers)
  end.

Lemma calls_sends es answers :
  Forall no_force es -> WebChat.shut es = [] -> calls es answers = sends (to_conn (WebChat.sent es)) answers.
Proof.
  intros Hf. revert answers. induction Hf as [|e es He Hf IH]; intros answers Hs; [done|].
  destruct e as [c m|c|c|c d k i|c i|line]; simpl in *; try done; [|by apply IH..].
  unfold to_conn. simpl. destruct (c =? conn); simpl; [f_equal|]; by apply IH.
Qed.

Lemma run_sends ms : forall answers c,
  TcpConnection.wf c -> TcpConnection.state_ c = TcpConnection.kConnected ->
  Forall sane answers -> TcpConnection.run_ok (sends ms answers) c ->
  exists c' l, TcpConnection.run_log (sends ms answers) c = Ok (c', l) /\ TcpConnection.wf c' /\
    TcpConnection.written (TcpConnection.l_effects l) ++
      Buffer.contents (TcpConnection.outputBuffer_ c') =
      Buffer.contents (TcpConnection.outputBuffer_ c) ++ concat ms /\
    TcpConnection.state_ c' = TcpConnection.kConnected /\
    TcpConnection.inputBuffer_ c' = TcpConnection.inputBuffer_ c /\
    TcpConnection.callbacks_ c' = TcpConnection.callbacks_ c.
Proof.
  induction ms as [|m ms IH]; intros answers c Hwf Hst Hans Hok.
  { do 2 eexists. split; [done|]. simpl. by rewrite app_nil_r. }
  cbn [sends TcpConnection.run_ok TcpConnection.run_log] in *. destruct Hok as [He Hok].
  set (r := default _ _) in *.
  assert (Hr : sane r) by (destruct Hans; [reflexivity | done]).
  destruct (wp_elim _ _ _ (TcpConnection.run_event_spec c _ Hwf He)) as ([] & c1 & es & E & Hwf1 & _ & T).
  pose proof (keeps_send _ _ _ _ _ _ E) as (K1 & K2 & K3). rewrite E in Hok |- *. cbn [obind] in *.
  destruct (IH (tail answers) c1) as (c2 & l & -> & Hwf2 & Hw & Hst2 & Hi & Hcb);
    [done | congruence | by destruct Hans | done|]. cbn [obind].
  do 2 eexists. split; [done|]. cbn [TcpConnection.l_effects]. split_and!; [done| |congruence..].
  rewrite TcpConnection.written_app, <- app_assoc, Hw, app_assoc, (TcpConnection.tr_bytes _ _ _ _ _ _ _ T).
  rewrite <- app_assoc. cbn [concat]. f_equal. f_equal.
  unfold TcpConnection.accepted, TcpConnection.sends, TcpConnection.connected, TcpConnection.is_state.
  rewrite bool_decide_eq_true_2 by done. unfold sane in Hr. by rewrite Hr, andb_false_r.
Qed.

(** ** The invariant between two events *)

(** The requests [rs] and nothing else are still to be parsed, of the bytes that are in
    the input buffer and those that will arrive; the buffer alone holds no whole one. *)
Record inv (s : t) (coming : bytes) (rs : list (bytes * bytes)) : Prop := {
  inv_wf : TcpConnection.wf (tcp s);
  inv_up : TcpConnection.state_ (tcp s) = TcpConnection.kConnected;
  inv_callback : TcpConnection.messageCallback_ (TcpConnection.callbacks_ (tcp s)) = true;
  inv_between : WebChat.between (WebChat.parser_of (chat s) conn);
  inv_parsed : exists k, WebChat.parseRequests k (WebChat.parser_of (chat s) conn)
      (Buffer.contents (TcpConnection.inputBuffer_ (tcp s))) =
    Ok (false, [], WebChat.parser_of (chat s) conn,
        Buffer.contents (TcpConnection.inputBuffer_ (tcp s)));
  inv_coming : exists n, WebChat.parseRequests n (WebChat.parser_of (chat s) conn)
      (Buffer.contents (TcpConnection.inputBuffer_ (tcp s)) ++ coming) =
    Ok (false, rs, HttpParser.make, []);
}.

(** What was parsed is parsed: a second pass over what is left finds nothing. *)
Lemma parsed_again k p (s : bytes) rs p' s' :
  WebChat.between p -> WebChat.parseRequests k p s = Ok (false, rs, p', s') -> WebChat.between p' ->
  exists k', WebChat.parseRequests k' p' s' = Ok (false, [], p', s').
Proof.
  intros Hp Hk Hp'. set (m := S (S (length s'))).
  destruct (WebChat.parseRequests_total m p' s' Hp') as (mal & rs2 & p2 & s2 & Hm & _); [split; lia|].
  exists m. pose proof Hm as Hm'. rewrite <- (app_nil_r s') in Hm'.
  destruct (WebChat.parseRequests_resumes _ _ _ _ _ _ _ _ _ _ _ _ Hp Hk Hm') as [j Hj].
  rewrite app_nil_r in Hj. pose proof (WebChat.parseRequests_unique _ _ _ _ _ _ Hk Hj) as E.
  simplify_eq. rewrite Hm. assert (rs2 = []) as -> by (apply (app_inv_head rs); by rewrite app_nil_r). done.
Qed.

(** The output of a step: the bytes written and queued grow by the messages [out]. *)
Definition outputs (c : TcpConnection.t) (es : list TcpConnection.effect) (c' : TcpConnection.t)
    (out : list bytes) : Prop :=
  TcpConnection.written es ++ Buffer.contents (TcpConnection.outputBuffer_ c') =
    Buffer.contents (TcpConnection.outputBuffer_ c) ++ concat out.

Definition member (s : t) : bool := bool_decide (conn ∈ WebChat.connections_ (chat s)).

Lemma arrive_step s d0 d1 timerId answers coming rs :
  inv s ((d0 ++ d1) ++ coming) rs -> enabled (Arrive d0 d1 timerId answers) s ->
  exists s' es rs1 rs2, step (Arrive d0 d1 timerId answers) s = Ok (s', es) /\
    rs = rs1 ++ rs2 /\ inv s' coming rs2 /\ member s' = member s /\
    outputs (tcp s) es (tcp s') (responses (member s) rs1).
Proof.
  intros [Hwf Hst Hcb Hp _ [n Hn]] (Hne & Hok & Hans).
  destruct (handleRead_data _ _ _ Hwf Hok Hne Hcb) as (b & Hr & Hb & Hc).
  cbn [step]. rewrite Hr in Hans |- *. cbn [obind calls_message existsb orb] in *.
  destruct (TcpConnection.set_input_spec (tcp s) b Hwf Hb) as [Hwf1 _].
  set (s1 := mk (chat s) _) in *. destruct Hans as [Hsane Hans]. unfold onMessage.
  change (TcpConnection.inputBuffer_ (tcp s1)) with b in *.
  destruct (wp_elim _ _ _ (WebChat.onMessage_spec peer (chat s1) conn b
    (TcpConnection.state_ (tcp s1)) timerId Hp Hb)) as
    (b' & chat' & es & E & k & mal & rs1 & p' & Hk & Hp' & Hb' & _ & Hps & Hcs & Hsent & Hshut).
  pose proof (gentle_onMessage b _ _ _ _ _ _ E) as Hg. rewrite E in Hans |- *. cbn [obind].
  change (chat s1) with (chat s) in *. rewrite app_assoc, <- Hc in Hn.
  destruct (WebChat.parseRequests_split _ _ _ _ _ _ _ _ _ _ _ _ Hp Hn Hk Hp') as (-> & m & rs2 & -> & Hm).
  rewrite (calls_sends es answers Hg Hshut) in Hans |- *.
  destruct (TcpConnection.set_input_spec (tcp s1) b' Hwf1 Hb') as [Hwf2 _].
  destruct (run_sends _ answers (TcpConnection.set_input b' (tcp s1)) Hwf2 Hst Hsane Hans)
    as (c2 & l & -> & Hwf3 & Hw & Hst3 & Hi & Hcb3). cbn [obind].
  assert (Hpo : WebChat.parser_of chat' conn = p') by (unfold WebChat.parser_of; by rewrite Hps, lookup_insert_eq).
  do 2 eexists. exists rs1, rs2. split; [done|]. split; [done|]. split_and!.
  - split; cbn [chat tcp]; rewrite ?Hpo, ?Hi; try done.
    + by rewrite Hcb3.
    + exact (parsed_again _ _ _ _ _ _ Hp Hk Hp').
    + by exists m.
  - unfold member. cbn [chat]. by rewrite Hcs.
  - unfold outputs. cbn [tcp]. rewrite Hsent in Hw. cbn [WebChat.outcome_sent] in Hw.
    by rewrite to_conn_responses in Hw.
Qed.

(** A step of the connection alone. *)
Lemma tcp_step s (m : TcpConnection.M unit) e coming rs :
  inv s coming rs -> TcpConnection.run_event e = m -> TcpConnection.event_ok (tcp s) e -> keeps m ->
  exists c es, m (tcp s) = Ok (tt, c, es) /\ inv (mk (chat s) c) coming rs /\
    TcpConnection.written es ++ Buffer.contents (TcpConnection.outputBuffer_ c) =
      Buffer.contents (TcpConnection.outputBuffer_ (tcp s)) ++ TcpConnection.accepted (tcp s) e.
Proof.
  intros [Hwf Hst Hcb Hp Hq Hn] Hm Hok Hk.
  destruct (wp_elim _ _ _ (TcpConnection.run_event_spec _ e Hwf Hok)) as ([] & c & es & E & Hwf1 & _ & T).
  rewrite Hm in E. destruct (Hk _ _ _ _ E) as (K1 & K2 & K3).
  exists c, es. split; [done|]. split; [|apply T].
  split; cbn [chat tcp]; rewrite ?K1, ?K2, ?K3; done.
Qed.

(** One step: the messages it adds to the output are the responses to the requests it
    completes, or the one it relays. *)
Lemma served_step e s coming rs :
  inv s ((match e with Arrive d0 d1 _ _ => d0 ++ d1 | _ => [] end) ++ coming) rs -> enabled e s ->
  exists s' es rs1 rs2 out, step e s = Ok (s', es) /\
    rs = rs1 ++ rs2 /\ inv s' coming rs2 /\ member s' = member s /\
    outputs (tcp s) es (tcp s') out /\
    merged (responses (member s) rs1) (relayed [e]) out.
Proof.
  intros Hs He. destruct e as [d0 d1 timerId answers|w f|r m|chat'].
  - destruct (arrive_step _ _ _ _ _ _ _ Hs He) as (s' & es & rs1 & rs2 & E & -> & Hs' & Hm & Ho).
    do 5 eexists. split; [exact E|]. split_and!; try done. apply merged_own.
  - destruct (tcp_step s (TcpConnection.handleWrite w f) (TcpConnection.EvWrite w f) _ _ Hs eq_refl He (keeps_handleWrite w f))
      as (c & es & E & Hs' & Ho).
    exists (mk (chat s) c), es, [], rs, []. cbn [step]. rewrite E. split_and!; try done. constructor.
  - destruct He as [Hsend Hr].
    destruct (tcp_step s (TcpConnection.sendInLoop r m) (TcpConnection.EvSendInLoop r m) _ _ Hs eq_refl)
      as (c & es & E & Hs' & Ho); [| |].
    { split; [done|]. by rewrite (inv_up _ _ _ Hs). }
    { apply keeps_sendInLoop. }
    exists (mk (chat s) c), es, [], rs, [m]. cbn [step]. rewrite E. split_and!; try done.
    + unfold outputs. cbn [tcp]. rewrite Ho. f_equal.
      unfold TcpConnection.accepted, TcpConnection.sends, TcpConnection.disconnected, TcpConnection.is_state.
      rewrite (inv_up _ _ _ Hs), bool_decide_eq_false_2 by done.
      unfold sane in Hr. rewrite Hr, andb_false_r. simpl. by rewrite app_nil_r.
    + repeat constructor.
  - destruct He as [Hp Hm]. exists (mk chat' (tcp s)), [], [], rs, []. cbn [step].
    destruct Hs as [Hwf Hst Hcb Hpb Hq Hn]. split_and!; try done.
    + split; cbn [chat tcp]; rewrite ?Hp; done.
    + unfold member. cbn [chat]. by apply bool_decide_ext.
    + unfold outputs. simpl. by rewrite app_nil_r.
    + constructor.
Qed.

Lemma served_run evs : forall s rs,
  inv s (arrived evs) rs -> run_enabled evs s ->
  exists s' es out, run evs s = Ok (s', es) /\ inv s' [] [] /\
    outputs (tcp s) es (tcp s') out /\
    merged (responses (member s) rs) (relayed evs) out.
Proof.
  induction evs as [|e evs IH]; intros s rs Hs Hen.
  - pose proof Hs as [_ _ _ _ [k Hk] [n Hn]]. simpl in Hn. rewrite app_nil_r in Hn.
    pose proof (WebChat.parseRequests_unique _ _ _ _ _ _ Hk Hn) as E. injection E as <- _ _.
    exists s, [], []. split_and!; [done | done | | constructor].
    unfold outputs. simpl. by rewrite app_nil_r.
  - destruct Hen as [He Hen].
    destruct (served_step e s (arrived evs) rs Hs He)
      as (s1 & es1 & rs1 & rs2 & out1 & E & -> & Hs1 & Hm1 & Ho1 & Hg1).
    rewrite E in Hen. destruct (IH s1 rs2 Hs1 Hen) as (s2 & es2 & out2 & E2 & Hs2 & Ho2 & Hg2).
    exists s2, (es1 ++ es2), (out1 ++ out2). cbn [run]. rewrite E. cbn [obind]. rewrite E2. cbn [obind].
    split_and!; [done | done | |].
    + unfold outputs in *. rewrite TcpConnection.written_app, <- app_assoc, Ho2, app_assoc, Ho1.
      by rewrite concat_app, <- app_assoc.
    + unfold responses. rewrite flat_map_app. rewrite Hm1 in Hg2.
      change (relayed (e :: evs)) with (relayed ([e] ++ evs)).
      unfold relayed. rewrite omap_app. by apply merged_app.
Qed.

(** ** Properties *)

(** C1. The server end to end: whatever way the kernel cuts a stream of well-formed
    requests into reads, takes the bytes of the responses, and interleaves this with the
    other connections, the bytes written to the socket followed by those still queued are
    the responses to the requests, in order, merged with the messages relayed from other
    connections, in order, each message whole; every request is consumed, the parser is
    fresh, and the connection is still up. *)
Theorem requests_served (rs : list HttpParser.request) (evs : list event) (s : t) :
  Forall HttpParser.valid_request rs ->
  arrived evs = WebChat.stream rs ->
  TcpConnection.wf (tcp s) ->
  TcpConnection.state_ (tcp s) = TcpConnection.kConnected ->
  TcpConnection.messageCallback_ (TcpConnection.callbacks_ (tcp s)) = true ->
  Buffer.contents (TcpConnection.inputBuffer_ (tcp s)) = [] ->
  Buffer.contents (TcpConnection.outputBuffer_ (tcp s)) = [] ->
  WebChat.parser_of (chat s) conn = HttpParser.make ->
  run_enabled evs s ->
  exists s' es out, run evs s = Ok (s', es) /\
    TcpConnection.written es ++ Buffer.contents (TcpConnection.outputBuffer_ (tcp s')) = concat out /\
    merged (responses (member s) (map WebChat.request_of rs)) (relayed evs) out /\
    Buffer.contents (TcpConnection.inputBuffer_ (tcp s')) = [] /\
    WebChat.parser_of (chat s') conn = HttpParser.make /\
    TcpConnection.state_ (tcp s') = TcpConnection.kConnected.
Proof.
  intros Hv Ha Hwf Hst Hcb Hin Hout Hp Hen.
  destruct (WebChat.parseRequests_stream rs Hv) as [n Hn].
  destruct (served_run evs s (map WebChat.request_of rs)) as (s' & es & out & E & Hs' & Ho & Hm); [|done|].
  - split; try done; rewrite ?Hp, ?Hin; [apply WebChat.between_make | | exists n; by rewrite Ha].
    exists 1%nat. apply WebChat.parseRequests_nothing. lia.
  - exists s', es, out. unfold outputs in Ho. rewrite Hout in Ho.
    destruct Hs' as [_ Hst' _ _ [k Hk] [m Hm']]. rewrite app_nil_r in Hm'.
    pose proof (WebChat.parseRequests_unique _ _ _ _ _ _ Hk Hm') as Eq. injection Eq as Ep Ei.
    by split_and!.
Qed.

End served.

(** Two requests in two reads; the socket first takes 100 bytes of the page, then is full;
    a broadcast from another connection comes in between. *)
Definition empty_buffer : Buffer.t := Buffer.mk (replicate 200 (chr 0)) 8 8.

Definition test_tcp : TcpConnection.t :=
  TcpConnection.mk (-1) 0 0 4096 8192 false TcpConnection.kConnected (Channel.mk 7 1 0 true true)
    (TcpConnection.Callbacks true true true false false true) empty_buffer empty_buffer.

Definition test_server : t := mk (WebChat.mk {[1]} ∅ ∅) test_tcp.

Definition test_bytes : bytes := WebChat.stream WebChat.two_requests.

Definition test_events : list event :=
  [Elsewhere (WebChat.mk {[1; 2]} ∅ ∅);
   Arrive (take 60 test_bytes) [] 1 [SysOk 100];
   Writable (SysOk 200) (SysOk 0);
   Relayed (SysErr EAGAIN) (str "Broadcast: hi");
   Writable (SysErr EAGAIN) (SysOk 0);
   Arrive (drop 60 test_bytes) [] 2 [SysOk 5]].

(** One event that the environment may do, by evaluation. *)
Ltac enabled_now :=
  vm_compute; split_and!; try discriminate; try reflexivity;
  try (repeat constructor; done);
  try (split; first [discriminate | reflexivity | by intros [] | done]).

Lemma test_events_enabled : run_enabled WebChat.test_peer 1 test_events test_server.
Proof.
  unfold test_events. cbn [run_enabled]. split; [split; [reflexivity | set_solver]|].
  cbn [step]. cbv iota.
  repeat (cbn [run_enabled]; split;
    [try (by enabled_now) | match goal with |- match ?m with Ok _ => _ | Fault _ => _ end =>
       let r := eval vm_compute in m in change m with r; cbv iota end]).
  exact I.
Qed.

Lemma test_tcp_wf : TcpConnection.wf test_tcp.
Proof.
  assert (Buffer.wf empty_buffer) by (split; zclosed).
  split; [split|]; try done; by intros ? [?|Hf]; [|vm_compute in Hf].
Qed.

Lemma requests_served_witness :
  exists s' es out, run WebChat.test_peer 1 test_events test_server = Ok (s', es) /\
    TcpConnection.written es ++ Buffer.contents (TcpConnection.outputBuffer_ (tcp s')) = concat out /\
    merged (responses WebChat.test_peer 1 true (map WebChat.request_of WebChat.two_requests))
      [str "Broadcast: hi"] out /\
    Buffer.contents (TcpConnection.inputBuffer_ (tcp s')) = [] /\
    WebChat.parser_of (chat s') 1 = HttpParser.make /\
    TcpConnection.state_ (tcp s') = TcpConnection.kConnected.
Proof.
  apply (requests_served WebChat.test_peer 1 WebChat.two_requests test_events test_server).
  - apply Forall_cons. split; [apply WebChat.get_page_valid|].
    apply Forall_singleton, HttpParser.post_chat_valid.
  - vm_compute. reflexivity.
  - apply test_tcp_wf.
  - reflexivity.
  - reflexivity.
  - reflexivity.
  - reflexivity.
  - reflexivity.
  - apply test_events_enabled.
Defined.

End Served.
