(* ===== verification/Behaviour.v ===== *)
(** * Behaviour: what the operations of a connection lead to

    An operation of [TcpConnection] ends in callbacks of the user and of the server and in
    functors that it queues; [acts] are these, in order.  What they can be is known without
    looking at the bytes: an operation of the loop does nothing, delivers a message, or ends
    the connection; a method that a handler calls only queues.  No operation asks epoll for
    anything but EPOLLIN and EPOLLOUT.  All this is about every result that an operation has
    ([wlp]); that it has one is in TcpConnection. *)

From S2P Require Import Prelude Buffer InputQueue HttpParser Channel TcpConnection Duration TimerQueue.
From S2P Require Import EventLoop CrossThread TcpServer Digits HttpReader WebChat.

Module Behaviour.

#[local] Existing Instance TcpConnection.StateE_eq_dec.

(** What an operation of a connection makes others do, in order. *)
Inductive act := ACall (cb : TcpConnection.callback) | AQueue (f : TcpConnection.functor).

Definition acts (es : list TcpConnection.effect) : list act :=
  omap (fun e => match e with
    | TcpConnection.ECall cb => Some (ACall cb)
    | TcpConnection.EQueueInLoop f => Some (AQueue f)
    | _ => None
    end) es.

(** ** Lemmas: what the operations of a connection make others do *)

Definition callbacks : TcpConnection.callbacks := TcpServer.callbacks true false.

Lemma acts_app es es' : acts (es ++ es') = acts es ++ acts es'.
Proof. apply omap_app. Qed.
Lemma acts_epoll cs : acts (map TcpConnection.EEpoll cs) = [].
Proof. induction cs as [|c cs IH]; [done | exact IH]. Qed.

Create Rewrite HintDb acts.
#[export] Hint Rewrite acts_app acts_epoll app_nil_r : acts.

Lemma queued_acts es fs : acts es = map AQueue fs -> CrossThread.queued es = fs.
Proof.
  revert fs. induction es as [|e es IH]; intros fs; [by destruct fs|].
  destruct e as [c|d|fd o n|fd| |f|cb]; simpl; try apply IH; (destruct fs as [|f' fs]; [done|]); [|done].
  intros [= -> H]. f_equal. by apply IH.
Qed.

Lemma not_closing es : Forall (fun a => a <> ACall TcpConnection.CClose) (acts es) ->
  existsb TcpServer.is_close es = false.
Proof.
  induction es as [|e es IH]; [done|].
  destruct e as [c|d|fd o n|fd| |f|cb]; simpl; try done; rewrite ?Forall_cons; [by intros [_ ?]; apply IH|].
  intros [H ?]. destruct cb; try done; by apply IH.
Qed.

(** An operation that calls nothing back, queues nothing and keeps the state. *)
Definition silent {A} (m : TcpConnection.M A) : Prop :=
  forall c, TcpConnection.callbacks_ c = callbacks ->
    wlp m c (fun _ c' es => acts es = [] /\ TcpConnection.state_ c' = TcpConnection.state_ c /\
      TcpConnection.callbacks_ c' = callbacks).

(** Runs an operation and looks at what it did. *)
Ltac look :=
  TcpConnection.wlp_run; autorewrite with acts; TcpConnection.fields;
  repeat match goal with
  | H : TcpConnection.callbacks_ _ = callbacks, H' : context [TcpConnection.callbacks_ _] |- _ =>
      rewrite H in H'
  end; simpl in *; rewrite ?andb_false_r in *; try done.

Lemma silent_writeOutput r : silent (TcpConnection.writeOutput r).
Proof. intros c Hcb. unfold TcpConnection.writeOutput. look. Qed.
Lemma silent_writeFile r : silent (TcpConnection.writeFile r).
Proof. intros c Hcb. unfold TcpConnection.writeFile. look. Qed.
Lemma silent_notifyLow : silent TcpConnection.notifyLowWaterMark.
Proof. intros c Hcb. unfold TcpConnection.notifyLowWaterMark. look. Qed.
Lemma silent_finishWrite : silent TcpConnection.finishWrite.
Proof. intros c Hcb. unfold TcpConnection.finishWrite, TcpConnection.shutdownInLoop. look. Qed.
Lemma silent_directWrite r m : silent (TcpConnection.directWrite r m).
Proof. intros c Hcb. unfold TcpConnection.directWrite. look. Qed.
Lemma silent_notifyHigh : silent TcpConnection.notifyHighWaterMark.
Proof. intros c Hcb. unfold TcpConnection.notifyHighWaterMark. look. Qed.

Lemma silent_bind {A B} (m : TcpConnection.M A) (k : A -> TcpConnection.M B) :
  silent m -> (forall a, silent (k a)) -> silent (st_bind m k).
Proof.
  intros Hm Hk c Hcb. apply wlp_bind. eapply wlp_mono; [by apply Hm|]. intros a c1 e1 (E1 & S1 & C1).
  eapply wlp_mono; [by apply Hk|]. intros b c2 e2 (E2 & S2 & C2). rewrite acts_app, E1, E2. by split_and!; [|congruence|].
Qed.
Lemma silent_ret {A} (a : A) : silent (st_ret a).
Proof. intros c Hcb. by apply wlp_ret. Qed.
Lemma silent_when b m : silent m -> silent (st_when b m).
Proof. destruct b; [done|]. intros _. apply silent_ret. Qed.

Lemma silent_handleWrite w f : silent (TcpConnection.handleWrite w f).
Proof.
  unfold TcpConnection.handleWrite. apply silent_bind; [intros c Hcb; by apply wlp_get|]. intros c.
  destruct (negb _); [apply silent_ret|]. apply silent_bind; [apply silent_writeOutput|]. intros go.
  destruct (negb go); [apply silent_ret|]. apply silent_bind; [apply silent_notifyLow|]. intros _.
  apply silent_bind; [apply silent_writeFile|]. intros go'.
  destruct (negb go'); [apply silent_ret | apply silent_finishWrite].
Qed.

Lemma silent_sendInLoop r m : silent (TcpConnection.sendInLoop r m).
Proof.
  unfold TcpConnection.sendInLoop. apply silent_bind; [intros c Hcb; by apply wlp_get|]. intros c.
  destruct (TcpConnection.is_state _ c); [apply silent_ret|].
  apply silent_bind; [apply silent_directWrite|]. intros [[n rem] fault]. apply silent_when.
  apply silent_bind; [intros c1 Hcb; unfold TcpConnection.queueOutput; look|]. intros _.
  apply silent_bind; [apply silent_notifyHigh|]. intros _. intros c1 Hcb. unfold TcpConnection.armWriting. look.
Qed.

(** What an operation of the loop leads to: nothing, a message, or the end of the
    connection. *)
Inductive behaves (reads : bool) (c c' : TcpConnection.t) : list act -> Prop :=
| behaves_silent : TcpConnection.state_ c' = TcpConnection.state_ c -> behaves reads c c' []
| behaves_message : reads = true -> TcpConnection.state_ c' = TcpConnection.state_ c ->
    behaves reads c c' [ACall TcpConnection.CMessage]
| behaves_close : TcpConnection.state_ c <> TcpConnection.kDisconnected ->
    TcpConnection.state_ c' = TcpConnection.kDisconnected ->
    behaves reads c c' [ACall TcpConnection.CConnection; ACall TcpConnection.CClose].

Lemma handleClose_behaves reads c :
  TcpConnection.callbacks_ c = callbacks ->
  wlp TcpConnection.handleClose c (fun _ c' es => behaves reads c c' (acts es)).
Proof.
  intros Hcb. unfold TcpConnection.handleClose. wlp_step. wlp_step.
  destruct (TcpConnection.is_state _ c) eqn:E; [apply wlp_ret; by constructor|].
  apply TcpConnection.is_state_false in E. rewrite Hcb.
  TcpConnection.wlp_run; try done; autorewrite with acts; by constructor.
Qed.

(** The operations that a loop runs for its channels and its functors. *)
Definition of_loop (e : TcpConnection.event) : Prop :=
  match e with
  | TcpConnection.EvRead _ | TcpConnection.EvWrite _ _ | TcpConnection.EvClose
  | TcpConnection.EvSendInLoop _ _ | TcpConnection.EvForceCloseInLoop => True
  | _ => False
  end.

Definition is_read (e : TcpConnection.event) : bool :=
  match e with TcpConnection.EvRead _ => true | _ => false end.

Lemma silent_behaves reads m c :
  silent m -> TcpConnection.callbacks_ c = callbacks ->
  wlp m c (fun (_ : unit) c' es => behaves reads c c' (acts es)).
Proof.
  intros Hm Hcb. eapply wlp_mono; [by apply Hm|]. intros _ c' es (-> & Hs & _). by constructor.
Qed.

Lemma loop_behaves e c :
  of_loop e -> TcpConnection.callbacks_ c = callbacks ->
  wlp (TcpConnection.run_event e) c (fun _ c' es => behaves (is_read e) c c' (acts es)).
Proof.
  intros He Hcb. destruct e; try done; cbn [TcpConnection.run_event].
  - unfold TcpConnection.handleRead. wlp_step. wlp_step. wlp_step. wlp_step. destruct a as [[b n] err].
    wlp_step. wlp_step. destruct (0 <? n); [rewrite Hcb; look; by constructor|].
    destruct (n =? 0); [|apply wlp_ret; by constructor]. cbn [app].
    eapply wlp_mono; [by apply handleClose_behaves|]. by intros _ c1 es []; constructor.
  - apply silent_behaves; [apply silent_handleWrite | done].
  - by apply handleClose_behaves.
  - apply silent_behaves; [apply silent_sendInLoop | done].
  - unfold TcpConnection.forceCloseInLoop. wlp_step. wlp_step. apply wlp_when; intros _; [|by constructor].
    by apply handleClose_behaves.
Qed.

Lemma established_acts c :
  TcpConnection.callbacks_ c = callbacks ->
  wlp TcpConnection.connectEstablished c (fun _ c' es =>
    TcpConnection.state_ c' = TcpConnection.kConnected /\ acts es = [ACall TcpConnection.CConnection]).
Proof. intros Hcb. unfold TcpConnection.connectEstablished. look. Qed.

Lemma destroyed_acts c :
  TcpConnection.state_ c = TcpConnection.kDisconnected ->
  wlp TcpConnection.connectDestroyed c (fun _ c' es =>
    TcpConnection.state_ c' = TcpConnection.kDisconnected /\ acts es = []).
Proof.
  intros Hd. unfold TcpConnection.connectDestroyed, TcpConnection.is_state.
  wlp_step. wlp_step. rewrite Hd. rewrite !bool_decide_eq_false_2 by done. look.
Qed.

(** The methods that the handlers call: the state they leave, and what they queue. *)
Definition method_state (e : TcpConnection.event) (st : TcpConnection.StateE) : TcpConnection.StateE :=
  match e with
  | TcpConnection.EvShutdown _ => WebChat.shutdown_state st
  | TcpConnection.EvForceClose => WebChat.forceClose_state st
  | _ => st
  end.

Definition method_queues (e : TcpConnection.event) (st : TcpConnection.StateE) : list TcpConnection.functor :=
  match e with
  | TcpConnection.EvSend false _ m => if WebChat.connected st then [TcpConnection.FSendInLoop m] else []
  | TcpConnection.EvForceClose =>
      if WebChat.connected st || bool_decide (st = TcpConnection.kDisconnecting)
      then [TcpConnection.FForceCloseInLoop] else []
  | _ => []
  end.

Definition is_method (e : TcpConnection.event) : Prop :=
  match e with
  | TcpConnection.EvSend _ _ _ | TcpConnection.EvShutdown true | TcpConnection.EvForceClose => True
  | _ => False
  end.

Lemma method_behaves e c :
  is_method e -> TcpConnection.callbacks_ c = callbacks ->
  wlp (TcpConnection.run_event e) c (fun _ c' es =>
    TcpConnection.state_ c' = method_state e (TcpConnection.state_ c) /\
    acts es = map AQueue (method_queues e (TcpConnection.state_ c))).
Proof.
  intros He Hcb. destruct e as [| | | | |b r m| | | |[]| |  | |]; try done; cbn [TcpConnection.run_event].
  - unfold TcpConnection.send. wlp_step. wlp_step. cbn [method_state method_queues].
    change (WebChat.connected (TcpConnection.state_ c)) with (TcpConnection.is_state TcpConnection.kConnected c).
    apply wlp_when; intros ->; [|by destruct b]. destruct b; [|by apply wlp_tell].
    eapply wlp_mono; [by apply silent_sendInLoop|]. intros _ c' es (E & S & _). by rewrite acts_app, E.
  - unfold TcpConnection.shutdown, TcpConnection.shutdown_set, TcpConnection.shutdownInLoop. cbn [method_state method_queues].
    unfold WebChat.shutdown_state.
    change (WebChat.connected (TcpConnection.state_ c)) with (TcpConnection.is_state TcpConnection.kConnected c).
    wlp_step. wlp_step. apply wlp_when; intros ->; [cbn [TcpConnection.runInLoop]; look|done].
  - unfold TcpConnection.forceClose. cbn [method_state method_queues].
    wlp_step. wlp_step. unfold TcpConnection.is_state, WebChat.connected.
    unfold TcpConnection.queueInLoop. destruct (TcpConnection.state_ c) eqn:Es; look.
Qed.

(** ** Lemmas: what a channel asks epoll for *)

(** Only EPOLLIN and EPOLLOUT. *)
Definition asked (c : Channel.t) : Prop :=
  forall n, Z.testbit (Channel.events_ c) n = true -> n = 0 \/ n = 2.

Definition asks (m : Channel.M unit) : Prop := forall c, asked c -> wlp m c (fun _ c' _ => asked c').

Lemma asks_update f :
  (forall e n, Z.testbit (f e) n = true -> Z.testbit e n = true \/ n = 0 \/ n = 2) ->
  asks (Channel.set_and_update f).
Proof.
  intros Hf c Hc. assert (H : asked (Channel.set_events (f (Channel.events_ c)) c)).
  { intros n Hn. destruct (Hf _ _ Hn) as [Hn'|]; [by apply Hc | done]. }
  unfold Channel.set_and_update, Channel.update, Channel.updateChannel. by wlp_steps.
Qed.

Lemma testbit_pow2 k n : 0 <= k -> Z.testbit (2 ^ k) n = true -> n = k.
Proof. intros Hk. rewrite Z.pow2_bits_eqb by done. intros H. by apply Z.eqb_eq in H. Qed.

Lemma asks_enableReading : asks Channel.enableReading.
Proof.
  apply asks_update. intros e n. rewrite Z.lor_spec. intros [|H]%orb_true_iff; [by left|].
  right; left. by apply (testbit_pow2 0).
Qed.
Lemma asks_enableWriting : asks Channel.enableWriting.
Proof.
  apply asks_update. intros e n. rewrite Z.lor_spec. intros [|H]%orb_true_iff; [by left|].
  right; right. by apply (testbit_pow2 2).
Qed.
Lemma asks_disableWriting : asks Channel.disableWriting.
Proof. apply asks_update. intros e n. rewrite Z.land_spec. intros [H _]%andb_true_iff. by left. Qed.
Lemma asks_disableAll : asks Channel.disableAll.
Proof. apply asks_update. intros e n. by rewrite Z.bits_0. Qed.
Lemma asks_remove : asks Channel.remove.
Proof.
  intros c Hc. unfold Channel.remove. apply wlp_bind. eapply wlp_mono; [by apply asks_disableAll|].
  intros [] c1 e1 H1. unfold Channel.removeChannel. wlp_steps; exact H1.
Qed.

Create HintDb asks.
#[export] Hint Resolve asks_enableReading asks_enableWriting asks_disableWriting asks_disableAll
  asks_remove : asks.

(** An operation of a connection keeps this. *)
Definition asking {A} (m : TcpConnection.M A) : Prop :=
  forall c, asked (TcpConnection.channel_ c) -> wlp m c (fun _ c' _ => asked (TcpConnection.channel_ c')).

Lemma asking_bind {A B} (m : TcpConnection.M A) (k : A -> TcpConnection.M B) :
  asking m -> (forall a, asking (k a)) -> asking (st_bind m k).
Proof.
  intros Hm Hk c Hc. apply wlp_bind. eapply wlp_mono; [by apply Hm|]. intros a c1 e1 H1.
  eapply wlp_mono; [by apply Hk|]. by intros b c2 e2 H2.
Qed.
Lemma asking_modify f :
  (forall c, asked (TcpConnection.channel_ c) -> asked (TcpConnection.channel_ (f c))) -> asking (st_modify f).
Proof. intros Hf c Hc. apply wlp_modify. by apply Hf. Qed.
Lemma asking_when b m : asking m -> asking (st_when b m).
Proof. destruct b; [done|]. intros _ c Hc. by apply wlp_ret. Qed.
Lemma asking_on_channel m : asks m -> asking (TcpConnection.on_channel m).
Proof.
  intros Hm c Hc a c' es. unfold TcpConnection.on_channel.
  destruct (m (TcpConnection.channel_ c)) as [[[[] ch] cs]|] eqn:E; [|done]. intros [= <- <- <-].
  exact (Hm _ Hc _ _ _ E).
Qed.

Ltac asking_tac := repeat (
  lazymatch goal with
  | |- asking (st_bind _ _) => apply asking_bind; [|intros ?]
  | |- asking (st_ret _) => by intros ? ?; apply wlp_ret
  | |- asking st_get => by intros ? ?; apply wlp_get
  | |- asking (st_tell _) => by intros ? ?; apply wlp_tell
  | |- asking (st_lift _) => by intros ? ?; apply wlp_lift
  | |- asking (st_modify _) => by apply asking_modify
  | |- asking (st_when _ _) => apply asking_when
  | |- asking (TcpConnection.on_channel _) => apply asking_on_channel; auto with asks
  | |- asking (if ?b then _ else _) => destruct b
  | |- asking (match ?x with _ => _ end) => destruct x
  | |- asking ?m => let h := CrossThread.head_of m in unfold h
  end).

Lemma asking_event e : asking (TcpConnection.run_event e).
Proof. destruct e; asking_tac. Qed.

End Behaviour.
