(* ===== verification/ChatSystem.v ===== *)
(** * ChatSystem: the chat server, all of its connections at once

    The composition of src/src/tcp/TcpServer.cpp, src/src/tcp/TcpConnection.cpp,
    src/src/net/Channel.cpp and src/main.cpp: the server accepts connections and spreads them
    over four loops; each is a [TcpConnection.t] whose channel, whose queued functors and
    whose timers call the handlers of [WebChatServer] in place; and the handlers call
    [send], [shutdown] and [forceClose] on connections of the same loop, where they act at
    once, and of other loops, where they queue a functor.  The functors of the server and
    those of the connections are two queues of a loop, each first in, first out; which of
    the two a loop serves next is free, so that the order of the one queue that the code
    has is among the runs.  A handler is one step of its loop. *)

From stdpp Require Import fin_maps sorting.
From S2P Require Import Prelude Buffer InputQueue HttpParser Channel TcpConnection Duration TimerQueue.
From S2P Require Import EventLoop CrossThread TcpServer Teardown Digits HttpReader WebChat Served Behaviour.

Module ChatSystem.

Import Behaviour.Behaviour.

#[local] Existing Instance TcpConnection.StateE_eq_dec.

Section system.
(** The base loop, the text of the listening address, the loops of the four threads, and the
    text of the address of each peer. *)
Variables (loop_ : Z) (ipPort_ : bytes) (threads : nat -> Z) (peer : Z -> bytes).

Abbreviation name_ := ChatServer.name.

(** The loop that the [p]-th connection is given to. *)
Definition loopOf (p : Z) : Z := threads (Z.to_nat ((p - 1) mod 4)).

(** A connection is named by its number, a timer by its loop and its identifier there.
    [functors]: the functors of connections that are queued on the loops, oldest first. *)
Record t := mk {
  server : TcpServer.t;
  chat : WebChat.t;
  armed : gmap (Z * Z) (Z * WebChat.timeout);    (** the timers that will fire *)
  used : gmap (Z * Z) (Z * WebChat.timeout);     (** all those made so far *)
  functors : list (Z * (Z * TcpConnection.functor));
}.

Definition set_server (v : TcpServer.t) (s : t) : t := mk v (chat s) (armed s) (used s) (functors s).
Definition set_chat (c : WebChat.t) (s : t) : t := mk (server s) c (armed s) (used s) (functors s).
Definition set_armed (m : gmap (Z * Z) (Z * WebChat.timeout)) (s : t) : t :=
  mk (server s) (chat s) m (used s) (functors s).
Definition set_functors (l : list (Z * (Z * TcpConnection.functor))) (s : t) : t :=
  mk (server s) (chat s) (armed s) (used s) l.

Definition object (p : Z) (s : t) : option TcpServer.conn := TcpServer.objects (server s) !! p.

(** A use of a connection that was never made is a fault. *)
Definition with_object {A} (p : Z) (s : t) (k : TcpServer.conn -> outcome A) : outcome A :=
  match object p s with Some o => k o | None => Fault NullDereference end.

Definition set_input (p : Z) (b : Buffer.t) (s : t) : t :=
  let v := server s in
  set_server (TcpServer.set_objects
    (alter (fun o => TcpServer.Conn (TcpServer.getLoop o) (TcpConnection.set_input b (TcpServer.tcp o)))
       p (TcpServer.objects v)) v) s.

(** [queueInLoop] by a connection. *)
Definition queue (p : Z) (f : TcpConnection.functor) (s : t) : outcome t :=
  with_object p s (fun o => Ok (set_functors (functors s ++ [(TcpServer.getLoop o, (p, f))]) s)).

(** A method that a handler calls on a connection; none of these calls a callback back. *)
Definition method (p : Z) (e : TcpConnection.event) (s : t) : outcome t :=
  let! (v, es) := TcpServer.run_tcp p e (server s) in
  ofold (queue p) (CrossThread.queued es) (set_server v s).

(** One call of a handler that runs on the loop [cur]; [x.2] is what [::write] answers to a
    [send] that writes at once. *)
Definition call (cur : Z) (x : WebChat.effect * sysret) (s : t) : outcome t :=
  match x.1 with
  | WebChat.ESend q m =>
      with_object q s (fun o => method q (TcpConnection.EvSend (TcpServer.getLoop o =? cur) x.2 m) s)
  | WebChat.EShutdown q =>
      with_object q s (fun o => method q (TcpConnection.EvShutdown (TcpServer.getLoop o =? cur)) s)
  | WebChat.EForceClose q => method q TcpConnection.EvForceClose s
  | WebChat.ERunAfter q _ k i =>
      with_object q s (fun o =>
        let key := (TcpServer.getLoop o, i) in
        Ok (mk (server s) (chat s) (<[key := (q, k)]> (armed s)) (<[key := (q, k)]> (used s)) (functors s)))
  | WebChat.ECancel q i =>
      with_object q s (fun o => Ok (set_armed (delete (TcpServer.getLoop o, i) (armed s)) s))
  | WebChat.ELog _ => Ok s
  end.

Fixpoint with_answers (es : list WebChat.effect) (answers : list sysret) : list (WebChat.effect * sysret) :=
  match es with
  | [] => []
  | e :: es => (e, default (SysErr EAGAIN) (head answers)) :: with_answers es (tail answers)
  end.

(** The calls of a handler that runs on the loop [cur]. *)
Definition perform (cur : Z) (es : list WebChat.effect) (answers : list sysret) (s : t) : outcome t :=
  ofold (call cur) (with_answers es answers) s.

(** [assertInLoopThread] of a connection, on the thread of the loop [cur]: it aborts. *)
Definition assertInLoopThread (cur p : Z) (s : t) : outcome unit :=
  with_object p s (fun o => if TcpServer.getLoop o =? cur then Ok tt else Fault AssertFailure).

(** The callbacks that a connection calls. *)
Definition onConnection (cur p : Z) (answers : list sysret) (timerId : Z) (s : t) : outcome t :=
  with_object p s (fun o =>
    let! (_, c, es) :=
      WebChat.onConnection peer p (TcpConnection.state_ (TcpServer.tcp o)) timerId (chat s) in
    perform cur es answers (set_chat c s)).

Definition onMessage (cur p : Z) (answers : list sysret) (timerId : Z) (s : t) : outcome t :=
  with_object p s (fun o =>
    let! (buf, c, es) :=
      WebChat.onMessage peer p (TcpConnection.inputBuffer_ (TcpServer.tcp o))
        (TcpConnection.state_ (TcpServer.tcp o)) timerId (chat s) in
    perform cur es answers (set_chat c (set_input p buf s))).

Definition onClose (p : Z) (s : t) : outcome t :=
  let! v := TcpServer.closeCallback loop_ name_ ipPort_ p (server s) in Ok (set_server v s).

Definition callback (cur p : Z) (answers : list sysret) (timerId : Z) (cb : TcpConnection.callback) (s : t)
    : outcome t :=
  match cb with
  | TcpConnection.CConnection => onConnection cur p answers timerId s
  | TcpConnection.CMessage => onMessage cur p answers timerId s
  | TcpConnection.CClose => onClose p s
  end.

Definition perform_act (cur p : Z) (answers : list sysret) (timerId : Z) (a : act) (s : t) : outcome t :=
  match a with
  | ACall cb => callback cur p answers timerId cb s
  | AQueue f => queue p f s
  end.

(** An operation of the connection [p] that the loop [cur] runs. *)
Definition operate (cur p : Z) (e : TcpConnection.event) (answers : list sysret) (timerId : Z) (s : t)
    : outcome t :=
  let! _ := assertInLoopThread cur p s in
  let! (v, es) := TcpServer.run_tcp p e (server s) in
  ofold (perform_act cur p answers timerId) (acts es) (set_server v s).

Definition operate_if (cur p : Z) (oe : option TcpConnection.event) (answers : list sysret) (timerId : Z)
    (s : t) : outcome t :=
  match oe with Some e => operate cur p e answers timerId s | None => Ok s end.

(** What happens.  [answers] are those of [::write] to the calls of [send] of the handlers,
    [timerId] is what [runAfter] returns if a handler calls it. *)
Inductive event :=
| Accept (answers : list sysret)                 (** [Acceptor::handleRead] on the base loop *)
| RunServer (loop : Z) (answers : list sysret) (timerId : Z)
    (** a loop runs its oldest functor of the server *)
| RunConn (loop : Z) (r : sysret) (answers : list sysret) (timerId : Z)
    (** a loop runs its oldest functor of a connection *)
| Ready (loop p revents : Z) (rd : Buffer.readv_result) (w f : sysret) (answers : list sysret) (timerId : Z)
    (** a loop calls [handleEvent] of a connection's channel *)
| Fire (loop fired : Z) (answers : list sysret) (timerId : Z).   (** a timer *)

Definition run_functor (cur : Z) (f : TcpServer.functor) (answers : list sysret) (timerId : Z) (s : t) : outcome t :=
  match f with
  | TcpServer.FEstablish p => operate cur p TcpConnection.EvEstablished answers timerId s
  | TcpServer.FErase p =>
      let! v := TcpServer.erase name_ ipPort_ p (server s) in Ok (set_server v s)
  | TcpServer.FDestroy p =>
      let! s := operate cur p TcpConnection.EvDestroyed answers timerId s in
      Ok (set_server (TcpServer.set_destroyed (TcpServer.destroyed (server s) ++ [p]) (server s)) s)
  end.

(** The function that a timer was made with. *)
Definition timeout_handler (p : Z) (k : WebChat.timeout) (st : TcpConnection.StateE) (timerId : Z)
    : WebChat.M unit :=
  match k with
  | WebChat.IdleTimeout => WebChat.handleIdleTimeout peer p st timerId
  | WebChat.ForceCloseTimeout => WebChat.handleForceCloseTimeout peer p st
  end.

Definition run_timeout (cur p : Z) (k : WebChat.timeout) (answers : list sysret) (timerId : Z) (s : t)
    : outcome t :=
  with_object p s (fun o =>
    let! (_, c, es) := timeout_handler p k (TcpConnection.state_ (TcpServer.tcp o)) timerId (chat s) in
    perform cur es answers (set_chat c s)).

Definition handler (cur p : Z) (rd : Buffer.readv_result) (w f : sysret) (answers : list sysret) (timerId : Z)
    (cb : Channel.callback) (s : t) : outcome t :=
  operate_if cur p (CrossThread.handler_event cb rd w f) answers timerId s.

Definition step (e : event) (s : t) : outcome t :=
  match e with
  | Accept answers =>
      let! (v, _) := Acceptor.handleRead
        (Some (TcpServer.newConnection loop_ name_ ipPort_ true false)) answers (server s) in
      Ok (set_server v s)
  | RunServer loop answers timerId =>
      match TcpServer.pop loop (TcpServer.pending (server s)) with
      | None => Ok s
      | Some (f, l) => run_functor loop f answers timerId (set_server (TcpServer.set_pending l (server s)) s)
      end
  | RunConn loop r answers timerId =>
      match TcpServer.pop loop (functors s) with
      | None => Ok s
      | Some ((p, f), l) =>
          operate_if loop p (CrossThread.functor_event r f) answers timerId (set_functors l s)
      end
  | Ready loop p revents rd w f answers timerId =>
      ofold (handler loop p rd w f answers timerId)
        (Channel.dispatch CrossThread.channel_callbacks revents) s
  | Fire loop fired answers timerId =>
      match armed s !! (loop, fired) with
      | None => Ok s
      | Some (p, k) => run_timeout loop p k answers timerId (set_armed (delete (loop, fired) (armed s)) s)
      end
  end.

Definition run (evs : list event) (s : t) : outcome t := ofold step evs s.

(** The server after its constructor and [start]. *)
Definition started (acceptfd : Z) : outcome t :=
  let! v := ChatServer.start threads (ChatServer.make loop_ acceptfd) in
  Ok (mk v WebChat.make ∅ ∅ []).

(** ** What the environment may do

    The answers of the kernel are in range and there is memory for what is stored, at every
    operation of a connection; epoll reports a channel that is registered, with events that
    were asked for, or errors; and [runAfter] returns identifiers that are new. *)

Definition when_object (p : Z) (s : t) (k : TcpServer.conn -> Prop) : Prop :=
  match object p s with Some o => k o | None => True end.

Definition after {A} (m : outcome A) (k : A -> Prop) : Prop :=
  match m with Ok a => k a | Fault _ => True end.

Definition call_ok (cur : Z) (x : WebChat.effect * sysret) (s : t) : Prop :=
  match x.1 with
  | WebChat.ESend q m =>
      when_object q s (fun o => TcpConnection.event_ok (TcpServer.tcp o)
        (TcpConnection.EvSend (TcpServer.getLoop o =? cur) x.2 m))
  | _ => True
  end.

Definition perform_ok (cur : Z) (es : list WebChat.effect) (answers : list sysret) (s : t) : Prop :=
  ofold_ok (call cur) (call_ok cur) (with_answers es answers) s.

Definition message_ok (cur p : Z) (answers : list sysret) (timerId : Z) (s : t) : Prop :=
  when_object p s (fun o => after
    (WebChat.onMessage peer p (TcpConnection.inputBuffer_ (TcpServer.tcp o))
       (TcpConnection.state_ (TcpServer.tcp o)) timerId (chat s))
    (fun '(buf, c, es) => perform_ok cur es answers (set_chat c (set_input p buf s)))).

(** Of the callbacks only that of messages sends. *)
Definition act_ok (cur p : Z) (answers : list sysret) (timerId : Z) (a : act) (s : t) : Prop :=
  match a with ACall TcpConnection.CMessage => message_ok cur p answers timerId s | _ => True end.

Definition operate_ok (cur p : Z) (oe : option TcpConnection.event) (answers : list sysret) (timerId : Z)
    (s : t) : Prop :=
  match oe with
  | None => True
  | Some e =>
      when_object p s (fun o => TcpConnection.event_ok (TcpServer.tcp o) e) /\
      after (TcpServer.run_tcp p e (server s))
        (fun '(v, es) => ofold_ok (perform_act cur p answers timerId) (act_ok cur p answers timerId) (acts es)
                           (set_server v s))
  end.

Definition fresh (p timerId : Z) (s : t) : Prop := timerId <> 0 /\ used s !! (loopOf p, timerId) = None.

Definition reported (c : Channel.t) (revents : Z) : Prop :=
  Channel.inEpoll_ c = true /\
  forall bit, Z.testbit revents bit = true ->
    Z.testbit (Z.lor (Channel.events_ c) (Z.lor Channel.EPOLLERR Channel.EPOLLHUP)) bit = true.

Definition enabled (e : event) (s : t) : Prop :=
  match e with
  | Accept answers => TcpServer.nextConnId_ (server s) + Z.of_nat (length answers) < 2^31
  | RunServer loop answers timerId =>
      match TcpServer.pop loop (TcpServer.pending (server s)) with
      | Some (TcpServer.FEstablish p, _) => fresh p timerId s
      | _ => True
      end
  | RunConn loop r answers timerId =>
      match TcpServer.pop loop (functors s) with
      | Some ((p, f), l) =>
          operate_ok loop p (CrossThread.functor_event r f) answers timerId (set_functors l s)
      | None => True
      end
  | Ready loop p revents rd w f answers timerId =>
      (exists o, object p s = Some o /\ TcpServer.getLoop o = loop /\ reported (TcpConnection.channel_ (TcpServer.tcp o)) revents) /\
      fresh p timerId s /\
      ofold_ok (handler loop p rd w f answers timerId)
        (fun cb => operate_ok loop p (CrossThread.handler_event cb rd w f) answers timerId)
        (Channel.dispatch CrossThread.channel_callbacks revents) s
  | Fire loop fired answers timerId =>
      exists p k, armed s !! (loop, fired) = Some (p, k) /\ fresh p timerId s
  end.

Definition run_enabled (evs : list event) (s : t) : Prop := ofold_ok step enabled evs s.

(** ** Lemmas: what the handlers do *)

(** The calls of a handler of [p]: on [p] itself, and sends to the users. *)
Definition about (p : Z) (users : gset Z) (e : WebChat.effect) : Prop :=
  match e with
  | WebChat.ESend q _ => q = p \/ q ∈ users
  | WebChat.EShutdown q | WebChat.EForceClose q | WebChat.ERunAfter q _ _ _ | WebChat.ECancel q _ => q = p
  | WebChat.ELog _ => True
  end.

(** Calls that concern timers only. *)
Definition timing (p : Z) (e : WebChat.effect) : Prop :=
  match e with
  | WebChat.ERunAfter q _ _ _ | WebChat.ECancel q _ => q = p
  | WebChat.ELog _ => True
  | _ => False
  end.

Lemma timing_about p users es : Forall (timing p) es -> Forall (about p users) es.
Proof. intros H. eapply Forall_impl; [exact H|]. by intros []. Qed.

Ltac calls_tac := wlp_steps; repeat (apply Forall_cons; split); try done; by apply Forall_nil.

Lemma refresh_timing p st i s :
  wlp (WebChat.refreshIdleTimer p st i) s (fun _ s' es =>
    Forall (timing p) es /\ WebChat.connections_ s' = WebChat.connections_ s).
Proof. unfold WebChat.refreshIdleTimer. wlp_steps; split; try done; repeat constructor. Qed.

Lemma register_timing p st s :
  wlp (WebChat.register peer p st) s (fun _ _ es => Forall (timing p) es).
Proof. unfold WebChat.register. calls_tac. Qed.

Lemma onConnection_timing p st i s :
  wlp (WebChat.onConnection peer p st i) s (fun _ _ es => Forall (timing p) es).
Proof.
  unfold WebChat.onConnection, WebChat.track_parser. apply wlp_bind.
  eapply wlp_mono; [apply register_timing|]. intros [idle force] s1 e1 H1.
  wlp_step. apply (wlp_mono _ _ (fun _ _ es => Forall (timing p) es)); [calls_tac|]. intros _ s2 e2 H2.
  wlp_step. apply (wlp_mono _ _ (fun _ _ es => Forall (timing p) es)); [calls_tac|]. intros _ s3 e3 H3.
  wlp_step. apply (wlp_mono _ _ (fun _ _ es => Forall (timing p) es)).
  { apply wlp_when; intros _; [|constructor]. eapply wlp_mono; [apply refresh_timing|]. by intros _ s4 es []. }
  intros _ s4 e4 H4. wlp_step. rewrite !app_nil_r. by repeat (apply Forall_app; split).
Qed.

Lemma handleRequest_about p r s :
  wlp (WebChat.handleRequest peer p r) s (fun _ s' es =>
    Forall (about p (WebChat.connections_ s)) es /\ s' = s).
Proof.
  destruct r as [path body]. unfold WebChat.handleRequest, WebChat.broadcast, WebChat.sendHttpResponse.
  wlp_steps; split; try done; repeat (apply Forall_app; split); repeat constructor.
  apply Forall_map, Forall_forall. intros q Hq. right.
  rewrite merge_sort_Permutation in Hq. by apply elem_of_elements in Hq.
Qed.

Lemma handleRequests_about p rs s :
  wlp (WebChat.handleRequests peer p rs) s (fun _ s' es =>
    Forall (about p (WebChat.connections_ s)) es /\ s' = s).
Proof.
  induction rs as [|r rs IH]; cbn [WebChat.handleRequests]; [apply wlp_ret; by split|].
  wlp_step. eapply wlp_mono; [apply handleRequest_about|]. intros _ s1 e1 [H1 ->].
  eapply wlp_mono; [apply IH|]. intros _ s2 e2 [H2 ->]. split; [by apply Forall_app | done].
Qed.

Lemma onMessage_about p (b : Buffer.t) st i s :
  wlp (WebChat.onMessage peer p b st i) s (fun _ _ es => Forall (about p (WebChat.connections_ s)) es).
Proof.
  unfold WebChat.onMessage. wlp_step.
  apply (wlp_mono _ _ (fun _ s' es => Forall (timing p) es /\ WebChat.connections_ s' = WebChat.connections_ s)).
  { apply wlp_when; intros _; [apply refresh_timing | by split; [constructor|]]. }
  intros _ s1 e1 [H1 Hc]. apply timing_about with (users := WebChat.connections_ s) in H1.
  wlp_step. wlp_step. wlp_step. wlp_step. destruct a as [[[mal rs] p'] buf]. wlp_step. wlp_step. wlp_step.
  apply (wlp_mono _ _ (fun _ _ es => Forall (about p (WebChat.connections_ s)) es)).
  { destruct mal; [wlp_steps; repeat constructor|].
    eapply wlp_mono; [apply handleRequests_about|]. intros _ s2 e2 [H2 _]. cbn in H2. by rewrite Hc in H2. }
  intros _ s2 e2 H2. wlp_step. rewrite !app_nil_l, app_nil_r. by apply Forall_app.
Qed.

(** The timeouts send nothing. *)
Definition sends_none (e : WebChat.effect) : Prop :=
  match e with WebChat.ESend _ _ => False | _ => True end.

Lemma timeout_about p k st i s :
  wlp (timeout_handler p k st i) s (fun _ _ es => Forall (about p ∅) es /\ Forall sends_none es).
Proof.
  destruct k; unfold timeout_handler, WebChat.handleIdleTimeout, WebChat.handleForceCloseTimeout; wlp_steps;
    split; repeat (apply Forall_cons; split); try done; by apply Forall_nil.
Qed.

Lemma no_sends_ok cur es answers s : Forall sends_none es -> perform_ok cur es answers s.
Proof.
  intros Hes. unfold perform_ok. revert answers s. induction Hes as [|e es He Hes IH]; intros answers s; [done|].
  cbn [with_answers ofold_ok]. split; [by destruct e|].
  destruct (call _ _ s); [apply IH | done].
Qed.

(** ** The invariant: the server's, and the chat's world seen through the connections *)

(** The state of an established connection. *)
Definition established (o : TcpServer.conn) : option TcpConnection.StateE :=
  let st := TcpConnection.state_ (TcpServer.tcp o) in
  if bool_decide (st = TcpConnection.kConnecting) then None else Some st.

Definition states (s : t) : gmap Z TcpConnection.StateE := omap established (TcpServer.objects (server s)).

Definition world_of (forced : gset Z) (s : t) : WebChat.world :=
  WebChat.World (chat s) (states s) (armed s) (used s) forced.

(** What the functors of a connection can be. *)
Definition proper (f : TcpConnection.functor) : Prop :=
  match f with
  | TcpConnection.FSendInLoop _ | TcpConnection.FForceCloseInLoop => True
  | _ => False
  end.

Abbreviation server_inv := (TcpServer.inv loop_ name_ ipPort_ true false).

Record core (s : t) : Prop := {
  k_server : server_inv (server s);
  k_loops : TcpServer.loops (server s) = map threads (seq 0 4);
  k_functors l p f : (l, (p, f)) ∈ functors s -> proper f /\ l = loopOf p /\ is_Some (states s !! p);
  k_channel p o : object p s = Some o -> established o = None ->
    Channel.inEpoll_ (TcpConnection.channel_ (TcpServer.tcp o)) = false;
  k_mask p o : object p s = Some o -> asked (TcpConnection.channel_ (TcpServer.tcp o));
}.

Definition inv (s : t) : Prop := core s /\ exists forced, WebChat.inv loopOf (world_of forced s).

Hypothesis ipPort_fits : blen ipPort_ <= 21.

Lemma lookup_states s p : states s !! p = object p s ≫= established.
Proof. apply lookup_omap. Qed.

Lemma established_some s p st :
  states s !! p = Some st ->
  exists o, object p s = Some o /\ TcpConnection.state_ (TcpServer.tcp o) = st /\
    st <> TcpConnection.kConnecting.
Proof.
  rewrite lookup_states. intros (o & Ho & He)%bind_Some. exists o. unfold established in He.
  case_bool_decide; [done|]. injection He as <-. by split_and!.
Qed.

Lemma states_established s p o :
  object p s = Some o -> TcpConnection.state_ (TcpServer.tcp o) <> TcpConnection.kConnecting ->
  states s !! p = Some (TcpConnection.state_ (TcpServer.tcp o)).
Proof.
  intros Ho Hst. rewrite lookup_states, Ho. simpl. unfold established. by rewrite bool_decide_eq_false_2.
Qed.

Lemma object_facts s p o :
  core s -> object p s = Some o ->
  TcpConnection.wf (TcpServer.tcp o) /\ TcpConnection.callbacks_ (TcpServer.tcp o) = callbacks /\
  TcpServer.getLoop o = loopOf p /\ 1 <= p.
Proof.
  intros [Hs Hl _ _ _] Ho. destruct (TcpServer.inv_object _ _ _ _ _ _ _ _ Hs Ho) as [Hp [Hwf Hcb Hloop _ _ _]].
  split_and!; [done | done | | lia]. rewrite Hloop. unfold EventLoopThreadPool.loop_of_turn.
  unfold TcpServer.loops in Hl. rewrite Hl, length_map, length_seq.
  pose proof (Z.mod_pos_bound (p - 1) 4 ltac:(lia)). change (Z.of_nat 4) with 4.
  rewrite list_lookup_fmap, lookup_seq_lt by lia. done.
Qed.

(** The state of one connection changes. *)
Lemma states_insert s v p l c :
  TcpServer.objects v = <[p := TcpServer.Conn l c]> (TcpServer.objects (server s)) ->
  TcpConnection.state_ c <> TcpConnection.kConnecting ->
  states (set_server v s) = <[p := TcpConnection.state_ c]> (states s).
Proof.
  intros Hv Hc. apply map_eq. intros q. rewrite lookup_states. unfold object. cbn [set_server server].
  rewrite Hv. destruct (decide (q = p)) as [->|Hne].
  - rewrite !lookup_insert_eq. simpl. unfold established. by rewrite bool_decide_eq_false_2.
  - rewrite !lookup_insert_ne by done. by rewrite lookup_states.
Qed.

Lemma core_update s v p o c :
  core s -> object p s = Some o ->
  TcpConnection.state_ c <> TcpConnection.kConnecting -> asked (TcpConnection.channel_ c) ->
  server_inv v -> TcpServer.loops v = TcpServer.loops (server s) ->
  TcpServer.objects v = <[p := TcpServer.Conn (TcpServer.getLoop o) c]> (TcpServer.objects (server s)) ->
  core (set_server v s) /\ states (set_server v s) = <[p := TcpConnection.state_ c]> (states s).
Proof.
  intros [Hs Hl Hf Hch Hm] Ho Hc Hask Hv Hvl Hvo. pose proof (states_insert s v p _ c Hvo Hc) as Hst.
  split; [|done]. split; try done.
  - cbn [set_server server]. by rewrite Hvl.
  - intros l q f Hin. destruct (Hf l q f Hin) as (? & ? & Hq). split_and!; [done..|].
    rewrite Hst. destruct (decide (q = p)) as [->|]; [by rewrite lookup_insert_eq | by rewrite lookup_insert_ne].
  - intros q o' Ho' He. unfold object in Ho'. cbn [set_server server] in Ho'. rewrite Hvo in Ho'.
    destruct (decide (q = p)) as [->|Hne].
    + rewrite lookup_insert_eq in Ho'. injection Ho' as <-. unfold established in He. simpl in He.
      by rewrite bool_decide_eq_false_2 in He.
    + rewrite lookup_insert_ne in Ho' by done. by apply (Hch q).
  - intros q o' Ho'. unfold object in Ho'. cbn [set_server server] in Ho'. rewrite Hvo in Ho'.
    destruct (decide (q = p)) as [->|Hne].
    + rewrite lookup_insert_eq in Ho'. by injection Ho' as <-.
    + rewrite lookup_insert_ne in Ho' by done. by apply (Hm q).
Qed.

(** The functors of a connection that is established are queued on its loop. *)
Lemma queue_all p fs s :
  core s -> Forall proper fs -> is_Some (states s !! p) ->
  exists s', ofold (queue p) fs s = Ok s' /\ core s' /\ server s' = server s /\ chat s' = chat s /\
    armed s' = armed s /\ used s' = used s.
Proof.
  intros Hs Hfs. revert s Hs. induction Hfs as [|f fs Hf Hfs IH]; intros s Hs Hp; [by exists s|].
  cbn [ofold]. unfold queue, with_object. destruct Hp as [st Hst].
  destruct (established_some s p st Hst) as (o & Ho & _ & _). rewrite Ho. cbn [obind].
  destruct (object_facts s p o Hs Ho) as (_ & _ & Hloop & _).
  destruct (IH (set_functors (functors s ++ [(TcpServer.getLoop o, (p, f))]) s)) as
    (s' & E & Hs' & H1 & H2 & H3 & H4); [|by exists st|].
  { destruct Hs as [Hs Hl Hfun Hch Hm]. split; try done. intros l q g. cbn [set_functors functors].
    intros [Hin|Hin]%elem_of_app; [by apply (Hfun l q g)|]. apply list_elem_of_singleton in Hin.
    injection Hin as -> -> ->. split_and!; [done..|]. by exists st. }
  exists s'. by split_and!.
Qed.

(** An event of an established connection, as the server sees it: [v1] is its state before
    the close callback, [v2] after. *)
Lemma run_established s p e o :
  core s -> object p s = Some o -> TcpConnection.state_ (TcpServer.tcp o) <> TcpConnection.kConnecting ->
  is_method e \/ of_loop e -> TcpConnection.event_ok (TcpServer.tcp o) e ->
  exists c es v2, TcpConnection.run_event e (TcpServer.tcp o) = Ok (tt, c, es) /\
    let v1 := TcpServer.set_objects (<[p := TcpServer.Conn (TcpServer.getLoop o) c]>
      (TcpServer.objects (server s))) (server s) in
    TcpServer.run_tcp p e (server s) = Ok (v1, es) /\
    (if existsb TcpServer.is_close es
     then TcpServer.closeCallback loop_ name_ ipPort_ p v1 = Ok v2 else v2 = v1) /\
    server_inv v2 /\ TcpServer.loops v2 = TcpServer.loops (server s) /\
    TcpServer.objects v2 = TcpServer.objects v1 /\ asked (TcpConnection.channel_ c).
Proof.
  intros Hs Ho Hst He Hok. destruct (object_facts s p o Hs Ho) as (Hwf & Hcb & _ & _).
  destruct (TcpServer.run_tcp_spec p e (server s) o Ho Hwf Hok) as (c & es & E & Hr & _).
  destruct (TcpServer.conn_inv_step loop_ name_ ipPort_ true false ipPort_fits (server s) p e) as (v2 & E2 & Hv2).
  { apply Hs. }
  { destruct e; destruct He as [He|He]; try done; exists o; by split_and!. }
  pose proof (TcpServer.step_loops loop_ name_ ipPort_ true false _ _ _ E2) as Hl.
  cbn [TcpServer.step] in E2. rewrite E in E2. cbn [obind] in E2.
  pose proof (asking_event e _ (k_mask s Hs p o Ho) _ _ _ Hr) as Hask.
  exists c, es, v2. split; [done|]. cbv zeta. split; [done|].
  destruct (existsb TcpServer.is_close es); [|by injection E2 as <-].
  split_and!; try done. revert E2. unfold TcpServer.closeCallback, TcpServer.erase.
  destruct (TcpServer.objects _ !! p) as [o'|]; [|done].
  destruct (_ =? _); by intros [= <-].
Qed.

Definition frame (s s' : t) : Prop := chat s' = chat s /\ armed s' = armed s /\ used s' = used s.

(** A method that a handler calls. *)
Lemma method_spec s p e o :
  core s -> object p s = Some o -> TcpConnection.state_ (TcpServer.tcp o) <> TcpConnection.kConnecting ->
  is_method e -> TcpConnection.event_ok (TcpServer.tcp o) e ->
  exists s', method p e s = Ok s' /\ core s' /\ frame s s' /\
    states s' = alter (method_state e) p (states s).
Proof.
  intros Hs Ho Hst He Hok. destruct (object_facts s p o Hs Ho) as (Hwf & Hcb & Hloop & _).
  destruct (run_established s p e o Hs Ho Hst (or_introl He) Hok) as (c & es & v2 & Hr & E & Hv & Hi & Hl & Hobj & Hask).
  destruct (method_behaves e _ He Hcb _ _ _ Hr) as [Hc Ha].
  rewrite not_closing in Hv by (rewrite Ha; apply Forall_map, Forall_forall; by intros).
  subst v2. unfold method. rewrite E. cbn [obind]. set (v1 := TcpServer.set_objects _ _) in *.
  assert (Hc' : TcpConnection.state_ c <> TcpConnection.kConnecting).
  { rewrite Hc. destruct e as [| | | | | | | | |[]| | | |]; try done; by destruct (TcpConnection.state_ (TcpServer.tcp o)). }
  destruct (core_update s v1 p o c Hs Ho Hc' Hask Hi Hl eq_refl) as [H1 Hs1].
  rewrite (queued_acts _ _ Ha).
  destruct (queue_all p (method_queues e (TcpConnection.state_ (TcpServer.tcp o))) (set_server v1 s) H1)
    as (s' & E' & H' & Hv' & Hc1 & Ha1 & Hu1).
  { destruct e as [| | | | |[]| | | |[]| | | |]; try done; cbn [method_queues]; [destruct (WebChat.connected _)|destruct (_ || _)];
      by repeat constructor. }
  { rewrite Hs1, lookup_insert_eq. by eexists. }
  exists s'. split_and!; [done..|]. unfold states at 1. rewrite Hv'.
  change (states (set_server v1 s) = alter (method_state e) p (states s)).
  rewrite Hs1. apply map_eq. intros q. destruct (decide (q = p)) as [->|Hne].
  - rewrite lookup_insert_eq, lookup_alter_eq, (states_established s p o Ho Hst). simpl. by rewrite Hc.
  - by rewrite lookup_insert_ne, lookup_alter_ne.
Qed.

(** ** Lemmas: the calls of a handler, in the world *)

(** A call on connections that are established; only [shutdown] needs the loop. *)
Definition addressed (cur : Z) (m : gmap Z TcpConnection.StateE) (e : WebChat.effect) : Prop :=
  match e with
  | WebChat.ESend q _ | WebChat.EForceClose q | WebChat.ERunAfter q _ _ _ | WebChat.ECancel q _ =>
      is_Some (m !! q)
  | WebChat.EShutdown q => is_Some (m !! q) /\ loopOf q = cur
  | WebChat.ELog _ => True
  end.

Lemma alter_id_states (f : TcpConnection.StateE -> TcpConnection.StateE) p (m : gmap Z TcpConnection.StateE) :
  (forall st, f st = st) -> alter f p m = m.
Proof.
  intros Hf. apply map_eq. intros q. destruct (decide (q = p)) as [->|Hne].
  - rewrite lookup_alter_eq. destruct (m !! p); simpl; by rewrite ?Hf.
  - by rewrite lookup_alter_ne.
Qed.

Lemma call_spec cur x s forced :
  core s -> addressed cur (states s) x.1 -> call_ok cur x s ->
  exists s' forced', call cur x s = Ok s' /\ core s' /\
    world_of forced' s' = WebChat.apply_effect loopOf (world_of forced s) x.1.
Proof.
  intros Hs Ha Hok. destruct x as [e r]. cbn [fst] in *. unfold call. cbn [fst snd].
  assert (Hobj : forall q, is_Some (states s !! q) -> exists o, object q s = Some o /\
    TcpConnection.state_ (TcpServer.tcp o) <> TcpConnection.kConnecting /\ TcpServer.getLoop o = loopOf q).
  { intros q [st Hst]. destruct (established_some s q st Hst) as (o & Ho & <- & Hne).
    exists o. split_and!; [done..|]. by apply (object_facts s q o Hs). }
  assert (Hworld : forall s' e' q fc, frame s s' -> states s' = alter (method_state e') q (states s) ->
    world_of fc s' = WebChat.World (chat s) (alter (method_state e') q (states s)) (armed s) (used s) fc).
  { intros s' e' q fc (H1 & H2 & H3) H4. unfold world_of. by rewrite H1, H2, H3, H4. }
  destruct e as [q m|q|q|q d k i|q i|line]; cbn [addressed WebChat.apply_effect] in *.
  - destruct (Hobj q Ha) as (o & Ho & Hst & Hl). unfold call_ok, when_object in Hok. cbn [fst snd] in Hok.
    unfold with_object. rewrite Ho in *.
    destruct (method_spec s q (TcpConnection.EvSend (TcpServer.getLoop o =? cur) r m) o Hs Ho Hst I Hok)
      as (s' & E & H' & Hf & Hs').
    exists s', forced. split_and!; [done..|]. rewrite (Hworld _ _ _ _ Hf Hs'). unfold world_of.
    by rewrite alter_id_states.
  - destruct Ha as [Ha <-]. destruct (Hobj q Ha) as (o & Ho & Hst & Hl). unfold with_object. rewrite Ho, Hl, Z.eqb_refl.
    destruct (method_spec s q (TcpConnection.EvShutdown true) o Hs Ho Hst I I) as (s' & E & H' & Hf & Hs').
    exists s', forced. split_and!; [done..|]. by rewrite (Hworld _ _ _ _ Hf Hs').
  - destruct (Hobj q Ha) as (o & Ho & Hst & Hl).
    destruct (method_spec s q TcpConnection.EvForceClose o Hs Ho Hst I I) as (s' & E & H' & Hf & Hs').
    exists s', ({[q]} ∪ forced). split_and!; [done..|]. by rewrite (Hworld _ _ _ _ Hf Hs').
  - destruct (Hobj q Ha) as (o & Ho & Hst & Hl). unfold with_object. rewrite Ho, Hl. cbv zeta.
    eexists _, forced. split; [done|]. split; [by destruct Hs; split | done].
  - destruct (Hobj q Ha) as (o & Ho & Hst & Hl). unfold with_object. rewrite Ho, Hl.
    eexists _, forced. split; [done|]. split; [by destruct Hs; split | done].
  - by exists s, forced.
Qed.

Lemma apply_effect_dom w e q :
  is_Some (WebChat.states (WebChat.apply_effect loopOf w e) !! q) <-> is_Some (WebChat.states w !! q).
Proof.
  destruct e as [c m|c|c|c d k i|c i|line]; cbn [WebChat.apply_effect WebChat.states WebChat.set_states WebChat.set_armed];
    try done; destruct (decide (c = q)) as [->|Hne]; rewrite ?lookup_alter_eq, ?lookup_alter_ne by done; try done;
    by rewrite fmap_is_Some.
Qed.

Lemma apply_effects_dom es q : forall w,
  is_Some (WebChat.states w !! q) -> is_Some (WebChat.states (WebChat.apply_effects loopOf es w) !! q).
Proof. induction es as [|e es IH]; intros w Hw; [done|]. by apply IH, apply_effect_dom. Qed.

Lemma calls_spec cur es : forall answers s forced,
  core s -> Forall (addressed cur (states s)) es ->
  ofold_ok (call cur) (call_ok cur) (with_answers es answers) s ->
  exists s' forced', ofold (call cur) (with_answers es answers) s = Ok s' /\ core s' /\
    world_of forced' s' = WebChat.apply_effects loopOf es (world_of forced s).
Proof.
  induction es as [|e es IH]; intros answers s forced Hs Ha Hok; [by exists s, forced|].
  cbn [with_answers ofold ofold_ok] in *. apply Forall_cons in Ha as [He Ha]. destruct Hok as [Hc Hok].
  destruct (call_spec cur (e, default (SysErr EAGAIN) (head answers)) s forced Hs He Hc) as (s1 & f1 & E & H1 & Hw). rewrite E in *. cbn [obind fst] in *.
  destruct (IH (tail answers) s1 f1 H1) as (s2 & f2 & E2 & H2 & Hw2); [|done|].
  - eapply Forall_impl; [exact Ha|]. intros e'. assert (Hd : forall q, is_Some (states s !! q) -> is_Some (states s1 !! q)).
    { intros q Hq. change (states s1) with (WebChat.states (world_of f1 s1)). rewrite Hw. by apply apply_effect_dom. }
    destruct e'; cbn [addressed]; naive_solver.
  - exists s2, f2. split_and!; [done..|]. by rewrite Hw2, Hw.
Qed.

(** Calls that concern timers only: the server is not touched. *)
Lemma timing_spec cur p es : forall answers s forced o,
  object p s = Some o -> TcpServer.getLoop o = loopOf p -> Forall (timing p) es ->
  exists s', ofold (call cur) (with_answers es answers) s = Ok s' /\ server s' = server s /\
    functors s' = functors s /\
    world_of forced s' = WebChat.apply_effects loopOf es (world_of forced s).
Proof.
  induction es as [|e es IH]; intros answers s forced o Ho Hl Ha; [by exists s|].
  cbn [with_answers ofold]. apply Forall_cons in Ha as [He Ha].
  assert (exists s1, call cur (e, default (SysErr EAGAIN) (head answers)) s = Ok s1 /\ server s1 = server s /\
    functors s1 = functors s /\ world_of forced s1 = WebChat.apply_effect loopOf (world_of forced s) e)
    as (s1 & -> & Hv & Hf & Hw).
  { destruct e as [c m|c|c|c d k i|c i|line]; try done; unfold call; cbn [fst]; [..|by exists s];
      cbn [timing] in He; subst c; unfold with_object; rewrite Ho, Hl; by eexists. }
  cbn [obind]. destruct (IH (tail answers) s1 forced o) as (s2 & E2 & Hv2 & Hf2 & Hw2); [|done..|].
  - unfold object. by rewrite Hv.
  - exists s2. split_and!; [done | congruence | congruence |]. by rewrite Hw2, Hw.
Qed.

(** What a handler of [p] calls is addressed to connections that are established. *)
Lemma about_addressed p s forced es :
  core s -> WebChat.inv loopOf (world_of forced s) -> is_Some (states s !! p) ->
  Forall (about p (WebChat.connections_ (chat s))) es ->
  Forall (addressed (loopOf p) (states s)) es.
Proof.
  intros Hs Hw Hp Ha. eapply Forall_impl; [exact Ha|].
  intros [q m|q|q|q d k i|q i|line]; cbn [about addressed]; try done; [|by intros ->..].
  intros [->|Hq]; [done|]. apply (WebChat.i_users _ _ _ (Hw q)) in Hq as [Hq|Hq];
    change (WebChat.states (world_of forced s)) with (states s) in Hq; by eexists.
Qed.

(** ** Lemmas: the operations of a loop *)

Lemma core_same s v :
  core s -> server_inv v -> TcpServer.loops v = TcpServer.loops (server s) ->
  TcpServer.objects v = TcpServer.objects (server s) ->
  core (set_server v s) /\ states (set_server v s) = states s.
Proof.
  intros [Hs Hl Hf Hch Hm] Hv Hvl Hvo.
  assert (Hst : states (set_server v s) = states s) by (unfold states; cbn [set_server server]; by rewrite Hvo).
  split; [|done]. split; try done.
  - cbn [set_server server]. by rewrite Hvl.
  - by rewrite Hst.
  - intros q o. unfold object. cbn [set_server server]. rewrite Hvo. apply Hch.
  - intros q o. unfold object. cbn [set_server server]. rewrite Hvo. apply Hm.
Qed.

(** Chat and timers are no part of [core]. *)
Lemma core_frame s s' : core s -> server s' = server s -> functors s' = functors s -> core s'.
Proof.
  intros [Hs Hl Hf Hch Hm] Ev Ef. split; unfold states, object; rewrite ?Ev, ?Ef; try done.
Qed.

Lemma core_input s p o b :
  core s -> object p s = Some o -> TcpConnection.state_ (TcpServer.tcp o) <> TcpConnection.kConnecting ->
  Buffer.wf b ->
  core (set_input p b s) /\ states (set_input p b s) = states s.
Proof.
  intros Hs Ho Hst Hb. destruct (object_facts s p o Hs Ho) as (Hwf & Hcb & Hl & _).
  set (c := TcpConnection.set_input b (TcpServer.tcp o)).
  assert (Hobj : TcpServer.objects (server (set_input p b s)) =
    <[p := TcpServer.Conn (TcpServer.getLoop o) c]> (TcpServer.objects (server s))).
  { unfold set_input. cbn [set_server server TcpServer.set_objects TcpServer.objects].
    apply map_eq. intros q. destruct (decide (q = p)) as [->|Hne].
    - unfold object in Ho. by rewrite lookup_alter_eq, lookup_insert_eq, Ho.
    - by rewrite lookup_alter_ne, lookup_insert_ne. }
  destruct (TcpConnection.set_input_spec (TcpServer.tcp o) b Hwf Hb) as [Hwf' _].
  destruct (core_update s (server (set_input p b s)) p o c Hs Ho) as [H1 H2]; try done; [by apply (k_mask s Hs p)| |].
  - destruct (TcpServer.inv_object _ _ _ _ _ _ _ _ (k_server s Hs) Ho) as [_ [? ? ? ? ? ?]].
    apply (TcpServer.subject_inv loop_ name_ ipPort_ true false ipPort_fits (server s) _ p o c);
      try done; [apply Hs | by left | by intros; left].
  - split; [done|]. change (states (set_input p b s)) with (states (set_server (server (set_input p b s)) s)).
    rewrite H2. apply insert_id. rewrite (states_established s p o Ho Hst). done.
Qed.

Lemma closing_acts es : ACall TcpConnection.CClose ∈ acts es -> existsb TcpServer.is_close es = true.
Proof.
  induction es as [|e es IH]; [by intros ?%elem_of_nil|].
  destruct e as [c|d|fd o n|fd| |f|cb]; simpl; try done; [rewrite elem_of_cons; by intros [|]; auto|].
  rewrite elem_of_cons. destruct cb; simpl; intros [|]; auto; done.
Qed.

(** Some identifier of a loop was never used. *)
Lemma fresh_exists p s : exists i, fresh p i s.
Proof.
  set (X := {[0]} ∪ set_map (D := gset Z) snd (dom (used s))).
  exists (stdpp.base.fresh X). pose proof (is_fresh X) as Hf. unfold X in Hf at 2.
  rewrite not_elem_of_union, not_elem_of_singleton in Hf. destruct Hf as [H0 Hf]. split; [done|].
  apply not_elem_of_dom. intros Hin. apply Hf. apply elem_of_map. by exists (loopOf p, stdpp.base.fresh X).
Qed.

(** A handler that the chat's world can run. *)
Lemma handle_ok {A} (m : WebChat.M A) w w' :
  WebChat.handle loopOf m w = Ok w' ->
  exists a c es, m (WebChat.chat w) = Ok (a, c, es) /\
    w' = WebChat.apply_effects loopOf es (WebChat.set_app c w).
Proof.
  unfold WebChat.handle. intros ([[a c] es] & E & [= <-])%obind_Ok. by exists a, c, es.
Qed.

(** The connection callback, as a step of the chat's world. *)
Lemma connection_spec cur p answers i s forced o w' :
  object p s = Some o -> TcpServer.getLoop o = loopOf p ->
  WebChat.handle loopOf (WebChat.onConnection peer p (TcpConnection.state_ (TcpServer.tcp o)) i)
    (world_of forced s) = Ok w' ->
  exists s', onConnection cur p answers i s = Ok s' /\ server s' = server s /\ functors s' = functors s /\
    world_of forced s' = w'.
Proof.
  intros Ho Hl E. apply handle_ok in E as ([] & c & es & Em & ->).
  pose proof (onConnection_timing _ _ _ _ _ _ _ Em) as Ht.
  unfold onConnection, with_object. rewrite Ho.
  change (WebChat.chat (world_of forced s)) with (chat s) in Em. rewrite Em. cbn [obind].
  exact (timing_spec cur p es answers (set_chat c s) forced o Ho Hl Ht).
Qed.

(** The connection goes down: the user's callback, then the server's. *)
Lemma close_spec cur p answers i s v1 v2 o c :
  inv s -> object p s = Some o -> states s !! p <> None ->
  TcpConnection.state_ (TcpServer.tcp o) <> TcpConnection.kDisconnected ->
  TcpConnection.state_ c = TcpConnection.kDisconnected ->
  v1 = TcpServer.set_objects (<[p := TcpServer.Conn (TcpServer.getLoop o) c]>
    (TcpServer.objects (server s))) (server s) ->
  TcpServer.closeCallback loop_ name_ ipPort_ p v1 = Ok v2 ->
  server_inv v2 -> TcpServer.loops v2 = TcpServer.loops (server s) ->
  TcpServer.objects v2 = TcpServer.objects v1 -> asked (TcpConnection.channel_ c) ->
  exists s', ofold (perform_act cur p answers i)
      [ACall TcpConnection.CConnection; ACall TcpConnection.CClose] (set_server v1 s) = Ok s' /\
    inv s' /\ is_Some (states s' !! p) /\ TcpServer.destroyed (server s') = TcpServer.destroyed v2.
Proof.
  intros [Hs [forced Hw]] Ho Hup Hd Hc -> Hcl Hv2 Hl Hobj Hask. set (v1 := TcpServer.set_objects _ _) in *.
  assert (Hst : states s !! p = Some (TcpConnection.state_ (TcpServer.tcp o))).
  { rewrite lookup_states, Ho in *. simpl in *. unfold established in *. by case_bool_decide. }
  destruct (object_facts s p o Hs Ho) as (_ & _ & Hloop & _).
  assert (Hcc : TcpConnection.state_ c <> TcpConnection.kConnecting) by congruence.
  pose proof (states_insert s v1 p _ c eq_refl Hcc) as Hst1. rewrite Hc in Hst1.
  destruct (fresh_exists p s) as [j [Hj0 Hj]].
  destruct (WebChat.step_closed peer loopOf (world_of forced s) p j Hw) as (w' & E & Hw').
  { split; [|by split]. unfold WebChat.up. cbn [world_of WebChat.states]. rewrite Hst.
    destruct (established_some s p _ Hst) as (o' & _ & _ & Hnc).
    destruct (TcpConnection.state_ (TcpServer.tcp o)); try done; auto. }
  cbn [WebChat.step] in E.
  change (WebChat.onConnection peer p TcpConnection.kDisconnected j) with
    (WebChat.onConnection peer p TcpConnection.kDisconnected i) in E.
  destruct (connection_spec cur p answers i (set_server v1 s) forced (TcpServer.Conn (TcpServer.getLoop o) c) w')
    as (s2 & E2 & Ev & Ef & Ew); [apply lookup_insert_eq | done | |].
  { cbn [TcpServer.tcp]. rewrite Hc, <- E. f_equal. unfold world_of. by rewrite Hst1. }
  cbn [ofold perform_act callback]. rewrite E2. cbn [obind].
  unfold onClose. rewrite Ev. cbn [set_server server]. rewrite Hcl. cbn [obind].
  destruct (core_update s v2 p o c Hs Ho Hcc Hask Hv2 Hl Hobj) as [Hcore Hst2]. rewrite Hc in Hst2.
  assert (Hst3 : states (set_server v2 s2) = <[p := TcpConnection.kDisconnected]> (states s)) by exact Hst2.
  eexists. split; [reflexivity|]. split_and!; [|by rewrite Hst3, lookup_insert_eq|done].
  split; [by apply (core_frame (set_server v2 s))|]. exists forced.
  assert (world_of forced (set_server v2 s2) = world_of forced s2) as ->; [|by rewrite Ew].
  unfold world_of. rewrite Hst3. f_equal. unfold states at 2. rewrite Ev. exact (eq_sym Hst1).
Qed.

(** The parsers are between two requests, or within one. *)
Lemma parser_between s forced p :
  WebChat.inv loopOf (world_of forced s) -> WebChat.between (WebChat.parser_of (chat s) p).
Proof.
  intros Hw. unfold WebChat.parser_of.
  destruct (WebChat.parsers_ (chat s) !! p) as [q|] eqn:Eq; [|apply WebChat.between_make].
  exact (WebChat.i_between _ _ _ (Hw p) q Eq).
Qed.

(** The handler leaves a buffer that is well-formed. *)
Lemma onMessage_buffer p (b : Buffer.t) st i s forced buf c' es :
  WebChat.inv loopOf (world_of forced s) -> Buffer.wf b ->
  WebChat.onMessage peer p b st i (chat s) = Ok (buf, c', es) -> Buffer.wf buf.
Proof.
  intros Hw Hb Em. pose proof (parser_between s forced p Hw) as Hbt.
  pose proof (WebChat.onMessage_spec peer (chat s) p b st i Hbt Hb) as Hsp.
  unfold wp in Hsp. rewrite Em in Hsp. by destruct Hsp as (n & mal & rs & q & _ & _ & Hbuf & _).
Qed.

(** A message: the handler parses it, and its calls are made. *)
Lemma message_spec p answers i s o :
  inv s -> object p s = Some o ->
  TcpConnection.state_ (TcpServer.tcp o) <> TcpConnection.kConnecting ->
  TcpConnection.state_ (TcpServer.tcp o) <> TcpConnection.kDisconnected ->
  fresh p i s -> message_ok (loopOf p) p answers i s ->
  exists s', onMessage (loopOf p) p answers i s = Ok s' /\ inv s' /\ is_Some (states s' !! p).
Proof.
  intros [Hs [forced Hw]] Ho Hst Hd Hfr Hok.
  pose proof (states_established s p o Ho Hst) as Hp.
  destruct (object_facts s p o Hs Ho) as (Hwf & _ & Hl & _). pose proof (TcpConnection.wf_input _ (proj1 Hwf)) as Hb.
  assert (Hup : WebChat.up (world_of forced s) p).
  { unfold WebChat.up. cbn [world_of WebChat.states]. rewrite Hp.
    destruct (TcpConnection.state_ (TcpServer.tcp o)); try done; auto. }
  destruct (WebChat.step_message peer loopOf (world_of forced s) p
    (TcpConnection.inputBuffer_ (TcpServer.tcp o)) i Hw) as (w' & E & Hw'); [by split|].
  cbn [WebChat.step] in E. apply handle_ok in E as (buf & c' & es & Em & ->).
  change (WebChat.states (world_of forced s)) with (states s) in Em. rewrite Hp in Em. cbn [default from_option id] in Em.
  change (WebChat.chat (world_of forced s)) with (chat s) in Em.
  unfold onMessage, message_ok, with_object, when_object, after in *. rewrite Ho in *. rewrite Em in *.
  cbn [obind]. pose proof (onMessage_about _ _ _ _ _ _ _ _ Em) as Ha.
  pose proof (onMessage_buffer _ _ _ _ _ _ _ _ _ Hw Hb Em) as Hbuf.
  destruct (core_input s p o buf Hs Ho Hst Hbuf) as [H1 Hs1].
  set (s1 := set_chat c' (set_input p buf s)) in *.
  assert (Hs1' : states s1 = states s) by exact Hs1.
  destruct (calls_spec (loopOf p) es answers s1 forced) as (s' & f' & E' & H' & Hw2); [| |done|].
  - by apply (core_frame (set_input p buf s)).
  - rewrite Hs1'. apply (about_addressed p s forced es Hs Hw); [rewrite Hp; by eexists | done].
  - exists s'. split; [done|].
    assert (world_of forced s1 = WebChat.set_app c' (world_of forced s)) as E1.
    { unfold world_of, WebChat.set_app. by rewrite Hs1'. }
    rewrite E1 in Hw2. split; [split; [done|]; exists f'; by rewrite Hw2|].
    change (states s') with (WebChat.states (world_of f' s')). rewrite Hw2.
    apply apply_effects_dom. cbn. rewrite Hp. by eexists.
Qed.

(** Operations of a connection run on its loop. *)
Lemma on_its_loop s p o : core s -> object p s = Some o -> assertInLoopThread (loopOf p) p s = Ok tt.
Proof.
  intros Hs Ho. destruct (object_facts s p o Hs Ho) as (_ & _ & Hl & _).
  unfold assertInLoopThread, with_object. by rewrite Ho, Hl, Z.eqb_refl.
Qed.

(** An operation of the loop on a connection that is established. *)
Lemma operate_spec cur p e answers i s :
  inv s -> is_Some (states s !! p) -> cur = loopOf p -> of_loop e ->
  (is_read e = true -> states s !! p <> Some TcpConnection.kDisconnected /\ fresh p i s) ->
  operate_ok cur p (Some e) answers i s ->
  exists s', operate cur p e answers i s = Ok s' /\ inv s' /\ is_Some (states s' !! p).
Proof.
  intros Hi [st Hp] -> He Hrd [Hok Hacts]. pose proof Hi as [Hs [forced Hw]].
  destruct (established_some s p st Hp) as (o & Ho & Est & Hnc). subst st.
  unfold when_object in Hok. rewrite Ho in Hok.
  destruct (object_facts s p o Hs Ho) as (Hwf & Hcb & Hl & _).
  destruct (run_established s p e o Hs Ho Hnc (or_intror He) Hok) as (c & es & v2 & Hr & E & Hv & Hi2 & Hl2 & Hobj & Hask).
  unfold operate. rewrite (on_its_loop s p o Hs Ho). cbn [obind].
  unfold after in Hacts. rewrite E in *. cbn [obind].
  set (v1 := TcpServer.set_objects _ _) in *.
  pose proof (loop_behaves e _ He Hcb _ _ _ Hr) as Hb. inversion Hb as [Hc Ea|Hread Hc Ea|Hd Hc Ea]; rewrite <- Ea in *.
  - rewrite not_closing in Hv by (rewrite <- Ea; constructor). subst v2.
    destruct (core_update s v1 p o c Hs Ho ltac:(congruence) Hask Hi2 Hl2 eq_refl) as [H1 Hs1].
    rewrite Hc, insert_id in Hs1 by done. exists (set_server v1 s). split; [done|].
    split; [|by rewrite Hs1, Hp]. split; [done|]. exists forced. unfold world_of. by rewrite Hs1.
  - rewrite not_closing in Hv by (rewrite <- Ea; repeat constructor; done). subst v2.
    destruct (core_update s v1 p o c Hs Ho ltac:(congruence) Hask Hi2 Hl2 eq_refl) as [H1 Hs1].
    rewrite Hc, insert_id in Hs1 by done. destruct (Hrd Hread) as [Hnd Hfr].
    cbn [ofold ofold_ok perform_act callback act_ok] in *. destruct Hacts as [Hm _].
    assert (Ho1 : object p (set_server v1 s) = Some (TcpServer.Conn (TcpServer.getLoop o) c))
      by (apply lookup_insert_eq).
    destruct (message_spec p answers i (set_server v1 s) (TcpServer.Conn (TcpServer.getLoop o) c))
      as (s' & -> & Hs'); try done; cbn [TcpServer.tcp].
    + split; [done|]. exists forced. unfold world_of. by rewrite Hs1.
    + congruence.
    + rewrite Hp in Hnd. congruence.
    + by exists s'.
  - rewrite closing_acts in Hv by (rewrite <- Ea; right; left).
    destruct (close_spec (loopOf p) p answers i s v1 v2 o c) as (s' & E' & H1 & H2 & _); try done; [by rewrite Hp|].
    by exists s'.
Qed.

(** ** Lemmas: the events of a channel *)

(** Handlers that neither read nor close. *)
Definition minor (cb : Channel.callback) : Prop := cb = Channel.CbError \/ cb = Channel.CbWrite.

Section ready.
Variables (p : Z) (rd : Buffer.readv_result) (w f : sysret) (answers : list sysret) (timerId : Z).

Abbreviation handle := (handler (loopOf p) p rd w f answers timerId).
Abbreviation handle_ok_ := (fun cb => operate_ok (loopOf p) p (CrossThread.handler_event cb rd w f) answers timerId).

(** [handleWrite] leaves the state of the connection and the timers. *)
Lemma write_frame s s' :
  core s -> is_Some (states s !! p) -> operate (loopOf p) p (TcpConnection.EvWrite w f) answers timerId s = Ok s' ->
  states s' = states s /\ used s' = used s.
Proof.
  intros Hs [st Hst] E. destruct (established_some s p st Hst) as (o & Ho & Est & Hnc).
  destruct (object_facts s p o Hs Ho) as (_ & Hcb & _). unfold operate, TcpServer.run_tcp in E.
  unfold object in Ho. rewrite Ho in E.
  apply obind_Ok in E as ([] & _ & ([v es] & ([[[] c] es'] & Er & [= <- <-])%obind_Ok & Ea)%obind_Ok).
  destruct (silent_handleWrite w f _ Hcb _ _ _ Er) as (Hac & Hsc & _). rewrite Hac in Ea. injection Ea as <-.
  split; [|done]. rewrite (states_insert s (TcpServer.set_objects _ (server s)) p (TcpServer.getLoop o) c);
    [|done|congruence]. apply insert_id. by rewrite Hst, Hsc, Est.
Qed.

Lemma minor_spec cb s :
  minor cb -> inv s -> is_Some (states s !! p) -> handle_ok_ cb s ->
  exists s', handle cb s = Ok s' /\ inv s' /\ is_Some (states s' !! p) /\
    states s' = states s /\ used s' = used s.
Proof.
  intros [->| ->] Hi Hp Hok; unfold handler; cbn [CrossThread.handler_event operate_if] in *; [by exists s|].
  destruct (operate_spec (loopOf p) p (TcpConnection.EvWrite w f) answers timerId s Hi Hp eq_refl I) as (s' & E & Hi' & Hp'); [done|done|].
  destruct (write_frame s s' (proj1 Hi) Hp E). by exists s'.
Qed.

Lemma minors_spec cbs : forall s,
  Forall minor cbs -> inv s -> is_Some (states s !! p) -> ofold_ok handle handle_ok_ cbs s ->
  exists s', ofold handle cbs s = Ok s' /\ inv s' /\ is_Some (states s' !! p) /\
    states s' = states s /\ used s' = used s.
Proof.
  induction cbs as [|cb cbs IH]; intros s Hm Hi Hp Hok; [by exists s|].
  apply Forall_cons in Hm as [Hcb Hm]. cbn [ofold ofold_ok] in *. destruct Hok as [Hc Hok].
  destruct (minor_spec cb s Hcb Hi Hp Hc) as (s1 & E & Hi1 & Hp1 & Hs1 & Hu1). rewrite E in *. cbn [obind].
  destruct (IH s1 Hm Hi1 Hp1 Hok) as (s2 & -> & Hi2 & Hp2 & Hs2 & Hu2).
  exists s2. split_and!; [done..|congruence|congruence].
Qed.

(** At most one handler reads or closes. *)
Lemma ready_spec pre main post s :
  Forall minor pre -> Forall minor post -> main = Channel.CbClose \/ main = Channel.CbRead ->
  inv s -> is_Some (states s !! p) -> fresh p timerId s ->
  (main = Channel.CbRead -> states s !! p <> Some TcpConnection.kDisconnected) ->
  ofold_ok handle handle_ok_ (pre ++ main :: post) s ->
  exists s', ofold handle (pre ++ main :: post) s = Ok s' /\ inv s'.
Proof.
  intros Hpre Hpost Hmain Hi Hp Hfr Hrd Hok. apply ofold_ok_app in Hok as [Hok1 Hok2].
  destruct (minors_spec pre s Hpre Hi Hp Hok1) as (s1 & E1 & Hi1 & Hp1 & Hs1 & Hu1).
  specialize (Hok2 s1 E1). rewrite ofold_app, E1. cbn [obind ofold ofold_ok] in *. destruct Hok2 as [Hc Hok2].
  assert (exists s2, handle main s1 = Ok s2 /\ inv s2 /\ is_Some (states s2 !! p)) as (s2 & E2 & Hi2 & Hp2).
  { assert (Hfr1 : fresh p timerId s1) by (unfold fresh; by rewrite Hu1).
    unfold handler in *. destruct Hmain as [->| ->]; cbn [CrossThread.handler_event operate_if] in *;
      apply operate_spec; try done. intros _. rewrite Hs1. split; [by apply Hrd | done]. }
  rewrite E2 in *. cbn [obind]. destruct (minors_spec post s2 Hpost Hi2 Hp2 Hok2) as (s3 & -> & Hi3 & _).
  by exists s3.
Qed.
End ready.

(** What epoll reports, when only EPOLLIN and EPOLLOUT were asked for. *)
Lemma reported_reads c revents :
  asked c -> reported c revents ->
  Channel.has revents (Z.lor Channel.EPOLLIN (Z.lor Channel.EPOLLPRI Channel.EPOLLRDHUP)) = true ->
  Channel.has revents Channel.EPOLLIN = true /\ Channel.isReading c = true.
Proof.
  intros Ha [_ Hr] Hh. change Channel.EPOLLIN with (2 ^ 0). rewrite (Channel.has_bit _ 0) by lia.
  rewrite Channel.isReading_bit.
  assert (H : forall n, Z.testbit revents n = true -> n = 0 /\ Z.testbit (Channel.events_ c) 0 = true \/ n = 2 \/ n = 3 \/ n = 4).
  { intros n Hn. pose proof (Hr n Hn) as Hn'. rewrite !Z.lor_spec in Hn'.
    apply orb_true_iff in Hn' as [Hn'|[Hn'|Hn']%orb_true_iff].
    - destruct (Ha n Hn') as [->|]; auto.
    - apply (testbit_pow2 3) in Hn'; [lia | lia].
    - apply (testbit_pow2 4) in Hn'; [lia | lia]. }
  unfold Channel.has in Hh. apply negb_true_iff, Z.eqb_neq in Hh.
  destruct (Z.testbit revents 0) eqn:E; [split; [done|]; destruct (H 0 E) as [[_ ?]|]; [done | lia]|].
  exfalso. apply Hh. apply Z.bits_inj'. intros n _. rewrite Z.land_spec, Z.bits_0.
  destruct (Z.testbit revents n) eqn:En; [|done]. destruct (H n En) as [[-> _]|[->|[->| ->]]]; [congruence|done..].
Qed.

(** The four handlers: at most one reads or closes. *)
Lemma dispatch_cases c revents :
  asked c -> reported c revents ->
  let cbs := Channel.dispatch CrossThread.channel_callbacks revents in
  Forall minor cbs \/
  exists pre main post, cbs = pre ++ main :: post /\ Forall minor pre /\ Forall minor post /\
    (main = Channel.CbClose \/ main = Channel.CbRead /\ Channel.isReading c = true).
Proof.
  intros Ha Hr. pose proof (reported_reads c revents Ha Hr) as Hread.
  assert (He : Forall minor (if Channel.has revents Channel.EPOLLERR then [Channel.CbError] else []))
    by (destruct (Channel.has revents Channel.EPOLLERR); [apply Forall_singleton; by left | constructor]).
  assert (Hw : Forall minor (if Channel.has revents Channel.EPOLLOUT then [Channel.CbWrite] else []))
    by (destruct (Channel.has revents Channel.EPOLLOUT); [apply Forall_singleton; by right | constructor]).
  unfold Channel.dispatch. cbn [CrossThread.channel_callbacks Channel.has_close Channel.has_error
    Channel.has_read Channel.has_write Channel.setErrorCallback Channel.setCloseCallback Channel.setWriteCallback
    Channel.setReadCallback Channel.no_callbacks].
  destruct (Channel.has revents (Z.lor _ _)).
  - destruct (Hread eq_refl) as [-> Hin]. rewrite andb_false_r. right.
    eexists _, Channel.CbRead, _. split; [cbn [app]; reflexivity|]. auto.
  - destruct (Channel.has revents Channel.EPOLLHUP && _).
    + right. exists [], Channel.CbClose. eexists. split; [reflexivity|]. split_and!; auto.
      apply Forall_app. by split.
    + left. cbn [app]. apply Forall_app. by split.
Qed.

(** ** Lemmas: the events of the system *)

Lemma step_ready loop p revents rd w f answers timerId s :
  inv s -> enabled (Ready loop p revents rd w f answers timerId) s ->
  exists s', step (Ready loop p revents rd w f answers timerId) s = Ok s' /\ inv s'.
Proof.
  intros Hi ((o & Ho & <- & Hr) & Hfr & Hok). pose proof Hi as [Hs _].
  assert (Hnc : TcpConnection.state_ (TcpServer.tcp o) <> TcpConnection.kConnecting).
  { intros E. destruct Hr as [Hin _]. rewrite (k_channel s Hs p o Ho) in Hin; [done|].
    unfold established. by rewrite bool_decide_eq_true_2. }
  pose proof (states_established s p o Ho Hnc) as Hp. destruct (object_facts s p o Hs Ho) as (Hwf & _ & Hl & _).
  cbn [step]. rewrite Hl in *. destruct (dispatch_cases _ revents (k_mask s Hs p o Ho) Hr) as
    [Hm|(pre & main & post & E & Hpre & Hpost & Hmain)].
  - destruct (minors_spec p rd w f answers timerId _ s Hm Hi) as (s' & E & Hi' & _); [by rewrite Hp|done|].
    by exists s'.
  - rewrite E in *. apply ready_spec; try done; [destruct Hmain as [|[? _]]; auto | ].
    intros ->. destruct Hmain as [|[_ Hrd]]; [done|]. rewrite Hp. intros [= Hd].
    destruct (TcpConnection.wf_down _ (proj1 Hwf) Hd) as [_ H]. congruence.
Qed.

Lemma core_popped s l x l' :
  core s -> TcpServer.pop l (functors s) = Some (x, l') -> core (set_functors l' s).
Proof.
  intros [Hs Hl Hf Hch Hm] Hpop%TcpServer.pop_perm. split; try done.
  intros l0 q f Hin. apply (Hf l0 q f). rewrite Hpop. by right.
Qed.

Lemma step_functor loop r answers timerId s :
  inv s -> enabled (RunConn loop r answers timerId) s ->
  exists s', step (RunConn loop r answers timerId) s = Ok s' /\ inv s'.
Proof.
  intros [Hs [forced Hw]] He. cbn [step enabled] in *.
  destruct (TcpServer.pop loop (functors s)) as [[[p f] l]|] eqn:Hpop; [|exists s; split; [done|]; by split; eauto].
  assert (Hin : (loop, (p, f)) ∈ functors s) by (rewrite (TcpServer.pop_perm _ _ _ _ Hpop); by left).
  destruct (k_functors s Hs _ _ _ Hin) as (Hf & -> & Hp).
  pose proof (core_popped s _ (p, f) l Hs Hpop) as H1.
  assert (Hi1 : inv (set_functors l s)) by (split; [done|]; by exists forced).
  destruct f as [| | |m| | |]; try done; cbn [CrossThread.functor_event operate_if] in *;
    (edestruct operate_spec as (s' & E & Hi' & _);
      [exact Hi1 | exact Hp | | | | exact He | by exists s']; done).
Qed.

Lemma step_timer loop fired answers timerId s :
  inv s -> enabled (Fire loop fired answers timerId) s ->
  exists s', step (Fire loop fired answers timerId) s = Ok s' /\ inv s'.
Proof.
  intros [Hs [forced Hw]] (p & k & Ha & Hfr). cbn [step]. rewrite Ha.
  destruct (WebChat.i_armed _ _ _ (Hw p) _ _ _ Ha) as (-> & _ & _ & tm & Htm & _).
  assert (Hp : is_Some (states s !! p)).
  { assert (WebChat.up (world_of forced s) p) as [H|H]; [|by eexists..].
    apply (WebChat.i_timers _ _ _ (Hw p)). by eexists. }
  destruct Hp as [st Hp]. destruct (established_some s p st Hp) as (o & Ho & Est & _).
  destruct (WebChat.step_fire peer loopOf (world_of forced s) (loopOf p) fired timerId Hw) as (w' & E & Hw').
  { exists p, k. by split. }
  cbn [WebChat.step] in E. change (WebChat.armed (world_of forced s)) with (armed s) in E. rewrite Ha in E.
  apply handle_ok in E as ([] & c & es & Em & ->). cbn [WebChat.set_armed WebChat.states WebChat.chat] in Em.
  change (WebChat.states (world_of forced s)) with (states s) in Em. rewrite Hp in Em.
  cbn [default from_option id] in Em. change (WebChat.chat (world_of forced s)) with (chat s) in Em.
  change (timeout_handler p k st timerId (chat s) = Ok ((), c, es)) in Em.
  set (s1 := set_armed (delete (loopOf p, fired) (armed s)) s) in *.
  unfold run_timeout, with_object. change (object p s1) with (object p s). rewrite Ho, Est.
  change (chat s1) with (chat s). rewrite Em. cbn [obind].
  pose proof (timeout_about _ _ _ _ _ _ _ _ Em) as Hab. destruct Hab as [Hab Hns].
  destruct (calls_spec (loopOf p) es answers (set_chat c s1) forced) as (s' & f' & E' & H' & Hw2).
  - by apply (core_frame s).
  - change (states (set_chat c s1)) with (states s). apply (about_addressed p s forced es Hs Hw); [by rewrite Hp|].
    eapply Forall_impl; [exact Hab|]. intros []; try done. by intros [|]; [left|set_solver].
  - by apply no_sends_ok.
  - exists s'. split; [done|]. split; [done|]. exists f'. rewrite Hw2. exact Hw'.
Qed.

(** ** Lemmas: the functors of the server *)

(** The functors of a connection that the server queued are on its loop. *)
Lemma functor_on_loop s loop f p l :
  core s -> TcpServer.pop loop (TcpServer.pending (server s)) = Some (f, l) ->
  f = TcpServer.FEstablish p \/ f = TcpServer.FDestroy p ->
  exists o, object p s = Some o /\ (0 < TcpServer.waiting f (server s))%nat /\
    assertInLoopThread loop p (set_server (TcpServer.set_pending l (server s)) s) = Ok tt.
Proof.
  intros Hs Hpop Hf. destruct (TcpServer.pop_elem _ _ _ _ Hpop) as (Hin & _ & Hpos).
  pose proof (TcpServer.i_home _ _ _ _ _ _ (k_server s Hs) _ _ Hin) as Hhome.
  assert (Ho : TcpServer.getLoop <$> object p s = Some loop) by (destruct Hf as [->| ->]; exact Hhome).
  destruct (object p s) as [o|] eqn:E; [|done]. injection Ho as Hl. exists o. split_and!; [done..|].
  unfold assertInLoopThread, with_object. change (object p (set_server _ s)) with (object p s).
  by rewrite E, Hl, Z.eqb_refl.
Qed.

Lemma establish_spec loop p l answers i s :
  inv s -> TcpServer.pop loop (TcpServer.pending (server s)) = Some (TcpServer.FEstablish p, l) ->
  fresh p i s ->
  exists s', run_functor loop (TcpServer.FEstablish p) answers i
      (set_server (TcpServer.set_pending l (server s)) s) = Ok s' /\ inv s' /\
    TcpServer.pending (server s') = l.
Proof.
  intros [Hs [forced Hw]] Hpop Hfr. pose proof (k_server s Hs) as Hsv.
  destruct (TcpServer.run_establish _ _ _ _ _ ipPort_fits (server s) loop p l Hsv Hpop) as (v & Ev & Hv).
  cbn [TcpServer.run_functor TcpServer.connectEstablished] in Ev.
  unfold TcpServer.connectEstablished in Ev. apply obind_Ok in Ev as ([v1 es] & Er & [= ->]).
  destruct (functor_on_loop s loop _ p l Hs Hpop) as (o & Ho & Hpos & Ha); [by left|].
  cbn [run_functor]. unfold operate. rewrite Ha. cbn [set_server server obind]. rewrite Er. cbn [obind].
  unfold object in Ho.
  destruct (object_facts s p o Hs Ho) as (_ & Hcb & Hl & _).
  assert (Hst : TcpConnection.state_ (TcpServer.tcp o) = TcpConnection.kConnecting).
  { destruct (TcpServer.inv_object _ _ _ _ _ _ _ _ Hsv Ho) as [_ [_ _ _ He _ _]].
    case_bool_decide; [done|]. simpl in He. lia. }
  unfold TcpServer.run_tcp in Er. cbn [TcpServer.set_pending TcpServer.objects] in Er. rewrite Ho in Er.
  apply obind_Ok in Er as ([[[] c] es'] & Ec & [= <- <-]).
  pose proof (asking_event _ _ (k_mask s Hs p o Ho) _ _ _ Ec) as Hask.
  destruct (established_acts _ Hcb _ _ _ Ec) as [Hc ->].
  match type of Hv with server_inv ?x => set (v := x) in * end.
  destruct (core_update s v p o c Hs Ho ltac:(congruence) Hask Hv eq_refl eq_refl) as [H1 Hs1].
  rewrite Hc in Hs1.
  assert (Hnone : states s !! p = None).
  { rewrite lookup_states. unfold object. rewrite Ho. simpl. unfold established. by rewrite Hst. }
  destruct (WebChat.step_established peer loopOf (world_of forced s) p i Hw) as (w' & E & Hw'); [by split|].
  destruct (connection_spec loop p answers i (set_server v s) forced (TcpServer.Conn (TcpServer.getLoop o) c) w')
    as (s' & E' & Hv' & Hf' & Hw2); [apply lookup_insert_eq | done | |].
  - cbn [TcpServer.tcp]. rewrite Hc, <- E. cbn [WebChat.step]. f_equal. unfold world_of. by rewrite Hs1.
  - exists s'. cbn [ofold perform_act callback].
    change (onConnection loop p answers i (set_server v (set_server (TcpServer.set_pending l (server s)) s)))
      with (onConnection loop p answers i (set_server v s)). rewrite E'.
    split_and!; [done| |by rewrite Hv']. split; [by apply (core_frame (set_server v s))|].
    exists forced. by rewrite Hw2.
Qed.

(** Nothing of a connection's state changes. *)
Lemma inv_same_states s s' :
  inv s -> core s' -> states s' = states s -> frame s s' -> inv s'.
Proof.
  intros [_ [forced Hw]] Hs' Est (Ec & Ea & Eu). split; [done|]. exists forced.
  unfold world_of. by rewrite Est, Ec, Ea, Eu.
Qed.

Lemma erase_spec loop p l answers i s :
  inv s -> TcpServer.pop loop (TcpServer.pending (server s)) = Some (TcpServer.FErase p, l) ->
  exists s' lp, run_functor loop (TcpServer.FErase p) answers i
      (set_server (TcpServer.set_pending l (server s)) s) = Ok s' /\ inv s' /\
    TcpServer.pending (server s') = l ++ [(lp, TcpServer.FDestroy p)].
Proof.
  intros Hi Hpop. pose proof Hi as [Hs _].
  destruct (TcpServer.run_erase _ _ _ _ _ ipPort_fits (server s) loop p l (k_server s Hs) Hpop) as (v & Ev & Hv).
  cbn [TcpServer.run_functor run_functor set_server server] in *. rewrite Ev. cbn [obind].
  unfold TcpServer.erase in Ev. destruct (TcpServer.objects _ !! p) as [o|]; [|done].
  injection Ev as <-. match type of Hv with server_inv ?x => set (v := x) in * end.
  destruct (core_same s v Hs Hv eq_refl eq_refl) as [H1 Hs1].
  eexists (set_server v s), _. split_and!; [done| |done]. by apply (inv_same_states s).
Qed.

Lemma destroyed_spec loop p l answers i s :
  inv s -> TcpServer.pop loop (TcpServer.pending (server s)) = Some (TcpServer.FDestroy p, l) ->
  exists s', run_functor loop (TcpServer.FDestroy p) answers i
      (set_server (TcpServer.set_pending l (server s)) s) = Ok s' /\ inv s' /\
    TcpServer.pending (server s') = l.
Proof.
  intros Hi Hpop. pose proof Hi as [Hs _]. pose proof (k_server s Hs) as Hsv.
  destruct (TcpServer.run_destroy _ _ _ _ _ ipPort_fits (server s) loop p l Hsv Hpop) as (v & Ev & Hv).
  cbn [TcpServer.run_functor run_functor] in *. unfold TcpServer.connectDestroyed in Ev.
  apply obind_Ok in Ev as ([v1 es] & Er & [= <-]).
  destruct (functor_on_loop s loop _ p l Hs Hpop) as (o & Ho & Hpos & Ha); [by right|].
  unfold operate. rewrite Ha. cbn [set_server server obind]. rewrite Er. cbn [obind]. unfold object in Ho.
  assert (Hd : TcpConnection.state_ (TcpServer.tcp o) = TcpConnection.kDisconnected).
  { destruct (TcpServer.inv_object _ _ _ _ _ _ _ _ Hsv Ho) as [_ [_ _ _ _ Hov _]].
    destruct (TcpConnection.disconnected (TcpServer.tcp o)) eqn:E; [|simpl in Hov; lia].
    by apply bool_decide_eq_true in E. }
  unfold TcpServer.run_tcp in Er. cbn [TcpServer.set_pending TcpServer.objects] in Er. rewrite Ho in Er.
  apply obind_Ok in Er as ([[[] c] es'] & Ec & [= <- <-]).
  pose proof (asking_event _ _ (k_mask s Hs p o Ho) _ _ _ Ec) as Hask.
  destruct (destroyed_acts _ Hd _ _ _ Ec) as [Hc ->]. cbn [ofold obind set_server server].
  match type of Hv with server_inv ?x => set (v := x) in * end.
  destruct (core_update s v p o c Hs Ho ltac:(congruence) Hask Hv eq_refl eq_refl) as [H1 Hs1].
  exists (set_server v s). split_and!; [done| |done]. apply (inv_same_states s); try done.
  rewrite Hs1. apply insert_id. rewrite (states_established s p o Ho); congruence.
Qed.

(** ** Lemmas: new connections *)

(** The pool has threads: no connection runs on the base loop. *)
Hypothesis threads_apart : forall i, threads i <> loop_.

Lemma next_loop_apart pool loop pool' :
  EventLoopThreadPool.loops_ pool = map threads (seq 0 4) ->
  EventLoopThreadPool.getNextLoop pool = Ok (loop, pool') -> (loop =? loop_) = false.
Proof.
  unfold EventLoopThreadPool.getNextLoop. intros ->. cbn [map seq].
  destruct (_ !! _) as [l|] eqn:E; [|done]. intros [= <- _]. apply Z.eqb_neq.
  apply list_elem_of_lookup_2 in E. set_solver.
Qed.

Lemma newConnection_spec fd s v :
  core s -> TcpServer.newConnection loop_ name_ ipPort_ true false fd (server s) = Ok v ->
  server_inv v -> core (set_server v s) /\ states (set_server v s) = states s.
Proof.
  intros Hs E Hv. pose proof (TcpServer.newConnection_loops _ _ _ _ _ _ _ _ E) as Hvl.
  unfold TcpServer.newConnection in E. apply obind_Ok in E as ([loop pool] & El & (c & Ec & E)%obind_Ok).
  rewrite (next_loop_apart _ _ _ (k_loops s Hs) El) in E. set (p := TcpServer.nextConnId_ (server s)) in *.
  assert (Hnone : object p s = None).
  { unfold object. destruct (TcpServer.objects (server s) !! p) as [o|] eqn:Eo; [|done].
    destruct (TcpServer.inv_object _ _ _ _ _ _ _ _ (k_server s Hs) Eo). unfold p in *. lia. }
  unfold TcpConnection.make in Ec. apply obind_Ok in Ec as (bin & _ & (bout & _ & [= <-])%obind_Ok).
  match type of E with context [<[p := ?o]> (TcpServer.objects (server s))] => set (o0 := o) in * end.
  assert (Hvo : TcpServer.objects v = <[p := o0]> (TcpServer.objects (server s))) by by injection E as <-.
  assert (Hst : states (set_server v s) = states s).
  { apply map_eq. intros q. rewrite !lookup_states. unfold object at 1. cbn [set_server server]. rewrite Hvo.
    destruct (decide (q = p)) as [->|]; [by rewrite lookup_insert_eq, Hnone | by rewrite lookup_insert_ne]. }
  assert (Hobj : forall q o, object q (set_server v s) = Some o -> object q s = Some o \/ o = o0).
  { intros q o. unfold object. cbn [set_server server]. rewrite Hvo.
    intros [[_ <-]|[_ ?]]%lookup_insert_Some; [by right | by left]. }
  split; [|done]. destruct Hs as [Hsv Hl Hf Hch Hm]. split; try done.
  - cbn [set_server server]. by rewrite Hvl.
  - by rewrite Hst.
  - intros q o [Hq| ->]%Hobj; [by apply (Hch q) | done].
  - intros q o [Hq| ->]%Hobj; [by apply (Hm q)|]. intros n. cbn. by rewrite Z.bits_0.
Qed.

Lemma accept_spec answers s :
  inv s -> TcpServer.nextConnId_ (server s) + Z.of_nat (length answers) < 2^31 ->
  exists s', step (Accept answers) s = Ok s' /\ inv s'.
Proof.
  cbn [step]. revert s. induction answers as [|[fd|e] answers IH]; intros s Hi Hn; cbn [Acceptor.handleRead];
    [by exists s; destruct s| |by exists s; destruct s].
  pose proof Hi as [Hs _]. cbn [length] in Hn.
  destruct (TcpServer.newConnection_inv _ _ _ true false ipPort_fits (server s) fd (k_server s Hs))
    as (v & E & Hv & Hnext); [lia|].
  destruct (newConnection_spec fd s v Hs E Hv) as [H1 Hs1]. rewrite E. cbn [obind].
  apply (IH (set_server v s)); [by apply (inv_same_states s)|].
  cbn [set_server server]. lia.
Qed.

(** ** Lemmas: runs *)

(** What the functors of the server have still to do. *)
Definition weight (l : list (Z * TcpServer.functor)) : nat :=
  sum_list_with (fun x => match x.2 with TcpServer.FErase _ => 2 | _ => 1 end)%nat l.

Lemma weight_app l l' : weight (l ++ l') = (weight l + weight l')%nat.
Proof. apply sum_list_with_app. Qed.

Lemma weight_perm l l' : l ≡ₚ l' -> weight l = weight l'.
Proof.
  unfold weight. induction 1; simpl; try lia; congruence.
Qed.

Lemma step_server loop answers i s :
  inv s -> enabled (RunServer loop answers i) s ->
  exists s', step (RunServer loop answers i) s = Ok s' /\ inv s' /\
    (TcpServer.pop loop (TcpServer.pending (server s)) <> None ->
     (weight (TcpServer.pending (server s')) < weight (TcpServer.pending (server s)))%nat).
Proof.
  intros Hi He. cbn [step enabled] in *.
  destruct (TcpServer.pop loop (TcpServer.pending (server s))) as [[f l]|] eqn:Hpop; [|by exists s].
  pose proof (weight_perm _ _ (TcpServer.pop_perm _ _ _ _ Hpop)) as Hw.
  destruct f as [p|p|p]; cbn in Hw.
  - destruct (establish_spec loop p l answers i s Hi Hpop He) as (s' & -> & Hi' & Hp).
    exists s'. rewrite Hp. split_and!; [done..|intros _]. unfold weight in *. lia.
  - destruct (erase_spec loop p l answers i s Hi Hpop) as (s' & lp & -> & Hi' & Hp).
    exists s'. rewrite Hp, weight_app. split_and!; [done..|intros _]. unfold weight in *. simpl. lia.
  - destruct (destroyed_spec loop p l answers i s Hi Hpop) as (s' & -> & Hi' & Hp).
    exists s'. rewrite Hp. split_and!; [done..|intros _]. unfold weight in *. lia.
Qed.

Lemma system_step e s : inv s -> enabled e s -> exists s', step e s = Ok s' /\ inv s'.
Proof.
  intros Hi He. destruct e as [answers|loop answers i|loop r answers i|loop p ev rd w f answers i|loop fired answers i].
  - by apply accept_spec.
  - destruct (step_server loop answers i s Hi He) as (s' & E & Hi' & _). by exists s'.
  - by apply step_functor.
  - by apply step_ready.
  - by apply step_timer.
Qed.

Lemma system_run evs s : inv s -> run_enabled evs s -> exists s', run evs s = Ok s' /\ inv s'.
Proof.
  apply (ofold_inv step enabled (fun _ => True) inv); [|by apply Forall_forall].
  intros e s' _. apply system_step.
Qed.

Lemma system_started acceptfd : exists s0, started acceptfd = Ok s0 /\ inv s0.
Proof.
  destruct (TcpServer.started_inv loop_ name_ ipPort_ true false acceptfd 4 false threads ltac:(lia)) as (v & E & Hv & Hl).
  unfold started. change (ChatServer.start threads (ChatServer.make loop_ acceptfd))
    with (TcpServer.started loop_ acceptfd 4 false threads). rewrite E. cbn [obind].
  eexists. split; [reflexivity|].
  assert (Hobj : TcpServer.objects v = ∅).
  { revert E. unfold TcpServer.started, TcpServer.start. cbn. by intros [= <-]. }
  split.
  - assert (Hnone : forall p o, TcpServer.objects v !! p = Some o -> False) by (intros p o; by rewrite Hobj).
    split; cbn [server functors]; [done | done | | |].
    + intros l p f Hin. by apply elem_of_nil in Hin.
    + by intros p o Ho%Hnone.
    + by intros p o Ho%Hnone.
  - exists ∅. unfold world_of, states. cbn [server chat armed used]. rewrite Hobj, omap_empty. apply (WebChat.inv_world0 peer).
Qed.

(** What the invariant says of a connection. *)
Definition up (p : Z) (s : t) : Prop :=
  exists o, object p s = Some o /\
    (TcpConnection.state_ (TcpServer.tcp o) = TcpConnection.kConnected \/
     TcpConnection.state_ (TcpServer.tcp o) = TcpConnection.kDisconnecting).

Lemma up_world forced p s : WebChat.up (world_of forced s) p <-> up p s.
Proof.
  unfold WebChat.up, up. cbn [world_of WebChat.states]. rewrite lookup_states. split.
  - destruct (object p s) as [o|]; simpl; [|by intros [|]]. unfold established. case_bool_decide; [by intros [|]|].
    intros Hst. exists o. split; [done|]. destruct Hst as [[= ->]|[= ->]]; auto.
  - intros (o & -> & Hst). simpl. unfold established. rewrite bool_decide_eq_false_2.
    + destruct Hst as [->| ->]; auto.
    + by destruct Hst as [->| ->].
Qed.

Abbreviation listed := (TcpServer.listed name_ ipPort_).

Lemma up_listed p s : core s -> up p s -> listed p (server s).
Proof.
  intros Hs (o & Ho & Hst). destruct (TcpServer.inv_object _ _ _ _ _ _ _ _ (k_server s Hs) Ho) as [_ [_ _ _ _ _ Hli]].
  apply Hli. left. apply bool_decide_eq_false. by destruct Hst as [->| ->].
Qed.

(** Once the server's functors have run, a connection is up or down, and it is listed or was
    destroyed. *)
Lemma settled_spec p s :
  core s -> TcpServer.pending (server s) = [] ->
  (listed p (server s) <-> up p s) /\
  forall o, object p s = Some o -> TcpServer.times_destroyed p (server s) =
    Nat.b2n (TcpConnection.disconnected (TcpServer.tcp o)).
Proof.
  intros Hs Hp. assert (Hw : forall f, TcpServer.waiting f (server s) = 0%nat)
    by (intros f; unfold TcpServer.waiting; by rewrite Hp).
  split.
  - split; [|by apply up_listed]. intros Hl. pose proof (TcpServer.i_at _ _ _ _ _ _ (k_server s Hs) p) as H.
    unfold TcpServer.inv_at in H. destruct (TcpServer.objects (server s) !! p) as [o|] eqn:Ho.
    + destruct H as [_ [_ _ _ He _ Hli]]. rewrite Hw in He. exists o. split; [done|].
      pose proof (proj1 Hli Hl) as [Hd|H1]; [|rewrite Hw in H1; lia]. apply bool_decide_eq_false in Hd.
      case_bool_decide; [done|]. destruct (TcpConnection.state_ (TcpServer.tcp o)); auto; done.
    + by destruct H as (_ & _ & _ & _ & []).
  - intros o Ho. destruct (TcpServer.inv_object _ _ _ _ _ _ _ _ (k_server s Hs) Ho) as [_ [_ _ _ _ Hov _]].
    by rewrite !Hw in Hov.
Qed.

Definition is_server_step (e : event) : Prop := match e with RunServer _ _ _ => True | _ => False end.

Lemma settle s :
  inv s -> exists evs s', Forall is_server_step evs /\ run_enabled evs s /\ run evs s = Ok s' /\ inv s' /\
    TcpServer.pending (server s') = [].
Proof.
  remember (weight (TcpServer.pending (server s))) as n eqn:En. revert s En.
  induction (lt_wf n) as [n _ IH]. intros s -> Hi.
  destruct (TcpServer.pending (server s)) as [|[loop f] l] eqn:Hp; [by exists [], s|].
  destruct (fresh_exists (TcpServer.subject f) s) as [i Hfr].
  assert (Hpop : TcpServer.pop loop (TcpServer.pending (server s)) = Some (f, l))
    by (rewrite Hp; simpl; by rewrite Z.eqb_refl).
  assert (He : enabled (RunServer loop [] i) s) by (cbn [enabled]; rewrite Hpop; by destruct f).
  destruct (step_server loop [] i s Hi He) as (s1 & E1 & Hi1 & Hlt). rewrite Hpop, Hp in Hlt.
  destruct (IH _ (Hlt ltac:(done)) s1 eq_refl Hi1) as (evs & s' & Hevs & Hen & E & Hi' & Hp').
  exists (RunServer loop [] i :: evs), s'. unfold run_enabled, run. cbn [ofold ofold_ok]. rewrite E1. cbn [obind].
  split_and!; try done. by constructor.
Qed.

(** ** Properties *)

(** C2. In every run of the chat server, all of its connections, loops and timers together,
    nothing faults (everything runs on the loop that [assertInLoopThread] asks for, and every
    [send], [shutdown], [forceClose] and timer of a handler reaches a connection object that
    still exists), and the maps of [WebChatServer] and the map of
    [TcpServer] agree with the connections: a connection is a user, and has its timers and its
    parser, exactly while it is established and not down, and is then in the server's map; a
    connected one has exactly one armed timer, the idle one of its own loop; once it is down
    no timer is armed for it. *)
Theorem members_are_connections (acceptfd : Z) (evs : list event) :
  exists s0, started acceptfd = Ok s0 /\
    (run_enabled evs s0 ->
     exists s, run evs s0 = Ok s /\ forall p,
       (p ∈ WebChat.connections_ (chat s) <-> up p s) /\
       (is_Some (WebChat.idleTimers_ (chat s) !! p) <-> up p s) /\
       (is_Some (WebChat.parsers_ (chat s) !! p) <-> up p s) /\
       (up p s -> listed p (server s)) /\
       (forall o, object p s = Some o ->
          TcpConnection.state_ (TcpServer.tcp o) = TcpConnection.kConnected ->
          exists i, forall key k, armed s !! key = Some (p, k) <->
            key = (loopOf p, i) /\ k = WebChat.IdleTimeout) /\
       (~ up p s -> forall key k, armed s !! key <> Some (p, k))).
Proof.
  destruct (system_started acceptfd) as (s0 & E0 & Hi0). exists s0. split; [done|]. intros Hrun.
  destruct (system_run evs s0 Hi0 Hrun) as (s & E & Hs & forced & Hw). exists s. split; [done|].
  intros p. destruct (Hw p) as [Iu It Ip _ Ia _ Ic _]. rewrite up_world in Iu, It, Ip.
  split_and!; [done..|by apply up_listed| |].
  - intros o Ho Hst. assert (Hp : states s !! p = Some TcpConnection.kConnected).
    { rewrite (states_established s p o Ho); congruence. }
    destruct (Ic Hp) as (i & Hi & Htm & Ha). exists i. intros [l j] k. split; [|by intros [[= -> ->] ->]].
    intros Hk. destruct (Ia _ _ _ Hk) as (-> & Hj & _ & tm & Htm' & <-).
    rewrite Htm in Htm'. injection Htm' as <-. by destruct k.
  - intros Hup [l j] k Hk. destruct (Ia _ _ _ Hk) as (_ & _ & _ & tm & Htm & _).
    apply Hup, It. by exists tm.
Qed.

(** C4. The server forgets what is over: from every reachable state, once the loops have run
    the functors that the server queued (finitely many, none of which faults), its map holds
    exactly the users of the chat, which are the connections that are up, and
    [connectDestroyed] has run exactly once on every other connection that was made, of which
    the chat keeps nothing. *)
Theorem chat_settles (acceptfd : Z) (evs : list event) (s0 s : t) :
  started acceptfd = Ok s0 -> run_enabled evs s0 -> run evs s0 = Ok s ->
  exists more s', Forall is_server_step more /\ run_enabled more s /\ run more s = Ok s' /\
    TcpServer.pending (server s') = [] /\
    forall p,
      (listed p (server s') <-> p ∈ WebChat.connections_ (chat s')) /\
      (p ∈ WebChat.connections_ (chat s') <-> up p s') /\
      forall o, object p s' = Some o -> ~ up p s' ->
        TcpServer.times_destroyed p (server s') = 1%nat /\
        WebChat.idleTimers_ (chat s') !! p = None /\ WebChat.parsers_ (chat s') !! p = None.
Proof.
  intros E0 Hrun E. destruct (system_started acceptfd) as (s0' & E0' & Hi0). simplify_eq.
  rewrite E0 in E0'. injection E0' as <-. destruct (system_run evs s0 Hi0 Hrun) as (s1 & E1 & Hi).
  rewrite E in E1. injection E1 as <-.
  destruct (settle s Hi) as (more & s' & Hm & Hen & E' & [Hs' [forced Hw]] & Hp).
  exists more, s'. split_and!; [done..|]. intros p. destruct (settled_spec p s' Hs' Hp) as [Hl Ht].
  destruct (Hw p) as [Iu It Ip _ _ _ _ _]. rewrite up_world in Iu, It, Ip.
  split_and!; [by rewrite Hl, Iu | done|]. intros o Ho Hup.
  assert (Hd : TcpConnection.disconnected (TcpServer.tcp o) = true).
  { destruct (TcpConnection.disconnected (TcpServer.tcp o)) eqn:Ed; [done|]. exfalso. apply Hup, Hl.
    destruct (TcpServer.inv_object _ _ _ _ _ _ _ _ (k_server s' Hs') Ho) as [_ [_ _ _ _ _ Hli]].
    apply Hli. by left. }
  rewrite (Ht o Ho), Hd. split_and!; [done|by apply eq_None_not_Some; rewrite It|by apply eq_None_not_Some; rewrite Ip].
Qed.

End system.

(** ** Witnesses *)

(** Two users; the first one sends a message to the chat, which the loop of the second one
    delivers; then the second one hangs up. *)
Definition test_events : list event :=
  [Accept [SysOk 7; SysOk 8; SysErr EAGAIN]; RunServer 100 [] 1; RunServer 101 [] 1;
   Ready 100 1 Channel.EPOLLIN (Buffer.ReadvOk (HttpParser.render HttpParser.post_chat) [])
     (SysOk 0) (SysOk 0) [SysOk 5; SysErr EAGAIN] 2;
   RunConn 101 (SysOk 3) [] 2;
   Ready 101 2 Channel.EPOLLHUP (Buffer.ReadvErr EAGAIN) (SysOk 0) (SysOk 0) [] 2].

Abbreviation test_step := (step 1 TcpServer.test_ip WebChat.test_peer).
Abbreviation test_enabled := (enabled 1 TcpServer.test_ip TcpServer.test_threads WebChat.test_peer).
Abbreviation test_run := (run 1 TcpServer.test_ip WebChat.test_peer).

Definition nothing : t := mk (TcpServer.make 1 5) WebChat.make ∅ ∅ [].

Definition server0 : t :=
  Eval vm_compute in match started 1 TcpServer.test_threads 5 with Ok s => s | Fault _ => nothing end.

Lemma reported_by_mask c revents :
  Channel.inEpoll_ c = true ->
  Z.land revents (Z.lor (Channel.events_ c) (Z.lor Channel.EPOLLERR Channel.EPOLLHUP)) = revents ->
  reported c revents.
Proof.
  intros Hc Hm. split; [done|]. intros n Hn. rewrite <- Hm, Z.land_spec in Hn.
  by apply andb_true_iff in Hn as [_ ?].
Qed.

Ltac enabled_here :=
  lazymatch goal with
  | |- enabled _ _ _ _ (Ready _ _ _ _ _ _ _ _) _ =>
      split; [eexists; split; [vm_compute; reflexivity | split; [vm_compute; reflexivity|]; apply reported_by_mask; vm_compute; reflexivity]|]
  | _ => idtac
  end;
  vm_compute; try split_and!; try exact I; try reflexivity; try discriminate.

Lemma test_events_ok : run_enabled 1 TcpServer.test_ip TcpServer.test_threads WebChat.test_peer test_events server0.
Proof.
  unfold run_enabled, test_events.
  repeat (eapply ofold_ok_cons; [by enabled_here | vm_compute; reflexivity |]).
  exact I.
Qed.

Lemma test_threads_apart i : TcpServer.test_threads i <> 1.
Proof. unfold TcpServer.test_threads. lia. Qed.

Definition after_events : t :=
  Eval vm_compute in match test_run test_events server0 with Ok s => s | Fault _ => nothing end.

Lemma after_events_ok : test_run test_events server0 = Ok after_events.
Proof. vm_compute. reflexivity. Qed.

Lemma members_are_connections_witness :
  exists s, test_run test_events server0 = Ok s /\
    (1 ∈ WebChat.connections_ (chat s) <-> up 1 s) /\ (2 ∈ WebChat.connections_ (chat s) <-> up 2 s).
Proof.
  destruct (members_are_connections 1 TcpServer.test_ip TcpServer.test_threads WebChat.test_peer
    TcpServer.test_ip_fits test_threads_apart 5 test_events) as (s0 & E0 & H).
  assert (s0 = server0) as -> by (vm_compute in E0; injection E0 as <-; reflexivity).
  destruct (H test_events_ok) as (s & E & Hs). exists s. split; [exact E|].
  split; [apply (Hs 1) | apply (Hs 2)].
Defined.

Lemma chat_settles_witness :
  exists more s', Forall is_server_step more /\ test_run more after_events = Ok s' /\
    TcpServer.pending (server s') = [] /\
    (TcpServer.listed ChatServer.name TcpServer.test_ip 2 (server s') <-> 2 ∈ WebChat.connections_ (chat s')).
Proof.
  destruct (chat_settles 1 TcpServer.test_ip TcpServer.test_threads WebChat.test_peer
    TcpServer.test_ip_fits test_threads_apart 5 test_events server0 after_events) as (more & s' & H1 & _ & E & Hp & H);
    [vm_compute; reflexivity | apply test_events_ok | apply after_events_ok |].
  exists more, s'. split; [exact H1|]. split; [exact E|]. split; [exact Hp|]. apply (H 2).
Defined.

(** In that run the message is queued on the loop of the second user; who, having hung up, is
    forgotten by the chat, and then by the server. *)
Example message_relayed :
  match test_run (take 4 test_events) server0 with
  | Ok s => functors s =
      [(101, (2, TcpConnection.FSendInLoop
        (str "Broadcast: [" ++ WebChat.test_peer 1 ++ str "]: hello" ++ Buffer.kCRLF)))]
  | Fault _ => False
  end.
Proof. vm_compute. reflexivity. Qed.

Example second_user_over :
  WebChat.connections_ (chat after_events) = {[1]} /\ TcpServer.pending (server after_events) = [(1, TcpServer.FErase 2)].
Proof. split; vm_compute; reflexivity. Qed.

End ChatSystem.
