(* ===== verification/Delivery.v ===== *)
(** * Delivery: what a message posted to the chat does to every other user

    One step of the whole chat server (ChatSystem): the loop of a connection reads, from
    [TcpConnection::handleRead] through [WebChatServer::onMessage] and [broadcast] in
    src/main.cpp to [TcpConnection::send] on the connections of the other users, on the same
    loop and on others. *)

From stdpp Require Import fin_maps sorting.
From S2P Require Import Prelude Buffer InputQueue HttpParser Channel TcpConnection Duration TimerQueue.
From S2P Require Import EventLoop CrossThread TcpServer Teardown Digits HttpReader WebChat Served Behaviour.
From S2P Require Import ChatSystem.

Module Delivery.

Import Behaviour.Behaviour ChatSystem.ChatSystem.

Section delivery.
Variables (loop_ : Z) (ipPort_ : bytes) (threads : nat -> Z) (peer : Z -> bytes).

(** The functors of the connection [q] that are queued, oldest first. *)
Definition functors_of (q : Z) (s : t) : list TcpConnection.functor :=
  omap (fun x => if x.2.1 =? q then Some x.2.2 else None) (functors s).

(** The connection becomes [c'] by sends of these messages in order, on its own loop. *)
Inductive sends_to : list bytes -> TcpConnection.t -> TcpConnection.t -> Prop :=
| sends_nil c : sends_to [] c c
| sends_cons r m ms c c1 es c' :
    TcpConnection.run_event (TcpConnection.EvSend true r m) c = Ok (tt, c1, es) ->
    sends_to ms c1 c' -> sends_to (m :: ms) c c'.

(** The messages that requests of the connection [p] make the server send to every user. *)
Definition posted (p : Z) (rs : list (bytes * bytes)) : list bytes :=
  omap (fun r => if bool_decide (r.1 = str "/") then None
                 else if bool_decide (r.1 = str "/chat")
                 then Some (str "Broadcast: [" ++ peer p ++ str "]: " ++ r.2 ++ Buffer.kCRLF)
                 else None) rs.

(** The messages reach the connection [q], from a handler on the loop [cur]: they are sent at
    once on its own loop, and queued in order on another. *)
Definition reached (cur q : Z) (ms : list bytes) (s s' : t) : Prop :=
  exists o o', object q s = Some o /\ object q s' = Some o' /\
    TcpServer.getLoop o' = TcpServer.getLoop o /\
    TcpConnection.state_ (TcpServer.tcp o') = TcpConnection.kConnected /\
    TcpConnection.callbacks_ (TcpServer.tcp o') = callbacks /\
    if TcpServer.getLoop o =? cur
    then sends_to ms (TcpServer.tcp o) (TcpServer.tcp o') /\ functors_of q s' = functors_of q s
    else o' = o /\ functors_of q s' = functors_of q s ++ map TcpConnection.FSendInLoop ms.

Definition ready (q : Z) (s : t) : Prop :=
  exists o, object q s = Some o /\ TcpConnection.state_ (TcpServer.tcp o) = TcpConnection.kConnected /\
    TcpConnection.callbacks_ (TcpServer.tcp o) = callbacks.

(** ** Lemmas: one call *)

Lemma sends_app ms ms' c c1 c' : sends_to ms c c1 -> sends_to ms' c1 c' -> sends_to (ms ++ ms') c c'.
Proof. induction 1 as [|r m ms c c1 es c2 E H IH]; [done|]. intros H'. by eapply sends_cons; [|apply IH]. Qed.

Lemma reached_trans cur q ms ms' s s1 s' :
  reached cur q ms s s1 -> reached cur q ms' s1 s' -> reached cur q (ms ++ ms') s s'.
Proof.
  intros (o & o1 & Ho & Ho1 & Hl & _ & _ & H) (o1' & o' & Ho1' & Ho' & Hl' & Hst & Hcb & H').
  rewrite Ho1 in Ho1'. injection Ho1' as <-. exists o, o'. split_and!; [done..|congruence|done|done|].
  rewrite Hl in H'. destruct (_ =? cur).
  - destruct H as [H Hf], H' as [H' Hf']. split; [by eapply sends_app | congruence].
  - destruct H as [-> Hf], H' as [-> Hf']. split; [done|]. by rewrite Hf', Hf, map_app, app_assoc.
Qed.

Lemma reached_ready cur q ms s s' : reached cur q ms s s' -> ready q s'.
Proof. intros (o & o' & _ & Ho' & _ & Hst & Hcb & _). by exists o'. Qed.

(** The connection and its functors are as before. *)
Lemma untouched_reached cur q s s' :
  ready q s -> object q s' = object q s -> functors_of q s' = functors_of q s -> reached cur q [] s s'.
Proof.
  intros (o & Ho & Hst & Hcb) E F. exists o, o. rewrite E, F. split_and!; try done.
  destruct (_ =? cur); [split; [constructor | done] | by rewrite app_nil_r].
Qed.

Lemma functors_of_snoc q s l p f :
  functors_of q (set_functors (functors s ++ [(l, (p, f))]) s) =
    functors_of q s ++ (if p =? q then [f] else []).
Proof.
  unfold functors_of. cbn [set_functors functors]. rewrite omap_app. f_equal. simpl. by destruct (p =? q).
Qed.

(** Functors are queued for [p]: its own, in order, and nobody else's. *)
Lemma queued_functors p fs : forall s s',
  ofold (queue p) fs s = Ok s' ->
  server s' = server s /\ forall q, functors_of q s' = functors_of q s ++ (if p =? q then fs else []).
Proof.
  induction fs as [|f fs IH]; intros s s'; cbn [ofold].
  - intros [= <-]. split; [done|]. intros q. destruct (p =? q); by rewrite app_nil_r.
  - unfold queue at 1, with_object. intros (s1 & E1 & E)%obind_Ok.
    destruct (object p s) as [o|]; [|done]. injection E1 as <-.
    destruct (IH _ _ E) as [Ev Ef]. split; [done|]. intros q. rewrite Ef, functors_of_snoc.
    destruct (p =? q); [by rewrite <- app_assoc | by rewrite !app_nil_r].
Qed.

(** A method of another connection. *)
Lemma method_other p q e s s' :
  method p e s = Ok s' -> q <> p ->
  object q s' = object q s /\ functors_of q s' = functors_of q s.
Proof.
  unfold method, TcpServer.run_tcp. intros ([v es] & E & Eq)%obind_Ok Hne.
  destruct (TcpServer.objects (server s) !! p) as [o|]; [|done].
  apply obind_Ok in E as ([[[] c] es'] & _ & [= <- <-]).
  destruct (queued_functors _ _ _ _ Eq) as [Ev Ef]. split.
  - unfold object. rewrite Ev. cbn [set_server server TcpServer.set_objects TcpServer.objects].
    by rewrite lookup_insert_ne.
  - rewrite Ef, (proj2 (Z.eqb_neq p q)) by congruence. by rewrite app_nil_r.
Qed.

(** [send] on a connected connection: at once, or by a functor. *)
Lemma send_behaves b r m c :
  TcpConnection.state_ c = TcpConnection.kConnected -> TcpConnection.callbacks_ c = callbacks ->
  wlp (TcpConnection.run_event (TcpConnection.EvSend b r m)) c (fun _ c' es =>
    TcpConnection.state_ c' = TcpConnection.kConnected /\ TcpConnection.callbacks_ c' = callbacks /\
    CrossThread.queued es = (if b then [] else [TcpConnection.FSendInLoop m]) /\ (b = false -> c' = c)).
Proof.
  intros Hst Hcb. cbn [TcpConnection.run_event]. unfold TcpConnection.send. wlp_step. wlp_step.
  unfold TcpConnection.is_state. rewrite bool_decide_eq_true_2 by done. cbn [st_when].
  destruct b; [|by apply wlp_tell].
  eapply wlp_mono; [by apply silent_sendInLoop|]. intros _ c' es (E & S & Hcb'). split_and!; [congruence|done| |done].
  cbn [app]. by apply (queued_acts _ []).
Qed.

Lemma send_reached cur q r m s s' :
  ready q s -> call cur (WebChat.ESend q m, r) s = Ok s' -> reached cur q [m] s s'.
Proof.
  intros (o & Ho & Hst & Hcb). unfold call. cbn [fst snd]. unfold with_object. rewrite Ho.
  unfold method, TcpServer.run_tcp. unfold object in Ho. rewrite Ho.
  intros ([v es] & ([[[] c] es'] & E & [= <- <-])%obind_Ok & Eq)%obind_Ok.
  destruct (send_behaves _ _ _ _ Hst Hcb _ _ _ E) as (Hst' & Hcb' & Hqu & Hsame).
  destruct (queued_functors _ _ _ _ Eq) as [Ev Ef]. specialize (Ef q). rewrite Z.eqb_refl, Hqu in Ef.
  exists o, (TcpServer.Conn (TcpServer.getLoop o) c). split_and!; try done.
  { unfold object. rewrite Ev. apply lookup_insert_eq. }
  cbn [TcpServer.getLoop TcpServer.tcp]. destruct (TcpServer.getLoop o =? cur).
  - split; [|by rewrite Ef, app_nil_r]. by eapply sends_cons; [exact E | constructor].
  - rewrite (Hsame eq_refl). by destruct o.
Qed.

(** What a handler of [p] calls: the messages to [q], if [q] is another connection. *)
Lemma call_reached cur p q users x s s' :
  q <> p -> about p users x.1 -> ready q s -> call cur x s = Ok s' ->
  reached cur q (Served.to_conn q (WebChat.sent [x.1])) s s'.
Proof.
  intros Hne Ha Hq E. destruct x as [e r]. cbn [fst] in *.
  destruct e as [c m|c|c|c d k i|c i|line]; cbn [about] in Ha; unfold Served.to_conn; simpl.
  - destruct (c =? q) eqn:Ec; zbool; [subst c; by apply (send_reached cur q r)|].
    unfold call in E. cbn [fst snd] in E. unfold with_object in E. destruct (object c s); [|done].
    destruct (method_other c q _ s s' E); [congruence|]. by apply untouched_reached.
  - subst c. unfold call in E. cbn [fst] in E. unfold with_object in E. destruct (object p s); [|done].
    destruct (method_other p q _ s s' E Hne). by apply untouched_reached.
  - subst c. destruct (method_other p q _ s s' E Hne). by apply untouched_reached.
  - unfold call in E. cbn [fst] in E. unfold with_object in E. destruct (object c s); [|done].
    injection E as <-. by apply untouched_reached.
  - unfold call in E. cbn [fst] in E. unfold with_object in E. destruct (object c s); [|done].
    injection E as <-. by apply untouched_reached.
  - injection E as <-. by apply untouched_reached.
Qed.

Lemma calls_reached cur p q users es : forall answers s s',
  q <> p -> Forall (about p users) es -> ready q s ->
  ofold (call cur) (with_answers es answers) s = Ok s' ->
  reached cur q (Served.to_conn q (WebChat.sent es)) s s'.
Proof.
  induction es as [|e es IH]; intros answers s s' Hne Ha Hq.
  { intros [= <-]. by apply untouched_reached. }
  cbn [with_answers ofold]. apply Forall_cons in Ha as [He Ha]. intros (s1 & E1 & E)%obind_Ok.
  pose proof (call_reached _ _ _ users (e, default (SysErr EAGAIN) (head answers)) _ _ Hne He Hq E1) as H1.
  change (e :: es) with ([e] ++ es). rewrite WebChat.sent_app, Served.to_conn_app.
  eapply reached_trans; [exact H1|]. eapply IH; [done..| |exact E]. by eapply reached_ready.
Qed.

(** ** Lemmas: the messages *)

Lemma to_conn_posted p q users rs :
  q <> p -> q ∈ users ->
  Served.to_conn q (flat_map (WebChat.answers peer users p) rs) = posted p rs.
Proof.
  intros Hne Hq. induction rs as [|r rs IH]; [done|]. cbn [flat_map]. rewrite Served.to_conn_app, IH.
  change (posted p (r :: rs)) with (posted p ([r] ++ rs)). unfold posted at 2. rewrite omap_app. f_equal.
  assert (Hp : (p =? q) = false) by (apply Z.eqb_neq; congruence).
  unfold WebChat.answers. cbn [omap list_omap]. case_bool_decide; [unfold Served.to_conn; simpl; by rewrite Hp|].
  case_bool_decide; [|done]. rewrite Served.to_conn_app.
  set (m := str "Broadcast: [" ++ _). change (map (fun user => (user, m))) with (map (fun c : Z => (c, m))).
  pose proof (merge_sort_Permutation Z.le (elements users)) as Hperm.
  rewrite (Served.to_conn_map peer) by (rewrite Hperm; apply NoDup_elements).
  rewrite decide_True by (rewrite Hperm; by apply elem_of_elements).
  unfold Served.to_conn. simpl. by rewrite Hp.
Qed.

Lemma to_conn_outcome p q users mal rs :
  q <> p -> q ∈ users ->
  Served.to_conn q (WebChat.outcome_sent peer users p mal rs) = posted p (if mal then [] else rs).
Proof.
  intros Hne Hq. destruct mal; [|by apply to_conn_posted]. unfold Served.to_conn. simpl.
  by rewrite (proj2 (Z.eqb_neq p q)) by congruence.
Qed.

(** ** Lemmas: the step *)

Hypothesis ipPort_fits : blen ipPort_ <= 21.
Hypothesis threads_apart : forall i, threads i <> loop_.

(** The world of [p] changes before the calls; the others are as they were. *)
Lemma prepared_other p q v c buf s :
  q <> p ->
  TcpServer.objects v = <[p := c]> (TcpServer.objects (server s)) ->
  forall chat', let s1 := set_chat chat' (set_input p buf (set_server v s)) in
  object q s1 = object q s /\ functors_of q s1 = functors_of q s.
Proof.
  intros Hne Hv chat'. cbv zeta. split; [|done]. unfold object, set_input.
  cbn [set_chat set_server server TcpServer.set_objects TcpServer.objects].
  by rewrite lookup_alter_ne, Hv, lookup_insert_ne.
Qed.

(** A read of [p]: the calls of the message callback. *)
Lemma read_step p o d0 d1 answers i s s' :
  inv loop_ ipPort_ threads s -> object p s = Some o ->
  TcpConnection.event_ok (TcpServer.tcp o) (TcpConnection.EvRead (Buffer.ReadvOk d0 d1)) ->
  d0 ++ d1 <> [] ->
  operate loop_ ipPort_ peer (loopOf threads p) p (TcpConnection.EvRead (Buffer.ReadvOk d0 d1)) answers i s = Ok s' ->
  exists n mal rs p' rest,
    WebChat.parseRequests n (WebChat.parser_of (chat s) p)
      (Buffer.contents (TcpConnection.inputBuffer_ (TcpServer.tcp o)) ++ d0 ++ d1) = Ok (mal, rs, p', rest) /\
    forall q, q <> p -> q ∈ WebChat.connections_ (chat s) -> ready q s ->
      reached (loopOf threads p) q (posted p (if mal then [] else rs)) s s'.
Proof.
  intros [Hs [forced Hw]] Ho Hok Hne. destruct (object_facts _ _ _ s p o Hs Ho) as (Hwf & Hcb & _ & _).
  destruct (Served.handleRead_data _ _ _ Hwf Hok Hne) as (b & Hr & Hb & Hc); [by rewrite Hcb|].
  unfold operate. rewrite (on_its_loop _ _ _ s p o Hs Ho). cbn [obind].
  unfold TcpServer.run_tcp. unfold object in Ho. rewrite Ho. cbn [TcpConnection.run_event]. rewrite Hr.
  cbn [obind acts omap list_omap ofold perform_act callback].
  set (v := TcpServer.set_objects _ _). intros (s1 & E & [= <-])%obind_Ok.
  unfold onMessage, with_object in E.
  assert (Ho1 : object p (set_server v s) = Some (TcpServer.Conn (TcpServer.getLoop o) (TcpConnection.set_input b (TcpServer.tcp o))))
    by apply lookup_insert_eq.
  rewrite Ho1 in E. apply obind_Ok in E as ([[buf c'] es] & Em & E).
  change (chat (set_server v s)) with (chat s) in Em. cbn [TcpServer.tcp] in Em.
  change (TcpConnection.inputBuffer_ (TcpConnection.set_input b (TcpServer.tcp o))) with b in Em.
  set (st := TcpConnection.state_ _) in Em. pose proof (onMessage_about _ _ _ _ _ _ _ _ _ Em) as Ha.
  pose proof (WebChat.onMessage_spec peer (chat s) p b st i (parser_between _ _ _ p Hw) Hb) as Hsp.
  unfold wp in Hsp. rewrite Em in Hsp. destruct Hsp as (n & mal & rs & p' & Hk & _ & _ & _ & _ & _ & Hsent & _).
  exists n, mal, rs, p', (Buffer.contents buf). rewrite Hc in Hk. split; [done|].
  intros q Hqp Hq Hrdy. rewrite <- (to_conn_outcome p q _ mal rs Hqp Hq), <- Hsent.
  destruct (prepared_other p q v _ buf s Hqp eq_refl c') as [E1 E2].
  rewrite <- (app_nil_l (Served.to_conn q _)).
  eapply reached_trans; [by apply (untouched_reached _ q s (set_chat c' (set_input p buf (set_server v s))))|].
  eapply calls_reached; [done | exact Ha | | exact E].
  destruct Hrdy as (oq & Hoq & Hq'). exists oq. by rewrite E1.
Qed.

(** A connected connection is a user of the chat. *)
Lemma connected_ready q oq s :
  inv loop_ ipPort_ threads s -> object q s = Some oq ->
  TcpConnection.state_ (TcpServer.tcp oq) = TcpConnection.kConnected ->
  ready q s /\ q ∈ WebChat.connections_ (chat s).
Proof.
  intros [Hs [forced Hw]] Hq Hst. destruct (object_facts _ _ _ s q oq Hs Hq) as (_ & Hcb & _).
  split; [by exists oq|]. apply (WebChat.i_users _ _ _ (Hw q)), up_world. exists oq. auto.
Qed.

(** ** Properties *)

(** C3. Whatever bytes a connection of the chat server delivers in a read, in every reachable
    state: the requests that these bytes complete are those of the incremental parser, and
    each message they post to the chat reaches every other connected user exactly once and
    in order, with the name of its sender: a user on the same loop gets it by a [send] in
    place, a user on another loop by a functor at the end of the queue, and nothing else is
    done to these users. *)
Theorem posts_reach_users (acceptfd : Z) (evs : list event) (s0 s : t) (loop p : Z) (d0 d1 : bytes)
    (w f : sysret) (answers : list sysret) (i : Z) :
  let e := Ready loop p Channel.EPOLLIN (Buffer.ReadvOk d0 d1) w f answers i in
  started loop_ threads acceptfd = Ok s0 ->
  run_enabled loop_ ipPort_ threads peer evs s0 -> run loop_ ipPort_ peer evs s0 = Ok s ->
  enabled loop_ ipPort_ threads peer e s -> d0 ++ d1 <> [] ->
  exists s' o n mal rs p' rest,
    step loop_ ipPort_ peer e s = Ok s' /\ object p s = Some o /\
    WebChat.parseRequests n (WebChat.parser_of (chat s) p)
      (Buffer.contents (TcpConnection.inputBuffer_ (TcpServer.tcp o)) ++ d0 ++ d1) = Ok (mal, rs, p', rest) /\
    forall q oq, q <> p -> object q s = Some oq ->
      TcpConnection.state_ (TcpServer.tcp oq) = TcpConnection.kConnected ->
      reached loop q (posted p (if mal then [] else rs)) s s'.
Proof.
  intros e E0 Hrun E He Hne. destruct (system_started loop_ ipPort_ threads peer acceptfd) as (s0' & E0' & Hi0).
  rewrite E0 in E0'. injection E0' as <-.
  destruct (system_run _ _ _ peer ipPort_fits threads_apart evs s0 Hi0 Hrun) as (s1 & E1 & Hi).
  rewrite E in E1. injection E1 as <-.
  destruct (step_ready _ _ _ _ ipPort_fits _ _ _ _ _ _ _ _ _ Hi He) as (s' & Es & _).
  destruct He as ((o & Ho & Hl & _) & _ & Hok).
  destruct (object_facts _ _ _ s p o (proj1 Hi) Ho) as (_ & _ & Hloop & _). rewrite Hloop in Hl. subst loop.
  change (Channel.dispatch CrossThread.channel_callbacks Channel.EPOLLIN) with [Channel.CbRead] in Hok.
  cbn [ofold_ok] in Hok. destruct Hok as [[Hok _] _]. unfold when_object in Hok. rewrite Ho in Hok.
  pose proof Es as Eo. cbn [step] in Eo.
  change (Channel.dispatch CrossThread.channel_callbacks Channel.EPOLLIN) with [Channel.CbRead] in Eo.
  cbn [ofold] in Eo. unfold handler in Eo. cbn [CrossThread.handler_event operate_if] in Eo.
  apply obind_Ok in Eo as (s2 & Eo & [= <-]).
  destruct (read_step p o d0 d1 answers i s s2 Hi Ho Hok Hne Eo) as (n & mal & rs & p' & rest & Hk & Hq).
  exists s2, o, n, mal, rs, p', rest. split_and!; [done..|]. intros q oq Hqp Hoq Hst.
  destruct (connected_ready q oq s Hi Hoq Hst). by apply Hq.
Qed.

End delivery.

(** ** Witness *)

(** Two users, on two loops; the first one sends a message. *)
Definition two_users : list event :=
  [Accept [SysOk 7; SysOk 8; SysErr EAGAIN]; RunServer 100 [] 1; RunServer 101 [] 1].

Definition joined : t :=
  Eval vm_compute in match test_run two_users server0 with Ok s => s | Fault _ => nothing end.

Lemma two_users_ok : run_enabled 1 TcpServer.test_ip TcpServer.test_threads WebChat.test_peer two_users server0.
Proof. repeat (eapply ofold_ok_cons; [by enabled_here | vm_compute; reflexivity |]). exact I. Qed.

Lemma joined_ok : test_run two_users server0 = Ok joined.
Proof. vm_compute. reflexivity. Qed.

Definition test_post : event :=
  Ready 100 1 Channel.EPOLLIN (Buffer.ReadvOk (HttpParser.render HttpParser.post_chat) [])
    (SysOk 0) (SysOk 0) [SysOk 5; SysErr EAGAIN] 2.

Lemma test_post_ok : enabled 1 TcpServer.test_ip TcpServer.test_threads WebChat.test_peer test_post joined.
Proof. unfold test_post. by enabled_here. Qed.

Lemma posts_reach_users_witness :
  exists s' o n mal rs p' rest, object 1 joined = Some o /\
    WebChat.parseRequests n (WebChat.parser_of (chat joined) 1)
      (Buffer.contents (TcpConnection.inputBuffer_ (TcpServer.tcp o)) ++
       HttpParser.render HttpParser.post_chat ++ []) = Ok (mal, rs, p', rest) /\
    reached 100 2 (posted WebChat.test_peer 1 (if mal then [] else rs)) joined s'.
Proof.
  destruct (posts_reach_users 1 TcpServer.test_ip TcpServer.test_threads WebChat.test_peer TcpServer.test_ip_fits
    test_threads_apart 5 two_users server0 joined 100 1 (HttpParser.render HttpParser.post_chat) []
    (SysOk 0) (SysOk 0) [SysOk 5; SysErr EAGAIN] 2) as (s' & o & n & mal & rs & p' & rest & _ & Ho & Hk & Hq).
  - vm_compute. reflexivity.
  - exact two_users_ok.
  - exact joined_ok.
  - exact test_post_ok.
  - vm_compute. discriminate.
  - exists s', o, n, mal, rs, p', rest. split; [exact Ho|]. split; [exact Hk|].
    eapply (Hq 2); [discriminate | vm_compute; reflexivity | vm_compute; reflexivity].
Defined.

End Delivery.
